(* ===== verification/_CoqProject ===== *)
-Q . S2P
Prelude.v
Types.v
Vfs.v
PagerConfig.v
WalRecord.v
WalReader.v
WalWriter.v
GroupCommit.v
WalRecovery.v
Mvcc.v
Conflict.v
Page.v
Cache.v
PagerMeta.v
Pager.v
PagerStore.v
PagerLife.v
PagerContract.v
Overflow.v
OverflowLaws.v
OrdMap.v
MemTables.v
MemTableLaws.v
Transaction.v
TransactionLaws.v
PageStore.v
PagerPages.v
BTreeNode.v
BTree.v
BTreeOps.v
BTreeWriter.v
BTreeShape.v
BTreeLaws.v
BTreeLeaves.v
BTreeReads.v
BTreeScan.v
BTreeTable.v
BTreeCases.v
TableFile.v
LogRoom.v
EngineTxn.v
EngineTables.v
Engine.v
EngineLaws.v
EngineCatalog.v
TimeCodec.v
TimeSeries.v
TimeSeriesLaws.v
Bloom.v
BloomLaws.v
BloomPages.v
SSTable.v
SSTableLaws.v
SSTableReads.v
AppendLog.v
AppendLogLaws.v
