(* ===== verification/Prelude.v ===== *)
(** * nanostore: a verification library

    nanostore is an embedded storage engine.  Transactions buffer writes, lock
    keys in a conflict detector and log to a write-ahead log; tables keep a
    chain of versions per key; paged tables store their pages through a pager
    with a cache, a free list and a page map over a file of a virtual file
    system; recovery replays the log.  This library translates those parts to
    Rocq functions and proves what they promise to each other.

    ** How code is translated

    A pure function is a function.  A fallible function returns
    [outcome E A]: [Ok], [Err] or [Panic], the last for the panics of slices,
    [unwrap] and arithmetic the code does not guard.  A method on [&mut self]
    is a [stateful S E A]: the state is returned with errors too, so that what
    was changed before an early [Err] stays changed.  Integers are [Z] with
    the wrap-around of their width written out ([as_u]); bytes are [Z] lists.
    A loop that is not structural has fuel, and a theorem says how much is
    enough.  The clock, random nonces, the iteration order of hash tables and
    the sizes the compiler gives to types are arguments.  Third-party code
    (SHA-256, LZ4, Zstd, AES-GCM) is the class [Codecs] with its round-trip
    laws [CodecsLaws]; a file is the class [FileOps] with [FileLaws], which
    the in-memory file meets.  Locks held around a whole call are left out;
    where calls interleave below that grain (group commit, the free list) the
    model is a step relation.

    ** Files

    - [Prelude]: outcomes, the state monad, integers, byte strings, encodings,
      automation ([sinv], [zlen_tac], hint databases) and list lemmas.
    - [Types] (src/types.rs): identifiers, bounds, isolation and durability
      levels, [ValueRef] with its encoding.
    - [Vfs] (src/vfs/memory.rs, filesystem.rs): files, handles, the shared
      data cells of the in-memory file system.
    - [PagerConfig] (src/pager/config.rs): page sizes, codec tags, [Codecs].
    - [WalRecord], [WalReader], [WalWriter], [GroupCommit], [WalRecovery]
      (src/wal/): the record format, reading, writing, the group-commit
      coordinator as an interleaving of callers and worker, and replay.
    - [Mvcc] (src/snap.rs, src/txn/version.rs): snapshots, version chains,
      vacuum.
    - [Conflict] (src/txn/conflict.rs): write locks, deadlock detection.
    - [Page], [Cache], [PagerMeta] (src/pager/): page format; the sharded
      cache with its linked lists; free list, pins, lock shards, page map,
      superblock, file header.
    - [Pager] (src/pager/pagefile.rs): the pager's calls.  [PagerStore] has the
      invariant of its state and what each call does to it, [PagerLife] the
      calls over time, [PagerContract] the theorems over whole histories.
    - [Overflow], [OverflowLaws] (pagefile.rs, overflow_stream.rs): overflow
      chains, value streams, page compaction.
    - [OrdMap]: byte-string order and ordered maps.  [MemTables]
      (src/table/btree/memory.rs, hash/memory.rs, lsm/memtable.rs): the tables
      in memory.  [MemTableLaws]: their theorems, the point reads proved once
      against the class [VersionedTable].
    - [Transaction] (src/txn/transaction.rs): transactions over log, detector
      and tables; table kinds without a model are behind [TableEngines].
      [TransactionLaws]: their theorems.
    - [PageStore]: the interface between paged tables and the pager, the class
      [PageStore] with [PageStoreLaws] and its plain implementation
      [MemoryPages]; the predicates [after] and [reads] of calls on it.
      [PagerPages]: the pager implements the interface.
    - [BTreeNode], [BTree], [BTreeOps], [BTreeWriter] (src/table/btree/paged.rs):
      nodes and their bytes, the tree's operations, cursors and maintenance,
      writers.  [BTreeShape] is the tree a set of pages stands for, [BTreeLaws],
      [BTreeLeaves], [BTreeReads], [BTreeScan] what the operations do to it,
      [BTreeTable] the theorems over whole histories, [BTreeCases] what goes
      wrong, [TableFile] the tree in a database file.
    - [Engine] (src/engine.rs, src/table.rs): catalog, named snapshots, table
      handles, vacuum, over [Transaction] and the tables.  [LogRoom],
      [EngineTxn] and [EngineTables] give the progress and the invariants its
      theorems in [EngineLaws] and [EngineCatalog] rely on.
    - [TimeCodec], [TimeSeries] (src/table/timeseries/): the codecs, buckets,
      the bucket manager and the table.  [TimeSeriesLaws]: the table is a map.
    - [Bloom] (src/table/bloom/): the filter in memory and over pages, marks of
      rolled-back insertions.  [BloomLaws], [BloomPages]: what the filter in
      memory answers, and the one over pages on a store that keeps its pages.
    - [SSTable] (src/table/lsm/sstable.rs, config.rs): formats, writer, reader.
      [SSTableLaws]: what the writer leaves on its pages; [SSTableReads]: the
      reader finds it again.
    - [AppendLog] (src/table/appendlog/): segments and the table over them.
      [AppendLogLaws]: segments read back, histories of the table.

    ** What is proved

    Each theorem's comment has its conditions; the ones that matter are named
    here.

    Log: a record survives its encoding, a damaged one is refused; for a
    writer made by [create] whose calls so far returned or were refused
    without an I/O error, file and buffer hold exactly the logged records, and
    a commit that waits for its flush is in the file; reading stops on every
    file.  Recovery of such a log, without two-phase commit and with each
    transaction begun once, returns exactly the committed writes, and when
    the file was cut at any byte it returns, for the transactions whose commit
    record is left, all their writes, and of the others none (or fails, when
    the cut is behind a record's header).  Group commit, as long as no file
    operation fails, answers each request once, and a request answered with
    success is in the file.  Versions: a snapshot reads the newest version it
    sees, vacuum below the watermark changes no such read, the
    active-transaction watermark is only a shortcut.  The lock table is
    exclusive over every history and a release frees exactly its
    transaction's keys; cycle search is sound and complete.  Pages survive
    their encoding.  Pager: after any history of calls that returned, on pages
    of the types the reader knows and freeing live pages only, a live page
    reads back as last written, live pages share no slot, and a synced file
    without encryption and with at most fifteen mapped pages opens again; the
    cache is a least-recently-used list and loses no dirty page; an overflow
    chain without compression or encryption returns its value and gives back
    its pages.  Tables in memory: a read at an LSN returns the last value
    committed at or below it, a scan whose excluded start is not a key returns
    the visible entries in order.  Transactions: own writes are read over a
    fixed snapshot; a commit on tables in memory that deletes in no ordered
    table is all or nothing for readers at every LSN; a range deletion deletes
    what the snapshot sees, or nothing when its excluded start is a key.
    Paged B-tree: every sequence of insertions, deletions and commits of
    entries of bounded size refines an ordered map of version chains over any
    page store, a cursor visits what filtering that map gives (an excluded
    start must be a key, and no internal node empty), and a synced table in a
    small unencrypted file is found again.  Engine: with tables in memory it is a
    multi-version map with named snapshots for calls it handles (no deletions
    in ordered tables, no empty values), and a catalog of such tables that
    fits a page survives reopening.  Time series: the codecs are inverse, the
    table is a map from series and timestamps to version chains.  Bloom
    filters in memory never miss an inserted key; over pages the algorithm is
    the same, but the pager of this program does not read back its pages.
    SSTables: a written table opens from its first page and answers lookups
    as its entries do.  Append logs: what was appended is read back from its
    offset, and a log keeps every key's versions over rolls, flushes and
    reopening.

    Some theorems and examples state what the code does against its
    documentation: every commit logs PREPARE, which recovery takes for a new
    beginning, so no committed write is recovered; no isolation level refuses
    a commit because reads are never recorded; a commit that fails while
    applying keeps its locks; an opened log is overwritten by the first flush;
    vacuum hands out the reference of a version it keeps; an SSTable whose
    footer has a page of its own cannot be opened; an append log's vacuum
    removes live keys, and an entry across the end of the flushed bytes cannot
    be read.

    ** Bounds and fuel

    The loops of [WalReader] and [WalRecovery] have the file's length as fuel,
    since every record takes at least a header; the chain walks of [Overflow]
    have the number of pages; [detect_cycle] the number of nodes; the cursor
    loop of [range_delete] one more than the table's keys.  The theorems on
    records bound a payload by 4 GiB and the log by its own limit below that.
    The reopening theorem is for at most fifteen mapped pages and no
    encryption, because the code itself fails beyond that.  The descents of
    the B-tree take more fuel than pages were ever allocated; its entries are
    bounded so that a node of fewer than [max_order] keys fits a page, and the
    retries of an insertion by the code's own limit.  The engine's theorem
    asks for room in the log for the records to come, writes of non-empty
    values to tables that exist and deletions in hash tables only.  The
    time-series theorem is for non-negative timestamps in no more buckets than
    a series keeps in memory; numbers are read in at most ten rounds of seven
    bits.  The reader of SSTables looks at
    10001 pages, as the code does, and its theorem is for blocks, index and
    Bloom filter of at most a page each.  Page ids stay below 2^64, and every
    theorem that allocates says how many pages it may need.  Integer overflow
    wraps around, as in a release build.

    ** Not modelled

    The adaptive radix tree in memory; of the LSM tree the merge iterator, the
    manifest, compaction and the tree that ties them together; blob tables;
    the vector, spatial, full-text and graph indexes, which compute with
    floating-point numbers or are not called by what is modelled.  The local
    file system is the operating system's; metrics, tracing, formatted
    messages, floating-point statistics and the debug checks of lock order
    carry no state of the program. *)
From stdpp Require Export base tactics decidable option list numbers strings.
From stdpp Require Export gmap fin_maps fin_sets sets.
From Stdlib Require Export ZArith Lia Sorted.

#[global] Open Scope Z_scope.

(** ** Outcomes of fallible code

    A Rust function that returns [Result<A, E>] and may panic is a function
    into [outcome E A]: [Ok] and [Err] are the two variants of [Result],
    [Panic] is an out-of-range index or slice, or an [unwrap] of [None]. *)
Inductive outcome (E A : Type) : Type :=
  | Ok (a : A)
  | Err (e : E)
  | Panic.
Arguments Ok {E A} a.
Arguments Err {E A} e.
Arguments Panic {E A}.

#[global] Instance outcome_ret {E} : MRet (outcome E) := fun A a => Ok a.
#[global] Instance outcome_bind {E} : MBind (outcome E) := fun A B f m =>
  match m with Ok a => f a | Err e => Err e | Panic => Panic end.

(** [ensure b e] is the guard [if !b { return Err(e) }]. *)
Definition ensure {E} (b : bool) (e : E) : outcome E unit :=
  if b then Ok tt else Err e.

(** [ok_or o e] is [Option::ok_or]. *)
Definition ok_or {E A} (o : option A) (e : E) : outcome E A :=
  match o with Some a => Ok a | None => Err e end.

(** [unwrap o] is [Option::unwrap]. *)
Definition unwrap {E A} (o : option A) : outcome E A :=
  match o with Some a => Ok a | None => Panic end.

Definition is_ok {E A} (m : outcome E A) : bool :=
  match m with Ok _ => true | _ => false end.

Section Outcome.
Context {E A B : Type}.
Implicit Types (m : outcome E A) (f : A -> outcome E B).

Lemma bind_ok_inv m f b : (m ≫= f) = Ok b -> exists a, m = Ok a /\ f a = Ok b.
Proof. destruct m; simpl; naive_solver. Qed.

Lemma bind_panic_inv m f :
  (m ≫= f) = Panic -> m = Panic \/ exists a, m = Ok a /\ f a = Panic.
Proof. destruct m; simpl; naive_solver. Qed.

Lemma ensure_ok_inv (b : bool) (e : E) u : ensure b e = Ok u -> b = true.
Proof. by destruct b. Qed.

Lemma ok_or_ok_inv (o : option A) (e : E) a : ok_or o e = Ok a -> o = Some a.
Proof. destruct o; simpl; congruence. Qed.
End Outcome.

(** ** Stateful fallible code

    A method on [&mut self] that returns [Result<A, E>] is a function of the
    state that returns the outcome with the new state: what was changed
    before an early [Err] stays changed. *)
Definition stateful (S E A : Type) : Type := S -> outcome E A * S.

#[global] Instance stateful_ret {S E} : MRet (stateful S E) := fun A a s => (Ok a, s).
#[global] Instance stateful_bind {S E} : MBind (stateful S E) := fun A B f m s =>
  match m s with
  | (Ok a, s') => f a s'
  | (Err e, s') => (Err e, s')
  | (Panic, s') => (Panic, s')
  end.

Definition gets {S E A} (f : S -> A) : stateful S E A := fun s => (Ok (f s), s).
Definition modify {S E} (f : S -> S) : stateful S E unit := fun s => (Ok tt, f s).
(** A result computed without touching the state, passed on with [?]. *)
Definition lift {S E A} (m : outcome E A) : stateful S E A := fun s => (m, s).

Section Stateful.
Context {S E A B : Type}.
Implicit Types (m : stateful S E A) (f : A -> stateful S E B).

Lemma sbind_ok_inv m f s b s' :
  (m ≫= f) s = (Ok b, s') -> exists a s1, m s = (Ok a, s1) /\ f a s1 = (Ok b, s').
Proof. unfold mbind, stateful_bind. destruct (m s) as [[a|e|] s1]; naive_solver. Qed.

Lemma sbind_err_inv m f s e s' :
  (m ≫= f) s = (Err e, s') ->
  m s = (Err e, s') \/ exists a s1, m s = (Ok a, s1) /\ f a s1 = (Err e, s').
Proof. unfold mbind, stateful_bind. destruct (m s) as [[a|e'|] s1]; naive_solver. Qed.

Lemma sbind_ok m f s a s1 : m s = (Ok a, s1) -> (m ≫= f) s = f a s1.
Proof. unfold mbind, stateful_bind. by intros ->. Qed.

Lemma sbind_err m f s e s1 : m s = (Err e, s1) -> (m ≫= f) s = (Err e, s1).
Proof. unfold mbind, stateful_bind. by intros ->. Qed.
End Stateful.

(** ** Machine integers *)
Definition fits (bits : Z) (z : Z) : Prop := 0 <= z < 2 ^ bits.
Abbreviation is_u8 := (fits 8).
Abbreviation is_u16 := (fits 16).
Abbreviation is_u32 := (fits 32).
Abbreviation is_u64 := (fits 64).

(** [as_u bits z] is the cast [z as uN] and the wrap-around of unchecked
    arithmetic at width [N]. *)
Definition as_u (bits : Z) (z : Z) : Z := z mod 2 ^ bits.
Abbreviation as_u32 := (as_u 32).
Abbreviation as_u64 := (as_u 64).

Lemma as_u_id bits z : fits bits z -> as_u bits z = z.
Proof. unfold fits, as_u. intros. by apply Z.mod_small. Qed.

Lemma as_u_fits bits z : 0 <= bits -> fits bits (as_u bits z).
Proof. intros. apply Z.mod_pos_bound. by apply Z.pow_pos_nonneg. Qed.

(** ** Byte strings

    A byte is a [Z] in [0, 255]; [bytes_ok] is the type invariant of a
    [&[u8]].  Lengths and offsets are [Z], as the [usize]s of the code. *)
Abbreviation bytes := (list Z).
Definition bytes_ok (bs : bytes) : Prop := Forall is_u8 bs.
Definition zlen {A} (l : list A) : Z := Z.of_nat (length l).

(** [slice a b bs] is [&bs[a..b]]: it panics when the range is not inside
    the slice. *)
Definition slice {E A} (a b : Z) (bs : list A) : outcome E (list A) :=
  if (0 <=? a) && (a <=? b) && (b <=? zlen bs)
  then Ok (take (Z.to_nat (b - a)) (drop (Z.to_nat a) bs))
  else Panic.

(** [index i bs] is [bs[i]]. *)
Definition index {E A} (i : Z) (bs : list A) : outcome E A :=
  if 0 <=? i then unwrap (bs !! Z.to_nat i) else Panic.

(** [uN::to_le_bytes] and [uN::from_le_bytes] on [n] bytes. *)
Fixpoint to_le_bytes (n : nat) (z : Z) : bytes :=
  match n with
  | O => []
  | S n => z mod 256 :: to_le_bytes n (z / 256)
  end.

Fixpoint from_le_bytes (bs : bytes) : Z :=
  match bs with
  | [] => 0
  | b :: bs => b + 256 * from_le_bytes bs
  end.

(** [get_le n off bs] reads the [n]-byte little-endian integer at [off]:
    [uN::from_le_bytes(bs[off..off + n].try_into().unwrap())]. *)
Definition get_le {E} (n off : Z) (bs : bytes) : outcome E Z :=
  b ← slice off (off + n) bs; Ok (from_le_bytes b).

Definition bytes_eqb (a b : bytes) : bool := bool_decide (a = b).

(** [bs.resize(n, x)]. *)
Definition resize {A} (n : Z) (x : A) (l : list A) : list A :=
  if n <=? zlen l then take (Z.to_nat n) l
  else l ++ replicate (Z.to_nat (n - zlen l)) x.

#[global] Arguments get_le : simpl never.
#[global] Arguments slice : simpl never.
#[global] Arguments index : simpl never.
#[global] Arguments zlen : simpl never.
#[global] Arguments ensure : simpl never.

Lemma ensure_true {E} (b : bool) (e : E) : b = true -> ensure b e = Ok tt.
Proof. by intros ->. Qed.
Lemma ensure_false {E} (b : bool) (e : E) : b = false -> ensure b e = Err e.
Proof. by intros ->. Qed.
Lemma zlen_nonneg {A} (l : list A) : 0 <= zlen l.
Proof. unfold zlen. lia. Qed.
Lemma zlen_app {A} (l k : list A) : zlen (l ++ k) = zlen l + zlen k.
Proof. unfold zlen. rewrite length_app. lia. Qed.
Lemma zlen_cons {A} (x : A) l : zlen (x :: l) = 1 + zlen l.
Proof. unfold zlen. simpl. lia. Qed.
Lemma zlen_nil {A} : zlen (@nil A) = 0.
Proof. done. Qed.
Lemma zlen_replicate {A} n (x : A) : 0 <= n -> zlen (replicate (Z.to_nat n) x) = n.
Proof. unfold zlen. rewrite length_replicate. lia. Qed.
Lemma zlen_nil_inv {A} (l : list A) : zlen l = 0 -> l = [].
Proof. destruct l; [done|]. rewrite zlen_cons. pose proof (zlen_nonneg l). lia. Qed.
Lemma length_to_le_bytes n z : length (to_le_bytes n z) = n.
Proof.
  revert z. induction n; intros; [done|].
  cbn [to_le_bytes]. simpl. by rewrite IHn.
Qed.
Lemma zlen_to_le_bytes n z : zlen (to_le_bytes n z) = Z.of_nat n.
Proof. unfold zlen. by rewrite length_to_le_bytes. Qed.
Lemma zlen_resize {A} n (x : A) l : 0 <= n -> zlen (resize n x l) = n.
Proof.
  intros. unfold resize. destruct (Z.leb_spec n (zlen l)).
  - unfold zlen in *. rewrite length_take. lia.
  - rewrite zlen_app, zlen_replicate; lia.
Qed.

Create Rewrite HintDb zlen.
#[export] Hint Rewrite @zlen_app @zlen_cons @zlen_nil zlen_to_le_bytes : zlen.

(** [zlen_tac] normalises lengths of concatenations and closes the linear
    goal about them. *)
Ltac zlen_norm := autorewrite with zlen in *.
Ltac zlen_pose l :=
  lazymatch goal with
  | _ : 0 <= zlen l |- _ => fail
  | _ => pose proof (zlen_nonneg l)
  end.
Ltac zlen_tac :=
  autorewrite with zlen in *;
  repeat match goal with
    | |- context [zlen ?l] => zlen_pose l
    | H : context [zlen ?l] |- _ =>
        lazymatch type of H with forall _, _ => fail | _ => zlen_pose l end
    end; unfold fits in *;
  try match goal with
    | |- (_ <=? _) = true => apply Z.leb_le
    | |- (_ <? _) = true => apply Z.ltb_lt
    | |- (_ =? _) = true => apply Z.eqb_eq
    end; lia.

Lemma slice_app_r {E A} a b (l k : list A) :
  zlen l <= a -> a <= b ->
  slice (E := E) a b (l ++ k) = slice (a - zlen l) (b - zlen l) k.
Proof.
  intros Ha Hb. unfold slice. rewrite zlen_app.
  assert ((0 <=? a) && (a <=? b) && (b <=? zlen l + zlen k)
          = (0 <=? a - zlen l) && (a - zlen l <=? b - zlen l) && (b - zlen l <=? zlen k))
    as -> by (pose proof (zlen_nonneg l); lia).
  destruct (_ && _); [|done]. do 2 f_equal; [lia|].
  rewrite drop_app_ge by (unfold zlen in *; lia). f_equal. unfold zlen in *. lia.
Qed.

Lemma slice_app_l {E A} a b (l k : list A) :
  0 <= a -> a <= b -> b <= zlen l -> slice (E := E) a b (l ++ k) = slice a b l.
Proof.
  intros Ha Hab Hb. unfold slice. rewrite zlen_app.
  pose proof (zlen_nonneg k).
  rewrite !(proj2 (Z.leb_le _ _)) by lia. simpl. f_equal.
  unfold zlen in *. rewrite drop_app_le, take_app_le; [done| |lia].
  rewrite length_drop. lia.
Qed.

Lemma slice_full {E A} b (l : list A) : b = zlen l -> slice (E := E) 0 b l = Ok l.
Proof.
  intros ->. unfold slice. rewrite !(proj2 (Z.leb_le _ _)) by (pose proof (zlen_nonneg l); lia).
  simpl. f_equal. unfold zlen. rewrite Z.sub_0_r, Nat2Z.id. apply firstn_all.
Qed.

(** The middle component of a concatenation, at its offset. *)
Lemma slice_mid {E A} a b (l m k : list A) :
  a = zlen l -> b = zlen l + zlen m -> slice (E := E) a b (l ++ m ++ k) = Ok m.
Proof.
  intros -> ->. rewrite slice_app_r by zlen_tac.
  rewrite slice_app_l by zlen_tac.
  rewrite Z.sub_diag. apply slice_full. lia.
Qed.

Lemma slice_ok_inv {E A} a b (l s : list A) :
  slice (E := E) a b l = Ok s ->
  0 <= a <= b /\ b <= zlen l /\ zlen s = b - a /\
  l = take (Z.to_nat a) l ++ s ++ drop (Z.to_nat b) l.
Proof.
  unfold slice. intros H.
  destruct (0 <=? a) eqn:?, (a <=? b) eqn:?, (b <=? zlen l) eqn:?; simpl in H; try done.
  injection H as <-. split_and!; try (unfold zlen in *; lia).
  - unfold zlen in *. rewrite length_take, length_drop. lia.
  - rewrite <- (take_drop (Z.to_nat a) l) at 1. f_equal.
    rewrite <- (take_drop (Z.to_nat (b - a)) (drop (Z.to_nat a) l)) at 1. f_equal.
    rewrite drop_drop. f_equal. lia.
Qed.

Lemma slice_here {E A} a b (m rest : list A) :
  a = 0 -> b = zlen m -> slice (E := E) a b (m ++ rest) = Ok m.
Proof. intros -> ->. by apply (slice_mid 0 (zlen m) []). Qed.

Lemma slice_here_last {E A} a b (m : list A) :
  a = 0 -> b = zlen m -> slice (E := E) a b m = Ok m.
Proof. intros -> ->. by apply slice_full. Qed.

(** Consecutive slices compose: what a decoder read field by field is the
    whole buffer. *)
Lemma slice_join {E A} a b c (l s1 s2 : list A) :
  slice (E := E) a b l = Ok s1 -> slice (E := E) b c l = Ok s2 ->
  slice (E := E) a c l = Ok (s1 ++ s2).
Proof.
  intros (? & ? & ? & Hl)%slice_ok_inv H2.
  pose proof H2 as (? & ? & ? & _)%slice_ok_inv.
  rewrite Hl in H2. rewrite Hl at 1. clear Hl.
  assert (zlen (take (Z.to_nat a) l) = a) by (unfold zlen in *; rewrite length_take; lia).
  rewrite slice_app_r in H2 by lia. rewrite slice_app_r in H2 by lia.
  rewrite slice_app_r by lia.
  set (k := drop (Z.to_nat b) l) in *. replace (b - _ - _) with 0 in H2 by lia.
  apply slice_ok_inv in H2 as (? & ? & ? & Hk). change (take (Z.to_nat 0) k) with (@nil A) in Hk.
  simpl in Hk. rewrite Hk, app_assoc. apply slice_here; rewrite ?zlen_app; lia.
Qed.

Lemma slice_all_inv {E A} b (l s : list A) :
  b = zlen l -> slice (E := E) 0 b l = Ok s -> s = l.
Proof. intros Hb. rewrite slice_full by done. by injection 1. Qed.

Lemma index_slice {E A} i (l : list A) x :
  index (E := E) i l = Ok x -> slice (E := E) i (i + 1) l = Ok [x].
Proof.
  unfold index. destruct (Z.leb_spec 0 i); [|done].
  destruct (l !! Z.to_nat i) eqn:Hx; [|done]. injection 1 as ->.
  pose proof (lookup_lt_Some _ _ _ Hx) as Hlt.
  unfold slice. rewrite !(proj2 (Z.leb_le _ _)) by (unfold zlen; lia). simpl.
  replace (Z.to_nat (i + 1 - i)) with 1%nat by lia.
  by rewrite (drop_S _ _ _ Hx).
Qed.

Lemma slice_bytes_ok {E} a b bs s :
  bytes_ok bs -> slice (E := E) a b bs = Ok s -> bytes_ok s.
Proof.
  intros Hok (_ & _ & _ & Hl)%slice_ok_inv. unfold bytes_ok in *.
  rewrite Hl, !Forall_app in Hok. tauto.
Qed.

Lemma slice_in_range {E A} a b (l : list A) :
  0 <= a <= b -> b <= zlen l -> exists s, slice (E := E) a b l = Ok s /\ zlen s = b - a.
Proof.
  intros [? ?] ?. unfold slice. rewrite !(proj2 (Z.leb_le _ _)) by lia. simpl.
  eexists; split; [done|]. unfold zlen in *. rewrite length_take, length_drop. lia.
Qed.

Lemma index_app_r {E A} i (l k : list A) :
  zlen l <= i -> index (E := E) i (l ++ k) = index (i - zlen l) k.
Proof.
  intros. unfold index. pose proof (zlen_nonneg l).
  rewrite !(proj2 (Z.leb_le _ _)) by lia.
  rewrite lookup_app_r by (unfold zlen in *; lia). do 2 f_equal. unfold zlen in *. lia.
Qed.

Lemma index_in_range {E A} i (l : list A) :
  0 <= i < zlen l -> exists x, index (E := E) i l = Ok x /\ l !! Z.to_nat i = Some x.
Proof.
  intros. unfold index. rewrite (proj2 (Z.leb_le _ _)) by lia.
  destruct (lookup_lt_is_Some_2 l (Z.to_nat i)) as [x ->]; [unfold zlen in *; lia|]. eauto.
Qed.

Lemma to_le_bytes_ok n z : bytes_ok (to_le_bytes n z).
Proof.
  revert z. induction n; intros; cbn [to_le_bytes]; constructor; [|apply IHn].
  unfold fits. pose proof (Z.mod_pos_bound z 256). lia.
Qed.

Lemma from_le_bytes_bound bs :
  bytes_ok bs -> 0 <= from_le_bytes bs < 2 ^ (8 * zlen bs).
Proof.
  induction 1 as [|b bs Hb _ IH]; cbn [from_le_bytes]; [done|].
  rewrite zlen_cons. unfold fits in *. change (2 ^ 8) with 256 in Hb.
  replace (8 * (1 + zlen bs)) with (8 + 8 * zlen bs) by lia.
  rewrite Z.pow_add_r by (pose proof (zlen_nonneg bs); lia).
  change (2 ^ 8) with 256. nia.
Qed.

Lemma from_to_le_bytes n z :
  fits (8 * Z.of_nat n) z -> from_le_bytes (to_le_bytes n z) = z.
Proof.
  unfold fits. revert z. induction n; intros z Hz.
  - change (2 ^ (8 * Z.of_nat 0)) with 1 in Hz. cbn [to_le_bytes from_le_bytes]. lia.
  - cbn [to_le_bytes from_le_bytes]. rewrite IHn.
    + pose proof (Z.div_mod z 256). lia.
    + replace (8 * Z.of_nat (S n)) with (8 + 8 * Z.of_nat n) in Hz by lia.
      rewrite Z.pow_add_r in Hz by lia. change (2 ^ 8) with 256 in Hz.
      split; [apply Z.div_pos; lia|]. apply Z.div_lt_upper_bound; lia.
Qed.

Lemma to_from_le_bytes bs :
  bytes_ok bs -> to_le_bytes (length bs) (from_le_bytes bs) = bs.
Proof.
  induction 1 as [|b bs Hb _ IH]; [done|]. cbn [length to_le_bytes from_le_bytes].
  unfold fits in Hb. change (2 ^ 8) with 256 in Hb.
  replace (b + 256 * from_le_bytes bs) with (from_le_bytes bs * 256 + b) by lia.
  rewrite Z.add_comm, Z.mod_add, Z.div_add, Z.mod_small, Z.div_small by lia.
  by rewrite Z.add_0_l, IH.
Qed.

(** What a successful read says: the integer is the value of the bytes at
    that place, and re-encoding it gives them back. *)
Lemma get_le_ok_inv {E} n off bs z :
  bytes_ok bs -> get_le (E := E) n off bs = Ok z ->
  fits (8 * n) z /\ slice (E := E) off (off + n) bs = Ok (to_le_bytes (Z.to_nat n) z).
Proof.
  intros Hok (b & Hb & [= <-])%bind_ok_inv.
  pose proof (slice_bytes_ok _ _ _ _ Hok Hb) as Hbok.
  pose proof Hb as (_ & _ & Hlen & _)%slice_ok_inv.
  replace n with (zlen b) by lia. split; [by apply from_le_bytes_bound|].
  replace (off + zlen b) with (off + n) by lia.
  rewrite Hb. f_equal. unfold zlen. rewrite Nat2Z.id. symmetry. by apply to_from_le_bytes.
Qed.

Lemma get_le_panic_free {E} n off bs :
  0 <= off -> 0 <= n -> off + n <= zlen bs ->
  exists b, slice (E := E) off (off + n) bs = Ok b /\ zlen b = n /\
            get_le (E := E) n off bs = Ok (from_le_bytes b).
Proof.
  intros. destruct (slice_in_range (E := E) off (off + n) bs) as (s & Hs & Hl); [lia|done|].
  exists s. unfold get_le. rewrite Hs. simpl. split_and!; [done|lia|done].
Qed.

(** The integer at offset [zlen l] of [l ++ to_le_bytes n z ++ k]. *)
Lemma get_le_mid {E} n off l z k :
  off = zlen l -> 0 <= n -> fits (8 * n) z ->
  get_le (E := E) n off (l ++ to_le_bytes (Z.to_nat n) z ++ k) = Ok z.
Proof.
  intros -> Hn Hz. unfold get_le. erewrite slice_mid; [|done|].
  - simpl. f_equal. apply from_to_le_bytes. by rewrite Z2Nat.id.
  - rewrite zlen_to_le_bytes. lia.
Qed.

Lemma get_le_app_r {E} n off l k :
  zlen l <= off -> 0 <= n -> get_le (E := E) n off (l ++ k) = get_le n (off - zlen l) k.
Proof.
  intros. unfold get_le. rewrite slice_app_r by lia.
  by replace (off + n - zlen l) with (off - zlen l + n) by lia.
Qed.

Lemma bytes_eqb_true a b : bytes_eqb a b = true <-> a = b.
Proof. apply bool_decide_eq_true. Qed.
Lemma bytes_eqb_refl a : bytes_eqb a a = true.
Proof. by apply bytes_eqb_true. Qed.

#[global] Opaque to_le_bytes from_le_bytes.

(** ** Reading back a written buffer

    A buffer built by appending fields is read field by field: the reads
    skip the fields before their offset and meet the one written there. *)
Lemma get_le_here {E} n k off z rest :
  off = 0 -> n = Z.of_nat k -> fits (8 * n) z ->
  get_le (E := E) n off (to_le_bytes k z ++ rest) = Ok z.
Proof.
  intros -> -> Hz. pose proof (get_le_mid (E := E) (Z.of_nat k) 0 [] z rest) as H.
  rewrite Nat2Z.id in H. apply H; [done|lia|done].
Qed.

Lemma get_le_here_last {E} n k off z :
  off = 0 -> n = Z.of_nat k -> fits (8 * n) z ->
  get_le (E := E) n off (to_le_bytes k z) = Ok z.
Proof.
  intros. rewrite <- (app_nil_r (to_le_bytes k z)). by apply get_le_here.
Qed.

Lemma index_here {E A} i (x : A) rest : i = 0 -> index (E := E) i (x :: rest) = Ok x.
Proof. by intros ->. Qed.

Lemma slice_cons_r {E A} a b (x : A) l :
  1 <= a -> a <= b -> slice (E := E) a b (x :: l) = slice (a - 1) (b - 1) l.
Proof. intros. apply (slice_app_r a b [x] l); [done|lia]. Qed.
Lemma index_cons_r {E A} i (x : A) l :
  1 <= i -> index (E := E) i (x :: l) = index (i - 1) l.
Proof. intros. by apply (index_app_r i [x] l). Qed.
Lemma get_le_cons_r {E} n off x l :
  1 <= off -> 0 <= n -> get_le (E := E) n off (x :: l) = get_le n (off - 1) l.
Proof. intros. by apply (get_le_app_r n off [x] l). Qed.

(** [inv_ok] inverts the steps of a decoder run that returned [Ok]. *)
Ltac inv_ok :=
  repeat match goal with
    | H : mbind _ _ = Ok _ |- _ =>
        let x := fresh "x" in let Hx := fresh "Hx" in
        apply bind_ok_inv in H as (x & Hx & H)
    | H : ensure _ _ = Ok _ |- _ => apply ensure_ok_inv in H
    | H : ok_or _ _ = Ok _ |- _ => apply ok_or_ok_inv in H
    | H : Err _ = Ok _ |- _ => discriminate H
    | H : Panic = Ok _ |- _ => discriminate H
    end.

(** [sinv] does the same for stateful code. *)
Ltac sinv :=
  repeat match goal with
    | H : mbind _ _ _ = (Ok _, _) |- _ =>
        let x := fresh "x" in let s := fresh "s" in let Hx := fresh "Hs" in
        apply sbind_ok_inv in H as (x & s & Hx & H)
    | H : gets _ _ = (Ok _, _) |- _ => injection H as <- <-
    | H : modify _ _ = (Ok _, _) |- _ => injection H as ? <-
    | H : lift _ _ = (Ok _, _) |- _ =>
        let H' := fresh H in injection H as H' <-; rename H' into H
    | H : ensure _ _ = Ok _ |- _ => apply ensure_ok_inv in H
    | H : (Err _, _) = (Ok _, _) |- _ => discriminate H
    | H : (Panic, _) = (Ok _, _) |- _ => discriminate H
    end.

(** [serr] splits an early return of stateful code into the step that
    failed. *)
Ltac serr :=
  repeat match goal with
    | H : mbind _ _ _ = (Err _, _) |- _ =>
        let x := fresh "x" in let s := fresh "s" in let Hx := fresh "Hs" in
        apply sbind_err_inv in H as [H|(x & s & Hx & H)]
    | H : gets _ _ = (Err _, _) |- _ => discriminate H
    | H : modify _ _ = (Err _, _) |- _ => discriminate H
    | H : mret _ _ = (Err _, _) |- _ => discriminate H
    | H : lift _ _ = (Ok _, _) |- _ =>
        let H' := fresh H in injection H as H' <-; rename H' into H
    | H : gets _ _ = (Ok _, _) |- _ => injection H as <- <-
    end.

(** [join H1 H2] glues two adjacent slices. *)
Ltac join H1 H2 :=
  let J := fresh in
  pose proof (slice_join _ _ _ _ _ _ H1 H2) as J; clear H1 H2; rename J into H1.

(** Panic freedom: every index and slice of a decoder is in range. *)
Lemma bind_no_panic {E A B} (m : outcome E A) (f : A -> outcome E B) :
  m <> Panic -> (forall a, m = Ok a -> f a <> Panic) -> (m ≫= f) <> Panic.
Proof. destruct m; simpl; auto. Qed.
Lemma ensure_no_panic {E} b (e : E) : ensure b e <> Panic.
Proof. by destruct b. Qed.
Lemma ok_or_no_panic {E A} (o : option A) (e : E) : ok_or o e <> Panic.
Proof. by destruct o. Qed.
Lemma index_no_panic {E A} i (l : list A) : 0 <= i < zlen l -> index (E := E) i l <> Panic.
Proof. intros Hi. by destruct (index_in_range (E := E) i l Hi) as (x & -> & _). Qed.
Lemma slice_no_panic {E A} a b (l : list A) :
  0 <= a <= b -> b <= zlen l -> slice (E := E) a b l <> Panic.
Proof. intros H1 H2. by destruct (slice_in_range (E := E) a b l H1 H2) as (x & -> & _). Qed.
Lemma get_le_no_panic {E} n off bs :
  0 <= off -> 0 <= n -> off + n <= zlen bs -> get_le (E := E) n off bs <> Panic.
Proof. intros H1 H2 H3. by destruct (get_le_panic_free (E := E) n off bs H1 H2 H3) as (? & _ & _ & ->). Qed.

(** What a successful read tells the reads after it: the range of an
    integer, the length of a slice. *)
Lemma get_le_fits {E} n off bs z :
  bytes_ok bs -> get_le (E := E) n off bs = Ok z -> fits (8 * n) z.
Proof. intros Hok Hz. by destruct (get_le_ok_inv _ _ _ _ Hok Hz). Qed.
Lemma slice_zlen {E A} a b (l s : list A) : slice (E := E) a b l = Ok s -> zlen s = b - a.
Proof. intros Hs. by destruct (slice_ok_inv _ _ _ _ Hs) as (_ & _ & ? & _). Qed.

Ltac learn_reads :=
  repeat match goal with
    | Hok : bytes_ok ?bs, H : get_le _ _ ?bs = Ok _ |- _ =>
        apply (get_le_fits _ _ _ _ Hok) in H
    | H : slice _ _ _ = Ok _ |- _ => apply slice_zlen in H
    end.

Create HintDb no_panic.
#[export] Hint Resolve ensure_no_panic ok_or_no_panic : no_panic.
#[export] Hint Extern 1 (index _ _ <> Panic) => apply index_no_panic; zlen_tac : no_panic.
#[export] Hint Extern 1 (get_le _ _ _ <> Panic) => apply get_le_no_panic; zlen_tac : no_panic.
#[export] Hint Extern 1 (slice _ _ _ <> Panic) => apply slice_no_panic; zlen_tac : no_panic.
#[export] Hint Extern 5 (_ <> Panic) => discriminate : no_panic.

Ltac no_panic :=
  repeat match goal with
    | |- (_ ≫= _) <> Panic => apply bind_no_panic; [|intros ? ?; inv_ok; learn_reads]
    | |- (if ?b then _ else _) <> Panic => destruct b eqn:?
    | |- (match ?x with _ => _ end) <> Panic => destruct x eqn:?
    end; try solve [auto with no_panic].

Ltac fits_tac := first [assumption | done | unfold fits in *; lia].
Ltac read_step :=
  first
    [ rewrite ensure_true by zlen_tac
    | rewrite get_le_here; [|zlen_tac|done|fits_tac]
    | rewrite get_le_here_last; [|zlen_tac|done|fits_tac]
    | rewrite index_here by zlen_tac
    | rewrite slice_here; [|zlen_tac|zlen_tac]
    | rewrite slice_here_last; [|zlen_tac|zlen_tac]
    | rewrite get_le_app_r by zlen_tac
    | rewrite get_le_cons_r by zlen_tac
    | rewrite index_app_r by zlen_tac
    | rewrite index_cons_r by zlen_tac
    | rewrite slice_app_r by zlen_tac
    | rewrite slice_cons_r by zlen_tac ].
(** [read_back] runs the reads of a decoder over the buffer its encoder
    wrote. *)
Ltac read_back := simpl; repeat (read_step; simpl).

(** ** Lists: filters and sorted lists *)
Lemma filter_none {A} (P : A -> Prop) `{!forall x, Decision (P x)} l :
  Forall (fun x => ~ P x) l -> filter P l = [].
Proof. induction 1; [done|]. by rewrite filter_cons, decide_False. Qed.
Lemma filter_every {A} (P : A -> Prop) `{!forall x, Decision (P x)} l :
  Forall P l -> filter P l = l.
Proof. induction 1; [done|]. rewrite filter_cons, decide_True by done. by f_equal. Qed.

Lemma StronglySorted_app_l {A} (R : relation A) l k : StronglySorted R (l ++ k) -> StronglySorted R l.
Proof.
  induction l as [|x l IH]; intros Hs; [constructor|]. inversion Hs as [|?? Hl Hx]; subst.
  constructor; [by apply IH|]. by apply Forall_app in Hx as [? _].
Qed.

Lemma StronglySorted_filter {A} (R : relation A) (P : A -> Prop) `{!forall x, Decision (P x)} l :
  StronglySorted R l -> StronglySorted R (filter P l).
Proof.
  induction 1 as [|x l Hl IH Hx]; [constructor|]. rewrite filter_cons.
  case_decide; [|done]. constructor; [done|]. apply Forall_forall. intros y [_ Hy]%list_elem_of_filter.
  by eapply Forall_forall in Hx.
Qed.
