(* ===== verification/Types.v ===== *)
(** * Core types of [src/types.rs]

    Identifiers are [u64] newtypes and stand here for their number; [Bound],
    [ScanBounds], [Durability] and [IsolationLevel] are the enums of the
    source.  [ValueRef] is the reference to a value kept inline or in
    overflow pages, with its byte encoding [encode]/[decode]. *)
From S2P Require Import Prelude.

Abbreviation TransactionId := Z (only parsing).
Abbreviation TableId := Z (only parsing).
Abbreviation LogSequenceNumber := Z (only parsing).
Abbreviation PageId := Z (only parsing).
Abbreviation KeyBuf := bytes (only parsing).
Abbreviation ValueBuf := bytes (only parsing).

Inductive Bound (T : Type) : Type :=
  | Included (t : T)
  | Excluded (t : T)
  | Unbounded.
Arguments Included {T} t.
Arguments Excluded {T} t.
Arguments Unbounded {T}.

Inductive ScanBounds : Type :=
  | All
  | Prefix (p : KeyBuf)
  | Range (start stop : Bound KeyBuf).

Inductive Durability : Type := MemoryOnly | WalOnly | FlushOnCommit | SyncOnCommit.

Inductive IsolationLevel : Type :=
  | ReadUncommitted | ReadCommitted | RepeatableRead | Serializable | SnapshotIsolation.

#[global] Instance Durability_eq_dec : EqDecision Durability.
Proof. solve_decision. Defined.
#[global] Instance IsolationLevel_eq_dec : EqDecision IsolationLevel.
Proof. solve_decision. Defined.

(** How a table's blocks are compressed and encrypted. *)
Inductive CompressionKind : Type := CNone | CLz4 | CZstd | CSnappy | CCustom (n : Z).
Inductive EncryptionKind : Type := ENone | EAesGcm | EChaCha20Poly1305 | ECustom (n : Z).

Module ValueRef.

Inductive t : Type :=
  | Inline
  | SinglePage (page_id offset length : Z)
  | OverflowChain (first_page_id total_length page_count : Z).

#[global] Instance t_eq_dec : EqDecision t.
Proof. solve_decision. Defined.

Inductive DecodeError : Type :=
  | InsufficientBytes (expected actual : Z)
  | InvalidLength (variant : string) (expected actual : Z)
  | UnknownType (type_byte : Z).

Definition TYPE_INLINE : Z := 0.
Definition TYPE_SINGLE_PAGE : Z := 1.
Definition TYPE_OVERFLOW_CHAIN : Z := 2.

Definition is_inline (v : t) : bool :=
  match v with Inline => true | _ => false end.

Definition size_hint (v : t) : option Z :=
  match v with
  | Inline => None
  | SinglePage _ _ length => Some length
  | OverflowChain _ total_length _ => Some total_length
  end.

Definition requires_overflow (v : t) : bool := negb (is_inline v).

Definition encode (v : t) : bytes :=
  match v with
  | Inline => [TYPE_INLINE]
  | SinglePage page_id offset length =>
      [TYPE_SINGLE_PAGE] ++ to_le_bytes 4 page_id ++ to_le_bytes 2 offset
        ++ to_le_bytes 4 length
  | OverflowChain first_page_id total_length page_count =>
      [TYPE_OVERFLOW_CHAIN] ++ to_le_bytes 4 first_page_id
        ++ to_le_bytes 8 total_length ++ to_le_bytes 4 page_count
  end.

Definition decode (bs : bytes) : outcome DecodeError t :=
  _ ← ensure (negb (zlen bs =? 0)) (InsufficientBytes 1 0);
  ty ← index 0 bs;
  if ty =? TYPE_INLINE then
    _ ← ensure (zlen bs =? 1) (InvalidLength "Inline" 1 (zlen bs));
    Ok Inline
  else if ty =? TYPE_SINGLE_PAGE then
    _ ← ensure (zlen bs =? 11) (InvalidLength "SinglePage" 11 (zlen bs));
    page_id ← get_le 4 1 bs;
    offset ← get_le 2 5 bs;
    length ← get_le 4 7 bs;
    Ok (SinglePage page_id offset length)
  else if ty =? TYPE_OVERFLOW_CHAIN then
    _ ← ensure (zlen bs =? 17) (InvalidLength "OverflowChain" 17 (zlen bs));
    first_page_id ← get_le 4 1 bs;
    total_length ← get_le 8 5 bs;
    page_count ← get_le 4 13 bs;
    Ok (OverflowChain first_page_id total_length page_count)
  else Err (UnknownType ty).

(** The ranges of the fields' machine types. *)
Definition wf (v : t) : Prop :=
  match v with
  | Inline => True
  | SinglePage p o l => is_u32 p /\ is_u16 o /\ is_u32 l
  | OverflowChain p l c => is_u32 p /\ is_u64 l /\ is_u32 c
  end.


Lemma decode_encode v : wf v -> decode (encode v) = Ok v.
Proof.
  destruct v as [|p o l|p l c]; intros Hwf; [done| |];
    destruct Hwf as (H1 & H2 & H3); unfold decode, encode; by read_back.
Qed.

Lemma decode_inv bs v : bytes_ok bs -> decode bs = Ok v -> wf v /\ encode v = bs.
Proof.
  intros Hok Hd. unfold decode in Hd. inv_ok.
  apply index_slice in Hx0. change (0 + 1) with 1 in Hx0.
  destruct (Z.eqb_spec x0 TYPE_INLINE) as [->|_];
    [|destruct (Z.eqb_spec x0 TYPE_SINGLE_PAGE) as [->|_];
      [|destruct (Z.eqb_spec x0 TYPE_OVERFLOW_CHAIN) as [->|_]; [|done]]];
    inv_ok; injection Hd as <-; apply Z.eqb_eq in Hx1.
  { split; [done|]. by apply (slice_all_inv (E := DecodeError) 1). }
  all: apply (get_le_ok_inv _ _ _ _ Hok) in Hx2 as [? S1], Hx3 as [? S2], Hx4 as [? S3];
    split; [done|]; join Hx0 S1; join Hx0 S2; join Hx0 S3;
    apply slice_all_inv in Hx0; [|done]; rewrite <- Hx0; by rewrite <- !app_assoc.
Qed.

(** [decode] never panics on a byte slice, accepts exactly the encodings
    of references whose fields fit their machine types, and returns the
    reference that was encoded: the encoding is canonical and a round trip
    in both directions. *)
Theorem decode_spec bs (Hbs : bytes_ok bs) :
  decode bs <> Panic /\ forall v, decode bs = Ok v <-> wf v /\ encode v = bs.
Proof.
  split.
  - unfold decode. no_panic.
  - intros v. split; [by apply decode_inv|]. intros [Hwf <-]. by apply decode_encode.
Qed.

Lemma decode_spec_witness :
  decode [1; 5; 0; 0; 0; 0; 1; 9; 0; 0; 0] = Ok (SinglePage 5 256 9).
Proof. apply (decode_spec [1; 5; 0; 0; 0; 0; 1; 9; 0; 0; 0]); [|split].
  - repeat constructor; done.
  - repeat split; done.
  - vm_compute. reflexivity.
Defined.

End ValueRef.
