(* ===== verification/Vfs.v ===== *)
(** * The virtual file system of [src/vfs]

    [FileSystemError] and [FileLockMode] are the enums of [vfs/error.rs] and
    [vfs/filesystem.rs].  [MemoryFile] is the code of [MemoryFileHandle]
    ([vfs/memory.rs]) on the pair of its cursor and the data it points to;
    [MemoryFileSystem] is the shared store: the map from paths to entries,
    and the [Arc<RwLock<MemoryFileData>>] cells the entries and the open
    handles share, so that two handles on one path see each other's writes
    and a handle outlives [remove_file].  [FileOps]/[FileLaws] is the part of
    the [File] trait the write-ahead log is built on, with [MemoryFile] as
    an instance. *)
From Stdlib Require Import Ascii.
From S2P Require Import Prelude.

Inductive FileLockMode : Type := Unlocked | Shared | Exclusive.

(** [IOError] and [WrappedError] carry foreign error values; here they carry
    none. *)
Inductive FileSystemError : Type :=
  | InvalidPath (path reason : string)
  | PathExists (path : string)
  | PathMissing (path : string)
  | ParentMissing (path : string)
  | FileAlreadyLocked (path : string)
  | PermissionDenied (path operation : string)
  | AlreadyLocked (path : string)
  | InvalidOperation (path operation : string)
  | UnsupportedOperation (operation : string)
  | InternalError (msg : string)
  | IOError
  | WrappedError.

(** [buf[off..off + src.len()].copy_from_slice(src)] on a buffer that is
    long enough. *)
Definition splice (off : Z) (src buf : bytes) : bytes :=
  take (Z.to_nat off) buf ++ src ++ drop (Z.to_nat (off + zlen src)) buf.

(** [&buf[off..min(off + n, buf.len())]], the bytes a read of [n] at [off]
    returns. *)
Definition window (off n : Z) (buf : bytes) : bytes :=
  take (Z.to_nat n) (drop (Z.to_nat off) buf).

Section Splice.
Implicit Types (buf src : bytes).

Lemma zlen_splice off src buf :
  0 <= off -> off + zlen src <= zlen buf -> zlen (splice off src buf) = zlen buf.
Proof.
  intros. unfold splice, zlen in *. rewrite !length_app, length_take, length_drop. lia.
Qed.

Lemma window_splice_same off src buf :
  0 <= off -> off + zlen src <= zlen buf ->
  window off (zlen src) (splice off src buf) = src.
Proof.
  intros. unfold window, splice, zlen in *.
  assert (Hl : length (take (Z.to_nat off) buf) = Z.to_nat off) by (rewrite length_take; lia).
  rewrite drop_app_length' by done. rewrite take_app_length' by lia. done.
Qed.

Lemma lookup_splice_outside off src buf (i : nat) :
  0 <= off -> off + zlen src <= zlen buf ->
  (Z.of_nat i < off \/ off + zlen src <= Z.of_nat i) ->
  splice off src buf !! i = buf !! i.
Proof.
  intros H0 H1 Hi. unfold splice, zlen in *.
  destruct Hi as [Hi|Hi].
  - rewrite lookup_app_l by (rewrite length_take; lia). apply lookup_take_lt. lia.
  - rewrite lookup_app_r by (rewrite length_take; lia).
    rewrite lookup_app_r by (rewrite length_take; lia).
    rewrite lookup_drop. f_equal. rewrite length_take. lia.
Qed.

Lemma splice_at_end src buf : splice (zlen buf) src (resize (zlen buf + zlen src) 0 buf) = buf ++ src.
Proof.
  unfold splice, resize. destruct (Z.leb_spec (zlen buf + zlen src) (zlen buf)).
  - assert (zlen src = 0) by zlen_tac. rewrite (zlen_nil_inv src) by done. simpl.
    rewrite !zlen_nil, Z.add_0_r. unfold zlen. rewrite Nat2Z.id.
    by rewrite !firstn_all, drop_all, app_nil_r.
  - unfold zlen in *. rewrite Nat2Z.id.
    rewrite take_app_length, drop_ge; [by rewrite app_nil_r|].
    rewrite length_app, length_replicate. lia.
Qed.

Lemma window_app_l off n buf rest :
  0 <= off -> 0 <= n -> off + n <= zlen buf -> window off n (buf ++ rest) = window off n buf.
Proof.
  intros. unfold window, zlen in *. rewrite drop_app_le by lia.
  apply take_app_le. rewrite length_drop. lia.
Qed.

Lemma window_mid pre n mid rest :
  n = zlen mid -> window (zlen pre) n (pre ++ mid ++ rest) = mid.
Proof.
  intros ->. unfold window, zlen. rewrite !Nat2Z.id, drop_app_length. apply take_app_length.
Qed.

Lemma zlen_window off n buf :
  0 <= off -> 0 <= n -> zlen (window off n buf) = Z.max 0 (Z.min n (zlen buf - off)).
Proof.
  intros. unfold window, zlen. rewrite length_take, length_drop. lia.
Qed.
End Splice.

(** ** The file interface

    What a client of the trait [File] may rely on.  [contents] and [cursor]
    are the abstract state of a handle; a read at an offset returns the
    bytes of the file there and moves nothing; a successful [write_all]
    overwrites at the cursor, extending the file with zeros up to it. *)
Class FileOps (F : Type) : Type := {
  contents : F -> bytes;
  cursor : F -> Z;
  read_at_offset : F -> Z -> Z -> outcome FileSystemError bytes;
  write_all : bytes -> stateful F FileSystemError unit;
  sync_data : stateful F FileSystemError unit;
  get_size : F -> outcome FileSystemError Z;
  set_size : Z -> stateful F FileSystemError unit;
  write_to_offset : Z -> bytes -> stateful F FileSystemError Z;
  sync_all : stateful F FileSystemError unit;
}.

(** [File::truncate], a provided method of the trait. *)
Definition truncate {F} `{FileOps F} : stateful F FileSystemError unit := set_size 0.

Class FileLaws (F : Type) `{FileOps F} : Prop := {
  get_size_ok f : get_size f = Ok (zlen (contents f));
  read_at_offset_ok f off n :
    0 <= off -> 0 <= n -> is_u64 (zlen (contents f)) ->
    read_at_offset f off n = Ok (window off n (contents f));
  write_all_ok f buf f' :
    0 <= cursor f -> is_u64 (cursor f + zlen buf) -> buf <> [] ->
    write_all buf f = (Ok tt, f') ->
    cursor f' = cursor f + zlen buf /\
    contents f' = splice (cursor f) buf
      (if Z.ltb (zlen (contents f)) (cursor f + zlen buf)
       then resize (cursor f + zlen buf) 0 (contents f) else contents f);
  sync_data_ok f f' :
    sync_data f = (Ok tt, f') -> contents f' = contents f /\ cursor f' = cursor f;
  set_size_ok f n f' :
    set_size n f = (Ok tt, f') ->
    contents f' = resize n 0 (contents f) /\ cursor f' = cursor f;
  write_to_offset_ok f off buf n f' :
    0 <= off -> write_to_offset off buf f = (Ok n, f') ->
    off + zlen buf < 2 ^ 64 /\
    contents f' = splice off buf
      (if Z.ltb (zlen (contents f)) (off + zlen buf)
       then resize (off + zlen buf) 0 (contents f) else contents f);
  sync_all_ok f f' :
    sync_all f = (Ok tt, f') -> contents f' = contents f /\ cursor f' = cursor f;
}.

(** Appending: a write with the cursor at the end of the file. *)
Lemma write_all_append {F} `{FileLaws F} f buf f' :
  cursor f = zlen (contents f) -> zlen (contents f) + zlen buf < 2 ^ 64 ->
  buf <> [] -> write_all buf f = (Ok tt, f') ->
  contents f' = contents f ++ buf /\ cursor f' = zlen (contents f').
Proof.
  intros Hc Hb Hne Hw.
  destruct (write_all_ok f buf f') as [Hcur Hcon]; [zlen_tac..|done|done|].
  assert (Hlt : (zlen (contents f) <? cursor f + zlen buf) = true).
  { destruct buf; [done|]. rewrite zlen_cons. pose proof (zlen_nonneg buf). lia. }
  rewrite Hlt, Hc, splice_at_end in Hcon. split; [done|].
  rewrite Hcur, Hcon, Hc. by rewrite zlen_app.
Qed.

(** ** [MemoryFileHandle] on the data it points to *)
Module MemoryFile.

Record MemoryFileData : Type := mkData { buffer : bytes; lock : FileLockMode }.

(** The cursor of a handle with the data behind its [Arc]. *)
Record t : Type := mk { pos : Z; data : MemoryFileData }.

Inductive SeekFrom : Type := Start (offset : Z) | End_ (offset : Z) | Current (offset : Z).

Definition set_buffer (f : t) (b : bytes) : t := mk (pos f) (mkData b (lock (data f))).
Definition set_pos (f : t) (p : Z) : t := mk p (data f).

(** [read]: the bytes copied into a buffer of length [n]. *)
Definition read (f : t) (n : Z) : bytes * t :=
  if zlen (buffer (data f)) <=? pos f then ([], f)
  else
    let len := Z.min n (zlen (buffer (data f)) - pos f) in
    (window (pos f) len (buffer (data f)), set_pos f (pos f + len)).

(** [write]: [cursor + buf.len()] is a [usize] sum; when it wraps, the range
    [cursor..cursor + buf.len()] is not ordered and the slice panics. *)
Definition write (buf : bytes) : stateful t FileSystemError Z := fun f =>
  let stop := as_u64 (pos f + zlen buf) in
  let b := if zlen (buffer (data f)) <? stop then resize stop 0 (buffer (data f))
           else buffer (data f) in
  if stop <? pos f then (Panic, f)
  else (Ok (zlen buf), mk stop (mkData (splice (pos f) buf b) (lock (data f)))).

Definition seek (f : t) (p : SeekFrom) : Z * t :=
  let c := match p with
           | Start offset => as_u64 offset
           | End_ offset => as_u64 (zlen (buffer (data f)) + offset)
           | Current offset => as_u64 (pos f + offset)
           end in
  (c, set_pos f c).

Definition get_size (f : t) : outcome FileSystemError Z := Ok (zlen (buffer (data f))).

Definition set_size (new_length : Z) : stateful t FileSystemError unit := fun f =>
  (Ok tt, set_buffer f (resize new_length 0 (buffer (data f)))).

Definition sync_all : stateful t FileSystemError unit := mret tt.
Definition sync_data : stateful t FileSystemError unit := mret tt.

Definition get_lock_status (f : t) : outcome FileSystemError FileLockMode := Ok (lock (data f)).

Definition set_lock_status (mode : FileLockMode) : stateful t FileSystemError unit := fun f =>
  (Ok tt, mk (pos f) (mkData (buffer (data f)) mode)).

(** On a 64-bit target [usize::try_from(pos)] accepts every [u64]. *)
Definition read_at_offset (f : t) (off n : Z) : outcome FileSystemError bytes :=
  let len := zlen (buffer (data f)) in
  if len <=? off then Ok []
  else
    let stop := Z.min (Z.min (off + n) (2 ^ 64 - 1)) len in
    slice off stop (buffer (data f)).

Definition write_to_offset (off : Z) (buf : bytes) : stateful t FileSystemError Z :=
  let stop := off + zlen buf in
  _ ← lift (ensure (stop <? 2 ^ 64)
              (InternalError "Write operation would overflow address space"));
  _ ← modify (fun f =>
        if zlen (buffer (data f)) <? stop then set_buffer f (resize stop 0 (buffer (data f)))
        else f);
  _ ← modify (fun f => set_buffer f (splice off buf (buffer (data f))));
  mret (zlen buf).

(** [Write::write_all]: no call for an empty buffer, else one [write], which
    takes the whole buffer. *)
Definition write_all (buf : bytes) : stateful t FileSystemError unit :=
  if zlen buf =? 0 then mret tt else _ ← write buf; mret tt.

End MemoryFile.

#[export] Instance MemoryFile_ops : FileOps MemoryFile.t := {|
  contents f := MemoryFile.buffer (MemoryFile.data f);
  cursor := MemoryFile.pos;
  read_at_offset := MemoryFile.read_at_offset;
  write_all := MemoryFile.write_all;
  sync_data := MemoryFile.sync_data;
  get_size := MemoryFile.get_size;
  set_size := MemoryFile.set_size;
  write_to_offset := MemoryFile.write_to_offset;
  sync_all := MemoryFile.sync_all;
|}.

#[export] Instance MemoryFile_laws : FileLaws MemoryFile.t.
Proof.
  split.
  - done.
  - intros f off n Hoff Hn Hlen. simpl in *. unfold MemoryFile.read_at_offset.
    set (b := MemoryFile.buffer _) in *.
    destruct (Z.leb_spec (zlen b) off).
    + f_equal. unfold window. rewrite drop_ge by (unfold zlen in *; lia). by rewrite take_nil.
    + unfold slice. rewrite !(proj2 (Z.leb_le _ _)) by (unfold fits in *; lia).
      simpl. f_equal. unfold window. set (d := drop _ b).
      assert (length d = length b - Z.to_nat off)%nat by apply length_drop.
      unfold fits, zlen in *. destruct (decide (off + n <= Z.of_nat (length b))).
      * f_equal. lia.
      * rewrite !take_ge; [done|lia..].
  - intros f buf f' Hpos Hfit Hne Hw. simpl in *. unfold MemoryFile.write_all in Hw.
    destruct (Z.eqb_spec (zlen buf) 0) as [H0|_]; [by apply zlen_nil_inv in H0|].
    sinv. unfold MemoryFile.write in Hs. rewrite as_u_id in Hs by done.
    destruct (Z.ltb_spec (MemoryFile.pos f + zlen buf) (MemoryFile.pos f)); [done|].
    injection Hs as _ <-. by injection Hw as <-.
  - intros f f' [= <-]. done.
  - intros f n f' [= <-]. done.
  - intros f off buf n f' Hoff Hw. simpl in *. unfold MemoryFile.write_to_offset in Hw. sinv.
    injection Hw as _ <-. split; [lia|]. simpl. by case_match.
  - intros f f' [= <-]. done.
Qed.

Lemma MemoryFile_read_at f off n :
  0 <= off -> 0 <= n -> is_u64 (zlen (MemoryFile.buffer (MemoryFile.data f))) ->
  MemoryFile.read_at_offset f off n = Ok (window off n (MemoryFile.buffer (MemoryFile.data f))).
Proof. exact (read_at_offset_ok f off n). Qed.

(** ** [MemoryFileSystem]: the shared store *)
Module MemoryFileSystem.
Import MemoryFile.

(** The identity of an [Arc<RwLock<MemoryFileData>>] cell. *)
Abbreviation cell := positive.

(** A directory entry holds a [BTreeMap<String, String>], given here by its
    pairs in key order. *)
Inductive MemoryEntry : Type :=
  | Directory (children : list (string * string))
  | File (inner : cell).

Record MemoryFileHandle : Type := mkHandle { h_cursor : Z; h_name : string; h_data : cell }.

(** [tree] is the map behind the file system's lock; [cells] holds the
    shared file data, [next] the first cell never allocated. *)
Record t : Type := mkFS {
  tree : gmap string MemoryEntry;
  cells : gmap cell MemoryFileData;
  next : cell;
}.

Definition new : t := mkFS ∅ ∅ 1%positive.

#[global] Instance MemoryFileData_inhabited : Inhabited MemoryFileData :=
  populate (mkData [] Unlocked).

Definition exists_ (fs : t) (path : string) : bool := bool_decide (is_Some (tree fs !! path)).

Definition is_file (fs : t) (path : string) : bool :=
  match tree fs !! path with Some (File _) => true | _ => false end.

Definition is_directory (fs : t) (path : string) : bool :=
  match tree fs !! path with Some (Directory _) => true | _ => false end.

Definition filesize (fs : t) (path : string) : outcome FileSystemError Z :=
  match tree fs !! path with
  | Some (File c) => Ok (zlen (buffer (cells fs !!! c)))
  | Some _ => Err (InvalidOperation path "filesize on non-file")
  | None => Err (PathMissing path)
  end.

Definition set_tree (fs : t) (m : gmap string MemoryEntry) : t := mkFS m (cells fs) (next fs).

Definition create_directory (fs : t) (path : string) : outcome FileSystemError t :=
  match tree fs !! path with
  | Some _ => Err (PathExists path)
  | None => Ok (set_tree fs (<[path := Directory []]> (tree fs)))
  end.

(** [path.trim_start_matches('/')]. *)
Fixpoint trim_start_slashes (p : string) : string :=
  match p with
  | String "/"%char rest => trim_start_slashes rest
  | _ => p
  end.

(** [path.split('/').collect()]: at least one part, possibly empty ones. *)
Fixpoint split_slash (p : string) : list string :=
  match p with
  | EmptyString => [EmptyString]
  | String c rest =>
      if Ascii.eqb c "/"%char then EmptyString :: split_slash rest
      else match split_slash rest with
           | part :: parts => String c part :: parts
           | [] => [String c EmptyString]
           end
  end.

(** [format!("/{}", parts[..=i].join("/"))]. *)
Definition parent_path (parts : list string) (i : nat) : string :=
  String.append "/" (String.concat "/" (take (S i) parts)).

(** [tree.entry(p).or_insert_with(..)]. *)
Definition entry_or_directory (m : gmap string MemoryEntry) (p : string)
    : gmap string MemoryEntry :=
  match m !! p with Some _ => m | None => <[p := Directory []]> m end.

Definition create_directory_all (fs : t) (path : string) : outcome FileSystemError t :=
  match tree fs !! path with
  | Some _ => Err (PathExists path)
  | None =>
      let parts := split_slash (trim_start_slashes path) in
      Ok (set_tree fs
            (foldl (fun m i => entry_or_directory m (parent_path parts i))
                   (tree fs) (seq 0 (length parts))))
  end.

Definition list_directory (fs : t) (path : string) : outcome FileSystemError (list string) :=
  match tree fs !! path with
  | Some (Directory d) => Ok (map fst d)
  | Some _ => Err (InvalidOperation path "list_directory on non-directory")
  | None => Err (PathMissing path)
  end.

Definition remove_directory_all (fs : t) (path : string) : outcome FileSystemError t :=
  match tree fs !! path with
  | Some _ => Ok (set_tree fs (delete path (tree fs)))
  | None => Err (PathMissing path)
  end.

Definition remove_directory (fs : t) (path : string) : outcome FileSystemError t :=
  remove_directory_all fs path.

Definition create_file (fs : t) (path : string) : outcome FileSystemError (MemoryFileHandle * t) :=
  match tree fs !! path with
  | Some _ => Err (PathExists path)
  | None =>
      let inner := next fs in
      Ok (mkHandle 0 path inner,
          mkFS (<[path := File inner]> (tree fs))
               (<[inner := mkData [] Unlocked]> (cells fs)) (Pos.succ inner))
  end.

Definition open_file (fs : t) (path : string) : outcome FileSystemError MemoryFileHandle :=
  match tree fs !! path with
  | Some (File c) => Ok (mkHandle 0 path c)
  | Some _ => Err (InvalidOperation path "open_file on non-file")
  | None => Err (PathMissing path)
  end.

Definition remove_file (fs : t) (path : string) : outcome FileSystemError t :=
  match tree fs !! path with
  | Some _ => Ok (set_tree fs (delete path (tree fs)))
  | None => Err (PathMissing path)
  end.

(** A handle's view of its cell, and the write-back of a handle operation
    through the [Arc]: every handle on the cell sees it. *)
Definition view (fs : t) (h : MemoryFileHandle) : MemoryFile.t :=
  MemoryFile.mk (h_cursor h) (cells fs !!! h_data h).

Definition store (fs : t) (h : MemoryFileHandle) (f : MemoryFile.t) : MemoryFileHandle * t :=
  (mkHandle (pos f) (h_name h) (h_data h),
   mkFS (tree fs) (<[h_data h := data f]> (cells fs)) (next fs)).

(** Every change of the store: the tree operations, and the handle
    operations that write ([write], [write_to_offset], [set_size],
    [set_lock_status]) through a handle on a cell that exists. *)
Inductive step : t -> t -> Prop :=
  | step_create_directory fs p fs' : create_directory fs p = Ok fs' -> step fs fs'
  | step_create_directory_all fs p fs' : create_directory_all fs p = Ok fs' -> step fs fs'
  | step_remove_directory fs p fs' : remove_directory fs p = Ok fs' -> step fs fs'
  | step_create_file fs p h fs' : create_file fs p = Ok (h, fs') -> step fs fs'
  | step_remove_file fs p fs' : remove_file fs p = Ok fs' -> step fs fs'
  | step_write fs h buf n f : is_Some (cells fs !! h_data h) ->
      write buf (view fs h) = (Ok n, f) -> step fs (store fs h f).2
  | step_write_to_offset fs h off buf n f : is_Some (cells fs !! h_data h) ->
      write_to_offset off buf (view fs h) = (Ok n, f) -> step fs (store fs h f).2
  | step_set_size fs h n f : is_Some (cells fs !! h_data h) ->
      set_size n (view fs h) = (Ok tt, f) -> step fs (store fs h f).2
  | step_set_lock_status fs h m f : is_Some (cells fs !! h_data h) ->
      set_lock_status m (view fs h) = (Ok tt, f) -> step fs (store fs h f).2.

Definition reachable : t -> Prop := rtc step new.

(** Cells are allocated once: every path's cell exists, no two paths share
    one, and [next] is fresh. *)
Record wf (fs : t) : Prop := {
  wf_cell p c : tree fs !! p = Some (File c) -> is_Some (cells fs !! c);
  wf_inj p q c : tree fs !! p = Some (File c) -> tree fs !! q = Some (File c) -> p = q;
  wf_next c : is_Some (cells fs !! c) -> (c < next fs)%positive;
}.

Lemma entry_or_directory_file m p q c :
  entry_or_directory m p !! q = Some (File c) -> m !! q = Some (File c).
Proof.
  unfold entry_or_directory. destruct (m !! p) eqn:?; [done|].
  rewrite lookup_insert. case_decide; naive_solver.
Qed.

Lemma foldl_entry_file parts l m q c :
  foldl (fun m i => entry_or_directory m (parent_path parts i)) m l !! q = Some (File c) ->
  m !! q = Some (File c).
Proof.
  revert m. induction l as [|i l IH]; intros m; simpl; [done|].
  intros H%IH. by eapply entry_or_directory_file.
Qed.

(** A change of the tree that only removes files keeps the invariant. *)
Lemma wf_set_tree fs m :
  wf fs -> (forall q c, m !! q = Some (File c) -> tree fs !! q = Some (File c)) ->
  wf (set_tree fs m).
Proof. intros [] Hm. split; simpl; naive_solver. Qed.

Lemma wf_store fs h f : wf fs -> is_Some (cells fs !! h_data h) -> wf (store fs h f).2.
Proof.
  intros [Hc Hi Hn] Hh. split; simpl; [|naive_solver|].
  - intros p c Hp. rewrite lookup_insert. case_decide; [done|naive_solver].
  - intros c. rewrite lookup_insert. case_decide; [subst; auto|auto].
Qed.

Lemma wf_create_file fs p h fs' : wf fs -> create_file fs p = Ok (h, fs') -> wf fs'.
Proof.
  intros [Hc Hi Hn] H. unfold create_file in H.
  destruct (tree fs !! p) eqn:Hp; [done|]. injection H as <- <-.
  assert (Hfresh : forall q, tree fs !! q = Some (File (next fs)) -> False).
  { intros q Hq%Hc%Hn. lia. }
  split; simpl.
  - intros q c. rewrite !lookup_insert. repeat case_decide; naive_solver.
  - intros q q' c. rewrite !lookup_insert. repeat case_decide; naive_solver.
  - intros c. rewrite lookup_insert. case_decide as Hd; [subst; lia|].
    intros H%Hn. lia.
Qed.

Lemma step_wf fs fs' : step fs fs' -> wf fs -> wf fs'.
Proof.
  destruct 1 as [fs p fs' H|fs p fs' H|fs p fs' H|fs p h fs' H|fs p fs' H|
                 |fs h off buf n f Hs H| |]; intros Hwf;
    try (by apply wf_store); try (by eapply wf_create_file);
    unfold create_directory, create_directory_all, remove_directory, remove_directory_all,
      remove_file in H;
    destruct (tree fs !! p) eqn:Hp; try done; injection H as <-;
    (apply wf_set_tree; [done|]); intros q c.
  - rewrite lookup_insert. case_decide; [done|auto].
  - apply foldl_entry_file.
  - rewrite lookup_delete. case_decide; [done|auto].
  - rewrite lookup_delete. case_decide; [done|auto].
Qed.

(** In every store reachable from an empty file system, each file path
    has its own data cell: the cell exists and no other path shares it, so a
    write through one file never shows in another. *)
Theorem reachable_wf fs (H : reachable fs) : wf fs.
Proof.
  apply (rtc_ind_r (R := step) wf new); [|intros y z _ Hs Hy; by eapply step_wf|done].
  split; simpl; intros *; by rewrite lookup_empty, ?is_Some_alt.
Qed.

Lemma reachable_wf_witness :
  exists fs h1 fs1 h2, create_file new "/a" = Ok (h1, fs1) /\ create_file fs1 "/b" = Ok (h2, fs)
    /\ wf fs.
Proof.
  eexists _, _, _, _. split; [reflexivity|]. split; [reflexivity|].
  apply reachable_wf. eapply rtc_l; [|eapply rtc_l; [|apply rtc_refl]].
  - eapply (step_create_file _ "/a"). reflexivity.
  - eapply (step_create_file _ "/b"). reflexivity.
Defined.

Lemma lookup_resize_lt n (b : bytes) (i : nat) :
  zlen b <= n -> (Z.of_nat i < zlen b -> resize n 0 b !! i = b !! i) /\
  (zlen b <= Z.of_nat i < n -> resize n 0 b !! i = Some 0).
Proof.
  intros Hn. unfold resize. destruct (Z.leb_spec n (zlen b)).
  - split; [|lia]. intros. rewrite take_ge; [done|]. unfold zlen in *. lia.
  - unfold zlen in *. split; intros.
    + by rewrite lookup_app_l by lia.
    + rewrite lookup_app_r by lia. apply lookup_replicate. split; [done|lia].
Qed.

Lemma write_to_offset_eq off buf f :
  off + zlen buf < 2 ^ 64 ->
  write_to_offset off buf f = (Ok (zlen buf), set_buffer f (splice off buf
    (if zlen (buffer (data f)) <? off + zlen buf
     then resize (off + zlen buf) 0 (buffer (data f)) else buffer (data f)))).
Proof.
  intros. unfold write_to_offset. rewrite ensure_true by lia.
  unfold mbind, stateful_bind, lift, modify, mret, stateful_ret. by case_match.
Qed.

(** [write_to_offset] through a handle succeeds whenever the end of the
    write fits the address space, leaves the handle's cursor alone, and every
    handle on the same file then reads the written bytes back at that offset,
    the old bytes outside the written range and zeros in the hole a write
    past the end leaves; a handle on another cell sees no change. *)
Theorem write_to_offset_read fs h1 h2 off buf
    (Hoff : 0 <= off) (Hfit : off + zlen buf < 2 ^ 64)
    (Hlen : zlen (buffer (cells fs !!! h_data h1)) < 2 ^ 64) :
  exists f, write_to_offset off buf (view fs h1) = (Ok (zlen buf), f) /\
    let '(h1', fs') := store fs h1 f in
    h_cursor h1' = h_cursor h1 /\
    (h_data h2 = h_data h1 ->
       MemoryFile.read_at_offset (view fs' h2) off (zlen buf) = Ok buf /\
       forall i : nat, Z.of_nat i < off \/ off + zlen buf <= Z.of_nat i ->
         let old := buffer (cells fs !!! h_data h2) in
         let new := buffer (cells fs' !!! h_data h2) in
         new !! i = if decide (Z.of_nat i < zlen old) then old !! i
                    else if decide (Z.of_nat i < off) then Some 0 else None) /\
    (h_data h2 <> h_data h1 -> view fs' h2 = view fs h2).
Proof.
  eexists. split.
  { apply write_to_offset_eq. lia. }
  unfold store; simpl. split; [done|]. split.
  - intros Heq. unfold view; simpl. rewrite Heq, lookup_total_insert_eq. simpl.
    set (old := buffer (cells fs !!! h_data h1)) in *.
    set (b := if zlen old <? off + zlen buf then _ else _).
    assert (Hb : zlen b = Z.max (zlen old) (off + zlen buf)).
    { unfold b. destruct (Z.ltb_spec (zlen old) (off + zlen buf)).
      - rewrite zlen_resize; zlen_tac.
      - lia. }
    assert (Hs : zlen (splice off buf b) = zlen b) by (apply zlen_splice; lia).
    split.
    + rewrite MemoryFile_read_at by (simpl; zlen_tac).
      simpl. f_equal. apply window_splice_same; lia.
    + intros i Hi. rewrite lookup_splice_outside by lia. unfold b.
      destruct (Z.ltb_spec (zlen old) (off + zlen buf)).
      * destruct (lookup_resize_lt (off + zlen buf) old i) as [H1 H2]; [lia|].
        repeat case_decide; [by apply H1|apply H2; zlen_tac|].
        apply lookup_ge_None_2. pose proof (zlen_resize (off + zlen buf) 0 old).
        unfold zlen in *. lia.
      * repeat case_decide; [done|zlen_tac|apply lookup_ge_None_2; unfold zlen in *; lia].
  - intros Hne. unfold view; simpl. by rewrite lookup_total_insert_ne.
Qed.

(** Two handles on one file: what [h1] writes past the end, [h2] reads. *)
Definition two_handles : MemoryFileHandle * MemoryFileHandle * t :=
  match create_file new "/wal" with
  | Ok (h1, fs) => match open_file fs "/wal" with Ok h2 => (h1, h2, fs) | _ => (h1, h1, fs) end
  | _ => (mkHandle 0 EmptyString 1, mkHandle 0 EmptyString 1, new)
  end.

Lemma write_to_offset_read_witness :
  let '(h1, h2, fs) := two_handles in
  exists f, write_to_offset 2 [7; 8] (view fs h1) = (Ok 2, f) /\
    MemoryFile.read_at_offset (view (store fs h1 f).2 h2) 2 2 = Ok [7; 8].
Proof.
  destruct (write_to_offset_read (snd two_handles) (fst (fst two_handles))
              (snd (fst two_handles)) 2 [7; 8]) as (f & Hw & Hr); [done..|].
  exists f. split; [exact Hw|]. exact (proj1 (proj1 (proj2 Hr) eq_refl)).
Defined.

End MemoryFileSystem.
