(* ===== verification/PagerConfig.v ===== *)
(** * Pager configuration ([src/pager/config.rs]) and the foreign codecs

    The enums [CompressionType], [EncryptionType] and [PageSize] with their
    number representations, and [PagerConfig].  The compression, encryption
    and hash crates the pager and the log call are the class [Codecs]; what
    the code relies on of them is [CodecsLaws], and [ToyCodecs] shows that
    the laws can hold. *)
From S2P Require Import Prelude.

Module CompressionType.
Inductive t : Type := None_ | Lz4 | Zstd.
#[global] Instance t_eq_dec : EqDecision t.
Proof. solve_decision. Defined.

Definition from_u8 (value : Z) : option t :=
  match value with 0 => Some None_ | 1 => Some Lz4 | 2 => Some Zstd | _ => None end.
Definition to_u8 (c : t) : Z := match c with None_ => 0 | Lz4 => 1 | Zstd => 2 end.

Lemma compression_from_to_u8 c : from_u8 (to_u8 c) = Some c.
Proof. by destruct c. Qed.
Lemma compression_to_from_u8 v c : from_u8 v = Some c -> to_u8 c = v.
Proof. unfold from_u8. repeat case_match; naive_solver. Qed.
Lemma compression_to_u8_fits c : is_u8 (to_u8 c).
Proof. by destruct c. Qed.
End CompressionType.

Module EncryptionType.
Inductive t : Type := None_ | Aes256Gcm.
#[global] Instance t_eq_dec : EqDecision t.
Proof. solve_decision. Defined.

Definition from_u8 (value : Z) : option t :=
  match value with 0 => Some None_ | 1 => Some Aes256Gcm | _ => None end.
Definition to_u8 (e : t) : Z := match e with None_ => 0 | Aes256Gcm => 1 end.

Lemma encryption_from_to_u8 e : from_u8 (to_u8 e) = Some e.
Proof. by destruct e. Qed.
Lemma encryption_to_from_u8 v e : from_u8 v = Some e -> to_u8 e = v.
Proof. unfold from_u8. repeat case_match; naive_solver. Qed.
Lemma encryption_to_u8_fits e : is_u8 (to_u8 e).
Proof. by destruct e. Qed.
End EncryptionType.

Module PageSize.
Inductive t : Type := Size4KB | Size8KB | Size16KB | Size32KB | Size64KB.
#[global] Instance t_eq_dec : EqDecision t.
Proof. solve_decision. Defined.

Definition from_u32 (value : Z) : option t :=
  if value =? 4096 then Some Size4KB
  else if value =? 8192 then Some Size8KB
  else if value =? 16384 then Some Size16KB
  else if value =? 32768 then Some Size32KB
  else if value =? 65536 then Some Size64KB
  else None.
Definition to_u32 (s : t) : Z :=
  match s with
  | Size4KB => 4096 | Size8KB => 8192 | Size16KB => 16384
  | Size32KB => 32768 | Size64KB => 65536
  end.
Definition header_size : Z := 32.
Definition checksum_size : Z := 32.
Definition data_size (s : t) : Z := to_u32 s - header_size - checksum_size.

Lemma from_to_u32 s : from_u32 (to_u32 s) = Some s.
Proof. by destruct s. Qed.
Lemma to_from_u32 v s : from_u32 v = Some s -> to_u32 s = v.
Proof. unfold from_u32. repeat case_match; intros [= <-]; simpl; lia. Qed.
Lemma to_u32_bounds s : 4096 <= to_u32 s <= 65536.
Proof. by destruct s. Qed.
End PageSize.

Module PagerConfig.
Record t : Type := mk {
  page_size : PageSize.t;
  compression : CompressionType.t;
  encryption : EncryptionType.t;
  encryption_key : option bytes;
  enable_checksums : bool;
  cache_capacity : Z;
  cache_write_back : bool;
}.

Definition default : t :=
  mk PageSize.Size4KB CompressionType.None_ EncryptionType.None_ None true 10000 true.

Definition with_page_size (c : t) (p : PageSize.t) : t :=
  mk p (compression c) (encryption c) (encryption_key c) (enable_checksums c)
     (cache_capacity c) (cache_write_back c).
Definition with_compression (c : t) (k : CompressionType.t) : t :=
  mk (page_size c) k (encryption c) (encryption_key c) (enable_checksums c)
     (cache_capacity c) (cache_write_back c).
Definition with_encryption (c : t) (e : EncryptionType.t) (key : bytes) : t :=
  mk (page_size c) (compression c) e (Some key) (enable_checksums c)
     (cache_capacity c) (cache_write_back c).
Definition with_checksums (c : t) (enable : bool) : t :=
  mk (page_size c) (compression c) (encryption c) (encryption_key c) enable
     (cache_capacity c) (cache_write_back c).
Definition with_cache_capacity (c : t) (capacity : Z) : t :=
  mk (page_size c) (compression c) (encryption c) (encryption_key c) (enable_checksums c)
     capacity (cache_write_back c).
Definition with_cache_write_back (c : t) (write_back : bool) : t :=
  mk (page_size c) (compression c) (encryption c) (encryption_key c) (enable_checksums c)
     (cache_capacity c) write_back.

Definition validate (c : t) : outcome string unit :=
  if bool_decide (encryption c <> EncryptionType.None_) && bool_decide (encryption_key c = None)
  then Err "Encryption key required when encryption is enabled"%string
  else Ok tt.
End PagerConfig.

(** ** Foreign code

    [sha256] is [sha2::Sha256] over the concatenation of the updates;
    [lz4_compress]/[lz4_decompress] are [lz4_flex::compress_prepend_size] and
    [decompress_size_prepended]; [zstd_encode]/[zstd_decode] are
    [zstd::encode_all] at level 3 and [decode_all]; [aes_encrypt key nonce]
    and [aes_decrypt key nonce] are [Aes256Gcm::encrypt] and [decrypt].
    [None] is their error. *)
Class Codecs : Type := {
  sha256 : bytes -> bytes;
  lz4_compress : bytes -> bytes;
  lz4_decompress : bytes -> option bytes;
  zstd_encode : bytes -> option bytes;
  zstd_decode : bytes -> option bytes;
  aes_encrypt : bytes -> bytes -> bytes -> option bytes;
  aes_decrypt : bytes -> bytes -> bytes -> option bytes;
}.

(** Documented behaviour: a SHA-256 digest has 32 bytes; decompression
    inverts compression of inputs whose size fits the four-byte size prefix;
    an LZ4 block with its prefix and a Zstandard frame with its magic number
    have at least four bytes, and both crates document a bound on their
    output ([get_maximum_output_size] of [lz4_flex] behind the four-byte
    prefix, [ZSTD_compressBound] of Zstandard); AES-GCM decryption with the key and the nonce
    of an encryption returns its plaintext, and the ciphertext is the
    plaintext's length plus a 16-byte tag. *)
Class CodecsLaws `{Codecs} : Prop := {
  sha256_len bs : zlen (sha256 bs) = 32;
  sha256_ok bs : bytes_ok (sha256 bs);
  lz4_roundtrip bs : zlen bs < 2 ^ 32 -> lz4_decompress (lz4_compress bs) = Some bs;
  lz4_min bs : 4 <= zlen (lz4_compress bs);
  lz4_max bs : zlen (lz4_compress bs) <= 4 + 20 + zlen bs * 110 / 100;
  lz4_bytes bs : bytes_ok bs -> bytes_ok (lz4_compress bs);
  zstd_roundtrip bs c : zstd_encode bs = Some c -> zstd_decode c = Some bs;
  zstd_min bs c : zstd_encode bs = Some c -> 4 <= zlen c;
  zstd_max bs c : zstd_encode bs = Some c -> zlen c <= zlen bs + zlen bs / 256 + 64;
  zstd_bytes bs c : bytes_ok bs -> zstd_encode bs = Some c -> bytes_ok c;
  aes_roundtrip k n p c : aes_encrypt k n p = Some c -> aes_decrypt k n c = Some p;
  aes_len k n p c : aes_encrypt k n p = Some c -> zlen c = zlen p + 16;
  aes_bytes k n p c : bytes_ok p -> aes_encrypt k n p = Some c -> bytes_ok c;
  lz4_out bs d : bytes_ok bs -> lz4_decompress bs = Some d -> bytes_ok d;
  zstd_out bs d : bytes_ok bs -> zstd_decode bs = Some d -> bytes_ok d;
  aes_out k n c p : bytes_ok c -> aes_decrypt k n c = Some p -> bytes_ok p;
}.

(** The compression step and its inverse, as the [match] on the
    compression type that log records and pages share; [None] is an error of
    the called crate. *)
Definition compress `{Codecs} (c : CompressionType.t) (bs : bytes) : option bytes :=
  match c with
  | CompressionType.None_ => Some bs
  | CompressionType.Lz4 => Some (lz4_compress bs)
  | CompressionType.Zstd => zstd_encode bs
  end.

Definition decompress `{Codecs} (c : CompressionType.t) (bs : bytes) : option bytes :=
  match c with
  | CompressionType.None_ => Some bs
  | CompressionType.Lz4 => lz4_decompress bs
  | CompressionType.Zstd => zstd_decode bs
  end.

Section Compress.
Context `{CodecsLaws}.

Lemma decompress_compress c bs z :
  zlen bs < 2 ^ 32 -> compress c bs = Some z -> decompress c z = Some bs.
Proof.
  intros Hlen. destruct c; simpl; [naive_solver| |apply zstd_roundtrip].
  intros [= <-]. by apply lz4_roundtrip.
Qed.

Lemma compress_min c bs z : 4 <= zlen bs -> compress c bs = Some z -> 4 <= zlen z.
Proof.
  intros Hlen. destruct c; simpl; [naive_solver| |apply zstd_min].
  intros [= <-]. apply lz4_min.
Qed.

Lemma compress_bound c bs z : compress c bs = Some z -> zlen z <= zlen bs + zlen bs / 8 + 64.
Proof.
  pose proof (zlen_nonneg bs). destruct c; simpl.
  - intros [= <-]. Z.div_mod_to_equations. lia.
  - intros [= <-]. pose proof (lz4_max bs). Z.div_mod_to_equations. lia.
  - intros Hz%zstd_max. Z.div_mod_to_equations. lia.
Qed.

Lemma compress_max c bs z : zlen bs < 2 ^ 32 -> compress c bs = Some z -> zlen z < 2 ^ 33.
Proof. intros Hlen Hz%compress_bound. Z.div_mod_to_equations. lia. Qed.

Lemma compress_bytes c bs z : bytes_ok bs -> compress c bs = Some z -> bytes_ok z.
Proof.
  intros Hok. destruct c; simpl; [naive_solver| |by apply zstd_bytes].
  intros [= <-]. by apply lz4_bytes.
Qed.

Lemma decompress_bytes c bs z : bytes_ok bs -> decompress c bs = Some z -> bytes_ok z.
Proof.
  intros Hok. destruct c; simpl; [naive_solver|by apply lz4_out|by apply zstd_out].
Qed.
End Compress.

(** A concrete instance of the codecs: a four-byte prefix for the
    compressors, a cipher that appends a zero tag, and a digest of the length and the sum
    of the bytes. *)
Module ToyCodecs.
Definition sum (bs : bytes) : Z := foldr Z.add 0 bs.
Definition prefixed (bs : bytes) : bytes := to_le_bytes 4 (zlen bs) ++ bs.

Definition toy : Codecs := {|
  sha256 bs := to_le_bytes 16 (zlen bs) ++ to_le_bytes 16 (sum bs);
  lz4_compress := prefixed;
  lz4_decompress bs := Some (drop 4 bs);
  zstd_encode bs := Some (prefixed bs);
  zstd_decode bs := Some (drop 4 bs);
  aes_encrypt _ _ p := Some (p ++ replicate 16 0);
  aes_decrypt _ _ c := Some (take (length c - 16) c);
|}.

#[global] Instance toy_laws : CodecsLaws (H := toy).
Proof.
  assert (Hd : forall bs, drop 4 (prefixed bs) = bs).
  { intros bs. unfold prefixed. apply drop_app_length'. by rewrite length_to_le_bytes. }
  assert (Hm : forall bs, 4 <= zlen (prefixed bs)) by (intros bs; unfold prefixed; zlen_tac).
  assert (Hx : forall bs, zlen (prefixed bs) = zlen bs + 4)
    by (intros bs; unfold prefixed; zlen_tac).
  assert (Hb : forall bs, bytes_ok bs -> bytes_ok (prefixed bs)).
  { intros bs H. apply Forall_app. split; [apply to_le_bytes_ok|done]. }
  assert (Hs : forall bs, zlen (@sha256 toy bs) = 32 /\ bytes_ok (@sha256 toy bs)).
  { intros bs. cbn. split; [zlen_tac|]. apply Forall_app. split; apply to_le_bytes_ok. }
  split; try (intros; apply Hs); cbn; intros *; rewrite ?Hd; clear Hs.
  all: try (intros Hok [= <-]; by apply Forall_drop).
  all: try naive_solver.
  - rewrite Hx. pose proof (zlen_nonneg bs). Z.div_mod_to_equations. lia.
  - intros [= <-]. rewrite Hx. pose proof (zlen_nonneg bs). Z.div_mod_to_equations. lia.
  - intros _ _ p c [= <-]. f_equal. apply take_app_length'. rewrite length_app. simpl. lia.
  - intros _ _ p c [= <-]. by rewrite zlen_app.
  - intros _ _ p c Hok [= <-]. apply Forall_app. split; [done|]. by repeat constructor.
  - intros _ _ c p Hok [= <-]. by apply Forall_take.
Qed.
End ToyCodecs.
