(* ===== verification/WalRecord.v ===== *)
(** * Write-ahead log records ([src/wal/record.rs], [src/wal/error.rs])

    A record is serialized as

      WALR | lsn 8 | timestamp 8 | type 1 | compression 1 | encryption 1 |
      uncompressed size 4 | stored size 4 | data | SHA-256 of all before

    where the data is the serialized [RecordData], compressed and then
    encrypted.  [to_bytes] and [from_bytes] follow the source step by step;
    the random nonce and the clock of [WalRecord::new] are arguments. *)
From S2P Require Import Prelude Types Vfs PagerConfig.

(** The errors of the log.  The formatted [details] strings of the source
    are left out; every other field is kept. *)
Inductive WalError : Type :=
  | VfsError (e : FileSystemError)
  | InvalidRecord (lsn : LogSequenceNumber)
  | ChecksumMismatch (lsn : LogSequenceNumber) (offset expected found : Z)
  | CorruptedWal (offset : Z) (corruption_type : string)
  | TransactionNotFound (txn_id : TransactionId)
  | TransactionAlreadyExists (txn_id : TransactionId)
  | InvalidTransactionState (txn_id : TransactionId) (current_state operation : string)
  | WalFull (current_size max_size : Z)
  | RecoveryError (lsn : LogSequenceNumber) (operation : string)
  | CheckpointError (lsn : LogSequenceNumber)
  | WalIoError
  | SerializationError (lsn : LogSequenceNumber)
  | DeserializationError (offset : Z)
  | EncryptionError (lsn : LogSequenceNumber) (encryption_type : string)
  | DecryptionError (offset : Z) (encryption_type : string)
  | MissingEncryptionKey (encryption_type : string)
  | CommitNotificationError (txn_id : TransactionId) (lsn : LogSequenceNumber)
  | WalInternalError (msg : string).

Module RecordType.
Inductive t : Type := Begin | Write | Commit | Rollback | Checkpoint | Prepare.

Definition from_u8 (value : Z) : outcome WalError t :=
  match value with
  | 1 => Ok Begin | 2 => Ok Write | 3 => Ok Commit
  | 4 => Ok Rollback | 5 => Ok Checkpoint | 6 => Ok Prepare
  | _ => Err (InvalidRecord 0)
  end.
Definition to_u8 (r : t) : Z :=
  match r with
  | Begin => 1 | Write => 2 | Commit => 3 | Rollback => 4 | Checkpoint => 5 | Prepare => 6
  end.

Lemma record_type_from_to_u8 r : from_u8 (to_u8 r) = Ok r.
Proof. by destruct r. Qed.
Lemma record_type_to_from_u8 v r : from_u8 v = Ok r -> to_u8 r = v.
Proof. unfold from_u8. repeat case_match; naive_solver. Qed.
Lemma record_type_to_u8_fits r : is_u8 (to_u8 r).
Proof. by destruct r. Qed.
Lemma record_type_from_u8_no_panic v : from_u8 v <> Panic.
Proof. unfold from_u8. by repeat case_match. Qed.
End RecordType.

Module WriteOpType.
Inductive t : Type :=
  | Put | Delete | BloomInsert | GraphAddEdge | GraphRemoveEdge
  | TimeSeriesInsert | TimeSeriesDelete | VectorInsert | VectorDelete
  | GeoInsert | GeoDelete | FullTextIndex | FullTextUpdate | FullTextDelete.
#[global] Instance t_eq_dec : EqDecision t.
Proof. solve_decision. Defined.

Definition from_u8 (value : Z) : outcome WalError t :=
  match value with
  | 1 => Ok Put | 2 => Ok Delete | 3 => Ok BloomInsert
  | 4 => Ok GraphAddEdge | 5 => Ok GraphRemoveEdge
  | 6 => Ok TimeSeriesInsert | 7 => Ok TimeSeriesDelete
  | 8 => Ok VectorInsert | 9 => Ok VectorDelete
  | 10 => Ok GeoInsert | 11 => Ok GeoDelete
  | 12 => Ok FullTextIndex | 13 => Ok FullTextUpdate | 14 => Ok FullTextDelete
  | _ => Err (InvalidRecord 0)
  end.
Definition to_u8 (w : t) : Z :=
  match w with
  | Put => 1 | Delete => 2 | BloomInsert => 3 | GraphAddEdge => 4 | GraphRemoveEdge => 5
  | TimeSeriesInsert => 6 | TimeSeriesDelete => 7 | VectorInsert => 8 | VectorDelete => 9
  | GeoInsert => 10 | GeoDelete => 11 | FullTextIndex => 12 | FullTextUpdate => 13
  | FullTextDelete => 14
  end.

Lemma write_op_from_to_u8 w : from_u8 (to_u8 w) = Ok w.
Proof. by destruct w. Qed.
Lemma write_op_to_u8_fits w : is_u8 (to_u8 w).
Proof. by destruct w. Qed.
Lemma write_op_from_u8_no_panic v : from_u8 v <> Panic.
Proof. unfold from_u8. by repeat case_match. Qed.
End WriteOpType.

#[export] Hint Resolve RecordType.record_type_from_u8_no_panic WriteOpType.write_op_from_u8_no_panic : no_panic.

Module RecordData.
Inductive t : Type :=
  | Begin (txn_id : TransactionId)
  | Write (txn_id : TransactionId) (table_id : TableId) (op_type : WriteOpType.t)
      (key value : bytes)
  | Commit (txn_id : TransactionId)
  | Rollback (txn_id : TransactionId)
  | Checkpoint (lsn : LogSequenceNumber) (active_txns : list TransactionId)
  | Prepare (txn_id : TransactionId).
#[global] Instance t_eq_dec : EqDecision t.
Proof. solve_decision. Defined.

Definition record_type (d : t) : RecordType.t :=
  match d with
  | Begin _ => RecordType.Begin
  | Write _ _ _ _ _ => RecordType.Write
  | Commit _ => RecordType.Commit
  | Rollback _ => RecordType.Rollback
  | Checkpoint _ _ => RecordType.Checkpoint
  | Prepare _ => RecordType.Prepare
  end.

Definition txn_id (d : t) : option TransactionId :=
  match d with
  | Begin txn | Write txn _ _ _ _ | Commit txn | Rollback txn | Prepare txn => Some txn
  | Checkpoint _ _ => None
  end.

(** The ranges of the fields, and lengths that the four-byte length fields
    can hold. *)
Definition wf (d : t) : Prop :=
  match d with
  | Begin txn | Commit txn | Rollback txn | Prepare txn => is_u64 txn
  | Write txn table _ key value =>
      is_u64 txn /\ is_u64 table /\ bytes_ok key /\ bytes_ok value /\
      is_u32 (zlen key) /\ is_u32 (zlen value)
  | Checkpoint lsn txns => is_u64 lsn /\ is_u32 (zlen txns) /\ Forall is_u64 txns
  end.
End RecordData.

Module WalRecord.
Import RecordData.

Record t : Type := mk {
  lsn : LogSequenceNumber;
  timestamp : Z;
  data : RecordData.t;
  compression : CompressionType.t;
  encryption : EncryptionType.t;
}.

(** [WalRecord::new] with the clock's reading in microseconds. *)
Definition new (now : Z) (lsn : LogSequenceNumber) (data : RecordData.t)
    (compression : CompressionType.t) (encryption : EncryptionType.t) : t :=
  mk lsn (as_u64 now) data compression encryption.

Definition serialize_data (d : RecordData.t) : bytes :=
  match d with
  | Begin txn | Commit txn | Rollback txn | Prepare txn => to_le_bytes 8 txn
  | Write txn table op key value =>
      to_le_bytes 8 txn ++ to_le_bytes 8 table ++ [WriteOpType.to_u8 op]
        ++ to_le_bytes 4 (as_u32 (zlen key)) ++ key
        ++ to_le_bytes 4 (as_u32 (zlen value)) ++ value
  | Checkpoint lsn txns =>
      to_le_bytes 8 lsn ++ to_le_bytes 4 (as_u32 (zlen txns))
        ++ mjoin (map (to_le_bytes 8) txns)
  end.

(** The loop over the active transaction ids of a checkpoint. *)
Fixpoint read_txns (n : nat) (cursor : Z) (bs : bytes) : outcome WalError (list TransactionId) :=
  match n with
  | O => Ok []
  | S n =>
      _ ← ensure (cursor + 8 <=? zlen bs) (DeserializationError cursor);
      txn ← get_le 8 cursor bs;
      rest ← read_txns n (cursor + 8) bs;
      Ok (txn :: rest)
  end.

Definition read_one_txn (mk : TransactionId -> RecordData.t) (bs : bytes)
    : outcome WalError RecordData.t :=
  _ ← ensure (8 <=? zlen bs) (DeserializationError 0);
  txn ← get_le 8 0 bs;
  Ok (mk txn).

Definition deserialize_data (ty : RecordType.t) (bs : bytes) : outcome WalError RecordData.t :=
  match ty with
  | RecordType.Begin => read_one_txn Begin bs
  | RecordType.Write =>
      _ ← ensure (8 <=? zlen bs) (DeserializationError 0);
      txn ← get_le 8 0 bs;
      _ ← ensure (16 <=? zlen bs) (DeserializationError 8);
      table ← get_le 8 8 bs;
      _ ← ensure (17 <=? zlen bs) (DeserializationError 16);
      op_byte ← index 16 bs;
      op ← WriteOpType.from_u8 op_byte;
      _ ← ensure (21 <=? zlen bs) (DeserializationError 17);
      key_len ← get_le 4 17 bs;
      _ ← ensure (21 + key_len <=? zlen bs) (DeserializationError 21);
      key ← slice 21 (21 + key_len) bs;
      let cursor := 21 + key_len in
      _ ← ensure (cursor + 4 <=? zlen bs) (DeserializationError cursor);
      value_len ← get_le 4 cursor bs;
      let cursor := cursor + 4 in
      _ ← ensure (cursor + value_len <=? zlen bs) (DeserializationError cursor);
      value ← slice cursor (cursor + value_len) bs;
      Ok (Write txn table op key value)
  | RecordType.Commit => read_one_txn Commit bs
  | RecordType.Rollback => read_one_txn Rollback bs
  | RecordType.Checkpoint =>
      _ ← ensure (8 <=? zlen bs) (DeserializationError 0);
      lsn ← get_le 8 0 bs;
      _ ← ensure (12 <=? zlen bs) (DeserializationError 8);
      num ← get_le 4 8 bs;
      txns ← read_txns (Z.to_nat num) 12 bs;
      Ok (Checkpoint lsn txns)
  | RecordType.Prepare => read_one_txn Prepare bs
  end.

Section Codec.
Context `{Codecs}.

Definition MAGIC : bytes := [87; 65; 76; 82].

Definition AES : string := "AES-256-GCM".

(** The stored form of the payload: compressed, then encrypted with the
    nonce in front. *)
Definition encrypt (r : t) (key : option bytes) (nonce compressed : bytes)
    : outcome WalError bytes :=
  match encryption r with
  | EncryptionType.None_ => Ok compressed
  | EncryptionType.Aes256Gcm =>
      k ← ok_or key (MissingEncryptionKey AES);
      e ← ok_or (aes_encrypt k nonce compressed) (EncryptionError (lsn r) AES);
      Ok (nonce ++ e)
  end.

Definition header (r : t) (uncompressed_size stored_size : Z) : bytes :=
  MAGIC ++ to_le_bytes 8 (lsn r) ++ to_le_bytes 8 (timestamp r)
    ++ [RecordType.to_u8 (record_type (data r))]
    ++ [CompressionType.to_u8 (compression r)]
    ++ [EncryptionType.to_u8 (encryption r)]
    ++ to_le_bytes 4 uncompressed_size ++ to_le_bytes 4 stored_size.

Definition to_bytes (r : t) (key : option bytes) (nonce : bytes) : outcome WalError bytes :=
  let data_bytes := serialize_data (data r) in
  compressed ← ok_or (compress (compression r) data_bytes) (SerializationError (lsn r));
  final_data ← encrypt r key nonce compressed;
  let buffer :=
    header r (as_u32 (zlen data_bytes)) (as_u32 (zlen final_data)) ++ final_data in
  Ok (buffer ++ sha256 buffer).

Definition decrypt (e : EncryptionType.t) (key : option bytes) (cursor : Z) (stored : bytes)
    : outcome WalError bytes :=
  match e with
  | EncryptionType.None_ => Ok stored
  | EncryptionType.Aes256Gcm =>
      k ← ok_or key (MissingEncryptionKey AES);
      _ ← ensure (12 <=? zlen stored) (DecryptionError cursor AES);
      nonce ← slice 0 12 stored;
      ciphertext ← slice 12 (zlen stored) stored;
      ok_or (aes_decrypt k nonce ciphertext) (DecryptionError cursor AES)
  end.

Definition from_bytes (bs : bytes) (key : option bytes) : outcome WalError t :=
  _ ← ensure (67 <=? zlen bs) (InvalidRecord 0);
  magic ← slice 0 4 bs;
  _ ← ensure (bytes_eqb magic MAGIC) (InvalidRecord 0);
  lsn ← get_le 8 4 bs;
  timestamp ← get_le 8 12 bs;
  ty_byte ← index 20 bs;
  record_type ← RecordType.from_u8 ty_byte;
  c_byte ← index 21 bs;
  compression ← ok_or (CompressionType.from_u8 c_byte) (DeserializationError 21);
  e_byte ← index 22 bs;
  encryption ← ok_or (EncryptionType.from_u8 e_byte) (DeserializationError 22);
  _ ← get_le (E := WalError) 4 23 bs;
  stored_size ← get_le 4 27 bs;
  _ ← ensure (31 + stored_size + 32 <=? zlen bs) (InvalidRecord lsn);
  let data_end := 31 + stored_size in
  expected ← slice data_end (data_end + 32) bs;
  prefix ← slice 0 data_end bs;
  let actual := sha256 prefix in
  _ ← (if bytes_eqb expected actual then Ok tt
       else e4 ← get_le 4 0 expected;
            a4 ← get_le 4 0 actual;
            Err (ChecksumMismatch lsn 0 e4 a4));
  stored_data ← slice 31 data_end bs;
  compressed ← decrypt encryption key 31 stored_data;
  data_bytes ← ok_or (decompress compression compressed) (DeserializationError 31);
  data ← deserialize_data record_type data_bytes;
  Ok (mk lsn timestamp data compression encryption).

(** A record whose fields fit their widths, with its payload short enough
    for the size fields. *)
Record wf (r : t) : Prop := {
  wf_lsn : is_u64 (lsn r);
  wf_timestamp : is_u64 (timestamp r);
  wf_data : RecordData.wf (data r);
  wf_payload : is_u32 (zlen (serialize_data (data r)));
}.

End Codec.

Lemma read_txns_back pre txns rest :
  Forall is_u64 txns ->
  read_txns (length txns) (zlen pre) (pre ++ mjoin (map (to_le_bytes 8) txns) ++ rest) = Ok txns.
Proof.
  intros Hf. revert pre. induction Hf as [|t txns Ht _ IH]; intros pre; [done|]. simpl.
  rewrite <- app_assoc.
  rewrite ensure_true by zlen_tac. simpl.
  rewrite get_le_mid with (n := 8) by (done || lia). simpl.
  rewrite app_assoc.
  replace (zlen pre + 8) with (zlen (pre ++ to_le_bytes 8 t)) by zlen_tac.
  by rewrite IH.
Qed.

(** Extra bytes after the serialized data are ignored. *)
Lemma deserialize_serialize d :
  RecordData.wf d -> deserialize_data (record_type d) (serialize_data d) = Ok d.
Proof.
  destruct d as [txn|txn table op key value|txn|txn|lsn txns|txn]; intros Hwf;
    simpl in *; unfold read_one_txn.
  all: try by (read_back).
  - destruct Hwf as (? & ? & ? & ? & ? & ?). rewrite !as_u_id by done.
    pose proof (WriteOpType.write_op_to_u8_fits op).
    read_back. rewrite WriteOpType.write_op_from_to_u8. by read_back.
  - destruct Hwf as (? & ? & ?). rewrite !as_u_id by done. read_back.
    pose proof (read_txns_back (to_le_bytes 8 lsn ++ to_le_bytes 4 (zlen txns)) txns []) as Hr.
    rewrite app_nil_r, <- app_assoc in Hr.
    replace (zlen (_ ++ _)) with 12 in Hr by zlen_tac. unfold zlen at 1.
    by rewrite Nat2Z.id, Hr.
Qed.

Lemma zlen_serialize_min d : 8 <= zlen (serialize_data d).
Proof. destruct d; simpl; zlen_tac. Qed.

Lemma mjoin_bytes_ok txns : bytes_ok (mjoin (map (to_le_bytes 8) txns)).
Proof.
  induction txns; simpl; [constructor|]. apply Forall_app. split; [apply to_le_bytes_ok|done].
Qed.

Lemma deserialize_type ty bs d : deserialize_data ty bs = Ok d -> record_type d = ty.
Proof.
  destruct ty; simpl; unfold read_one_txn; intros; inv_ok;
    match goal with H : Ok _ = Ok _ |- _ => by injection H as <- end.
Qed.

Lemma read_txns_no_panic n cursor bs : 0 <= cursor -> read_txns n cursor bs <> Panic.
Proof.
  revert cursor. induction n as [|n IH]; intros cursor Hc; simpl; [done|].
  no_panic. apply IH. lia.
Qed.

Section Laws.
Context `{CodecsLaws}.

Lemma record_encrypt_decrypt r key nonce cmp fin c :
  zlen nonce = 12 -> encrypt r key nonce cmp = Ok fin -> decrypt (encryption r) key c fin = Ok cmp.
Proof.
  intros Hn. unfold encrypt, decrypt. destruct (encryption r); [done|].
  intros He. inv_ok. subst key. injection He as <-. simpl.
  read_back. by rewrite (aes_roundtrip _ _ _ _ Hx0).
Qed.

(** The shape of a serialized record. *)
Lemma record_to_bytes_inv r key nonce bs :
  to_bytes r key nonce = Ok bs ->
  exists cmp fin,
    compress (compression r) (serialize_data (data r)) = Some cmp /\
    encrypt r key nonce cmp = Ok fin /\
    bs = (header r (as_u32 (zlen (serialize_data (data r)))) (as_u32 (zlen fin)) ++ fin)
           ++ sha256 (header r (as_u32 (zlen (serialize_data (data r)))) (as_u32 (zlen fin)) ++ fin).
Proof. unfold to_bytes. intros Hb. inv_ok. injection Hb as <-. eauto. Qed.

Lemma zlen_header r u s : zlen (header r u s) = 31.
Proof. unfold header, MAGIC. zlen_tac. Qed.

Lemma encrypt_min r key nonce cmp fin :
  zlen nonce = 12 -> 4 <= zlen cmp -> encrypt r key nonce cmp = Ok fin -> 4 <= zlen fin.
Proof.
  intros Hn Hc. unfold encrypt. destruct (encryption r); [naive_solver|].
  intros He. inv_ok. injection He as <-. zlen_tac.
Qed.

Lemma record_zlen_to_bytes r key nonce bs :
  zlen nonce = 12 -> to_bytes r key nonce = Ok bs -> 67 <= zlen bs.
Proof.
  intros Hn (cmp & fin & Hc & He & ->)%record_to_bytes_inv.
  assert (Hf : 4 <= zlen fin).
  { eapply encrypt_min; [done| |done]. eapply compress_min; [|done].
    pose proof (zlen_serialize_min (data r)). lia. }
  rewrite !zlen_app, zlen_header, sha256_len. lia.
Qed.

Lemma zlen_to_bytes_max r key nonce bs :
  zlen (serialize_data (data r)) < 2 ^ 32 -> zlen nonce = 12 -> to_bytes r key nonce = Ok bs ->
  zlen bs < 2 ^ 34.
Proof.
  intros Hp Hn (cmp & fin & Hc & He & ->)%record_to_bytes_inv.
  apply compress_max in Hc; [|done]. rewrite !zlen_app, zlen_header, sha256_len.
  unfold encrypt in He. destruct (encryption r); [injection He as <-; lia|].
  inv_ok. apply aes_len in Hx0. injection He as <-. zlen_tac.
Qed.

(** What the reads of [from_bytes] find behind a header. *)
Lemma header_reads r u n rest :
  is_u64 (lsn r) -> is_u64 (timestamp r) -> is_u32 u -> is_u32 n ->
  let bs := header r u n ++ rest in
  slice (E := WalError) 0 4 bs = Ok MAGIC /\
  get_le (E := WalError) 8 4 bs = Ok (lsn r) /\
  get_le (E := WalError) 8 12 bs = Ok (timestamp r) /\
  index (E := WalError) 20 bs = Ok (RecordType.to_u8 (record_type (data r))) /\
  index (E := WalError) 21 bs = Ok (CompressionType.to_u8 (compression r)) /\
  index (E := WalError) 22 bs = Ok (EncryptionType.to_u8 (encryption r)) /\
  get_le (E := WalError) 4 23 bs = Ok u /\
  get_le (E := WalError) 4 27 bs = Ok n.
Proof.
  intros Hl Ht Hu Hn bs. unfold bs, header. rewrite <- !app_assoc.
  assert (zlen MAGIC = 4) as HM by done. revert HM. generalize MAGIC as m. intros m HM.
  split_and!; by read_back.
Qed.

(** [from_bytes] on a well-framed buffer decrypts, decompresses and
    deserializes the stored data. *)
Lemma record_from_bytes_frame r u fin rest key :
  is_u64 (lsn r) -> is_u64 (timestamp r) -> is_u32 u -> is_u32 (zlen fin) -> 4 <= zlen fin ->
  let body := header r u (zlen fin) ++ fin in
  from_bytes (body ++ sha256 body ++ rest) key =
    (cmp ← decrypt (encryption r) key 31 fin;
     db ← ok_or (decompress (compression r) cmp) (DeserializationError 31);
     d ← deserialize_data (record_type (data r)) db;
     Ok (mk (lsn r) (timestamp r) d (compression r) (encryption r))).
Proof.
  intros Hl Ht Hu Hn Hmin body.
  assert (Hbody : zlen body = 31 + zlen fin) by (unfold body; rewrite zlen_app, zlen_header; lia).
  pose proof (sha256_len body) as Hsl.
  destruct (header_reads r u (zlen fin) (fin ++ sha256 body ++ rest))
    as (R1 & R2 & R3 & R4 & R5 & R6 & R7 & R8); [done..|].
  assert (E : header r u (zlen fin) ++ fin ++ sha256 body ++ rest = body ++ sha256 body ++ rest)
    by (unfold body; by rewrite <- app_assoc).
  assert (R9 : slice (E := WalError) 31 (31 + zlen fin) (body ++ sha256 body ++ rest) = Ok fin)
    by (rewrite <- E; apply slice_mid; rewrite zlen_header; lia).
  rewrite E in *. clear E. clearbody body. unfold from_bytes.
  rewrite ensure_true by zlen_tac. simpl. rewrite R1. simpl.
  rewrite R2. simpl. rewrite R3. simpl. rewrite R4. simpl.
  rewrite RecordType.record_type_from_to_u8. simpl. rewrite R5. simpl.
  rewrite CompressionType.compression_from_to_u8. simpl. rewrite R6. simpl.
  rewrite EncryptionType.encryption_from_to_u8. simpl. rewrite R7. simpl. rewrite R8. simpl.
  rewrite ensure_true by zlen_tac. simpl.
  rewrite (slice_mid (31 + zlen fin)) by lia. simpl.
  rewrite (slice_here 0) by lia. simpl.
  rewrite bytes_eqb_refl. simpl. by rewrite R9.
Qed.

Lemma record_from_to_bytes r key nonce bs rest :
  wf r -> zlen nonce = 12 -> to_bytes r key nonce = Ok bs -> zlen bs < 2 ^ 32 ->
  from_bytes (bs ++ rest) key = Ok r.
Proof.
  intros [Hl Ht Hd Hp] Hn Hb Hlen. pose proof (record_zlen_to_bytes _ _ _ _ Hn Hb) as Hmin.
  apply record_to_bytes_inv in Hb as (cmp & fin & Hc & He & ->).
  rewrite !zlen_app, zlen_header, sha256_len in *.
  rewrite (as_u_id 32 (zlen fin)) by zlen_tac. rewrite <- app_assoc, record_from_bytes_frame.
  - rewrite (record_encrypt_decrypt _ _ _ _ _ 31 Hn He). simpl.
    rewrite (decompress_compress _ _ _ (proj2 Hp) Hc). simpl.
    rewrite deserialize_serialize by done. by destruct r.
  - done.
  - done.
  - by apply as_u_fits.
  - zlen_tac.
  - lia.
Qed.

Lemma decrypt_no_panic e key c stored : decrypt e key c stored <> Panic.
Proof. unfold decrypt. no_panic. Qed.

Lemma deserialize_data_no_panic ty bs : bytes_ok bs -> deserialize_data ty bs <> Panic.
Proof.
  intros Hok. destruct ty; simpl; unfold read_one_txn; no_panic. apply read_txns_no_panic. lia.
Qed.

Lemma decrypt_bytes e key c stored d : bytes_ok stored -> decrypt e key c stored = Ok d -> bytes_ok d.
Proof.
  intros Hok. unfold decrypt. destruct e; [naive_solver|]. intros Hd. inv_ok.
  eapply aes_out; [|done]. by eapply slice_bytes_ok.
Qed.

Lemma record_from_bytes_no_panic bs key : bytes_ok bs -> from_bytes bs key <> Panic.
Proof.
  intros Hok. unfold from_bytes.
  repeat (apply bind_no_panic; [try solve [auto with no_panic] | intros ? ?; inv_ok]).
  all: repeat match goal with
    | H : get_le _ _ _ = Ok _ |- _ => apply (get_le_fits _ _ _ _ Hok) in H
    end.
  - apply slice_no_panic; zlen_tac.
  - apply slice_no_panic; zlen_tac.
  - pose proof (sha256_len a14). case_match; [done|]. learn_reads. no_panic.
  - apply slice_no_panic; zlen_tac.
  - apply decrypt_no_panic.
  - apply deserialize_data_no_panic. eapply decompress_bytes; [|done].
    eapply decrypt_bytes; [|done]. by eapply slice_bytes_ok.
  - done.
Qed.

(** An accepted buffer is framed: header of the returned record, stored
    data, and the digest of both. *)
Lemma from_bytes_inv bs key r :
  bytes_ok bs -> from_bytes bs key = Ok r ->
  exists u fin rest,
    bs = (header r u (zlen fin) ++ fin) ++ sha256 (header r u (zlen fin) ++ fin) ++ rest /\
    is_u64 (lsn r) /\ is_u64 (timestamp r) /\
    exists cmp db, decrypt (encryption r) key 31 fin = Ok cmp /\
      decompress (compression r) cmp = Some db /\
      deserialize_data (record_type (data r)) db = Ok (data r).
Proof.
  intros Hok Hr. unfold from_bytes in Hr. inv_ok.
  destruct (bytes_eqb x13 (sha256 x14)) eqn:Hsum; inv_ok.
  apply bytes_eqb_true in Hx1 as ->, Hsum as ->. injection Hr as <-.
  pose proof (deserialize_type _ _ _ Hx19) as Hty.
  apply (get_le_ok_inv _ _ _ _ Hok) in Hx2 as [? S1], Hx3 as [? S2], Hx10 as [_ S3], Hx11 as [? S4].
  apply RecordType.record_type_to_from_u8 in Hx5. apply CompressionType.compression_to_from_u8 in Hx7.
  apply EncryptionType.encryption_to_from_u8 in Hx9. subst x4 x6 x8.
  apply index_slice in Hx4, Hx6, Hx8.
  pose proof (slice_zlen _ _ _ _ Hx16) as Hlen.
  assert (E : header (mk x2 x3 x19 x7 x9) x10 (zlen x16) ++ x16 = x14).
  { join Hx0 S1. join Hx0 S2. join Hx0 Hx4. join Hx0 Hx6. join Hx0 Hx8. join Hx0 S3. join Hx0 S4.
    join Hx0 Hx16. rewrite Hx14 in Hx0. injection Hx0 as ->.
    unfold header; simpl. rewrite Hty. replace (zlen x16) with x11 by lia. by rewrite <- !app_assoc. }
  join Hx14 Hx13. apply slice_ok_inv in Hx14 as (_ & _ & _ & Hbs).
  exists x10, x16, (drop (Z.to_nat (31 + x11 + 32)) bs). rewrite E. split_and!; [|done|done|].
  - rewrite Hbs at 1. simpl. by rewrite <- app_assoc.
  - exists x17, x18. simpl. rewrite Hty. eauto.
Qed.

End Laws.

(** C14: a record whose fields fit their widths survives serialization:
    reading back the bytes [to_bytes] produced, with the same key and
    whatever follows them in the buffer, returns the record, for every
    compression and encryption setting. *)
Theorem record_roundtrip `{CodecsLaws} r key nonce bs rest
    (Hwf : wf r) (Hnonce : zlen nonce = 12) (Hser : to_bytes r key nonce = Ok bs)
    (Hlen : zlen bs < 2 ^ 32) :
  from_bytes (bs ++ rest) key = Ok r.
Proof. by eapply record_from_to_bytes. Qed.

Definition sample_record : t :=
  mk 7 1000 (RecordData.Write 3 1 WriteOpType.Put [1; 2] [9])
     CompressionType.Lz4 EncryptionType.Aes256Gcm.
Definition sample_key : option bytes := Some (replicate 32 5).
Definition sample_bytes : bytes :=
  match @to_bytes ToyCodecs.toy sample_record sample_key (replicate 12 1) with
  | Ok bs => bs | _ => []
  end.

Lemma sample_wf : wf sample_record.
Proof. repeat constructor; done. Qed.

Lemma record_roundtrip_witness :
  @from_bytes ToyCodecs.toy (sample_bytes ++ [0]) sample_key = Ok sample_record.
Proof.
  apply (@record_roundtrip ToyCodecs.toy ToyCodecs.toy_laws sample_record sample_key (replicate 12 1)).
  - apply sample_wf.
  - reflexivity.
  - vm_compute. reflexivity.
  - vm_compute. reflexivity.
Defined.

(** C35: [from_bytes] never panics, and accepts only a buffer that starts with
    the header of the record it returns, the stored data of the length the
    header names, and the SHA-256 digest of exactly those bytes: a record
    damaged anywhere in front of its digest is accepted only on a digest
    collision. *)
Theorem from_bytes_integrity `{CodecsLaws} bs key (Hbs : bytes_ok bs) :
  from_bytes bs key <> Panic /\
  forall r, from_bytes bs key = Ok r ->
  exists u fin rest,
    bs = (header r u (zlen fin) ++ fin) ++ sha256 (header r u (zlen fin) ++ fin) ++ rest /\
    exists cmp db, decrypt (encryption r) key 31 fin = Ok cmp /\
      decompress (compression r) cmp = Some db /\
      deserialize_data (record_type (data r)) db = Ok (data r).
Proof.
  split; [by apply record_from_bytes_no_panic|].
  intros r (u & fin & rest & Hb & _ & _ & Hd)%from_bytes_inv; [|done]. eauto.
Qed.

Lemma from_bytes_integrity_witness :
  @from_bytes ToyCodecs.toy sample_bytes sample_key <> Panic.
Proof.
  apply (@from_bytes_integrity ToyCodecs.toy ToyCodecs.toy_laws).
  vm_compute. repeat constructor; discriminate.
Defined.

End WalRecord.
