(* ===== verification/WalReader.v ===== *)
(** * Reading the log ([src/wal/reader.rs])

    [WalReader] over any file that meets [FileLaws].  [read_all] and
    [seek_to_lsn] are loops around [read_next]; every record read moves the
    offset by at least 63 bytes, so that the file size bounds the number of
    iterations ([read_all_total]). *)
From S2P Require Import Prelude Types Vfs PagerConfig WalRecord.

Module WalReader.

Record t (F : Type) : Type := mk {
  file : F;
  encryption_key : option bytes;
  offset : Z;
  file_size : Z;
}.
Arguments mk {F}.
Arguments file {F}.
Arguments encryption_key {F}.
Arguments offset {F}.
Arguments file_size {F}.

Definition lift_vfs {A} (m : outcome FileSystemError A) : outcome WalError A :=
  match m with Ok a => Ok a | Err e => Err (VfsError e) | Panic => Panic end.

Section Reader.
Context `{Codecs} {F : Type} `{FileOps F}.
Implicit Types (rd : t F) (key : option bytes).

(** [open] on the handle [fs.open_file(path)] returned. *)
Definition open (opened : outcome FileSystemError F) key : outcome WalError (t F) :=
  file ← lift_vfs opened;
  file_size ← lift_vfs (get_size file);
  Ok (mk file key 0 file_size).

Definition set_offset rd (o : Z) : t F := mk (file rd) (encryption_key rd) o (file_size rd).

Definition read_next rd : outcome WalError (option WalRecord.t * t F) :=
  if file_size rd <=? offset rd then Ok (None, rd)
  else
    header_buf ← lift_vfs (read_at_offset (file rd) (offset rd) 31);
    if zlen header_buf <? 31 then Ok (None, rd)
    else
      magic ← slice 0 4 header_buf;
      _ ← ensure (bytes_eqb magic WalRecord.MAGIC) (CorruptedWal (offset rd) "Invalid magic");
      data_len ← get_le 4 27 header_buf;
      let total_size := 31 + data_len + 32 in
      record_buf ← lift_vfs (read_at_offset (file rd) (offset rd) total_size);
      _ ← ensure (total_size <=? zlen record_buf) (CorruptedWal (offset rd) "Incomplete record");
      record ← WalRecord.from_bytes record_buf (encryption_key rd);
      Ok (Some record, set_offset rd (as_u64 (offset rd + total_size))).

(** The [while let Some(record) = self.read_next()?] loop; [None] is the
    loop not done after [fuel] rounds. *)
Fixpoint read_all_loop (fuel : nat) (records : list WalRecord.t) rd
    : option (outcome WalError (list WalRecord.t * t F)) :=
  match fuel with
  | O => None
  | S fuel =>
      match read_next rd with
      | Ok (Some record, rd') => read_all_loop fuel (records ++ [record]) rd'
      | Ok (None, rd') => Some (Ok (records, rd'))
      | Err e => Some (Err e)
      | Panic => Some Panic
      end
  end.

Definition loop_fuel rd : nat := S (Z.to_nat (file_size rd)).

Definition read_all rd : option (outcome WalError (list WalRecord.t * t F)) :=
  read_all_loop (loop_fuel rd) [] rd.

(** [seek_to_lsn]: the nonce of the re-serialization is an argument; only
    the length of its result is used. *)
Fixpoint seek_loop (fuel : nat) (nonce : bytes) (target_lsn : LogSequenceNumber) rd
    : option (outcome WalError (t F)) :=
  match fuel with
  | O => None
  | S fuel =>
      match read_next rd with
      | Ok (Some record, rd') =>
          if WalRecord.lsn record =? target_lsn then
            Some (record_bytes ← WalRecord.to_bytes record (encryption_key rd') nonce;
                  Ok (set_offset rd' (as_u64 (offset rd' - zlen record_bytes))))
          else seek_loop fuel nonce target_lsn rd'
      | Ok (None, _) => Some (Err (InvalidRecord target_lsn))
      | Err e => Some (Err e)
      | Panic => Some Panic
      end
  end.

Definition seek_to_lsn (nonce : bytes) (target_lsn : LogSequenceNumber) rd
    : option (outcome WalError (t F)) :=
  seek_loop (loop_fuel rd) nonce target_lsn (set_offset rd 0).

Definition current_offset rd : Z := offset rd.
Definition is_eof rd : bool := file_size rd <=? offset rd.
Definition reset rd : t F := set_offset rd 0.

(** [bs] is record [r] as the writer serializes it. *)
Definition logged key (r : WalRecord.t) (bs : bytes) : Prop :=
  WalRecord.wf r /\ zlen bs < 2 ^ 32 /\
  exists nonce, zlen nonce = 12 /\ WalRecord.to_bytes r key nonce = Ok bs.

(** A reader on a file of less than 2^63 bytes, its size as measured by
    [open]. *)
Record ok rd : Prop := {
  ok_size : file_size rd = zlen (contents (file rd));
  ok_bound : file_size rd < 2 ^ 63;
  ok_offset : 0 <= offset rd;
}.
End Reader.

Section Laws.
Context `{CodecsLaws} {F : Type} `{FileLaws F}.
Implicit Types (rd : t F) (key : option bytes).

Lemma logged_frame key r bs :
  logged key r bs ->
  exists u fin, is_u32 u /\ 63 <= zlen bs /\ is_u32 (zlen fin) /\ zlen bs = 31 + zlen fin + 32 /\
    bs = WalRecord.header r u (zlen fin) ++
         (fin ++ sha256 (WalRecord.header r u (zlen fin) ++ fin)).
Proof.
  intros (Hwf & Hlen & nonce & Hn & Hb).
  pose proof (WalRecord.record_zlen_to_bytes _ _ _ _ Hn Hb) as Hmin.
  apply WalRecord.record_to_bytes_inv in Hb as (cmp & fin & _ & _ & Hbs).
  assert (Hz : zlen bs = 31 + zlen fin + 32)
    by (subst bs; rewrite !zlen_app, WalRecord.zlen_header, sha256_len; lia).
  rewrite (as_u_id 32 (zlen fin)) in Hbs by zlen_tac.
  exists (as_u32 (zlen (WalRecord.serialize_data (WalRecord.data r)))), fin.
  split_and!; [by apply as_u_fits|lia|zlen_tac|done|by rewrite Hbs, <- app_assoc].
Qed.

(** At the start of a serialized record, [read_next] returns it and moves
    past it. *)
Lemma read_next_logged rd pre r bs rest :
  ok rd -> contents (file rd) = pre ++ bs ++ rest -> offset rd = zlen pre ->
  logged (encryption_key rd) r bs ->
  read_next rd = Ok (Some r, set_offset rd (zlen (pre ++ bs))).
Proof.
  intros [Hs Hb Ho] Hc Hoff Hl.
  destruct (logged_frame _ _ _ Hl) as (u & fin & Hu & Hmin & Hfin & Hz & Hbs).
  destruct Hl as (Hwf & Hlen & nonce & Hn & Hto).
  assert (Hsz : file_size rd = zlen pre + (zlen bs + zlen rest)) by (rewrite Hs, Hc; zlen_tac).
  unfold read_next. destruct (Z.leb_spec (file_size rd) (offset rd)); [zlen_tac|].
  rewrite !read_at_offset_ok by zlen_tac. simpl. rewrite Hc, Hoff.
  assert (Hh : window (zlen pre) 31 (pre ++ bs ++ rest) = WalRecord.header r u (zlen fin)).
  { rewrite Hbs, <- app_assoc. apply window_mid. by rewrite WalRecord.zlen_header. }
  rewrite Hh, WalRecord.zlen_header. simpl.
  destruct (WalRecord.header_reads r u (zlen fin) []) as (R1 & _ & _ & _ & _ & _ & _ & R8);
    [apply Hwf|apply Hwf|done|done|]. rewrite app_nil_r in R1, R8.
  rewrite R1. simpl. rewrite R8. simpl.
  rewrite read_at_offset_ok by zlen_tac. simpl. rewrite Hc.
  rewrite window_mid by lia. rewrite ensure_true by zlen_tac. simpl.
  pose proof (WalRecord.record_from_to_bytes r (encryption_key rd) nonce bs [] Hwf Hn Hto Hlen) as Hr.
  rewrite app_nil_r in Hr. rewrite Hr. simpl. do 3 f_equal.
  rewrite as_u_id by zlen_tac. zlen_tac.
Qed.
Lemma set_offset_ok rd o : ok rd -> 0 <= o -> ok (set_offset rd o).
Proof. intros []. by split. Qed.

Lemma logged_len key rs bss :
  Forall2 (logged key) rs bss -> 63 * zlen rs <= zlen (mjoin bss).
Proof.
  induction 1 as [|r bs rs bss Hl _ IH]; [done|].
  destruct (logged_frame _ _ _ Hl) as (u & fin & _ & ? & _). simpl. zlen_tac.
Qed.

(** Past the last record, with less than a header left, the log ends. *)
Lemma read_next_end rd pre torn :
  ok rd -> contents (file rd) = pre ++ torn -> offset rd = zlen pre -> zlen torn < 31 ->
  read_next rd = Ok (None, rd).
Proof.
  intros [Hs Hb Ho] Hc Hoff Ht. unfold read_next.
  destruct (Z.leb_spec (file_size rd) (offset rd)); [done|].
  rewrite read_at_offset_ok by zlen_tac. simpl.
  rewrite zlen_window by lia. rewrite Hc.
  rewrite (proj2 (Z.ltb_lt _ _)); [done|zlen_tac].
Qed.

(** The loop over the intact records of a log, whatever follows them. *)
Lemma read_all_loop_prefix rs bss : forall fuel acc rd pre rest,
  ok rd -> contents (file rd) = pre ++ mjoin bss ++ rest -> offset rd = zlen pre ->
  Forall2 (logged (encryption_key rd)) rs bss ->
  read_all_loop (length rs + fuel) acc rd =
    read_all_loop fuel (acc ++ rs) (set_offset rd (zlen (pre ++ mjoin bss))).
Proof.
  intros fuel acc rd pre rest Hok Hc Hoff Hl. revert acc rd pre Hok Hc Hoff Hl.
  revert bss. induction rs as [|r rs IH]; intros bss acc rd pre Hok Hc Hoff Hl.
  - apply Forall2_nil_inv_l in Hl as ->. rewrite !app_nil_r. simpl. f_equal.
    destruct rd; simpl in *. by subst.
  - apply Forall2_cons_inv_l in Hl as (bs & bss' & Hlr & Hl & ->). simpl in *.
    rewrite (read_next_logged rd pre r bs (mjoin bss' ++ rest));
      [|done|by rewrite Hc, <- app_assoc|done..].
    rewrite (IH bss' (acc ++ [r]) _ (pre ++ bs)); simpl; try done.
    + by rewrite <- !app_assoc.
    + apply set_offset_ok; [done|zlen_tac].
    + by rewrite Hc, <- !app_assoc.
Qed.

Lemma read_all_loop_log rs bss fuel acc rd pre torn :
  ok rd -> contents (file rd) = pre ++ mjoin bss ++ torn -> offset rd = zlen pre ->
  zlen torn < 31 -> Forall2 (logged (encryption_key rd)) rs bss -> (length rs < fuel)%nat ->
  read_all_loop fuel acc rd = Some (Ok (acc ++ rs, set_offset rd (zlen (pre ++ mjoin bss)))).
Proof.
  intros Hok Hc Hoff Ht Hl Hf. replace fuel with (length rs + S (fuel - S (length rs)))%nat by lia.
  rewrite (read_all_loop_prefix rs bss _ _ _ pre torn) by done. simpl.
  rewrite (read_next_end _ (pre ++ mjoin bss) torn); simpl; try done.
  - apply set_offset_ok; [done|zlen_tac].
  - by rewrite Hc, <- app_assoc.
Qed.

(** A whole header in front of an incomplete record is an error. *)
Lemma read_next_torn rd pre r bs k :
  ok rd -> contents (file rd) = pre ++ take k bs -> offset rd = zlen pre ->
  logged (encryption_key rd) r bs -> (31 <= k < length bs)%nat ->
  read_next rd = Err (CorruptedWal (zlen pre) "Incomplete record").
Proof.
  intros [Hs Hb Ho] Hc Hoff Hl Hk.
  destruct (logged_frame _ _ _ Hl) as (u & fin & Hu & Hmin & Hfin & Hz & Hbs).
  destruct Hl as (Hwf & _). set (h := WalRecord.header r u (zlen fin)) in *.
  assert (Hh : zlen h = 31) by apply WalRecord.zlen_header.
  assert (Ht : take k bs = h ++ drop 31 (take k bs)).
  { rewrite <- (take_drop 31 (take k bs)) at 1. f_equal. rewrite take_take, Hbs.
    rewrite Nat.min_l by lia. apply take_app_length'. unfold zlen in Hh. lia. }
  assert (Hlt : zlen (take k bs) = Z.of_nat k) by (unfold zlen; rewrite length_take; lia).
  assert (zlen bs = Z.of_nat (length bs)) by done.
  assert (Hsz : file_size rd = zlen pre + Z.of_nat k) by (rewrite Hs, Hc, zlen_app; lia).
  unfold read_next. destruct (Z.leb_spec (file_size rd) (offset rd)); [lia|].
  rewrite !read_at_offset_ok by zlen_tac. simpl. rewrite Hc, Hoff.
  assert (Hw : window (zlen pre) 31 (pre ++ take k bs) = h).
  { rewrite Ht. by apply window_mid. }
  rewrite Hw, Hh. simpl.
  destruct (WalRecord.header_reads r u (zlen fin) []) as (R1 & _ & _ & _ & _ & _ & _ & R8);
    [apply Hwf|apply Hwf|done|done|]. rewrite app_nil_r in R1, R8.
  unfold h. rewrite R1. simpl. rewrite R8. simpl.
  rewrite read_at_offset_ok by zlen_tac. simpl.
  rewrite zlen_window by zlen_tac. rewrite ensure_false; [done|].
  rewrite Hc, zlen_app. apply Z.leb_gt. lia.
Qed.

(** A record read moves the offset forward and stays inside the file. *)
Lemma read_next_progress rd r rd' :
  ok rd -> bytes_ok (contents (file rd)) -> read_next rd = Ok (Some r, rd') ->
  ok rd' /\ file rd' = file rd /\ file_size rd' = file_size rd /\
  offset rd + 63 <= offset rd' <= file_size rd'.
Proof.
  intros [Hs Hb Ho] Hbs Hr. unfold read_next in Hr.
  destruct (Z.leb_spec (file_size rd) (offset rd)); [done|].
  rewrite read_at_offset_ok in Hr by zlen_tac. simpl in Hr.
  destruct (Z.ltb_spec (zlen (window (offset rd) 31 (contents (file rd)))) 31); [done|].
  inv_ok. apply get_le_fits in Hx1;
    [|unfold window; apply Forall_take; by apply Forall_drop].
  rewrite read_at_offset_ok in Hx2 by zlen_tac. injection Hx2 as <-.
  rewrite zlen_window in Hx3 by zlen_tac. injection Hr as <- <-. simpl.
  rewrite as_u_id by (unfold fits in *; lia).
  unfold fits in *. split_and!; [split; simpl; lia|done|done|lia|lia].
Qed.

Lemma read_all_loop_total fuel : forall acc rd,
  ok rd -> bytes_ok (contents (file rd)) ->
  (Z.to_nat (file_size rd - offset rd) < fuel)%nat -> is_Some (read_all_loop fuel acc rd).
Proof.
  induction fuel as [|fuel IH]; intros acc rd Hok Hbs Hf; [lia|]. simpl.
  destruct (read_next rd) as [[[r|] rd']| |] eqn:Hr; [|by eexists..].
  destruct (read_next_progress _ _ _ Hok Hbs Hr) as (Hok' & Hfile & Hsz & ? & ?).
  apply IH; [done|by rewrite Hfile|]. destruct Hok. lia.
Qed.

Lemma zlen_to_bytes_nonce r key n1 n2 b1 b2 :
  zlen n1 = zlen n2 -> WalRecord.to_bytes r key n1 = Ok b1 -> WalRecord.to_bytes r key n2 = Ok b2 ->
  zlen b1 = zlen b2.
Proof.
  intros Hn (c1 & f1 & Hc1 & He1 & ->)%WalRecord.record_to_bytes_inv
    (c2 & f2 & Hc2 & He2 & ->)%WalRecord.record_to_bytes_inv.
  rewrite Hc1 in Hc2. injection Hc2 as <-.
  rewrite !zlen_app, !WalRecord.zlen_header, !sha256_len.
  assert (zlen f1 = zlen f2); [|lia]. unfold WalRecord.encrypt in *.
  destruct (WalRecord.encryption r); [naive_solver|]. inv_ok.
  apply aes_len in Hx0, Hx2. injection He1 as <-. injection He2 as <-. zlen_tac.
Qed.

Lemma seek_loop_log r rs1 rs2 bs bss1 bss2 nonce rb : forall fuel rd pre torn,
  ok rd -> contents (file rd) = pre ++ mjoin bss1 ++ bs ++ mjoin bss2 ++ torn ->
  offset rd = zlen pre ->
  Forall2 (logged (encryption_key rd)) (rs1 ++ r :: rs2) (bss1 ++ bs :: bss2) ->
  length rs1 = length bss1 ->
  Forall (fun q => WalRecord.lsn q <> WalRecord.lsn r) rs1 ->
  zlen nonce = 12 -> WalRecord.to_bytes r (encryption_key rd) nonce = Ok rb ->
  (length rs1 < fuel)%nat ->
  seek_loop fuel nonce (WalRecord.lsn r) rd = Some (Ok (set_offset rd (zlen (pre ++ mjoin bss1)))).
Proof.
  revert bss1. induction rs1 as [|q rs1 IH]; intros [|b bss1] fuel rd pre torn Hok Hc Hoff Hl Hlen Hne Hn Hrb Hf;
    try done; (destruct fuel as [|fuel]; [simpl in Hf; lia|]); simpl in *;
    apply Forall2_cons_1 in Hl as [Hlr Hl].
  - rewrite (read_next_logged rd pre r bs (mjoin bss2 ++ torn)) by done.
    rewrite Z.eqb_refl. simpl. rewrite Hrb. simpl.
    destruct Hlr as (_ & ? & n' & Hn' & Hb).
    rewrite (zlen_to_bytes_nonce _ _ _ _ _ _ (eq_trans Hn (eq_sym Hn')) Hrb Hb).
    destruct Hok as [Hs Hbnd _]. rewrite Hc in Hs. rewrite app_nil_r.
    unfold set_offset; simpl. rewrite as_u_id by zlen_tac. do 3 f_equal. zlen_tac.
  - apply Forall_cons in Hne as [Hq Hne].
    rewrite (read_next_logged rd pre q b (mjoin bss1 ++ bs ++ mjoin bss2 ++ torn));
      [|done|by rewrite Hc, <- !app_assoc|done..].
    rewrite (proj2 (Z.eqb_neq _ _) Hq).
    rewrite (IH bss1 fuel _ (pre ++ b) torn); simpl; try done.
    + by rewrite <- !app_assoc.
    + apply set_offset_ok; [done|zlen_tac].
    + by rewrite Hc, <- !app_assoc.
    + by injection Hlen.
    + lia.
Qed.
Lemma open_read_all (f : F) key rs bss torn :
  contents f = mjoin bss ++ torn -> Forall2 (logged key) rs bss ->
  zlen torn < 31 -> zlen (contents f) < 2 ^ 63 ->
  exists rd rd', open (Ok f) key = Ok rd /\ read_all rd = Some (Ok (rs, rd')) /\
    offset rd' = zlen (mjoin bss).
Proof.
  intros Hc Hlog Htorn Hsize.
  eexists _, _. split; [unfold open; simpl; by rewrite get_size_ok|]. split.
  - unfold read_all. apply (read_all_loop_log rs bss _ [] _ [] torn); simpl; try done.
    pose proof (logged_len _ _ _ Hlog). unfold loop_fuel; simpl. rewrite Hc, zlen_app. unfold zlen in *. lia.
  - done.
Qed.

End Laws.

(** C4: reading a log returns exactly what was written: on a file that holds
    serialized records back to back and then less than one header of torn
    bytes, [open] and [read_all] return those records in order, and the loop
    ends within its bound. *)
Theorem read_all_log `{CodecsLaws} {F} `{FileLaws F} (f : F) key rs bss torn
    (Hc : contents f = mjoin bss ++ torn) (Hlog : Forall2 (logged key) rs bss)
    (Htorn : zlen torn < 31) (Hsize : zlen (contents f) < 2 ^ 63) :
  exists rd rd', open (Ok f) key = Ok rd /\ read_all rd = Some (Ok (rs, rd')) /\
    offset rd' = zlen (mjoin bss).
Proof. by eapply open_read_all. Qed.

Definition sample_file : MemoryFile.t :=
  MemoryFile.mk 0 (MemoryFile.mkData
    (WalRecord.sample_bytes ++ WalRecord.sample_bytes ++ [87; 65]) Unlocked).

Lemma sample_logged :
  logged (H := ToyCodecs.toy) WalRecord.sample_key WalRecord.sample_record WalRecord.sample_bytes.
Proof.
  split; [apply WalRecord.sample_wf|]. split; [vm_compute; reflexivity|].
  exists (replicate 12 1). split; [done|]. vm_compute. reflexivity.
Qed.

Lemma read_all_log_witness :
  exists rd rd', @open MemoryFile.t MemoryFile_ops (Ok sample_file) WalRecord.sample_key = Ok rd /\
    read_all (H := ToyCodecs.toy) rd
      = Some (Ok ([WalRecord.sample_record; WalRecord.sample_record], rd')) /\
    offset rd' = zlen (mjoin [WalRecord.sample_bytes; WalRecord.sample_bytes]).
Proof.
  apply (read_all_log (H := ToyCodecs.toy) sample_file WalRecord.sample_key
           [WalRecord.sample_record; WalRecord.sample_record]
           [WalRecord.sample_bytes; WalRecord.sample_bytes] [87; 65]).
  - reflexivity.
  - repeat constructor; apply sample_logged.
  - done.
  - vm_compute. reflexivity.
Defined.

(** C36: [read_all] terminates on every file, damaged or not: the number of
    loop rounds is bounded by the file size, since every record accepted
    moves the offset by at least 63 bytes inside the file. *)
Theorem read_all_total `{CodecsLaws} {F} `{FileLaws F} (f : F) key
    (Hbytes : bytes_ok (contents f)) (Hsize : zlen (contents f) < 2 ^ 63) :
  exists rd res, open (Ok f) key = Ok rd /\ read_all rd = Some res.
Proof.
  destruct (read_all_loop_total (S (Z.to_nat (zlen (contents f)))) []
              (mk f key 0 (zlen (contents f)))) as [res Hres].
  - by split; simpl.
  - done.
  - simpl. rewrite Z.sub_0_r. lia.
  - eexists _, res. split; [unfold open; simpl; by rewrite get_size_ok|done].
Qed.

Lemma read_all_total_witness :
  exists rd res,
    @open MemoryFile.t MemoryFile_ops
      (Ok (MemoryFile.mk 0 (MemoryFile.mkData (replicate 40 87) Unlocked))) None = Ok rd /\
    read_all (H := ToyCodecs.toy) rd = Some res.
Proof.
  apply (read_all_total (H := ToyCodecs.toy)).
  - simpl. repeat constructor; done.
  - done.
Defined.

(** [seek_to_lsn] finds the first record of the log with the given LSN:
    the next read returns it, provided the record can be serialized again
    under a fresh nonce, as the code does to measure it. *)
Theorem seek_to_lsn_log `{CodecsLaws} {F} `{FileLaws F} (rd : t F)
    r rs1 rs2 bs bss1 bss2 torn nonce
    (Hok : ok rd)
    (Hc : contents (file rd) = mjoin bss1 ++ bs ++ mjoin bss2 ++ torn)
    (Hlog1 : Forall2 (logged (encryption_key rd)) rs1 bss1)
    (Hlog : Forall2 (logged (encryption_key rd)) (r :: rs2) (bs :: bss2))
    (Hfirst : Forall (fun q => WalRecord.lsn q <> WalRecord.lsn r) rs1)
    (Hnonce : zlen nonce = 12)
    (Hser : is_ok (WalRecord.to_bytes r (encryption_key rd) nonce) = true) :
  exists rd' rd'', seek_to_lsn nonce (WalRecord.lsn r) rd = Some (Ok rd') /\
    read_next rd' = Ok (Some r, rd'').
Proof.
  destruct (WalRecord.to_bytes r (encryption_key rd) nonce) as [rb| |] eqn:Hrb; try done.
  eexists _, _. split.
  - unfold seek_to_lsn.
    eapply (seek_loop_log r rs1 rs2 bs bss1 bss2 nonce rb _ _ [] torn); try done.
    + by apply set_offset_ok.
    + by apply Forall2_app.
    + by eapply Forall2_length.
    + unfold loop_fuel. pose proof (logged_len _ _ _ Hlog1) as Hle. destruct Hok as [-> _ _].
      rewrite Hc. unfold zlen in *. rewrite !length_app. lia.
  - apply Forall2_cons_1 in Hlog as [Hlr _].
    eapply (read_next_logged _ (mjoin bss1) r bs (mjoin bss2 ++ torn)); try done.
    apply set_offset_ok; [by apply set_offset_ok|zlen_tac].
Qed.

Lemma seek_to_lsn_log_witness :
  exists rd rd' rd'', @open MemoryFile.t MemoryFile_ops (Ok sample_file) WalRecord.sample_key = Ok rd /\
    seek_to_lsn (H := ToyCodecs.toy) (replicate 12 9) 7 rd = Some (Ok rd') /\
    read_next (H := ToyCodecs.toy) rd' = Ok (Some WalRecord.sample_record, rd'').
Proof.
  eexists. pose proof sample_logged as Hl.
  destruct (seek_to_lsn_log (H := ToyCodecs.toy)
    (mk sample_file WalRecord.sample_key 0 (zlen (contents sample_file)))
    WalRecord.sample_record [] [WalRecord.sample_record] WalRecord.sample_bytes []
    [WalRecord.sample_bytes] [87; 65] (replicate 12 9)) as (rd' & rd'' & H1 & H2).
  - split; [reflexivity|vm_compute; reflexivity|simpl; lia].
  - reflexivity.
  - constructor.
  - repeat constructor; apply Hl.
  - constructor.
  - reflexivity.
  - vm_compute. reflexivity.
  - exists rd', rd''. split; [reflexivity|]. split; [exact H1|exact H2].
Defined.

(** A crash that leaves a whole header but not the whole record makes the
    log unreadable: [read_all] fails with [CorruptedWal] and returns none of
    the intact records before the torn one, where a torn tail shorter than a
    header is skipped. *)
Theorem read_all_torn_record `{CodecsLaws} {F} `{FileLaws F} (f : F) key rs bss r bs k
    (Hc : contents f = mjoin bss ++ take k bs) (Hlog : Forall2 (logged key) (rs ++ [r]) (bss ++ [bs]))
    (Hk : (31 <= k < length bs)%nat) (Hsize : zlen (contents f) < 2 ^ 63) :
  exists rd, open (Ok f) key = Ok rd /\
    read_all rd = Some (Err (CorruptedWal (zlen (mjoin bss)) "Incomplete record")).
Proof.
  eexists. split; [unfold open; simpl; by rewrite get_size_ok|].
  apply Forall2_app_inv in Hlog as [Hlog Hr%Forall2_cons_1]; [|].
  2: { apply Forall2_length in Hlog. rewrite !length_app in Hlog. simpl in Hlog. lia. }
  destruct Hr as [Hr _]. pose proof (logged_len _ _ _ Hlog) as Hle.
  unfold read_all, loop_fuel; cbn [file_size]. rewrite Hc, zlen_app.
  replace (S (Z.to_nat (zlen (mjoin bss) + zlen (take k bs))))
    with (length rs + S (Z.to_nat (zlen (mjoin bss) + zlen (take k bs)) - length rs))%nat
    by (pose proof (zlen_nonneg (take k bs)); unfold zlen in *; lia).
  rewrite (read_all_loop_prefix rs bss _ _ _ [] (take k bs)); simpl; try done.
  - rewrite (read_next_torn _ (mjoin bss) r bs k); try done.
    split; simpl; [by rewrite Hc, zlen_app|by rewrite <- zlen_app, <- Hc|apply zlen_nonneg].
  - split; simpl; [by rewrite Hc, zlen_app|by rewrite <- zlen_app, <- Hc|done].
Qed.

Lemma read_all_torn_record_witness :
  exists rd, @open MemoryFile.t MemoryFile_ops
      (Ok (MemoryFile.mk 0 (MemoryFile.mkData
        (WalRecord.sample_bytes ++ take 40 WalRecord.sample_bytes) Unlocked)))
      WalRecord.sample_key = Ok rd /\
    read_all (H := ToyCodecs.toy) rd
      = Some (Err (CorruptedWal (zlen (mjoin [WalRecord.sample_bytes])) "Incomplete record")).
Proof.
  pose proof sample_logged as Hl.
  apply (read_all_torn_record (H := ToyCodecs.toy) _ _ [WalRecord.sample_record]
           [WalRecord.sample_bytes] WalRecord.sample_record WalRecord.sample_bytes 40).
  - vm_compute. reflexivity.
  - repeat constructor; apply Hl.
  - vm_compute. lia.
  - vm_compute. reflexivity.
Defined.

End WalReader.
