(* ===== verification/WalWriter.v ===== *)
(** * Writing the log ([src/wal/writer.rs])

    [WalWriter] over any file that meets [FileLaws].  Each method is a
    [stateful] function of the writer; the clock, the nonce of the record's
    encryption and the iteration order of the active-transaction hash set are
    arguments.  [write_commit] takes the coordinator's [submit_commit] as an
    argument, [GroupCommit] models it. *)
From S2P Require Import Prelude Types Vfs PagerConfig WalRecord WalReader.

Module WalWriter.
Import RecordData.
Import WalReader (lift_vfs).

Record WalWriterConfig : Type := mkConfig {
  buffer_size : Z;
  sync_on_write : bool;
  max_wal_size : Z;
  compression : CompressionType.t;
  encryption : EncryptionType.t;
  encryption_key : option bytes;
  group_commit_enabled : bool;
}.

Definition default_config : WalWriterConfig :=
  mkConfig (64 * 1024) true (1024 * 1024 * 1024) CompressionType.None_ EncryptionType.None_
           None true.

Record WalWriterState : Type := mkState {
  current_lsn : LogSequenceNumber;
  current_offset : Z;
  active_txns : gset TransactionId;
  buffer : bytes;
}.

(** The writer's file behind its lock, its state behind its lock, and its
    configuration; [encryption] and [encryption_key] of the source's struct
    are copies of the configuration's.  [group_commit] is present iff the
    configuration enables it. *)
Record t (F : Type) : Type := mk {
  file : F;
  config : WalWriterConfig;
  state : WalWriterState;
}.
Arguments mk {F}.
Arguments file {F}.
Arguments config {F}.
Arguments state {F}.

(** What a call takes from outside the program: the clock, the random nonce,
    the iteration order of the hash set. *)
Record Env : Type := mkEnv { now : Z; nonce : bytes; iter : gset TransactionId -> list TransactionId }.

Section Writer.
Context `{Codecs} {F : Type} `{FileOps F}.

Abbreviation M := (stateful (t F) WalError).

Definition set_state (w : t F) (s : WalWriterState) : t F := mk (file w) (config w) s.
Definition set_file (w : t F) (f : F) : t F := mk f (config w) (state w).
Definition upd (g : WalWriterState -> WalWriterState) : M unit :=
  modify (fun w => set_state w (g (state w))).
Definition with_buffer (b : bytes) (s : WalWriterState) : WalWriterState :=
  mkState (current_lsn s) (current_offset s) (active_txns s) b.
Definition with_active (a : gset TransactionId) (s : WalWriterState) : WalWriterState :=
  mkState (current_lsn s) (current_offset s) a (buffer s).

(** An operation on the file, its error mapped by [err]. *)
Definition on_file {A} (err : FileSystemError -> WalError)
    (m : stateful F FileSystemError A) : M A := fun w =>
  match m (file w) with
  | (Ok a, f) => (Ok a, set_file w f)
  | (Err e, f) => (Err (err e), set_file w f)
  | (Panic, f) => (Panic, set_file w f)
  end.

(** [create] on the handle [fs.create_file(path)] returned. *)
Definition create (created : outcome FileSystemError F) (cfg : WalWriterConfig)
    : outcome WalError (t F) :=
  file ← lift_vfs created;
  Ok (mk file cfg (mkState 1 0 ∅ [])).

(** The match of [scan_wal_file]. *)
Definition scan_record (acc : LogSequenceNumber * gset TransactionId) (r : WalRecord.t)
    : LogSequenceNumber * gset TransactionId :=
  let '(_, active) := acc in
  (WalRecord.lsn r,
   match WalRecord.data r with
   | Begin txn => {[txn]} ∪ active
   | Commit txn | Rollback txn => active ∖ {[txn]}
   | Checkpoint _ txns => list_to_set txns
   | Write _ _ _ _ _ => active
   | Prepare _ => active
   end).

Fixpoint scan_loop (fuel : nat) (acc : LogSequenceNumber * gset TransactionId)
    (rd : WalReader.t F) : option (outcome WalError (LogSequenceNumber * gset TransactionId)) :=
  match fuel with
  | O => None
  | S fuel =>
      match WalReader.read_next rd with
      | Ok (Some r, rd') => scan_loop fuel (scan_record acc r) rd'
      | Ok (None, _) => Some (Ok acc)
      | Err e => Some (Err e)
      | Panic => Some Panic
      end
  end.

(** [None] is the loop not done within the reader's bound. *)
Definition scan_wal_file (opened : outcome FileSystemError F) (key : option bytes)
    : option (outcome WalError (LogSequenceNumber * gset TransactionId)) :=
  match WalReader.open opened key with
  | Ok rd => scan_loop (WalReader.loop_fuel rd) (0, ∅) rd
  | Err e => Some (Err e)
  | Panic => Some Panic
  end.

(** [open] on the handle [fs.open_file(path)] returns, twice: once for the
    writer and once for the scan. *)
Definition open (opened : outcome FileSystemError F) (cfg : WalWriterConfig)
    : option (outcome WalError (t F)) :=
  match (f ← lift_vfs opened; sz ← lift_vfs (get_size f); Ok (f, sz)) with
  | Ok (f, file_size) =>
      match scan_wal_file opened (encryption_key cfg) with
      | Some (Ok (last_lsn, active)) =>
          Some (Ok (mk f cfg (mkState (as_u64 (last_lsn + 1)) file_size active [])))
      | Some (Err e) => Some (Err e)
      | Some Panic => Some Panic
      | None => None
      end
  | Err e => Some (Err e)
  | Panic => Some Panic
  end.

(** The body [flush_internal] and the coordinators' callbacks share: write
    the buffer at the file's cursor, sync if told to, clear the buffer. *)
Definition flush_with (sync : WalWriterConfig -> bool) : M unit :=
  buf ← gets (fun w => buffer (state w));
  if zlen buf =? 0 then mret tt
  else
    _ ← on_file (fun _ => WalIoError) (write_all buf);
    cfg ← gets config;
    _ ← (if sync cfg then on_file VfsError sync_data else mret tt);
    upd (with_buffer []).

Definition flush_internal : M unit :=
  flush_with (fun cfg => sync_on_write cfg && negb (group_commit_enabled cfg)).

Definition flush : M unit := flush_internal.

(** [u64] additions wrap. *)
Definition write_record_internal (record : WalRecord.t) (nonce : bytes) : M unit :=
  w ← gets (fun w => w);
  bs ← lift (WalRecord.to_bytes record (encryption_key (config w)) nonce);
  let new_size := as_u64 (current_offset (state w) + zlen bs) in
  _ ← lift (ensure (new_size <=? max_wal_size (config w))
              (WalFull new_size (max_wal_size (config w))));
  _ ← upd (fun s => with_buffer (buffer s ++ bs) s);
  should_flush ← gets (fun w =>
    (buffer_size (config w) <=? zlen (buffer (state w)))
    || (sync_on_write (config w) && negb (group_commit_enabled (config w))));
  _ ← (if should_flush : bool then flush_internal else mret tt);
  upd (fun s => mkState (as_u64 (current_lsn s + 1)) (as_u64 (current_offset s + zlen bs))
                        (active_txns s) (buffer s)).

(** The common part of the [write_*] methods: a record at the current LSN. *)
Definition write_data (e : Env) (d : RecordData.t) : M LogSequenceNumber :=
  w ← gets (fun w => w);
  let lsn := current_lsn (state w) in
  _ ← write_record_internal
        (WalRecord.new (now e) lsn d (compression (config w)) (encryption (config w))) (nonce e);
  mret lsn.

Definition write_begin (e : Env) (txn : TransactionId) : M LogSequenceNumber :=
  w ← gets (fun w => w);
  _ ← lift (ensure (bool_decide (txn ∉ active_txns (state w))) (TransactionAlreadyExists txn));
  lsn ← write_data e (Begin txn);
  _ ← upd (fun s => with_active ({[txn]} ∪ active_txns s) s);
  mret lsn.

(** The guard of the other transaction records. *)
Definition require_active (txn : TransactionId) : M unit :=
  w ← gets (fun w => w);
  lift (ensure (bool_decide (txn ∈ active_txns (state w))) (TransactionNotFound txn)).

Definition write_operation (e : Env) (txn : TransactionId) (table : TableId)
    (op : WriteOpType.t) (key value : bytes) : M LogSequenceNumber :=
  _ ← require_active txn;
  write_data e (Write txn table op key value).

(** The locked part of [write_commit]. *)
Definition write_commit_record (e : Env) (txn : TransactionId) : M LogSequenceNumber :=
  _ ← require_active txn;
  lsn ← write_data e (Commit txn);
  _ ← upd (fun s => with_active (active_txns s ∖ {[txn]}) s);
  mret lsn.

(** [write_commit], with the coordinator's [submit_commit]. *)
Definition write_commit (submit_commit : TransactionId -> LogSequenceNumber -> M unit)
    (e : Env) (txn : TransactionId) : M LogSequenceNumber :=
  lsn ← write_commit_record e txn;
  w ← gets (fun w => w);
  _ ← (if group_commit_enabled (config w) then submit_commit txn lsn
       else if sync_on_write (config w) then flush else mret tt);
  mret lsn.

Definition write_prepare (e : Env) (txn : TransactionId) : M LogSequenceNumber :=
  _ ← require_active txn;
  write_data e (Prepare txn).

Definition write_rollback (e : Env) (txn : TransactionId) : M LogSequenceNumber :=
  _ ← require_active txn;
  lsn ← write_data e (Rollback txn);
  _ ← upd (fun s => with_active (active_txns s ∖ {[txn]}) s);
  mret lsn.

Definition write_checkpoint (e : Env) : M LogSequenceNumber :=
  w ← gets (fun w => w);
  write_data e (Checkpoint (current_lsn (state w)) (iter e (active_txns (state w)))).

Definition truncate : M unit :=
  buf ← gets (fun w => buffer (state w));
  _ ← (if zlen buf =? 0 then mret tt
       else _ ← on_file (fun _ => WalIoError) (write_all buf); upd (with_buffer []));
  _ ← on_file VfsError Vfs.truncate;
  upd (fun s => mkState (current_lsn s) 0 (active_txns s) (buffer s)).

(** The flush callbacks of the coordinators that [create] and [open]
    install. *)
Definition group_flush_create : M unit := flush_with (fun _ => true).
Definition group_flush_open : M unit := flush_with sync_on_write.

(** The calls on a writer.  [Submit] of a coordinator that serves one
    committer at a time is its flush callback. *)
Inductive Op : Type :=
  | OpBegin (txn : TransactionId)
  | OpWrite (txn : TransactionId) (table : TableId) (op : WriteOpType.t) (key value : bytes)
  | OpCommit (txn : TransactionId)
  | OpPrepare (txn : TransactionId)
  | OpRollback (txn : TransactionId)
  | OpCheckpoint
  | OpFlush.

Definition run (e : Env) (o : Op) : M LogSequenceNumber :=
  match o with
  | OpBegin txn => write_begin e txn
  | OpWrite txn table op key value => write_operation e txn table op key value
  | OpCommit txn => write_commit (fun _ _ => group_flush_create) e txn
  | OpPrepare txn => write_prepare e txn
  | OpRollback txn => write_rollback e txn
  | OpCheckpoint => write_checkpoint e
  | OpFlush => _ ← flush; gets (fun w => current_lsn (state w))
  end.

Definition active_transactions (e : Env) (w : t F) : list TransactionId :=
  iter e (active_txns (state w)).
Definition file_size (w : t F) : Z := current_offset (state w).

End Writer.

Section Laws.
Context `{CodecsLaws} {F : Type} `{FileLaws F}.
Implicit Types (w : t F) (rs : list WalRecord.t) (bss : list bytes).

(** The log as written so far: the file, then the buffer. *)
Definition image w : bytes := contents (file w) ++ buffer (state w).

Definition scan rs : LogSequenceNumber * gset TransactionId := foldl scan_record (0, ∅) rs.

(** The writer's invariant, for the records [rs] it has logged: file and
    buffer hold their serializations back to back with the cursor at the end
    of the file, the LSNs count from 1, the offset is the log's length and
    stays within the limit. *)
Record log_inv w rs : Prop := {
  inv_log : exists bss, Forall2 (WalReader.logged (encryption_key (config w))) rs bss /\
              image w = mjoin bss;
  inv_cursor : cursor (file w) = zlen (contents (file w));
  inv_offset : current_offset (state w) = zlen (image w);
  inv_lsns : map WalRecord.lsn rs = map Z.of_nat (seq 1 (length rs));
  inv_lsn : current_lsn (state w) = 1 + zlen rs;
  inv_limit : zlen (image w) <= max_wal_size (config w) < 2 ^ 32;
}.

(** The transactions the writer believes active are those a scan of the
    records finds. *)
Definition active_inv w rs : Prop := active_txns (state w) = (scan rs).2.

Lemma flush_with_spec sync w w' :
  cursor (file w) = zlen (contents (file w)) -> zlen (image w) < 2 ^ 64 ->
  flush_with sync w = (Ok tt, w') ->
  contents (file w') = image w /\ cursor (file w') = zlen (contents (file w')) /\
  config w' = config w /\ state w' = with_buffer [] (state w).
Proof.
  intros Hc Hlen Hf. unfold flush_with in Hf. sinv. unfold image in *.
  destruct (Z.eqb_spec (zlen (buffer (state w))) 0) as [Hz|Hne].
  - injection Hf as <-. apply zlen_nil_inv in Hz. rewrite Hz, app_nil_r.
    split_and!; try done. destruct w as [? ? []]; simpl in *. by subst.
  - sinv. unfold on_file at 1 in Hs.
    destruct (write_all _ (file w)) as [[[]| |] f1] eqn:Hw; [|done..]. injection Hs as _ <-.
    apply write_all_append in Hw as [Hc1 Hcur1]; [|done|zlen_tac|intros E; by rewrite E in Hne].
    rewrite <- Hc1. destruct (sync _).
    + unfold on_file in Hs1. simpl in Hs1.
      destruct (sync_data f1) as [[[]| |] f2] eqn:Hy; [|done..]. injection Hs1 as _ <-.
      apply sync_data_ok in Hy as [Hy1 Hy2]. injection Hf as <-. simpl. by rewrite Hy1, Hy2.
    + injection Hs1 as _ <-. by injection Hf as <-.
Qed.

(** A flush moves bytes from the buffer to the file and changes nothing
    else. *)
Lemma flush_inv sync w rs w' :
  log_inv w rs -> flush_with sync w = (Ok tt, w') ->
  log_inv w' rs /\ contents (file w') = image w /\ state w' = with_buffer [] (state w) /\
  config w' = config w.
Proof.
  intros [Hl Hc Ho Hls Hln Hlim] Hf.
  destruct (flush_with_spec _ _ _ Hc ltac:(lia) Hf) as (Hc' & Hcur & Hcfg & Hst).
  split_and!; try done.
  assert (image w' = image w) as Him by (unfold image at 1; rewrite Hc', Hst; simpl; by rewrite app_nil_r).
  split; rewrite ?Him, ?Hcfg, ?Hst; done.
Qed.

(** [write_record_internal] appends the record's bytes to the log. *)
Lemma write_record_spec w rs r nonce w' :
  log_inv w rs -> WalRecord.wf r -> zlen nonce = 12 -> WalRecord.lsn r = current_lsn (state w) ->
  write_record_internal r nonce w = (Ok tt, w') ->
  log_inv w' (rs ++ [r]) /\ active_txns (state w') = active_txns (state w) /\
  config w' = config w.
Proof.
  intros Hinv Hwf Hn Hlsn Hw. unfold write_record_internal in Hw. sinv. simpl in *.
  pose proof Hinv as [(bss & Hl & Him) Hc Ho Hls Hln Hlim].
  pose proof (WalRecord.zlen_to_bytes_max _ _ _ _ (proj2 (WalRecord.wf_payload r Hwf)) Hn Hs0) as Hmax.
  pose proof (WalRecord.record_zlen_to_bytes _ _ _ _ Hn Hs0) as Hmin.
  rewrite as_u_id in Hs1 by zlen_tac. apply Z.leb_le in Hs1.
  injection Hs2 as _ <-. destruct x4.
  assert (E : image s4 = image w ++ x0 /\ cursor (file s4) = zlen (contents (file s4)) /\
    config s4 = config w /\ exists b, state s4 = with_buffer b (state w)).
  { destruct (_ || _) in Hs4.
    - apply flush_with_spec in Hs4 as (E1 & E2 & E3 & E4);
        [|done|unfold image in *; simpl; zlen_tac].
      unfold image at 1. rewrite E2, E1, E3, E4. unfold image; simpl.
      rewrite app_nil_r, app_assoc. split_and!; [done..|by eexists].
    - injection Hs4 as <-. unfold image; simpl. rewrite app_assoc. split_and!; [done..|by eexists]. }
  destruct E as (E1 & E2 & E3 & b & E4). injection Hw as <-.
  set (w' := set_state _ _).
  assert (Him' : image w' = image s4) by done.
  split; [|unfold w'; simpl; by rewrite E4]. split.
  - exists (bss ++ [x0]). rewrite Him', E1, Him. unfold w'; simpl. rewrite E3.
    split; [|by rewrite join_app; simpl; rewrite app_nil_r].
    apply Forall2_app; [done|]. constructor; [|constructor].
    split; [done|]. split; [zlen_tac|eauto].
  - done.
  - rewrite Him', E1. unfold w'; simpl. rewrite E4; simpl. rewrite as_u_id by zlen_tac. zlen_tac.
  - rewrite map_app, length_app, Hls, seq_app, map_app. do 2 f_equal. simpl. rewrite Hlsn, Hln.
    unfold zlen. f_equal. lia.
  - pose proof (WalReader.logged_len _ _ _ Hl) as Hle. rewrite <- Him in Hle.
    unfold w'; simpl. rewrite E4; simpl. rewrite as_u_id; zlen_tac.
  - rewrite Him', E1. unfold w'; simpl. rewrite E3. zlen_tac.
Qed.


(** The payload of the record a call logs. *)
Definition op_data (e : Env) (o : Op) w : option RecordData.t :=
  match o with
  | OpBegin txn => Some (Begin txn)
  | OpWrite txn table op key value => Some (Write txn table op key value)
  | OpCommit txn => Some (Commit txn)
  | OpPrepare txn => Some (Prepare txn)
  | OpRollback txn => Some (Rollback txn)
  | OpCheckpoint =>
      Some (Checkpoint (current_lsn (state w)) (iter e (active_txns (state w))))
  | OpFlush => None
  end.

Definition new_record (e : Env) (d : RecordData.t) w : WalRecord.t :=
  WalRecord.new (now e) (current_lsn (state w)) d (compression (config w)) (encryption (config w)).

Definition op_records (e : Env) (o : Op) w : list WalRecord.t :=
  match op_data e o w with Some d => [new_record e d w] | None => [] end.

(** The arguments are in the range of their types, keys and values short
    enough for a payload of less than 4 GiB. *)
Record env_ok (e : Env) : Prop := {
  env_nonce : zlen (nonce e) = 12;
  env_iter s : iter e s ≡ₚ elements s;
}.
Definition op_ok (o : Op) : Prop :=
  match o with
  | OpBegin txn | OpCommit txn | OpPrepare txn | OpRollback txn => is_u64 txn
  | OpWrite txn table _ key value =>
      is_u64 txn /\ is_u64 table /\ bytes_ok key /\ bytes_ok value /\ zlen key + zlen value < 2 ^ 31
  | OpCheckpoint | OpFlush => True
  end.

Record writer_inv w rs : Prop := {
  winv_log : log_inv w rs;
  winv_active : active_inv w rs;
  winv_ids : set_Forall is_u64 (active_txns (state w));
  winv_size : Z.of_nat (size (active_txns (state w))) <= zlen rs;
}.

Lemma zlen_mjoin_txns txns : zlen (mjoin (map (to_le_bytes 8) txns)) = 8 * zlen txns.
Proof. induction txns; simpl; [done|]. zlen_tac. Qed.

Lemma op_record_wf e o w rs d :
  writer_inv w rs -> env_ok e -> op_ok o -> op_data e o w = Some d ->
  WalRecord.wf (new_record e d w).
Proof.
  intros [[(bss & Hl & Him) _ _ _ Hln Hlim] _ Hids Hsz] He Ho Hd.
  pose proof (WalReader.logged_len _ _ _ Hl) as Hle. rewrite <- Him in Hle.
  assert (Hlsn : is_u64 (current_lsn (state w))) by zlen_tac.
  split; simpl; [done|by apply as_u_fits|..]; destruct o; simplify_eq/=; try done.
  - destruct Ho as (? & ? & ? & ? & ?). split_and!; try done; zlen_tac.
  - set (l := iter e _). assert (Hp : l ≡ₚ elements (active_txns (state w))) by apply env_iter, He.
    assert (Hll : zlen l = Z.of_nat (size (active_txns (state w)))).
    { unfold zlen. by rewrite Hp. }
    split_and!; [done|zlen_tac|]. rewrite Hp. apply Forall_forall. intros x Hx%elem_of_elements.
    by apply Hids.
  - destruct Ho as (? & ? & ? & ? & ?). zlen_tac.
  - set (l := iter e _). assert (Hp : l ≡ₚ elements (active_txns (state w))) by apply env_iter, He.
    assert (Hll : zlen l = Z.of_nat (size (active_txns (state w)))).
    { unfold zlen. by rewrite Hp. }
    rewrite !zlen_app, zlen_mjoin_txns. zlen_tac.
Qed.

Lemma scan_snoc rs r : scan (rs ++ [r]) = scan_record (scan rs) r.
Proof. unfold scan. by rewrite foldl_app. Qed.

Lemma scan_snoc_active rs r a :
  (scan rs).2 = a -> (scan (rs ++ [r])).2 = (scan_record (0, a) r).2.
Proof. rewrite scan_snoc. destruct (scan rs) as [l b]. by intros <-. Qed.

Lemma write_data_spec e d w rs lsn w' :
  log_inv w rs -> WalRecord.wf (new_record e d w) -> zlen (nonce e) = 12 ->
  write_data e d w = (Ok lsn, w') ->
  lsn = current_lsn (state w) /\ log_inv w' (rs ++ [new_record e d w]) /\
  active_txns (state w') = active_txns (state w) /\ config w' = config w.
Proof.
  intros Hinv Hwf Hn Hw. unfold write_data in Hw. sinv. simpl in *.
  destruct x0. injection Hw as <- <-. split; [done|].
  by eapply write_record_spec.
Qed.

Lemma log_inv_active w rs a : log_inv w rs -> log_inv (set_state w (with_active a (state w))) rs.
Proof. intros []. by split. Qed.

(** A logged record with the matching change of the active set. *)
Lemma writer_inv_snoc w rs w' r a :
  writer_inv w rs -> log_inv w' (rs ++ [r]) -> active_txns (state w') = a ->
  a = (scan_record (0, active_txns (state w)) r).2 ->
  set_Forall is_u64 a -> Z.of_nat (size a) <= zlen rs + 1 -> writer_inv w' (rs ++ [r]).
Proof.
  intros [_ Ha _ _] Hl Hact -> Hids Hsz. split; [done|..].
  - unfold active_inv in *. rewrite Hact. by rewrite (scan_snoc_active rs r _ (eq_sym Ha)).
  - by rewrite Hact.
  - rewrite Hact. zlen_tac.
Qed.

Lemma flush_writer_inv sync w rs w' :
  writer_inv w rs -> flush_with sync w = (Ok tt, w') -> writer_inv w' rs.
Proof.
  intros [Hl Ha Hi Hs] Hf. destruct (flush_inv _ _ _ _ Hl Hf) as (Hl' & _ & Hst & _).
  split; [done|..]; unfold active_inv; by rewrite ?Hst.
Qed.

Lemma require_active_ok txn w u w' :
  require_active txn w = (Ok u, w') -> w' = w /\ txn ∈ active_txns (state w).
Proof. intros Hr. unfold require_active in Hr. sinv. simpl in *. by apply bool_decide_eq_true in Hr. Qed.

Lemma size_remove (x : TransactionId) (s : gset TransactionId) : (size (s ∖ {[x]}) <= size s)%nat.
Proof. apply subseteq_size. intros y Hy. by apply elem_of_difference in Hy as [? _]. Qed.

Lemma size_union_singleton (x : TransactionId) (s : gset TransactionId) :
  Z.of_nat (size ({[x]} ∪ s)) <= Z.of_nat (size s) + 1.
Proof. rewrite size_union_alt, size_singleton. pose proof (size_remove x s). lia. Qed.

Lemma write_commit_record_inv e txn w rs lsn w' :
  writer_inv w rs -> env_ok e -> is_u64 txn -> write_commit_record e txn w = (Ok lsn, w') ->
  lsn = current_lsn (state w) /\ config w' = config w /\
  writer_inv w' (rs ++ [new_record e (Commit txn) w]).
Proof.
  intros Hinv He Ht Hw. unfold write_commit_record in Hw. sinv.
  apply require_active_ok in Hs as [-> Hin]. injection Hs1 as _ <-. injection Hw as <- <-.
  apply (write_data_spec _ _ _ rs) in Hs0 as (-> & Hl & Hact & Hcfg);
    [|apply Hinv|by eapply (op_record_wf e (OpCommit txn))|apply He].
  split_and!; [done|done|]. destruct Hinv as [? ? Hids Hsz].
  eapply writer_inv_snoc; [done|by apply log_inv_active|simpl; by rewrite Hact|done|..]; simpl.
  - intros y Hy. apply Hids. by apply elem_of_difference in Hy as [? _].
  - pose proof (size_remove txn (active_txns (state w))). lia.
Qed.

Lemma run_inv e o w rs lsn w' :
  writer_inv w rs -> env_ok e -> op_ok o -> run e o w = (Ok lsn, w') ->
  writer_inv w' (rs ++ op_records e o w).
Proof.
  intros Hinv He Ho Hr. pose proof Hinv as [_ _ Hids Hsz].
  pose proof (fun d => op_record_wf e o w rs d Hinv He Ho) as Hwf.
  destruct o as [txn|txn table op key value|txn|txn|txn| |]; simpl in Hr; unfold op_records; simpl in *.
  - unfold write_begin in Hr. sinv. simpl in *. injection Hs2 as _ <-. injection Hr as <- <-.
    apply (write_data_spec _ _ _ rs) in Hs1 as (-> & Hl & Hact & Hcfg);
      [|apply Hinv|by apply Hwf|apply He].
    eapply writer_inv_snoc; [done|by apply log_inv_active|simpl; by rewrite Hact|done|..]; simpl.
    + intros y [->%elem_of_singleton|Hy]%elem_of_union; [done|by apply Hids].
    + pose proof (size_union_singleton txn (active_txns (state w))). lia.
  - unfold write_operation in Hr. sinv. apply require_active_ok in Hs as [-> _].
    apply (write_data_spec _ _ _ rs) in Hr as (-> & Hl & Hact & Hcfg);
      [|apply Hinv|by apply Hwf|apply He].
    eapply writer_inv_snoc; [done|done|exact Hact|done|done|lia].
  - unfold write_commit in Hr. sinv. injection Hr as <- <-. simpl in *.
    apply (write_commit_record_inv _ _ _ rs) in Hs as (-> & Hcfg & Hinv'); [|done..].
    destruct x1. repeat case_match; [by eapply flush_writer_inv..|by injection Hs1 as <-].
  - unfold write_prepare in Hr. sinv. apply require_active_ok in Hs as [-> _].
    apply (write_data_spec _ _ _ rs) in Hr as (-> & Hl & Hact & Hcfg);
      [|apply Hinv|by apply Hwf|apply He].
    eapply writer_inv_snoc; [done|done|exact Hact|done|done|lia].
  - unfold write_rollback in Hr. sinv. apply require_active_ok in Hs as [-> _].
    injection Hs1 as _ <-. injection Hr as <- <-.
    apply (write_data_spec _ _ _ rs) in Hs0 as (-> & Hl & Hact & Hcfg);
      [|apply Hinv|by apply Hwf|apply He].
    eapply writer_inv_snoc; [done|by apply log_inv_active|simpl; by rewrite Hact|done|..]; simpl.
    + intros y Hy. apply Hids. by apply elem_of_difference in Hy as [? _].
    + pose proof (size_remove txn (active_txns (state w))). lia.
  - unfold write_checkpoint in Hr. sinv.
    apply (write_data_spec _ _ _ rs) in Hr as (-> & Hl & Hact & Hcfg);
      [|apply Hinv|by apply Hwf|apply He].
    eapply writer_inv_snoc; [done|done|exact Hact| |done|lia].
    simpl. apply set_eq. intros y.
    rewrite elem_of_list_to_set, (env_iter e He), elem_of_elements. done.
  - rewrite app_nil_r. sinv. destruct x. by eapply flush_writer_inv.
Qed.


(** ** Refused calls *)
Definition is_io (er : WalError) : bool :=
  match er with WalIoError | VfsError _ => true | _ => false end.

Lemma on_file_err {A} g (m : stateful F FileSystemError A) w er w' :
  (forall e, is_io (g e) = true) -> on_file g m w = (Err er, w') -> is_io er = true.
Proof. intros Hg. unfold on_file. destruct (m (file w)) as [[| |] ?]; naive_solver. Qed.

Lemma flush_with_err sync w er w' : flush_with sync w = (Err er, w') -> is_io er = true.
Proof.
  intros Hf. unfold flush_with in Hf. serr. destruct (_ =? 0); [done|]. serr.
  - by eapply on_file_err in Hf.
  - destruct (sync _); [by eapply on_file_err in Hf|done].
  - done.
Qed.

Lemma write_record_err r nonce w er w' :
  write_record_internal r nonce w = (Err er, w') -> is_io er = true \/ w' = w.
Proof.
  intros Hw. unfold write_record_internal in Hw. serr; try (injection Hw as _ <-; by right); try done.
  case_match; [left; by eapply flush_with_err|done].
Qed.

Lemma write_data_err e d w er w' :
  write_data e d w = (Err er, w') -> is_io er = true \/ w' = w.
Proof. intros Hw. unfold write_data in Hw. serr. by eapply write_record_err. Qed.

Lemma require_active_err txn w er w' : require_active txn w = (Err er, w') -> w' = w.
Proof. intros Hr. unfold require_active in Hr. serr. by injection Hr. Qed.

(** A call that fails for a reason other than the file changes nothing. *)
Lemma run_refused e o w er w' : run e o w = (Err er, w') -> is_io er = false -> w' = w.
Proof.
  intros Hr Hio.
  assert (Hd : forall d s, write_data e d s = (Err er, w') -> w' = s)
    by (intros d s [Hx|Hx]%write_data_err; congruence).
  assert (Hf : forall sync s, flush_with sync s = (Err er, w') -> w' = w)
    by (intros sync s Hx%flush_with_err; congruence).
  destruct o; simpl in Hr;
    unfold write_begin, write_operation, write_commit, write_commit_record, write_prepare,
      write_rollback, write_checkpoint in Hr; serr;
    try (apply require_active_ok in Hs as [-> _]); try done; eauto using require_active_err.
  - by injection Hr.
  - repeat case_match; [eauto..|done].
Qed.

(** ** The states of a writer *)

(** [reachable w rs]: from [create] on an empty file, successful calls that
    logged [rs] and refused calls lead to [w]. *)
Inductive reachable : t F -> list WalRecord.t -> Prop :=
  | reachable_create f cfg w :
      contents f = [] -> cursor f = 0 -> 0 <= max_wal_size cfg < 2 ^ 32 ->
      create (Ok f) cfg = Ok w -> reachable w []
  | reachable_run w rs e o lsn w' :
      reachable w rs -> env_ok e -> op_ok o -> run e o w = (Ok lsn, w') ->
      reachable w' (rs ++ op_records e o w)
  | reachable_refused w rs e o er w' :
      reachable w rs -> run e o w = (Err er, w') -> is_io er = false -> reachable w' rs.

Lemma reachable_inv w rs : reachable w rs -> writer_inv w rs.
Proof.
  induction 1 as [f cfg w Hf Hc Hm Hcr|w rs e o lsn w' _ IH He Ho Hr|w rs e o er w' _ IH Hr Hio].
  - injection Hcr as <-. split.
    + split; unfold image; simpl; rewrite ?Hf; try done. by exists [].
    + done.
    + intros x Hx. set_solver.
    + done.
  - by eapply run_inv.
  - by apply run_refused in Hr as ->.
Qed.

(** ** What is in the file *)

(** The file holds exactly the records [rs1], a prefix of what was logged. *)
Definition durable w rs rs1 : Prop :=
  rs1 `prefix_of` rs /\
  exists bss1, Forall2 (WalReader.logged (encryption_key (config w))) rs1 bss1 /\
    contents (file w) = mjoin bss1.

(** A call either leaves the file alone or empties the buffer into it. *)
Definition file_step w w' : Prop :=
  contents (file w') = contents (file w) \/ buffer (state w') = [].

Lemma flush_with_file_step sync w w' : flush_with sync w = (Ok tt, w') -> buffer (state w') = [].
Proof.
  intros Hf. unfold flush_with in Hf. sinv.
  destruct (Z.eqb_spec (zlen (buffer (state w))) 0) as [Hz|_].
  - injection Hf as <-. by apply zlen_nil_inv.
  - sinv. by injection Hf as <-.
Qed.

Lemma write_data_file_step e d w lsn w' : write_data e d w = (Ok lsn, w') -> file_step w w'.
Proof.
  intros Hw. unfold write_data in Hw. sinv. injection Hw as <- <-.
  unfold write_record_internal in Hs0. sinv.
  repeat match goal with H : upd _ _ = _ |- _ => injection H as ? <- end.
  match goal with H : (if ?b then _ else _) _ = (Ok ?u, _) |- _ => destruct u, b; rename H into Hb end.
  - right. by apply flush_with_file_step in Hb.
  - injection Hb as <-. by left.
Qed.

Lemma run_file_step e o w lsn w' : run e o w = (Ok lsn, w') -> file_step w w'.
Proof.
  intros Hr. destruct o; simpl in Hr;
    unfold write_begin, write_operation, write_commit, write_commit_record, write_prepare,
      write_rollback, write_checkpoint in Hr; sinv;
    repeat match goal with
      | H : require_active _ _ = _ |- _ => apply require_active_ok in H as [-> _]
      | H : write_data _ _ _ = _ |- _ => apply write_data_file_step in H
      | H : upd _ _ = _ |- _ => injection H as _ <-
      | H : mret _ _ = _ |- _ => injection H as _ <-
      end; try done.
  - destruct x1. repeat case_match; [right; by eapply flush_with_file_step..|].
    by injection Hs1 as <-.
  - destruct x. right. by eapply flush_with_file_step.
Qed.

Lemma write_commit_record_file_step e txn w lsn w' :
  write_commit_record e txn w = (Ok lsn, w') -> file_step w w'.
Proof.
  intros Hr. unfold write_commit_record in Hr. sinv.
  apply require_active_ok in Hs as [-> _]. apply write_data_file_step in Hs0.
  injection Hs1 as _ <-. by injection Hr as _ <-.
Qed.

Lemma on_file_config {A} g (m : stateful F FileSystemError A) w r w' :
  on_file g m w = (r, w') -> config w' = config w.
Proof. unfold on_file. destruct (m (file w)) as [[| |] ?]; naive_solver. Qed.

Lemma flush_with_config sync w w' : flush_with sync w = (Ok tt, w') -> config w' = config w.
Proof.
  intros Hf. unfold flush_with in Hf. sinv. case_match; [by injection Hf as <-|]. sinv.
  injection Hf as <-. apply on_file_config in Hs. simpl. rewrite <- Hs.
  case_match; [by eapply on_file_config|by injection Hs1 as _ <-].
Qed.

Lemma write_data_config e d w lsn w' : write_data e d w = (Ok lsn, w') -> config w' = config w.
Proof.
  intros Hw. unfold write_data in Hw. sinv. injection Hw as <- <-.
  unfold write_record_internal in Hs0. sinv.
  repeat match goal with H : upd _ _ = _ |- _ => injection H as ? <- end.
  match goal with H : (if ?b then _ else _) _ = (Ok ?u, _) |- _ => destruct u, b; rename H into Hb end.
  - by apply flush_with_config in Hb.
  - by injection Hb as <-.
Qed.

Lemma run_config e o w lsn w' : run e o w = (Ok lsn, w') -> config w' = config w.
Proof.
  intros Hr. destruct o; simpl in Hr;
    unfold write_begin, write_operation, write_commit, write_commit_record, write_prepare,
      write_rollback, write_checkpoint in Hr; sinv;
    repeat match goal with
      | H : require_active _ _ = _ |- _ => apply require_active_ok in H as [-> _]
      | H : write_data _ _ _ = _ |- _ => apply write_data_config in H
      | H : upd _ _ = _ |- _ => injection H as _ <-
      | H : mret _ _ = _ |- _ => injection H as _ <-
      end; try done.
  - destruct x1. rewrite <- Hs3. clear Hs3.
    repeat case_match; [by eapply flush_with_config in Hs1..|by injection Hs1 as <-].
  - destruct x. by eapply flush_with_config.
Qed.

(** Hence the durable prefix only grows. *)
Lemma durable_step w rs rs1 w' rs' :
  log_inv w' rs' -> rs `prefix_of` rs' -> config w' = config w -> file_step w w' ->
  durable w rs rs1 -> exists rs1', rs1 `prefix_of` rs1' /\ durable w' rs' rs1'.
Proof.
  intros [(bss & Hl & Him) _ _ _ _ _] Hp Hcfg Hfs [Hp1 (bss1 & Hl1 & Hc1)].
  destruct Hfs as [Hsame|Hempty].
  - exists rs1. split; [done|]. split; [by etrans|]. exists bss1. by rewrite Hcfg, Hsame.
  - exists rs'. split; [by etrans|]. split; [done|]. exists bss. split; [done|].
    unfold image in Him. by rewrite Hempty, app_nil_r in Him.
Qed.

(** ** Opening an existing log *)

(** The scan is a fold over what [read_all] returns. *)
Lemma scan_loop_read_all fuel : forall a recs (rd : WalReader.t F),
  scan_loop fuel (foldl scan_record a recs) rd =
    (fun o => match o with
              | Ok (l, _) => Ok (foldl scan_record a l)
              | Err e => Err e
              | Panic => Panic
              end) <$> WalReader.read_all_loop fuel recs rd.
Proof.
  induction fuel as [|fuel IH]; intros a recs rd; simpl; [done|].
  destruct (WalReader.read_next rd) as [[[r|] rd']| |]; [|done..].
  by rewrite <- IH, foldl_app.
Qed.

Lemma scan_last_lsn rs :
  map WalRecord.lsn rs = map Z.of_nat (seq 1 (length rs)) -> (scan rs).1 = zlen rs.
Proof.
  destruct rs as [|r rs _] using rev_ind; [done|]. intros Hl.
  rewrite scan_snoc. destruct (scan rs). simpl.
  rewrite map_app, length_app, seq_app, map_app in Hl.
  apply app_inj_2 in Hl as [_ Hl]; [|done]. injection Hl as ->. unfold zlen.
  rewrite length_app. simpl. lia.
Qed.

Lemma open_inv f cfg rs bss :
  contents f = mjoin bss -> Forall2 (WalReader.logged (encryption_key cfg)) rs bss ->
  zlen (contents f) < 2 ^ 63 ->
  open (Ok f) cfg = Some (Ok (mk f cfg
    (mkState (as_u64 ((scan rs).1 + 1)) (zlen (contents f)) (scan rs).2 []))).
Proof.
  intros Hc Hl Hlen. unfold open, scan_wal_file, WalReader.open. simpl.
  rewrite get_size_ok. simpl. pose proof (scan_loop_read_all) as Hsc.
  specialize (Hsc (WalReader.loop_fuel (WalReader.mk f (encryption_key cfg) 0 (zlen (contents f))))
    (0, ∅) [] (WalReader.mk f (encryption_key cfg) 0 (zlen (contents f)))).
  rewrite (WalReader.read_all_loop_log rs bss _ _ _ [] []) in Hsc; try done.
  - simpl in Hsc. rewrite Hsc. simpl. fold (scan rs). by destruct (scan rs).
  - by rewrite app_nil_r.
  - pose proof (WalReader.logged_len _ _ _ Hl) as Hle. unfold WalReader.loop_fuel; simpl.
    rewrite Hc. unfold zlen in *. lia.
Qed.

Lemma open_file_eq f cfg w :
  open (Ok f) cfg = Some (Ok w) -> file w = f /\ current_offset (state w) = zlen (contents f).
Proof.
  unfold open. simpl. rewrite get_size_ok. simpl.
  destruct (scan_wal_file _ _) as [[[l a]| |]|]; [|done..]. by intros [= <-].
Qed.

(** Any flush leaves in the file what [write_all] at the cursor makes of it. *)
Lemma flush_with_file sync w w' :
  0 <= cursor (file w) -> is_u64 (cursor (file w) + zlen (buffer (state w))) ->
  buffer (state w) <> [] -> flush_with sync w = (Ok tt, w') ->
  state w' = with_buffer [] (state w) /\
  contents (file w') = splice (cursor (file w)) (buffer (state w))
    (if Z.ltb (zlen (contents (file w))) (cursor (file w) + zlen (buffer (state w)))
     then resize (cursor (file w) + zlen (buffer (state w))) 0 (contents (file w))
     else contents (file w)).
Proof.
  intros Hc Hfit Hne Hf. unfold flush_with in Hf. sinv.
  destruct (Z.eqb_spec (zlen (buffer (state w))) 0) as [Hz|_]; [by apply zlen_nil_inv in Hz|].
  sinv. unfold on_file at 1 in Hs.
  destruct (write_all _ (file w)) as [[[]| |] f1] eqn:Hw; [|done..]. injection Hs as _ <-.
  apply write_all_ok in Hw as [_ Hcon]; [|done..]. rewrite <- Hcon.
  destruct (sync _).
  - unfold on_file in Hs1. simpl in Hs1.
    destruct (sync_data f1) as [[[]| |] f2] eqn:Hy; [|done..]. injection Hs1 as _ <-.
    apply sync_data_ok in Hy as [Hy _]. injection Hf as <-. simpl. by rewrite Hy.
  - injection Hs1 as _ <-. by injection Hf as <-.
Qed.

End Laws.

(** C3: for a writer made by [create] on an empty file, with a size limit
    below 4 GiB, after any [write_begin], [write_operation], [write_commit],
    [write_prepare], [write_rollback], [write_checkpoint] and [flush] calls in
    any order, each of which succeeded or was refused without an I/O error: the
    file and the buffer together hold exactly the serialized records of the
    successful calls, back to back; their LSNs are 1, 2, 3, ..., the writer's LSN is the
    next one, its offset is the length of the log and within the limit, and
    its active transactions are those a scan of the records finds. *)
Theorem reachable_log `{CodecsLaws} {F} `{FileLaws F} (w : t F) rs (Hr : reachable w rs) :
  exists bss, Forall2 (WalReader.logged (encryption_key (config w))) rs bss /\
    contents (file w) ++ buffer (state w) = mjoin bss /\
    map WalRecord.lsn rs = map Z.of_nat (seq 1 (length rs)) /\
    current_lsn (state w) = 1 + zlen rs /\
    current_offset (state w) = zlen (mjoin bss) /\
    zlen (mjoin bss) <= max_wal_size (config w) /\
    active_txns (state w) = (scan rs).2.
Proof.
  destruct (reachable_inv _ _ Hr) as [[(bss & Hl & Him) Hc Ho Hls Hln Hlim] Ha _ _].
  exists bss. rewrite Ho, Him in *. split_and!; try done; lia.
Qed.

(** C2: for a writer in such a state (from [create], after calls that
    succeeded or were refused without an I/O error), when group commit or
    [sync_on_write] is on, [write_commit] returns [Ok] only when the file itself, without the buffer, reads back as every
    record logged so far with the commit record as the last one. *)
Theorem commit_durable `{CodecsLaws} {F} `{FileLaws F} (w : t F) rs e txn lsn w'
    (Hr : reachable w rs) (He : env_ok e) (Ht : is_u64 txn)
    (Hsync : group_commit_enabled (config w) || sync_on_write (config w) = true)
    (Hrun : run e (OpCommit txn) w = (Ok lsn, w')) :
  exists rd rd', WalReader.open (Ok (file w')) (encryption_key (config w)) = Ok rd /\
    WalReader.read_all rd = Some (Ok (rs ++ [new_record e (Commit txn) w], rd')).
Proof.
  pose proof (reachable_inv _ _ Hr) as Hinv. simpl in Hrun. unfold write_commit in Hrun. sinv.
  apply (write_commit_record_inv _ _ _ rs) in Hs as (-> & Hcfg & [Hinv' _ _ _]); [|done..].
  injection Hrun as <- <-. simpl in *. destruct x1.
  assert (exists sync, flush_with sync s = (Ok tt, s1)) as [sync Hf].
  { rewrite Hcfg in Hs1. destruct (group_commit_enabled (config w)); simpl in Hs1, Hsync; [by eexists|].
    rewrite Hsync in Hs1. by eexists. }
  destruct (flush_inv _ _ _ _ Hinv' Hf) as ([(bss & Hl & Him) _ _ _ _ Hlim] & Hc & Hst & Hcfg').
  unfold image in Him, Hlim. rewrite Hst in Him, Hlim. simpl in *. rewrite app_nil_r in *.
  rewrite Hcfg', Hcfg in Hl.
  destruct (WalReader.open_read_all (file s1) (encryption_key (config w)) _ bss []
              ltac:(by rewrite app_nil_r) Hl) as (rd & rd' & H3 & H4 & _); [done|lia|eauto].
Qed.

(** C16: opening the file a flushed writer leaves, through any handle on it,
    rebuilds the writer's whole state: the next LSN, the offset and the set
    of active transactions. *)
Theorem open_rebuilds `{CodecsLaws} {F} `{FileLaws F} (w : t F) rs (f : F) cfg
    (Hr : reachable w rs) (Hflushed : buffer (state w) = [])
    (Hfile : contents f = contents (file w))
    (Hkey : encryption_key cfg = encryption_key (config w)) :
  exists w', open (Ok f) cfg = Some (Ok w') /\ state w' = state w.
Proof.
  destruct (reachable_inv _ _ Hr) as [[(bss & Hl & Him) Hc Ho Hls Hln Hlim] Ha _ _].
  unfold image in Him, Ho, Hlim. rewrite Hflushed, app_nil_r in Him, Ho, Hlim.
  pose proof (WalReader.logged_len _ _ _ Hl) as Hle. rewrite <- Him in Hle.
  eexists. split.
  - apply (open_inv f cfg rs bss); [by rewrite Hfile|by rewrite Hkey|rewrite Hfile; lia].
  - simpl. rewrite scan_last_lsn by done. rewrite as_u_id by zlen_tac.
    rewrite Hfile, <- Ho, <- Ha, Z.add_comm, <- Hln.
    destruct w as [? ? []]; simpl in *. by subst.
Qed.

(** A writer that [open] returned does not append: its file handle
    still stands where it was opened, at the start, so the first flush
    overwrites the log from its beginning. *)
Theorem open_then_flush_overwrites `{CodecsLaws} {F} `{FileLaws F} (f : F) cfg w bs w'
    (Hopen : open (Ok f) cfg = Some (Ok w)) (Hcur : cursor f = 0)
    (Hne : bs <> []) (Hlen : zlen bs <= zlen (contents f) < 2 ^ 63)
    (Hflush : flush (set_state w (with_buffer bs (state w))) = (Ok tt, w')) :
  current_offset (state w') = zlen (contents f) /\
  contents (file w') = bs ++ drop (length bs) (contents f).
Proof.
  destruct (open_file_eq _ _ _ Hopen) as [<- Hoff].
  apply flush_with_file in Hflush as [Hst Hcon]; simpl in *; [|lia|rewrite Hcur; zlen_tac|done].
  split; [by rewrite Hst|]. rewrite Hcon, Hcur, (proj2 (Z.ltb_ge _ _)) by lia.
  unfold splice, zlen. rewrite Z.add_0_l, Nat2Z.id. done.
Qed.

(** ** A concrete run

    A writer on an in-memory file with the toy codecs. *)
Definition demo_env : Env := mkEnv 1000 (replicate 12 1) elements.
Definition demo_config : WalWriterConfig :=
  mkConfig 1024 true (2 ^ 20) CompressionType.None_ EncryptionType.None_ None false.
Definition empty_file : MemoryFile.t := MemoryFile.mk 0 (MemoryFile.mkData [] Unlocked).
Definition demo0 : t MemoryFile.t := mk empty_file demo_config (mkState 1 0 ∅ []).
Definition demo_run (o : Op) (w : t MemoryFile.t) : t MemoryFile.t :=
  (run (H := ToyCodecs.toy) demo_env o w).2.
Definition demo1 : t MemoryFile.t :=
  demo_run (OpWrite 5 1 WriteOpType.Put [1] [2]) (demo_run (OpBegin 5) demo0).

Lemma demo_env_ok : env_ok demo_env.
Proof. by split. Qed.

Definition demo_records : list WalRecord.t :=
  [WalRecord.mk 1 1000 (Begin 5) CompressionType.None_ EncryptionType.None_;
   WalRecord.mk 2 1000 (Write 5 1 WriteOpType.Put [1] [2]) CompressionType.None_
                EncryptionType.None_].

Lemma demo0_reachable : reachable (H := ToyCodecs.toy) demo0 [].
Proof. by apply (reachable_create empty_file demo_config). Qed.

Lemma demo1_reachable : reachable (H := ToyCodecs.toy) demo1 demo_records.
Proof.
  change demo_records with
    (([] ++ op_records demo_env (OpBegin 5) demo0) ++
     op_records demo_env (OpWrite 5 1 WriteOpType.Put [1] [2]) (demo_run (OpBegin 5) demo0)).
  eapply reachable_run; [eapply reachable_run; [apply demo0_reachable|..]|..].
  - apply demo_env_ok.
  - done.
  - vm_compute. reflexivity.
  - apply demo_env_ok.
  - simpl. split_and!; try done; by repeat constructor.
  - vm_compute. reflexivity.
Qed.

Lemma reachable_log_witness :
  exists bss, Forall2 (WalReader.logged (H := ToyCodecs.toy) None) demo_records bss /\
    contents (file demo1) ++ buffer (state demo1) = mjoin bss.
Proof.
  destruct (reachable_log (H := ToyCodecs.toy) demo1 demo_records demo1_reachable)
    as (bss & Hl & Hm & _).
  exists bss. split; [exact Hl|exact Hm].
Defined.

Lemma commit_durable_witness :
  exists rd rd', WalReader.open (Ok (file (demo_run (OpCommit 5) demo1))) None = Ok rd /\
    WalReader.read_all (H := ToyCodecs.toy) rd
      = Some (Ok (demo_records ++ [new_record demo_env (Commit 5) demo1], rd')).
Proof.
  apply (commit_durable (H := ToyCodecs.toy) demo1 demo_records demo_env 5 3).
  - exact demo1_reachable.
  - exact demo_env_ok.
  - done.
  - reflexivity.
  - vm_compute. reflexivity.
Defined.

Lemma open_rebuilds_witness :
  exists w', open (H := ToyCodecs.toy)
      (Ok (MemoryFile.mk 0 (MemoryFile.data (file demo1)))) demo_config = Some (Ok w') /\
    state w' = state demo1.
Proof.
  apply (open_rebuilds (H := ToyCodecs.toy) demo1 demo_records).
  - exact demo1_reachable.
  - vm_compute. reflexivity.
  - vm_compute. reflexivity.
  - vm_compute. reflexivity.
Defined.

(** Reopening the log of [demo1] and logging one more record: the file then
    starts with that record instead of the first one. *)
Definition demo_reopened : t MemoryFile.t :=
  match open (H := ToyCodecs.toy) (Ok (MemoryFile.mk 0 (MemoryFile.data (file demo1)))) demo_config with
  | Some (Ok w) => w
  | _ => demo0
  end.

Definition demo_overwritten : t MemoryFile.t :=
  (flush (set_state demo_reopened (with_buffer [7; 7] (state demo_reopened)))).2.
Definition demo_handle : MemoryFile.t := MemoryFile.mk 0 (MemoryFile.data (file demo1)).

Lemma open_then_flush_overwrites_witness :
  contents (file demo_overwritten) = [7; 7] ++ drop 2 (contents demo_handle).
Proof.
  refine (proj2 (open_then_flush_overwrites (H := ToyCodecs.toy)
    demo_handle demo_config demo_reopened [7; 7] demo_overwritten _ _ _ _ _)).
  - vm_compute. reflexivity.
  - vm_compute. reflexivity.
  - discriminate.
  - vm_compute. split; [discriminate|reflexivity].
  - vm_compute. reflexivity.
Defined.

End WalWriter.
