(* ===== verification/GroupCommit.v ===== *)
(** * Group commit ([src/wal/commit.rs])

    The coordinator batches commits: a committing thread logs its record,
    enqueues a request and waits; one worker thread drains the queue, calls
    the flush callback once for the batch and notifies every request in it.
    [Queue] and [Metrics] are the sequential parts; [step] is the interleaving
    of the threads, one transition per critical section. *)
From S2P Require Import Prelude Types Vfs PagerConfig WalRecord WalReader WalWriter.

Record GroupCommitConfig : Type := mkGroupCommitConfig {
  enabled : bool;
  max_batch_size : Z;
  max_wait_micros : Z;
  min_batch_size : Z;
}.

Definition group_commit_default : GroupCommitConfig := mkGroupCommitConfig true 100 1000 10.
Definition high_throughput : GroupCommitConfig := mkGroupCommitConfig true 100 1000 10.
Definition low_latency : GroupCommitConfig := mkGroupCommitConfig false 1 0 1.
Definition balanced : GroupCommitConfig := mkGroupCommitConfig true 50 500 5.

Module Metrics.
Record t : Type := mk {
  total_commits : Z;
  total_fsyncs : Z;
  total_batches : Z;
  max_batch : Z;
  total_wait_time_us : Z;
}.

Definition new : t := mk 0 0 0 0 0.

(** The compare-exchange loop leaves the larger of the two sizes. *)
Definition record_batch (m : t) (batch_size wait_time_us : Z) : t :=
  mk (as_u64 (total_commits m + batch_size))
     (as_u64 (total_fsyncs m + 1))
     (as_u64 (total_batches m + 1))
     (if max_batch m <? batch_size then batch_size else max_batch m)
     (as_u64 (total_wait_time_us m + as_u64 (wait_time_us * batch_size))).
End Metrics.

Inductive CommitResult : Type := Success | CommitError.

(** A request; its notifier is the channel its thread waits on. *)
Record CommitRequest : Type := mkRequest { txn_id : TransactionId; lsn : LogSequenceNumber }.

Module Queue.
Record t : Type := mk { pending : list CommitRequest; config : GroupCommitConfig }.

Definition new (c : GroupCommitConfig) : t := mk [] c.
Definition enqueue (q : t) (r : CommitRequest) : t := mk (pending q ++ [r]) (config q).

(** [should_flush] with the microseconds since the last flush. *)
Definition should_flush (q : t) (elapsed : Z) : bool :=
  if zlen (pending q) =? 0 then false
  else if max_batch_size (config q) <=? zlen (pending q) then true
  else if (min_batch_size (config q) <=? zlen (pending q)) && (max_wait_micros (config q) <=? elapsed)
  then true
  else if max_wait_micros (config q) <=? elapsed then true
  else false.

Definition drain (q : t) : list CommitRequest * t := (pending q, mk [] (config q)).
Definition len (q : t) : Z := zlen (pending q).

(** The decision in one line: there is something to flush, and the batch is
    full or has waited long enough. *)
Lemma should_flush_spec q elapsed :
  should_flush q elapsed = true <->
    pending q <> [] /\
    (max_batch_size (config q) <= zlen (pending q) \/ max_wait_micros (config q) <= elapsed).
Proof.
  unfold should_flush. destruct (Z.eqb_spec (zlen (pending q)) 0) as [Hz|Hz].
  - apply zlen_nil_inv in Hz. rewrite Hz. by split; [|intros [? _]].
  - assert (pending q <> []) by (intros E; by rewrite E in Hz).
    repeat match goal with |- context [if ?b then _ else _] => destruct b eqn:? end;
      split; try done; first [by intros [_ [?|?]]; lia|intros _; split; [done|lia]].
Qed.
End Queue.

Section System.
Context `{Codecs} {F : Type} `{FileOps F}.

(** Where the worker thread stands in its loop. *)
Inductive Worker : Type :=
  | Idle
  | ToDrain
  | Flushing (batch : list CommitRequest)
  | Notifying (batch : list CommitRequest) (result : CommitResult)
  | Stopped.

(** [logged] has the requests whose commit record is in the log and that are
    not in the queue yet; [answered] what the waiting threads received, in
    order; [io_failed] whether some file operation has failed. *)
Record Sys : Type := mkSys {
  writer : WalWriter.t F;
  submitting : list CommitRequest;
  queue : Queue.t;
  worker : Worker;
  metrics : Metrics.t;
  shutdown_flag : bool;
  answered : list (CommitRequest * CommitResult);
  io_failed : bool;
}.

Definition in_batch (s : Sys) : list CommitRequest :=
  match worker s with Flushing b => b | Notifying b _ => b | _ => [] end.

Definition set_worker (s : Sys) (p : Worker) : Sys :=
  mkSys (writer s) (submitting s) (queue s) p (metrics s) (shutdown_flag s) (answered s) (io_failed s).

(** The transitions; [rs] is the ghost list of the records logged so far. *)
Inductive step : Sys * list WalRecord.t -> Sys * list WalRecord.t -> Prop :=
  (** A thread logs a record that is no commit, or flushes. *)
  | step_log s rs e o l w' :
      (forall txn, o <> WalWriter.OpCommit txn) -> WalWriter.env_ok e -> WalWriter.op_ok o ->
      WalWriter.run e o (writer s) = (Ok l, w') ->
      step (s, rs)
        (mkSys w' (submitting s) (queue s) (worker s) (metrics s) (shutdown_flag s) (answered s)
               (io_failed s), rs ++ WalWriter.op_records e o (writer s))
  (** The locked part of [write_commit]. *)
  | step_commit_record s rs e txn l w' :
      WalWriter.env_ok e -> is_u64 txn ->
      WalWriter.write_commit_record e txn (writer s) = (Ok l, w') ->
      step (s, rs)
        (mkSys w' (submitting s ++ [mkRequest txn l]) (queue s) (worker s) (metrics s)
               (shutdown_flag s) (answered s) (io_failed s),
         rs ++ [WalWriter.new_record e (RecordData.Commit txn) (writer s)])
  (** [submit_commit] enqueues the request. *)
  | step_enqueue s rs sub1 r sub2 :
      submitting s = sub1 ++ r :: sub2 ->
      step (s, rs)
        (mkSys (writer s) (sub1 ++ sub2) (Queue.enqueue (queue s) r) (worker s) (metrics s)
               (shutdown_flag s) (answered s) (io_failed s), rs)
  (** [worker_loop]: the check, the drain, the flush and the notification. *)
  | step_check s rs elapsed :
      worker s = Idle -> shutdown_flag s = false -> Queue.should_flush (queue s) elapsed = true ->
      step (s, rs) (set_worker s ToDrain, rs)
  | step_drain s rs batch q :
      worker s = ToDrain -> Queue.drain (queue s) = (batch, q) ->
      step (s, rs)
        (mkSys (writer s) (submitting s) q (if zlen batch =? 0 then Idle else Flushing batch)
               (metrics s) (shutdown_flag s) (answered s) (io_failed s), rs)
  | step_flush s rs batch wait w' :
      worker s = Flushing batch -> WalWriter.group_flush_create (writer s) = (Ok tt, w') ->
      step (s, rs)
        (mkSys w' (submitting s) (queue s) (Notifying batch Success)
               (Metrics.record_batch (metrics s) (zlen batch) wait)
               (shutdown_flag s) (answered s) (io_failed s), rs)
  | step_flush_failed s rs batch wait er w' :
      worker s = Flushing batch -> WalWriter.group_flush_create (writer s) = (Err er, w') ->
      step (s, rs)
        (mkSys w' (submitting s) (queue s) (Notifying batch CommitError)
               (Metrics.record_batch (metrics s) (zlen batch) wait)
               (shutdown_flag s) (answered s) true, rs)
  | step_notify s rs batch res :
      worker s = Notifying batch res ->
      step (s, rs)
        (mkSys (writer s) (submitting s) (queue s) Idle (metrics s) (shutdown_flag s)
               (answered s ++ map (fun r => (r, res)) batch) (io_failed s), rs)
  (** [shutdown]: the flag, the end of the worker, and an error for what is
      left in the queue. *)
  | step_shutdown s rs :
      step (s, rs)
        (mkSys (writer s) (submitting s) (queue s) (worker s) (metrics s) true (answered s)
               (io_failed s), rs)
  | step_worker_stops s rs :
      worker s = Idle -> shutdown_flag s = true -> step (s, rs) (set_worker s Stopped, rs)
  | step_reject s rs remaining q :
      worker s = Stopped -> Queue.drain (queue s) = (remaining, q) ->
      step (s, rs)
        (mkSys (writer s) (submitting s) q Stopped (metrics s) (shutdown_flag s)
               (answered s ++ map (fun r => (r, CommitError)) remaining) (io_failed s), rs).

(** A fresh coordinator over a writer that has logged [rs] and holds nothing
    in its buffer. *)
Definition init (w : WalWriter.t F) (c : GroupCommitConfig) : Sys :=
  mkSys w [] (Queue.new c) Idle Metrics.new false [] false.
End System.
Arguments Sys F : clear implicits.

Section Laws.
Context `{CodecsLaws} {F : Type} `{FileLaws F}.
Implicit Types (s : Sys F) (rs : list WalRecord.t).

(** The commit requests behind the commit records of a log. *)
Definition request_of (r : WalRecord.t) : option CommitRequest :=
  match WalRecord.data r with
  | RecordData.Commit txn => Some (mkRequest txn (WalRecord.lsn r))
  | _ => None
  end.
Definition requests_of (rs : list WalRecord.t) : list CommitRequest := omap request_of rs.

(** Every request of the system, wherever it is. *)
Definition requests s : list CommitRequest :=
  map fst (answered s) ++ in_batch s ++ Queue.pending (queue s) ++ submitting s.

(** The requests whose thread was told, or is about to be told, of success. *)
Definition successes s : list CommitRequest :=
  omap (fun a => match a.2 with Success => Some a.1 | CommitError => None end) (answered s)
  ++ match worker s with Notifying b Success => b | _ => [] end.

Lemma write_commit_record_lsn e txn w l w' :
  WalWriter.write_commit_record (F := F) e txn w = (Ok l, w') ->
  l = WalWriter.current_lsn (WalWriter.state w).
Proof.
  intros Hw. unfold WalWriter.write_commit_record in Hw. sinv.
  apply WalWriter.require_active_ok in Hs as [-> _]. injection Hw as <- _.
  unfold WalWriter.write_data in Hs0. sinv. by injection Hs0 as <- _.
Qed.

Lemma op_records_no_commit e o (w : WalWriter.t F) :
  (forall txn, o <> WalWriter.OpCommit txn) -> requests_of (WalWriter.op_records e o w) = [].
Proof. intros Ho. destruct o; try done. by destruct (Ho txn). Qed.

(** No request is lost, duplicated or made up. *)
Lemma step_requests s rs s' rs' base :
  step (s, rs) (s', rs') -> requests s ++ base ≡ₚ requests_of rs ->
  requests s' ++ base ≡ₚ requests_of rs'.
Proof.
  intros Hst Hp. unfold requests, in_batch in *. inversion Hst; subst; clear Hst; simpl in *;
    repeat match goal with H : worker _ = _ |- _ => rewrite H in Hp; rewrite ?H; clear H end.
  - unfold requests_of. rewrite omap_app. fold (requests_of rs).
    fold (requests_of (WalWriter.op_records e o (writer s))).
    by rewrite op_records_no_commit, app_nil_r.
  - unfold requests_of. rewrite omap_app. simpl. fold (requests_of rs).
    rewrite <- Hp. erewrite <- write_commit_record_lsn by done. solve_Permutation.
  - rewrite <- Hp. replace (submitting s) with (sub1 ++ r :: sub2) by done. solve_Permutation.
  - done.
  - unfold Queue.drain in *. simplify_eq/=. rewrite <- Hp.
    destruct (Z.eqb_spec (zlen (Queue.pending (queue s))) 0) as [Hz|_]; [|done].
    by rewrite (zlen_nil_inv _ Hz).
  - done.
  - done.
  - rewrite <- Hp, map_app, map_map, map_id. solve_Permutation.
  - done.
  - done.
  - unfold Queue.drain in *. simplify_eq/=. rewrite <- Hp, map_app, map_map, map_id. simpl.
    solve_Permutation.
Qed.

(** Until a file operation fails: the writer's invariant holds, and every
    request told of success has its record in the file. *)
Definition durable_inv s rs : Prop :=
  io_failed s = false ->
  WalWriter.writer_inv (writer s) rs /\
  exists rs1, WalWriter.durable (writer s) rs rs1 /\ successes s ⊆ requests_of rs1.

Lemma requests_of_prefix rs1 rs2 :
  rs1 `prefix_of` rs2 -> requests_of rs1 ⊆ requests_of rs2.
Proof. intros [k ->] r. unfold requests_of. rewrite omap_app, elem_of_app. tauto. Qed.

(** A writer step that keeps the successes. *)
Lemma durable_inv_writer s rs s' rs' :
  io_failed s' = false -> io_failed s = false -> durable_inv s rs -> rs `prefix_of` rs' ->
  WalWriter.writer_inv (writer s') rs' ->
  WalWriter.config (writer s') = WalWriter.config (writer s) ->
  WalWriter.file_step (writer s) (writer s') -> successes s' = successes s -> durable_inv s' rs'.
Proof.
  intros _ Hio Hinv Hp Hw Hcfg Hfs Hsucc _. destruct (Hinv Hio) as (_ & rs1 & Hd & Hs).
  split; [done|]. rewrite Hsucc. destruct Hw as [Hl _ _ _].
  destruct (WalWriter.durable_step _ _ _ _ _ Hl Hp Hcfg Hfs Hd) as (rs1' & Hp1 & Hd').
  exists rs1'. split; [done|]. etrans; [done|]. by apply requests_of_prefix.
Qed.

Lemma durable_inv_same s rs s' :
  io_failed s = false -> durable_inv s rs -> writer s' = writer s ->
  successes s' ⊆ successes s ->
  WalWriter.writer_inv (writer s') rs /\
  exists rs1, WalWriter.durable (writer s') rs rs1 /\ successes s' ⊆ requests_of rs1.
Proof.
  intros Hio Hinv -> Hsub. destruct (Hinv Hio) as (Hw & rs1 & Hd & Hs).
  split; [done|]. exists rs1. split; [done|]. by etrans.
Qed.

Lemma app_subseteq_l (l k : list CommitRequest) : l ++ [] ⊆ l ++ k.
Proof. intros r. rewrite app_nil_r, elem_of_app. tauto. Qed.

Lemma omap_map_success (l : list CommitRequest) :
  omap (fun a => match a.2 with Success => Some a.1 | CommitError => None end)
       (map (fun r => (r, Success)) l) = l.
Proof. induction l; simpl; by f_equal. Qed.
Lemma omap_map_error (l : list CommitRequest) :
  omap (fun a => match a.2 with Success => Some a.1 | CommitError => None end)
       (map (fun r => (r, CommitError)) l) = [].
Proof. by induction l. Qed.

Lemma flush_durable w rs w' :
  WalWriter.writer_inv w rs -> WalWriter.group_flush_create (F := F) w = (Ok tt, w') ->
  WalWriter.writer_inv w' rs /\ WalWriter.durable w' rs rs.
Proof.
  intros Hw Hf. unfold WalWriter.group_flush_create in Hf.
  pose proof (WalWriter.flush_writer_inv _ _ _ _ Hw Hf) as Hw'.
  split; [done|]. split; [done|]. destruct Hw' as [[(bss & Hl & Him) _ _ _ _ _] _ _ _].
  exists bss. split; [done|]. unfold WalWriter.image in Him.
  by rewrite (WalWriter.flush_with_file_step _ _ _ Hf), app_nil_r in Him.
Qed.

Lemma step_durable s rs s' rs' base :
  step (s, rs) (s', rs') -> requests s ++ base ≡ₚ requests_of rs ->
  durable_inv s rs -> durable_inv s' rs'.
Proof.
  intros Hst Hp Hinv. inversion Hst; subst; clear Hst; intros Hio; simpl in Hio.
  - destruct (Hinv Hio) as (Hw & _).
    apply (durable_inv_writer s rs); simpl; try done.
    + by apply prefix_app_r.
    + by eapply WalWriter.run_inv.
    + by eapply WalWriter.run_config.
    + by eapply WalWriter.run_file_step.
  - destruct (Hinv Hio) as (Hw & _).
    match goal with H : WalWriter.write_commit_record _ _ _ = _ |- _ => rename H into Hc end.
    pose proof (WalWriter.write_commit_record_inv _ _ _ rs _ _ Hw ltac:(done) ltac:(done) Hc)
      as (_ & Hcfg & Hw').
    apply (durable_inv_writer s rs); simpl; try done.
    + by apply prefix_app_r.
    + by eapply WalWriter.write_commit_record_file_step.
  - exact (Hinv Hio).
  - eapply durable_inv_same; [done..|]. unfold successes; simpl. by apply app_subseteq_l.
  - eapply durable_inv_same; [done..|]. unfold successes; simpl.
    destruct (_ =? 0); by apply app_subseteq_l.
  - destruct (Hinv Hio) as (Hw & rs1 & Hd & Hs).
    destruct (flush_durable _ _ _ Hw ltac:(done)) as [Hw' Hd']. split; [done|].
    exists rs'. split; [done|]. unfold successes in *. simpl.
    intros r [Hr|Hr]%elem_of_app.
    + apply (requests_of_prefix _ _ (proj1 Hd)), Hs, elem_of_app. by left.
    + rewrite <- Hp. unfold requests, in_batch.
      match goal with Hwk : worker s = _ |- _ => rewrite Hwk end. rewrite !elem_of_app. tauto.
  - done.
  - eapply durable_inv_same; [done..|]. unfold successes; simpl.
    match goal with Hwk : worker s = _ |- _ => rewrite Hwk end.
    rewrite omap_app, app_nil_r. by destruct res; rewrite ?omap_map_success, ?omap_map_error, ?app_nil_r.
  - exact (Hinv Hio).
  - eapply durable_inv_same; [done..|]. unfold successes; simpl. by apply app_subseteq_l.
  - eapply durable_inv_same; [done..|]. unfold successes; simpl.
    match goal with Hwk : worker s = _ |- _ => rewrite Hwk end.
    by rewrite omap_app, omap_map_error, !app_nil_r.
Qed.

Lemma steps_inv w c rs0 sr :
  WalWriter.writer_inv w rs0 -> WalWriter.buffer (WalWriter.state w) = [] ->
  rtc step (init (F := F) w c, rs0) sr ->
  requests sr.1 ++ requests_of rs0 ≡ₚ requests_of sr.2 /\ durable_inv sr.1 sr.2.
Proof.
  intros Hw Hb. apply (rtc_ind_r (R := step)
    (fun sr => requests sr.1 ++ requests_of rs0 ≡ₚ requests_of sr.2 /\ durable_inv sr.1 sr.2)).
  - split; [done|]. intros _. split; [done|]. exists rs0. split; [|by apply list_subseteq_nil].
    split; [done|]. destruct Hw as [[(bss & Hl & Him) _ _ _ _ _] _ _ _]. exists bss.
    unfold WalWriter.image in Him. by rewrite Hb, app_nil_r in Him.
  - intros [s1 rs1] [s2 rs2] _ Hst [Hp Hd]. simpl in *.
    split; [by eapply step_requests|by eapply step_durable].
Qed.

Lemma NoDup_requests_of rs : NoDup (map WalRecord.lsn rs) -> NoDup (requests_of rs).
Proof.
  induction rs as [|r rs IH]; simpl; [by constructor|]. intros [Hr Hrs]%NoDup_cons.
  unfold requests_of; simpl. fold (requests_of rs). unfold request_of at 1.
  destruct (WalRecord.data r); try by apply IH. constructor; [|by apply IH].
  intros (q & Hq & Hq')%list_elem_of_omap. apply Hr. unfold request_of in Hq'.
  destruct (WalRecord.data q); try done. injection Hq' as _ Hq'. rewrite <- Hq'. by apply list_elem_of_fmap_2.
Qed.

End Laws.

(** C34: group commit keeps its promise under every interleaving of the
    committing threads and the worker. The coordinator starts on a writer made
    by [create] whose calls so far succeeded or were refused without an I/O
    error and whose buffer is empty. As long as no file operation has failed
    since, a committing thread that received [Success] finds its commit record
    when the file alone, without the writer's buffer, is read back. *)
Theorem group_commit_durable `{CodecsLaws} {F} `{FileLaws F} (w : WalWriter.t F) rs0 c s rs r
    (Hw : WalWriter.reachable w rs0) (Hb : WalWriter.buffer (WalWriter.state w) = [])
    (Hrun : rtc step (init w c, rs0) (s, rs)) (Hio : io_failed s = false)
    (Hr : (r, Success) ∈ answered s) :
  exists rd rd' out,
    WalReader.open (Ok (WalWriter.file (writer s)))
      (WalWriter.encryption_key (WalWriter.config (writer s))) = Ok rd /\
    WalReader.read_all rd = Some (Ok (out, rd')) /\ r ∈ requests_of out.
Proof.
  destruct (steps_inv w c rs0 (s, rs)) as [_ Hd]; [by apply WalWriter.reachable_inv|done..|].
  destruct (Hd Hio) as ([Hl _ _ _] & rs1 & [Hp (bss & Hl1 & Hc)] & Hs). simpl in *.
  destruct (WalReader.open_read_all (WalWriter.file (writer s))
    (WalWriter.encryption_key (WalWriter.config (writer s))) rs1 bss [])
    as (rd & rd' & Ho & Hra & _); [by rewrite app_nil_r|done|done| |].
  - destruct Hl as [_ _ _ _ _ Hlim]. unfold WalWriter.image in Hlim. zlen_tac.
  - exists rd, rd', rs1. split_and!; [done|done|]. apply Hs. unfold successes.
    apply elem_of_app. left. apply list_elem_of_omap. by exists (r, Success).
Qed.

(** No commit request is lost or answered twice: at any moment the
    answered requests, the batch in the worker's hands, the queue and the
    requests about to be queued together are exactly the commits logged since
    the coordinator started, each once. *)
Theorem group_commit_once `{CodecsLaws} {F} `{FileLaws F} (w : WalWriter.t F) rs0 c s rs
    (Hw : WalWriter.reachable w rs0) (Hb : WalWriter.buffer (WalWriter.state w) = [])
    (Hrun : rtc step (init w c, rs0) (s, rs)) (Hio : io_failed s = false) :
  (map fst (answered s) ++ in_batch s ++ Queue.pending (queue s) ++ submitting s)
    ++ requests_of rs0 ≡ₚ requests_of rs /\
  NoDup (map fst (answered s) ++ in_batch s ++ Queue.pending (queue s) ++ submitting s).
Proof.
  destruct (steps_inv w c rs0 (s, rs)) as [Hp Hd]; [by apply WalWriter.reachable_inv|done..|].
  simpl in *. split; [done|]. destruct (Hd Hio) as ([Hl _ _ _] & _).
  assert (Hnd : NoDup (requests_of rs)).
  { apply NoDup_requests_of. rewrite (WalWriter.inv_lsns _ _ Hl).
    apply NoDup_fmap; [intros ? ?; lia|]. apply NoDup_seq. }
  rewrite <- Hp in Hnd. by apply NoDup_app in Hnd as [? _].
Qed.

(** ** A concrete interleaving

    One transaction begins; its commit record is logged, its request queued,
    drained, flushed and answered. *)
Module Demo.
Import WalWriter.

Definition cfg : WalWriterConfig :=
  mkConfig 4096 true (2 ^ 20) CompressionType.None_ EncryptionType.None_ None true.
Definition begun : t MemoryFile.t :=
  (run (H := ToyCodecs.toy) demo_env OpFlush
    (run (H := ToyCodecs.toy) demo_env (OpBegin 5) (mk empty_file cfg (mkState 1 0 ∅ []))).2).2.
Definition records0 : list WalRecord.t :=
  [WalRecord.mk 1 1000 (RecordData.Begin 5) CompressionType.None_ EncryptionType.None_].
Definition record1 : WalRecord.t :=
  WalRecord.mk 2 1000 (RecordData.Commit 5) CompressionType.None_ EncryptionType.None_.
Definition logged : t MemoryFile.t := (write_commit_record (H := ToyCodecs.toy) demo_env 5 begun).2.
Definition flushed : t MemoryFile.t := (group_flush_create logged).2.
Definition req : CommitRequest := mkRequest 5 2.
Definition gc : GroupCommitConfig := low_latency.
Definition q0 : Queue.t := Queue.new gc.
Definition m1 : Metrics.t := Metrics.record_batch Metrics.new 1 7.
Definition final : Sys MemoryFile.t := mkSys flushed [] q0 Idle m1 false [(req, Success)] false.

Lemma begun_reachable : reachable (H := ToyCodecs.toy) begun records0.
Proof.
  change records0 with
    (([] ++ op_records demo_env (OpBegin 5) (mk empty_file cfg (mkState 1 0 ∅ [])))
     ++ op_records demo_env OpFlush
          (run (H := ToyCodecs.toy) demo_env (OpBegin 5) (mk empty_file cfg (mkState 1 0 ∅ []))).2).
  eapply reachable_run; [eapply reachable_run; [by apply (reachable_create empty_file cfg)|..]|..];
    try apply demo_env_ok; try done; vm_compute; reflexivity.
Qed.

Lemma interleaving :
  rtc (step (H := ToyCodecs.toy)) (init begun gc, records0) (final, records0 ++ [record1]).
Proof.
  apply (rtc_l _ _ (mkSys logged [req] q0 Idle Metrics.new false [] false, records0 ++ [record1])).
  { apply (step_commit_record (H := ToyCodecs.toy) (init begun gc) records0 demo_env 5 2 logged);
      [apply demo_env_ok|done|vm_compute; reflexivity]. }
  apply (rtc_l _ _ (mkSys logged [] (Queue.enqueue q0 req) Idle Metrics.new false [] false,
                    records0 ++ [record1])).
  { by apply (step_enqueue (H := ToyCodecs.toy)
      (mkSys logged [req] q0 Idle Metrics.new false [] false) _ [] req []). }
  apply (rtc_l _ _ (mkSys logged [] (Queue.enqueue q0 req) ToDrain Metrics.new false [] false,
                    records0 ++ [record1])).
  { by apply (step_check (H := ToyCodecs.toy)
      (mkSys logged [] (Queue.enqueue q0 req) Idle Metrics.new false [] false) _ 0). }
  apply (rtc_l _ _ (mkSys logged [] q0 (Flushing [req]) Metrics.new false [] false,
                    records0 ++ [record1])).
  { by apply (step_drain (H := ToyCodecs.toy)
      (mkSys logged [] (Queue.enqueue q0 req) ToDrain Metrics.new false [] false) _ [req] q0). }
  apply (rtc_l _ _ (mkSys flushed [] q0 (Notifying [req] Success) m1 false [] false,
                    records0 ++ [record1])).
  { apply (step_flush (H := ToyCodecs.toy)
      (mkSys logged [] q0 (Flushing [req]) Metrics.new false [] false) _ [req] 7 flushed);
      [done|vm_compute; reflexivity]. }
  apply rtc_once.
  by apply (step_notify (H := ToyCodecs.toy)
    (mkSys flushed [] q0 (Notifying [req] Success) m1 false [] false) _ [req] Success).
Qed.
End Demo.

Lemma group_commit_durable_witness :
  exists rd rd' out,
    WalReader.open (Ok (WalWriter.file (writer Demo.final)))
      (WalWriter.encryption_key (WalWriter.config (writer Demo.final))) = Ok rd /\
    WalReader.read_all (H := ToyCodecs.toy) rd = Some (Ok (out, rd')) /\
    Demo.req ∈ requests_of out.
Proof.
  apply (group_commit_durable (H := ToyCodecs.toy) Demo.begun Demo.records0 Demo.gc Demo.final
           (Demo.records0 ++ [Demo.record1]) Demo.req).
  - exact Demo.begun_reachable.
  - vm_compute. reflexivity.
  - exact Demo.interleaving.
  - reflexivity.
  - apply list_elem_of_here.
Defined.

Lemma group_commit_once_witness :
  NoDup (map fst (answered Demo.final) ++ in_batch Demo.final
         ++ Queue.pending (queue Demo.final) ++ submitting Demo.final).
Proof.
  apply (group_commit_once (H := ToyCodecs.toy) Demo.begun Demo.records0 Demo.gc Demo.final
           (Demo.records0 ++ [Demo.record1])).
  - exact Demo.begun_reachable.
  - vm_compute. reflexivity.
  - exact Demo.interleaving.
  - reflexivity.
Defined.
