(* ===== verification/WalRecovery.v ===== *)
(** * Crash recovery ([src/wal/recovery.rs])

    [WalRecovery] replays the records of a log.  A [BTreeMap] is a [gmap]
    whose iteration is in key order ([keys_in_order]); the warnings printed on
    a checkpoint mismatch are left out. *)
From stdpp Require Import sorting.
From S2P Require Import Prelude Types Vfs PagerConfig WalRecord WalReader WalWriter.

Module WalRecovery.
Import RecordData.

Inductive TransactionState : Type := Active | Committed | RolledBack.
#[global] Instance TransactionState_eq_dec : EqDecision TransactionState.
Proof. solve_decision. Defined.

Record RecoveredWrite : Type := mkWrite {
  table_id : TableId;
  op_type : WriteOpType.t;
  key : bytes;
  value : bytes;
}.

Record RecoveryResult : Type := mkResult {
  res_last_checkpoint_lsn : option LogSequenceNumber;
  committed_writes : list RecoveredWrite;
  active_transactions : gset TransactionId;
  res_records_processed : Z;
}.

Record t : Type := mk {
  transactions : gmap TransactionId TransactionState;
  transaction_writes : gmap TransactionId (list RecoveredWrite);
  last_checkpoint_lsn : option LogSequenceNumber;
  checkpoint_active_txns : option (gset TransactionId);
  records_processed : Z;
}.

Definition new : t := mk ∅ ∅ None None 0.

Definition process_begin (st : t) (txn : TransactionId) : outcome WalError t :=
  Ok (mk (<[txn := Active]> (transactions st)) (<[txn := []]> (transaction_writes st))
         (last_checkpoint_lsn st) (checkpoint_active_txns st) (records_processed st)).

Definition process_write (st : t) (txn : TransactionId) (w : RecoveredWrite)
    : outcome WalError t :=
  _ ← ensure (bool_decide (is_Some (transactions st !! txn))) (RecoveryError 0 "Write");
  writes ← unwrap (transaction_writes st !! txn);
  Ok (mk (transactions st) (<[txn := writes ++ [w]]> (transaction_writes st))
         (last_checkpoint_lsn st) (checkpoint_active_txns st) (records_processed st)).

Definition process_commit (st : t) (txn : TransactionId) : outcome WalError t :=
  _ ← ensure (bool_decide (is_Some (transactions st !! txn))) (RecoveryError 0 "Commit");
  Ok (mk (<[txn := Committed]> (transactions st)) (transaction_writes st)
         (last_checkpoint_lsn st) (checkpoint_active_txns st) (records_processed st)).

Definition process_rollback (st : t) (txn : TransactionId) : outcome WalError t :=
  _ ← ensure (bool_decide (is_Some (transactions st !! txn))) (RecoveryError 0 "Rollback");
  Ok (mk (<[txn := RolledBack]> (transactions st)) (delete txn (transaction_writes st))
         (last_checkpoint_lsn st) (checkpoint_active_txns st) (records_processed st)).

Definition process_checkpoint (st : t) (lsn : LogSequenceNumber) (txns : list TransactionId)
    : outcome WalError t :=
  Ok (mk (transactions st) (transaction_writes st) (Some lsn) (Some (list_to_set txns))
         (records_processed st)).

Definition process_record (st : t) (r : WalRecord.t) : outcome WalError t :=
  let st := mk (transactions st) (transaction_writes st) (last_checkpoint_lsn st)
               (checkpoint_active_txns st) (records_processed st + 1) in
  match WalRecord.data r with
  | Begin txn => process_begin st txn
  | Write txn table op k v => process_write st txn (mkWrite table op k v)
  | Commit txn => process_commit st txn
  | Rollback txn => process_rollback st txn
  | Checkpoint lsn txns => process_checkpoint st lsn txns
  | Prepare txn => process_begin st txn
  end.

(** The iteration order of a [BTreeMap]. *)
Definition keys_in_order {A} (m : gmap TransactionId A) : list TransactionId :=
  merge_sort Z.le (elements (dom m)).

Definition writes_if_committed (st : t) (txn : TransactionId) : list RecoveredWrite :=
  match transactions st !! txn with
  | Some Committed => default [] (transaction_writes st !! txn)
  | _ => []
  end.

Definition build_result (st : t) : RecoveryResult :=
  mkResult (last_checkpoint_lsn st)
    (mjoin (map (writes_if_committed st) (keys_in_order (transactions st))))
    (dom (filter (fun p => p.2 = Active) (transactions st)))
    (records_processed st).

Section Recover.
Context `{Codecs} {F : Type} `{FileOps F}.

(** The read loop of [recover_with_key]; [None] is out of fuel. *)
Fixpoint recover_loop (fuel : nat) (st : t) (rd : WalReader.t F) : option (outcome WalError t) :=
  match fuel with
  | O => None
  | S fuel =>
      match WalReader.read_next rd with
      | Ok (Some r, rd') =>
          match process_record st r with
          | Ok st' => recover_loop fuel st' rd'
          | Err e => Some (Err e)
          | Panic => Some Panic
          end
      | Ok (None, _) => Some (Ok st)
      | Err e => Some (Err e)
      | Panic => Some Panic
      end
  end.

Definition recover_with_key (opened : outcome FileSystemError F) (key : option bytes)
    : option (outcome WalError RecoveryResult) :=
  match WalReader.open opened key with
  | Ok rd =>
      (fun o => st ← o; Ok (build_result st)) <$> recover_loop (WalReader.loop_fuel rd) new rd
  | Err e => Some (Err e)
  | Panic => Some Panic
  end.

Definition recover (opened : outcome FileSystemError F) : option (outcome WalError RecoveryResult) :=
  recover_with_key opened None.
End Recover.

(** ** Replaying a list of records *)
Fixpoint process_all (st : t) (rs : list WalRecord.t) : outcome WalError t :=
  match rs with
  | [] => Ok st
  | r :: rs => st' ← process_record st r; process_all st' rs
  end.

Lemma process_all_app st rs1 rs2 :
  process_all st (rs1 ++ rs2) = (st' ← process_all st rs1; process_all st' rs2).
Proof.
  revert st. induction rs1 as [|r rs1 IH]; intros st; simpl; [done|].
  destruct (process_record st r); simpl; [apply IH|done..].
Qed.

Section Loop.
Context `{Codecs} {F : Type} `{FileOps F}.

Lemma read_all_loop_extends fuel : forall recs (rd : WalReader.t F) l rd',
  WalReader.read_all_loop fuel recs rd = Some (Ok (l, rd')) -> exists k, l = recs ++ k.
Proof.
  induction fuel as [|fuel IH]; intros recs rd l rd' Hl; simpl in Hl; [done|].
  destruct (WalReader.read_next rd) as [[[r|] rd1]| |]; [| |done|done].
  - apply IH in Hl as [k ->]. exists (r :: k). by rewrite <- app_assoc.
  - injection Hl as <- <-. exists []. by rewrite app_nil_r.
Qed.

(** On a log that reads to its end, recovery processes what was read. *)
Lemma recover_loop_read_all fuel : forall st0 st recs (rd : WalReader.t F) l rd',
  process_all st0 recs = Ok st ->
  WalReader.read_all_loop fuel recs rd = Some (Ok (l, rd')) ->
  recover_loop fuel st rd = Some (process_all st0 l).
Proof.
  induction fuel as [|fuel IH]; intros st0 st recs rd l rd' Hst Hl; simpl in *; [done|].
  destruct (WalReader.read_next rd) as [[[r|] rd1]| |]; [|by injection Hl as <- <-; rewrite Hst|done|done].
  pose proof (process_all_app st0 recs [r]) as Happ. rewrite Hst in Happ. simpl in Happ.
  destruct (process_record st r) as [st'|e|] eqn:Hr; simpl in Happ.
  - eapply IH; [done|]. exact Hl.
  - apply read_all_loop_extends in Hl as [k ->]. by rewrite process_all_app, Happ.
  - apply read_all_loop_extends in Hl as [k ->]. by rewrite process_all_app, Happ.
Qed.
End Loop.

(** ** What a log says

    The transactions a log begins and commits, the writes of a transaction in
    log order, the last checkpoint: the specification recovery is measured
    against. *)
Definition begin_of (r : WalRecord.t) : option TransactionId :=
  match WalRecord.data r with Begin txn => Some txn | _ => None end.
Definition commit_of (r : WalRecord.t) : option TransactionId :=
  match WalRecord.data r with Commit txn => Some txn | _ => None end.
Definition write_of (txn : TransactionId) (r : WalRecord.t) : option RecoveredWrite :=
  match WalRecord.data r with
  | Write txn' table op k v => if decide (txn' = txn) then Some (mkWrite table op k v) else None
  | _ => None
  end.
Definition checkpoint_of (r : WalRecord.t) : option LogSequenceNumber :=
  match WalRecord.data r with Checkpoint lsn _ => Some lsn | _ => None end.

Definition begins (rs : list WalRecord.t) : list TransactionId := omap begin_of rs.
Definition commits (rs : list WalRecord.t) : gset TransactionId := list_to_set (omap commit_of rs).
Definition writes_of (rs : list WalRecord.t) (txn : TransactionId) : list RecoveredWrite :=
  omap (write_of txn) rs.

Definition expected_result (rs : list WalRecord.t) : RecoveryResult :=
  mkResult (last (omap checkpoint_of rs))
    (mjoin (map (writes_of rs) (merge_sort Z.le (elements (commits rs)))))
    (WalWriter.scan rs).2
    (zlen rs).

(** The guards the writer checks before it logs a record. *)
Definition guarded (active : gset TransactionId) (r : WalRecord.t) : Prop :=
  match WalRecord.data r with
  | Begin txn => txn ∉ active
  | Write txn _ _ _ _ | Commit txn | Rollback txn | Prepare txn => txn ∈ active
  | Checkpoint _ txns => list_to_set txns = active
  end.

Inductive well_logged : list WalRecord.t -> Prop :=
  | well_logged_nil : well_logged []
  | well_logged_snoc rs r :
      well_logged rs -> guarded (WalWriter.scan rs).2 r -> well_logged (rs ++ [r]).

Definition no_prepare (rs : list WalRecord.t) : Prop :=
  Forall (fun r => match WalRecord.data r with Prepare _ => False | _ => True end) rs.

(** What the recovery state says of each transaction after [rs]. *)
Record replayed (rs : list WalRecord.t) (st : t) : Prop := {
  rep_dom txn : is_Some (transactions st !! txn) <-> txn ∈ begins rs;
  rep_active txn : transactions st !! txn = Some Active <-> txn ∈ (WalWriter.scan rs).2;
  rep_committed txn : transactions st !! txn = Some Committed <-> txn ∈ commits rs;
  rep_writes txn s : transactions st !! txn = Some s -> s <> RolledBack ->
    transaction_writes st !! txn = Some (writes_of rs txn);
  rep_fresh txn : txn ∉ begins rs -> writes_of rs txn = [];
  rep_checkpoint : last_checkpoint_lsn st = last (omap checkpoint_of rs);
  rep_count : records_processed st = zlen rs;
}.

Lemma begins_snoc rs r : begins (rs ++ [r]) = begins rs ++ option_list (begin_of r).
Proof. unfold begins. rewrite omap_app. simpl. by destruct (begin_of r). Qed.
Lemma writes_snoc rs r txn : writes_of (rs ++ [r]) txn = writes_of rs txn ++ option_list (write_of txn r).
Proof. unfold writes_of. rewrite omap_app. simpl. by destruct (write_of txn r). Qed.
Lemma commits_snoc rs r : commits (rs ++ [r]) = commits rs ∪ list_to_set (option_list (commit_of r)).
Proof. unfold commits. rewrite omap_app, list_to_set_app_L. simpl. by destruct (commit_of r). Qed.
Lemma checkpoints_snoc rs r :
  last (omap checkpoint_of (rs ++ [r])) =
    match checkpoint_of r with Some l => Some l | None => last (omap checkpoint_of rs) end.
Proof.
  rewrite omap_app. simpl. destruct (checkpoint_of r); simpl; [by rewrite last_snoc|by rewrite app_nil_r].
Qed.

(** A transaction that is active has begun and is not committed. *)
Lemma replayed_active rs st txn :
  replayed rs st -> txn ∈ (WalWriter.scan rs).2 ->
  transactions st !! txn = Some Active /\ txn ∈ begins rs /\ txn ∉ commits rs.
Proof.
  intros Hrep Hin. apply (rep_active rs st Hrep) in Hin as Ha. split_and!; [done|..].
  - apply (rep_dom rs st Hrep). by eexists.
  - rewrite <- (rep_committed rs st Hrep). congruence.
Qed.

(** The fields of [replayed] after one more record with payload [Hd]. *)
Ltac replay_fields Hd Hscan :=
  split; simpl; intros;
    rewrite ?begins_snoc, ?commits_snoc, ?checkpoints_snoc, ?writes_snoc, ?Hscan in *;
    unfold begin_of, commit_of, write_of, checkpoint_of in *; rewrite ?Hd in *; simpl in *;
    rewrite ?app_nil_r, ?union_empty_r_L in *;
    rewrite ?elem_of_app, ?list_elem_of_singleton, ?elem_of_union, ?elem_of_difference,
      ?elem_of_singleton, ?elem_of_list_to_set in *;
    rewrite ?lookup_insert, ?lookup_delete in *.

(** A membership goal of one transaction, as facts about its state. *)
Ltac replay_iff Hdom Ha Hc :=
  lazymatch goal with |- _ <-> _ => idtac end;
  rewrite <- ?Ha, <- ?Hdom, <- ?Hc; unfold is_Some in *;
  repeat match goal with H : forall _, _ |- _ => clear H end; intuition (eauto || congruence).

Lemma replay_step rs st r :
  replayed rs st -> guarded (WalWriter.scan rs).2 r -> NoDup (begins (rs ++ [r])) ->
  (match WalRecord.data r with Prepare _ => False | _ => True end) ->
  exists st', process_record st r = Ok st' /\ replayed (rs ++ [r]) st'.
Proof.
  intros Hrep Hg Hnd Hnp. unfold guarded in Hg.
  rewrite begins_snoc in Hnd. unfold begin_of in Hnd.
  pose proof (fun txn => replayed_active rs st txn Hrep) as Hact.
  destruct Hrep as [Hdom Ha Hc Hw Hf Hk Hn]. unfold process_record.
  assert (Hscan : (WalWriter.scan (rs ++ [r])).2
                  = (WalWriter.scan_record (0, (WalWriter.scan rs).2) r).2)
    by (by apply WalWriter.scan_snoc_active).
  destruct (WalRecord.data r) as [txn|txn table op k v|txn|txn|l txns|txn] eqn:Hd; [..|done];
    unfold WalWriter.scan_record in Hscan; rewrite Hd in Hscan; simpl in Hscan.
  - (* Begin *)
    simpl in Hnd. apply NoDup_app in Hnd as (_ & Hnb & _).
    assert (Hnew : txn ∉ begins rs) by (intros Hin; apply (Hnb _ Hin); by left).
    assert (Hncom : txn ∉ commits rs) by (rewrite <- Hc; intros E; apply Hnew, Hdom; by eexists).
    eexists. split; [done|]. replay_fields Hd Hscan; repeat case_decide; simplify_eq; try done;
      try (replay_iff Hdom Ha Hc).
    + by rewrite Hf.
    + by eapply Hw.
    + apply Hf. tauto.
    + rewrite Hn. zlen_tac.
  - (* Write *)
    destruct (Hact _ Hg) as (Hst & Hbeg & Hncom).
    pose proof (Hw _ _ Hst ltac:(done)) as Hwr.
    eexists. split.
    { unfold process_write. simpl. rewrite Hst, Hwr. done. }
    replay_fields Hd Hscan; repeat case_decide; simplify_eq/=; rewrite ?app_nil_r; try done.
    + by eapply Hw.
    + by apply Hf.
    + rewrite Hn. zlen_tac.
  - (* Commit *)
    destruct (Hact _ Hg) as (Hst & Hbeg & Hncom).
    pose proof (Hw _ _ Hst ltac:(done)) as Hwr.
    eexists. split.
    { unfold process_commit. simpl. by rewrite Hst. }
    replay_fields Hd Hscan; repeat case_decide; simplify_eq/=; rewrite ?app_nil_r; try done;
      try (replay_iff Hdom Ha Hc).
    + by eapply Hw.
    + by apply Hf.
    + rewrite Hn. zlen_tac.
  - (* Rollback *)
    destruct (Hact _ Hg) as (Hst & Hbeg & Hncom).
    eexists. split.
    { unfold process_rollback. simpl. by rewrite Hst. }
    replay_fields Hd Hscan; repeat case_decide; simplify_eq/=; rewrite ?app_nil_r; try done;
      try (replay_iff Hdom Ha Hc).
    + by eapply Hw.
    + by apply Hf.
    + rewrite Hn. zlen_tac.
  - (* Checkpoint *)
    eexists. split; [done|]. rewrite Hg in Hscan.
    replay_fields Hd Hscan; try done.
    + by eapply Hw.
    + by apply Hf.
    + rewrite Hn. zlen_tac.
Qed.

Lemma replay_all rs :
  well_logged rs -> no_prepare rs -> NoDup (begins rs) ->
  exists st, process_all new rs = Ok st /\ replayed rs st.
Proof.
  induction 1 as [|rs r Hwl IH Hg]; intros Hnp Hnd.
  - exists new. split; [done|]. split; simpl; try done; intros txn; rewrite ?lookup_empty;
      first [split; [by intros []|by intros ?%elem_of_nil]|split; [done|set_solver]|done].
  - apply Forall_app in Hnp as [Hnp [Hr _]%Forall_cons].
    pose proof Hnd as Hnd'. rewrite begins_snoc in Hnd'. apply NoDup_app in Hnd' as [Hnd' _].
    destruct (IH Hnp Hnd') as (st & Hst & Hrep).
    destruct (replay_step rs st r Hrep Hg Hnd Hr) as (st' & Hst' & Hrep').
    exists st'. split; [|done]. rewrite process_all_app, Hst. simpl. by rewrite Hst'.
Qed.

(** ** Sorted iteration *)
(** Iterating over a set in order and keeping a subset is iterating over the
    subset in order. *)
Lemma filter_in_order (B C : gset TransactionId) :
  C ⊆ B -> filter (fun x => x ∈ C) (merge_sort Z.le (elements B)) = merge_sort Z.le (elements C).
Proof.
  intros Hsub. apply (StronglySorted_unique Z.le).
  - apply StronglySorted_filter, (StronglySorted_merge_sort _).
  - apply (StronglySorted_merge_sort _).
  - rewrite !merge_sort_Permutation. apply NoDup_Permutation.
    + apply NoDup_filter, NoDup_elements.
    + apply NoDup_elements.
    + intros x. rewrite list_elem_of_filter, !elem_of_elements. clear -Hsub. set_solver.
Qed.

Lemma mjoin_map_filter {A B} (P : A -> Prop) `{!forall x, Decision (P x)} (f g : A -> list B) l :
  (forall x, P x -> f x = g x) -> (forall x, ~ P x -> f x = []) ->
  mjoin (map f l) = mjoin (map g (filter P l)).
Proof.
  intros Hp Hn. induction l as [|x l IH]; simpl; [done|]. rewrite filter_cons, IH.
  case_decide; simpl; [by rewrite Hp|by rewrite Hn].
Qed.

Lemma build_result_spec rs st : replayed rs st -> build_result st = expected_result rs.
Proof.
  intros [Hdom Ha Hc Hw Hf Hk Hn]. unfold build_result, expected_result.
  rewrite Hk, Hn. f_equal.
  - rewrite (mjoin_map_filter (fun x => x ∈ commits rs) _ (writes_of rs)).
    + unfold keys_in_order. rewrite filter_in_order; [done|].
      intros x Hx%Hc. apply elem_of_dom. by eexists.
    + intros x Hx%Hc. unfold writes_if_committed. rewrite Hx. by erewrite Hw.
    + intros x Hx. unfold writes_if_committed.
      destruct (transactions st !! x) as [[]|] eqn:E; try done. by apply Hc in E.
  - apply set_eq. intros x. rewrite elem_of_dom, <- Ha. unfold is_Some.
    setoid_rewrite map_lookup_filter_Some. simpl.
    split; [by intros (y & ? & ->)|by eauto].
Qed.

(** The writer logs only guarded records. *)
Section Writer.
Context `{CodecsLaws} {F : Type} `{FileLaws F}.

Lemma run_guarded e o (w : WalWriter.t F) rs lsn w' :
  WalWriter.writer_inv w rs -> WalWriter.env_ok e -> WalWriter.run e o w = (Ok lsn, w') ->
  Forall (guarded (WalWriter.scan rs).2) (WalWriter.op_records e o w).
Proof.
  intros [_ Ha _ _] He Hr. unfold WalWriter.active_inv in Ha. rewrite <- Ha.
  destruct o; simpl in Hr; unfold WalWriter.op_records; simpl; repeat constructor;
    unfold guarded; simpl;
    unfold WalWriter.write_begin, WalWriter.write_operation, WalWriter.write_commit,
      WalWriter.write_commit_record, WalWriter.write_prepare, WalWriter.write_rollback in Hr;
    sinv; try (apply WalWriter.require_active_ok in Hs as [_ ?]; done).
  - simpl in Hs0. by apply bool_decide_eq_true in Hs0.
  - by apply WalWriter.require_active_ok in Hs2 as [_ ?].
  - apply set_eq. intros y. rewrite elem_of_list_to_set, (WalWriter.env_iter e He), elem_of_elements.
    done.
Qed.

Lemma reachable_well_logged (w : WalWriter.t F) rs : WalWriter.reachable w rs -> well_logged rs.
Proof.
  induction 1 as [|w rs e o lsn w' Hr IH He Ho Hrun|]; [constructor| |done].
  pose proof (run_guarded _ _ _ _ _ _ (WalWriter.reachable_inv _ _ Hr) He Hrun) as Hg.
  unfold WalWriter.op_records in *. destruct (WalWriter.op_data e o w); [|by rewrite app_nil_r].
  apply Forall_cons in Hg as [Hg _]. by constructor.
Qed.
End Writer.

Lemma recover_file `{CodecsLaws} {F} `{FileLaws F} (f : F) key rs bss :
  contents f = mjoin bss -> Forall2 (WalReader.logged key) rs bss -> zlen (contents f) < 2 ^ 63 ->
  recover_with_key (Ok f) key = Some (st ← process_all new rs; Ok (build_result st)).
Proof.
  intros Hc Hl Hlen.
  destruct (WalReader.open_read_all f key rs bss []) as (rd & rd' & Ho & Hr & _);
    [by rewrite app_nil_r|done..|].
  unfold recover_with_key. rewrite Ho. unfold WalReader.read_all in Hr.
  by rewrite (recover_loop_read_all _ new new [] rd rs rd' eq_refl Hr).
Qed.

(** C1: recovery is right on every log a writer can produce without
    two-phase commit: reading the flushed file back, [recover_with_key]
    succeeds and returns exactly the writes of the committed transactions,
    each transaction's in log order, the transactions by ascending id, and
    the transactions still active, the last checkpoint and the record count. *)
Theorem recovery_correct `{CodecsLaws} {F} `{FileLaws F} (w : WalWriter.t F) rs (f : F)
    (Hr : WalWriter.reachable w rs) (Hb : WalWriter.buffer (WalWriter.state w) = [])
    (Hf : contents f = contents (WalWriter.file w))
    (Hnp : no_prepare rs) (Hids : NoDup (begins rs)) :
  recover_with_key (Ok f) (WalWriter.encryption_key (WalWriter.config w))
    = Some (Ok (expected_result rs)).
Proof.
  destruct (replay_all rs (reachable_well_logged w rs Hr) Hnp Hids) as (st & Hst & Hrep).
  destruct (WalWriter.reachable_inv _ _ Hr) as [[(bss & Hl & Him) _ _ _ _ Hlim] _ _ _].
  unfold WalWriter.image in Him, Hlim. rewrite Hb, app_nil_r in Him, Hlim.
  rewrite (recover_file f _ rs bss); [|by rewrite Hf|done|rewrite Hf; lia].
  rewrite Hst. simpl. by rewrite (build_result_spec rs st).
Qed.

(** The log of [WalWriter.demo1], with its transaction committed. *)
Definition demo_committed : WalWriter.t MemoryFile.t :=
  WalWriter.demo_run (WalWriter.OpCommit 5) WalWriter.demo1.
Definition demo_commit_records : list WalRecord.t :=
  WalWriter.demo_records ++ [WalRecord.mk 3 1000 (Commit 5) CompressionType.None_ EncryptionType.None_].

Lemma demo_committed_reachable :
  WalWriter.reachable (H := ToyCodecs.toy) demo_committed demo_commit_records.
Proof.
  change demo_commit_records with
    (WalWriter.demo_records ++ WalWriter.op_records WalWriter.demo_env (WalWriter.OpCommit 5) WalWriter.demo1).
  eapply WalWriter.reachable_run; [apply WalWriter.demo1_reachable|apply WalWriter.demo_env_ok|done|].
  vm_compute. reflexivity.
Qed.

Lemma recovery_correct_witness :
  recover_with_key (H := ToyCodecs.toy) (Ok (WalWriter.file demo_committed))
    (WalWriter.encryption_key (WalWriter.config demo_committed))
    = Some (Ok (expected_result demo_commit_records)).
Proof.
  apply (recovery_correct (H := ToyCodecs.toy) demo_committed demo_commit_records).
  - exact demo_committed_reachable.
  - vm_compute. reflexivity.
  - reflexivity.
  - repeat constructor.
  - simpl. apply NoDup_singleton.
Defined.

(** ** Atomicity

    Two logs are compared: what the writer had logged, and the part of it
    that a crash left in the file. *)
Lemma well_logged_snoc_inv rs r :
  well_logged (rs ++ [r]) -> well_logged rs /\ guarded (WalWriter.scan rs).2 r.
Proof.
  inversion 1 as [Heq|rs' r' Hw Hg Heq]; [by destruct rs|].
  by apply app_inj_tail in Heq as [-> ->].
Qed.

Lemma well_logged_app_inv rs1 rs2 : well_logged (rs1 ++ rs2) -> well_logged rs1.
Proof.
  induction rs2 as [|r rs2 IH] using rev_ind; [by rewrite app_nil_r|].
  rewrite app_assoc. intros [Hw _]%well_logged_snoc_inv. by apply IH.
Qed.

Lemma replay_prefix rs1 rs2 :
  well_logged (rs1 ++ rs2) -> no_prepare (rs1 ++ rs2) -> NoDup (begins (rs1 ++ rs2)) ->
  exists st, process_all new rs1 = Ok st /\ replayed rs1 st.
Proof.
  intros Hw [Hp _]%Forall_app Hn. unfold begins in Hn. rewrite omap_app in Hn.
  apply NoDup_app in Hn as [Hn _]. by apply replay_all; [eapply well_logged_app_inv|..].
Qed.

(** Nothing is logged for a transaction behind its commit record, so the
    records up to the commit record hold all its writes. *)
Lemma committed_writes_complete rs1 rs2 txn :
  well_logged (rs1 ++ rs2) -> no_prepare (rs1 ++ rs2) -> NoDup (begins (rs1 ++ rs2)) ->
  txn ∈ commits rs1 -> writes_of (rs1 ++ rs2) txn = writes_of rs1 txn.
Proof.
  intros Hw Hp Hn Hc. induction rs2 as [|r rs2 IH] using rev_ind; [by rewrite app_nil_r|].
  rewrite app_assoc in *. destruct (replay_prefix _ _ Hw Hp Hn) as (st & _ & Hrep).
  apply well_logged_snoc_inv in Hw as [Hw Hg]. pose proof Hp as [Hp' _]%Forall_app.
  pose proof Hn as Hn'. rewrite begins_snoc in Hn'. apply NoDup_app in Hn' as [Hn' _].
  rewrite writes_snoc, IH by done. unfold write_of, guarded in *.
  destruct (WalRecord.data r); simpl; rewrite ?app_nil_r; try done. case_decide as Hd; [|by rewrite app_nil_r].
  subst. destruct (replayed_active _ _ _ Hrep Hg) as (_ & _ & Hnc). exfalso. apply Hnc.
  unfold commits in *. rewrite omap_app, list_to_set_app_L, elem_of_union. by left.
Qed.

(** A prefix of concatenated records is whole records and then a proper
    prefix of the next one. *)
Definition cut_short (bss : list bytes) (k : nat) (torn : bytes) : Prop :=
  match bss !! k with
  | Some bs => exists m, (m < length bs)%nat /\ torn = take m bs
  | None => torn = []
  end.

Lemma take_mjoin (bss : list bytes) n :
  exists k torn, (k <= length bss)%nat /\ take n (mjoin bss) = mjoin (take k bss) ++ torn /\
    cut_short bss k torn.
Proof.
  revert n. induction bss as [|bs bss IH]; intros n; simpl.
  - exists 0%nat, []. by rewrite take_nil.
  - destruct (decide (n < length bs)%nat) as [Hn|Hn].
    + exists 0%nat, (take n bs). simpl. split; [lia|]. split; [|by exists n].
      by rewrite take_app_le by lia.
    + destruct (IH (n - length bs)%nat) as (k & torn & Hk & Ht & Hc). exists (S k), torn.
      split; [lia|]. split; [|done]. simpl. rewrite take_app_ge, Ht by lia. by rewrite app_assoc.
Qed.

Section Torn.
Context `{CodecsLaws} {F : Type} `{FileLaws F}.

(** The read loop over the intact records of a log, whatever follows them. *)
Lemma recover_loop_prefix rs bss : forall fuel st st' (rd : WalReader.t F) pre rest,
  WalReader.ok rd -> contents (WalReader.file rd) = pre ++ mjoin bss ++ rest ->
  WalReader.offset rd = zlen pre ->
  Forall2 (WalReader.logged (WalReader.encryption_key rd)) rs bss -> process_all st rs = Ok st' ->
  recover_loop (length rs + fuel) st rd =
    recover_loop fuel st' (WalReader.set_offset rd (zlen (pre ++ mjoin bss))).
Proof.
  revert bss. induction rs as [|r rs IH]; intros bss fuel st st' rd pre rest Hok Hc Hoff Hl Hp.
  - apply Forall2_nil_inv_l in Hl as ->. injection Hp as ->. rewrite !app_nil_r. simpl. f_equal.
    destruct rd; simpl in *. by subst.
  - apply Forall2_cons_inv_l in Hl as (bs & bss' & Hlr & Hl & ->). simpl in *. inv_ok.
    rewrite (WalReader.read_next_logged rd pre r bs (mjoin bss' ++ rest));
      [|done|by rewrite Hc, <- app_assoc|done..].
    rewrite Hx. rewrite (IH bss' fuel x st' _ (pre ++ bs) rest); simpl; try done.
    + by rewrite <- !app_assoc.
    + apply WalReader.set_offset_ok; [done|zlen_tac].
    + by rewrite Hc, <- !app_assoc.
Qed.

(** What recovery answers for whole records in front of a cut. *)
Lemma recover_cut (f : F) key rs bss k torn st :
  Forall2 (WalReader.logged key) rs bss -> (k <= length bss)%nat -> cut_short bss k torn ->
  contents f = mjoin (take k bss) ++ torn -> zlen (contents f) < 2 ^ 63 ->
  process_all new (take k rs) = Ok st ->
  recover_with_key (Ok f) key = Some
    (if zlen torn <? 31 then Ok (build_result st)
     else Err (CorruptedWal (zlen (mjoin (take k bss))) "Incomplete record")).
Proof.
  intros Hl Hk Hcut Hc Hlen Hst.
  pose proof (Forall2_take _ _ _ k Hl) as Hlk. pose proof (WalReader.logged_len _ _ _ Hlk) as Hle.
  assert (Hopen : WalReader.open (Ok f) key = Ok (WalReader.mk f key 0 (zlen (contents f))))
    by (unfold WalReader.open; simpl; by rewrite get_size_ok).
  unfold recover_with_key. rewrite Hopen.
  unfold WalReader.loop_fuel; cbn [WalReader.file_size]. rewrite Hc, zlen_app.
  replace (S (Z.to_nat (zlen (mjoin (take k bss)) + zlen torn)))
    with (length (take k rs) + S (Z.to_nat (zlen (mjoin (take k bss)) + zlen torn) - length (take k rs)))%nat
    by (pose proof (zlen_nonneg torn); unfold zlen in *; lia).
  assert (Hok : WalReader.ok (WalReader.mk f key 0 (zlen (mjoin (take k bss)) + zlen torn))).
  { split; simpl; [by rewrite Hc, zlen_app|by rewrite <- zlen_app, <- Hc|done]. }
  rewrite (recover_loop_prefix _ _ _ new st _ [] torn Hok Hc eq_refl Hlk Hst).
  set (rd' := WalReader.set_offset _ _).
  assert (Hok' : WalReader.ok rd') by (apply WalReader.set_offset_ok; [done|apply zlen_nonneg]).
  cbn [recover_loop]. destruct (Z.ltb_spec (zlen torn) 31) as [Ht|Ht].
  - by rewrite (WalReader.read_next_end rd' (mjoin (take k bss)) torn) by done.
  - unfold cut_short in Hcut. destruct (bss !! k) as [bs|] eqn:Hbs; [|by subst torn].
    destruct Hcut as (m & Hm & ->). destruct (Forall2_lookup_r _ _ _ _ _ Hl Hbs) as (r & _ & Hr).
    rewrite (WalReader.read_next_torn rd' (mjoin (take k bss)) r bs m); try done.
    unfold zlen in Ht. rewrite length_take in Ht. lia.
Qed.
End Torn.

(** C15: recovery is atomic at every crash point. The log of a reachable
    writer (no two-phase commit, each transaction id begun once) is cut after
    any number of bytes: [k] whole records are left and a proper prefix of
    the next. When less than a record header of that one is left, recovery
    succeeds and returns, for exactly the transactions whose commit record is
    among the [k] records, every write the complete log has for them; when
    more is left, it fails and returns nothing. *)
Theorem recovery_atomic `{CodecsLaws} {F} `{FileLaws F} (w : WalWriter.t F) rs (f : F) n
    (Hr : WalWriter.reachable w rs) (Hb : WalWriter.buffer (WalWriter.state w) = [])
    (Hf : contents f = take n (contents (WalWriter.file w)))
    (Hnp : no_prepare rs) (Hids : NoDup (begins rs)) :
  let key := WalWriter.encryption_key (WalWriter.config w) in
  exists bss k torn,
    Forall2 (WalReader.logged key) rs bss /\ contents (WalWriter.file w) = mjoin bss /\
    contents f = mjoin (take k bss) ++ torn /\ cut_short bss k torn /\
    if zlen torn <? 31 then
      exists res, recover_with_key (Ok f) key = Some (Ok res) /\
        committed_writes res
          = mjoin (map (writes_of rs) (merge_sort Z.le (elements (commits (take k rs))))) /\
        active_transactions res = (WalWriter.scan (take k rs)).2
    else recover_with_key (Ok f) key
      = Some (Err (CorruptedWal (zlen (mjoin (take k bss))) "Incomplete record")).
Proof.
  pose proof (reachable_well_logged w rs Hr) as Hwl.
  destruct (WalWriter.reachable_inv _ _ Hr) as [[(bss & Hl & Him) _ _ _ _ Hlim] _ _ _].
  unfold WalWriter.image in Him, Hlim. rewrite Hb, app_nil_r in Him, Hlim.
  destruct (take_mjoin bss n) as (k & torn & Hk & Ht & Hcut). rewrite <- Him, <- Hf in Ht.
  intros key. exists bss, k, torn. split_and!; try done.
  pose proof (take_drop k rs) as Htd. rewrite <- Htd in Hwl, Hnp, Hids.
  destruct (replay_prefix _ _ Hwl Hnp Hids) as (st & Hst & Hrep).
  assert (Hlen : zlen (contents f) < 2 ^ 63)
    by (rewrite Hf; unfold zlen in *; rewrite length_take; lia).
  rewrite (recover_cut f key rs bss k torn st) by done.
  destruct (zlen torn <? 31); [|done]. eexists. split; [done|].
  rewrite (build_result_spec _ _ Hrep). simpl. split; [|done]. f_equal. apply map_ext_in.
  intros txn Hin%list_elem_of_In. rewrite merge_sort_Permutation, elem_of_elements in Hin.
  rewrite <- Htd at 2. symmetry. by apply committed_writes_complete.
Qed.

(** ** Two-phase commit *)

(** The log of one transaction committed in two phases, as
    [Transaction::commit] writes it. *)
Definition two_phase (txn : TransactionId) (ws : list RecoveredWrite) : list RecordData.t :=
  Begin txn :: map (fun x => Write txn (table_id x) (op_type x) (key x) (value x)) ws
    ++ [Prepare txn; Commit txn].

Lemma process_writes txn s rsw : forall ws st acc,
  map WalRecord.data rsw = map (fun x => Write txn (table_id x) (op_type x) (key x) (value x)) ws ->
  transactions st !! txn = Some s -> transaction_writes st !! txn = Some acc ->
  exists st', process_all st rsw = Ok st' /\ transactions st' = transactions st /\
    writes_of rsw txn = ws.
Proof.
  induction rsw as [|r rsw IH]; intros [|x ws] st acc Hd Ht Hw; try done.
  - by exists st.
  - injection Hd as Hr Hd. unfold process_all; fold process_all. unfold process_record. rewrite Hr.
    unfold process_write. simpl. rewrite Ht, Hw. simpl.
    edestruct (IH ws) as (st' & -> & Htr & Hws); [done| | |];
      [|simpl; apply lookup_insert_eq|]; [done|].
    exists st'. split_and!; [done|done|]. unfold writes_of; simpl. unfold write_of at 1.
    rewrite Hr, decide_True by done. destruct x. f_equal. exact Hws.
Qed.

(** Such records behind any others: the log has the writes and the commit
    record, and the state after them has the transaction as committed with no
    writes, because [Prepare] is processed as a [Begin], which empties the
    writes collected so far. *)
Lemma two_phase_replay txn ws rs st0 :
  map WalRecord.data rs = two_phase txn ws ->
  txn ∈ commits rs /\ writes_of rs txn = ws /\
  exists st, process_all st0 rs = Ok st /\
    transactions st = <[txn := Committed]> (transactions st0) /\
    transactions st !! txn = Some Committed /\ writes_if_committed st txn = [].
Proof.
  intros Hrs. destruct rs as [|rb rs]; [done|]. injection Hrs as Hb Hrs.
  apply fmap_app_inv in Hrs as (rsw & rse & Hw & He & ->).
  destruct rse as [|rp [|rc [|? ?]]]; try done. injection He as Hp Hc.
  unfold process_all; fold process_all. unfold process_record at 1. rewrite Hb. simpl.
  match goal with |- context [process_all ?st (rsw ++ _)] =>
    destruct (process_writes txn Active rsw ws st []) as (st' & Hst & Htr & Hws);
      [done|apply lookup_insert_eq|apply lookup_insert_eq|]
  end.
  rewrite process_all_app, Hst. simpl. unfold process_record. rewrite <- Hp, <- Hc. unfold process_commit. simpl.
  rewrite bool_decide_eq_true_2 by (rewrite lookup_insert_eq; by eexists). simpl.
  change (rb :: rsw ++ [rp; rc]) with ([rb] ++ rsw ++ [rp] ++ [rc]). split_and!.
  - rewrite !app_assoc, commits_snoc. unfold commit_of. rewrite <- Hc. set_solver.
  - unfold writes_of in *. rewrite !omap_app, Hws. simpl. unfold write_of.
    by rewrite Hb, <- Hp, <- Hc, app_nil_r.
  - eexists. split_and!; [done|..]; simpl.
    + rewrite Htr. simpl. by rewrite !insert_insert_eq.
    + apply lookup_insert_eq.
    + unfold writes_if_committed. simpl. by rewrite !lookup_insert_eq.
Qed.

(** A transaction committed in two phases loses all its writes at
    recovery. *)
Theorem two_phase_writes_lost txn ws rs (Hrs : map WalRecord.data rs = two_phase txn ws) :
  exists st, process_all new rs = Ok st /\
    txn ∈ commits rs /\ writes_of rs txn = ws /\ committed_writes (build_result st) = [].
Proof.
  destruct (two_phase_replay txn ws rs new Hrs) as (Hc & Hws & st & Hst & Htr & _ & Hnone).
  exists st. split_and!; try done. simpl.
  rewrite (mjoin_map_filter (fun _ => False) _ (fun _ => [])); [|done|].
  - by induction (keys_in_order _).
  - intros x _. destruct (decide (x = txn)) as [->|Hne]; [done|]. unfold writes_if_committed.
    rewrite Htr, lookup_insert_ne by done. simpl. by rewrite lookup_empty.
Qed.

(** Begin, one put, prepare, commit: what the writer logs for it, and what
    comes back. *)
Definition demo_two_phase : list WalRecord.t :=
  map (fun d => WalRecord.mk 1 0 d CompressionType.None_ EncryptionType.None_)
      [Begin 5; Write 5 1 WriteOpType.Put [1] [2]; Prepare 5; Commit 5].

Lemma two_phase_writes_lost_witness :
  exists st, process_all new demo_two_phase = Ok st /\
    writes_of demo_two_phase 5 = [mkWrite 1 WriteOpType.Put [1] [2]] /\
    committed_writes (build_result st) = [].
Proof.
  destruct (two_phase_writes_lost 5 [mkWrite 1 WriteOpType.Put [1] [2]] demo_two_phase)
    as (st & Hst & _ & Hw & Hc); [reflexivity|]. exists st. split; [exact Hst|]. by split.
Defined.

(** The log of one committed transaction, cut behind its first two records. *)
Definition demo_crash : MemoryFile.t :=
  MemoryFile.mk 0 (MemoryFile.mkData (take 170 (contents (WalWriter.file demo_committed))) Unlocked).

Lemma recovery_atomic_witness :
  let key := WalWriter.encryption_key (WalWriter.config demo_committed) in
  exists bss k torn,
    Forall2 (WalReader.logged (H := ToyCodecs.toy) key) demo_commit_records bss /\
    contents (WalWriter.file demo_committed) = mjoin bss /\
    contents demo_crash = mjoin (take k bss) ++ torn /\ cut_short bss k torn /\
    if zlen torn <? 31 then
      exists res, recover_with_key (H := ToyCodecs.toy) (Ok demo_crash) key = Some (Ok res) /\
        committed_writes res = mjoin (map (writes_of demo_commit_records)
          (merge_sort Z.le (elements (commits (take k demo_commit_records))))) /\
        active_transactions res = (WalWriter.scan (take k demo_commit_records)).2
    else recover_with_key (H := ToyCodecs.toy) (Ok demo_crash) key
      = Some (Err (CorruptedWal (zlen (mjoin (take k bss))) "Incomplete record")).
Proof.
  apply (recovery_atomic (H := ToyCodecs.toy) demo_committed demo_commit_records demo_crash 170).
  - exact demo_committed_reachable.
  - vm_compute. reflexivity.
  - reflexivity.
  - repeat constructor.
  - simpl. apply NoDup_singleton.
Defined.

(** The transaction whose commit record was cut is active and none of its
    writes is recovered. *)
Example demo_crash_result :
  recover_with_key (H := ToyCodecs.toy) (Ok demo_crash) None
    = Some (Ok (mkResult None [] {[5]} 2)).
Proof. vm_compute. reflexivity. Qed.

(** Two transactions that write the same key: transaction 2 commits first,
    transaction 1 last, yet recovery returns transaction 2's write last. *)
Definition demo_order : list WalRecord.t :=
  map (fun d => WalRecord.mk 1 0 d CompressionType.None_ EncryptionType.None_)
      [Begin 1; Begin 2; Write 2 1 WriteOpType.Put [7] [2]; Commit 2;
       Write 1 1 WriteOpType.Put [7] [1]; Commit 1].

Example recovery_order_not_commit_order :
  (st ← process_all new demo_order; Ok (map value (committed_writes (build_result st))))
    = Ok [[1]; [2]].
Proof. vm_compute. reflexivity. Qed.

End WalRecovery.
