(* ===== verification/Mvcc.v ===== *)
(** * Snapshots and version chains ([src/snap.rs], [src/txn/version.rs])

    [Snapshot] decides which committed versions a reader sees, with the
    watermark shortcut of the source; [VersionChain] is the linked list of a
    key's versions, newest first, with the search for the visible version and
    the garbage collection [vacuum]. *)
From stdpp Require Import sorting.
From S2P Require Import Prelude Types.

Module Snapshot.

Record t : Type := mk {
  id : Z;
  name : string;
  lsn : LogSequenceNumber;
  created_at : Z;
  size_bytes : Z;
  min_active_txn : TransactionId;
  active_txns : gset TransactionId;
}.

(** [iter().min()]. *)
Definition minimum (l : list TransactionId) : option TransactionId :=
  match l with [] => None | x :: l => Some (foldl Z.min x l) end.

Definition new (id : Z) (name : string) (lsn : LogSequenceNumber) (created_at size_bytes : Z)
    (active_txn_list : list TransactionId) : t :=
  mk id name lsn created_at size_bytes
     (default 0 (minimum active_txn_list)) (list_to_set active_txn_list).

Definition is_visible (s : t) (version_lsn : LogSequenceNumber) (created_by : TransactionId) : bool :=
  if lsn s <? version_lsn then false
  else if created_by <? min_active_txn s then true
  else negb (bool_decide (created_by ∈ active_txns s)).

Lemma foldl_min_le x l : foldl Z.min x l <= x /\ Forall (fun y => foldl Z.min x l <= y) l.
Proof.
  revert x. induction l as [|y l IH]; intros x; simpl; [split; [lia|constructor]|].
  destruct (IH (Z.min x y)) as [Hle Hall]. split; [lia|]. constructor; [lia|done].
Qed.

(** The watermark is below every active transaction. *)
Lemma minimum_le l x : x ∈ l -> default 0 (minimum l) <= x.
Proof.
  destruct l as [|y l]; [by intros ?%elem_of_nil|]. simpl.
  destruct (foldl_min_le y l) as [Hle Hall]. intros [->|Hx]%elem_of_cons; [lia|].
  by eapply Forall_forall in Hall.
Qed.

(** What the two tests mean together. *)
Definition watermark_ok (s : t) : Prop := forall x, x ∈ active_txns s -> min_active_txn s <= x.

Lemma is_visible_spec s l c :
  watermark_ok s -> is_visible s l c = true <-> l <= lsn s /\ c ∉ active_txns s.
Proof.
  intros Hw. unfold is_visible. destruct (Z.ltb_spec (lsn s) l); [split; [done|lia]|].
  destruct (Z.ltb_spec c (min_active_txn s)).
  - split; [|done]. intros _. split; [lia|]. intros Hc%Hw. lia.
  - rewrite negb_true_iff, bool_decide_eq_false. tauto.
Qed.

Lemma new_watermark_ok id name l c sz txns : watermark_ok (new id name l c sz txns).
Proof. intros x Hx%elem_of_list_to_set. by apply minimum_le. Qed.

(** The watermark shortcut changes nothing: a snapshot taken with a list
    of active transactions sees a version exactly when the version was
    committed at or before the snapshot's LSN by a transaction not on the
    list. *)
Theorem new_is_visible id name l c sz txns version_lsn created_by :
  is_visible (new id name l c sz txns) version_lsn created_by
    = bool_decide (version_lsn <= l /\ created_by ∉ txns).
Proof.
  apply eq_true_iff_eq. rewrite bool_decide_eq_true, is_visible_spec by apply new_watermark_ok.
  simpl. by rewrite elem_of_list_to_set.
Qed.

End Snapshot.

Module VersionValue.
Inductive t : Type :=
  | Inline (data : bytes)
  | External (value_ref : ValueRef.t).
#[global] Instance t_eq_dec : EqDecision t.
Proof. solve_decision. Defined.

Definition inline (data : bytes) : t := Inline data.
Definition external (r : ValueRef.t) : t := External r.
Definition is_inline (v : t) : bool := match v with Inline _ => true | _ => false end.
Definition is_external (v : t) : bool := match v with External _ => true | _ => false end.
Definition as_inline (v : t) : option bytes := match v with Inline d => Some d | _ => None end.
Definition as_external (v : t) : option ValueRef.t :=
  match v with External r => Some r | _ => None end.
Definition size_hint (v : t) : option Z :=
  match v with Inline d => Some (zlen d) | External r => ValueRef.size_hint r end.
Definition is_empty (v : t) : bool :=
  match v with
  | Inline d => zlen d =? 0
  | External r => match ValueRef.size_hint r with Some n => n =? 0 | None => false end
  end.
Definition len (v : t) : Z :=
  match v with
  | Inline d => zlen d
  | External r => match ValueRef.size_hint r with Some n => n | None => 0 end
  end.
Definition to_vec (v : t) : option bytes := match v with Inline d => Some d | _ => None end.
Definition as_slice (v : t) : option bytes := match v with Inline d => Some d | _ => None end.
Definition eq (a b : t) : bool :=
  match a, b with
  | Inline x, Inline y => bytes_eqb x y
  | External x, External y => bool_decide (x = y)
  | _, _ => false
  end.
End VersionValue.

Module VersionChain.

#[warnings="-register-all"] Inductive t : Type := mk {
  value : VersionValue.t;
  created_by : TransactionId;
  commit_lsn : option LogSequenceNumber;
  prev_version : option t;
}.

Definition new (v : bytes) (txn : TransactionId) : t := mk (VersionValue.Inline v) txn None None.
Definition new_external (r : ValueRef.t) (txn : TransactionId) : t :=
  mk (VersionValue.External r) txn None None.
Definition commit (c : t) (lsn : LogSequenceNumber) : t :=
  mk (value c) (created_by c) (Some lsn) (prev_version c).
Definition prepend (c : t) (v : bytes) (txn : TransactionId) : t :=
  mk (VersionValue.Inline v) txn None (Some c).
Definition prepend_external (c : t) (r : ValueRef.t) (txn : TransactionId) : t :=
  mk (VersionValue.External r) txn None (Some c).

(** The test of one version in the loop of [find_visible_version]. *)
Definition visible (s : Snapshot.t) (commit_lsn : option LogSequenceNumber) (txn : TransactionId)
    : bool :=
  match commit_lsn with Some l => Snapshot.is_visible s l txn | None => false end.

Fixpoint find_visible_version (c : t) (s : Snapshot.t) : option VersionValue.t :=
  if visible s (commit_lsn c) (created_by c) then Some (value c)
  else match prev_version c with
       | Some p => find_visible_version p s
       | None => None
       end.

Definition find_visible_inline (c : t) (s : Snapshot.t) : option bytes :=
  match find_visible_version c s with
  | Some (VersionValue.Inline data) => Some data
  | Some (VersionValue.External _) => None
  | None => None
  end.

(** [matches!(commit_lsn, Some(lsn) if lsn < min_visible_lsn)]. *)
Definition obsolete (m : LogSequenceNumber) (commit_lsn : option LogSequenceNumber) : bool :=
  match commit_lsn with Some l => l <? m | None => false end.

Definition ref_of (v : VersionValue.t) : list ValueRef.t :=
  match v with VersionValue.External r => [r] | _ => [] end.

(** [retain_obsolete_versions]: the node rebuilt, the budget left and the
    references pushed so far. *)
Fixpoint retain_obsolete_versions (c : t) (m : LogSequenceNumber) (budget : nat)
    (freed : list ValueRef.t) : t * nat * list ValueRef.t :=
  let '(rebuilt_prev, budget, freed) :=
    match prev_version c with
    | Some p =>
        let '(p', b, f) := retain_obsolete_versions p m budget freed in (Some p', b, f)
    | None => (None, budget, freed)
    end in
  let keep_this_obsolete := obsolete m (commit_lsn c) && (0 <? budget)%nat in
  let budget := if keep_this_obsolete then (budget - 1)%nat else budget in
  let will_be_removed := obsolete m (commit_lsn c) && negb keep_this_obsolete in
  let freed := if will_be_removed then freed ++ ref_of (value c) else freed in
  let prev := if will_be_removed
              then match rebuilt_prev with Some p => prev_version p | None => None end
              else rebuilt_prev in
  (mk (value c) (created_by c) (commit_lsn c) prev, budget, freed).

Fixpoint count_removable_obsolete_versions (c : t) (m : LogSequenceNumber) : nat :=
  ((if obsolete m (commit_lsn c) then 1 else 0) +
   match prev_version c with
   | Some p => count_removable_obsolete_versions p m
   | None => 0
   end)%nat.

(** [vacuum]: the number of removed versions and the freed references, with
    the chain left. *)
Definition vacuum (c : t) (m : LogSequenceNumber) : nat * list ValueRef.t * t :=
  let removed := (count_removable_obsolete_versions c m - 1)%nat in
  if (removed =? 0)%nat then (0%nat, [], c)
  else
    let '(c', _, freed) := retain_obsolete_versions c m 1 [] in
    (removed, freed, c').

Fixpoint collect_external_refs (c : t) : list ValueRef.t :=
  ref_of (value c) ++
  match prev_version c with Some p => collect_external_refs p | None => [] end.

(** ** The chain as a list, newest version first *)
Record Version : Type := mkVersion {
  v_value : VersionValue.t;
  v_created_by : TransactionId;
  v_commit_lsn : option LogSequenceNumber;
}.

Definition head (c : t) : Version := mkVersion (value c) (created_by c) (commit_lsn c).

Fixpoint versions (c : t) : list Version :=
  mkVersion (value c) (created_by c) (commit_lsn c)
    :: match prev_version c with Some p => versions p | None => [] end.

Definition sees (s : Snapshot.t) (x : Version) : Prop :=
  visible s (v_commit_lsn x) (v_created_by x) = true.
Definition old (m : LogSequenceNumber) (x : Version) : Prop := obsolete m (v_commit_lsn x) = true.
#[global] Instance sees_dec s x : Decision (sees s x).
Proof. unfold sees. apply _. Defined.
#[global] Instance old_dec m x : Decision (old m x).
Proof. unfold old. apply _. Defined.

(** [newer a b]: a version with commit LSN [a] may stand in front of one with
    [b]: uncommitted versions come first, committed ones by falling LSN. *)
Definition newer (a b : Version) : Prop :=
  match v_commit_lsn a, v_commit_lsn b with
  | None, _ => True
  | Some la, Some lb => lb < la
  | Some _, None => False
  end.
Definition well_ordered (c : t) : Prop := StronglySorted newer (versions c).

Lemma chain_ind (P : t -> Prop)
    (Hlast : forall v b l, P (mk v b l None))
    (Hcons : forall v b l p, P p -> P (mk v b l (Some p))) : forall c, P c.
Proof.
  fix IH 1. intros [v b l [p|]]; [apply Hcons, IH|apply Hlast].
Qed.

Lemma versions_eq c :
  versions c = head c :: match prev_version c with Some p => versions p | None => [] end.
Proof. by destruct c. Qed.

(** The search is a search in the list. *)
Lemma find_visible_filter c s :
  find_visible_version c s = v_value <$> hd_error (filter (sees s) (versions c)).
Proof.
  induction c as [v b l|v b l p IH] using chain_ind; simpl; rewrite filter_cons;
    unfold sees at 1; simpl; case_decide as Hd.
  - by rewrite Hd.
  - by apply not_true_is_false in Hd as ->.
  - by rewrite Hd.
  - by apply not_true_is_false in Hd as ->.
Qed.

Lemma count_filter c m :
  count_removable_obsolete_versions c m = length (filter (old m) (versions c)).
Proof.
  induction c as [v b l|v b l p IH] using chain_ind; simpl; rewrite filter_cons;
    unfold old at 1; simpl; case_decide as Hd.
  - by rewrite Hd.
  - by apply not_true_is_false in Hd as ->.
  - by rewrite Hd, IH.
  - by apply not_true_is_false in Hd as ->.
Qed.

(** The references pushed for a chain of obsolete versions: those of every
    version but the oldest. *)
Fixpoint pushed_refs (c : t) : list ValueRef.t :=
  match prev_version c with
  | None => []
  | Some p => pushed_refs p ++ ref_of (value c)
  end.

Lemma retain_all_old c m f :
  Forall (old m) (versions c) ->
  retain_obsolete_versions c m 1 f
    = (mk (value c) (created_by c) (commit_lsn c) None, 0%nat, f ++ pushed_refs c).
Proof.
  induction c as [v b l|v b l p IH] using chain_ind; intros [Hh Ht]%Forall_cons;
    unfold old in Hh; simpl in *.
  - rewrite Hh. simpl. by rewrite app_nil_r.
  - rewrite IH by done. rewrite Hh. simpl. by rewrite app_assoc.
Qed.

(** Uncommitted and recent versions in front of obsolete ones: the newest
    obsolete version is kept, the rest goes. *)
Lemma retain_split c m f nw o od :
  versions c = nw ++ o :: od -> Forall (fun x => ~ old m x) nw -> Forall (old m) (o :: od) ->
  exists c' fr, retain_obsolete_versions c m 1 f = (c', 0%nat, fr) /\ versions c' = nw ++ [o].
Proof.
  revert nw. induction c as [v b l|v b l p IH] using chain_ind; intros nw Hv Hn Ho.
  - destruct nw as [|? [|??]]; [|done..]. injection Hv as <- <-. apply Forall_cons in Ho as [Ho _].
    unfold old in Ho. simpl in *. rewrite Ho. simpl. by eexists _, _.
  - destruct nw as [|x nw].
    + pose proof Hv as Hv'. injection Hv' as <- Hp.
      rewrite retain_all_old by (by rewrite Hv). by eexists _, _.
    + injection Hv as <- Hp. apply Forall_cons in Hn as [Hx Hn].
      destruct (IH nw Hp Hn Ho) as (c' & fr & Hr & Hc').
      apply not_true_is_false in Hx. simpl in Hx |- *. rewrite Hr, Hx. simpl.
      eexists _, _. split; [done|]. simpl. by rewrite Hc'.
Qed.

(** In a well ordered chain the obsolete versions are the tail. *)
Lemma well_ordered_split m l :
  StronglySorted newer l -> exists nw od, l = nw ++ od /\ Forall (fun x => ~ old m x) nw /\ Forall (old m) od.
Proof.
  induction 1 as [|x l Hl IH Hx]; [by exists [], []|].
  destruct (decide (old m x)) as [Hold|Hnew].
  - exists [], (x :: l). split_and!; [done|constructor|]. constructor; [done|].
    apply Forall_forall. intros y Hy. eapply Forall_forall in Hx; [|done].
    unfold newer, old, obsolete in *. destruct (v_commit_lsn x), (v_commit_lsn y); try done. lia.
  - destruct IH as (nw & od & -> & Hn & Ho). exists (x :: nw), od. split_and!; [done|by constructor|done].
Qed.

Lemma sees_lsn s x : sees s x -> exists l, v_commit_lsn x = Some l.
Proof. unfold sees, visible. destruct (v_commit_lsn x); [eauto|done]. Qed.

Lemma filter_hd_sorted s l x rest :
  StronglySorted newer l -> filter (sees s) l = x :: rest ->
  x ∈ l /\ sees s x /\
  forall y, y ∈ l -> sees s y -> y = x \/ newer x y.
Proof.
  induction 1 as [|z l Hl IH Hz]; [done|]. rewrite filter_cons. case_decide as Hd.
  - injection 1 as <- <-. split_and!; [by left|done|].
    intros y [->|Hy]%elem_of_cons Hs; [by left|]. right. by eapply Forall_forall in Hz.
  - intros Hf. destruct (IH Hf) as (Hx & Hs & Hall). split_and!; [by right|done|].
    intros y [->|Hy]%elem_of_cons Hsy; [done|by apply Hall].
Qed.

(** On a chain in commit order, [find_visible_version] returns the value
    of the newest version the snapshot sees: the one with the largest commit
    LSN among the committed versions at or below the snapshot's LSN whose
    creator was not active; and [None] exactly when there is none. *)
Theorem find_visible_newest c s (Ho : well_ordered c) :
  match find_visible_version c s with
  | Some v => exists x l, x ∈ versions c /\ sees s x /\ v_value x = v /\ v_commit_lsn x = Some l /\
      forall y ly, y ∈ versions c -> sees s y -> v_commit_lsn y = Some ly -> y = x \/ ly < l
  | None => forall x, x ∈ versions c -> ~ sees s x
  end.
Proof.
  rewrite find_visible_filter. destruct (filter (sees s) (versions c)) as [|x rest] eqn:Hf; simpl.
  - intros x Hx Hs. assert (x ∈ filter (sees s) (versions c)) as Hin by (by apply list_elem_of_filter).
    rewrite Hf in Hin. by apply elem_of_nil in Hin.
  - destruct (filter_hd_sorted s _ _ _ Ho Hf) as (Hx & Hs & Hall).
    destruct (sees_lsn _ _ Hs) as [l Hl]. exists x, l. split_and!; try done.
    intros y ly Hy Hsy Hly. destruct (Hall y Hy Hsy) as [->|Hn]; [by left|].
    right. unfold newer in Hn. by rewrite Hl, Hly in Hn.
Qed.

(** Three versions: one uncommitted, two committed at LSN 8 and 3. *)
Definition demo_chain : t :=
  mk (VersionValue.External (ValueRef.SinglePage 9 0 4)) 7 None
    (Some (mk (VersionValue.External (ValueRef.SinglePage 2 0 4)) 5 (Some 8)
      (Some (mk (VersionValue.External (ValueRef.SinglePage 1 0 4)) 4 (Some 3) None)))).
Definition demo_snapshot : Snapshot.t := Snapshot.new 1 "s" 9 0 0 [7].

Lemma demo_well_ordered : well_ordered demo_chain.
Proof. unfold well_ordered. repeat constructor; unfold newer; simpl; lia. Qed.

Lemma find_visible_newest_witness :
  exists x l, x ∈ versions demo_chain /\ sees demo_snapshot x /\
    v_value x = VersionValue.External (ValueRef.SinglePage 2 0 4) /\ v_commit_lsn x = Some l /\
    forall y ly, y ∈ versions demo_chain -> sees demo_snapshot y -> v_commit_lsn y = Some ly ->
      y = x \/ ly < l.
Proof. exact (find_visible_newest demo_chain demo_snapshot demo_well_ordered). Defined.

(** What [vacuum] keeps. *)
Lemma vacuum_keeps c m s removed freed c'
    (Ho : well_ordered c) (Hm : m <= Snapshot.lsn s)
    (Hs : forall x, x ∈ versions c -> old m x ->
          Snapshot.is_visible s (default 0 (v_commit_lsn x)) (v_created_by x) = true)
    (Hv : vacuum c m = (removed, freed, c')) :
  find_visible_version c' s = find_visible_version c s /\
  well_ordered c' /\ versions c' `prefix_of` versions c /\
  length (versions c) = (length (versions c') + removed)%nat /\
  (forall x, x ∈ versions c -> ~ old m x -> x ∈ versions c').
Proof.
  destruct (well_ordered_split m _ Ho) as (nw & od & Hl & Hn & Hod).
  unfold vacuum in Hv. rewrite count_filter, Hl, filter_app in Hv.
  rewrite (filter_none (old m) nw Hn), (filter_every (old m) od Hod) in Hv. simpl in Hv.
  destruct od as [|o [|o' od]]; simpl in Hv; [| |].
  - injection Hv as <- _ <-. split_and!; try done; lia.
  - injection Hv as <- _ <-. split_and!; try done; lia.
  - destruct (retain_split c m [] nw o (o' :: od) Hl Hn Hod) as (c1 & fr & Hr & Hc1).
    rewrite Hr in Hv. injection Hv as <- _ <-.
    assert (Heq : versions c = (nw ++ [o]) ++ o' :: od) by (by rewrite Hl, <- app_assoc).
    apply Forall_cons in Hod as [Hoo Hod'].
    assert (Hseen : sees s o).
    { unfold sees, visible. specialize (Hs o). rewrite Hl in Hs.
      unfold old, obsolete in Hoo, Hs. destruct (v_commit_lsn o); [|done].
      apply Hs; [|done]. apply elem_of_app. right. by left. }
    split_and!.
    + rewrite !find_visible_filter, Hc1, Hl, !filter_app, !filter_cons, !decide_True by done.
      by destruct (filter (sees s) nw).
    + unfold well_ordered. rewrite Hc1. eapply StronglySorted_app_l. by rewrite <- Heq.
    + rewrite Hc1, Heq. by apply prefix_app_r.
    + rewrite Hc1, Heq, !length_app. simpl. lia.
    + intros x. rewrite Hc1, Hl, !elem_of_app. intros [Hx|Hx] Hno; [by left|].
      exfalso. apply Hno. apply elem_of_cons in Hx as [->|Hx]; [done|].
      by eapply Forall_forall in Hod'.
Qed.

(** C30: [vacuum] never changes what a live snapshot reads: on a chain in
    commit order, for every snapshot at or above the watermark that does not
    list the creator of an obsolete version as active, the visible version is
    the same before and after; the chain keeps every uncommitted and recent
    version and the newest obsolete one, stays in order, and the count
    returned is the number of versions dropped. *)
Theorem vacuum_preserves c m s removed freed c'
    (Ho : well_ordered c) (Hm : m <= Snapshot.lsn s)
    (Hs : forall x, x ∈ versions c -> old m x ->
          Snapshot.is_visible s (default 0 (v_commit_lsn x)) (v_created_by x) = true)
    (Hv : vacuum c m = (removed, freed, c')) :
  find_visible_version c' s = find_visible_version c s /\
  well_ordered c' /\ versions c' `prefix_of` versions c /\
  length (versions c) = (length (versions c') + removed)%nat /\
  (forall x, x ∈ versions c -> ~ old m x -> x ∈ versions c').
Proof. exact (vacuum_keeps c m s removed freed c' Ho Hm Hs Hv). Qed.

Lemma vacuum_preserves_witness :
  find_visible_version (snd (vacuum demo_chain 9)) demo_snapshot
    = find_visible_version demo_chain demo_snapshot.
Proof.
  refine (proj1 (vacuum_preserves demo_chain 9 demo_snapshot 1
    [ValueRef.SinglePage 2 0 4] (snd (vacuum demo_chain 9)) demo_well_ordered _ _ _)).
  - simpl. lia.
  - intros x Hx. simpl in Hx. rewrite !elem_of_cons, elem_of_nil in Hx.
    destruct Hx as [->|[->|[->|[]]]]; intros Hold; vm_compute in Hold |- *; congruence.
  - vm_compute. reflexivity.
Defined.

(** [vacuum] tells its caller to free the wrong pages: when every
    version of a chain of at least two is obsolete, it keeps the newest one,
    and the list of references to free holds the references of all versions
    but the oldest, the kept one's included. *)
Theorem vacuum_frees_kept_ref c m r p
    (Hold : Forall (old m) (versions c)) (Hprev : prev_version c = Some p)
    (Href : value c = VersionValue.External r) :
  exists removed freed c', vacuum c m = (removed, freed, c') /\
    freed = pushed_refs c /\ r ∈ freed /\ collect_external_refs c' = [r].
Proof.
  exists (length (versions c) - 1)%nat, (pushed_refs c), (mk (value c) (created_by c) (commit_lsn c) None).
  split_and!.
  - unfold vacuum. rewrite count_filter, filter_every by done.
    destruct c as [v b l pr]; simpl in *. subst pr. simpl in *. rewrite (versions_eq p) at 1. simpl.
    destruct (versions p) as [|x rest] eqn:Hp; [by rewrite versions_eq in Hp|].
    pose proof (retain_all_old (mk v b l (Some p)) m []) as Hr. simpl in Hr. rewrite Hr; [done|].
    by rewrite Hp.
  - done.
  - destruct c; simpl in *. subst. simpl. apply elem_of_app. right. by left.
  - simpl. by rewrite Href.
Qed.

Lemma vacuum_frees_kept_ref_witness :
  exists removed freed c',
    vacuum (mk (VersionValue.External (ValueRef.SinglePage 2 0 4)) 5 (Some 8)
              (Some (mk (VersionValue.External (ValueRef.SinglePage 1 0 4)) 4 (Some 3) None))) 9
      = (removed, freed, c') /\
    ValueRef.SinglePage 2 0 4 ∈ freed /\ collect_external_refs c' = [ValueRef.SinglePage 2 0 4].
Proof.
  destruct (vacuum_frees_kept_ref
    (mk (VersionValue.External (ValueRef.SinglePage 2 0 4)) 5 (Some 8)
       (Some (mk (VersionValue.External (ValueRef.SinglePage 1 0 4)) 4 (Some 3) None))) 9
    (ValueRef.SinglePage 2 0 4)
    (mk (VersionValue.External (ValueRef.SinglePage 1 0 4)) 4 (Some 3) None))
    as (n & f & c' & H1 & _ & H2 & H3).
  - repeat constructor.
  - reflexivity.
  - reflexivity.
  - exists n, f, c'. split; [exact H1|]. split; [exact H2|exact H3].
Defined.

End VersionChain.
