(* ===== verification/Conflict.v ===== *)
(** * Conflict and deadlock detection ([src/txn/conflict.rs])

    [ConflictDetector] is the table of write locks.  [DeadlockDetector] is
    the wait-for graph with its depth-first search for a cycle: the recursion
    of [dfs_detect_cycle] is on fuel, and [detect_cycle] gives it one more
    unit than the graph has nodes, which [detect_cycle_spec] shows to be
    enough.  The iteration order of the hash map and the hash set is an
    argument. *)
From S2P Require Import Prelude Types.

Inductive ConflictType : Type := WriteWrite | ReadWrite | Serialization.

(** The errors of [src/txn/error.rs]; formatted text is left out. *)
Inductive TransactionError : Type :=
  | InvalidState (transaction_id : TransactionId) (current_state attempted_operation : string)
  | WriteWriteConflict (object_id : TableId) (key : bytes) (holder requester : TransactionId)
  | ReadWriteConflict (object_id : TableId) (key : bytes) (reader writer : TransactionId)
  | SerializationConflict (transaction_id : TransactionId)
  | TxnNotFound (transaction_id : TransactionId) (context : string)
  | Deadlock (transaction_id : TransactionId) (involved : list TransactionId)
  | Other.

Module ConflictDetector.

Abbreviation LockKey := (TableId * bytes)%type.

Record t : Type := mk { write_locks : gmap (Z * list Z) TransactionId }.

Definition new : t := mk ∅.

Definition check_write_conflict (d : t) (object_id : TableId) (key : bytes) (txn : TransactionId)
    : outcome TransactionError unit :=
  match write_locks d !! (object_id, key) with
  | Some other_txn =>
      if other_txn =? txn then Ok tt
      else Err (WriteWriteConflict object_id key other_txn txn)
  | None => Ok tt
  end.

Definition acquire_write_lock (d : t) (object_id : TableId) (key : bytes) (txn : TransactionId) : t :=
  mk (<[(object_id, key) := txn]> (write_locks d)).

Definition release_locks (d : t) (txn : TransactionId) : t :=
  mk (filter (fun p => p.2 <> txn) (write_locks d)).

(** The loop over the read set, in the order [read_set]. *)
Fixpoint check_read_write_conflicts (d : t) (read_set : list (Z * list Z)) (txn : TransactionId)
    : outcome TransactionError unit :=
  match read_set with
  | [] => Ok tt
  | (object_id, key) :: rest =>
      match write_locks d !! (object_id, key) with
      | Some other_txn =>
          if other_txn =? txn then check_read_write_conflicts d rest txn
          else Err (ReadWriteConflict object_id key txn other_txn)
      | None => check_read_write_conflicts d rest txn
      end
  end.

(** A transaction's write: the check, and the lock when it passes. *)
Definition lock (d : t) (object_id : TableId) (key : bytes) (txn : TransactionId)
    : outcome TransactionError t :=
  _ ← check_write_conflict d object_id key txn;
  Ok (acquire_write_lock d object_id key txn).

Definition holds (d : t) (txn : TransactionId) (k : Z * list Z) : Prop :=
  write_locks d !! k = Some txn.

(** The protocol over time: transactions lock keys and release all their
    locks. *)
Inductive event : Type :=
  | Locked (txn : TransactionId) (object_id : TableId) (key : bytes)
  | Released (txn : TransactionId).

Inductive step : t -> event -> t -> Prop :=
  | step_lock d o k txn d' : lock d o k txn = Ok d' -> step d (Locked txn o k) d'
  | step_release d txn : step d (Released txn) (release_locks d txn).

Inductive steps : t -> list event -> t -> Prop :=
  | steps_nil d : steps d [] d
  | steps_snoc d es d' e d'' : steps d es d' -> step d' e d'' -> steps d (es ++ [e]) d''.

(** The abstract lock table: what a history of events says of a key, the
    last grant not followed by a release of its holder. *)
Definition holder_step (h : option TransactionId) (k : Z * list Z) (e : event)
    : option TransactionId :=
  match e with
  | Locked txn o key => if decide ((o, key) = k) then Some txn else h
  | Released txn => if decide (h = Some txn) then None else h
  end.
Definition holder (es : list event) (k : Z * list Z) : option TransactionId :=
  foldl (fun h e => holder_step h k e) None es.

Lemma step_holder d e d' k h :
  step d e d' -> write_locks d !! k = h -> write_locks d' !! k = holder_step h k e.
Proof.
  intros Hs <-. destruct Hs as [d o key txn d' Hl|d txn]; simpl.
  - unfold lock in Hl. inv_ok. injection Hl as <-. simpl. rewrite lookup_insert. by case_decide.
  - destruct (write_locks d !! k) as [x|] eqn:Hx; case_decide as Hd; try done.
    + injection Hd as ->. apply map_lookup_filter_None_2. right. simpl. intros y Hy. congruence.
    + apply map_lookup_filter_Some_2; [done|]. simpl. congruence.
    + apply map_lookup_filter_None_2. by left.
Qed.

Lemma steps_holder es d k : steps new es d -> write_locks d !! k = holder es k.
Proof.
  intros Hs. remember new as d0 eqn:E. induction Hs as [d|d es d' e d'' Hs IH He]; subst.
  - simpl. apply lookup_empty.
  - unfold holder. rewrite foldl_app. simpl. eapply step_holder; [done|by apply IH].
Qed.

(** A grant and a release, on the table. *)
Lemma acquire_lookup d o key txn k :
  write_locks (acquire_write_lock d o key txn) !! k
    = if decide ((o, key) = k) then Some txn else write_locks d !! k.
Proof. simpl. rewrite lookup_insert. by repeat case_decide. Qed.

Lemma release_lookup d txn k :
  write_locks (release_locks d txn) !! k
    = if decide (write_locks d !! k = Some txn) then None else write_locks d !! k.
Proof. exact (step_holder d (Released txn) _ k _ (step_release d txn) eq_refl). Qed.

(** C32: write locks are exclusive over every history of successful locks
    and releases: the table holds a key for the transaction it was last granted
    to, unless that one has released its locks since; a transaction can lock
    a free key or its own, which changes the holder of this key only, and
    fails with a conflict naming the holder when another one holds it; a
    release frees all keys of its transaction and no other key. *)
Theorem lock_exclusion es d (Hs : steps new es d) :
  (forall k, write_locks d !! k = holder es k) /\
  (forall o key txn,
     match holder es (o, key) with
     | Some h => if decide (h = txn) then exists d', lock d o key txn = Ok d' /\
                   forall k, write_locks d' !! k = holder es k
                 else lock d o key txn = Err (WriteWriteConflict o key h txn)
     | None => exists d', lock d o key txn = Ok d' /\
                 forall k, write_locks d' !! k = if decide ((o, key) = k) then Some txn else holder es k
     end) /\
  (forall txn k, write_locks (release_locks d txn) !! k
     = if decide (holder es k = Some txn) then None else holder es k).
Proof.
  pose proof (fun k => steps_holder es d k Hs) as Hh. split_and!; [done| |].
  - intros o key txn. pose proof (acquire_lookup d o key txn) as Hacq.
    unfold lock, check_write_conflict. rewrite Hh. destruct (holder es (o, key)) as [h|] eqn:Hk; simpl.
    + destruct (Z.eqb_spec h txn); case_decide; try done. simpl. eexists. split; [done|].
      intros k. rewrite Hacq. case_decide; [naive_solver|apply Hh].
    + eexists. split; [done|]. intros k. by rewrite Hacq, Hh.
  - intros txn k. by rewrite release_lookup, Hh.
Qed.

(** Transaction 7 locks a key and is the only one to get it again, until it
    releases its locks; then transaction 8 locks it. *)
Lemma lock_exclusion_witness :
  let d := acquire_write_lock new 1 [2] 7 in
  lock d 1 [2] 8 = Err (WriteWriteConflict 1 [2] 7 8) /\
  exists d', lock (release_locks d 7) 1 [2] 8 = Ok d' /\ write_locks d' !! (1, [2]) = Some 8.
Proof.
  intros d. assert (Hs : steps new [Locked 7 1 [2]] d).
  { apply (steps_snoc new [] new); [constructor|]. by constructor. }
  split.
  - exact (proj1 (proj2 (lock_exclusion _ _ Hs)) 1 [2] 8).
  - pose proof (steps_snoc _ _ _ _ _ Hs (step_release d 7)) as Hs'.
    destruct (proj1 (proj2 (lock_exclusion _ _ Hs')) 1 [2] 8) as (d' & Hl & Hk).
    exists d'. split; [exact Hl|]. rewrite Hk. reflexivity.
Defined.

Lemma check_read_write_spec d rs txn :
  check_read_write_conflicts d rs txn = Ok tt <->
  forall k other, k ∈ rs -> holds d other k -> other = txn.
Proof.
  unfold holds. induction rs as [|[o key] rs IH]; simpl.
  - split; [|done]. by intros _ k other ?%elem_of_nil.
  - setoid_rewrite elem_of_cons.
    destruct (write_locks d !! (o, key)) as [x|] eqn:Hx.
    + destruct (Z.eqb_spec x txn) as [->|Hne].
      * rewrite IH. clear IH. split; [|naive_solver]. intros Hall k other [->|Hk] Hh; naive_solver.
      * split; [done|]. intros Hall. exfalso. apply Hne, (Hall (o, key)); [by left|done].
    + rewrite IH. clear IH. split; [|naive_solver]. intros Hall k other [->|Hk] Hh; naive_solver.
Qed.

(** The serializable check passes exactly when no other transaction
    holds a write lock on a key of the read set, whatever order the set is
    iterated in. *)
Theorem check_read_write_conflicts_spec (d : t) (read_set : gset (Z * list Z)) order txn
    (Horder : order ≡ₚ elements read_set) :
  check_read_write_conflicts d order txn = Ok tt <->
  forall k other, k ∈ read_set -> write_locks d !! k = Some other -> other = txn.
Proof.
  rewrite check_read_write_spec. unfold holds. setoid_rewrite Horder.
  by setoid_rewrite elem_of_elements.
Qed.

Lemma check_read_write_conflicts_spec_witness :
  check_read_write_conflicts (acquire_write_lock new 1 [2] 7) [(1, [2])] 7 = Ok tt.
Proof.
  apply (check_read_write_conflicts_spec _ {[(1, [2])]}).
  - by rewrite elements_singleton.
  - intros k other ->%elem_of_singleton. vm_compute. congruence.
Defined.

End ConflictDetector.

Module DeadlockDetector.

Record t : Type := mk { wait_for_graph : gmap TransactionId (list TransactionId) }.

Definition new : t := mk ∅.

Definition add_wait (d : t) (waiter holder : TransactionId) : t :=
  mk (<[waiter := default [] (wait_for_graph d !! waiter) ++ [holder]]> (wait_for_graph d)).

Definition remove_wait (d : t) (waiter : TransactionId) : t :=
  mk (delete waiter (wait_for_graph d)).

(** The three mutable arguments of the search. *)
Record St : Type := mkSt {
  visited : gset TransactionId;
  rec_stack : gset TransactionId;
  path : list TransactionId;
}.

(** [Err tt] is the fuel running out, [Panic] the [unwrap] of a position that
    is not there; [Ok (Some cycle, _)] the early return with a cycle. *)
Definition Search : Type := outcome unit (option (list TransactionId) * St).

(** The loop over the neighbours of a node, given the recursive call. *)
Fixpoint visit_neighbors (dfs : TransactionId -> St -> Search) (neighbors : list TransactionId)
    (st : St) : Search :=
  match neighbors with
  | [] => Ok (None, st)
  | neighbor :: rest =>
      if bool_decide (neighbor ∉ visited st) then
        '(found, st') ← dfs neighbor st;
        match found with
        | Some cycle => Ok (Some cycle, st')
        | None => visit_neighbors dfs rest st'
        end
      else if bool_decide (neighbor ∈ rec_stack st) then
        p ← unwrap (list_find (fun id => id = neighbor) (path st));
        Ok (Some (drop p.1 (path st)), st)
      else visit_neighbors dfs rest st
  end.

Fixpoint dfs_detect_cycle (fuel : nat) (d : t) (current : TransactionId) (st : St) : Search :=
  match fuel with
  | O => Err tt
  | S fuel =>
      let st := mkSt ({[current]} ∪ visited st) ({[current]} ∪ rec_stack st) (path st ++ [current]) in
      '(found, st) ←
        match wait_for_graph d !! current with
        | Some neighbors => visit_neighbors (dfs_detect_cycle fuel d) neighbors st
        | None => Ok (None, st)
        end;
      match found with
      | Some cycle => Ok (Some cycle, st)
      | None =>
          Ok (None, mkSt (visited st) (rec_stack st ∖ {[current]}) (take (length (path st) - 1) (path st)))
      end
  end.

(** Every node of the graph: the waiting transactions and those waited for. *)
Definition nodes (d : t) : gset TransactionId :=
  dom (wait_for_graph d) ∪ ⋃ (map (fun p => list_to_set p.2) (map_to_list (wait_for_graph d))).

Fixpoint detect_loop (fuel : nat) (d : t) (keys : list TransactionId) (st : St) : Search :=
  match keys with
  | [] => Ok (None, st)
  | txn :: rest =>
      if bool_decide (txn ∉ visited st) then
        '(found, st') ← dfs_detect_cycle fuel d txn st;
        match found with
        | Some cycle => Ok (Some cycle, st')
        | None => detect_loop fuel d rest st'
        end
      else detect_loop fuel d rest st
  end.

(** [detect_cycle] with the iteration order of the map's keys. *)
Definition detect_cycle (d : t) (keys : list TransactionId)
    : outcome unit (option (list TransactionId)) :=
  '(found, _) ← detect_loop (S (size (nodes d))) d keys (mkSt ∅ ∅ []);
  Ok found.

(** ** The graph *)
Definition edge (d : t) (x y : TransactionId) : Prop :=
  y ∈ default [] (wait_for_graph d !! x).

(** A list of nodes each waiting for the next. *)
Fixpoint linked (d : t) (l : list TransactionId) : Prop :=
  match l with
  | x :: ((y :: _) as l') => edge d x y /\ linked d l'
  | _ => True
  end.

(** A cycle: each transaction waits for the next and the last for the first. *)
Definition is_cycle (d : t) (l : list TransactionId) : Prop :=
  exists x y, head l = Some x /\ last l = Some y /\ linked d l /\ edge d y x.

Section Search.
Context (d : t).
Implicit Types (st : St) (x y : TransactionId).

Lemma edge_nodes x y : edge d x y -> x ∈ nodes d /\ y ∈ nodes d.
Proof.
  unfold edge, nodes. destruct (wait_for_graph d !! x) as [l|] eqn:Hx; simpl; [|by intros ?%elem_of_nil].
  intros Hy. rewrite !elem_of_union, elem_of_dom, !elem_of_union_list. split.
  - left. by eexists.
  - right. exists (list_to_set l). split; [|by apply elem_of_list_to_set].
    apply list_elem_of_fmap. exists (x, l). split; [done|]. by apply elem_of_map_to_list.
Qed.

Lemma linked_app_r l k : linked d (l ++ k) -> linked d k.
Proof.
  induction l as [|x l IH]; [done|]. simpl. destruct (l ++ k) eqn:E; [|intros [_ ?]; by apply IH].
  apply app_eq_nil in E as [-> ->]. done.
Qed.

Lemma linked_snoc l x y : linked d (l ++ [x]) -> edge d x y -> linked d (l ++ [x; y]).
Proof.
  induction l as [|z l IH]; simpl; [naive_solver|]. destruct l as [|w l]; simpl in *; [naive_solver|].
  intros [? ?] ?. split; [done|]. by apply IH.
Qed.

(** What is finished: visited and no longer on the path. *)
Definition finished st x : Prop := x ∈ visited st /\ x ∉ path st.

Record inv st : Prop := {
  inv_rec x : x ∈ rec_stack st <-> x ∈ path st;
  inv_nodup : NoDup (path st);
  inv_linked : linked d (path st);
  inv_path x : x ∈ path st -> x ∈ visited st;
  inv_closed x y : finished st x -> edge d x y -> finished st y;
  inv_acyclic x : finished st x -> ~ tc (edge d) x x;
}.

(** A search step that returned without a cycle leaves the path as it was
    and only adds to the visited nodes. *)
Definition extends st st' : Prop :=
  path st' = path st /\ visited st ⊆ visited st'.

Lemma closed_tc st x y : inv st -> finished st x -> tc (edge d) x y -> finished st y.
Proof. intros Hi Hx Ht. revert Hx. induction Ht; intros Hx; eauto using inv_closed. Qed.

Lemma extends_finished st st' x : extends st st' -> finished st x -> finished st' x.
Proof. intros [Hp Hv] [? ?]. split; [by apply Hv|by rewrite Hp]. Qed.

(** What a search returns, for the node [current] it starts from. *)
Definition search_ok st (r : Search) (post : St -> Prop) : Prop :=
  match r with
  | Ok (Some cycle, _) => is_cycle d cycle
  | Ok (None, st') => inv st' /\ extends st st' /\ post st'
  | _ => False
  end.

(** Entering a node. *)
Lemma inv_enter st x :
  inv st -> x ∉ visited st -> (forall y, last (path st) = Some y -> edge d y x) ->
  inv (mkSt ({[x]} ∪ visited st) ({[x]} ∪ rec_stack st) (path st ++ [x])).
Proof.
  intros [Hrec Hnd Hl Hp Hc Ha] Hx He.
  assert (Hfin : forall z, finished (mkSt ({[x]} ∪ visited st) ({[x]} ∪ rec_stack st) (path st ++ [x])) z
                           <-> finished st z).
  { intros z. unfold finished; simpl. rewrite elem_of_union, elem_of_singleton, elem_of_app,
      list_elem_of_singleton. split; [tauto|]. intros [Hz Hz']. split; [by right|].
    intros [?| ->]; done. }
  split; simpl.
  - intros z. rewrite elem_of_union, elem_of_singleton, elem_of_app, list_elem_of_singleton, Hrec. tauto.
  - apply NoDup_app. split_and!; [done| |apply NoDup_singleton].
    intros z Hz ->%list_elem_of_singleton. by apply Hx, Hp.
  - destruct (path st) as [|z l] eqn:E using rev_ind; [done|]. rewrite <- app_assoc. simpl.
    apply linked_snoc; [done|]. apply He. by rewrite last_snoc.
  - intros z. rewrite elem_of_app, list_elem_of_singleton, elem_of_union, elem_of_singleton.
    intros [Hz| ->]; [right; by apply Hp|by left].
  - intros z w Hz Hw. apply Hfin. apply Hfin in Hz. eauto.
  - intros z Hz. apply Ha. by apply Hfin.
Qed.

(** Leaving a node all of whose neighbours are finished. *)
Lemma inv_leave st p x :
  inv st -> path st = p ++ [x] -> (forall y, edge d x y -> finished st y) ->
  inv (mkSt (visited st) (rec_stack st ∖ {[x]}) p).
Proof.
  intros Hinv Hpath Hx. pose proof Hinv as [Hrec Hnd Hl Hp Hc Ha]. rewrite Hpath in *.
  apply NoDup_app in Hnd as (Hnd & Hdis & _).
  assert (Hxp : x ∉ p) by (intros Hin; apply (Hdis x Hin); by left).
  assert (Hfin : forall z, finished (mkSt (visited st) (rec_stack st ∖ {[x]}) p) z
                           <-> finished st z \/ z = x).
  { intros z. unfold finished; simpl. rewrite Hpath, elem_of_app, list_elem_of_singleton.
    destruct (decide (z = x)) as [->|]; [|tauto]. split; [by right|]. intros _.
    split; [|done]. apply Hp. apply elem_of_app. right. by left. }
  assert (Hnx : ~ finished st x).
  { intros [_ Hn]. apply Hn. rewrite Hpath. apply elem_of_app. right. by left. }
  split; simpl.
  - intros z. rewrite elem_of_difference, elem_of_singleton, Hrec, elem_of_app,
      list_elem_of_singleton. split; [tauto|]. intros Hz. split; [by left|]. by intros ->.
  - done.
  - clear -Hl. revert Hl. induction p as [|y p IH]; [done|]. simpl.
    destruct p; simpl in *; [done|]. intros [? ?]. split; [done|]. by apply IH.
  - intros z Hz. apply Hp. apply elem_of_app. by left.
  - intros z w [Hz| ->]%Hfin Hw; apply Hfin; left; eauto.
  - intros z [Hz| ->]%Hfin Ht; [by eapply Ha|].
    apply Hnx. inversion Ht as [? ? He|? y ? He Hyx]; subst; [by apply Hx|].
    eapply closed_tc; [done|by apply Hx|done].
Qed.

(** The neighbour loop, for a recursive call that is right on every
    unvisited node. *)
Lemma visit_neighbors_ok dfs x p ns : forall st,
  inv st -> path st = p ++ [x] -> (forall y, y ∈ ns -> edge d x y) ->
  (forall y st', inv st' -> extends st st' -> edge d x y -> y ∉ visited st' ->
     search_ok st' (dfs y st') (fun st'' => finished st'' y)) ->
  search_ok st (visit_neighbors dfs ns st) (fun st' => forall y, y ∈ ns -> finished st' y).
Proof.
  induction ns as [|y ns IH]; intros st Hinv Hpath Hns Hdfs; simpl.
  { split_and!; [done|done|]. by intros y ?%elem_of_nil. }
  assert (Hxy : edge d x y) by (apply Hns; by left).
  assert (Hns' : forall z, z ∈ ns -> edge d x z) by (intros z Hz; apply Hns; by right).
  case_bool_decide as Hv.
  - pose proof (Hdfs y st Hinv ltac:(done) Hxy Hv) as Hd.
    destruct (dfs y st) as [[[cyc|] st']| |]; simpl in *; [done| |done|done].
    destruct Hd as (Hinv' & Hext & Hfin).
    assert (Htrans : forall s, extends st' s -> extends st s).
    { intros s [Hp1 Hv1]. destruct Hext as [Hp0 Hv0]. split; [by rewrite Hp1|by etrans]. }
    assert (Hpath' : path st' = p ++ [x]) by (by rewrite (proj1 Hext)).
    pose proof (IH st' Hinv' Hpath' Hns') as HIH.
    destruct (visit_neighbors dfs ns st') as [[[cyc|] s2]| |]; simpl in *.
    + apply HIH. intros; by apply Hdfs; [|apply Htrans|..].
    + destruct HIH as (H1 & H2 & H3); [intros; by apply Hdfs; [|apply Htrans|..]|].
      split_and!; [done|by apply Htrans|]. intros z [->|Hz]%elem_of_cons; [|by apply H3].
      by eapply extends_finished.
    + apply HIH. intros; by apply Hdfs; [|apply Htrans|..].
    + apply HIH. intros; by apply Hdfs; [|apply Htrans|..].
  - case_bool_decide as Hr.
    + apply (inv_rec st Hinv) in Hr.
      destruct (list_find (fun id => id = y) (path st)) as [[i z]|] eqn:Hf; simpl.
      * apply list_find_Some in Hf as (Hi & -> & _).
        assert (Hlast : last (path st) = Some x) by (rewrite Hpath; apply last_snoc).
        exists y, x. assert (Hd : drop i (path st) = y :: drop (S i) (path st)) by (by apply drop_S).
        split_and!; [by rewrite Hd| | |done].
        -- rewrite <- (take_drop i (path st)), Hd, last_app_cons in Hlast. by rewrite Hd.
        -- eapply linked_app_r. rewrite take_drop. apply Hinv.
      * apply list_find_None in Hf. by eapply Forall_forall in Hf.
    + assert (Hfin : finished st y) by (split; [done|]; by rewrite <- (inv_rec st Hinv)).
      pose proof (IH st Hinv Hpath Hns' Hdfs) as HIH.
      destruct (visit_neighbors dfs ns st) as [[[cyc|] s2]| |]; simpl in *; [done| |done|done].
      destruct HIH as (H1 & H2 & H3). split_and!; [done|done|].
      intros z [->|Hz]%elem_of_cons; [|by apply H3]. by eapply extends_finished.
Qed.

Definition unseen st : nat := size (nodes d ∖ visited st).

Lemma dfs_ok fuel : forall x st,
  inv st -> x ∉ visited st -> x ∈ nodes d ->
  (forall y, last (path st) = Some y -> edge d y x) -> (unseen st < fuel)%nat ->
  search_ok st (dfs_detect_cycle fuel d x st) (fun st' => finished st' x).
Proof.
  induction fuel as [|fuel IH]; intros x st Hinv Hx Hn He Hf; [lia|]. simpl.
  set (st1 := mkSt _ _ _).
  assert (Hinv1 : inv st1) by (by apply inv_enter).
  assert (Hxv : x ∉ path st) by (intros Hin; by apply Hx, (inv_path st Hinv)).
  set (r := match wait_for_graph d !! x with Some _ => _ | None => _ end).
  assert (Hr : search_ok st1 r (fun st' => forall y, edge d x y -> finished st' y)).
  { unfold r, edge. destruct (wait_for_graph d !! x) as [ns|] eqn:Hg; simpl.
    - apply (visit_neighbors_ok _ x (path st)); [done|done|by unfold edge; rewrite Hg|].
      intros y st' Hi' [Hp' Hv'] Hxy Hy. apply IH; [done|done|by eapply edge_nodes| |].
      + rewrite Hp'. unfold st1; simpl. rewrite last_snoc. by intros ? [= <-].
      + unfold unseen in *. assert (size (nodes d ∖ visited st') < size (nodes d ∖ visited st))%nat; [|lia].
        apply subset_size. unfold st1 in Hv'. simpl in Hv'. set_solver.
    - split_and!; [done|done|]. by intros y ?%elem_of_nil. }
  destruct r as [[[cyc|] st2]| |]; simpl in *; [done| |done|done].
  destruct Hr as (Hinv2 & [Hp2 Hv2] & Hfin). unfold st1 in Hp2, Hv2. simpl in Hp2, Hv2.
  assert (Htake : take (length (path st2) - 1) (path st2) = path st).
  { rewrite Hp2, length_app. simpl. rewrite Nat.add_sub. apply take_app_length. }
  rewrite Htake. split_and!.
  - by apply inv_leave.
  - split; [done|]. simpl. set_solver.
  - split; simpl; [set_solver|done].
Qed.

Lemma detect_loop_ok fuel keys : (size (nodes d) < fuel)%nat -> forall st,
  inv st -> path st = [] -> (forall x, x ∈ keys -> x ∈ nodes d) ->
  search_ok st (detect_loop fuel d keys st) (fun st' => forall x, x ∈ keys -> finished st' x).
Proof.
  intros Hfuel. induction keys as [|x keys IH]; intros st Hinv Hp Hk; simpl.
  { split_and!; [done|done|]. by intros y ?%elem_of_nil. }
  assert (Hk' : forall z, z ∈ keys -> z ∈ nodes d) by (intros z Hz; apply Hk; by right).
  case_bool_decide as Hv.
  - assert (Hd : search_ok st (dfs_detect_cycle fuel d x st) (fun st' => finished st' x)).
    { apply dfs_ok; [done|done|apply Hk; by left|by rewrite Hp|].
      unfold unseen. assert (size (nodes d ∖ visited st) <= size (nodes d))%nat; [|lia].
      apply subseteq_size. set_solver. }
    destruct (dfs_detect_cycle _ d x st) as [[[cyc|] st']| |]; simpl in *; [done| |done|done].
    destruct Hd as (Hinv' & Hext & Hfin).
    pose proof (IH st' Hinv' ltac:(by rewrite (proj1 Hext)) Hk') as HIH.
    destruct (detect_loop _ d keys st') as [[[cyc|] s2]| |]; simpl in *; [done| |done|done].
    destruct HIH as (H1 & H2 & H3). split_and!; [done| |].
    + destruct H2, Hext. split; [congruence|by etrans].
    + intros z [->|Hz]%elem_of_cons; [by eapply extends_finished|by apply H3].
  -
    assert (Hfin : finished st x) by (split; [done|rewrite Hp; by intros ?%elem_of_nil]).
    pose proof (IH st Hinv Hp Hk') as HIH.
    destruct (detect_loop _ d keys st) as [[[cyc|] s2]| |]; simpl in *; [done| |done|done].
    destruct HIH as (H1 & H2 & H3). split_and!; [done|done|].
    intros z [->|Hz]%elem_of_cons; [by eapply extends_finished|by apply H3].
Qed.
End Search.

(** C31: deadlock detection is total, sound and complete: with any iteration
    order of the graph's keys, [detect_cycle] never panics and never runs out
    of its bound; a cycle it returns is a cycle of the wait-for graph, and
    when it returns none no transaction waits for itself through any chain of
    others. *)
Theorem detect_cycle_spec d keys (Hkeys : keys ≡ₚ elements (dom (wait_for_graph d))) :
  match detect_cycle d keys with
  | Ok (Some cycle) => is_cycle d cycle
  | Ok None => forall x, ~ tc (edge d) x x
  | _ => False
  end.
Proof.
  assert (Hinv : inv d (mkSt ∅ ∅ [])).
  { split; simpl; try done; try (by constructor).
    - intros x. set_solver.
    - intros x ?%elem_of_nil. done.
    - intros x y [? _]. set_solver.
    - intros x [? _]. set_solver. }
  pose proof (detect_loop_ok d (S (size (nodes d))) keys ltac:(lia) _ Hinv eq_refl) as Hok. unfold detect_cycle.
  destruct (detect_loop _ d keys _) as [[[cyc|] st]| |]; simpl in *; [| |apply Hok..].
  - apply Hok. intros x. rewrite Hkeys, elem_of_elements. unfold nodes. set_solver.
  - destruct Hok as (Hi & _ & Hall).
    { intros x. rewrite Hkeys, elem_of_elements. unfold nodes. set_solver. }
    intros x Hx. apply (inv_acyclic d st Hi x); [|done]. apply Hall.
    rewrite Hkeys, elem_of_elements, elem_of_dom.
    assert (exists y, edge d x y) as [y Hy] by (inversion Hx; eauto).
    unfold edge in Hy. destruct (wait_for_graph d !! x); [by eexists|by apply elem_of_nil in Hy].
  - intros x. rewrite Hkeys, elem_of_elements. unfold nodes. set_solver.
  - intros x. rewrite Hkeys, elem_of_elements. unfold nodes. set_solver.
Qed.

Definition demo_graph : t := add_wait (add_wait (add_wait new 1 2) 2 3) 3 1.

Lemma detect_cycle_spec_witness : is_cycle demo_graph [1; 2; 3].
Proof.
  refine (detect_cycle_spec demo_graph [1; 2; 3] _).
  apply NoDup_Permutation.
  - repeat constructor; rewrite ?elem_of_cons, ?elem_of_nil; lia.
  - apply NoDup_elements.
  - intros x. rewrite elem_of_elements. unfold demo_graph, add_wait. simpl.
    rewrite !dom_insert, dom_empty, !elem_of_union, !elem_of_singleton, !elem_of_cons.
    rewrite elem_of_nil. set_solver.
Defined.

End DeadlockDetector.
