(* ===== verification/Page.v ===== *)
(** * Pages ([src/pager/page.rs], [src/pager/error.rs])

    A page on disk is a 32-byte header, the stored data (compressed, then
    encrypted), zero padding, and a SHA-256 digest of the header, the stored
    length and the stored data.  [Page.to_bytes] and [Page.from_bytes] follow
    the source; the nonce is an argument.  [OverflowPageHeader] is the header
    inside the pages of a large value's chain. *)
From S2P Require Import Prelude Types Vfs PagerConfig.

(** The errors of the pager, without the formatted [details]. *)
Inductive PagerError : Type :=
  | PagerVfsError (e : FileSystemError)
  | InvalidPageId (p : PageId)
  | PageNotFound (p : PageId)
  | PageChecksumMismatch (p : PageId)
  | InvalidPageSize (size : Z)
  | InvalidFileHeader (expected_magic found_magic : Z)
  | InvalidSuperblock (field : string)
  | PageCompressionError (p : PageId) (c : CompressionType.t)
  | PageDecompressionError (p : PageId) (c : CompressionType.t)
  | PageEncryptionError (p : PageId) (e : EncryptionType.t)
  | PageDecryptionError (p : PageId) (e : EncryptionType.t)
  | PageMissingEncryptionKey
  | ConfigError (msg : string)
  | StorageFull
  | PageAlreadyAllocated (p : PageId)
  | PageAlreadyFree (p : PageId)
  | PagePinned (p : PageId)
  | InvalidPageType (b : Z)
  | InvalidCompressionType (b : Z)
  | InvalidEncryptionType (b : Z)
  | InsufficientBuffer (structure : string) (expected actual : Z)
  | InvalidDataLength (p : PageId)
  | InvalidMagic (structure : string) (expected found : Z)
  | FreeListFull
  | PagerIoError
  | PagerInternalError (msg : string).

Module PageType.
Inductive t : Type :=
  | Free | Superblock | FreeList | BTreeInternal | BTreeLeaf | HashBucket
  | ArtNode4 | ArtNode16 | ArtNode48 | ArtNode256 | LsmMeta | LsmData | Catalog | Overflow
  | BloomMeta | BloomData | BloomFilter | InvertedIndex | RTreeNode | GraphAdjList
  | VectorIndex | TimeSeriesBucket | IndexMetadata.
#[global] Instance t_eq_dec : EqDecision t.
Proof. solve_decision. Defined.

Definition from_u8 (value : Z) : option t :=
  match value with
  | 0 => Some Free | 1 => Some Superblock | 2 => Some FreeList | 3 => Some BTreeInternal
  | 4 => Some BTreeLeaf | 5 => Some HashBucket | 6 => Some ArtNode4 | 7 => Some ArtNode16
  | 8 => Some ArtNode48 | 9 => Some ArtNode256 | 10 => Some LsmMeta | 11 => Some LsmData
  | 12 => Some Catalog | 13 => Some Overflow | 16 => Some BloomFilter
  | 17 => Some InvertedIndex | 18 => Some RTreeNode | 19 => Some GraphAdjList
  | 20 => Some VectorIndex | 21 => Some TimeSeriesBucket | 33 => Some IndexMetadata
  | _ => None
  end.

Definition to_u8 (p : t) : Z :=
  match p with
  | Free => 0 | Superblock => 1 | FreeList => 2 | BTreeInternal => 3 | BTreeLeaf => 4
  | HashBucket => 5 | ArtNode4 => 6 | ArtNode16 => 7 | ArtNode48 => 8 | ArtNode256 => 9
  | LsmMeta => 10 | LsmData => 11 | Catalog => 12 | Overflow => 13 | BloomMeta => 14
  | BloomData => 15 | BloomFilter => 16 | InvertedIndex => 17 | RTreeNode => 18
  | GraphAdjList => 19 | VectorIndex => 20 | TimeSeriesBucket => 21 | IndexMetadata => 33
  end.

(** The types whose number [from_u8] knows. *)
Definition readable (p : t) : bool :=
  match p with BloomMeta | BloomData => false | _ => true end.

Lemma page_type_from_to_u8 p : from_u8 (to_u8 p) = if readable p then Some p else None.
Proof. by destruct p. Qed.
Lemma page_type_to_from_u8 v p : from_u8 v = Some p -> to_u8 p = v.
Proof. unfold from_u8. repeat case_match; naive_solver. Qed.
Lemma page_type_to_u8_fits p : is_u8 (to_u8 p).
Proof. by destruct p. Qed.
End PageType.

Module PageHeader.
Record t : Type := mk {
  page_id : PageId;
  page_type : PageType.t;
  compression : CompressionType.t;
  encryption : EncryptionType.t;
  flags : Z;
  uncompressed_size : Z;
  compressed_size : Z;
  virtual_page_id : PageId;
}.

Definition SIZE : Z := 32.

Definition new (id : PageId) (ty : PageType.t) : t :=
  mk id ty CompressionType.None_ EncryptionType.None_ 0 0 0 0.

Definition to_bytes (h : t) : bytes :=
  to_le_bytes 8 (page_id h) ++ [PageType.to_u8 (page_type h)]
    ++ [CompressionType.to_u8 (compression h)] ++ [EncryptionType.to_u8 (encryption h)]
    ++ [flags h] ++ to_le_bytes 4 (uncompressed_size h) ++ to_le_bytes 4 (compressed_size h)
    ++ [0; 0; 0; 0] ++ to_le_bytes 8 (virtual_page_id h).

Definition from_bytes (bs : bytes) : outcome PagerError t :=
  _ ← ensure (SIZE <=? zlen bs) (InsufficientBuffer "page header" SIZE (zlen bs));
  page_id ← get_le 8 0 bs;
  b8 ← index 8 bs;
  page_type ← ok_or (PageType.from_u8 b8) (InvalidPageType b8);
  b9 ← index 9 bs;
  compression ← ok_or (CompressionType.from_u8 b9) (InvalidCompressionType b9);
  b10 ← index 10 bs;
  encryption ← ok_or (EncryptionType.from_u8 b10) (InvalidEncryptionType b10);
  flags ← index 11 bs;
  uncompressed_size ← get_le 4 12 bs;
  compressed_size ← get_le 4 16 bs;
  virtual_page_id ← get_le 8 24 bs;
  Ok (mk page_id page_type compression encryption flags uncompressed_size compressed_size
         virtual_page_id).

Record wf (h : t) : Prop := {
  wf_id : is_u64 (page_id h);
  wf_flags : is_u8 (flags h);
  wf_uncompressed : is_u32 (uncompressed_size h);
  wf_compressed : is_u32 (compressed_size h);
  wf_virtual : is_u64 (virtual_page_id h);
}.

Lemma page_header_zlen_to_bytes h : zlen (to_bytes h) = 32.
Proof. unfold to_bytes. zlen_tac. Qed.

(** The reserved word is not read: it may hold anything. *)
Lemma page_header_from_to_bytes h :
  wf h -> PageType.readable (page_type h) = true -> from_bytes (to_bytes h) = Ok h.
Proof.
  intros [] Hr. unfold from_bytes, to_bytes, SIZE.
  pose proof (PageType.page_type_from_to_u8 (page_type h)) as Hp. rewrite Hr in Hp.
  pose proof (CompressionType.compression_to_u8_fits (compression h)).
  pose proof (EncryptionType.encryption_to_u8_fits (encryption h)).
  read_back. rewrite Hp. read_back. rewrite CompressionType.compression_from_to_u8.
  read_back. rewrite EncryptionType.encryption_from_to_u8. read_back. by destruct h.
Qed.

(** A page type the reader does not know. *)
Lemma from_to_bytes_unreadable h :
  wf h -> PageType.readable (page_type h) = false ->
  from_bytes (to_bytes h) = Err (InvalidPageType (PageType.to_u8 (page_type h))).
Proof.
  intros [] Hr. unfold from_bytes, to_bytes, SIZE.
  pose proof (PageType.page_type_from_to_u8 (page_type h)) as Hp. rewrite Hr in Hp.
  read_back. by rewrite Hp.
Qed.

Lemma page_header_from_bytes_no_panic bs : from_bytes bs <> Panic.
Proof. unfold from_bytes, SIZE. no_panic. Qed.

Lemma from_bytes_fits bs h : bytes_ok bs -> from_bytes bs = Ok h -> wf h.
Proof.
  intros Hok Hh. unfold from_bytes in Hh. inv_ok. injection Hh as <-.
  repeat match goal with H : get_le _ _ _ = Ok _ |- _ => apply (get_le_fits _ _ _ _ Hok) in H end.
  split; simpl; try done. apply index_slice in Hx7. apply (slice_bytes_ok _ _ _ _ Hok) in Hx7.
  by apply Forall_cons in Hx7 as [? _].
Qed.
End PageHeader.
#[export] Hint Resolve PageHeader.page_header_from_bytes_no_panic : no_panic.

Module OverflowPageHeader.
Record t : Type := mk { magic : Z; next_page_id : Z; data_length : Z; checksum : Z }.
Definition SIZE : Z := 32.
Definition MAGIC : Z := 0x4F564C46.

Definition new (next_page_id data_length checksum : Z) : t :=
  mk MAGIC next_page_id data_length checksum.

Definition to_bytes (h : t) : bytes :=
  to_le_bytes 4 (magic h) ++ to_le_bytes 4 (next_page_id h) ++ to_le_bytes 4 (data_length h)
    ++ to_le_bytes 4 (checksum h) ++ replicate 16 0.

Definition from_bytes (bs : bytes) : outcome PagerError t :=
  _ ← ensure (SIZE <=? zlen bs) (InsufficientBuffer "overflow page header" SIZE (zlen bs));
  magic ← get_le 4 0 bs;
  _ ← ensure (magic =? MAGIC) (InvalidMagic "overflow page header" MAGIC magic);
  next_page_id ← get_le 4 4 bs;
  data_length ← get_le 4 8 bs;
  checksum ← get_le 4 12 bs;
  Ok (mk magic next_page_id data_length checksum).

Definition is_last (h : t) : bool := next_page_id h =? 0.

(** The header of an overflow page is a round trip for every next page,
    length and checksum of 32 bits, whatever follows it in the page, and
    reading never panics. *)
Theorem overflow_header_roundtrip next len crc rest
    (Hn : is_u32 next) (Hl : is_u32 len) (Hc : is_u32 crc) :
  from_bytes (to_bytes (new next len crc) ++ rest) = Ok (new next len crc) /\
  forall bs, from_bytes bs <> Panic.
Proof.
  split; [|intros bs; unfold from_bytes, SIZE; no_panic].
  unfold from_bytes, to_bytes, SIZE. simpl. rewrite <- !app_assoc.
  assert (is_u32 MAGIC) by done. by read_back.
Qed.

Lemma overflow_header_roundtrip_witness :
  from_bytes (to_bytes (new 7 100 12345) ++ [1]) = Ok (new 7 100 12345).
Proof. apply (overflow_header_roundtrip 7 100 12345 [1]); done. Defined.
End OverflowPageHeader.

Module Page.
Import PageHeader.

Record t : Type := mk { header : PageHeader.t; data : bytes }.

Definition CHECKSUM_SIZE : Z := 32.

Definition new (id : PageId) (ty : PageType.t) : t := mk (PageHeader.new id ty) [].

Section Codec.
Context `{Codecs}.

(** The digest over a header and stored data. *)
Definition digest (h : PageHeader.t) (stored : bytes) : bytes :=
  sha256 (PageHeader.to_bytes h ++ to_le_bytes 4 (as_u32 (zlen stored)) ++ stored).

Definition calculate_checksum (p : t) : bytes := digest (header p) (data p).
Definition verify_checksum (p : t) (expected : bytes) : bool :=
  bytes_eqb (calculate_checksum p) expected.

Definition set_sizes (h : PageHeader.t) (u c : Z) : PageHeader.t :=
  PageHeader.mk (page_id h) (page_type h) (compression h) (encryption h) (flags h) u c
                (virtual_page_id h).

Definition encrypt (h : PageHeader.t) (key : option bytes) (nonce compressed : bytes)
    : outcome PagerError bytes :=
  match encryption h with
  | EncryptionType.None_ => Ok compressed
  | EncryptionType.Aes256Gcm =>
      k ← ok_or key PageMissingEncryptionKey;
      e ← ok_or (aes_encrypt k nonce compressed) (PageEncryptionError (page_id h) (encryption h));
      Ok (nonce ++ e)
  end.

(** [to_bytes]: [page_size - CHECKSUM_SIZE] does not underflow, the page
    sizes are at least 4096; data too long for the page is not cut. *)
Definition to_bytes (p : t) (page_size : Z) (key : option bytes) (nonce : bytes)
    : outcome PagerError bytes :=
  let h := header p in
  compressed ← ok_or (compress (compression h) (data p))
                 (PageCompressionError (page_id h) (compression h));
  data_to_write ← encrypt h key nonce compressed;
  let h' := set_sizes h (as_u32 (zlen (data p))) (as_u32 (zlen data_to_write)) in
  let bs := PageHeader.to_bytes h' ++ data_to_write in
  let data_end := page_size - CHECKSUM_SIZE in
  let bs := if zlen bs <? data_end then resize data_end 0 bs else bs in
  Ok (bs ++ digest h' data_to_write).

Definition decrypt (h : PageHeader.t) (key : option bytes) (stored : bytes)
    : outcome PagerError bytes :=
  match encryption h with
  | EncryptionType.None_ => Ok stored
  | EncryptionType.Aes256Gcm =>
      k ← ok_or key PageMissingEncryptionKey;
      _ ← ensure (12 <=? zlen stored) (PageDecryptionError (page_id h) (encryption h));
      nonce ← slice 0 12 stored;
      ciphertext ← slice 12 (zlen stored) stored;
      ok_or (aes_decrypt k nonce ciphertext) (PageDecryptionError (page_id h) (encryption h))
  end.

Definition from_bytes (bs : bytes) (verify : bool) (key : option bytes) : outcome PagerError t :=
  _ ← ensure (SIZE + CHECKSUM_SIZE <=? zlen bs)
        (InsufficientBuffer "page" (SIZE + CHECKSUM_SIZE) (zlen bs));
  header_bytes ← slice 0 SIZE bs;
  h ← PageHeader.from_bytes header_bytes;
  let data_end := SIZE + compressed_size h in
  _ ← ensure (data_end <=? zlen bs - CHECKSUM_SIZE) (InvalidDataLength (page_id h));
  stored ← slice SIZE data_end bs;
  checksum ← slice (zlen bs - CHECKSUM_SIZE) (zlen bs) bs;
  _ ← ensure (negb verify || bytes_eqb (digest h stored) checksum)
        (PageChecksumMismatch (page_id h));
  compressed ← decrypt h key stored;
  data ← ok_or (decompress (compression h) compressed)
           (PageDecompressionError (page_id h) (compression h));
  _ ← ensure (zlen data =? uncompressed_size h)
        (PageDecompressionError (page_id h) (compression h));
  Ok (mk h data).

End Codec.

Definition page_id (p : t) : PageId := PageHeader.page_id (header p).
Definition page_type (p : t) : PageType.t := PageHeader.page_type (header p).

Section Laws.
Context `{CodecsLaws}.

Lemma page_encrypt_decrypt h key nonce cmp fin u c :
  zlen nonce = 12 -> encrypt h key nonce cmp = Ok fin -> decrypt (set_sizes h u c) key fin = Ok cmp.
Proof.
  intros Hn. unfold encrypt, decrypt. simpl. destruct (encryption h); [done|].
  intros He. inv_ok. subst key. injection He as <-. simpl.
  read_back. by rewrite (aes_roundtrip _ _ _ _ Hx0).
Qed.

Lemma page_to_bytes_inv p page_size key nonce bs :
  to_bytes p page_size key nonce = Ok bs ->
  exists cmp fin, compress (compression (header p)) (data p) = Some cmp /\
    encrypt (header p) key nonce cmp = Ok fin /\
    let h' := set_sizes (header p) (as_u32 (zlen (data p))) (as_u32 (zlen fin)) in
    bs = PageHeader.to_bytes h' ++ fin
           ++ replicate (Z.to_nat (page_size - 32 - (32 + zlen fin))) 0 ++ digest h' fin.
Proof.
  unfold to_bytes. intros Hb. inv_ok. exists x, x0. split_and!; [done|done|].
  injection Hb as <-. set (h' := set_sizes _ _ _). simpl.
  rewrite zlen_app, PageHeader.page_header_zlen_to_bytes. unfold CHECKSUM_SIZE.
  destruct (Z.ltb_spec (32 + zlen x0) (page_size - 32)) as [Hlt|Hge].
  - unfold resize. rewrite zlen_app, PageHeader.page_header_zlen_to_bytes.
    rewrite (proj2 (Z.leb_gt _ _)) by lia. by rewrite <- !app_assoc.
  - replace (Z.to_nat (page_size - 32 - (32 + zlen x0))) with 0%nat by lia.
    simpl. by rewrite <- app_assoc.
Qed.

Lemma zlen_digest h stored : zlen (digest h stored) = 32.
Proof. apply sha256_len. Qed.

(** The length of a serialized page: the page size, or more when the stored
    data does not fit. *)
Lemma zlen_page p page_size key nonce bs :
  to_bytes p page_size key nonce = Ok bs ->
  exists cmp fin, compress (compression (header p)) (data p) = Some cmp /\
    encrypt (header p) key nonce cmp = Ok fin /\ zlen bs = Z.max page_size (64 + zlen fin).
Proof.
  intros (cmp & fin & Hc & He & ->)%page_to_bytes_inv. exists cmp, fin. split_and!; [done|done|].
  rewrite !zlen_app, PageHeader.page_header_zlen_to_bytes, zlen_digest.
  destruct (decide (0 <= page_size - 32 - (32 + zlen fin))).
  - rewrite zlen_replicate by done. lia.
  - replace (Z.to_nat (page_size - 32 - (32 + zlen fin))) with 0%nat by lia. simpl.
    rewrite zlen_nil. lia.
Qed.

(** Reading a framed buffer, whatever the padding. *)
Lemma page_from_bytes_frame h fin pad key verify :
  PageHeader.wf h -> PageType.readable (PageHeader.page_type h) = true -> compressed_size h = zlen fin ->
  from_bytes (PageHeader.to_bytes h ++ fin ++ pad ++ digest h fin) verify key =
    (cmp ← decrypt h key fin;
     d ← ok_or (decompress (compression h) cmp)
           (PageDecompressionError (PageHeader.page_id h) (compression h));
     _ ← ensure (zlen d =? uncompressed_size h)
           (PageDecompressionError (PageHeader.page_id h) (compression h));
     Ok (mk h d)).
Proof.
  intros Hwf Hr Hc. pose proof (PageHeader.page_header_zlen_to_bytes h) as Hh.
  pose proof (zlen_digest h fin) as Hd. unfold from_bytes, SIZE, CHECKSUM_SIZE.
  pose proof (PageHeader.page_header_from_to_bytes h Hwf Hr) as Hf.
  generalize dependent (PageHeader.to_bytes h). intros hb Hh Hf.
  remember (digest h fin) as dg eqn:Hdig.
  rewrite ensure_true by zlen_tac. simpl.
  rewrite (slice_here 0 32) by lia. simpl. rewrite Hf. simpl.
  rewrite ensure_true by zlen_tac. simpl.
  rewrite (slice_mid 32) by lia. simpl.
  replace (hb ++ fin ++ pad ++ dg) with ((hb ++ fin ++ pad) ++ dg ++ []) at 1 2 3
    by (by rewrite app_nil_r, <- !app_assoc).
  rewrite slice_mid by zlen_tac. simpl.
  rewrite <- Hdig, bytes_eqb_refl, orb_true_r. done.
Qed.

Lemma page_from_to_bytes p page_size key nonce bs verify :
  PageHeader.wf (header p) -> PageType.readable (page_type p) = true ->
  is_u32 (zlen (data p)) -> zlen nonce = 12 ->
  to_bytes p page_size key nonce = Ok bs -> zlen bs < 2 ^ 32 ->
  exists h, from_bytes bs verify key = Ok (mk h (data p)) /\
    h = set_sizes (header p) (zlen (data p)) (compressed_size h).
Proof.
  intros Hwf Hr Hlen Hn Hb Hbs.
  destruct (zlen_page _ _ _ _ _ Hb) as (cmp & fin & Hc & He & Hz).
  assert (Hfin : is_u32 (zlen fin)) by zlen_tac. clear Hz.
  apply page_to_bytes_inv in Hb as (cmp' & fin' & Hc' & He' & ->). clear Hbs.
  rewrite Hc in Hc'. injection Hc' as <-. rewrite He in He'. injection He' as <-.
  rewrite !as_u_id by done.
  eexists. split.
  - rewrite page_from_bytes_frame.
    + erewrite page_encrypt_decrypt by done. simpl.
      rewrite (decompress_compress _ _ _ (proj2 Hlen) Hc). simpl.
      rewrite Z.eqb_refl. done.
    + destruct Hwf. split; simpl; done.
    + done.
    + done.
  - done.
Qed.

Lemma page_from_bytes_no_panic bs verify key : bytes_ok bs -> from_bytes bs verify key <> Panic.
Proof.
  intros Hok. unfold from_bytes, SIZE, CHECKSUM_SIZE.
  repeat (apply bind_no_panic; [try solve [auto with no_panic] | intros ? ?; inv_ok]).
  all: try match goal with
    | Hs : slice 0 32 _ = Ok ?hb, Hh : PageHeader.from_bytes ?hb = Ok _ |- _ =>
        pose proof (PageHeader.from_bytes_fits _ _ (slice_bytes_ok _ _ _ _ ltac:(eassumption) Hs) Hh) as [? ? ? ? ?]
    end.
  - apply slice_no_panic; zlen_tac.
  - unfold decrypt. no_panic.
  - done.
Qed.
End Laws.

(** C8: a page survives its trip to disk: when [to_bytes] returns, the type
    is one the reader knows, the header fields fit their widths and data and
    bytes are below 4 GiB, then for every compression and encryption setting
    and page size (which [to_bytes] does not enforce), [from_bytes] with the
    same key, whether it checks the checksum or not, returns the page's data
    and its header with the two size fields filled in. *)
Theorem page_roundtrip `{CodecsLaws} p page_size key nonce bs verify
    (Hwf : PageHeader.wf (header p)) (Hty : PageType.readable (page_type p) = true)
    (Hlen : is_u32 (zlen (data p))) (Hnonce : zlen nonce = 12)
    (Hser : to_bytes p page_size key nonce = Ok bs) (Hbs : zlen bs < 2 ^ 32) :
  exists h, from_bytes bs verify key = Ok (mk h (data p)) /\
    h = set_sizes (header p) (zlen (data p)) (compressed_size h).
Proof. by eapply page_from_to_bytes. Qed.

Definition sample_page : t :=
  mk (PageHeader.mk 3 PageType.BTreeLeaf CompressionType.Lz4 EncryptionType.Aes256Gcm 0 0 0 3)
     [1; 2; 3].
Definition sample_key : option bytes := Some (replicate 32 5).
Definition sample_bytes : bytes :=
  match @to_bytes ToyCodecs.toy sample_page 128 sample_key (replicate 12 1) with
  | Ok bs => bs | _ => []
  end.

Lemma page_roundtrip_witness :
  exists h, @from_bytes ToyCodecs.toy sample_bytes true sample_key = Ok (mk h [1; 2; 3]) /\
    h = set_sizes (header sample_page) 3 (compressed_size h).
Proof.
  apply (@page_roundtrip ToyCodecs.toy ToyCodecs.toy_laws sample_page 128 sample_key (replicate 12 1)).
  - split; done.
  - reflexivity.
  - done.
  - reflexivity.
  - vm_compute. reflexivity.
  - vm_compute. reflexivity.
Defined.

(** Reading a page never panics, and with checksum verification it
    accepts a buffer only when the last 32 bytes are the digest of the header
    it returns and the stored data behind it, and the data has the length the
    header promises. *)
Theorem page_integrity `{CodecsLaws} bs key (Hbs : bytes_ok bs) :
  from_bytes bs true key <> Panic /\
  forall p, from_bytes bs true key = Ok p ->
  exists hb stored pad,
    bs = hb ++ stored ++ pad ++ digest (header p) stored /\
    PageHeader.from_bytes hb = Ok (header p) /\ zlen hb = 32 /\
    zlen stored = compressed_size (header p) /\ zlen (data p) = uncompressed_size (header p).
Proof.
  split; [by apply page_from_bytes_no_panic|]. intros p Hp. unfold from_bytes, SIZE, CHECKSUM_SIZE in Hp.
  inv_ok. simpl in Hx5. apply bytes_eqb_true in Hx5. injection Hp as <-. simpl.
  apply Z.leb_le in Hx, Hx2. apply Z.eqb_eq in Hx8.
  pose proof (slice_zlen _ _ _ _ Hx0). pose proof (slice_zlen _ _ _ _ Hx3).
  destruct (slice_in_range (E := PagerError) (32 + compressed_size x1) (zlen bs - 32) bs)
    as (pad & Hpad & _).
  { apply slice_ok_inv in Hx3 as (? & ? & _). lia. }
  { lia. }
  exists x0, x3, pad. split_and!; [|done|lia|lia|done].
  join Hx0 Hx3. join Hx0 Hpad. join Hx0 Hx4. apply slice_all_inv in Hx0; [|done].
  rewrite Hx5, <- Hx0. by rewrite <- !app_assoc.
Qed.

Lemma page_integrity_witness : @from_bytes ToyCodecs.toy sample_bytes true sample_key <> Panic.
Proof.
  apply (@page_integrity ToyCodecs.toy ToyCodecs.toy_laws).
  vm_compute. repeat constructor; discriminate.
Defined.

(** A page never shrinks below its slot, and fits it exactly when its
    stored data does; a page filled to the [data_size] of its page size and
    encrypted does not fit: its bytes run 28 past the slot, into the next
    page. *)
Theorem page_slot `{CodecsLaws} p ps key nonce bs
    (Hser : to_bytes p (PageSize.to_u32 ps) key nonce = Ok bs) (Hnonce : zlen nonce = 12)
    (Hcomp : compression (header p) = CompressionType.None_) :
  zlen bs = Z.max (PageSize.to_u32 ps)
    (64 + zlen (data p) + match encryption (header p) with
                          | EncryptionType.None_ => 0 | EncryptionType.Aes256Gcm => 28 end) /\
  (zlen (data p) = PageSize.data_size ps -> encryption (header p) = EncryptionType.Aes256Gcm ->
   zlen bs = PageSize.to_u32 ps + 28).
Proof.
  destruct (zlen_page _ _ _ _ _ Hser) as (cmp & fin & Hc & He & Hz).
  rewrite Hcomp in Hc. injection Hc as <-.
  assert (Hf : zlen fin = zlen (data p) + match encryption (header p) with
                          | EncryptionType.None_ => 0 | EncryptionType.Aes256Gcm => 28 end).
  { unfold encrypt in He. destruct (encryption (header p)); [injection He as <-; lia|].
    inv_ok. apply aes_len in Hx0. injection He as <-. zlen_tac. }
  split; [lia|]. intros Hd Henc. rewrite Henc in Hf.
  unfold PageSize.data_size, PageSize.header_size, PageSize.checksum_size in Hd. lia.
Qed.

Definition full_page : t :=
  mk (PageHeader.mk 3 PageType.BTreeLeaf CompressionType.None_ EncryptionType.Aes256Gcm 0 0 0 3)
     (replicate 4032 1).
Definition full_bytes : bytes :=
  match @to_bytes ToyCodecs.toy full_page 4096 sample_key (replicate 12 1) with
  | Ok bs => bs | _ => []
  end.

Lemma page_slot_witness : zlen full_bytes = 4096 + 28.
Proof.
  refine (proj2 (@page_slot ToyCodecs.toy ToyCodecs.toy_laws full_page PageSize.Size4KB sample_key
    (replicate 12 1) full_bytes _ _ _) _ _); vm_compute; reflexivity.
Defined.

(** Bloom filter pages cannot be read back: for the page types
    [BloomMeta] and [BloomData] every serialized page is refused by
    [from_bytes] with [InvalidPageType]. *)
Theorem bloom_pages_unreadable `{CodecsLaws} p page_size key nonce bs verify
    (Hwf : PageHeader.wf (header p))
    (Hty : page_type p = PageType.BloomMeta \/ page_type p = PageType.BloomData)
    (Hser : to_bytes p page_size key nonce = Ok bs) :
  from_bytes bs verify key = Err (InvalidPageType (PageType.to_u8 (page_type p))).
Proof.
  destruct (zlen_page _ _ _ _ _ Hser) as (_ & fin0 & _ & _ & Hz).
  pose proof (zlen_nonneg fin0) as Hfin0.
  apply page_to_bytes_inv in Hser as (cmp & fin & Hc & He & ->).
  unfold from_bytes, SIZE, CHECKSUM_SIZE. rewrite ensure_true by lia. simpl.
  rewrite (slice_here 0 32) by (by rewrite ?PageHeader.page_header_zlen_to_bytes). simpl.
  rewrite PageHeader.from_to_bytes_unreadable; [done| |].
  - destruct Hwf. split; simpl; try done; by apply as_u_fits.
  - simpl. unfold page_type in Hty. destruct Hty as [-> | ->]; done.
Qed.

Definition bloom_page : t :=
  mk (PageHeader.new 3 PageType.BloomData) [1; 2; 3].
Definition bloom_bytes : bytes :=
  match @to_bytes ToyCodecs.toy bloom_page 128 None [] with Ok bs => bs | _ => [] end.

Lemma bloom_pages_unreadable_witness :
  @from_bytes ToyCodecs.toy bloom_bytes true None = Err (InvalidPageType 15).
Proof.
  apply (@bloom_pages_unreadable ToyCodecs.toy ToyCodecs.toy_laws bloom_page 128 None []).
  - split; done.
  - right. reflexivity.
  - vm_compute. reflexivity.
Defined.

End Page.
