(* ===== verification/Cache.v ===== *)
(** * Page cache ([src/pager/cache.rs])

    The cache is 32 shards chosen by page id; each shard is a hash map whose
    entries carry the links of a doubly linked list in order of use.
    [CacheShard] and [PageCache] follow the source.  [Lru] is the contract: a
    shard is a list of pages, most recently used first.  The refinement says
    that the links always spell out that list, whatever calls were served.

    Each shard is behind its own lock and every operation holds the lock of
    its shard throughout, so concurrent calls on one shard take effect one
    after the other, as the sequences of calls here.  The iteration order of a
    hash map is the argument [hash_order]; [hit_rate] and [miss_rate] are
    floating-point views of the counters and are left out, as are the metrics
    gauges. *)
From S2P Require Import Prelude Types PagerConfig Page.

Definition NUM_SHARDS : Z := 32.

Module CacheStats.
Record t : Type := mk {
  hits : Z; misses : Z; evictions : Z; flushes : Z; current_size : Z; dirty_pages : Z }.
Definition default : t := mk 0 0 0 0 0 0.
Definition reset (s : t) : t := mk 0 0 0 0 (current_size s) (dirty_pages s).

Definition hit (s : t) : t :=
  mk (hits s + 1) (misses s) (evictions s) (flushes s) (current_size s) (dirty_pages s).
Definition miss (s : t) : t :=
  mk (hits s) (misses s + 1) (evictions s) (flushes s) (current_size s) (dirty_pages s).
Definition evicted (s : t) : t :=
  mk (hits s) (misses s) (evictions s + 1) (flushes s) (current_size s) (dirty_pages s).
Definition flushed (s : t) : t :=
  mk (hits s) (misses s) (evictions s) (flushes s + 1) (current_size s) (dirty_pages s).
Definition sized (n : Z) (s : t) : t :=
  mk (hits s) (misses s) (evictions s) (flushes s) n (dirty_pages s).
Definition dirtied (n : Z) (s : t) : t :=
  mk (hits s) (misses s) (evictions s) (flushes s) (current_size s) n.
Definition add (a b : t) : t :=
  mk (hits a + hits b) (misses a + misses b) (evictions a + evictions b) (flushes a + flushes b)
     (current_size a + current_size b) (dirty_pages a + dirty_pages b).
End CacheStats.

Module CacheConfig.
Record t : Type := mk { capacity : Z; write_back : bool }.
Definition default : t := mk 10000 true.
Definition new : t := default.
Definition with_capacity (c : t) (capacity : Z) : t := mk capacity (write_back c).
Definition with_write_back (c : t) (write_back : bool) : t := mk (capacity c) write_back.
End CacheConfig.

Module CacheShard.
Record CacheEntry : Type := mkEntry {
  page : Page.t; dirty : bool; prev : option PageId; next : option PageId }.

Record t : Type := mk {
  entries : gmap PageId CacheEntry;
  lru_head : option PageId;
  lru_tail : option PageId;
  stats : CacheStats.t;
  capacity : Z }.

Definition len (s : t) : Z := Z.of_nat (size (entries s)).
Definition with_stats (f : CacheStats.t -> CacheStats.t) (s : t) : t :=
  mk (entries s) (lru_head s) (lru_tail s) (f (stats s)) (capacity s).
Definition with_entries (m : gmap PageId CacheEntry) (s : t) : t :=
  mk m (lru_head s) (lru_tail s) (stats s) (capacity s).

(** [if let Some(id) = o && let Some(e) = entries.get_mut(&id) { e.next = v }],
    and the same for [prev]. *)
Definition set_next (o v : option PageId) (m : gmap PageId CacheEntry) : gmap PageId CacheEntry :=
  match o with
  | Some k => alter (fun e => mkEntry (page e) (dirty e) (prev e) v) k m
  | None => m
  end.
Definition set_prev (o v : option PageId) (m : gmap PageId CacheEntry) : gmap PageId CacheEntry :=
  match o with
  | Some k => alter (fun e => mkEntry (page e) (dirty e) v (next e)) k m
  | None => m
  end.

(** Take the entry out of its place in the list. *)
Definition unlink (s : t) (page_id : PageId) : t :=
  match entries s !! page_id with
  | Some e =>
      mk (set_prev (next e) (prev e) (set_next (prev e) (next e) (entries s)))
         (lru_head s)
         (if decide (lru_tail s = Some page_id) then prev e else lru_tail s)
         (stats s) (capacity s)
  | None => s
  end.

(** Link the entry in front of the list. *)
Definition push_front (s : t) (page_id : PageId) : t :=
  mk (set_prev (lru_head s) (Some page_id) (entries s))
     (Some page_id)
     (match lru_tail s with None => Some page_id | o => o end)
     (stats s) (capacity s).

Definition move_to_front (s : t) (page_id : PageId) : t :=
  if decide (lru_head s = Some page_id) then s
  else
    let s := unlink s page_id in
    let entry e := mkEntry (page e) (dirty e) None (lru_head s) in
    push_front (with_entries (alter entry page_id (entries s)) s) page_id.

Definition remove_entry (s : t) (page_id : PageId) : option Page.t * t :=
  match entries s !! page_id with
  | None => (None, s)
  | Some e =>
      let m := delete page_id (entries s) in
      let m := set_next (prev e) (next e) m in
      let head := match prev e with Some _ => lru_head s | None => next e end in
      let m := set_prev (next e) (prev e) m in
      let tail := match next e with Some _ => lru_tail s | None => prev e end in
      let st := CacheStats.sized (Z.of_nat (size m)) (stats s) in
      if dirty e then
        (Some (page e), mk m head tail
           (CacheStats.dirtied (Z.max 0 (CacheStats.dirty_pages st - 1)) st) (capacity s))
      else (None, mk m head tail st (capacity s))
  end.

Definition evict_lru (s : t) : option Page.t * t :=
  match lru_tail s with
  | None => (None, s)
  | Some tail_id => remove_entry (with_stats CacheStats.evicted s) tail_id
  end.

(** The parts of the [PageCache] methods that run under the shard's lock. *)
Definition get (s : t) (page_id : PageId) : option Page.t * t :=
  match entries s !! page_id with
  | Some e => (Some (page e), move_to_front (with_stats CacheStats.hit s) page_id)
  | None => (None, with_stats CacheStats.miss s)
  end.

Definition put (s : t) (p : Page.t) (d : bool) : option Page.t * t :=
  let page_id := Page.page_id p in
  match entries s !! page_id with
  | Some e =>
      let e' := mkEntry p (dirty e || d) (prev e) (next e) in
      (None, move_to_front (with_entries (<[page_id := e']> (entries s)) s) page_id)
  | None =>
      let '(evicted, s) := if capacity s <=? len s then evict_lru s else (None, s) in
      let entry := mkEntry p d None (lru_head s) in
      let s := push_front (with_entries (<[page_id := entry]> (entries s)) s) page_id in
      let s := with_stats (CacheStats.sized (len s)) s in
      let s := if d then with_stats (fun st => CacheStats.dirtied (CacheStats.dirty_pages st + 1) st) s
               else s in
      (evicted, s)
  end.

Definition contains (s : t) (page_id : PageId) : bool := bool_decide (is_Some (entries s !! page_id)).

Definition set_dirty (d : bool) (e : CacheEntry) : CacheEntry := mkEntry (page e) d (prev e) (next e).

Definition mark_dirty (s : t) (page_id : PageId) : bool * t :=
  match entries s !! page_id with
  | Some e =>
      (true,
       if dirty e then s
       else with_stats (fun st => CacheStats.dirtied (CacheStats.dirty_pages st + 1) st)
              (with_entries (<[page_id := set_dirty true e]> (entries s)) s))
  | None => (false, s)
  end.

Definition mark_clean (s : t) (page_id : PageId) : bool * t :=
  match entries s !! page_id with
  | Some e =>
      (true,
       if dirty e then
         with_stats (fun st => CacheStats.flushed
                       (CacheStats.dirtied (Z.max 0 (CacheStats.dirty_pages st - 1)) st))
           (with_entries (<[page_id := set_dirty false e]> (entries s)) s)
       else s)
  | None => (false, s)
  end.

Definition is_dirty (s : t) (page_id : PageId) : bool :=
  match entries s !! page_id with Some e => dirty e | None => false end.

Definition dirty_of (l : list (PageId * CacheEntry)) : list (PageId * Page.t) :=
  map (fun x => (x.1, page x.2)) (filter (fun x => dirty x.2 = true) l).

Definition clear (s : t) : t :=
  mk ∅ None None (CacheStats.dirtied 0 (CacheStats.sized 0 (stats s))) (capacity s).

Definition empty (capacity : Z) : t := mk ∅ None None CacheStats.default capacity.
End CacheShard.

Module PageCache.
Record t : Type := mk {
  config : CacheConfig.t; shards : list CacheShard.t; write_back : bool }.

Definition shard_capacity (config : CacheConfig.t) : Z :=
  (CacheConfig.capacity config + NUM_SHARDS - 1) / NUM_SHARDS.

Definition new (config : CacheConfig.t) : t :=
  mk config (replicate (Z.to_nat NUM_SHARDS) (CacheShard.empty (shard_capacity config)))
     (CacheConfig.write_back config).

Definition shard_index (page_id : PageId) : nat := Z.to_nat (page_id mod NUM_SHARDS).

(** [self.shards[shard_idx].write()] and [.read()]: the index is checked. *)
Definition on_shard {A} (f : CacheShard.t -> A * CacheShard.t) (page_id : PageId)
    : stateful t unit A := fun c =>
  let i := shard_index page_id in
  match shards c !! i with
  | Some s => let '(a, s') := f s in (Ok a, mk (config c) (<[i := s']> (shards c)) (write_back c))
  | None => (Panic, c)
  end.
Definition in_shard {A} (f : CacheShard.t -> A) (page_id : PageId) : stateful t unit A := fun c =>
  match shards c !! shard_index page_id with
  | Some s => (Ok (f s), c)
  | None => (Panic, c)
  end.

Definition get (page_id : PageId) := on_shard (fun s => CacheShard.get s page_id) page_id.
Definition put (p : Page.t) (d : bool) :=
  on_shard (fun s => CacheShard.put s p d) (Page.page_id p).
Definition contains (page_id : PageId) := in_shard (fun s => CacheShard.contains s page_id) page_id.
Definition mark_dirty (page_id : PageId) := on_shard (fun s => CacheShard.mark_dirty s page_id) page_id.
Definition mark_clean (page_id : PageId) := on_shard (fun s => CacheShard.mark_clean s page_id) page_id.
Definition is_dirty (page_id : PageId) := in_shard (fun s => CacheShard.is_dirty s page_id) page_id.
Definition remove (page_id : PageId) := on_shard (fun s => CacheShard.remove_entry s page_id) page_id.

Definition size (c : t) : Z := foldr Z.add 0 (map CacheShard.len (shards c)).
Definition stats (c : t) : CacheStats.t :=
  foldl CacheStats.add CacheStats.default (map CacheShard.stats (shards c)).
Definition reset_stats (c : t) : t :=
  mk (config c) (map (CacheShard.with_stats CacheStats.reset) (shards c)) (write_back c).
Definition capacity (c : t) : Z := CacheConfig.capacity (config c).
Definition is_write_back (c : t) : bool := write_back c.

Section Iteration.
Variable hash_order : gmap PageId CacheShard.CacheEntry -> list (PageId * CacheShard.CacheEntry).

Definition get_dirty_pages (c : t) : list (PageId * Page.t) :=
  mjoin (map (fun s => CacheShard.dirty_of (hash_order (CacheShard.entries s))) (shards c)).

Definition clear (c : t) : list (PageId * Page.t) * t :=
  (get_dirty_pages c, mk (config c) (map CacheShard.clear (shards c)) (write_back c)).
End Iteration.
End PageCache.

(** ** The contract: lists in order of use *)
Module Lru.
Abbreviation item := (PageId * (Page.t * bool))%type.
Abbreviation keys := (map (@fst PageId (Page.t * bool))).

Fixpoint find (k : PageId) (l : list item) : option (Page.t * bool) :=
  match l with
  | [] => None
  | (k', v) :: l => if decide (k = k') then Some v else find k l
  end.
Definition without (k : PageId) (l : list item) : list item := filter (fun x => x.1 <> k) l.

Definition set (k : PageId) (v : Page.t * bool) (l : list item) : list item :=
  map (fun x => if decide (x.1 = k) then (k, v) else x) l.

(** What is handed back for an item that leaves the cache. *)
Definition written_back (o : option (Page.t * bool)) : option Page.t :=
  match o with Some (p, true) => Some p | _ => None end.

Definition get (k : PageId) (l : list item) : option Page.t * list item :=
  match find k l with
  | Some v => (Some v.1, (k, v) :: without k l)
  | None => (None, l)
  end.

Definition put (capacity : Z) (p : Page.t) (d : bool) (l : list item) : option Page.t * list item :=
  let k := Page.page_id p in
  match find k l with
  | Some v => (None, (k, (p, v.2 || d)) :: without k l)
  | None =>
      if capacity <=? zlen l
      then (written_back (snd <$> last l), (k, (p, d)) :: removelast l)
      else (None, (k, (p, d)) :: l)
  end.

Definition mark (d : bool) (k : PageId) (l : list item) : bool * list item :=
  match find k l with
  | Some v => (true, set k (v.1, d) l)
  | None => (false, l)
  end.

Definition remove (k : PageId) (l : list item) : option Page.t * list item :=
  (written_back (find k l), without k l).

Definition is_dirty (k : PageId) (l : list item) : bool :=
  match find k l with Some v => v.2 | None => false end.

Definition dirty_pages (l : list item) : list (PageId * Page.t) :=
  omap (fun x => if (x.2.2 : bool) then Some (x.1, x.2.1) else None) l.
End Lru.

(** ** The links spell out the list *)
Module Chain.
Import CacheShard Lru.

Definition hd_key (l : list item) (n : option PageId) : option PageId :=
  match l with [] => n | x :: _ => Some x.1 end.
Fixpoint last_key (p : option PageId) (l : list item) : option PageId :=
  match l with [] => p | x :: l => last_key (Some x.1) l end.

(** The entries of a run of the list between neighbours [p] and [n]. *)
Fixpoint chain (p : option PageId) (l : list item) (n : option PageId) : gmap PageId CacheEntry :=
  match l with
  | [] => ∅
  | (k, (pg, d)) :: l => <[k := mkEntry pg d p (hd_key l n)]> (chain (Some k) l n)
  end.

Definition view (e : CacheEntry) : Page.t * bool := (page e, dirty e).

Lemma hd_key_app l k n : hd_key (l ++ k) n = hd_key l (hd_key k n).
Proof. by destruct l. Qed.
Lemma last_key_app p l k : last_key p (l ++ k) = last_key (last_key p l) k.
Proof. revert p. by induction l as [|x l IH]; intros p; simpl. Qed.

Lemma chain_view p l n k : view <$> chain p l n !! k = find k l.
Proof.
  revert p. induction l as [|[k' [pg d]] l IH]; intros p; simpl; [done|].
  destruct (decide (k = k')) as [->|]; by simplify_map_eq.
Qed.

Lemma find_None k l : find k l = None <-> k ∉ keys l.
Proof.
  induction l as [|[k' v] l IH]; simpl; [set_solver|].
  rewrite not_elem_of_cons. destruct (decide (k = k')); naive_solver.
Qed.

Lemma chain_None p l n k : k ∉ keys l -> chain p l n !! k = None.
Proof. intros Hk%find_None. apply (fmap_None view). by rewrite chain_view. Qed.

Lemma find_Some k v l : find k l = Some v -> exists l1 l2, l = l1 ++ (k, v) :: l2.
Proof.
  induction l as [|[k' v'] l IH]; simpl; [done|]. case_decide; intros Hf; simplify_eq.
  - by exists [], l.
  - destruct (IH Hf) as (l1 & l2 & ->). by exists ((k', v') :: l1), l2.
Qed.

Lemma chain_app p l k n : 
  chain p (l ++ k) n = chain p l (hd_key k n) ∪ chain (last_key p l) k n.
Proof.
  revert p. induction l as [|[k' [pg d]] l IH]; intros p; simpl; [by rewrite (left_id_L ∅ (∪))|].
  by rewrite IH, hd_key_app, insert_union_l.
Qed.

Lemma chain_size p l n : NoDup (keys l) -> size (chain p l n) = length l.
Proof.
  revert p. induction l as [|[k [pg d]] l IH]; intros p; simpl; [done|].
  intros [Hk Hl]%NoDup_cons. rewrite map_size_insert_None, IH; try done. by apply chain_None.
Qed.

Lemma chain_order p l n : NoDup (keys l) ->
  map_to_list (view <$> chain p l n) ≡ₚ l.
Proof.
  revert p. induction l as [|[k [pg d]] l IH]; intros p; simpl; [by rewrite fmap_empty, map_to_list_empty|].
  intros [Hk Hl]%NoDup_cons. rewrite fmap_insert, map_to_list_insert, IH; try done.
  by rewrite lookup_fmap, chain_None.
Qed.

Lemma alter_union_l {A} (f : A -> A) k (m1 m2 : gmap PageId A) :
  m2 !! k = None -> alter f k (m1 ∪ m2) = alter f k m1 ∪ m2.
Proof.
  intros H2. apply map_eq. intros i. destruct (decide (i = k)) as [->|].
  - rewrite lookup_alter_eq, !lookup_union, lookup_alter_eq, H2. by destruct (m1 !! k).
  - by rewrite lookup_alter_ne, !lookup_union, lookup_alter_ne by done.
Qed.

Lemma alter_union_r {A} (f : A -> A) k (m1 m2 : gmap PageId A) :
  m1 !! k = None -> alter f k (m1 ∪ m2) = m1 ∪ alter f k m2.
Proof.
  intros H1. apply map_eq. intros i. destruct (decide (i = k)) as [->|].
  - rewrite lookup_alter_eq, !lookup_union, lookup_alter_eq, H1. by destruct (m2 !! k).
  - by rewrite lookup_alter_ne, !lookup_union, lookup_alter_ne by done.
Qed.

Lemma last_key_in p l k : last_key p l = Some k -> (l = [] /\ p = Some k) \/ k ∈ keys l.
Proof.
  revert p. induction l as [|x l IH]; intros p; simpl; [by left|].
  intros [[-> [= ->]]|H]%IH; right; set_solver.
Qed.

Lemma last_key_ne x p l : last_key p (x :: l) = last_key None (x :: l).
Proof. done. Qed.

Lemma set_next_chain p l n v : NoDup (keys l) ->
  set_next (last_key None l) v (chain p l n) = chain p l v.
Proof.
  revert p. induction l as [|[k [pg d]] l IH]; intros p; [done|].
  simpl. intros [Hk Hl]%NoDup_cons. destruct l as [|y l].
  - simpl. by rewrite alter_insert_eq.
  - change (last_key (Some k) (y :: l)) with (last_key None (y :: l)).
    specialize (IH (Some k) Hl). destruct (last_key None (y :: l)) as [q|] eqn:Hq.
    + simpl in IH |- *. destruct (decide (q = k)) as [->|].
      * apply last_key_in in Hq as [[? ?]|?]; [done|contradiction].
      * rewrite alter_insert_ne by done. by rewrite IH.
    + simpl in Hq. exfalso. clear -Hq. revert Hq. generalize y.1. induction l; naive_solver.
Qed.

Lemma set_prev_chain p l n v :
  set_prev (hd_key l None) v (chain p l n) = chain v l n.
Proof. destruct l as [|[k [pg d]] l]; simpl; [done|]. by rewrite alter_insert_eq. Qed.

Lemma set_next_insert_ne o v k e m : o <> Some k ->
  set_next o v (<[k := e]> m) = <[k := e]> (set_next o v m).
Proof. destruct o as [q|]; simpl; [intros; apply alter_insert_ne; congruence|done]. Qed.
Lemma set_prev_insert_ne o v k e m : o <> Some k ->
  set_prev o v (<[k := e]> m) = <[k := e]> (set_prev o v m).
Proof. destruct o as [q|]; simpl; [intros; apply alter_insert_ne; congruence|done]. Qed.

Lemma keys_mid l1 k (v : Page.t * bool) l2 : NoDup (keys (l1 ++ (k, v) :: l2)) ->
  NoDup (keys (l1 ++ l2)) /\ k ∉ keys l1 /\ k ∉ keys l2 /\
  NoDup (keys l1) /\ forall q, q ∈ keys l1 -> q ∉ keys l2.
Proof.
  rewrite !map_app. simpl. rewrite <- Permutation_middle. intros [Hk Hn]%NoDup_cons.
  pose proof Hn as (? & Hd & ?)%NoDup_app. set_solver.
Qed.

Lemma without_mid l1 k v l2 : NoDup (keys (l1 ++ (k, v) :: l2)) ->
  without k (l1 ++ (k, v) :: l2) = l1 ++ l2.
Proof.
  intros (_ & H1 & H2 & _)%keys_mid. unfold without.
  rewrite filter_app, filter_cons_False by naive_solver.
  f_equal; apply filter_every, Forall_forall; intros y Hy <-;
    [apply H1|apply H2]; by apply list_elem_of_fmap_2.
Qed.

Lemma without_id k l : k ∉ keys l -> without k l = l.
Proof.
  intros Hk. apply filter_every, Forall_forall. intros y Hy <-.
  apply Hk. by apply list_elem_of_fmap_2.
Qed.

(** The entries with the one of [k] taken out, its neighbours not yet joined. *)
Definition gap (k : PageId) (l1 l2 : list item) : gmap PageId CacheEntry :=
  chain None l1 (Some k) ∪ chain (Some k) l2 None.

Lemma chain_mid l1 k v l2 : NoDup (keys (l1 ++ (k, v) :: l2)) ->
  chain None (l1 ++ (k, v) :: l2) None
    = <[k := mkEntry v.1 v.2 (last_key None l1) (hd_key l2 None)]> (gap k l1 l2).
Proof.
  intros (_ & H1 & _)%keys_mid. destruct v as [pg d]. rewrite chain_app. simpl.
  unfold gap. rewrite insert_union_r; [done|]. by apply chain_None.
Qed.

Lemma gap_None l1 k v l2 : NoDup (keys (l1 ++ (k, v) :: l2)) -> gap k l1 l2 !! k = None.
Proof. intros (_ & H1 & H2 & _)%keys_mid. apply lookup_union_None. by rewrite !chain_None. Qed.

Lemma close_gap l1 k v l2 : NoDup (keys (l1 ++ (k, v) :: l2)) ->
  set_prev (hd_key l2 None) (last_key None l1)
    (set_next (last_key None l1) (hd_key l2 None) (gap k l1 l2)) = chain None (l1 ++ l2) None.
Proof.
  intros (_ & H1 & H2 & Hn & Hd)%keys_mid. unfold gap.
  assert (Hnext : set_next (last_key None l1) (hd_key l2 None)
      (chain None l1 (Some k) ∪ chain (Some k) l2 None)
      = chain None l1 (hd_key l2 None) ∪ chain (Some k) l2 None).
  { rewrite <- (set_next_chain None l1 (Some k) (hd_key l2 None) Hn).
    destruct (last_key None l1) as [q|] eqn:Hq; [|done]. simpl.
    apply last_key_in in Hq as [[_ [=]]|Hq]. apply alter_union_l, chain_None. by apply Hd. }
  rewrite Hnext, chain_app, <- (set_prev_chain (Some k) l2 None (last_key None l1)).
  destruct l2 as [|y l2]; [done|]. apply alter_union_r, chain_None.
  intros ?. apply (Hd y.1); [done|]. simpl. set_solver.
Qed.

Lemma last_key_not l1 k v l2 : NoDup (keys (l1 ++ (k, v) :: l2)) -> last_key None l1 <> Some k.
Proof. intros (_ & H1 & _)%keys_mid [[_ [=]]|?]%last_key_in. done. Qed.

Lemma hd_key_not l1 k v l2 : NoDup (keys (l1 ++ (k, v) :: l2)) -> hd_key l2 None <> Some k.
Proof. intros (_ & _ & H2 & _)%keys_mid. destruct l2; simpl; set_solver. Qed.

(** ** The representation invariant of a shard *)
Record links (s : CacheShard.t) (l : list item) : Prop := {
  r_keys : NoDup (keys l);
  r_entries : entries s = chain None l None;
  r_head : lru_head s = hd_key l None;
  r_tail : lru_tail s = last_key None l }.

Record counts (s : CacheShard.t) (l : list item) : Prop := {
  r_size : CacheStats.current_size (stats s) = zlen l;
  r_dirty : 0 <= CacheStats.dirty_pages (stats s) <= zlen (dirty_pages l) }.

Lemma links_len s l : links s l -> len s = zlen l.
Proof. intros []. unfold len, zlen. by rewrite r_entries0, chain_size. Qed.

Lemma links_lookup s l1 k v l2 : links s (l1 ++ (k, v) :: l2) ->
  entries s !! k = Some (mkEntry v.1 v.2 (last_key None l1) (hd_key l2 None)).
Proof. intros []. rewrite r_entries0, chain_mid by done. apply lookup_insert_eq. Qed.

Lemma links_find s l k : links s l -> view <$> entries s !! k = find k l.
Proof. intros []. by rewrite r_entries0, chain_view. Qed.

(** A shard lookup either misses, with the key nowhere in the list, or hits
    an item of the list. *)
Lemma links_cases s l k : links s l ->
  (entries s !! k = None /\ find k l = None /\ k ∉ keys l) \/
  exists l1 v l2, l = l1 ++ (k, v) :: l2 /\ find k l = Some v /\
    entries s !! k = Some (mkEntry v.1 v.2 (last_key None l1) (hd_key l2 None)).
Proof.
  intros Hr. destruct (find k l) as [v|] eqn:Hf.
  - right. destruct (find_Some _ _ _ Hf) as (l1 & l2 & ->). exists l1, v, l2.
    split_and!; [done|done|by apply links_lookup].
  - left. pose proof Hf as Hk%find_None. rewrite <- (links_find s) in Hf by done.
    apply fmap_None in Hf. by split_and!.
Qed.

Lemma dirty_app l k : dirty_pages (l ++ k) = dirty_pages l ++ dirty_pages k.
Proof. apply omap_app. Qed.
Lemma dirty_cons k v l :
  dirty_pages ((k, v) :: l) = (if (v.2 : bool) then [(k, v.1)] else []) ++ dirty_pages l.
Proof. by destruct v as [pg []]. Qed.

Lemma zlen_dirty_mid l1 k v l2 :
  zlen (dirty_pages (l1 ++ (k, v) :: l2))
    = zlen (dirty_pages (l1 ++ l2)) + if (v.2 : bool) then 1 else 0.
Proof. rewrite !dirty_app, dirty_cons, !zlen_app. destruct v as [pg []]; simpl; zlen_tac. Qed.

(** ** The list operations keep the invariant *)
Lemma last_key_hd p x l : last_key p (x :: l) <> None.
Proof. simpl. generalize x.1. induction l; naive_solver. Qed.

Lemma push_front_links s l k p d :
  links s l -> k ∉ keys l ->
  links (push_front (with_entries (<[k := mkEntry p d None (lru_head s)]> (entries s)) s) k)
    ((k, (p, d)) :: l).
Proof.
  intros [Hk He Hh Ht] Hn. constructor; simpl; [by constructor| |done|].
  - rewrite Hh, He, set_prev_insert_ne, set_prev_chain; [done|].
    destruct l; simpl in *; set_solver.
  - rewrite Ht. destruct l as [|y l]; [done|]. simpl.
    pose proof (last_key_hd None y l) as Hne. simpl in Hne. by destruct (last_key _ l).
Qed.

Lemma move_to_front_links s l1 k v l2 :
  links s (l1 ++ (k, v) :: l2) -> links (move_to_front s k) ((k, v) :: l1 ++ l2).
Proof.
  intros Hr. pose proof (links_lookup _ _ _ _ _ Hr) as Hl. destruct Hr as [Hk He Hh Ht].
  pose proof (last_key_not _ _ _ _ Hk) as Hlast. pose proof (hd_key_not _ _ _ _ Hk) as Hhd.
  pose proof (keys_mid _ _ _ _ Hk) as (Hkk & Hk1 & Hk2 & _).
  unfold move_to_front. rewrite Hh. destruct l1 as [|x l1]; [simpl; by rewrite decide_True|].
  rewrite decide_False by (simpl; set_solver). unfold unlink. rewrite Hl. cbn [prev next].
  set (s' := mk _ _ _ _ _). unfold push_front, with_entries. subst s'.
  cbn [entries lru_head lru_tail stats capacity].
  rewrite He, chain_mid by done.
  rewrite set_next_insert_ne, set_prev_insert_ne, (close_gap _ _ _ _ Hk) by done.
  rewrite alter_insert_eq. cbn [page dirty].
  constructor; cbn [entries lru_head lru_tail].
  - rewrite map_cons. constructor; [|done]. rewrite map_app. set_solver.
  - rewrite Hh, set_prev_insert_ne by (simpl; set_solver).
    change (hd_key ((x :: l1) ++ (k, v) :: l2) None) with (hd_key ((x :: l1) ++ l2) None).
    rewrite set_prev_chain. by destruct v.
  - done.
  - rewrite Ht, last_key_app. simpl. destruct l2 as [|y l2].
    + rewrite decide_True by done. rewrite app_nil_r.
      pose proof (last_key_hd None x l1) as Hne. simpl in Hne. by destruct (last_key _ l1).
    + simpl. rewrite decide_False.
      * rewrite last_key_app. simpl.
        pose proof (last_key_hd None y l2) as Hne. simpl in Hne. by destruct (last_key _ l2).
      * intros Hq. change (last_key None (y :: l2) = Some k) in Hq.
        apply last_key_in in Hq as [[_ [=]]|?]. done.
Qed.

Lemma set_absent k w l : k ∉ keys l -> map (fun x => if decide (x.1 = k) then (k, w) else x) l = l.
Proof.
  induction l as [|x l IH]; simpl; [done|]. intros [Hne Hk]%not_elem_of_cons.
  by rewrite decide_False, IH.
Qed.

Lemma set_mid l1 k v l2 w : NoDup (keys (l1 ++ (k, v) :: l2)) ->
  set k w (l1 ++ (k, v) :: l2) = l1 ++ (k, w) :: l2.
Proof.
  intros (_ & H1 & H2 & _)%keys_mid. unfold set. rewrite map_app. simpl.
  rewrite decide_True by done.
  by rewrite !set_absent.
Qed.

Lemma update_links s l1 k v l2 w :
  links s (l1 ++ (k, v) :: l2) ->
  links (with_entries (<[k := mkEntry w.1 w.2 (last_key None l1) (hd_key l2 None)]> (entries s)) s)
    (l1 ++ (k, w) :: l2).
Proof.
  intros [Hk He Hh Ht].
  assert (Hk' : NoDup (keys (l1 ++ (k, w) :: l2))) by (by rewrite map_app in *).
  constructor; simpl; [done| | |].
  - by rewrite He, !chain_mid, insert_insert_eq.
  - rewrite Hh, !hd_key_app. done.
  - rewrite Ht, !last_key_app. done.
Qed.

Lemma remove_links s l1 k v l2 o s' :
  links s (l1 ++ (k, v) :: l2) -> remove_entry s k = (o, s') ->
  o = written_back (Some v) /\ links s' (l1 ++ l2) /\ capacity s' = capacity s /\
  CacheStats.current_size (stats s') = zlen (l1 ++ l2) /\
  CacheStats.dirty_pages (stats s') =
    (let n := CacheStats.dirty_pages (stats s) in if (v.2 : bool) then Z.max 0 (n - 1) else n).
Proof.
  intros Hr. unfold remove_entry. rewrite (links_lookup _ _ _ _ _ Hr).
  destruct Hr as [Hk He Hh Ht]. destruct (keys_mid _ _ _ _ Hk) as (Hkk & _).
  cbn [prev next dirty page].
  rewrite He, chain_mid, delete_insert_id, (close_gap _ _ _ _ Hk), chain_size
    by (done || by eapply gap_None).
  intros Hrm. assert (Hlinks : links s' (l1 ++ l2)).
  { destruct v as [pg []]; cbn [fst snd] in Hrm; simplify_eq; (constructor; simpl; [done|done| |]).
    all: rewrite ?Hh, ?Ht, ?hd_key_app, ?last_key_app; simpl.
    all: try (destruct l1 as [|x l1]; [done|]; simpl;
      pose proof (last_key_hd None x l1) as Hne; simpl in Hne; by destruct (last_key _ l1)).
    all: by destruct l2. }
  destruct v as [pg []]; cbn [fst snd] in Hrm; simplify_eq; by split_and!.
Qed.

Record repr (cap : Z) (s : CacheShard.t) (l : list item) : Prop := {
  rep_links : links s l; rep_counts : counts s l; rep_cap : capacity s = cap }.

(** Same answer, and states that correspond. *)
Definition sim {A} (cap : Z) (r : A * CacheShard.t) (r' : A * list item) : Prop :=
  r.1 = r'.1 /\ repr cap r.2 r'.2.

Lemma repr_empty cap : repr cap (empty cap) [].
Proof. by repeat constructor. Qed.

Lemma repr_stats cap s l f : repr cap s l ->
  (forall st, CacheStats.current_size (f st) = CacheStats.current_size st /\
  CacheStats.dirty_pages (f st) = CacheStats.dirty_pages st) ->
  repr cap (with_stats f s) l.
Proof.
  intros [[] [] ?] Hf. destruct (Hf (stats s)) as [E1 E2].
  constructor; [by constructor| |done]. constructor; simpl; by rewrite ?E1, ?E2.
Qed.

Lemma move_to_front_counts s k :
  stats (move_to_front s k) = stats s /\ capacity (move_to_front s k) = capacity s.
Proof.
  unfold move_to_front, push_front, unlink, with_entries. case_decide; [done|].
  by destruct (entries s !! k).
Qed.

Lemma move_to_front_repr cap s l1 k v l2 :
  repr cap s (l1 ++ (k, v) :: l2) -> repr cap (move_to_front s k) ((k, v) :: l1 ++ l2).
Proof.
  intros [Hl [Hs Hd] Hc]. destruct (move_to_front_counts s k) as [Est Ecap].
  constructor; [by apply move_to_front_links| |by rewrite Ecap].
  constructor; rewrite Est.
  - rewrite Hs. zlen_tac.
  - rewrite zlen_dirty_mid in Hd. rewrite dirty_cons, zlen_app.
    destruct v as [pg []]; simpl in *; zlen_tac.
Qed.

Lemma remove_entry_sim cap s l k : repr cap s l -> sim cap (remove_entry s k) (remove k l).
Proof.
  intros Hr. unfold sim, remove. destruct (links_cases s l k (rep_links _ _ _ Hr))
    as [(He & -> & Hk)|(l1 & v & l2 & -> & -> & He)].
  - unfold remove_entry. rewrite He, without_id by done. done.
  - destruct Hr as [Hl [Hs Hd] Hc]. destruct (remove_entry s k) as [o s'] eqn:Hrm.
    destruct (remove_links _ _ _ _ _ _ _ Hl Hrm) as (-> & Hl' & Hc' & Hs' & Hd'). simpl.
    rewrite without_mid by apply Hl. split; [done|]. constructor; [done| |congruence].
    constructor; [done|]. rewrite Hd'. rewrite zlen_dirty_mid in Hd.
    pose proof (zlen_nonneg (dirty_pages (l1 ++ l2))). destruct v as [pg []]; simpl in *; lia.
Qed.

Lemma get_sim cap s l k : repr cap s l -> sim cap (CacheShard.get s k) (get k l).
Proof.
  intros Hr. unfold CacheShard.get, get. destruct (links_cases s l k (rep_links _ _ _ Hr))
    as [(-> & -> & Hk)|(l1 & v & l2 & -> & -> & ->)].
  - split; [done|]. simpl. by apply repr_stats.
  - split; [done|]. simpl. rewrite without_mid by apply Hr.
    by apply move_to_front_repr, repr_stats.
Qed.

Lemma last_app_key l k v : last_key None (l ++ [(k, v)]) = Some k.
Proof. by rewrite last_key_app. Qed.

Lemma evict_lru_sim cap s l : repr cap s l ->
  sim cap (evict_lru s) (written_back (snd <$> last l), removelast l).
Proof.
  intros Hr. unfold evict_lru. rewrite (r_tail _ _ (rep_links _ _ _ Hr)).
  destruct l as [|[k v] l _] using rev_ind; [done|].
  rewrite last_app_key, last_snoc, removelast_last. simpl.
  pose proof (remove_entry_sim cap (with_stats CacheStats.evicted s) (l ++ [(k, v)]) k) as Hs.
  specialize (Hs (repr_stats _ _ _ CacheStats.evicted Hr ltac:(done))).
  unfold remove in Hs. rewrite without_mid, app_nil_r in Hs by apply Hr.
  assert (find k (l ++ [(k, v)]) = Some v) as Hf; [|by rewrite Hf in Hs].
  rewrite <- (links_find s) by apply Hr. erewrite (links_lookup s l k v []) by apply Hr.
  by destruct v.
Qed.

Lemma push_front_counts s l k p (d : bool) :
  counts s l -> links s l -> k ∉ keys l ->
  let s1 := push_front (with_entries (<[k := mkEntry p d None (lru_head s)]> (entries s)) s) k in
  let s2 := with_stats (CacheStats.sized (len s1)) s1 in
  let s3 := if d then with_stats (fun st => CacheStats.dirtied (CacheStats.dirty_pages st + 1) st) s2
            else s2 in
  repr (capacity s) s3 ((k, (p, d)) :: l).
Proof.
  intros [Hs Hd] Hl Hk s1 s2 s3. pose proof (push_front_links s l k p d Hl Hk) as Hl1.
  fold s1 in Hl1. pose proof (links_len _ _ Hl1) as Hlen. destruct Hl1.
  constructor; [destruct d; by constructor| |by destruct d].
  constructor.
  - destruct d; simpl; by rewrite Hlen.
  - rewrite dirty_cons, zlen_app. destruct d; simpl; zlen_tac.
Qed.

Lemma put_sim cap s l p d : repr cap s l -> sim cap (CacheShard.put s p d) (put cap p d l).
Proof.
  intros Hr. unfold CacheShard.put, put.
  destruct (links_cases s l (Page.page_id p) (rep_links _ _ _ Hr))
    as [(-> & -> & Hk)|(l1 & v & l2 & -> & -> & ->)].
  - rewrite (links_len s l) by apply Hr. rewrite (rep_cap _ _ _ Hr).
    destruct (cap <=? zlen l).
    + pose proof (evict_lru_sim cap s l Hr) as [He Hs]. destruct (evict_lru s) as [o s'].
      simpl in He, Hs. subst o. split; [done|]. destruct Hs as [Hl Hc <-].
      apply push_front_counts; [done|done|]. intros Hin. apply Hk.
      destruct l as [|x l _] using rev_ind; [done|]. rewrite removelast_last in Hin.
      rewrite map_app. set_solver.
    + split; [done|]. destruct Hr as [Hl Hc <-]. by apply push_front_counts.
  - split; [done|]. simpl. rewrite without_mid by apply Hr.
    apply move_to_front_repr. destruct Hr as [Hl [Hs Hd] Hc].
    constructor; [by apply (update_links s l1 _ v l2 (p, v.2 || d))| |done].
    constructor; simpl; [rewrite Hs; zlen_tac|]. rewrite zlen_dirty_mid in *.
    destruct v as [pg []], d; simpl in *; lia.
Qed.

Lemma mark_dirty_sim cap s l k : repr cap s l -> sim cap (CacheShard.mark_dirty s k) (mark true k l).
Proof.
  intros Hr. unfold CacheShard.mark_dirty, mark.
  destruct (links_cases s l k (rep_links _ _ _ Hr)) as [(-> & -> & Hk)|(l1 & v & l2 & -> & -> & ->)].
  - done.
  - split; [done|]. simpl. rewrite set_mid by apply Hr. destruct v as [pg [|]]; simpl; [done|].
    destruct Hr as [Hl [Hs Hd] Hc].
    destruct (update_links s l1 k _ l2 (pg, true) Hl). constructor; [by constructor| |done].
    constructor; simpl; [rewrite Hs; zlen_tac|]. rewrite zlen_dirty_mid in *. simpl in *. lia.
Qed.

Lemma mark_clean_sim cap s l k : repr cap s l -> sim cap (CacheShard.mark_clean s k) (mark false k l).
Proof.
  intros Hr. unfold CacheShard.mark_clean, mark.
  destruct (links_cases s l k (rep_links _ _ _ Hr)) as [(-> & -> & Hk)|(l1 & v & l2 & -> & -> & ->)].
  - done.
  - split; [done|]. simpl. rewrite set_mid by apply Hr. destruct v as [pg [|]]; simpl; [|done].
    destruct Hr as [Hl [Hs Hd] Hc].
    destruct (update_links s l1 k _ l2 (pg, false) Hl). constructor; [by constructor| |done].
    constructor; simpl; [rewrite Hs; zlen_tac|]. rewrite zlen_dirty_mid in *. simpl in *.
    pose proof (zlen_nonneg (dirty_pages (l1 ++ l2))). lia.
Qed.
End Chain.

(** ** The cache refines one list per shard *)
Module CacheRefinement.
Import Lru Chain.

Inductive op : Type :=
  | Get (k : PageId) | Put (p : Page.t) (d : bool) | Contains (k : PageId)
  | MarkDirty (k : PageId) | MarkClean (k : PageId) | IsDirty (k : PageId)
  | GetDirtyPages | Remove (k : PageId) | Clear | Size | ResetStats.
Inductive result : Type :=
  | RPage (o : option Page.t) | RBool (b : bool) | RPages (l : list (PageId * Page.t))
  | RSize (n : Z) | RUnit.

Section Runs.
Variable hash_order :
  gmap PageId CacheShard.CacheEntry -> list (PageId * CacheShard.CacheEntry).

Definition run (o : op) : stateful PageCache.t unit result :=
  match o with
  | Get k => r ← PageCache.get k; mret (RPage r)
  | Put p d => r ← PageCache.put p d; mret (RPage r)
  | Contains k => r ← PageCache.contains k; mret (RBool r)
  | MarkDirty k => r ← PageCache.mark_dirty k; mret (RBool r)
  | MarkClean k => r ← PageCache.mark_clean k; mret (RBool r)
  | IsDirty k => r ← PageCache.is_dirty k; mret (RBool r)
  | GetDirtyPages => fun c => (Ok (RPages (PageCache.get_dirty_pages hash_order c)), c)
  | Remove k => r ← PageCache.remove k; mret (RPage r)
  | Clear => fun c => let '(l, c') := PageCache.clear hash_order c in (Ok (RPages l), c')
  | Size => fun c => (Ok (RSize (PageCache.size c)), c)
  | ResetStats => fun c => (Ok RUnit, PageCache.reset_stats c)
  end.

Fixpoint exec (os : list op) : stateful PageCache.t unit (list result) :=
  match os with
  | [] => mret []
  | o :: os => r ← run o; rs ← exec os; mret (r :: rs)
  end.
End Runs.

(** The same calls on the lists. *)
Definition at_shard {A} (f : list item -> A * list item) (k : PageId) (w : A -> result)
    (ls : list (list item)) : result * list (list item) :=
  let i := PageCache.shard_index k in
  let '(a, l) := f (ls !!! i) in (w a, <[i := l]> ls).

Definition all_dirty (ls : list (list item)) : list (PageId * Page.t) := mjoin (map dirty_pages ls).

Definition spec (cap : Z) (o : op) (ls : list (list item)) : result * list (list item) :=
  match o with
  | Get k => at_shard (get k) k RPage ls
  | Put p d => at_shard (put cap p d) (Page.page_id p) RPage ls
  | Contains k => (RBool (bool_decide (is_Some (find k (ls !!! PageCache.shard_index k)))), ls)
  | MarkDirty k => at_shard (mark true k) k RBool ls
  | MarkClean k => at_shard (mark false k) k RBool ls
  | IsDirty k => (RBool (is_dirty k (ls !!! PageCache.shard_index k)), ls)
  | GetDirtyPages => (RPages (all_dirty ls), ls)
  | Remove k => at_shard (remove k) k RPage ls
  | Clear => (RPages (all_dirty ls), map (fun _ => []) ls)
  | Size => (RSize (foldr Z.add 0 (map zlen ls)), ls)
  | ResetStats => (RUnit, ls)
  end.

Fixpoint spec_exec (cap : Z) (os : list op) (ls : list (list item))
    : list result * list (list item) :=
  match os with
  | [] => ([], ls)
  | o :: os =>
      let '(r, ls) := spec cap o ls in
      let '(rs, ls) := spec_exec cap os ls in (r :: rs, ls)
  end.

Definition init : list (list item) := replicate (Z.to_nat NUM_SHARDS) [].

(** Equal answers, sets of pages in any order. *)
Definition same (r r' : result) : Prop :=
  match r, r' with RPages l, RPages l' => l ≡ₚ l' | _, _ => r = r' end.

Lemma same_refl r : same r r.
Proof. by destruct r; simpl. Qed.

Record cache_repr (cap : Z) (c : PageCache.t) (ls : list (list item)) : Prop := {
  cr_len : length ls = Z.to_nat NUM_SHARDS;
  cr_shards : Forall2 (repr cap) (PageCache.shards c) ls }.

Lemma shard_index_lt k : (PageCache.shard_index k < Z.to_nat NUM_SHARDS)%nat.
Proof. unfold PageCache.shard_index, NUM_SHARDS. pose proof (Z.mod_pos_bound k 32). lia. Qed.

Lemma cache_repr_shard cap c ls k : cache_repr cap c ls ->
  exists s, PageCache.shards c !! PageCache.shard_index k = Some s /\
    ls !! PageCache.shard_index k = Some (ls !!! PageCache.shard_index k) /\
    repr cap s (ls !!! PageCache.shard_index k).
Proof.
  intros [Hlen Hs]. pose proof (shard_index_lt k) as Hi. rewrite <- Hlen in Hi.
  apply list_lookup_lookup_total_lt in Hi.
  destruct (Forall2_lookup_r _ _ _ _ _ Hs Hi) as (s & ? & ?). by exists s.
Qed.

Lemma on_shard_sim {A} cap c ls k (f : CacheShard.t -> A * CacheShard.t) g (w : A -> result) :
  cache_repr cap c ls ->
  (forall s l, repr cap s l -> sim cap (f s) (g l)) ->
  exists r c', (x ← PageCache.on_shard f k; mret (w x)) c = (Ok r, c') /\
    r = (at_shard g k w ls).1 /\ cache_repr cap c' (at_shard g k w ls).2.
Proof.
  intros Hc Hf. destruct (cache_repr_shard _ _ _ k Hc) as (s & Hs & Hl & Hr).
  destruct (Hf _ _ Hr) as [Ha Hr']. destruct Hc as [Hlen Hsh].
  unfold at_shard, PageCache.on_shard, mbind, stateful_bind. rewrite Hs.
  destruct (f s) as [a s'], (g _) as [a' l']. simpl in *. subst a'.
  eexists _, _. split_and!; [done|done|]. constructor; [by rewrite length_insert|].
  by apply Forall2_insert.
Qed.

Lemma in_shard_ok {A} (f : CacheShard.t -> A) k c s :
  PageCache.shards c !! PageCache.shard_index k = Some s ->
  PageCache.in_shard f k c = (Ok (f s), c).
Proof. unfold PageCache.in_shard. by intros ->. Qed.

Lemma dirty_of_app l k : CacheShard.dirty_of (l ++ k) = CacheShard.dirty_of l ++ CacheShard.dirty_of k.
Proof. unfold CacheShard.dirty_of. by rewrite filter_app, map_app. Qed.

Lemma dirty_of_view l :
  CacheShard.dirty_of l = dirty_pages (map (fun x => (x.1, view x.2)) l).
Proof.
  induction l as [|[k e] l IH]; [done|]. unfold CacheShard.dirty_of in *.
  rewrite map_cons. cbn [fst snd]. rewrite dirty_cons, <- IH, filter_cons. unfold view. cbn [fst snd].
  by destruct (CacheShard.dirty e).
Qed.

Section Refines.
Variable hash_order :
  gmap PageId CacheShard.CacheEntry -> list (PageId * CacheShard.CacheEntry).
Hypothesis hash_order_all : forall m, hash_order m ≡ₚ map_to_list m.

Lemma shard_dirty cap s l : repr cap s l ->
  CacheShard.dirty_of (hash_order (CacheShard.entries s)) ≡ₚ dirty_pages l.
Proof.
  intros [[Hk He _ _] _ _]. rewrite dirty_of_view. unfold dirty_pages.
  apply omap_Permutation. rewrite hash_order_all, He.
  transitivity (map_to_list (view <$> chain None l None)); [by rewrite map_to_list_fmap|].
  by apply chain_order.
Qed.

Lemma all_dirty_sim cap ss ls : Forall2 (repr cap) ss ls ->
  mjoin (map (fun s => CacheShard.dirty_of (hash_order (CacheShard.entries s))) ss) ≡ₚ all_dirty ls.
Proof.
  unfold all_dirty. induction 1 as [|s l ss ls Hr _ IH]; simpl; [done|].
  by rewrite IH, (shard_dirty cap s l).
Qed.

Lemma size_sim cap ss ls : Forall2 (repr cap) ss ls ->
  foldr Z.add 0 (map CacheShard.len ss) = foldr Z.add 0 (map zlen ls).
Proof. induction 1 as [|s l ss ls Hr _ IH]; simpl; [done|]. by rewrite IH, (links_len s l) by apply Hr. Qed.

Lemma run_sim cap c ls o : cache_repr cap c ls ->
  exists r c', run hash_order o c = (Ok r, c') /\ same r (spec cap o ls).1 /\
    cache_repr cap c' (spec cap o ls).2.
Proof.
  intros Hc.
  assert (Hshard : forall A k (f : CacheShard.t -> A * CacheShard.t) g (w : A -> result),
    (forall s l, repr cap s l -> sim cap (f s) (g l)) ->
    exists r c', (x ← PageCache.on_shard f k; mret (w x)) c = (Ok r, c') /\
      same r (at_shard g k w ls).1 /\ cache_repr cap c' (at_shard g k w ls).2).
  { intros A k f g w Hf. destruct (on_shard_sim cap c ls k f g w Hc Hf) as (r & c' & ? & -> & ?).
    eexists _, c'. split_and!; [done|apply same_refl|done]. }
  destruct o.
  all: try (apply Hshard; intros; first [by apply get_sim|by apply put_sim|by apply mark_dirty_sim
      |by apply mark_clean_sim|by apply remove_entry_sim]).
  - destruct (cache_repr_shard _ _ _ k Hc) as (s & Hs & _ & Hr). eexists _, c.
    split_and!; [exact (sbind_ok _ _ _ _ _ (in_shard_ok (fun s => CacheShard.contains s k) k c s Hs))| |done].
    simpl. unfold CacheShard.contains. rewrite <- (links_find s) by apply Hr.
    f_equal. apply bool_decide_ext. by rewrite fmap_is_Some.
  - destruct (cache_repr_shard _ _ _ k Hc) as (s & Hs & _ & Hr). eexists _, c.
    split_and!; [exact (sbind_ok _ _ _ _ _ (in_shard_ok (fun s => CacheShard.is_dirty s k) k c s Hs))| |done].
    simpl. unfold CacheShard.is_dirty, is_dirty. rewrite <- (links_find s) by apply Hr.
    by destruct (_ !! k).
  - eexists _, _. split_and!; [done| |done]. simpl. by eapply all_dirty_sim, Hc.
  - eexists _, _. split_and!; [done|simpl; by eapply all_dirty_sim, Hc|].
    destruct Hc as [Hlen Hs]. constructor; simpl; [by rewrite length_map|].
    clear Hlen Hshard. induction Hs as [|s l ss ls Hr _ IH]; [constructor|constructor; [|done]].
    destruct Hr as [_ _ <-]. constructor; [by repeat constructor| |done]. by constructor.
  - eexists _, _. split_and!; [done| |done]. simpl. f_equal. by eapply size_sim, Hc.
  - eexists _, _. split_and!; [done|done|]. destruct Hc as [Hlen Hs]. constructor; [done|].
    simpl. clear Hlen Hshard. induction Hs as [|s l ss ls Hr _ IH]; [constructor|constructor; [|done]].
    by apply repr_stats.
Qed.

Lemma exec_sim cap os : forall c ls, cache_repr cap c ls ->
  exists rs c', exec hash_order os c = (Ok rs, c') /\
    Forall2 same rs (spec_exec cap os ls).1 /\ cache_repr cap c' (spec_exec cap os ls).2.
Proof.
  induction os as [|o os IH]; intros c ls Hc; [by exists [], c|].
  destruct (run_sim cap c ls o Hc) as (r & c1 & Hrun & Hsame & Hc1).
  destruct (IH _ _ Hc1) as (rs & c2 & Hexec & Hall & Hc2).
  exists (r :: rs), c2. simpl. destruct (spec cap o ls) as [r' ls1]. simpl in *.
  destruct (spec_exec cap os ls1) as [rs' ls2]. simpl in *.
  rewrite (sbind_ok _ _ _ _ _ Hrun), (sbind_ok _ _ _ _ _ Hexec). by split_and!; [|constructor|].
Qed.

Lemma new_repr config :
  cache_repr (PageCache.shard_capacity config) (PageCache.new config) init.
Proof. constructor; [done|]. apply Forall2_replicate, repr_empty. Qed.
End Refines.

(** ** The ledger of unwritten pages

    What a caller knows from the calls it made and the answers it got: the
    page it last put under each id, and the pages that still have to be
    written back.  A page becomes unwritten by [put] with the dirty flag or
    by [mark_dirty], and stops being so when it is marked clean or removed,
    or when the cache hands it back. *)
Record ledger : Type := mkLedger {
  latest : gmap PageId Page.t; pending : gmap PageId Page.t }.

Definition record (g : ledger) (x : op * result) : ledger :=
  match x with
  | (Put p d, RPage ev) =>
      let k := Page.page_id p in
      let rest := match ev with
                  | Some q => delete (Page.page_id q) (pending g)
                  | None => pending g
                  end in
      mkLedger (<[k := p]> (latest g))
        (if d || bool_decide (is_Some (pending g !! k)) then <[k := p]> rest else rest)
  | (MarkDirty k, RBool true) =>
      match latest g !! k with
      | Some p => mkLedger (latest g) (<[k := p]> (pending g))
      | None => g
      end
  | (MarkClean k, _) | (Remove k, _) => mkLedger (latest g) (delete k (pending g))
  | (Clear, _) => mkLedger (latest g) ∅
  | _ => g
  end.

Definition ledger_of (os : list op) (rs : list result) : ledger :=
  foldl record (mkLedger ∅ ∅) (zip os rs).

Definition cached (ls : list (list item)) (k : PageId) : option (Page.t * bool) :=
  find k (ls !!! PageCache.shard_index k).

Lemma find_without q k l : find q (without k l) = if decide (q = k) then None else find q l.
Proof.
  unfold without. induction l as [|[k' v] l IH]; [simpl; by case_decide|].
  destruct (decide (k' = k)) as [->|Hne].
  - rewrite filter_cons_False, IH by naive_solver. cbn [find]. by case_decide.
  - rewrite filter_cons_True by done. cbn [find]. rewrite IH. repeat case_decide; congruence.
Qed.

Lemma find_push q k v l :
  find q ((k, v) :: without k l) = if decide (q = k) then Some v else find q l.
Proof. simpl. rewrite find_without. by case_decide. Qed.

Lemma find_set q k v l :
  find q (set k v l) = if decide (q = k) then (fun _ => v) <$> find k l else find q l.
Proof.
  unfold set. induction l as [|[k' w] l IH]; simpl; [by case_decide|].
  destruct (decide (k' = k)) as [->|]; simpl; rewrite IH; repeat case_decide;
    by simplify_eq.
Qed.

Lemma find_snoc q l k v :
  find q (l ++ [(k, v)]) = match find q l with Some w => Some w | None => if decide (q = k) then Some v else None end.
Proof. induction l as [|[k' w] l IH]; simpl; [done|]. by destruct (decide (q = k')). Qed.

Lemma find_removelast q l : NoDup (keys l) ->
  find q (removelast l) = if decide (Some q = fst <$> last l) then None else find q l.
Proof.
  destruct l as [|[k v] l _] using rev_ind; [intros; by case_decide|].
  rewrite removelast_last, last_snoc, find_snoc. simpl. intros (_ & Hk & _)%keys_mid.
  apply find_None in Hk. case_decide; simplify_eq; [done|].
  destruct (find q l); [done|]. rewrite decide_False; [done|congruence].
Qed.

Lemma find_last l x : NoDup (keys l) -> last l = Some x -> find x.1 l = Some x.2.
Proof.
  intros Hn Hl. destruct l as [|[k v] l _] using rev_ind; [done|].
  rewrite last_snoc in Hl. simplify_eq. rewrite find_snoc. simpl.
  apply keys_mid in Hn as (_ & Hk & _). apply find_None in Hk. by rewrite Hk, decide_True.
Qed.

Lemma elem_find l k v : NoDup (keys l) -> (k, v) ∈ l <-> find k l = Some v.
Proof.
  induction l as [|[k' w] l IH]; simpl; [set_solver|]. intros [Hk Hl]%NoDup_cons.
  rewrite elem_of_cons. specialize (IH Hl). case_decide as Hd; subst.
  - split; [intros [?|Hin]; [congruence|]|intros [= ->]; by left].
    destruct Hk. by apply (list_elem_of_fmap_2 fst) in Hin.
  - naive_solver.
Qed.

Lemma elem_dirty l k p : NoDup (keys l) -> (k, p) ∈ dirty_pages l <-> find k l = Some (p, true).
Proof.
  intros Hn. rewrite <- elem_find by done. unfold dirty_pages. rewrite list_elem_of_omap. split.
  - intros ([k' [p' []]] & Hin & Hs); by simplify_eq/=.
  - intros Hin. by exists (k, (p, true)).
Qed.

Record ledger_inv (g : ledger) (ls : list (list item)) : Prop := {
  li_pending : forall k, pending g !! k = written_back (cached ls k);
  li_latest : forall k v, cached ls k = Some v -> latest g !! k = Some v.1;
  li_home : forall i l k v, ls !! i = Some l -> find k l = Some v ->
    PageCache.shard_index k = i /\ Page.page_id v.1 = k }.

Lemma cached_at f k (ls : list (list item)) l q :
  ls !! PageCache.shard_index k = Some l ->
  cached (<[PageCache.shard_index k := f]> ls) q
    = if decide (PageCache.shard_index q = PageCache.shard_index k) then find q f else cached ls q.
Proof.
  intros Hl%lookup_lt_Some. unfold cached. case_decide as Hq.
  - by rewrite Hq, list_lookup_total_insert_eq.
  - by rewrite list_lookup_total_insert_ne.
Qed.

(** One shard changes: what has to be shown is about its list only. *)
Lemma ledger_at g g' ls k l l' :
  ledger_inv g ls -> ls !! PageCache.shard_index k = Some l ->
  (forall q, PageCache.shard_index q <> PageCache.shard_index k ->
     pending g' !! q = pending g !! q /\ latest g' !! q = latest g !! q) ->
  (forall q, pending g !! q = written_back (find q l) ->
     (forall v, find q l = Some v -> latest g !! q = Some v.1) ->
     PageCache.shard_index q = PageCache.shard_index k ->
     pending g' !! q = written_back (find q l') /\
     forall v, find q l' = Some v -> latest g' !! q = Some v.1) ->
  (forall q v, find q l' = Some v -> find q l = Some v \/ q = k /\ Page.page_id v.1 = k) ->
  ledger_inv g' (<[PageCache.shard_index k := l']> ls).
Proof.
  intros [Hp Hlat Hhome] Hl Hother Hshard Hnew.
  assert (Hc : forall q, PageCache.shard_index q = PageCache.shard_index k -> cached ls q = find q l).
  { intros q Hq. unfold cached. by rewrite Hq, (list_lookup_total_correct _ _ _ Hl). }
  constructor.
  - intros q. rewrite (cached_at _ _ _ _ _ Hl). case_decide as Hq.
    + apply Hshard; [by rewrite Hp, Hc|intros v Hv; apply Hlat; by rewrite Hc|done].
    + rewrite (proj1 (Hother q Hq)). apply Hp.
  - intros q v. rewrite (cached_at _ _ _ _ _ Hl). case_decide as Hq.
    + apply Hshard; [by rewrite Hp, Hc|intros w Hw; apply Hlat; by rewrite Hc|done].
    + rewrite (proj2 (Hother q Hq)). apply Hlat.
  - intros j m q v Hm Hf. destruct (decide (j = PageCache.shard_index k)) as [->|Hj].
    + rewrite list_lookup_insert_eq in Hm by (by eapply lookup_lt_Some). simplify_eq.
      destruct (Hnew q v Hf) as [Hold|[-> Hpg]]; [by eapply Hhome|done].
    + rewrite list_lookup_insert_ne in Hm by done. by eapply Hhome.
Qed.

Definition shards_nodup (ls : list (list item)) : Prop :=
  length ls = Z.to_nat NUM_SHARDS /\ Forall (fun l => NoDup (keys l)) ls.

Lemma repr_nodup cap c ls : cache_repr cap c ls -> shards_nodup ls.
Proof.
  intros [Hlen Hs]. split; [done|]. clear Hlen. induction Hs as [|s l ss ls Hr _ IH]; [constructor|].
  constructor; [|done]. apply Hr.
Qed.

Lemma shards_lookup ls k : shards_nodup ls ->
  ls !! PageCache.shard_index k = Some (ls !!! PageCache.shard_index k) /\
  NoDup (keys (ls !!! PageCache.shard_index k)).
Proof.
  intros [Hlen Hn]. pose proof (shard_index_lt k) as Hi. rewrite <- Hlen in Hi.
  apply list_lookup_lookup_total_lt in Hi. split; [done|].
  rewrite Forall_lookup in Hn. by eapply Hn.
Qed.

Lemma ledger_get cap g ls k r : shards_nodup ls -> ledger_inv g ls ->
  ledger_inv (record g (Get k, r)) (spec cap (Get k) ls).2.
Proof.
  intros Hn Hg. destruct (shards_lookup ls k Hn) as [Hl _]. simpl. unfold at_shard, get.
  destruct (find k _) as [v|] eqn:Hf; simpl.
  - eapply (ledger_at g g ls k _ _ Hg Hl); [done| |].
    + intros q Hp Hv _. rewrite find_push. case_decide; subst; by rewrite ?Hf in *.
    + intros q w. rewrite find_push. case_decide; subst; [|by left]. intros [= <-]. by left.
  - by rewrite list_insert_id.
Qed.

Lemma ledger_remove cap g ls k r : shards_nodup ls -> ledger_inv g ls ->
  ledger_inv (record g (Remove k, r)) (spec cap (Remove k) ls).2.
Proof.
  intros Hn Hg. destruct (shards_lookup ls k Hn) as [Hl _]. simpl. unfold at_shard, remove. simpl.
  eapply (ledger_at g _ ls k _ _ Hg Hl); simpl.
  - intros q Hq. by rewrite lookup_delete_ne by congruence.
  - intros q Hp Hv _. rewrite find_without. case_decide; subst.
    + by rewrite lookup_delete_eq.
    + by rewrite lookup_delete_ne by congruence.
  - intros q w. rewrite find_without. case_decide; [done|by left].
Qed.

Lemma ledger_mark cap g ls k (d : bool) :
  let o := if d then MarkDirty k else MarkClean k in
  shards_nodup ls -> ledger_inv g ls ->
  ledger_inv (record g (o, (spec cap o ls).1)) (spec cap o ls).2.
Proof.
  intros o Hn Hg. destruct (shards_lookup ls k Hn) as [Hl _].
  assert (Hk : find k (ls !!! PageCache.shard_index k) = cached ls k) by done.
  pose proof (li_pending _ _ Hg k) as Hpk. rewrite <- Hk in Hpk.
  destruct (find k (ls !!! PageCache.shard_index k)) as [v|] eqn:Hf.
  - assert (Hlat : latest g !! k = Some v.1) by (by apply (li_latest _ _ Hg)).
    assert (Hspec : spec cap o ls
      = (RBool true, <[PageCache.shard_index k := set k (v.1, d) (ls !!! PageCache.shard_index k)]> ls)).
    { subst o. destruct d; simpl; unfold at_shard, mark; by rewrite Hf. }
    rewrite Hspec. simpl.
    eapply (ledger_at g _ ls k _ _ Hg Hl).
    + intros q Hq. subst o. destruct d; simpl; rewrite ?Hlat; simpl;
        by rewrite ?lookup_insert_ne, ?lookup_delete_ne by congruence.
    + intros q Hp Hv _. rewrite find_set, Hf. subst o.
      destruct (decide (q = k)) as [->|Hne]; destruct d; simpl; rewrite ?Hlat; simpl;
        rewrite ?lookup_insert_eq, ?lookup_delete_eq, ?lookup_insert_ne, ?lookup_delete_ne by congruence;
        try done; (split; [done|]; intros w [= <-]; done).
    + intros q w. rewrite find_set, Hf. case_decide; subst; [|by left]. intros [= <-]. right.
      split; [done|]. by apply (li_home _ _ Hg _ _ _ _ Hl Hf).
  - assert (Hspec : spec cap o ls = (RBool false, ls)).
    { subst o. destruct d; simpl; unfold at_shard, mark; rewrite Hf; by rewrite list_insert_id. }
    rewrite Hspec. subst o. destruct d; simpl; [done|]. destruct Hg as [Hp Hla Hh].
    constructor; [|done|done]. intros q. simpl. destruct (decide (q = k)) as [->|].
    + rewrite lookup_delete_eq. rewrite <- Hp. by rewrite Hpk.
    + by rewrite lookup_delete_ne.
Qed.

Lemma written_back_page g ls l o q : ledger_inv g ls -> ls !! PageCache.shard_index q = Some l ->
  written_back (find q l) = Some o -> Page.page_id o = q.
Proof.
  intros Hg Hl Ho. destruct (find q l) as [[p []]|] eqn:Hf; simplify_eq/=.
  by apply (li_home _ _ Hg _ _ _ _ Hl Hf).
Qed.

Lemma ledger_put_hit cap g ls p d v :
  shards_nodup ls -> ledger_inv g ls -> cached ls (Page.page_id p) = Some v ->
  ledger_inv (record g (Put p d, (spec cap (Put p d) ls).1)) (spec cap (Put p d) ls).2.
Proof.
  intros Hn Hg Hv. destruct (shards_lookup ls (Page.page_id p) Hn) as [Hl _].
  pose proof (li_pending _ _ Hg (Page.page_id p)) as Hpk. rewrite Hv in Hpk.
  unfold cached in Hv. simpl. unfold at_shard, put. rewrite Hv. simpl.
  eapply (ledger_at g _ ls (Page.page_id p) _ _ Hg Hl); cbn [pending latest]; rewrite ?Hpk.
  - intros q Hq. assert (q <> Page.page_id p) by congruence.
    rewrite lookup_insert_ne by done. split; [|done]. case_match; by rewrite ?lookup_insert_ne.
  - intros q Hp Hlat _. rewrite find_push. case_decide as Hq; subst.
    + rewrite lookup_insert_eq. destruct v as [pg []], d; simpl in *;
        rewrite ?lookup_insert_eq, ?Hpk; (split; [done|]; by intros w [= <-]).
    + rewrite lookup_insert_ne by done. split; [|done].
      case_match; by rewrite ?lookup_insert_ne.
  - intros q w. rewrite find_push. case_decide; subst; [|by left]. intros [= <-]. by right.
Qed.

Lemma ledger_put_miss g ls p d l ev (x : option item) k :
  k = Page.page_id p -> ledger_inv g ls -> ls !! PageCache.shard_index k = Some l ->
  find k l = None ->
  (forall q, find q ev = if decide (Some q = fst <$> x) then None else find q l) ->
  (forall y, x = Some y -> find y.1 l = Some y.2) ->
  ledger_inv (record g (Put p d, RPage (written_back (snd <$> x))))
    (<[PageCache.shard_index k := (k, (p, d)) :: ev]> ls).
Proof.
  intros Hk Hg Hl Hf Hev Hlast. simpl. rewrite <- Hk.
  assert (Hpk : pending g !! k = None).
  { rewrite (li_pending _ _ Hg). unfold cached. by rewrite (list_lookup_total_correct _ _ _ Hl), Hf. }
  rewrite Hpk. simpl. rewrite orb_false_r.
  set (rest := match written_back _ with Some _ => _ | None => _ end).
  assert (Hrest : forall q, rest !! q =
    if decide (Some q = fst <$> x) then None else pending g !! q).
  { intros q. subst rest. destruct (x) as [y|] eqn:Hx; simpl; [|done].
    specialize (Hlast y eq_refl). pose proof (li_home _ _ Hg _ _ _ _ Hl Hlast) as [Hi Hpg].
    assert (Hpx : pending g !! y.1 = written_back (Some y.2)).
    { rewrite (li_pending _ _ Hg). unfold cached. rewrite Hi.
      by rewrite (list_lookup_total_correct _ _ _ Hl), Hlast. }
    destruct y as [e [pe []]]; simpl in *.
    - rewrite Hpg. case_decide; simplify_eq; [by rewrite lookup_delete_eq|].
      rewrite lookup_delete_ne; [done|congruence].
    - case_decide; simplify_eq; done. }
  assert (Hpend : forall q, (if d then <[k:=p]> rest else rest) !! q
    = if decide (q = k) then (if d then Some p else None) else rest !! q).
  { intros q. destruct (decide (q = k)) as [Hq|Hq]; destruct d; [by rewrite Hq, lookup_insert_eq| |
      by rewrite lookup_insert_ne|done].
    rewrite Hrest, Hq, Hpk. by case_decide. }
  assert (Hout : forall q, PageCache.shard_index q <> PageCache.shard_index k ->
    Some q <> fst <$> x).
  { intros q Hq He. destruct (x) as [y|] eqn:Hx; simplify_eq/=.
    by apply Hq, (li_home _ _ Hg _ _ _ _ Hl (Hlast y eq_refl)). }
  eapply (ledger_at g _ ls k _ _ Hg Hl); simpl.
  - intros q Hq. rewrite Hpend, decide_False, Hrest, decide_False by (by auto || congruence).
    by rewrite lookup_insert_ne by congruence.
  - intros q Hp Hlat _. rewrite Hpend. case_decide as Hq; subst.
    + rewrite lookup_insert_eq. split; [by destruct d|by intros w [= <-]].
    + rewrite lookup_insert_ne, Hrest, Hev by done. by case_decide.
  - intros q w. case_decide; subst; [intros [= <-]; by right|]. rewrite Hev.
    case_decide; [done|by left].
Qed.

Lemma ledger_put cap g ls p d : shards_nodup ls -> ledger_inv g ls ->
  ledger_inv (record g (Put p d, (spec cap (Put p d) ls).1)) (spec cap (Put p d) ls).2.
Proof.
  intros Hn Hg. destruct (cached ls (Page.page_id p)) as [v|] eqn:Hc; [by eapply ledger_put_hit|].
  destruct (shards_lookup ls (Page.page_id p) Hn) as [Hl Hk].
  unfold cached in Hc. cbn [spec]. unfold at_shard, put. rewrite Hc.
  destruct (cap <=? _); cbn [fst snd].
  - eapply ledger_put_miss; try done.
    + intros q. by apply find_removelast.
    + intros x. by apply find_last.
  - by eapply (ledger_put_miss g ls p d _ _ None).
Qed.

Lemma ledger_clear g (ls : list (list item)) r : ledger_inv g ls ->
  ledger_inv (record g (Clear, r)) (map (fun _ => []) ls).
Proof.
  intros Hg.
  assert (He : forall i l, map (fun _ : list item => [] : list item) ls !! i = Some l -> l = []).
  { intros i l (? & -> & _)%list_lookup_fmap_Some. done. }
  assert (Hc : forall k, cached (map (fun _ => []) ls) k = None).
  { intros k. unfold cached. rewrite list_lookup_total_alt.
    destruct (_ !! _) as [l|] eqn:Hl; [|done]. by rewrite (He _ _ Hl). }
  constructor; [intros k|intros k v|intros i l k v Hl].
  - by rewrite Hc.
  - by rewrite Hc.
  - by rewrite (He _ _ Hl).
Qed.

Lemma ledger_step cap g ls o r : shards_nodup ls -> ledger_inv g ls -> same r (spec cap o ls).1 ->
  ledger_inv (record g (o, r)) (spec cap o ls).2.
Proof.
  intros Hn Hg Hr. destruct o; try done.
  - by apply ledger_get.
  - pose proof (ledger_put cap g ls p d Hn Hg) as H. replace r with (spec cap (Put p d) ls).1; [done|].
    simpl in Hr |- *. unfold at_shard in *. destruct (put _ _ _ _); by destruct r.
  - pose proof (ledger_mark cap g ls k true Hn Hg) as H. replace r with (spec cap (MarkDirty k) ls).1; [done|].
    simpl in Hr |- *. unfold at_shard in *. destruct (mark _ _ _); by destruct r.
  - exact (ledger_mark cap g ls k false Hn Hg).
  - by apply ledger_remove.
  - by apply ledger_clear.
Qed.

(** ** How much a shard holds *)
Definition within (cap : Z) (ls : list (list item)) : Prop :=
  Forall (fun l => zlen l <= Z.max 1 cap) ls.

Lemma zlen_without k l : zlen (without k l) <= zlen l.
Proof. unfold zlen, without. pose proof (length_filter (fun x : item => x.1 <> k) l). lia. Qed.

Lemma zlen_push k v l : find k l = Some v -> zlen (without k l) + 1 <= zlen l.
Proof.
  intros (l1 & l2 & ->)%find_Some. unfold without. rewrite filter_app, filter_cons_False by naive_solver.
  pose proof (length_filter (fun x : item => x.1 <> k) l1).
  pose proof (length_filter (fun x : item => x.1 <> k) l2).
  unfold zlen. rewrite !length_app. simpl. lia.
Qed.

Lemma within_at {A} cap ls (f : list item -> A * list item) k w :
  (forall l, zlen l <= Z.max 1 cap -> zlen (f l).2 <= Z.max 1 cap) ->
  within cap ls -> within cap (at_shard f k w ls).2.
Proof.
  unfold at_shard. intros Hf Hw. destruct (f _) as [a l'] eqn:He. simpl.
  destruct (decide (PageCache.shard_index k < length ls)%nat) as [Hi|Hi].
  - apply Forall_insert; [done|]. change l' with (a, l').2. rewrite <- He. apply Hf.
    apply list_lookup_lookup_total_lt in Hi. by eapply Forall_lookup_1 in Hw.
  - by rewrite list_insert_ge by lia.
Qed.

Lemma spec_within cap o ls : within cap ls -> within cap (spec cap o ls).2.
Proof.
  intros Hw. destruct o; try done; try (apply within_at; [|done]); try intros l Hl.
  - unfold get. destruct (find k l) as [v|] eqn:Hf; [|done]. apply zlen_push in Hf. simpl. zlen_tac.
  - unfold put. destruct (find _ l) as [v|] eqn:Hf.
    + apply zlen_push in Hf. simpl. zlen_tac.
    + destruct (cap <=? zlen l) eqn:Hc; simpl; rewrite zlen_cons; [|lia].
      destruct l as [|x l _] using rev_ind; [simpl; zlen_tac|].
      rewrite removelast_last. rewrite zlen_app in Hl. zlen_tac.
  - unfold mark. destruct (find k l); [|done]. unfold set, zlen in *. simpl. by rewrite length_map.
  - unfold mark. destruct (find k l); [|done]. unfold set, zlen in *. simpl. by rewrite length_map.
  - pose proof (zlen_without k l). simpl. lia.
  - apply Forall_fmap, Forall_forall. intros x _. simpl. zlen_tac.
Qed.

Lemma within_sum cap ls : within cap ls ->
  foldr Z.add 0 (map zlen ls) <= zlen ls * Z.max 1 cap.
Proof. induction 1 as [|l ls Hl _ IH]; simpl; [done|]. rewrite zlen_cons. lia. Qed.

Lemma foldl_stats ss : forall a,
  CacheStats.current_size (foldl CacheStats.add a ss)
    = CacheStats.current_size a + foldr Z.add 0 (map CacheStats.current_size ss) /\
  CacheStats.dirty_pages (foldl CacheStats.add a ss)
    = CacheStats.dirty_pages a + foldr Z.add 0 (map CacheStats.dirty_pages ss).
Proof.
  induction ss as [|s ss IH]; intros a; simpl; [lia|].
  destruct (IH (CacheStats.add a s)) as [-> ->]. simpl. lia.
Qed.

Lemma stats_sums cap ss ls : Forall2 (repr cap) ss ls ->
  foldr Z.add 0 (map CacheStats.current_size (map CacheShard.stats ss)) = foldr Z.add 0 (map zlen ls) /\
  foldr Z.add 0 (map CacheStats.dirty_pages (map CacheShard.stats ss)) <= zlen (all_dirty ls).
Proof.
  unfold all_dirty. induction 1 as [|s l ss ls Hr _ [IH1 IH2]]; simpl; [done|].
  destruct Hr as [_ [-> Hd] _]. rewrite zlen_app. lia.
Qed.

(** What every run of calls establishes. *)
Record run_facts (cap : Z) (c : PageCache.t) (g : ledger) (ls : list (list item)) : Prop := {
  rf_repr : cache_repr cap c ls; rf_ledger : ledger_inv g ls; rf_within : within cap ls }.

Lemma exec_facts hash_order (Hh : forall m, hash_order m ≡ₚ map_to_list m) cap os :
  forall c g ls rs c', run_facts cap c g ls -> exec hash_order os c = (Ok rs, c') ->
  exists ls', run_facts cap c' (foldl record g (zip os rs)) ls'.
Proof.
  induction os as [|o os IH]; intros c g ls rs c' Hf Hx; [inversion Hx; subst; by exists ls|].
  destruct Hf as [Hr Hg Hw]. destruct (run_sim hash_order Hh cap c ls o Hr) as (r & c1 & Hrun & Hs & Hr1).
  simpl in Hx. rewrite (sbind_ok _ _ _ _ _ Hrun) in Hx.
  apply sbind_ok_inv in Hx as (rs' & c2 & Hx & Hret). inversion Hret; subst; clear Hret.
  eapply IH; [|exact Hx]. constructor; [exact Hr1| |by apply spec_within].
  apply ledger_step; [by eapply repr_nodup|done|done].
Qed.

Lemma new_facts config :
  run_facts (PageCache.shard_capacity config) (PageCache.new config) (mkLedger ∅ ∅) init.
Proof.
  assert (Hi : forall i l, init !! i = Some l -> l = []).
  { intros i l. unfold init. by intros [-> _]%lookup_replicate. }
  assert (Hc : forall k, cached init k = None).
  { intros k. unfold cached. rewrite list_lookup_total_alt.
    destruct (_ !! _) as [l|] eqn:Hl; [|done]. by rewrite (Hi _ _ Hl). }
  constructor; [apply new_repr| |].
  - constructor; [intros k; by rewrite Hc|intros k v; by rewrite Hc|intros i l k v Hl; by rewrite (Hi _ _ Hl)].
  - apply Forall_replicate. zlen_tac.
Qed.

(** C37: the cache is an LRU cache: for every configuration, every sequence
    of calls and every hash order, no call panics and each returns what the
    same call returns on the lists kept in order of use (sets of dirty pages
    up to order); in particular the page evicted from a full shard is the
    least recently used one, handed back exactly when it is dirty. *)
Theorem cache_is_lru hash_order config os
    (Hhash : forall m, hash_order m ≡ₚ map_to_list m) :
  exists rs c, exec hash_order os (PageCache.new config) = (Ok rs, c) /\
    Forall2 same rs (spec_exec (PageCache.shard_capacity config) os init).1.
Proof.
  destruct (exec_sim hash_order Hhash _ os _ _ (new_repr config)) as (rs & c & ? & ? & _).
  by exists rs, c.
Qed.

(** C38: no dirty page is lost: after any calls the dirty pages in the cache
    are exactly the pages the caller still has to write, by the calls made
    and the answers given, in their latest version; and a hit returns the
    page last put under the id. *)
Theorem no_dirty_page_lost hash_order config os rs c
    (Hhash : forall m, hash_order m ≡ₚ map_to_list m)
    (Hexec : exec hash_order os (PageCache.new config) = (Ok rs, c)) :
  (forall k p, (k, p) ∈ PageCache.get_dirty_pages hash_order c <->
     pending (ledger_of os rs) !! k = Some p) /\
  (forall k p c', PageCache.get k c = (Ok (Some p), c') -> latest (ledger_of os rs) !! k = Some p).
Proof.
  destruct (exec_facts hash_order Hhash _ os _ _ _ _ _ (new_facts config) Hexec) as (ls & [Hr Hg _]).
  fold (ledger_of os rs) in Hg. split.
  - intros k p. unfold PageCache.get_dirty_pages.
    rewrite (all_dirty_sim hash_order Hhash _ _ _ (cr_shards _ _ _ Hr)), (li_pending _ _ Hg).
    destruct (repr_nodup _ _ _ Hr) as [_ Hn]. unfold all_dirty. rewrite list_elem_of_join. split.
    + intros (d & Hin & (l & -> & [i Hi]%list_elem_of_lookup_1)%list_elem_of_fmap).
      apply elem_dirty in Hin; [|by eapply (Forall_lookup_1 _ _ _ _ Hn)].
      destruct (li_home _ _ Hg _ _ _ _ Hi Hin) as [<- _]. unfold cached.
      by rewrite (list_lookup_total_correct _ _ _ Hi), Hin.
    + destruct (shards_lookup ls k (repr_nodup _ _ _ Hr)) as [Hl Hk]. intros Hc.
      exists (dirty_pages (ls !!! PageCache.shard_index k)). split.
      * apply elem_dirty; [done|]. change (find k _) with (cached ls k).
        destruct (cached ls k) as [[q []]|]; by simplify_eq/=.
      * apply list_elem_of_fmap_2. by eapply list_elem_of_lookup_2.
  - intros k p c' Hget. destruct (cache_repr_shard _ _ _ k Hr) as (s & Hs & _ & Hsh).
    unfold PageCache.get, PageCache.on_shard in Hget. rewrite Hs in Hget.
    pose proof (get_sim _ s _ k Hsh) as [Hres _]. destruct (CacheShard.get s k) as [o s'].
    simpl in Hget, Hres. injection Hget as -> _. unfold get in Hres. change (find k _) with (cached ls k) in Hres.
    destruct (cached ls k) as [v|] eqn:Hv; simplify_eq/=. by eapply li_latest.
Qed.

(** C39: the cache never holds more than 32 times the capacity of a shard,
    the capacity rounded up to a multiple of 32 (one page per shard when the
    capacity is zero); the size it reports is the number of entries, and the
    number of dirty pages it reports never exceeds the real one. *)
Theorem cache_bounded hash_order config os rs c
    (Hhash : forall m, hash_order m ≡ₚ map_to_list m)
    (Hexec : exec hash_order os (PageCache.new config) = (Ok rs, c)) :
  PageCache.size c <= NUM_SHARDS * Z.max 1 (PageCache.shard_capacity config) /\
  CacheStats.current_size (PageCache.stats c) = PageCache.size c /\
  CacheStats.dirty_pages (PageCache.stats c) <= zlen (PageCache.get_dirty_pages hash_order c).
Proof.
  destruct (exec_facts hash_order Hhash _ os _ _ _ _ _ (new_facts config) Hexec)
    as (ls & [[Hlen Hr] _ Hw]).
  unfold PageCache.size, PageCache.stats, PageCache.get_dirty_pages.
  rewrite (size_sim _ _ _ Hr). destruct (stats_sums _ _ _ Hr) as [E1 E2].
  destruct (foldl_stats (map CacheShard.stats (PageCache.shards c)) CacheStats.default) as [-> ->].
  pose proof (within_sum _ _ Hw) as Hsum. unfold zlen at 2 in Hsum. rewrite Hlen in Hsum.
  split_and!; [done|by rewrite E1|]. simpl. etrans; [exact E2|]. unfold zlen.
  by rewrite (all_dirty_sim hash_order Hhash _ _ _ Hr).
Qed.

Definition demo_page (id : PageId) (b : Z) : Page.t :=
  Page.mk (PageHeader.new id PageType.BTreeLeaf) [b].
(** Page 32 pushes page 0, the least recently used one, out of their shard of
    capacity one. *)
Definition demo_ops : list op :=
  [Put (demo_page 0 1) true; Put (demo_page 1 1) true; Put (demo_page 32 7) true; Get 32;
   Put (demo_page 1 2) false; GetDirtyPages; Size].
Definition demo_config : CacheConfig.t := CacheConfig.with_capacity CacheConfig.new 32.
Definition demo_results : list result :=
  [RPage None; RPage None; RPage (Some (demo_page 0 1)); RPage (Some (demo_page 32 7)); RPage None;
   RPages [(32, demo_page 32 7); (1, demo_page 1 2)]; RSize 2].
Definition demo_cache : PageCache.t := (exec map_to_list demo_ops (PageCache.new demo_config)).2.

Lemma demo_exec : exec map_to_list demo_ops (PageCache.new demo_config) = (Ok demo_results, demo_cache).
Proof. vm_compute. reflexivity. Qed.

Lemma cache_is_lru_witness :
  exists rs c, exec map_to_list demo_ops (PageCache.new demo_config) = (Ok rs, c) /\
    Forall2 same rs (spec_exec 1 demo_ops init).1.
Proof. exact (cache_is_lru map_to_list demo_config demo_ops (fun m => Permutation_refl _)). Defined.

Lemma no_dirty_page_lost_witness :
  (1, demo_page 1 2) ∈ PageCache.get_dirty_pages map_to_list demo_cache.
Proof.
  apply (no_dirty_page_lost map_to_list demo_config demo_ops demo_results demo_cache
           (fun m => Permutation_refl _) demo_exec).
  vm_compute. reflexivity.
Defined.

Lemma cache_bounded_witness : PageCache.size demo_cache <= 32.
Proof.
  exact (proj1 (cache_bounded map_to_list demo_config demo_ops demo_results demo_cache
           (fun m => Permutation_refl _) demo_exec)).
Defined.

(** The counter of dirty pages is not exact: [put] of a dirty version over a
    clean one does not count it. *)
Example dirty_counter_undercounts :
  let c := (exec map_to_list [Put (demo_page 5 1) false; Put (demo_page 5 2) true]
              (PageCache.new demo_config)).2 in
  CacheStats.dirty_pages (PageCache.stats c) = 0 /\
  PageCache.get_dirty_pages map_to_list c = [(5, demo_page 5 2)].
Proof. vm_compute. done. Qed.
End CacheRefinement.

(** ** What the cache promises its client

    [holds c f]: the cache [c] holds for each id the page and dirty flag
    [f] gives, if any.  Eviction may forget a clean page on a [put]. *)
Module CacheContract.
Import Lru Chain CacheRefinement.

Definition home (ls : list (list item)) : Prop :=
  forall i l k v, ls !! i = Some l -> find k l = Some v ->
    PageCache.shard_index k = i /\ Page.page_id v.1 = k.

Definition holds (c : PageCache.t) (f : PageId -> option (Page.t * bool)) : Prop :=
  exists cap ls, cache_repr cap c ls /\ home ls /\ forall k, cached ls k = f k.

Lemma home_at ls k l l' : home ls -> ls !! PageCache.shard_index k = Some l ->
  (forall q v, find q l' = Some v -> find q l = Some v \/ q = k /\ Page.page_id v.1 = k) ->
  home (<[PageCache.shard_index k := l']> ls).
Proof.
  intros Hh Hl Hnew j m q v Hm Hf. destruct (decide (j = PageCache.shard_index k)) as [->|Hj].
  - rewrite list_lookup_insert_eq in Hm by (by eapply lookup_lt_Some). simplify_eq.
    destruct (Hnew q v Hf) as [Hold|[-> Hpg]]; [by eapply Hh|done].
  - rewrite list_lookup_insert_ne in Hm by done. by eapply Hh.
Qed.

Lemma cached_shard ls k l q : ls !! PageCache.shard_index k = Some l ->
  PageCache.shard_index q = PageCache.shard_index k -> cached ls q = find q l.
Proof. intros Hl Hq. unfold cached. by rewrite Hq, (list_lookup_total_correct _ _ _ Hl). Qed.

Lemma on_shard_ok {A} cap c ls k (f : CacheShard.t -> A * CacheShard.t) g :
  cache_repr cap c ls -> (forall s l, repr cap s l -> sim cap (f s) (g l)) ->
  exists c', PageCache.on_shard f k c = (Ok (g (ls !!! PageCache.shard_index k)).1, c') /\
    cache_repr cap c' (<[PageCache.shard_index k := (g (ls !!! PageCache.shard_index k)).2]> ls).
Proof.
  intros Hc Hf. destruct (cache_repr_shard _ _ _ k Hc) as (s & Hs & Hl & Hr).
  destruct (Hf _ _ Hr) as [Ha Hr']. destruct Hc as [Hlen Hsh].
  unfold PageCache.on_shard. rewrite Hs. destruct (f s) as [a s']. simpl in *. subst a.
  eexists. split; [done|]. constructor; [by rewrite length_insert|]. by apply Forall2_insert.
Qed.

Lemma holds_new config : holds (PageCache.new config) (fun _ => None).
Proof.
  destruct (new_facts config) as [Hr [_ _ Hh] _]. exists (PageCache.shard_capacity config), init.
  split_and!; [done|done|]. intros k. unfold cached. rewrite list_lookup_total_alt.
  destruct (_ !! _) as [l|] eqn:Hl; [|done]. by apply lookup_replicate in Hl as [-> _].
Qed.

Lemma holds_get c f k : holds c f ->
  exists c', PageCache.get k c = (Ok (fst <$> f k), c') /\ holds c' f.
Proof.
  intros (cap & ls & Hr & Hh & Hf).
  destruct (on_shard_ok cap c ls k (fun s => CacheShard.get s k) (get k) Hr) as (c' & Hrun & Hr').
  { intros. by apply get_sim. }
  destruct (shards_lookup ls k (repr_nodup _ _ _ Hr)) as [Hl _].
  assert (Hk : find k (ls !!! PageCache.shard_index k) = f k) by apply Hf.
  unfold PageCache.get. rewrite Hrun. unfold get in *. rewrite Hk in *. exists c'.
  destruct (f k) as [v|] eqn:Hv; simpl in *; (split; [done|]); eexists _, _; (split; [exact Hr'|]).
  - split.
    + apply (home_at _ _ _ _ Hh Hl). intros q w. rewrite find_push.
      case_decide; subst; [|by left]. intros [= <-]. left. done.
    + intros q. rewrite (cached_at _ _ _ _ _ Hl). case_decide as Hq; [|done].
      rewrite find_push, <- Hf, (cached_shard _ _ _ _ Hl Hq). case_decide; subst; [|done]. by rewrite Hk.
  - by rewrite list_insert_id.
Qed.

Lemma holds_mark_clean c f k : holds c f ->
  exists b c', PageCache.mark_clean k c = (Ok b, c') /\
    holds c' (fun q => if decide (q = k) then (fun v => (v.1, false)) <$> f k else f q).
Proof.
  intros (cap & ls & Hr & Hh & Hf).
  destruct (on_shard_ok cap c ls k (fun s => CacheShard.mark_clean s k) (mark false k) Hr)
    as (c' & Hrun & Hr').
  { intros. by apply mark_clean_sim. }
  destruct (shards_lookup ls k (repr_nodup _ _ _ Hr)) as [Hl _].
  assert (Hk : find k (ls !!! PageCache.shard_index k) = f k) by apply Hf.
  unfold PageCache.mark_clean. rewrite Hrun. unfold mark in *. rewrite Hk in *.
  destruct (f k) as [v|] eqn:Hv; simpl in *; eexists _, c'; (split; [done|]);
    eexists _, _; (split; [exact Hr'|]).
  - split.
    + apply (home_at _ _ _ _ Hh Hl). intros q w. rewrite find_set, Hk.
      case_decide; subst; [|by left]. intros [= <-]. right. split; [done|].
      by apply (Hh _ _ _ _ Hl Hk).
    + intros q. rewrite (cached_at _ _ _ _ _ Hl). case_decide as Hq.
      * rewrite find_set, Hk, <- (cached_shard _ _ _ _ Hl Hq), Hf. done.
      * rewrite decide_False by congruence. apply Hf.
  - rewrite list_insert_id by done. split; [done|]. intros q. rewrite Hf. by case_decide; subst.
Qed.

(** What is known of the contents after a [put]. *)
Record put_result (f : PageId -> option (Page.t * bool)) (p : Page.t) (d : bool)
    (ev : option Page.t) (f' : PageId -> option (Page.t * bool)) : Prop := {
  pr_new : f' (Page.page_id p) = Some (p, default false (snd <$> f (Page.page_id p)) || d);
  pr_rest : forall q v, q <> Page.page_id p -> f' q = Some v -> f q = Some v;
  pr_evicted : forall e, ev = Some e -> f (Page.page_id e) = Some (e, true) }.

Lemma holds_put c f p d : holds c f ->
  exists ev c' f', PageCache.put p d c = (Ok ev, c') /\ holds c' f' /\ put_result f p d ev f'.
Proof.
  intros (cap & ls & Hr & Hh & Hf). set (k := Page.page_id p).
  destruct (on_shard_ok cap c ls k (fun s => CacheShard.put s p d) (put cap p d) Hr) as (c' & Hrun & Hr').
  { intros. by apply put_sim. }
  destruct (shards_lookup ls k (repr_nodup _ _ _ Hr)) as [Hl Hn].
  assert (Hk : find k (ls !!! PageCache.shard_index k) = f k) by apply Hf.
  set (l := ls !!! PageCache.shard_index k) in *.
  eexists _, c', (cached _). unfold PageCache.put. split; [exact Hrun|].
  assert (Hfind : forall q v, find q (put cap p d l).2 = Some v ->
      q = k /\ v = (p, default false (snd <$> f k) || d) \/ q <> k /\ find q l = Some v).
  { intros q v. unfold put. fold k. rewrite Hk. destruct (f k) as [w|] eqn:Hw.
    - simpl snd. rewrite find_push. case_decide; [intros [= <-]; by left|by right].
    - destruct (cap <=? zlen l); simpl; (case_decide; [intros [= <-]; by left|]).
      + rewrite find_removelast by done. case_decide; [done|by right].
      + by right. }
  assert (Hnew : find k (put cap p d l).2 = Some (p, default false (snd <$> f k) || d)).
  { unfold put. fold k. rewrite Hk. destruct (f k) as [w|]; [simpl snd; by rewrite find_push, decide_True|].
    destruct (cap <=? zlen l); simpl; by rewrite decide_True. }
  split; [eexists cap, _; split; [exact Hr'|split; [|done]]|].
  - apply (home_at _ _ _ _ Hh Hl). intros q v Hq. apply Hfind in Hq as [[-> ->]|[_ ?]]; [by right|by left].
  - constructor; fold k.
    + by rewrite (cached_at _ _ _ _ _ Hl), decide_True.
    + intros q v Hne. rewrite (cached_at _ _ _ _ _ Hl). case_decide as Hq; [|by rewrite Hf].
      intros [[-> _]|[_ Hold]]%Hfind; [done|]. by rewrite <- Hf, (cached_shard _ _ _ _ Hl Hq).
    + intros e. unfold put. fold k. rewrite Hk. destruct (f k); [done|].
      destruct (cap <=? zlen l); [|done]. simpl. destruct (last l) as [x|] eqn:Hx; [|done].
      pose proof (find_last l x Hn Hx) as Hfl. simpl. destruct x as [xk [xp []]]; [|done].
      simpl in *. intros [= <-]. destruct (Hh _ _ _ _ Hl Hfl) as [Hi Hpg]. simpl in Hpg. rewrite Hpg.
      by rewrite <- Hf, (cached_shard _ _ _ _ Hl Hi).
Qed.

Lemma holds_dirty hash_order c f : (forall m, hash_order m ≡ₚ map_to_list m) -> holds c f ->
  forall k p, (k, p) ∈ PageCache.get_dirty_pages hash_order c -> f k = Some (p, true).
Proof.
  intros Hhash (cap & ls & Hr & Hh & Hf) k p. unfold PageCache.get_dirty_pages.
  rewrite (all_dirty_sim hash_order Hhash _ _ _ (cr_shards _ _ _ Hr)).
  destruct (repr_nodup _ _ _ Hr) as [_ Hn]. unfold all_dirty. rewrite list_elem_of_join.
  intros (d & Hin & (l & -> & [i Hi]%list_elem_of_lookup_1)%list_elem_of_fmap).
  apply elem_dirty in Hin; [|by eapply (Forall_lookup_1 _ _ _ _ Hn)].
  destruct (Hh _ _ _ _ Hi Hin) as [<- _]. rewrite <- Hf. by rewrite (cached_shard _ _ _ _ Hi).
Qed.

Lemma holds_clear hash_order c f : holds c f ->
  exists l c', PageCache.clear hash_order c = (l, c') /\ l = PageCache.get_dirty_pages hash_order c /\
    holds c' (fun _ => None).
Proof.
  intros (cap & ls & [Hlen Hs] & _ & _). eexists _, _. split_and!; [done|done|].
  assert (He : forall i l, map (fun _ : list item => [] : list item) ls !! i = Some l -> l = []).
  { intros i l (? & -> & _)%list_lookup_fmap_Some. done. }
  exists cap, (map (fun _ => []) ls). split_and!.
  - constructor; simpl; [by rewrite length_map|]. clear Hlen He.
    induction Hs as [|s l ss ls Hr _ IH]; [constructor|constructor; [|done]].
    destruct Hr as [_ _ <-]. constructor; [by repeat constructor| |done]. by constructor.
  - intros i l k v Hl. by rewrite (He _ _ Hl).
  - intros k. unfold cached. rewrite list_lookup_total_alt.
    destruct (_ !! _) as [l|] eqn:Hl; [|done]. by rewrite (He _ _ Hl).
Qed.
End CacheContract.
