(* ===== verification/PagerMeta.v ===== *)
(** * Pager bookkeeping ([src/pager/freelist.rs], [pin_table.rs],
    [page_table.rs], [page_mapper.rs], [superblock.rs], [header.rs])

    The tables the pager keeps beside the pages: the free list, pin counts,
    lock shards, the virtual-to-physical page map, the superblock and the file
    header.  The free list is lock-free; [FreeListThreads] interleaves the
    atomic steps of its two operations.  Iteration order of the mapper's hash
    map and the clock are arguments. *)
From stdpp Require Import sorting.
From S2P Require Import Prelude Types PagerConfig Page.

(** [Vec::with_capacity] of eight-byte elements panics when the allocation
    would exceed [isize::MAX] bytes; [HashMap::with_capacity] when the table
    for [cap] sixteen-byte entries, a power of two of at least 8/7 of them
    with one control byte each and one group of sixteen more, would. *)
Definition vec_with_capacity {E} (cap : Z) : outcome E unit :=
  if cap * 8 <? 2 ^ 63 then Ok tt else Panic.
Definition hash_buckets (cap : Z) : Z :=
  if cap <? 15 then 16 else 2 ^ Z.log2_up (cap * 8 / 7).
Definition hash_with_capacity {E} (cap : Z) : outcome E unit :=
  if (cap * 8 <? 2 ^ 64) && (hash_buckets cap * 17 + 16 <? 2 ^ 63) then Ok tt else Panic.

Module FreeListPage.
Record t : Type := mk { next_page : PageId; free_pages : list PageId }.
Definition HEADER_SIZE : Z := 16.
Definition new : t := mk 0 [].

(** The page data sizes are at least 4032, so the subtraction does not
    underflow. *)
Definition max_entries (page_data_size : Z) : Z := (page_data_size - HEADER_SIZE) / 8.
Definition is_full (p : t) (page_data_size : Z) : bool :=
  max_entries page_data_size <=? zlen (free_pages p).
Definition add_page (p : t) (page_id : PageId) (page_data_size : Z) : outcome PagerError t :=
  if is_full p page_data_size then Err FreeListFull
  else Ok (mk (next_page p) (free_pages p ++ [page_id])).
Definition pop_page (p : t) : option PageId * t :=
  (last (free_pages p), mk (next_page p) (removelast (free_pages p))).
Definition is_empty (p : t) : bool := match free_pages p with [] => true | _ => false end.
Definition len (p : t) : Z := zlen (free_pages p).

Definition to_bytes (p : t) : bytes :=
  to_le_bytes 8 (next_page p) ++ to_le_bytes 8 (zlen (free_pages p))
    ++ mjoin (map (to_le_bytes 8) (free_pages p)).

Fixpoint read_ids (count : nat) (offset : Z) (bs : bytes) : outcome PagerError (list PageId) :=
  match count with
  | O => Ok []
  | S count =>
      _ ← ensure (offset + 8 <=? zlen bs)
            (InsufficientBuffer "free list page entries" (offset + 8) (zlen bs));
      page_id ← get_le 8 offset bs;
      rest ← read_ids count (offset + 8) bs;
      Ok (page_id :: rest)
  end.

Definition from_bytes (bs : bytes) : outcome PagerError t :=
  _ ← ensure (HEADER_SIZE <=? zlen bs)
        (InsufficientBuffer "free list page header" HEADER_SIZE (zlen bs));
  next_page ← get_le 8 0 bs;
  count ← get_le 8 8 bs;
  _ ← vec_with_capacity count;
  free_pages ← read_ids (Z.to_nat count) HEADER_SIZE bs;
  Ok (mk next_page free_pages).
End FreeListPage.

Module FreeList.
(** The queue hands out the oldest page first. *)
Record t : Type := mk {
  first_page : PageId; last_page : PageId; total_free : Z; queue : list PageId }.

Definition new : t := mk 0 0 0 [].
Definition from_state (first_page last_page : PageId) (total_free : Z) : t :=
  mk first_page last_page total_free [].
Definition is_empty (f : t) : bool := total_free f =? 0.

Definition set_first_page (f : t) (p : PageId) : t :=
  mk p (if last_page f =? 0 then p else last_page f) (total_free f) (queue f).
Definition set_last_page (f : t) (p : PageId) : t :=
  mk (if first_page f =? 0 then p else first_page f) p (total_free f) (queue f).

Definition push_page (f : t) (p : PageId) : t :=
  mk (first_page f) (last_page f) (as_u64 (total_free f + 1)) (queue f ++ [p]).

(** The count going from one to zero forgets the persisted chain. *)
Definition decrement_free (f : t) : t :=
  let prev := total_free f in
  mk (if prev =? 1 then 0 else first_page f) (if prev =? 1 then 0 else last_page f)
     (as_u64 (prev - 1)) (queue f).
Definition increment_free (f : t) : t :=
  mk (first_page f) (last_page f) (as_u64 (total_free f + 1)) (queue f).

Definition pop_page (f : t) : option PageId * t :=
  match queue f with
  | [] => (None, f)
  | p :: q => (Some p, decrement_free (mk (first_page f) (last_page f) (total_free f) q))
  end.

Definition set_free_pages (f : t) (pages : list PageId) : t :=
  let pages := merge_sort Z.le pages in
  let count := zlen pages in
  mk (if count =? 0 then 0 else first_page f) (if count =? 0 then 0 else last_page f) count pages.

(** Drains the queue and fills it again in reverse. *)
Definition snapshot_free_pages (f : t) : list PageId * t :=
  (queue f, mk (first_page f) (last_page f) (total_free f) (rev (queue f))).
End FreeList.

(** ** The free list under concurrent pushes and pops *)
Module FreeListThreads.
Import FreeList.

(** The shared state, the threads that have changed the queue and not yet the
    counter, the threads about to forget the chain, and the history. *)
Record sys : Type := mkSys {
  list_ : FreeList.t; pushing : nat; popping : nat; clearing : nat;
  pushed : list PageId; popped : list PageId }.

Definition init : sys := mkSys FreeList.new 0 0 0 [] [].

Inductive step : sys -> sys -> Prop :=
  | step_enqueue f a b c us os p :
      step (mkSys f a b c us os)
        (mkSys (mk (first_page f) (last_page f) (total_free f) (queue f ++ [p])) (S a) b c
           (us ++ [p]) os)
  | step_add f a b c us os :
      step (mkSys f (S a) b c us os) (mkSys (increment_free f) a b c us os)
  | step_dequeue f a b c us os p q :
      queue f = p :: q ->
      step (mkSys f a b c us os)
        (mkSys (mk (first_page f) (last_page f) (total_free f) q) a (S b) c us (os ++ [p]))
  | step_sub f a b c us os :
      step (mkSys f a (S b) c us os)
        (mkSys (mk (first_page f) (last_page f) (as_u64 (total_free f - 1)) (queue f)) a b
           (if total_free f =? 1 then S c else c) us os)
  | step_clear f a b c us os :
      step (mkSys f a b (S c) us os) (mkSys (mk 0 0 (total_free f) (queue f)) a b c us os).

Inductive reachable : sys -> Prop :=
  | reach_init : reachable init
  | reach_step s s' : reachable s -> step s s' -> reachable s'.
End FreeListThreads.

Module PinTable.
Record t : Type := mk { pins : gmap PageId Z }.
Definition new : t := mk ∅.
Definition pin (t : t) (p : PageId) : Z * PinTable.t :=
  let count := default 0 (pins t !! p) + 1 in (count, mk (<[p := count]> (pins t))).
Definition unpin (t : t) (p : PageId) : option Z * PinTable.t :=
  match pins t !! p with
  | Some count =>
      if 0 <? count then
        let new_count := count - 1 in
        (Some new_count,
         mk (if new_count =? 0 then delete p (pins t) else <[p := new_count]> (pins t)))
      else (None, t)
  | None => (None, t)
  end.
Definition is_pinned (t : t) (p : PageId) : bool :=
  match pins t !! p with Some count => 0 <? count | None => false end.
Definition ref_count (t : t) (p : PageId) : Z := default 0 (pins t !! p).
Definition pinned_count (t : t) : Z := Z.of_nat (size (pins t)).
Definition clear (t : t) : PinTable.t := mk ∅.
End PinTable.

Module PageTable.
(** The locks themselves carry no data; a guard is a shard index. *)
Record t : Type := mk { shard_count : Z; shard_mask : Z }.
Definition DEFAULT_SHARD_COUNT : Z := 64.
Definition next_power_of_two (n : Z) : Z := 2 ^ Z.log2_up n.
Definition with_shard_count (n : Z) : t :=
  let shard_count := next_power_of_two (Z.max n 1) in mk shard_count (shard_count - 1).
Definition new : t := with_shard_count DEFAULT_SHARD_COUNT.
Definition shard_index (t : t) (p : PageId) : Z := Z.land p (shard_mask t).
Definition same_shard (t : t) (p q : PageId) : bool := shard_index t p =? shard_index t q.
End PageTable.

Module PageMapper.
Record t : Type := mk {
  mapping : gmap PageId PageId; next_virtual_id : PageId; dirty : bool }.

Definition new : t := mk ∅ 2 false.
Definition from_state (mapping : gmap PageId PageId) (next_virtual_id : PageId) : t :=
  mk mapping next_virtual_id false.
Definition translate (m : t) (v : PageId) : PageId := default v (mapping m !! v).

Definition allocate_virtual (m : t) : PageId * t :=
  (next_virtual_id m, mk (mapping m) (as_u64 (next_virtual_id m + 1)) true).
Definition remap (m : t) (v p : PageId) : t :=
  mk (if v =? p then delete v (mapping m) else <[v := p]> (mapping m)) (next_virtual_id m) true.
Definition unmap (m : t) (v : PageId) : t := mk (delete v (mapping m)) (next_virtual_id m) true.
Definition is_dirty (m : t) : bool := dirty m.
Definition clear_dirty (m : t) : t := mk (mapping m) (next_virtual_id m) false.
Definition mapping_count (m : t) : Z := Z.of_nat (size (mapping m)).
Definition get_mappings (m : t) : gmap PageId PageId := mapping m.

Section Iteration.
Variable hash_order : gmap PageId PageId -> list (PageId * PageId).

Definition find_virtual_pages_for_physical (m : t) (p : PageId) : list PageId :=
  let result := map fst (filter (fun x => x.2 = p) (hash_order (mapping m))) in
  if match result with [] => true | _ => false end && negb (bool_decide (is_Some (mapping m !! p)))
  then [p] else result.

Definition pair_bytes (x : PageId * PageId) : bytes := to_le_bytes 8 x.1 ++ to_le_bytes 8 x.2.

Definition to_bytes (m : t) : bytes :=
  to_le_bytes 8 (next_virtual_id m) ++ to_le_bytes 8 (mapping_count m)
    ++ mjoin (map pair_bytes (hash_order (mapping m))).
End Iteration.

Fixpoint read_pairs (count : nat) (offset : Z) (bs : bytes) (acc : gmap PageId PageId)
    : outcome PagerError (gmap PageId PageId) :=
  match count with
  | O => Ok acc
  | S count =>
      _ ← ensure (offset + 16 <=? zlen bs)
            (InsufficientBuffer "page mapper entries" (offset + 16) (zlen bs));
      v ← get_le 8 offset bs;
      p ← get_le 8 (offset + 8) bs;
      read_pairs count (offset + 16) bs (<[v := p]> acc)
  end.

Definition from_bytes (bs : bytes) : outcome PagerError t :=
  _ ← ensure (16 <=? zlen bs) (InsufficientBuffer "page mapper header" 16 (zlen bs));
  next_virtual_id ← get_le 8 0 bs;
  count ← get_le 8 8 bs;
  _ ← hash_with_capacity count;
  mapping ← read_pairs (Z.to_nat count) 16 bs ∅;
  Ok (from_state mapping next_virtual_id).

(** One header [(physical, virtual)] of the scan. *)
Definition rebuild_one (acc : gmap PageId PageId * PageId) (x : PageId * PageId)
    : gmap PageId PageId * PageId :=
  let '(m, max_v) := acc in
  let '(p, v) := x in
  if v =? 0 then acc
  else (if v =? p then m else <[v := p]> m, Z.max max_v v).
Definition rebuild_from_headers (headers : list (PageId * PageId)) : t :=
  let '(m, max_v) := foldl rebuild_one (∅, 2) headers in from_state m (max_v + 1).
End PageMapper.

Module Superblock.
Record t : Type := mk {
  magic : Z; version : Z; total_pages : Z; free_pages : Z;
  first_free_list_page : PageId; last_free_list_page : PageId; next_page_id : PageId;
  transaction_counter : Z; last_checkpoint_lsn : Z; root_btree_page : PageId;
  btree_row_count : Z; page_mapper_page : PageId; page_mapper : PageMapper.t }.

Definition MAGIC : Z := 0x004E4B5355504552.
Definition VERSION : Z := 2.
Definition HEADER_SIZE : Z := 96.
Definition INLINE_MAPPER_SIZE : Z := 256.
Definition SIZE : Z := HEADER_SIZE + INLINE_MAPPER_SIZE.

Definition new : t := mk MAGIC VERSION 2 0 0 0 2 0 0 0 0 0 PageMapper.new.

Definition to_bytes (hash_order : gmap PageId PageId -> list (PageId * PageId)) (s : t) : bytes :=
  let header :=
    to_le_bytes 8 (magic s) ++ to_le_bytes 8 (version s) ++ to_le_bytes 8 (total_pages s)
    ++ to_le_bytes 8 (free_pages s) ++ to_le_bytes 8 (first_free_list_page s)
    ++ to_le_bytes 8 (last_free_list_page s) ++ to_le_bytes 8 (next_page_id s)
    ++ to_le_bytes 8 (transaction_counter s) ++ to_le_bytes 8 (last_checkpoint_lsn s)
    ++ to_le_bytes 8 (root_btree_page s) ++ to_le_bytes 8 (btree_row_count s)
    ++ to_le_bytes 8 (page_mapper_page s) in
  let mapper_bytes := PageMapper.to_bytes hash_order (page_mapper s) in
  if zlen mapper_bytes <=? INLINE_MAPPER_SIZE then resize SIZE 0 (header ++ mapper_bytes)
  else resize SIZE 0 header.

(** The mapper of a version 2 superblock, or the signal that it is kept
    elsewhere (an empty mapper). *)
Definition read_mapper (bs : bytes) (page_mapper_page : PageId) : outcome PagerError PageMapper.t :=
  if (page_mapper_page =? 0) && (SIZE <=? zlen bs) then
    mapper_bytes ← slice HEADER_SIZE SIZE bs;
    first ← slice 0 16 mapper_bytes;
    if existsb (fun b => negb (b =? 0)) first then PageMapper.from_bytes mapper_bytes
    else Ok PageMapper.new
  else Ok PageMapper.new.

Definition from_bytes (bs : bytes) : outcome PagerError t :=
  _ ← ensure (HEADER_SIZE <=? zlen bs) (InvalidSuperblock "size");
  magic ← get_le 8 0 bs;
  _ ← ensure (magic =? MAGIC) (InvalidSuperblock "magic");
  version ← get_le 8 8 bs;
  pm ← (if version =? 1 then Ok (0, PageMapper.new)
        else if version =? 2 then
          page_mapper_page ← get_le 8 88 bs;
          page_mapper ← read_mapper bs page_mapper_page;
          Ok (page_mapper_page, page_mapper)
        else Err (InvalidSuperblock "version"));
  total_pages ← get_le 8 16 bs;
  free_pages ← get_le 8 24 bs;
  first_free_list_page ← get_le 8 32 bs;
  last_free_list_page ← get_le 8 40 bs;
  next_page_id ← get_le 8 48 bs;
  transaction_counter ← get_le 8 56 bs;
  last_checkpoint_lsn ← get_le 8 64 bs;
  root_btree_page ← get_le 8 72 bs;
  btree_row_count ← get_le 8 80 bs;
  Ok (mk magic VERSION total_pages free_pages first_free_list_page last_free_list_page
        next_page_id transaction_counter last_checkpoint_lsn root_btree_page btree_row_count
        pm.1 pm.2).

Definition set_mapper (m : PageMapper.t) (s : t) : t :=
  mk (magic s) (version s) (total_pages s) (free_pages s) (first_free_list_page s)
     (last_free_list_page s) (next_page_id s) (transaction_counter s) (last_checkpoint_lsn s)
     (root_btree_page s) (btree_row_count s) (page_mapper_page s) m.
Definition increment_transaction (s : t) : t :=
  mk (magic s) (version s) (total_pages s) (free_pages s) (first_free_list_page s)
     (last_free_list_page s) (next_page_id s) (as_u64 (transaction_counter s + 1)) (last_checkpoint_lsn s)
     (root_btree_page s) (btree_row_count s) (page_mapper_page s) (page_mapper s).
Definition update_checkpoint (lsn : Z) (s : t) : t :=
  mk (magic s) (version s) (total_pages s) (free_pages s) (first_free_list_page s)
     (last_free_list_page s) (next_page_id s) (transaction_counter s) lsn
     (root_btree_page s) (btree_row_count s) (page_mapper_page s) (page_mapper s).

(** [fetch_add] on the page counter, and the page count. *)
Definition allocate_new_page (s : t) : PageId * t :=
  (next_page_id s,
   mk (magic s) (version s) (as_u64 (total_pages s + 1)) (free_pages s) (first_free_list_page s)
     (last_free_list_page s) (as_u64 (next_page_id s + 1)) (transaction_counter s)
     (last_checkpoint_lsn s) (root_btree_page s) (btree_row_count s) (page_mapper_page s)
     (page_mapper s)).
Definition set_free_pages (n : Z) (s : t) : t :=
  mk (magic s) (version s) (total_pages s) n (first_free_list_page s)
     (last_free_list_page s) (next_page_id s) (transaction_counter s) (last_checkpoint_lsn s)
     (root_btree_page s) (btree_row_count s) (page_mapper_page s) (page_mapper s).
Definition mark_page_freed (s : t) : t := set_free_pages (as_u64 (free_pages s + 1)) s.
Definition mark_page_allocated (s : t) : t :=
  if 0 <? free_pages s then set_free_pages (free_pages s - 1) s else s.
End Superblock.

Module FileHeader.
Definition MAGIC : bytes := [0x4E; 0x4B; 0x44; 0x42].
Definition VERSION : Z := 1.
Definition SIZE : Z := 256.

Record t : Type := mk {
  version : Z; page_size : PageSize.t; compression : CompressionType.t;
  encryption : EncryptionType.t; total_pages : Z; free_pages : Z; superblock_page_id : Z;
  first_free_list_page_id : Z; catalog_page_id : Z;
  database_uuid : bytes; created_at : bytes; modified_at : bytes;
  metadata : gmap string bytes }.

(** An eight-byte value at the start of a 32-byte field. *)
Definition stamp (now : Z) : bytes := to_le_bytes 8 now ++ replicate 24 0.

Definition new (page_size : PageSize.t) (compression : CompressionType.t)
    (encryption : EncryptionType.t) (now_nanos now_secs : Z) : t :=
  mk VERSION page_size compression encryption 3 0 1 0 2 (stamp now_nanos) (stamp now_secs)
     (stamp now_secs) ∅.

Definition to_bytes (h : t) : bytes :=
  MAGIC ++ to_le_bytes 2 (version h) ++ [0; 0] ++ to_le_bytes 4 (PageSize.to_u32 (page_size h))
    ++ [CompressionType.to_u8 (compression h)] ++ [EncryptionType.to_u8 (encryption h)] ++ [0; 0]
    ++ to_le_bytes 8 (total_pages h) ++ to_le_bytes 8 (free_pages h)
    ++ to_le_bytes 8 (superblock_page_id h) ++ to_le_bytes 8 (first_free_list_page_id h)
    ++ to_le_bytes 8 (catalog_page_id h) ++ replicate 24 0
    ++ database_uuid h ++ created_at h ++ modified_at h ++ replicate 80 0.

Definition from_bytes (bs : bytes) : outcome PagerError t :=
  let expected := from_le_bytes MAGIC in
  _ ← ensure (SIZE <=? zlen bs) (InvalidFileHeader expected 0);
  found ← get_le 4 0 bs;
  magic ← slice 0 4 bs;
  _ ← ensure (bytes_eqb magic MAGIC) (InvalidFileHeader expected found);
  version ← get_le 2 4 bs;
  _ ← ensure (version =? VERSION) (InvalidFileHeader expected found);
  page_size_value ← get_le 4 8 bs;
  page_size ← ok_or (PageSize.from_u32 page_size_value) (InvalidPageSize page_size_value);
  b12 ← index 12 bs;
  compression ← ok_or (CompressionType.from_u8 b12) (InvalidFileHeader expected found);
  b13 ← index 13 bs;
  encryption ← ok_or (EncryptionType.from_u8 b13) (InvalidFileHeader expected found);
  total_pages ← get_le 8 16 bs;
  free_pages ← get_le 8 24 bs;
  superblock_page_id ← get_le 8 32 bs;
  first_free_list_page_id ← get_le 8 40 bs;
  catalog_page_id ← get_le 8 48 bs;
  database_uuid ← slice 80 112 bs;
  created_at ← slice 112 144 bs;
  modified_at ← slice 144 176 bs;
  Ok (mk version page_size compression encryption total_pages free_pages superblock_page_id
        first_free_list_page_id catalog_page_id database_uuid created_at modified_at ∅).

Definition with_metadata (m : gmap string bytes) (modified : bytes) (h : t) : t :=
  mk (version h) (page_size h) (compression h) (encryption h) (total_pages h) (free_pages h)
     (superblock_page_id h) (first_free_list_page_id h) (catalog_page_id h) (database_uuid h)
     (created_at h) modified m.
Definition update_modified_timestamp (now : Z) (h : t) : t :=
  with_metadata (metadata h) (stamp now) h.
Definition set_metadata (key : string) (value : bytes) (now : Z) (h : t) : t :=
  update_modified_timestamp now (with_metadata (<[key := value]> (metadata h)) (modified_at h) h).
Definition get_metadata (key : string) (h : t) : option bytes := metadata h !! key.
Definition remove_metadata (key : string) (now : Z) (h : t) : option bytes * t :=
  match metadata h !! key with
  | Some v => (Some v, update_modified_timestamp now
                         (with_metadata (delete key (metadata h)) (modified_at h) h))
  | None => (None, h)
  end.
Definition clear_metadata (now : Z) (h : t) : t :=
  if bool_decide (metadata h = ∅) then h
  else update_modified_timestamp now (with_metadata ∅ (modified_at h) h).
End FileHeader.

(** ** Free list *)
Module FreeListLaws.
Import FreeListThreads.

Lemma read_ids_back pre ids rest :
  Forall is_u64 ids ->
  FreeListPage.read_ids (length ids) (zlen pre) (pre ++ mjoin (map (to_le_bytes 8) ids) ++ rest)
    = Ok ids.
Proof.
  intros Hf. revert pre. induction Hf as [|t ids Ht _ IH]; intros pre; [done|]. simpl.
  rewrite <- app_assoc, ensure_true by zlen_tac. simpl.
  rewrite get_le_mid with (n := 8) by (done || lia). simpl. rewrite app_assoc.
  replace (zlen pre + 8) with (zlen (pre ++ to_le_bytes 8 t)) by zlen_tac. by rewrite IH.
Qed.

(** A free list page is a round trip. *)
Lemma free_list_page_roundtrip p rest :
  is_u64 (FreeListPage.next_page p) -> Forall is_u64 (FreeListPage.free_pages p) ->
  zlen (FreeListPage.free_pages p) < 2 ^ 60 ->
  FreeListPage.from_bytes (FreeListPage.to_bytes p ++ rest) = Ok p.
Proof.
  intros Hn Hf Hl. unfold FreeListPage.from_bytes, FreeListPage.to_bytes, FreeListPage.HEADER_SIZE.
  rewrite <- !app_assoc. pose proof (zlen_nonneg (FreeListPage.free_pages p)) as H0.
  assert (is_u64 (zlen (FreeListPage.free_pages p))) by (unfold fits; lia).
  read_back. unfold vec_with_capacity. rewrite (proj2 (Z.ltb_lt _ _)) by lia. simpl.
  pose proof (read_ids_back (to_le_bytes 8 (FreeListPage.next_page p)
    ++ to_le_bytes 8 (zlen (FreeListPage.free_pages p))) (FreeListPage.free_pages p) rest Hf) as Hr.
  rewrite <- app_assoc in Hr. replace (zlen (_ ++ _)) with 16 in Hr by zlen_tac.
  unfold zlen at 1. rewrite Nat2Z.id, Hr. by destruct p.
Qed.

(** What holds between any two atomic steps. *)
Record inv (s : sys) : Prop := {
  inv_fifo : popped s ++ FreeList.queue (list_ s) = pushed s;
  inv_count : FreeList.total_free (list_ s)
    = as_u64 (zlen (FreeList.queue (list_ s)) - Z.of_nat (pushing s) + Z.of_nat (popping s)) }.

Lemma as_u64_add a b : as_u64 (as_u64 a + b) = as_u64 (a + b).
Proof. apply Z.add_mod_idemp_l. lia. Qed.

Lemma step_free_list_inv s s' : inv s -> step s s' -> inv s'.
Proof.
  intros [Hf Hc] Hs. destruct Hs; simpl in *; (constructor; simpl).
  - by rewrite app_assoc, Hf.
  - rewrite Hc. f_equal. zlen_tac.
  - done.
  - rewrite Hc, as_u64_add. f_equal. lia.
  - rewrite <- Hf, H. by rewrite <- app_assoc.
  - rewrite Hc, H. f_equal. zlen_tac.
  - done.
  - rewrite Hc. unfold Z.sub at 1. rewrite as_u64_add. f_equal. lia.
  - done.
  - done.
Qed.

(** Under any interleaving of the atomic steps of concurrent pushes and
    pops, pages leave the free list in the order they entered it, each at
    most as often as it was pushed; and whenever no thread is between its
    queue step and its counter step, the counter is the number of free
    pages. *)
Theorem free_list_threads s (Hs : reachable s) :
  popped s ++ FreeList.queue (list_ s) = pushed s /\
  (NoDup (pushed s) -> NoDup (popped s)) /\
  (pushing s = 0%nat -> popping s = 0%nat -> zlen (FreeList.queue (list_ s)) < 2 ^ 64 ->
   FreeList.total_free (list_ s) = zlen (FreeList.queue (list_ s))).
Proof.
  assert (inv s) as [Hf Hc].
  { induction Hs as [|s s' _ IH Hstep]; [done|by eapply step_free_list_inv]. }
  split_and!; [done| |].
  - rewrite <- Hf. by intros (? & _)%NoDup_app.
  - intros Hp Ho Hl. rewrite Hc, Hp, Ho. rewrite as_u_id; [lia|]. zlen_tac.
Qed.

(** Run alone, the operations are the compositions of their steps. *)
Lemma push_page_steps f us os p :
  exists s, step (mkSys f 0 0 0 us os) s /\
    step s (mkSys (FreeList.push_page f p) 0 0 0 (us ++ [p]) os).
Proof. eexists. split; [apply (step_enqueue _ _ _ _ _ _ p)|apply step_add]. Qed.

Lemma pop_page_steps f us os p f' :
  FreeList.pop_page f = (Some p, f') ->
  exists s s', step (mkSys f 0 0 0 us os) s /\ step s s' /\
    (s' = mkSys f' 0 0 0 us (os ++ [p]) \/ step s' (mkSys f' 0 0 0 us (os ++ [p]))).
Proof.
  unfold FreeList.pop_page. destruct (FreeList.queue f) as [|q qs] eqn:Hq; [done|]. intros [= -> <-].
  eexists _, _. split_and!; [by apply step_dequeue|apply step_sub|].
  unfold FreeList.decrement_free. simpl. case_match; [right; apply step_clear|by left].
Qed.

(** Two pushes and a pop: the pop takes the first page before either push
    has counted. *)
Definition demo_sys : sys := mkSys (FreeList.mk 0 0 1 [8]) 0 0 0 [7; 8] [7].
Lemma demo_sys_reachable : reachable demo_sys.
Proof.
  eapply reach_step; [eapply reach_step; [eapply reach_step; [eapply reach_step;
    [eapply reach_step; [eapply reach_step; [exact reach_init|]|]|]|]|]|].
  - apply (step_enqueue _ _ _ _ _ _ 7).
  - apply (step_enqueue _ _ _ _ _ _ 8).
  - by eapply step_dequeue.
  - apply step_add.
  - apply step_add.
  - apply step_sub.
Qed.

Lemma free_list_threads_witness :
  FreeList.total_free (list_ demo_sys) = zlen (FreeList.queue (list_ demo_sys)).
Proof. by apply (free_list_threads demo_sys demo_sys_reachable). Defined.

(** [snapshot_free_pages] turns the order around: the next page handed out
    is the one freed last. *)
Example snapshot_reverses :
  FreeList.snapshot_free_pages (FreeList.mk 0 0 3 [4; 5; 6])
    = ([4; 5; 6], FreeList.mk 0 0 3 [6; 5; 4]).
Proof. done. Qed.
End FreeListLaws.

(** ** Page map and superblock *)
Module PageMapperLaws.
Import PageMapper.

(** Only non-identity pairs are stored. *)
Definition wf (m : t) : Prop := forall v p, mapping m !! v = Some p -> v <> p.

Lemma translate_remap m v p q : translate (remap m v p) q = if decide (q = v) then p else translate m q.
Proof.
  unfold translate, remap. simpl. destruct (Z.eqb_spec v p) as [->|Hne].
  - case_decide; subst; [by rewrite lookup_delete_eq|by rewrite lookup_delete_ne].
  - case_decide; subst; [by rewrite lookup_insert_eq|by rewrite lookup_insert_ne].
Qed.
Lemma translate_unmap m v q : translate (unmap m v) q = if decide (q = v) then v else translate m q.
Proof.
  unfold translate, unmap. simpl.
  case_decide; subst; [by rewrite lookup_delete_eq|by rewrite lookup_delete_ne].
Qed.
Lemma remap_wf m v p : wf m -> wf (remap m v p).
Proof.
  intros Hm w q. simpl. destruct (Z.eqb_spec v p) as [->|Hne].
  - intros [_ ?]%lookup_delete_Some. by apply Hm.
  - intros [[<- <-]|[_ ?]]%lookup_insert_Some; [done|by apply Hm].
Qed.

Lemma read_pairs_back pre xs rest acc :
  Forall (fun x => is_u64 x.1 /\ is_u64 x.2) xs ->
  read_pairs (length xs) (zlen pre) (pre ++ mjoin (map pair_bytes xs) ++ rest) acc
    = Ok (foldl (fun m x => <[x.1 := x.2]> m) acc xs).
Proof.
  intros Hf. revert pre acc. induction Hf as [|[v p] xs [Hv Hp] _ IH]; intros pre acc; [done|].
  simpl in *. change (pair_bytes (v, p)) with (to_le_bytes 8 v ++ to_le_bytes 8 p).
  rewrite <- !app_assoc, ensure_true by zlen_tac. simpl.
  rewrite get_le_mid with (n := 8) (off := zlen pre) by (done || lia). simpl.
  rewrite (app_assoc pre), get_le_mid with (n := 8) (off := zlen pre + 8) by (done || zlen_tac). simpl.
  rewrite (app_assoc (pre ++ _)).
  replace (zlen pre + 16) with (zlen ((pre ++ to_le_bytes 8 v) ++ to_le_bytes 8 p)) by zlen_tac.
  by rewrite IH.
Qed.

Lemma foldl_insert (xs : list (PageId * PageId)) (acc : gmap PageId PageId) v :
  NoDup (map fst xs) ->
  foldl (fun m x => <[x.1 := x.2]> m) acc xs !! v
    = match list_to_map (M := gmap PageId PageId) xs !! v with Some p => Some p | None => acc !! v end.
Proof.
  revert acc. induction xs as [|[w p] xs IH]; intros acc; [done|].
  intros [Hw Hn]%NoDup_cons. simpl. rewrite IH by done. simpl.
  destruct (decide (v = w)) as [->|].
  - rewrite lookup_insert_eq, (not_elem_of_list_to_map_1 xs w) by done. by rewrite lookup_insert_eq.
  - by rewrite !lookup_insert_ne by done.
Qed.

Section Order.
Variable hash_order : gmap PageId PageId -> list (PageId * PageId).
Hypothesis hash_order_all : forall m, hash_order m ≡ₚ map_to_list m.

Definition fits_u64 (m : t) : Prop :=
  is_u64 (next_virtual_id m) /\ forall v p, mapping m !! v = Some p -> is_u64 v /\ is_u64 p.

Lemma zlen_mapper m : zlen (to_bytes hash_order m) = 16 + 16 * mapping_count m.
Proof.
  unfold to_bytes, mapping_count.
  assert (Hz : forall xs : list (PageId * PageId), zlen (mjoin (map pair_bytes xs)) = 16 * zlen xs).
  { induction xs as [|x xs IH]; [done|]. simpl. unfold pair_bytes at 1. zlen_tac. }
  rewrite !zlen_app, Hz, !zlen_to_le_bytes. unfold zlen. rewrite hash_order_all.
  rewrite length_map_to_list. lia.
Qed.

Lemma mapper_roundtrip m rest :
  fits_u64 m -> mapping_count m <= 2 ^ 32 ->
  from_bytes (to_bytes hash_order m ++ rest) = Ok (clear_dirty m).
Proof.
  intros [Hn Hm] Hc. unfold from_bytes, to_bytes. rewrite <- !app_assoc.
  assert (Hc0 : 0 <= mapping_count m) by (unfold mapping_count; lia).
  assert (is_u64 (mapping_count m)) by (unfold fits; lia).
  read_back.
  assert (hash_with_capacity (mapping_count m) = Ok (E := PagerError) tt) as ->.
  { unfold hash_with_capacity, hash_buckets. rewrite (proj2 (Z.ltb_lt _ (2 ^ 64))) by lia.
    rewrite (proj2 (Z.ltb_lt _ (2 ^ 63))); [done|].
    case_match; [done|].
    assert (Z.log2_up (mapping_count m * 8 / 7) <= 33).
    { change 33 with (Z.log2_up (2 ^ 33)). apply Z.log2_up_le_mono.
      apply Z.div_le_upper_bound; lia. }
    assert (2 ^ Z.log2_up (mapping_count m * 8 / 7) <= 2 ^ 33) by (apply Z.pow_le_mono_r; lia). lia. }
  simpl.
  assert (Hlen : Z.to_nat (mapping_count m) = length (hash_order (mapping m))).
  { rewrite hash_order_all, length_map_to_list. unfold mapping_count. lia. }
  assert (Hall : Forall (fun x => is_u64 x.1 /\ is_u64 x.2) (hash_order (mapping m))).
  { apply Forall_forall. intros [v p]. rewrite hash_order_all, elem_of_map_to_list. apply Hm. }
  assert (Hnd : NoDup (map fst (hash_order (mapping m)))).
  { change (NoDup ((hash_order (mapping m)).*1)). rewrite hash_order_all. apply NoDup_fst_map_to_list. }
  pose proof (read_pairs_back (to_le_bytes 8 (next_virtual_id m) ++ to_le_bytes 8 (mapping_count m))
    _ rest ∅ Hall) as Hr.
  rewrite <- app_assoc in Hr. replace (zlen (_ ++ _)) with 16 in Hr by zlen_tac.
  rewrite Hlen, Hr. simpl. unfold from_state, clear_dirty. do 2 f_equal. apply map_eq. intros v.
  rewrite foldl_insert, lookup_empty by done.
  assert (list_to_map (M := gmap PageId PageId) (hash_order (mapping m)) = mapping m) as Hl.
  { rewrite <- (list_to_map_to_list (mapping m)) at 2. by apply list_to_map_proper. }
  rewrite Hl. by destruct (_ !! v).
Qed.
End Order.
End PageMapperLaws.

Module SuperblockLaws.
Import Superblock.

Record wf (s : t) : Prop := {
  wf_magic : magic s = MAGIC;
  wf_version : version s = VERSION;
  wf_total : is_u64 (total_pages s);
  wf_free : is_u64 (free_pages s);
  wf_first : is_u64 (first_free_list_page s);
  wf_last : is_u64 (last_free_list_page s);
  wf_next : is_u64 (next_page_id s);
  wf_counter : is_u64 (transaction_counter s);
  wf_checkpoint : is_u64 (last_checkpoint_lsn s);
  wf_root : is_u64 (root_btree_page s);
  wf_rows : is_u64 (btree_row_count s);
  wf_mapper_page : page_mapper_page s = 0;
  wf_mapper : PageMapperLaws.fits_u64 (page_mapper s);
  wf_next_virtual : 0 < PageMapper.next_virtual_id (page_mapper s) }.

(** The mapper that comes back: fifteen pairs fit in the 256 bytes. *)
Definition reloaded (m : PageMapper.t) : PageMapper.t :=
  if PageMapper.mapping_count m <=? 15 then PageMapper.clear_dirty m else PageMapper.new.

Section Order.
Variable hash_order : gmap PageId PageId -> list (PageId * PageId).
Hypothesis hash_order_all : forall m, hash_order m ≡ₚ map_to_list m.

Lemma existsb_le n z : 0 < z < 256 ^ Z.of_nat n ->
  existsb (fun b => negb (b =? 0)) (to_le_bytes n z) = true.
Proof.
  revert z. induction n as [|n IH]; intros z Hz; [simpl in Hz; lia|].
  cbn [to_le_bytes existsb]. destruct (Z.eqb_spec (z mod 256) 0) as [H0|]; [simpl|done].
  apply IH. rewrite Nat2Z.inj_succ, Z.pow_succ_r in Hz by lia.
  pose proof (Z.div_mod z 256). split; [lia|]. apply Z.div_lt_upper_bound; lia.
Qed.

Lemma read_mapper_inline header m pad :
  zlen header = HEADER_SIZE -> zlen (PageMapper.to_bytes hash_order m ++ pad) = INLINE_MAPPER_SIZE ->
  forall rest, PageMapperLaws.fits_u64 m -> 0 < PageMapper.next_virtual_id m ->
  PageMapper.mapping_count m <= 15 ->
  read_mapper (header ++ (PageMapper.to_bytes hash_order m ++ pad) ++ rest) 0
    = Ok (PageMapper.clear_dirty m).
Proof.
  intros Hh Hm rest Hf Hv Hc. unfold read_mapper, SIZE, HEADER_SIZE, INLINE_MAPPER_SIZE in *.
  rewrite (proj2 (Z.leb_le _ _)) by (rewrite !zlen_app in *; zlen_tac). simpl.
  rewrite (slice_mid 96 352) by lia. simpl.
  set (mb := PageMapper.to_bytes hash_order m).
  assert (exists k, mb ++ pad = to_le_bytes 8 (PageMapper.next_virtual_id m)
      ++ to_le_bytes 8 (PageMapper.mapping_count m) ++ k) as [k Hk].
  { subst mb. unfold PageMapper.to_bytes. eexists. by rewrite <- !app_assoc. }
  rewrite Hk at 1. rewrite (app_assoc (to_le_bytes 8 _)), slice_here by zlen_tac. simpl.
  rewrite existsb_app, existsb_le; [|destruct Hf as [Hn _]; unfold fits in Hn; simpl; lia].
  simpl. subst mb. apply PageMapperLaws.mapper_roundtrip; [done|done|lia].
Qed.

Lemma existsb_zeros n : existsb (fun b => negb (b =? 0)) (replicate n 0) = false.
Proof. by induction n. Qed.

Lemma read_mapper_zeros header rest :
  zlen header = HEADER_SIZE ->
  read_mapper (header ++ replicate 256 0 ++ rest) 0 = Ok PageMapper.new.
Proof.
  intros Hh. unfold read_mapper, SIZE, HEADER_SIZE, INLINE_MAPPER_SIZE in *.
  rewrite (proj2 (Z.leb_le _ _)) by (rewrite !zlen_app; change (zlen (replicate 256 0)) with 256; zlen_tac).
  simpl (_ && _). cbn iota. rewrite (slice_mid 96 352) by (rewrite ?Hh; done). simpl mbind.
  done.
Qed.

(** Reopening reads back every field of the superblock that was written;
    the page map comes back when it has at most fifteen pairs, and comes
    back empty when it has more: nothing writes the separate page the
    comments mention. *)
Lemma superblock_reads_back s rest (Hwf : wf s) :
  from_bytes (to_bytes hash_order s ++ rest) = Ok (set_mapper (reloaded (page_mapper s)) s).
Proof.
  destruct Hwf. unfold to_bytes. set (header := to_le_bytes 8 (magic s) ++ _).
  assert (Hh : zlen header = HEADER_SIZE) by (subst header; unfold HEADER_SIZE; zlen_tac).
  pose proof (PageMapperLaws.zlen_mapper hash_order hash_order_all (page_mapper s)) as Hml.
  assert (exists body, zlen body = INLINE_MAPPER_SIZE /\
    (if zlen (PageMapper.to_bytes hash_order (page_mapper s)) <=? INLINE_MAPPER_SIZE
     then resize SIZE 0 (header ++ PageMapper.to_bytes hash_order (page_mapper s))
     else resize SIZE 0 header) = header ++ body /\
    read_mapper (header ++ body ++ rest) 0 = Ok (reloaded (page_mapper s)))
    as (body & Hb & -> & Hr).
  { unfold reloaded, INLINE_MAPPER_SIZE in *. rewrite Hml.
    assert (Hcap : (16 + 16 * PageMapper.mapping_count (page_mapper s) <=? 256)
      = (PageMapper.mapping_count (page_mapper s) <=? 15)) by lia.
    rewrite Hcap. destruct (Z.leb_spec (PageMapper.mapping_count (page_mapper s)) 15) as [Hle|Hgt].
    - set (mb := PageMapper.to_bytes hash_order (page_mapper s)) in *.
      exists (mb ++ replicate (Z.to_nat (256 - zlen mb)) 0).
      assert (Hz : zlen (mb ++ replicate (Z.to_nat (256 - zlen mb)) 0) = 256)
        by (rewrite zlen_app, zlen_replicate; lia).
      split_and!; [done| |by apply read_mapper_inline].
      unfold resize. rewrite zlen_app, Hh. unfold SIZE, HEADER_SIZE, INLINE_MAPPER_SIZE.
      destruct (Z.leb_spec (96 + 256) (96 + zlen mb)).
      + replace (256 - zlen mb) with 0 by lia. rewrite app_nil_r.
        apply take_ge. unfold zlen in *. rewrite length_app. unfold HEADER_SIZE in Hh. lia.
      + rewrite <- app_assoc. do 3 f_equal. lia.
    - exists (replicate 256 0). split_and!; [done| |by apply read_mapper_zeros].
      unfold resize. rewrite Hh. done. }
  rewrite <- app_assoc. set (tail := body ++ rest) in *. unfold from_bytes.
  rewrite ensure_true by zlen_tac. simpl mbind. rewrite <- wf_mapper_page0 in Hr.
  subst header. revert Hr. rewrite wf_magic0, wf_version0, wf_mapper_page0.
  rewrite <- !app_assoc. intros Hr.
  assert (is_u64 MAGIC) by done. assert (is_u64 VERSION) by done. assert (is_u64 0) by done.
  read_back. rewrite Hr. read_back. unfold set_mapper. by rewrite wf_magic0, wf_version0, wf_mapper_page0.
Qed.
End Order.

(** A superblock with two mapped pages, and one with sixteen. *)
Definition mapper_of (n : nat) : PageMapper.t :=
  PageMapper.mk (list_to_map (map (fun i => (Z.of_nat i + 100, Z.of_nat i + 10)) (seq 0 n))) 200 true.
Definition demo_superblock (n : nat) : t := set_mapper (mapper_of n) new.

Lemma demo_superblock_wf n : (n < 1000)%nat -> wf (demo_superblock n).
Proof.
  intros Hn. constructor; try done. split; [done|]. simpl. intros v p Hv.
  apply elem_of_list_to_map_2, list_elem_of_fmap in Hv as (i & [= -> ->] & Hi%elem_of_seq).
  unfold fits. lia.
Qed.

Example superblock_reload_demo :
  from_bytes (to_bytes map_to_list (demo_superblock 2) ++ [0])
    = Ok (set_mapper (PageMapper.mk {[100 := 10; 101 := 11]} 200 false) new) /\
  from_bytes (to_bytes map_to_list (demo_superblock 16) ++ [0]) = Ok (set_mapper PageMapper.new new).
Proof.
  assert (Hh : forall m : gmap PageId PageId, map_to_list m ≡ₚ map_to_list m) by done.
  split.
  - rewrite (superblock_reads_back map_to_list Hh (demo_superblock 2) [0])
      by (apply demo_superblock_wf; lia). vm_compute. reflexivity.
  - rewrite (superblock_reads_back map_to_list Hh (demo_superblock 16) [0])
      by (apply demo_superblock_wf; lia). vm_compute. reflexivity.
Qed.
End SuperblockLaws.

Module RebuildLaws.
Import PageMapper PageMapperLaws.

Record scanned (hs : list (PageId * PageId)) (acc : gmap PageId PageId * PageId) : Prop := {
  sc_mapped : forall v p, acc.1 !! v = Some p <-> (p, v) ∈ hs /\ v <> p;
  sc_max : 2 <= acc.2 /\ forall v p, (p, v) ∈ hs -> v <= acc.2 }.

Lemma rebuild_scanned hs : NoDup (map snd hs) -> Forall (fun x => x.2 <> 0) hs ->
  scanned hs (foldl rebuild_one (∅, 2) hs).
Proof.
  induction hs as [|[p v] hs IH] using rev_ind.
  - intros _ _. simpl. split; [split; simpl; [done|set_solver]|split; [done|set_solver]].
  - rewrite map_app, NoDup_app. intros (Hn & Hd & _) [Hz [Hv _]%Forall_cons]%Forall_app.
    simpl in Hv, Hd. specialize (IH Hn Hz). rewrite foldl_app. simpl.
    destruct (foldl rebuild_one (∅, 2) hs) as [m mx]. destruct IH as [Hm [H2 Hmax]]. simpl in *.
    assert (Hfresh : forall q, (q, v) ∈ hs -> False).
    { intros q Hq. apply (Hd v); [|set_solver]. by apply (list_elem_of_fmap_2 snd) in Hq. }
    destruct (Z.eqb_spec v 0) as [->|_]; [done|]. split; simpl.
    + intros w q. rewrite elem_of_app, list_elem_of_singleton. destruct (Z.eqb_spec v p) as [->|Hne].
      * rewrite Hm. naive_solver.
      * destruct (decide (w = v)) as [->|Hw].
        -- rewrite lookup_insert_eq. split; [intros [= <-]; auto|].
           intros [[Hin|[= ->]] _]; [by destruct (Hfresh q)|done].
        -- rewrite lookup_insert_ne, Hm by done. naive_solver.
    + split; [lia|]. intros w q [Hin|[= -> ->]%list_elem_of_singleton]%elem_of_app; [|lia].
      specialize (Hmax _ _ Hin). lia.
Qed.

Lemma NoDup_snd_eq (hs : list (PageId * PageId)) p q v :
  NoDup (map snd hs) -> (p, v) ∈ hs -> (q, v) ∈ hs -> p = q.
Proof.
  intros Hnd [i Hi]%list_elem_of_lookup_1 [j Hj]%list_elem_of_lookup_1.
  assert (i = j) as <-; [|congruence].
  eapply (NoDup_lookup _ _ _ v Hnd); by rewrite list_lookup_fmap, ?Hi, ?Hj.
Qed.

(** Rebuilding the map from a scan of the page headers is right: when
    no two pages carry the same virtual id, every virtual id translates to
    the page that carries it, no id in use will be allocated again, and only
    non-identity pairs are stored. *)
Theorem mapper_rebuild hs (Hnd : NoDup (map snd hs)) (Hnz : Forall (fun x => x.2 <> 0) hs) :
  let m := rebuild_from_headers hs in
  (forall p v, (p, v) ∈ hs -> translate m v = p /\ v < next_virtual_id m) /\ wf m.
Proof.
  unfold rebuild_from_headers. pose proof (rebuild_scanned hs Hnd Hnz) as Hs.
  destruct (foldl rebuild_one (∅, 2) hs) as [m mx]. destruct Hs as [Hm [_ Hmax]]. simpl in *. split.
  - intros p v Hin. split; [|specialize (Hmax _ _ Hin); lia]. unfold translate. simpl.
    destruct (decide (v = p)) as [->|Hne]; [|by rewrite (proj2 (Hm v p))].
    destruct (m !! p) as [q|] eqn:Hq; [|done]. apply Hm in Hq as [Hq Hne]. simpl.
    destruct Hne. by eapply NoDup_snd_eq.
  - intros v p Hv. by apply Hm in Hv as [_ ?].
Qed.

Lemma mapper_rebuild_witness :
  translate (rebuild_from_headers [(2, 2); (3, 7); (5, 3)]) 7 = 3.
Proof.
  apply (mapper_rebuild [(2, 2); (3, 7); (5, 3)]).
  - apply (bool_decide_unpack _). vm_compute. exact I.
  - by repeat constructor.
  - set_solver.
Defined.
End RebuildLaws.

Module FileHeaderLaws.
Import FileHeader.

Record wf (h : t) : Prop := {
  wf_version : version h = VERSION;
  wf_total : is_u64 (total_pages h);
  wf_free : is_u64 (free_pages h);
  wf_superblock : is_u64 (superblock_page_id h);
  wf_first : is_u64 (first_free_list_page_id h);
  wf_catalog : is_u64 (catalog_page_id h);
  wf_uuid : zlen (database_uuid h) = 32;
  wf_created : zlen (created_at h) = 32;
  wf_modified : zlen (modified_at h) = 32 }.

Lemma zlen_file_header h : wf h -> zlen (to_bytes h) = SIZE.
Proof.
  intros []. unfold to_bytes, SIZE, MAGIC.
  change (replicate 24 0) with (replicate (Z.to_nat 24) 0). change (replicate 80 0) with (replicate (Z.to_nat 80) 0).
  rewrite !zlen_app, !zlen_replicate by lia. zlen_tac.
Qed.

(** The reads behind the first sixteen bytes. *)
Lemma file_header_tail {E} pre a b c d e z24 u cr mo tail :
  zlen pre = 16 -> is_u64 a -> is_u64 b -> is_u64 c -> is_u64 d -> is_u64 e ->
  zlen z24 = 24 -> zlen u = 32 -> zlen cr = 32 -> zlen mo = 32 ->
  let bs := pre ++ to_le_bytes 8 a ++ to_le_bytes 8 b ++ to_le_bytes 8 c ++ to_le_bytes 8 d
              ++ to_le_bytes 8 e ++ z24 ++ u ++ cr ++ mo ++ tail in
  get_le (E := E) 8 16 bs = Ok a /\ get_le (E := E) 8 24 bs = Ok b /\ get_le (E := E) 8 32 bs = Ok c /\
  get_le (E := E) 8 40 bs = Ok d /\ get_le (E := E) 8 48 bs = Ok e /\
  slice (E := E) 80 112 bs = Ok u /\ slice (E := E) 112 144 bs = Ok cr /\
  slice (E := E) 144 176 bs = Ok mo.
Proof. intros Hp Ha Hb Hc Hd He Hz Hu Hcr Hmo bs. subst bs. split_and!; by read_back. Qed.

(** The header is a round trip, its metadata apart, which is not written. *)
Lemma file_header_roundtrip h rest : wf h ->
  from_bytes (to_bytes h ++ rest) = Ok (with_metadata ∅ (modified_at h) h).
Proof.
  intros Hwf. pose proof (zlen_file_header h Hwf) as Hlen. destruct Hwf.
  unfold from_bytes. rewrite ensure_true by (rewrite zlen_app, Hlen; pose proof (zlen_nonneg rest); lia).
  clear Hlen.
  set (pre := to_le_bytes 4 0x42444B4E ++ to_le_bytes 2 VERSION ++ [0; 0]
      ++ to_le_bytes 4 (PageSize.to_u32 (page_size h))
      ++ [CompressionType.to_u8 (compression h)] ++ [EncryptionType.to_u8 (encryption h)] ++ [0; 0]).
  assert (exists tail, to_bytes h ++ rest = pre ++ tail /\
    forall E, get_le (E := E) 8 16 (pre ++ tail) = Ok (total_pages h) /\
      get_le (E := E) 8 24 (pre ++ tail) = Ok (free_pages h) /\
      get_le (E := E) 8 32 (pre ++ tail) = Ok (superblock_page_id h) /\
      get_le (E := E) 8 40 (pre ++ tail) = Ok (first_free_list_page_id h) /\
      get_le (E := E) 8 48 (pre ++ tail) = Ok (catalog_page_id h) /\
      slice (E := E) 80 112 (pre ++ tail) = Ok (database_uuid h) /\
      slice (E := E) 112 144 (pre ++ tail) = Ok (created_at h) /\
      slice (E := E) 144 176 (pre ++ tail) = Ok (modified_at h)) as (tail & -> & Ht).
  { exists (to_le_bytes 8 (total_pages h) ++ to_le_bytes 8 (free_pages h)
      ++ to_le_bytes 8 (superblock_page_id h) ++ to_le_bytes 8 (first_free_list_page_id h)
      ++ to_le_bytes 8 (catalog_page_id h) ++ replicate 24 0
      ++ database_uuid h ++ created_at h ++ modified_at h ++ replicate 80 0 ++ rest).
    split; [unfold to_bytes; rewrite wf_version0; subst pre; by rewrite <- !app_assoc|].
    intros E. apply file_header_tail; done. }
  destruct (Ht PagerError) as (T1 & T2 & T3 & T4 & T5 & T6 & T7 & T8). clear Ht.
  pose proof (CompressionType.compression_to_u8_fits (compression h)).
  pose proof (EncryptionType.encryption_to_u8_fits (encryption h)).
  pose proof (PageSize.to_u32_bounds (page_size h)).
  assert (is_u32 (PageSize.to_u32 (page_size h))) by (unfold fits; lia).
  assert (R : get_le (E := PagerError) 4 0 (pre ++ tail) = Ok 0x42444B4E /\
    slice (E := PagerError) 0 4 (pre ++ tail) = Ok (to_le_bytes 4 0x42444B4E) /\
    get_le (E := PagerError) 2 4 (pre ++ tail) = Ok VERSION /\
    get_le (E := PagerError) 4 8 (pre ++ tail) = Ok (PageSize.to_u32 (page_size h)) /\
    index (E := PagerError) 12 (pre ++ tail) = Ok (CompressionType.to_u8 (compression h)) /\
    index (E := PagerError) 13 (pre ++ tail) = Ok (EncryptionType.to_u8 (encryption h))).
  { clear T1 T2 T3 T4 T5 T6 T7 T8. subst pre. rewrite <- !app_assoc. split_and!; by read_back. }
  destruct R as (R1 & R2 & R3 & R4 & R5 & R6). clearbody pre. cbn [mbind outcome_bind].
  rewrite R1, R2. cbn [mbind outcome_bind]. rewrite ensure_true by (by vm_compute).
  cbn [mbind outcome_bind]. rewrite R3. cbn [mbind outcome_bind]. rewrite ensure_true by done.
  cbn [mbind outcome_bind]. rewrite R4. cbn [mbind outcome_bind]. rewrite PageSize.from_to_u32.
  cbn [mbind outcome_bind ok_or]. rewrite R5. cbn [mbind outcome_bind].
  rewrite CompressionType.compression_from_to_u8. cbn [mbind outcome_bind ok_or]. rewrite R6.
  cbn [mbind outcome_bind]. rewrite EncryptionType.encryption_from_to_u8.
  cbn [mbind outcome_bind ok_or].
  rewrite T1, T2, T3, T4, T5, T6, T7, T8. simpl. unfold with_metadata. by rewrite wf_version0.
Qed.
End FileHeaderLaws.
