(* ===== verification/Pager.v ===== *)
(** * The pager ([src/pager/pagefile.rs])

    [Pager] composes the page format, the cache and the bookkeeping tables
    over any file that meets [FileLaws].  A page is known to its users by a
    virtual id; the mapper translates it to a physical slot of the file.

    Each method is a state transformer; the locks it takes carry no data and
    are left out, so a history is a sequence of whole calls.  The random
    nonces a call draws, in order, and the clock are the argument [env];
    hash orders are arguments.  An offset is a product in [Z]: it is below
    [2^64] for any file the file layer accepts. *)
From S2P Require Import Prelude Types Vfs PagerConfig Page Cache PagerMeta.

Module Pager.

Record t (F : Type) : Type := mk {
  file : F;
  config : PagerConfig.t;
  header : FileHeader.t;
  superblock : Superblock.t;
  free_list : FreeList.t;
  page_mapper : PageMapper.t;
  cache : option PageCache.t;
  pin_table : PinTable.t }.
Arguments mk {F}.
Arguments file {F}.
Arguments config {F}.
Arguments header {F}.
Arguments superblock {F}.
Arguments free_list {F}.
Arguments page_mapper {F}.
Arguments cache {F}.
Arguments pin_table {F}.

(** The nonces drawn by a call and the clock, in seconds and nanoseconds. *)
Record env : Type := mkEnv { nonce : nat -> bytes; now : Z; now_nanos : Z }.

Section Ops.
Context {F : Type} `{FileOps F} `{Codecs}.
Variable map_order : gmap PageId PageId -> list (PageId * PageId).
Variable cache_order : gmap PageId CacheShard.CacheEntry -> list (PageId * CacheShard.CacheEntry).

Abbreviation M := (stateful (t F) PagerError).

Definition set_file (f : F) (s : t F) : t F :=
  mk f (config s) (header s) (superblock s) (free_list s) (page_mapper s) (cache s) (pin_table s).
Definition set_header (h : FileHeader.t) (s : t F) : t F :=
  mk (file s) (config s) h (superblock s) (free_list s) (page_mapper s) (cache s) (pin_table s).
Definition set_superblock (b : Superblock.t) (s : t F) : t F :=
  mk (file s) (config s) (header s) b (free_list s) (page_mapper s) (cache s) (pin_table s).
Definition set_free_list (l : FreeList.t) (s : t F) : t F :=
  mk (file s) (config s) (header s) (superblock s) l (page_mapper s) (cache s) (pin_table s).
Definition set_mapper (m : PageMapper.t) (s : t F) : t F :=
  mk (file s) (config s) (header s) (superblock s) (free_list s) m (cache s) (pin_table s).
Definition set_cache (c : option PageCache.t) (s : t F) : t F :=
  mk (file s) (config s) (header s) (superblock s) (free_list s) (page_mapper s) c (pin_table s).
Definition set_pins (p : PinTable.t) (s : t F) : t F :=
  mk (file s) (config s) (header s) (superblock s) (free_list s) (page_mapper s) (cache s) p.

(** A file operation, its error converted by [?]. *)
Definition on_file {A} (m : stateful F FileSystemError A) : M A := fun s =>
  match m (file s) with
  | (Ok a, f) => (Ok a, set_file f s)
  | (Err e, f) => (Err (PagerVfsError e), set_file f s)
  | (Panic, f) => (Panic, set_file f s)
  end.

(** A cache operation when there is a cache, [a] when there is none. *)
Definition on_cache {A} (a : A) (m : stateful PageCache.t unit A) : M A := fun s =>
  match cache s with
  | None => (Ok a, s)
  | Some c =>
      match m c with
      | (Ok x, c') => (Ok x, set_cache (Some c') s)
      | (_, c') => (Panic, set_cache (Some c') s)
      end
  end.

(** What is done on success and on error alike. *)
Definition finally {A} (m : M A) (g : t F -> t F) : M A := fun s =>
  let '(r, s') := m s in (r, g s').

Definition page_size_of (c : PagerConfig.t) : Z := PageSize.to_u32 (PagerConfig.page_size c).
Definition page_size (s : t F) : Z := page_size_of (config s).
Definition key (s : t F) : option bytes := PagerConfig.encryption_key (config s).

(** A buffer of [n] zeros filled by a read at [off], which may be short. *)
Definition read_block (off n : Z) : M bytes :=
  s ← gets id;
  r ← lift (match read_at_offset (file s) off n with
            | Ok b => Ok b | Err e => Err (PagerVfsError e) | Panic => Panic end);
  mret (resize n 0 r).

Definition write_block (off : Z) (bs : bytes) : M unit :=
  _ ← on_file (write_to_offset off bs); mret tt.

(** [Page::new] with the configured compression and encryption, as every
    page the pager makes itself. *)
Definition make_page (c : PagerConfig.t) (id : PageId) (ty : PageType.t) (v : PageId) (data : bytes)
    : Page.t :=
  Page.mk (PageHeader.mk id ty (PagerConfig.compression c) (PagerConfig.encryption c) 0 0 0 v) data.

Definition page0_data (c : PagerConfig.t) (h : FileHeader.t) : bytes :=
  resize (page_size_of c) 0 (FileHeader.to_bytes h).

Definition total_pages (s : t F) : Z := Superblock.total_pages (superblock s).
Definition free_pages (s : t F) : Z := FreeList.total_free (free_list s).

(** The header fields set when pages are allocated or freed. *)
Definition header_counts (h : FileHeader.t) (total free : Z) : FileHeader.t :=
  FileHeader.mk (FileHeader.version h) (FileHeader.page_size h) (FileHeader.compression h)
    (FileHeader.encryption h) total free (FileHeader.superblock_page_id h) 0
    (FileHeader.catalog_page_id h) (FileHeader.database_uuid h) (FileHeader.created_at h)
    (FileHeader.modified_at h) (FileHeader.metadata h).

(** Steps 5 of [allocate_page] and 7 of [free_page]. *)
Definition collect_metadata (e : env) : M (FileHeader.t * Superblock.t) :=
  s ← gets id;
  let h := FileHeader.update_modified_timestamp (now e)
             (header_counts (header s) (total_pages s) (free_pages s)) in
  _ ← modify (set_header h);
  mret (h, superblock s).

(** The metadata writes of both: page 0, then the superblock page. *)
Definition write_metadata (e : env) (n : nat) (h : FileHeader.t) (b : Superblock.t) : M unit :=
  s ← gets id;
  _ ← write_block 0 (page0_data (config s) h);
  bs ← lift (Page.to_bytes
               (make_page (config s) 1 PageType.Superblock 0 (Superblock.to_bytes map_order b))
               (page_size s) (key s) (nonce e n));
  write_block (page_size s) bs.

(** Step 2 of [allocate_page]: a page of the free list, or a new one. *)
Definition take_physical : M PageId :=
  s ← gets id;
  match FreeList.pop_page (free_list s) with
  | (Some p, l) =>
      _ ← modify (set_free_list l);
      _ ← modify (fun s => set_superblock (Superblock.mark_page_allocated (superblock s)) s);
      mret p
  | (None, _) =>
      let '(p, b) := Superblock.allocate_new_page (superblock s) in
      _ ← modify (set_superblock b);
      mret p
  end.

Definition allocate_page (e : env) (ty : PageType.t) : M PageId :=
  s ← gets id;
  let '(virtual_id, m) := PageMapper.allocate_virtual (page_mapper s) in
  _ ← modify (set_mapper m);
  physical_id ← take_physical;
  _ ← modify (fun s => set_mapper (PageMapper.remap (page_mapper s) virtual_id physical_id) s);
  page_bytes ← lift (Page.to_bytes (make_page (config s) virtual_id ty virtual_id [])
                       (page_size s) (key s) (nonce e 0));
  meta ← collect_metadata e;
  _ ← write_block (physical_id * page_size s) page_bytes;
  _ ← write_metadata e 1 meta.1 meta.2;
  mret virtual_id.

Definition free_page (e : env) (virtual_id : PageId) : M unit :=
  _ ← lift (ensure (negb ((virtual_id =? 0) || (virtual_id =? 1))) (InvalidPageId virtual_id));
  s ← gets id;
  let physical_id := PageMapper.translate (page_mapper s) virtual_id in
  _ ← lift (ensure (negb (PinTable.is_pinned (pin_table s) physical_id)) (PagePinned physical_id));
  let offset := physical_id * page_size s in
  buffer ← read_block offset (page_size s);
  page ← lift (Page.from_bytes buffer (PagerConfig.enable_checksums (config s)) (key s));
  _ ← lift (ensure (negb (bool_decide (Page.page_type page = PageType.Free) ||
                          bool_decide (Page.page_type page = PageType.FreeList)))
              (PageAlreadyFree physical_id));
  free_bytes ← lift (Page.to_bytes (make_page (config s) physical_id PageType.Free 0 [])
                       (page_size s) (key s) (nonce e 0));
  _ ← write_block offset free_bytes;
  _ ← modify (fun s => set_mapper (PageMapper.unmap (page_mapper s) virtual_id) s);
  _ ← modify (fun s => set_free_list (FreeList.push_page (free_list s) physical_id) s);
  _ ← modify (fun s => set_superblock (Superblock.mark_page_freed (superblock s)) s);
  meta ← collect_metadata e;
  write_metadata e 1 meta.1 meta.2.

(** [write_page_to_disk], drawing nonce [n] of the call. *)
Definition write_page_to_disk (e : env) (n : nat) (p : Page.t) : M unit :=
  s ← gets id;
  let physical_id := PageMapper.translate (page_mapper s) (Page.page_id p) in
  buffer ← lift (Page.to_bytes p (page_size s) (key s) (nonce e n));
  write_block (physical_id * page_size s) buffer.

Definition write_evicted (e : env) (n : nat) (o : option Page.t) : M unit :=
  match o with Some q => write_page_to_disk e n q | None => mret tt end.

Definition set_virtual (v : PageId) (p : Page.t) : Page.t :=
  let h := Page.header p in
  Page.mk (PageHeader.mk (PageHeader.page_id h) (PageHeader.page_type h) (PageHeader.compression h)
             (PageHeader.encryption h) (PageHeader.flags h) (PageHeader.uncompressed_size h)
             (PageHeader.compressed_size h) v) (Page.data p).

(** The closure of [read_page]: read the slot, decode it, fill the cache. *)
Definition read_from_disk (e : env) (virtual_id physical_id : PageId) : M Page.t :=
  s ← gets id;
  buffer ← read_block (physical_id * page_size s) (page_size s);
  page ← lift (Page.from_bytes buffer (PagerConfig.enable_checksums (config s)) (key s));
  let page := if PageHeader.virtual_page_id (Page.header page) =? virtual_id then page
              else set_virtual virtual_id page in
  evicted ← on_cache None (PageCache.put page false);
  _ ← write_evicted e 0 evicted;
  mret page.

Definition read_page (e : env) (virtual_id : PageId) : M Page.t :=
  s ← gets id;
  let physical_id := PageMapper.translate (page_mapper s) virtual_id in
  _ ← lift (ensure (negb (total_pages s <=? physical_id)) (PageNotFound physical_id));
  hit ← on_cache None (PageCache.get virtual_id);
  match hit with
  | Some page => mret page
  | None =>
      _ ← modify (fun s => set_pins (PinTable.pin (pin_table s) physical_id).2 s);
      finally (read_from_disk e virtual_id physical_id)
        (fun s => set_pins (PinTable.unpin (pin_table s) physical_id).2 s)
  end.

Definition write_page (e : env) (p : Page.t) : M unit :=
  s ← gets id;
  match cache s with
  | Some _ =>
      if PagerConfig.cache_write_back (config s) then
        evicted ← on_cache None (PageCache.put p true);
        _ ← write_evicted e 0 evicted;
        _ ← write_page_to_disk e 1 p;
        _ ← on_cache false (PageCache.mark_clean (Page.page_id p));
        mret tt
      else
        _ ← write_page_to_disk e 0 p;
        _ ← on_cache None (PageCache.put p false);
        mret tt
  | None => write_page_to_disk e 0 p
  end.

Fixpoint flush_pages (e : env) (n : nat) (l : list (PageId * Page.t)) : M unit :=
  match l with
  | [] => mret tt
  | (id, p) :: l =>
      _ ← write_page_to_disk e n p;
      _ ← on_cache false (PageCache.mark_clean id);
      flush_pages e (S n) l
  end.
Definition dirty_pages (s : t F) : list (PageId * Page.t) :=
  match cache s with Some c => PageCache.get_dirty_pages cache_order c | None => [] end.
Definition flush_cache (e : env) : M unit := l ← gets dirty_pages; flush_pages e 0 l.

Fixpoint write_pages (e : env) (n : nat) (l : list (PageId * Page.t)) : M unit :=
  match l with
  | [] => mret tt
  | (_, p) :: l => _ ← write_page_to_disk e n p; write_pages e (S n) l
  end.
Definition clear_cache (e : env) : M unit :=
  l ← on_cache [] (fun c => let '(l, c') := PageCache.clear cache_order c in (Ok l, c'));
  write_pages e 0 l.

Definition write_superblock (e : env) (b : Superblock.t) : M unit :=
  s ← gets id;
  write_page e (make_page (config s) 1 PageType.Superblock 0 (Superblock.to_bytes map_order b)).

Definition read_free_list_page (e : env) (page_id : PageId) : M FreeListPage.t :=
  page ← read_page e page_id;
  lift (FreeListPage.from_bytes (Page.data page)).

Definition write_free_list_page (e : env) (page_id : PageId) (p : FreeListPage.t) : M unit :=
  s ← gets id;
  write_page e (make_page (config s) page_id PageType.FreeList 0 (FreeListPage.to_bytes p)).

Definition write_header (h : FileHeader.t) : M unit :=
  s ← gets id;
  write_block 0 (page0_data (config s) h).

Definition cache_stats (s : t F) : option CacheStats.t := PageCache.stats <$> cache s.

Definition persist_page_mapper (e : env) : M unit :=
  s ← gets id;
  if negb (PageMapper.is_dirty (page_mapper s)) then mret tt
  else
    let b := Superblock.set_mapper (page_mapper s) (superblock s) in
    _ ← modify (set_superblock b);
    _ ← write_superblock e b;
    modify (fun s => set_mapper (PageMapper.clear_dirty (page_mapper s)) s).

(** [sync]: the flush draws the nonces of [e], the mapper those of [e']. *)
Definition sync (e e' : env) : M unit :=
  _ ← flush_cache e;
  _ ← persist_page_mapper e';
  on_file sync_all.

Definition set_root_btree_page (e : env) (root : PageId) : M unit :=
  s ← gets id;
  let b := superblock s in
  let b := Superblock.mk (Superblock.magic b) (Superblock.version b) (Superblock.total_pages b)
             (Superblock.free_pages b) (Superblock.first_free_list_page b)
             (Superblock.last_free_list_page b) (Superblock.next_page_id b)
             (Superblock.transaction_counter b) (Superblock.last_checkpoint_lsn b) root
             (Superblock.btree_row_count b) (Superblock.page_mapper_page b)
             (Superblock.page_mapper b) in
  _ ← modify (set_superblock b);
  write_superblock e b.
Definition root_btree_page (s : t F) : PageId := Superblock.root_btree_page (superblock s).

Definition set_btree_row_count (e : env) (rows : Z) : M unit :=
  s ← gets id;
  let b := superblock s in
  let b := Superblock.mk (Superblock.magic b) (Superblock.version b) (Superblock.total_pages b)
             (Superblock.free_pages b) (Superblock.first_free_list_page b)
             (Superblock.last_free_list_page b) (Superblock.next_page_id b)
             (Superblock.transaction_counter b) (Superblock.last_checkpoint_lsn b)
             (Superblock.root_btree_page b) rows (Superblock.page_mapper_page b)
             (Superblock.page_mapper b) in
  _ ← modify (set_superblock b);
  write_superblock e b.
Definition btree_row_count (s : t F) : Z := Superblock.btree_row_count (superblock s).

(** ** Creating and opening a file *)
Definition new_cache (c : PagerConfig.t) : option PageCache.t :=
  if 0 <? PagerConfig.cache_capacity c then
    Some (PageCache.new (CacheConfig.with_write_back
            (CacheConfig.with_capacity CacheConfig.new (PagerConfig.cache_capacity c))
            (PagerConfig.cache_write_back c)))
  else None.

(** The mapper of the superblock, its counter brought up to the pages of the
    file. *)
Definition new_mapper (b : Superblock.t) : PageMapper.t :=
  let m := Superblock.page_mapper b in
  if PageMapper.next_virtual_id m <? Superblock.next_page_id b
  then PageMapper.from_state (PageMapper.get_mappings m) (Superblock.next_page_id b)
  else m.

(** Run file operations on a handle that is not yet in a pager. *)
Definition file_step {A} (m : stateful F FileSystemError A) (f : F) : outcome PagerError (A * F) :=
  match m f with
  | (Ok a, f') => Ok (a, f')
  | (Err e, _) => Err (PagerVfsError e)
  | (Panic, _) => Panic
  end.

(** [create], given what [fs.create_file(path)] returned. *)
Definition create (e : env) (created : outcome FileSystemError F) (c : PagerConfig.t)
    : outcome PagerError (t F) :=
  _ ← match PagerConfig.validate c with
      | Ok u => Ok u | Err msg => Err (ConfigError msg) | Panic => Panic end;
  f ← match created with Ok f => Ok f | Err x => Err (PagerVfsError x) | Panic => Panic end;
  let h := FileHeader.new (PagerConfig.page_size c) (PagerConfig.compression c)
             (PagerConfig.encryption c) (now_nanos e) (now e) in
  r ← file_step (write_to_offset 0 (page0_data c h)) f;
  let b := Superblock.new in
  page1 ← Page.to_bytes (Page.mk (PageHeader.new 1 PageType.Superblock) (Superblock.to_bytes map_order b))
            (page_size_of c) (PagerConfig.encryption_key c) (nonce e 0);
  r ← file_step (write_to_offset (page_size_of c) page1) r.2;
  r ← file_step sync_all r.2;
  Ok (mk r.2 c h b FreeList.new (new_mapper b) (new_cache c) PinTable.new).

Definition read_file (f : F) (off n : Z) : outcome PagerError bytes :=
  match read_at_offset f off n with
  | Ok b => Ok (resize n 0 b) | Err x => Err (PagerVfsError x) | Panic => Panic end.

(** The chain of free-list pages; the loop ends at page 0.  [None] is running
    out of [fuel]: a chain that visits more pages than the file has is a
    cycle, on which the code does not return. *)
Fixpoint read_free_chain (fuel : nat) (f : F) (ps : Z) (page_id : PageId)
    : option (outcome PagerError (list PageId)) :=
  if page_id =? 0 then Some (Ok [])
  else
    match fuel with
    | O => None
    | S fuel =>
        match (data ← read_file f (page_id * ps) ps;
               page ← Page.from_bytes data true None;
               FreeListPage.from_bytes (Page.data page)) with
        | Ok p =>
            match read_free_chain fuel f ps (FreeListPage.next_page p) with
            | Some (Ok rest) => Some (Ok (FreeListPage.free_pages p ++ rest))
            | r => r
            end
        | Err x => Some (Err x)
        | Panic => Some Panic
        end
    end.

Definition open_config (h : FileHeader.t) : PagerConfig.t :=
  PagerConfig.mk (FileHeader.page_size h) (FileHeader.compression h) (FileHeader.encryption h)
    None true 1000 true.

Definition open_free_list (fuel : nat) (f : F) (ps : Z) (b : Superblock.t)
    : option (outcome PagerError FreeList.t) :=
  let l := FreeList.from_state (Superblock.first_free_list_page b)
             (Superblock.last_free_list_page b) (Superblock.free_pages b) in
  if (0 <? Superblock.free_pages b) && negb (Superblock.first_free_list_page b =? 0) then
    match read_free_chain fuel f ps (Superblock.first_free_list_page b) with
    | Some (Ok pages) => Some (Ok (FreeList.set_free_pages l pages))
    | Some (Err x) => Some (Err x)
    | Some Panic => Some Panic
    | None => None
    end
  else Some (Ok l).

(** [open], given what [fs.open_file(path)] returned. *)
Definition open (fuel : nat) (opened : outcome FileSystemError F) : option (outcome PagerError (t F)) :=
  match (f ← match opened with Ok f => Ok f | Err x => Err (PagerVfsError x) | Panic => Panic end;
         header_data ← read_file f 0 (PageSize.to_u32 PageSize.Size4KB);
         h ← FileHeader.from_bytes header_data;
         let ps := PageSize.to_u32 (FileHeader.page_size h) in
         data ← read_file f ps ps;
         page ← Page.from_bytes data true None;
         b ← Superblock.from_bytes (Page.data page);
         Ok (f, h, b)) with
  | Ok (f, h, b) =>
      match open_free_list fuel f (PageSize.to_u32 (FileHeader.page_size h)) b with
      | Some (Ok l) =>
          Some (Ok (mk f (open_config h) h b l (new_mapper b) (new_cache (open_config h)) PinTable.new))
      | Some (Err x) => Some (Err x)
      | Some Panic => Some Panic
      | None => None
      end
  | Err x => Some (Err x)
  | Panic => Some Panic
  end.
End Ops.
End Pager.
