(* ===== verification/PagerStore.v ===== *)
(** * The pager as a store of pages

    The contract of [Pager]: a map from virtual page ids to pages.  A live
    page keeps its contents until it is written or freed, whatever is done
    to the others, through the cache, the free list and the page map; no two
    live pages share a slot of the file; and a synced file reopens with the
    same pages. *)
From S2P Require Import Prelude Types Vfs PagerConfig Page Cache PagerMeta Pager.

(** ** Slots of a file *)
Module Slot.

(** The byte at [j], zero past the end. *)
Definition byte_at (c : bytes) (j : nat) : Z := default 0 (c !! j).

(** The buffer a read of slot [x] fills. *)
Definition slot (ps : Z) (c : bytes) (x : Z) : bytes := resize ps 0 (window (x * ps) ps c).

Lemma byte_at_lookup l i : (i < length l)%nat -> l !! i = Some (byte_at l i).
Proof. intros Hi. unfold byte_at. apply lookup_lt_is_Some in Hi as [b Hb]. by rewrite Hb. Qed.
Lemma byte_at_ge l i : (length l <= i)%nat -> byte_at l i = 0.
Proof. intros Hi. unfold byte_at. by rewrite lookup_ge_None_2. Qed.

Lemma lookup_resize n (l : bytes) (i : nat) : 0 <= n ->
  resize n 0 l !! i = if decide (Z.of_nat i < n) then Some (byte_at l i) else None.
Proof.
  intros Hn. unfold resize. destruct (Z.leb_spec n (zlen l)) as [Hle|Hgt]; unfold zlen in *.
  - case_decide as Hi.
    + rewrite lookup_take_lt by lia. apply byte_at_lookup. lia.
    + apply lookup_take_ge. lia.
  - destruct (decide (i < length l)%nat) as [Hil|Hil].
    + rewrite lookup_app_l, decide_True by lia. by apply byte_at_lookup.
    + rewrite lookup_app_r by lia. case_decide as Hi.
      * rewrite lookup_replicate_2, byte_at_ge by lia. done.
      * apply lookup_replicate_None. lia.
Qed.

Lemma byte_at_resize n l i : zlen l <= n -> byte_at (resize n 0 l) i = byte_at l i.
Proof.
  intros Hn. pose proof (zlen_nonneg l). unfold byte_at at 1. rewrite lookup_resize by lia.
  case_decide as Hi; [done|]. simpl. unfold zlen in *. by rewrite byte_at_ge by lia.
Qed.

Lemma byte_at_window off n c i : 0 <= off -> Z.of_nat i < n ->
  byte_at (window off n c) i = byte_at c (Z.to_nat off + i).
Proof. intros Ho Hi. unfold byte_at, window. by rewrite lookup_take_lt, lookup_drop by lia. Qed.

Lemma lookup_slot ps c x i : 0 <= ps -> 0 <= x ->
  slot ps c x !! i
    = if decide (Z.of_nat i < ps) then Some (byte_at c (Z.to_nat (x * ps) + i)) else None.
Proof.
  intros Hp Hx. unfold slot. rewrite lookup_resize by done.
  case_decide; [|done]. rewrite byte_at_window by lia. done.
Qed.

Lemma byte_at_splice off bs c j : 0 <= off -> off + zlen bs <= zlen c ->
  byte_at (splice off bs c) j
    = if decide (off <= Z.of_nat j < off + zlen bs) then byte_at bs (j - Z.to_nat off) else byte_at c j.
Proof.
  intros Ho Hl. unfold byte_at at 1. case_decide as Hj.
  - unfold splice, zlen in *. rewrite lookup_app_r by (rewrite length_take; lia).
    rewrite length_take, lookup_app_l by lia. unfold byte_at. do 2 f_equal. lia.
  - rewrite lookup_splice_outside by lia. done.
Qed.

(** The contents after a successful write of [bs] at [off]. *)
Definition written (off : Z) (bs c : bytes) : bytes :=
  splice off bs (if zlen c <? off + zlen bs then resize (off + zlen bs) 0 c else c).

Lemma byte_at_written off bs c j : 0 <= off ->
  byte_at (written off bs c) j
    = if decide (off <= Z.of_nat j < off + zlen bs) then byte_at bs (j - Z.to_nat off) else byte_at c j.
Proof.
  intros Ho. pose proof (zlen_nonneg bs). unfold written. destruct (Z.ltb_spec (zlen c) (off + zlen bs)).
  - rewrite byte_at_splice by (rewrite ?zlen_resize; lia). by rewrite byte_at_resize by lia.
  - by rewrite byte_at_splice by lia.
Qed.

Lemma zlen_written off bs c : 0 <= off -> zlen (written off bs c) = Z.max (zlen c) (off + zlen bs).
Proof.
  intros Ho. pose proof (zlen_nonneg bs). unfold written. destruct (Z.ltb_spec (zlen c) (off + zlen bs)).
  - rewrite zlen_splice; rewrite ?zlen_resize; lia.
  - rewrite zlen_splice; lia.
Qed.

(** Writing one slot changes that slot only. *)
Lemma slot_written ps bs c x y : 0 < ps -> zlen bs = ps -> 0 <= x -> 0 <= y ->
  slot ps (written (y * ps) bs c) x = if decide (x = y) then bs else slot ps c x.
Proof.
  intros Hp Hl Hx Hy. apply list_eq. intros i. rewrite lookup_slot by lia.
  destruct (decide (Z.of_nat i < ps)) as [Hi|Hi].
  - rewrite byte_at_written by lia. case_decide as Hj; case_decide as Hxy.
    + subst x. rewrite byte_at_lookup by (unfold zlen in Hl; lia). do 2 f_equal. lia.
    + exfalso. nia.
    + exfalso. subst x. nia.
    + rewrite lookup_slot by lia. by rewrite decide_True.
  - case_decide; [|by rewrite lookup_slot, decide_False by lia].
    symmetry. apply lookup_ge_None_2. unfold zlen in Hl. lia.
Qed.

Lemma zlen_slot ps c x : 0 <= ps -> zlen (slot ps c x) = ps.
Proof. intros. unfold slot. by apply zlen_resize. Qed.
End Slot.

Module PagerStore.
Import Pager Slot CacheContract.

Definition same_page (p q : Page.t) : Prop :=
  Page.page_id p = Page.page_id q /\ Page.page_type p = Page.page_type q /\ Page.data p = Page.data q.

Lemma same_page_refl p : same_page p p.
Proof. done. Qed.
Lemma same_page_sym p q : same_page p q -> same_page q p.
Proof. unfold same_page. naive_solver. Qed.
Lemma same_page_trans p q r : same_page p q -> same_page q r -> same_page p r.
Proof. unfold same_page. intuition congruence. Qed.

Definition env_ok (e : env) : Prop := forall n, zlen (nonce e n) = 12.

(** A live page stays live in a state that differs elsewhere. *)
Ltac relive live := let Hp := fresh in intros ?? Hp; destruct (live _ _ Hp); by constructor.

(** [lost] are the free pages of an earlier session: the file keeps their
    number and not their names, so nobody owns them and nobody gets them. *)
Section Store.
Context {F : Type} `{FileLaws F} `{CodecsLaws} {lost : list PageId}.

(** A page that can be written and read back under a configuration: its
    fields fit, its type is one the reader knows, and its bytes fill exactly
    one slot. *)
Record storable (c : PagerConfig.t) (p : Page.t) : Prop := {
  sb_header : PageHeader.wf (Page.header p);
  sb_type : PageType.readable (Page.page_type p) = true;
  sb_data : is_u32 (zlen (Page.data p));
  sb_slot : forall n bs, zlen n = 12 ->
    Page.to_bytes p (page_size_of c) (PagerConfig.encryption_key c) n = Ok bs ->
    zlen bs = page_size_of c }.

Lemma page_size_pos c : 4096 <= page_size_of c <= 65536.
Proof. apply PageSize.to_u32_bounds. Qed.

Lemma storable_decodes c p n bs verify :
  storable c p -> zlen n = 12 ->
  Page.to_bytes p (page_size_of c) (PagerConfig.encryption_key c) n = Ok bs ->
  exists q, Page.from_bytes bs verify (PagerConfig.encryption_key c) = Ok q /\ same_page q p.
Proof.
  intros [Hh Ht Hd Hs] Hn Hb. pose proof (Hs _ _ Hn Hb) as Hl. pose proof (page_size_pos c).
  destruct (Page.page_from_to_bytes p _ _ _ _ verify Hh Ht Hd Hn Hb) as (h & Hf & Hh'); [lia|].
  exists (Page.mk h (Page.data p)). split; [done|]. split_and!; [| |done].
  - unfold Page.page_id. simpl. by rewrite Hh'.
  - unfold Page.page_type. simpl. by rewrite Hh'.
Qed.

(** The pages the pager makes itself are short. *)
Lemma storable_short c p :
  PageHeader.wf (Page.header p) -> PageType.readable (Page.page_type p) = true ->
  zlen (Page.data p) <= 1024 -> storable c p.
Proof.
  intros Hh Ht Hl. pose proof (zlen_nonneg (Page.data p)).
  constructor; [done|done|unfold fits; simpl; lia|].
  intros n bs Hn Hb. destruct (Page.zlen_page _ _ _ _ _ Hb) as (cmp & fin & Hc & He & ->).
  apply compress_bound in Hc.
  assert (Hf : zlen fin <= zlen cmp + 28).
  { unfold Page.encrypt in He. destruct (PageHeader.encryption _); [injection He as <-; lia|].
    inv_ok. apply aes_len in Hx0. injection He as <-. rewrite zlen_app. lia. }
  pose proof (page_size_pos c). Z.div_mod_to_equations. lia.
Qed.

(** A page stored as it is fits when its data fits. *)
Lemma storable_raw c p :
  PageHeader.wf (Page.header p) -> PageType.readable (Page.page_type p) = true ->
  PageHeader.compression (Page.header p) = CompressionType.None_ ->
  PageHeader.encryption (Page.header p) = EncryptionType.None_ ->
  64 + zlen (Page.data p) <= page_size_of c -> storable c p.
Proof.
  intros Hh Ht Hc He Hl. pose proof (page_size_pos c). pose proof (zlen_nonneg (Page.data p)).
  constructor; [done|done|unfold fits; simpl; lia|]. intros n bs Hn Hb.
  destruct (Page.zlen_page _ _ _ _ _ Hb) as (cmp & fin & Hcmp & Hfin & ->).
  rewrite Hc in Hcmp. injection Hcmp as <-. unfold Page.encrypt in Hfin. rewrite He in Hfin.
  injection Hfin as <-. lia.
Qed.

Lemma storable_small c id ty v data :
  is_u64 id -> is_u64 v -> PageType.readable ty = true -> zlen data <= 1024 ->
  storable c (make_page c id ty v data).
Proof. intros. apply storable_short; [by constructor|done..]. Qed.

Definition phys (s : t F) (v : PageId) : PageId := PageMapper.translate (page_mapper s) v.
Definition disk (s : t F) (x : PageId) : bytes := slot (page_size s) (contents (file s)) x.
Definition decodes (s : t F) (x : PageId) (p : Page.t) : Prop :=
  forall verify, exists q, Page.from_bytes (disk s x) verify (key s) = Ok q /\ same_page q p.

Definition cache_holds (s : t F) (f : PageId -> option (Page.t * bool)) : Prop :=
  match cache s with None => forall k, f k = None | Some c => holds c f end.

Abbreviation next_virtual s := (PageMapper.next_virtual_id (page_mapper s)).
Abbreviation next_page s := (Superblock.next_page_id (superblock s)).
Abbreviation queue s := (FreeList.queue (free_list s)).

(** What the cache may hold: clean pages, in their current version. *)
Definition cache_clean (s : t F) (m : gmap PageId Page.t) (f : PageId -> option (Page.t * bool)) : Prop :=
  forall k p d, f k = Some (p, d) ->
    d = false /\ Page.page_id p = k /\ k < next_virtual s /\
    forall q, m !! k = Some q -> same_page p q.

Record live_page (s : t F) (v : PageId) (p : Page.t) : Prop := {
  lv_virtual : 2 <= v < next_virtual s;
  lv_id : Page.page_id p = v;
  lv_phys : 2 <= phys s v < next_page s;
  lv_free : phys s v ∉ lost ++ queue s;
  lv_disk : decodes s (phys s v) p }.

Record store (s : t F) (m : gmap PageId Page.t) : Prop := {
  st_live : forall v p, m !! v = Some p -> live_page s v p;
  st_inj : forall v w, is_Some (m !! v) -> is_Some (m !! w) -> phys s v = phys s w -> v = w;
  st_queue : NoDup (lost ++ queue s) /\ forall x, x ∈ lost ++ queue s -> 2 <= x < next_page s;
  st_count : free_pages s = zlen (lost ++ queue s);
  st_total : total_pages s = next_page s;
  st_size : is_u64 (zlen (contents (file s)));
  st_next : 2 <= next_page s < 2 ^ 64 /\ 2 <= next_virtual s < 2 ^ 64;
  st_reserved : phys s 1 = 1;
  st_cache : exists f, cache_holds s f /\ cache_clean s m f }.

(** ** Disk writes *)
Lemma write_block_inv off bs s s' :
  0 <= off -> write_block off bs s = (Ok tt, s') ->
  exists f, s' = set_file f s /\ contents f = written off bs (contents (file s)) /\
    off + zlen bs < 2 ^ 64.
Proof.
  intros Ho Hw. unfold write_block in Hw. sinv. injection Hw as <-.
  unfold on_file in Hs. destruct (write_to_offset off bs (file s)) as [[n|er|] f] eqn:Hf; try done.
  injection Hs as _ <-. destruct (write_to_offset_ok _ _ _ _ _ Ho Hf) as [Hb Hc].
  by exists f.
Qed.

Lemma disk_written s y bs f x :
  0 <= x -> 0 <= y -> zlen bs = page_size s ->
  contents f = written (y * page_size s) bs (contents (file s)) ->
  disk (set_file f s) x = if decide (x = y) then bs else disk s x.
Proof.
  intros Hx Hy Hl Hc. unfold disk, page_size. simpl. rewrite Hc.
  apply slot_written; try done. pose proof (page_size_pos (config s)). lia.
Qed.

Lemma size_written s y bs f :
  0 <= y -> is_u64 (zlen (contents (file s))) -> y * page_size s + zlen bs < 2 ^ 64 ->
  contents f = written (y * page_size s) bs (contents (file s)) -> is_u64 (zlen (contents f)).
Proof.
  intros Hy Hs Hb ->. pose proof (page_size_pos (config s)). unfold page_size in *.
  rewrite zlen_written by nia. unfold fits in *. pose proof (zlen_nonneg bs). nia.
Qed.

Lemma decodes_other s y bs f x p :
  0 <= x -> 0 <= y -> zlen bs = page_size s ->
  contents f = written (y * page_size s) bs (contents (file s)) ->
  x <> y -> decodes s x p -> decodes (set_file f s) x p.
Proof.
  intros Hx Hy Hl Hc Hne Hd verify. destruct (Hd verify) as (q & Hq & Hs). exists q.
  split; [|done]. rewrite (disk_written s y bs f x Hx Hy Hl Hc), decide_False by done. exact Hq.
Qed.

Lemma decodes_same s y bs f p n :
  0 <= y -> storable (config s) p -> zlen n = 12 ->
  Page.to_bytes p (page_size s) (key s) n = Ok bs ->
  contents f = written (y * page_size s) bs (contents (file s)) ->
  decodes (set_file f s) y p.
Proof.
  intros Hy Hp Hn Hb Hc verify. pose proof (sb_slot _ _ Hp _ _ Hn Hb) as Hl.
  rewrite (disk_written s y bs f y Hy Hy Hl Hc), decide_True by done.
  by eapply storable_decodes.
Qed.

(** Changes of state that do not touch what [store] is about. *)
Lemma store_ext s s' m :
  file s' = file s -> config s' = config s -> superblock s' = superblock s ->
  free_list s' = free_list s -> page_mapper s' = page_mapper s -> cache s' = cache s ->
  store s m -> store s' m.
Proof.
  intros Ef Ec Es El Em Eh []. destruct s, s'; simpl in *; subst.
  constructor; try done. relive st_live0.
Qed.

(** The cache changes, keeping the promise about its contents. *)
Lemma store_cache s c f m : store s m -> match c with None => forall k, f k = None | Some c => holds c f end ->
  cache_clean s m f -> store (set_cache c s) m.
Proof. intros [] Hc Hf. constructor; try done; [relive st_live0|by exists f]. Qed.

(** A slot no live page owns is written, and the cache may change. *)
Lemma store_write_other s m y bs f c g :
  store s m -> 0 <= y -> zlen bs = page_size s -> y * page_size s + zlen bs < 2 ^ 64 ->
  contents f = written (y * page_size s) bs (contents (file s)) ->
  (forall v, is_Some (m !! v) -> phys s v <> y) ->
  cache_holds (set_cache c s) g -> cache_clean s m g -> store (set_cache c (set_file f s)) m.
Proof.
  intros Hs Hy Hl Hb Hc Hv Hg Hcl. destruct Hs. constructor; try done; [|by eapply size_written|by exists g].
  intros v p Hp. destruct (st_live0 v p Hp). constructor; try done.
  apply (decodes_other s y bs f (phys s v)); try done; [lia|]. by apply Hv.
Qed.

(** The slot of a live page is written with its new version. *)
Lemma store_write_live s m v p n bs f c g :
  store s m -> is_Some (m !! v) -> Page.page_id p = v -> storable (config s) p -> zlen n = 12 ->
  Page.to_bytes p (page_size s) (key s) n = Ok bs -> phys s v * page_size s + zlen bs < 2 ^ 64 ->
  contents f = written (phys s v * page_size s) bs (contents (file s)) ->
  cache_holds (set_cache c s) g -> cache_clean s (<[v := p]> m) g ->
  store (set_cache c (set_file f s)) (<[v := p]> m).
Proof.
  intros Hs Hv Hid Hp Hn Hb Hlt Hc Hg Hcl. destruct Hs. pose proof (sb_slot _ _ Hp _ _ Hn Hb) as Hl.
  destruct Hv as [p0 Hp0]. destruct (st_live0 v p0 Hp0) as [V1 V2 V3 V4 V5].
  assert (Hsome : forall w, is_Some (<[v := p]> m !! w) -> is_Some (m !! w)).
  { intros w. destruct (decide (w = v)) as [->|]; [by rewrite Hp0|by rewrite lookup_insert_ne]. }
  constructor; try done.
  - intros w q [[<- <-]|[Hne Hq]]%lookup_insert_Some.
    + constructor; try done. apply (decodes_same s (phys s v) bs f p n); try done. lia.
    + destruct (st_live0 w q Hq). constructor; try done.
      apply (decodes_other s (phys s v) bs f (phys s w)); try done; [lia|lia|].
      intros Heq. apply Hne. symmetry. by apply st_inj0.
  - intros w w' Hw Hw'. apply st_inj0; by apply Hsome.
  - eapply size_written; [|done|exact Hlt|done]. lia.
  - by exists g.
Qed.

(** ** Steps on the cache *)
Definition all_clean (f : PageId -> option (Page.t * bool)) : Prop :=
  forall k p d, f k = Some (p, d) -> d = false.

Lemma set_cache_id (s : t F) : set_cache (cache s) s = s.
Proof. by destruct s. Qed.

Lemma cache_get_step s f v : cache_holds s f ->
  exists c, on_cache None (PageCache.get v) s = (Ok (fst <$> f v), set_cache c s) /\
    cache_holds (set_cache c s) f.
Proof.
  unfold cache_holds, on_cache. destruct (cache s) as [c|] eqn:Hc.
  - intros Hf. destruct (holds_get c f v Hf) as (c' & -> & Hh). by exists (Some c').
  - intros Hf. exists None. rewrite Hf. split; [|done]. simpl. by rewrite <- Hc, set_cache_id.
Qed.

Lemma cache_put_step s f p d : cache_holds s f -> all_clean f ->
  exists c f', on_cache None (PageCache.put p d) s = (Ok None, set_cache c s) /\
    cache_holds (set_cache c s) f' /\
    forall k q b, f' k = Some (q, b) ->
      k = Page.page_id p /\ q = p /\ b = d \/ k <> Page.page_id p /\ f k = Some (q, b).
Proof.
  unfold cache_holds, on_cache. intros Hf Hclean. destruct (cache s) as [c|] eqn:Hc.
  - destruct (holds_put c f p d Hf) as (ev & c' & f' & -> & Hh & [Hnew Hrest Hev]).
    destruct ev as [x|]; [by specialize (Hclean _ _ _ (Hev x eq_refl))|].
    exists (Some c'), f'. split_and!; [done|done|]. intros k q b Hk.
    destruct (decide (k = Page.page_id p)) as [->|Hne]; [left|right; split; [done|by apply Hrest]].
    rewrite Hnew in Hk. destruct (f (Page.page_id p)) as [[q' b']|] eqn:Hb; simpl in Hk.
    + apply Hclean in Hb as ->. by simplify_eq.
    + by simplify_eq.
  - exists None, f. split_and!; [by rewrite <- Hc, set_cache_id|done|]. intros k q b. by rewrite Hf.
Qed.

Lemma cache_mark_step s f v : cache_holds s f ->
  exists b c f', on_cache false (PageCache.mark_clean v) s = (Ok b, set_cache c s) /\
    cache_holds (set_cache c s) f' /\
    forall k q d, f' k = Some (q, d) ->
      k = v /\ d = false /\ (exists d', f v = Some (q, d')) \/ k <> v /\ f k = Some (q, d).
Proof.
  unfold cache_holds, on_cache. intros Hf. destruct (cache s) as [c|] eqn:Hc.
  - destruct (holds_mark_clean c f v Hf) as (b & c' & -> & Hh).
    eexists b, (Some c'), _. split_and!; [done|exact Hh|]. intros k q d. simpl.
    destruct (decide (k = v)) as [->|]; [|by right]. left.
    destruct (f v) as [[q' d']|]; simplify_eq/=. naive_solver.
  - exists false, None, f. split_and!; [by rewrite <- Hc, set_cache_id|done|]. intros k q d. by rewrite Hf.
Qed.

(** ** Writing and reading pages *)
Lemma write_page_to_disk_inv e n p s s' :
  0 <= phys s (Page.page_id p) -> write_page_to_disk e n p s = (Ok tt, s') ->
  exists bs f, Page.to_bytes p (page_size s) (key s) (nonce e n) = Ok bs /\ s' = set_file f s /\
    contents f = written (phys s (Page.page_id p) * page_size s) bs (contents (file s)) /\
    phys s (Page.page_id p) * page_size s + zlen bs < 2 ^ 64.
Proof.
  intros Hp Hw. unfold write_page_to_disk in Hw. sinv.
  pose proof (page_size_pos (config s)). unfold page_size in *.
  apply write_block_inv in Hw as (f & -> & Hc & Hlt); [|unfold phys in Hp; nia].
  by exists x0, f.
Qed.

(** What a successful [write_page] does: one slot is written, and the cache
    holds clean pages again, the new one among them or not. *)
Lemma write_page_inv e p s s' f0 :
  env_ok e -> 0 <= phys s (Page.page_id p) -> cache_holds s f0 -> all_clean f0 ->
  write_page e p s = (Ok tt, s') ->
  exists n bs f c g, zlen n = 12 /\ Page.to_bytes p (page_size s) (key s) n = Ok bs /\
    s' = set_cache c (set_file f s) /\
    contents f = written (phys s (Page.page_id p) * page_size s) bs (contents (file s)) /\
    phys s (Page.page_id p) * page_size s + zlen bs < 2 ^ 64 /\
    cache_holds s' g /\
    forall k q d, g k = Some (q, d) ->
      d = false /\ (k = Page.page_id p /\ q = p \/ k <> Page.page_id p /\ f0 k = Some (q, d)).
Proof.
  intros He Hp Hf0 Hcl Hw. unfold write_page in Hw. sinv. unfold id in Hw.
  destruct (cache s) as [c0|] eqn:Hc0; [destruct (PagerConfig.cache_write_back (config s))|].
  - destruct (cache_put_step s f0 p true Hf0 Hcl) as (c1 & f1 & Hput & Hf1 & Hk1).
    rewrite (sbind_ok _ _ _ _ _ Hput) in Hw. sinv. injection Hs as _ <-.
    destruct x0. apply (write_page_to_disk_inv e 1 p (set_cache c1 s)) in Hs0
      as (bs & f & Hb & -> & Hc & Hlt); [|done].
    destruct (cache_mark_step (set_file f (set_cache c1 s)) f1 (Page.page_id p) Hf1)
      as (b & c2 & f2 & Hm & Hf2 & Hk2).
    rewrite Hm in Hs1. injection Hs1 as _ <-. injection Hw as <-.
    exists (nonce e 1), bs, f, c2, f2. split_and!; [apply He|done|done|done|done|done|].
    intros k q d [(-> & -> & d' & Hd)|[Hne Hk]]%Hk2.
    + apply Hk1 in Hd as [(_ & -> & _)|[? _]]; [|done]. split; [done|by left].
    + apply Hk1 in Hk as [(? & _)|[_ Hk]]; [done|]. split; [by eapply Hcl|by right].
  - sinv. destruct x. apply (write_page_to_disk_inv e 0 p s) in Hs as (bs & f & Hb & -> & Hc & Hlt); [|done].
    destruct (cache_put_step (set_file f s) f0 p false Hf0 Hcl) as (c1 & f1 & Hput & Hf1 & Hk1).
    rewrite Hput in Hs0. injection Hs0 as _ <-. injection Hw as <-.
    exists (nonce e 0), bs, f, c1, f1. split_and!; [apply He|done|done|done|done|done|].
    intros k q d [(-> & -> & ->)|[Hne Hk]]%Hk1.
    + split; [done|by left].
    + split; [by eapply Hcl|by right].
  - apply (write_page_to_disk_inv e 0 p s) in Hw as (bs & f & Hb & -> & Hc & Hlt); [|done].
    exists (nonce e 0), bs, f, (cache s), f0. split_and!; [apply He|done|done|done|done|done|].
    unfold cache_holds in Hf0. rewrite Hc0 in Hf0. intros k q d. by rewrite Hf0.
Qed.

Lemma store_clean s m f : cache_clean s m f -> all_clean f.
Proof. intros Hc k p d Hk. by destruct (Hc k p d Hk). Qed.

Lemma write_live s m e p s' :
  store s m -> env_ok e -> is_Some (m !! Page.page_id p) -> storable (config s) p ->
  write_page e p s = (Ok tt, s') -> store s' (<[Page.page_id p := p]> m) /\ config s' = config s.
Proof.
  intros Hs He [p0 Hp0] Hp Hw. destruct (st_cache _ _ Hs) as (f0 & Hf0 & Hcl).
  destruct (st_live _ _ Hs _ _ Hp0) as [V1 V2 V3 V4 V5].
  destruct (write_page_inv e p s s' f0 He ltac:(lia) Hf0 (store_clean _ _ _ Hcl) Hw)
    as (n & bs & f & c & g & Hn & Hb & -> & Hc & Hlt & Hg & Hk).
  split; [|done]. eapply (store_write_live s m (Page.page_id p) p n bs f c g); try done.
  intros k q d Hkq. destruct (Hk k q d Hkq) as [-> Hor]. split; [done|].
  destruct Hor as [[-> ->]|[Hne Hold]].
  - split_and!; [done|lia|]. intros q. rewrite lookup_insert_eq. by intros [= <-].
  - destruct (Hcl _ _ _ Hold) as (_ & ? & ? & ?). by rewrite lookup_insert_ne.
Qed.

(** Writing a reserved page leaves the store alone. *)
Lemma write_reserved s m e p s' :
  store s m -> env_ok e -> Page.page_id p = 1 -> storable (config s) p ->
  write_page e p s = (Ok tt, s') -> store s' m /\ config s' = config s.
Proof.
  intros Hs He Hid Hp Hw. destruct (st_cache _ _ Hs) as (f0 & Hf0 & Hcl).
  pose proof (st_reserved _ _ Hs) as Hr1. pose proof (st_next _ _ Hs) as Hnx.
  destruct (write_page_inv e p s s' f0 He ltac:(rewrite Hid; lia) Hf0 (store_clean _ _ _ Hcl) Hw)
    as (n & bs & f & c & g & Hn & Hb & -> & Hc & Hlt & Hg & Hk).
  rewrite Hid, Hr1 in *. split; [|done]. pose proof (sb_slot _ _ Hp _ _ Hn Hb) as Hl.
  eapply (store_write_other s m 1 bs f c g); try done.
  - intros v [q Hq]. destruct (st_live _ _ Hs _ _ Hq). lia.
  - intros k q d Hkq. destruct (Hk k q d Hkq) as [-> Hor]. split; [done|].
    destruct Hor as [[-> ->]|[Hne Hold]].
    + split_and!; [done|lia|]. intros q Hq. destruct (st_live _ _ Hs _ _ Hq). lia.
    + by destruct (Hcl _ _ _ Hold) as (_ & ? & ? & ?).
Qed.

Lemma read_block_ok s x :
  0 <= x -> is_u64 (zlen (contents (file s))) ->
  read_block (x * page_size s) (page_size s) s = (Ok (disk s x), s).
Proof.
  intros Hx Hs. pose proof (page_size_pos (config s)). unfold read_block.
  erewrite sbind_ok by reflexivity. unfold id.
  rewrite read_at_offset_ok; [|unfold page_size; nia|unfold page_size; lia|done].
  done.
Qed.

Lemma set_virtual_same v p : same_page (set_virtual v p) p.
Proof. done. Qed.

(** A page read from its slot, with the cache filled. *)
Lemma read_from_disk_ok s m e v p :
  store s m -> m !! v = Some p ->
  exists q c, read_from_disk e v (phys s v) s = (Ok q, set_cache c s) /\ same_page q p /\
    store (set_cache c s) m.
Proof.
  intros Hs Hv. destruct (st_live _ _ Hs _ _ Hv) as [V1 V2 V3 V4 V5].
  destruct (st_cache _ _ Hs) as (f0 & Hf0 & Hcl).
  destruct (V5 (PagerConfig.enable_checksums (config s))) as (q & Hq & Hsame).
  unfold read_from_disk. erewrite sbind_ok by reflexivity. unfold id.
  erewrite sbind_ok by (apply read_block_ok; [lia|apply Hs]).
  erewrite sbind_ok by (unfold lift; by rewrite Hq).
  set (q' := if _ =? v then q else set_virtual v q).
  assert (Hq' : same_page q' p) by (subst q'; case_match; done).
  destruct (cache_put_step s f0 q' false Hf0 (store_clean _ _ _ Hcl)) as (c & f1 & Hput & Hf1 & Hk).
  erewrite sbind_ok by exact Hput. simpl. exists q', c. split_and!; [done|done|].
  apply (store_cache s c f1 m Hs Hf1). intros k r d Hkr.
  destruct (Hk k r d Hkr) as [(-> & -> & ->)|[Hne Hold]]; [|by apply Hcl].
  destruct Hq' as (Hid & Hrest). rewrite Hid, V2. split_and!; [done|done|lia|].
  intros r Hr. rewrite Hv in Hr. by injection Hr as <-.
Qed.

Lemma read_live s m e v p :
  store s m -> m !! v = Some p ->
  exists q s', read_page e v s = (Ok q, s') /\ same_page q p /\ store s' m /\ config s' = config s /\
    superblock s' = superblock s /\ page_mapper s' = page_mapper s /\ contents (file s') = contents (file s)
    /\ free_list s' = free_list s /\ header s' = header s.
Proof.
  intros Hs Hv. destruct (st_live _ _ Hs _ _ Hv) as [V1 V2 V3 V4 V5].
  destruct (st_cache _ _ Hs) as (f0 & Hf0 & Hcl).
  unfold read_page. erewrite sbind_ok by reflexivity. unfold id. fold (phys s v).
  erewrite sbind_ok by (unfold lift; rewrite ensure_true; [done|]; rewrite (st_total _ _ Hs); lia).
  destruct (cache_get_step s f0 v Hf0) as (c & Hget & Hf1).
  erewrite sbind_ok by exact Hget.
  assert (Hst : store (set_cache c s) m) by (by apply (store_cache s c f0)).
  destruct (f0 v) as [[q d]|] eqn:Hq; simpl.
  - exists q, (set_cache c s). destruct (Hcl _ _ _ Hq) as (_ & _ & _ & Hsame).
    split_and!; try done. by apply Hsame.
  - unfold finally. unfold modify. unfold mbind, stateful_bind.
    set (s1 := set_pins _ (set_cache c s)).
    assert (Hst1 : store s1 m) by (by apply (store_ext (set_cache c s))).
    destruct (read_from_disk_ok s1 m e v p Hst1 Hv) as (q & c' & Hrd & Hsame & Hst2).
    change (phys s1 v) with (phys s v) in Hrd. rewrite Hrd.
    eexists q, _. split_and!; try done. by eapply (store_ext (set_cache c' s1)).
Qed.
End Store.
Arguments store {F _ _} lost s m.
Arguments live_page {F _ _} lost s v p.
End PagerStore.
