(* ===== verification/PagerLife.v ===== *)
(** * Allocation, freeing and reopening

    The rest of the pager's contract: pages come and go, the reserved pages
    of the file describe the state, and a synced file reopens with the same
    pages. *)
From S2P Require Import Prelude Types Vfs PagerConfig Page Cache PagerMeta Pager PagerStore.

Module PagerLife.
Import Pager Slot CacheContract PagerStore.

Section Life.
Context {F : Type} `{FileLaws F} `{CodecsLaws} {lost : list PageId}.
Variable map_order : gmap PageId PageId -> list (PageId * PageId).

Abbreviation next_virtual s := (PageMapper.next_virtual_id (page_mapper s)).
Abbreviation next_page s := (Superblock.next_page_id (superblock s)).
Abbreviation queue s := (lost ++ FreeList.queue (free_list s)).
Abbreviation store := (PagerStore.store lost).

(** The reserved pages: what a reopened pager finds. *)
Record header_ok (c : PagerConfig.t) (h : FileHeader.t) : Prop := {
  ho_wf : FileHeaderLaws.wf h;
  ho_size : FileHeader.page_size h = PagerConfig.page_size c;
  ho_compression : FileHeader.compression h = PagerConfig.compression c;
  ho_encryption : FileHeader.encryption h = PagerConfig.encryption c }.

Definition superblock_on_disk (s : t F) (b : Superblock.t) : Prop :=
  forall verify, exists q, Page.from_bytes (disk s 1) verify (key s) = Ok q /\
    Page.data q = Superblock.to_bytes map_order b.

Record superblock_ok (q : list PageId) (b : Superblock.t) : Prop := {
  so_magic : Superblock.magic b = Superblock.MAGIC;
  so_version : Superblock.version b = Superblock.VERSION;
  so_first : Superblock.first_free_list_page b = 0;
  so_last : Superblock.last_free_list_page b = 0;
  so_free : Superblock.free_pages b = zlen q;
  so_counter : is_u64 (Superblock.transaction_counter b);
  so_checkpoint : is_u64 (Superblock.last_checkpoint_lsn b);
  so_root : is_u64 (Superblock.root_btree_page b);
  so_rows : is_u64 (Superblock.btree_row_count b);
  so_mapper_page : Superblock.page_mapper_page b = 0 }.

(** When the mapper is not dirty, the superblock has its pairs, and a
    counter from which [new_mapper] starts no lower. *)
Definition mapper_saved (b : Superblock.t) (m : PageMapper.t) : Prop :=
  PageMapper.mapping b.(Superblock.page_mapper) = PageMapper.mapping m /\
  0 < PageMapper.next_virtual_id b.(Superblock.page_mapper) < 2 ^ 64 /\
  PageMapper.next_virtual_id m
    <= Z.max (PageMapper.next_virtual_id b.(Superblock.page_mapper)) (Superblock.next_page_id b).

Record meta (s : t F) : Prop := {
  mt_header : header_ok (config s) (header s);
  mt_disk0 : exists h rest, disk s 0 = FileHeader.to_bytes h ++ rest /\ header_ok (config s) h;
  mt_disk1 : superblock_on_disk s (superblock s);
  mt_superblock : superblock_ok (queue s) (superblock s);
  mt_mapping : forall v p, PageMapper.mapping (page_mapper s) !! v = Some p ->
    2 <= v < next_virtual s /\ 0 <= p < next_page s;
  mt_saved : PageMapper.dirty (page_mapper s) = false ->
    mapper_saved (superblock s) (page_mapper s) }.

(** ** Allocation *)
Lemma mark_allocated_next b :
  Superblock.next_page_id (Superblock.mark_page_allocated b) = Superblock.next_page_id b /\
  Superblock.total_pages (Superblock.mark_page_allocated b) = Superblock.total_pages b.
Proof. unfold Superblock.mark_page_allocated. by case_match. Qed.

Lemma queue_short s m : store s m -> zlen (queue s) < next_page s.
Proof.
  intros []. destruct st_queue0 as [Hnd Hin]. 
  assert (Hl : (length (queue s) <= length (seqZ 2 (next_page s - 2)))%nat).
  { apply NoDup_incl_length; [by apply NoDup_ListNoDup|]. intros x Hx%list_elem_of_In%Hin.
    apply list_elem_of_In, elem_of_seqZ. lia. }
  rewrite length_seqZ in Hl. unfold zlen. lia.
Qed.

Lemma store_counts s m : store s m -> is_u64 (total_pages s) /\ is_u64 (free_pages s).
Proof.
  intros Hs. pose proof (queue_short _ _ Hs). pose proof (zlen_nonneg (queue s)). destruct Hs.
  rewrite st_count0, st_total0. unfold fits. lia.
Qed.

(** What [take_physical] leaves alone. *)
Record took (s s' : t F) : Prop := {
  tk_file : file s' = file s;
  tk_config : config s' = config s;
  tk_header : header s' = header s;
  tk_mapper : page_mapper s' = page_mapper s;
  tk_cache : cache s' = cache s;
  tk_next : next_page s <= next_page s';
  tk_superblock : superblock_ok (queue s) (superblock s) -> superblock_ok (queue s') (superblock s');
  tk_saved : Superblock.page_mapper (superblock s') = Superblock.page_mapper (superblock s) }.

Lemma take_new s m :
  store s m -> next_page s + 1 < 2 ^ 64 ->
  let s' := set_superblock (Superblock.allocate_new_page (superblock s)).2 s in
  store s' m /\ took s s'.
Proof.
  intros [] Hy. simpl.
  assert (Hn : as_u64 (next_page s + 1) = next_page s + 1) by (apply as_u_id; unfold fits; lia).
  split.
  - constructor; simpl; rewrite ?Hn; try done.
    + intros v p Hp. destruct (st_live0 v p Hp). constructor; simpl; try done; unfold phys in *; simpl; rewrite ?Hn; lia.
    + split; [apply st_queue0|]. intros x Hx%st_queue0. lia.
    + unfold total_pages in *. simpl. rewrite st_total0, Hn. lia.
    + lia.
  - constructor; simpl; rewrite ?Hn; try done; [lia|]. intros []. by constructor.
Qed.

Lemma queue_cons (s : t F) x q : FreeList.queue (free_list s) = x :: q -> queue s ≡ₚ x :: (lost ++ q).
Proof. intros ->. by rewrite Permutation_middle. Qed.

Lemma take_free s m x q :
  store s m -> FreeList.queue (free_list s) = x :: q ->
  let s' := set_superblock (Superblock.mark_page_allocated (superblock s))
              (set_free_list (FreeList.decrement_free (FreeList.mk (FreeList.first_page (free_list s))
                (FreeList.last_page (free_list s)) (FreeList.total_free (free_list s)) q)) s) in
  store s' m /\ took s s'.
Proof.
  intros Hs Hq. pose proof (queue_short s m Hs) as Hqs. destruct Hs. simpl.
  destruct (mark_allocated_next (superblock s)) as [Hsn Hst].
  pose proof (queue_cons s x q Hq) as Hp. destruct st_queue0 as [Hnd Hin].
  rewrite Hp in Hnd. apply NoDup_cons in Hnd as [Hx Hnd].
  pose proof (zlen_nonneg (lost ++ q)).
  assert (Hz : zlen (queue s) = 1 + zlen (lost ++ q)) by (rewrite Hq; zlen_tac).
  split.
  - constructor; simpl; try done; unfold total_pages, free_pages in *; simpl; rewrite ?Hsn, ?Hst; try done.
    + intros v p Hv. destruct (st_live0 v p Hv) as [? ? ? Hf ?]. constructor; simpl; rewrite ?Hsn; try done.
      intros Hin'. apply Hf. rewrite Hp. by right.
    + split; [done|]. intros z Hz'. apply Hin. rewrite Hp. by right.
    + rewrite st_count0, Hz. rewrite as_u_id; [lia|]. unfold fits. lia.
  - constructor; simpl; rewrite ?Hsn; try done; [|by unfold Superblock.mark_page_allocated; case_match].
    intros []. rewrite Hz in so_free0.
    unfold Superblock.mark_page_allocated. rewrite (proj2 (Z.ltb_lt _ _)) by lia.
    constructor; simpl; try done. lia.
Qed.

(** A successful [take_physical] hands out a slot no live page has and the
    free list no longer offers. *)
Lemma take_physical_inv s m y s' :
  store s m -> take_physical s = (Ok y, s') -> y + 1 < 2 ^ 64 ->
  store s' m /\ took s s' /\ 2 <= y < next_page s' /\ y ∉ queue s' /\
  forall v, is_Some (m !! v) -> phys s v <> y.
Proof.
  intros Hs Ht Hy. unfold take_physical in Ht. sinv. unfold id in Ht.
  unfold FreeList.pop_page in Ht. destruct (FreeList.queue (free_list s)) as [|x q] eqn:Hq.
  - sinv. injection Ht as <- <-. destruct (take_new s m Hs Hy) as [Hst Htk].
    destruct Hs. split_and!; [done|done|lia| | |]; simpl.
    + rewrite as_u_id; [lia|]. unfold fits. lia.
    + intros Hin%st_queue0. lia.
    + intros v [p Hp]. destruct (st_live0 v p Hp). lia.
  - sinv. injection Ht as <- <-. destruct (take_free s m x q Hs Hq) as [Hst Htk].
    pose proof (queue_cons s x q Hq) as Hperm. destruct Hs, st_queue0 as [Hnd Hin].
    assert (Hxin : x ∈ queue s) by (rewrite Hperm; by left).
    rewrite Hperm in Hnd. apply NoDup_cons in Hnd as [Hx Hnd].
    split_and!; [done|done|by apply Hin| |done|]; simpl.
    + rewrite (proj1 (mark_allocated_next _)). by apply Hin.
    + intros v [p Hp] <-. by destruct (st_live0 v p Hp).
Qed.

Lemma zlen_superblock b : zlen (Superblock.to_bytes map_order b) = 352.
Proof. unfold Superblock.to_bytes. case_match; by rewrite zlen_resize. Qed.

Lemma zlen_page0 c h : zlen (page0_data c h) = page_size_of c.
Proof. unfold page0_data. apply zlen_resize. pose proof (page_size_pos c). lia. Qed.

Lemma store_set_file s m f : store s m -> contents f = contents (file s) -> store (set_file f s) m.
Proof.
  intros [] Hc. constructor; simpl; rewrite ?Hc; try done.
  intros v p Hp. destruct (st_live0 v p Hp). constructor; try done.
  intros verify. unfold disk. simpl. rewrite Hc. apply lv_disk0.
Qed.

(** The two metadata pages are written and no live page is touched. *)
Lemma write_metadata_inv e n h b s s' m :
  store s m -> env_ok e -> write_metadata map_order e n h b s = (Ok tt, s') ->
  store s' m /\ (exists f, s' = set_file f s) /\
  disk s' 0 = page0_data (config s) h /\
  exists k bs, zlen k = 12 /\ disk s' 1 = bs /\
    Page.to_bytes (make_page (config s) 1 PageType.Superblock 0 (Superblock.to_bytes map_order b))
      (page_size s) (key s) k = Ok bs.
Proof.
  intros Hs He Hw. unfold write_metadata in Hw. sinv. unfold id in *. destruct x0.
  pose proof (page_size_pos (config s)) as Hps.
  apply write_block_inv in Hs1 as (f1 & -> & Hc1 & Hb1); [|lia].
  apply write_block_inv in Hw as (f2 & -> & Hc2 & Hb2); [|unfold page_size; lia].
  pose proof (zlen_page0 (config s) h) as Hz0.
  assert (Hstor : storable (config s) (make_page (config s) 1 PageType.Superblock 0 (Superblock.to_bytes map_order b))).
  { apply storable_small; try done. rewrite zlen_superblock. lia. }
  pose proof (sb_slot _ _ Hstor _ _ (He n) Hs2) as Hz1.
  destruct (st_cache _ _ Hs) as (g & Hg & Hcl).
  assert (Hst1 : store (set_file f1 s) m).
  { rewrite <- (set_cache_id (set_file f1 s)).
    apply (store_write_other s m 0 (page0_data (config s) h) f1 (cache s) g); rewrite ?Z.mul_0_l; try done.
    intros v [q Hq]. destruct (st_live _ _ Hs _ _ Hq). lia. }
  assert (Hst2 : store (set_file f2 (set_file f1 s)) m).
  { rewrite <- (set_cache_id (set_file f2 _)).
    apply (store_write_other (set_file f1 s) m 1 x1 f2 (cache s) g); rewrite ?Z.mul_1_l; try done.
    intros v [q Hq]. destruct (st_live _ _ Hs _ _ Hq). unfold phys in *. simpl. lia. }
  split_and!; [done|by exists f2| |exists (nonce e n), x1; split_and!; [apply He| |done]].
  - rewrite (disk_written (set_file f1 s) 1 x1 f2 0); [|lia|lia|done|by rewrite Z.mul_1_l].
    simpl. by rewrite (disk_written s 0 (page0_data (config s) h) f1 0).
  - by rewrite (disk_written (set_file f1 s) 1 x1 f2 1); [| | |done|rewrite Z.mul_1_l].
Qed.

(** A new live page in a slot nobody owns. *)
Lemma store_add s m v p n bs f :
  store s m -> m !! v = None -> 2 <= v < next_virtual s -> Page.page_id p = v ->
  2 <= phys s v < next_page s -> phys s v ∉ queue s ->
  (forall w, is_Some (m !! w) -> phys s w <> phys s v) ->
  storable (config s) p -> zlen n = 12 -> Page.to_bytes p (page_size s) (key s) n = Ok bs ->
  phys s v * page_size s + zlen bs < 2 ^ 64 ->
  contents f = written (phys s v * page_size s) bs (contents (file s)) ->
  (exists g, cache_holds s g /\ cache_clean s m g /\ g v = None) ->
  store (set_file f s) (<[v := p]> m).
Proof.
  intros Hs Hv Hlt Hid Hph Hq Hown Hp Hn Hb Hsz Hc (g & Hg & Hcl & Hgv).
  destruct Hs. pose proof (sb_slot _ _ Hp _ _ Hn Hb) as Hl.
  constructor; try done.
  - intros w q [[<- <-]|[Hne Hw]]%lookup_insert_Some.
    + constructor; try done. apply (decodes_same s (phys s v) bs f p n); try done. lia.
    + destruct (st_live0 w q Hw). constructor; try done.
      apply (decodes_other s (phys s v) bs f (phys s w)); try done; [lia|lia|].
      by apply Hown.
  - intros w w' Hw Hw'. change (phys s w = phys s w' -> w = w').
    destruct (decide (w = v)) as [->|Hwv], (decide (w' = v)) as [->|Hwv']; [done| | |].
    + rewrite lookup_insert_ne in Hw' by done. intros Heq. by destruct (Hown w' Hw').
    + rewrite lookup_insert_ne in Hw by done. intros Heq. by destruct (Hown w Hw).
    + rewrite !lookup_insert_ne in * by done. by apply st_inj0.
  - eapply size_written; [|done|exact Hsz|done]. lia.
  - exists g. split; [done|]. intros k q d Hk. destruct (Hcl k q d Hk) as (? & ? & ? & ?).
    split_and!; try done. intros q'. rewrite lookup_insert_ne; [by auto|]. intros ->. by rewrite Hgv in Hk.
Qed.

(** The counter of virtual ids moves on. *)
Lemma store_bump s m : store s m -> next_virtual s + 1 < 2 ^ 64 -> store (set_mapper (PageMapper.allocate_virtual (page_mapper s)).2 s) m.
Proof.
  intros [] Hb.
  assert (Hn : as_u64 (next_virtual s + 1) = next_virtual s + 1) by (apply as_u_id; unfold fits; lia).
  constructor; simpl; rewrite ?Hn; try done.
  - intros w p Hp. destruct (st_live0 w p Hp). constructor; simpl; rewrite ?Hn; try done. lia.
  - lia.
  - destruct st_cache0 as (g & Hg & Hcl). exists g. split; [done|].
    intros k q d Hk. destruct (Hcl k q d Hk) as (? & ? & ? & ?). split_and!; try done. simpl. lia.
Qed.

(** The translation of an id nobody has changes. *)
Lemma store_map s m v mp :
  store s m -> m !! v = None -> v <> 1 -> PageMapper.next_virtual_id mp = next_virtual s ->
  (forall w, w <> v -> PageMapper.translate mp w = phys s w) -> store (set_mapper mp s) m.
Proof.
  intros [] Hv Hv1 Hn Hw.
  assert (Hph : forall w, is_Some (m !! w) -> phys (set_mapper mp s) w = phys s w).
  { intros w [p Hp]. apply Hw. intros ->. congruence. }
  constructor; simpl; rewrite ?Hn; try done.
  - intros w p Hp. destruct (st_live0 w p Hp).
    constructor; simpl; rewrite ?Hn, ?Hph by (by exists p); done.
  - intros w w' Hl Hl'. rewrite !Hph by done. by apply st_inj0.
  - transitivity (phys s 1); [by apply Hw|done].
  - destruct st_cache0 as (g & Hg & Hcl). exists g. split; [done|].
    intros k q d Hk. destruct (Hcl k q d Hk) as (? & ? & ? & ?). split_and!; try done. simpl. lia.
Qed.

Lemma take_physical_ge s m y s' : store s m -> take_physical s = (Ok y, s') -> 2 <= y.
Proof.
  intros [] Ht. unfold take_physical in Ht. sinv. unfold id in Ht. unfold FreeList.pop_page in Ht.
  destruct (FreeList.queue (free_list s)) as [|x q] eqn:Hq; sinv; injection Ht as <- <-; [lia|].
  apply st_queue0. set_solver.
Qed.

Lemma cached_fresh (s : t F) m g : cache_clean s m g -> g (next_virtual s) = None.
Proof.
  intros Hcl. destruct (g _) as [[q d]|] eqn:Hg; [|done].
  destruct (Hcl _ _ _ Hg) as (_ & _ & ? & _). lia.
Qed.

Lemma collect_metadata_inv e (s : t F) r s' :
  collect_metadata e s = (Ok r, s') ->
  s' = set_header r.1 s /\ r.2 = superblock s /\
  r.1 = FileHeader.update_modified_timestamp (now e)
          (header_counts (header s) (total_pages s) (free_pages s)).
Proof. intros Hc. unfold collect_metadata in Hc. sinv. by injection Hc as <- <-. Qed.

Lemma header_ok_counts c h n total free :
  header_ok c h -> is_u64 total -> is_u64 free ->
  header_ok c (FileHeader.update_modified_timestamp n (header_counts h total free)).
Proof.
  intros [[] ? ? ?] Ht Hf. constructor; simpl; done.
Qed.

Lemma page0_split c h : header_ok c h -> exists rest, page0_data c h = FileHeader.to_bytes h ++ rest.
Proof.
  intros [Hwf _ _ _]. pose proof (FileHeaderLaws.zlen_file_header h Hwf) as Hz.
  pose proof (page_size_pos c). unfold page0_data, resize. unfold FileHeader.SIZE in Hz.
  rewrite (proj2 (Z.leb_gt _ _)) by lia. by eexists.
Qed.

(** After the metadata pages are written, the file has the superblock and
    header of the state. *)
Lemma write_metadata_meta e n h b s s' m :
  store s m -> env_ok e -> header_ok (config s) h ->
  write_metadata map_order e n h b s = (Ok tt, s') ->
  store s' m /\ (exists f, s' = set_file f s) /\
  (exists h rest, disk s' 0 = FileHeader.to_bytes h ++ rest /\ header_ok (config s) h) /\
  superblock_on_disk s' b.
Proof.
  intros Hs He Hh Hw.
  destruct (write_metadata_inv e n h b s s' m Hs He Hw) as (Hst & (f & ->) & H0' & k & bs & Hk & H1' & Hb).
  split_and!; [done|by exists f| |].
  - destruct (page0_split _ _ Hh) as [rest Hr]. exists h, rest. by rewrite H0', Hr.
  - intros verify. rewrite H1'.
    destruct (storable_decodes (config s)
      (make_page (config s) 1 PageType.Superblock 0 (Superblock.to_bytes map_order b)) k bs verify)
      as (q & Hq & _ & _ & Hd); [|done|done|by exists q].
    apply storable_small; try done. rewrite zlen_superblock. lia.
Qed.

Lemma meta_intro s s' h :
  (exists f, s' = set_file f s) -> header s = h -> header_ok (config s) h ->
  (exists h rest, disk s' 0 = FileHeader.to_bytes h ++ rest /\ header_ok (config s) h) ->
  superblock_on_disk s' (superblock s) -> superblock_ok (queue s) (superblock s) ->
  (forall v p, PageMapper.mapping (page_mapper s) !! v = Some p ->
    2 <= v < next_virtual s /\ 0 <= p < next_page s) ->
  (PageMapper.dirty (page_mapper s) = false ->
    mapper_saved (superblock s) (page_mapper s)) ->
  meta s'.
Proof. intros (f & ->) Hh Hok H0' H1' [] Hm Hd. subst h. by constructor. Qed.

Lemma fresh_virtual s m : store s m -> m !! next_virtual s = None.
Proof.
  intros Hs. destruct (m !! next_virtual s) as [p|] eqn:Hp; [|done].
  destruct (st_live _ _ Hs _ _ Hp). lia.
Qed.

(** The state of [allocate_page] once the mapper knows the new page. *)
Lemma allocate_mapped s m y s1 :
  store s m -> next_virtual s + 1 < 2 ^ 64 -> y + 1 < 2 ^ 64 ->
  take_physical (set_mapper (PageMapper.allocate_virtual (page_mapper s)).2 s) = (Ok y, s1) ->
  let s2 := set_mapper (PageMapper.remap (page_mapper s1) (next_virtual s) y) s1 in
  store s2 m /\ took (set_mapper (PageMapper.allocate_virtual (page_mapper s)).2 s) s1 /\
  2 <= y < next_page s1 /\ phys s2 (next_virtual s) = y /\ y ∉ queue s2 /\ (forall w, is_Some (m !! w) -> phys s2 w <> y).
Proof.
  intros Hs Hv Hy Ht. pose proof (store_bump s m Hs Hv) as Hst0. pose proof (fresh_virtual s m Hs) as Hf.
  destruct (take_physical_inv _ m y s1 Hst0 Ht Hy) as (Hst1 & Htk & Hyn & Hyq & Hown).
  pose proof (tk_mapper _ _ Htk) as Hm. simpl in Hm. simpl.
  assert (Htr : forall w, PageMapper.translate (PageMapper.remap (page_mapper s1) (next_virtual s) y) w
    = if decide (w = next_virtual s) then y else phys s w).
  { intros w. rewrite PageMapperLaws.translate_remap, Hm. done. }
  split_and!; [|done|lia|lia| |done|].
  - apply (store_map s1 m (next_virtual s)); [done|done|destruct Hs; lia|done|].
    intros w Hw. rewrite Htr, decide_False by done. unfold phys. by rewrite Hm.
  - unfold phys. simpl. by rewrite Htr, decide_True.
  - intros w Hw. unfold phys. simpl. rewrite Htr. rewrite decide_False; [by apply Hown|].
    intros ->. rewrite Hf in Hw. by destruct Hw.
Qed.

Lemma allocate_inv s m e ty v s' :
  store s m -> meta s -> env_ok e -> PageType.readable ty = true -> next_virtual s + 1 < 2 ^ 64 ->
  allocate_page map_order e ty s = (Ok v, s') ->
  v = next_virtual s /\ m !! v = None /\
  store s' (<[v := make_page (config s) v ty v []]> m) /\ meta s' /\ config s' = config s /\
  next_virtual s' = next_virtual s + 1.
Proof.
  intros Hs Hmt He Hty Hu Ha. unfold allocate_page in Ha. sinv. unfold id in Ha.
  change (PageMapper.allocate_virtual (page_mapper s))
    with (next_virtual s, (PageMapper.allocate_virtual (page_mapper s)).2) in Ha.
  cbv beta iota zeta in Ha. sinv. injection Ha as <- <-.
  set (v := next_virtual s) in *. rename x0 into y, x2 into bs. destruct x4, x5.
  pose proof (store_bump s m Hs Hu) as Hst0. pose proof (page_size_pos (config s)) as Hps.
  pose proof (take_physical_ge _ _ _ _ Hst0 Hs1) as Hy.
  apply collect_metadata_inv in Hs4 as (-> & Hx2 & Hx1).
  apply write_block_inv in Hs5 as (f & -> & Hc & Hb); [|unfold page_size; nia].
  assert (Hstor : storable (config s) (make_page (config s) v ty v [])).
  { destruct Hs. apply storable_small; try done; unfold fits; lia. }
  pose proof (sb_slot _ _ Hstor _ _ (He 0%nat) Hs3) as Hlen.
  destruct (allocate_mapped s m y s1 Hs Hu ltac:(unfold page_size in Hb; nia) Hs1)
    as (Hst2 & Htk & Hyn & Hph & Hyq & Hown). fold v in Hst2, Hph, Hown.
  pose proof (fresh_virtual s m Hs) as Hfr.
  set (s2 := set_mapper (PageMapper.remap (page_mapper s1) v y) s1) in *.
  destruct Htk as [E1 E2 E3 E4 E5 E6 E7 E8]. simpl in *.
  assert (Hbump : as_u64 (next_virtual s + 1) = next_virtual s + 1) by (apply as_u_id; destruct Hs; unfold fits; lia). rewrite Hbump in E4.
  assert (Hst3 : store (set_header x3.1 s2) m) by (by apply (store_ext s2)).
  assert (Hst4 : store (set_file f (set_header x3.1 s2)) (<[v := make_page (config s) v ty v []]> m)).
  { rewrite Hlen in Hb. eapply (store_add (set_header x3.1 s2) m v _ (nonce e 0) bs f); try done.
    - simpl. rewrite E4. simpl. destruct Hs. lia.
    - change (phys (set_header _ s2) v) with (phys s2 v). rewrite Hph. done.
    - change (phys (set_header _ s2) v) with (phys s2 v). by rewrite Hph.
    - change (phys (set_header _ s2) v) with (phys s2 v). by rewrite Hph.
    - simpl. by rewrite E2.
    - unfold page_size, key. simpl. by rewrite E2.
    - change (phys (set_header _ s2) v) with (phys s2 v). rewrite Hph, Hlen.
      unfold page_size in *. simpl. by rewrite E2.
    - change (phys (set_header _ s2) v) with (phys s2 v). rewrite Hph.
      unfold page_size in *. simpl in *. by rewrite E2, Hc.
    - destruct (st_cache _ _ Hs) as (g & Hg & Hcl). exists g. split_and!.
      + unfold cache_holds in *. simpl. by rewrite E5.
      + intros k q d Hk. destruct (Hcl k q d Hk) as (? & ? & ? & ?). split_and!; try done.
        simpl. rewrite E4. simpl. lia.
      + by apply (cached_fresh s m). }
  assert (Hho : header_ok (config s1) x3.1).
  { rewrite Hx1. apply header_ok_counts; [rewrite E2, E3; apply Hmt|apply (store_counts _ _ Hst2)..]. }
  destruct (write_metadata_meta e 1 x3.1 x3.2 _ _ _ Hst4 He Hho Hs6) as (Hst5 & (f' & ->) & Hd0 & Hd1).
  split_and!; [done|done|done| |by simpl|simpl; by rewrite E4].
  apply (meta_intro (set_file f (set_header x3.1 s2)) _ x3.1); try done.
  - by exists f'.
  - rewrite Hx2 in Hd1. done.
  - destruct (E7 (mt_superblock _ Hmt)). by constructor.
  - intros w p Hw. simpl in *. rewrite E4 in *. simpl in *.
    assert (Hor : w = v /\ p = y \/ PageMapper.mapping (page_mapper s) !! w = Some p).
    { destruct (v =? y); [apply lookup_delete_Some in Hw|apply lookup_insert_Some in Hw]; naive_solver. }
    destruct Hor as [[-> ->]|Hold]; [destruct Hs; lia|].
    destruct (mt_mapping _ Hmt _ _ Hold). lia.
Qed.
(** ** Freeing *)
Definition freed (s : t F) (v : PageId) (f : F) : t F :=
  set_superblock (Superblock.mark_page_freed (superblock s))
    (set_free_list (FreeList.push_page (free_list s) (phys s v))
       (set_mapper (PageMapper.unmap (page_mapper s) v) (set_file f s))).

(** The slot of a live page goes to the free list. *)
Lemma store_free s m v bs f :
  store s m -> is_Some (m !! v) -> zlen bs = page_size s ->
  phys s v * page_size s + zlen bs < 2 ^ 64 ->
  contents f = written (phys s v * page_size s) bs (contents (file s)) ->
  store (freed s v f) (delete v m).
Proof.
  intros Hs [p0 Hv] Hl Hb Hc. pose proof (queue_short _ _ Hs) as Hq. pose proof (zlen_nonneg (queue s)).
  destruct Hs. destruct (st_live0 v p0 Hv) as [V1 V2 V3 V4 V5].
  assert (Htr : forall w, w <> v -> phys (freed s v f) w = phys s w).
  { intros w Hw. unfold phys. simpl. by rewrite PageMapperLaws.translate_unmap, decide_False. }
  constructor; simpl; try done.
  - intros w q [Hne Hw]%lookup_delete_Some. destruct (st_live0 w q Hw).
    constructor; simpl; rewrite ?Htr; try done.
    + rewrite app_assoc. intros [?|Heq%list_elem_of_singleton]%elem_of_app; [done|]. apply Hne. symmetry. by apply st_inj0.
    + apply (decodes_other s (phys s v) bs f (phys s w)); try done; [lia|lia|].
      intros Heq. apply Hne. symmetry. by apply st_inj0.
  - intros w w' [q Hw]%lookup_delete_is_Some [q' Hw']%lookup_delete_is_Some.
    rewrite !Htr by done. by apply st_inj0.
  - destruct st_queue0 as [Hnd Hin]. split.
    + rewrite app_assoc. apply NoDup_app. split_and!; [done| |apply NoDup_singleton]. set_solver.
    + intros x. rewrite app_assoc. intros [Hx|Hx%list_elem_of_singleton]%elem_of_app; [by apply Hin|lia].
  - unfold free_pages in *. simpl. rewrite app_assoc, (zlen_app _ [_]), st_count0, zlen_cons. simpl.
    rewrite as_u_id; [done|]. unfold fits. lia.
  - eapply size_written; [|done|exact Hb|done]. lia.
  - rewrite Htr by lia. done.
  - destruct st_cache0 as (g & Hg & Hcl). exists g. split; [done|].
    intros k q d Hk. destruct (Hcl k q d Hk) as (? & ? & ? & Hq'). split_and!; try done.
    intros q' [_ Hm]%lookup_delete_Some. by apply Hq'.
Qed.

Lemma free_inv s m e v s' :
  store s m -> meta s -> env_ok e -> is_Some (m !! v) -> free_page map_order e v s = (Ok tt, s') ->
  store s' (delete v m) /\ meta s' /\ config s' = config s.
Proof.
  intros Hs Hmt He Hv Hf. unfold free_page in Hf. sinv. unfold id in *. sinv.
  pose proof (page_size_pos (config s)) as Hps.
  destruct Hv as [p0 Hp0]. destruct (st_live _ _ Hs _ _ Hp0) as [V1 V2 V3 V4 V5].
  fold (phys s v) in *. rewrite read_block_ok in Hs3 by (lia || apply Hs). injection Hs3 as <- <-.
  assert (Hstor : storable (config s) (make_page (config s) (phys s v) PageType.Free 0 [])).
  { destruct Hs. apply storable_small; try done; unfold fits; lia. }
  pose proof (sb_slot _ _ Hstor _ _ (He 0%nat) Hs6) as Hlen. destruct x6.
  apply write_block_inv in Hs7 as (f & -> & Hc & Hb); [|unfold page_size; nia].
  apply collect_metadata_inv in Hs11 as (-> & Hx2 & Hx1).
  pose proof (store_free s m v x5 f Hs ltac:(by eexists) Hlen Hb Hc) as Hst1.
  assert (Hst2 : store (set_header x10.1 (freed s v f)) (delete v m)) by (by apply (store_ext (freed s v f))).
  assert (Hho : header_ok (config s) x10.1).
  { rewrite Hx1. apply header_ok_counts; [apply Hmt|apply (store_counts _ _ Hst1)..]. }
  destruct (write_metadata_meta e 1 x10.1 x10.2 _ _ _ Hst2 He Hho Hf) as (Hst5 & (f' & ->) & Hd0 & Hd1).
  split_and!; [done| |done].
  apply (meta_intro (set_header x10.1 (freed s v f)) _ x10.1); try done.
  - by exists f'.
  - by rewrite Hx2 in Hd1.
  - destruct (mt_superblock _ Hmt). constructor; simpl; try done.
    rewrite so_free0, as_u_id; [zlen_tac|]. pose proof (queue_short _ _ Hs). pose proof (zlen_nonneg (queue s)).
    destruct (st_next _ _ Hs). unfold fits. lia.
  - simpl. intros w p [_ Hw]%lookup_delete_Some. by apply (mt_mapping _ Hmt).
Qed.
(** ** Writes, reads and the reserved pages *)
Record frame (s s' : t F) : Prop := {
  fr_config : config s' = config s;
  fr_header : header s' = header s;
  fr_superblock : superblock s' = superblock s;
  fr_free : free_list s' = free_list s;
  fr_mapper : page_mapper s' = page_mapper s }.

Lemma meta_frame s s' :
  frame s s' -> disk s' 0 = disk s 0 -> disk s' 1 = disk s 1 -> meta s -> meta s'.
Proof.
  intros [E1 E2 E3 E4 E5] D0 D1 [M1 M2 M3 M4 M5 M6].
  constructor; unfold superblock_on_disk, key; rewrite ?E1, ?E2, ?E3, ?E4, ?E5, ?D0, ?D1; done.
Qed.

Lemma write_page_frame s m e p s' :
  store s m -> env_ok e -> 0 <= phys s (Page.page_id p) -> storable (config s) p ->
  write_page e p s = (Ok tt, s') ->
  frame s s' /\ decodes s' (phys s (Page.page_id p)) p /\
  forall x, 0 <= x -> x <> phys s (Page.page_id p) -> disk s' x = disk s x.
Proof.
  intros Hs He Hph Hp Hw. destruct (st_cache _ _ Hs) as (f0 & Hf0 & Hcl).
  destruct (write_page_inv e p s s' f0 He Hph Hf0 (store_clean _ _ _ Hcl) Hw)
    as (n & bs & f & c & g & Hn & Hb & -> & Hc & Hlt & Hg & Hk).
  split_and!; [done|by apply (decodes_same s (phys s (Page.page_id p)) bs f p n)|].
  intros x Hx Hne. pose proof (sb_slot _ _ Hp _ _ Hn Hb) as Hl.
  change (disk (set_file f s) x = disk s x).
  by rewrite (disk_written s (phys s (Page.page_id p)) bs f x Hx Hph Hl Hc), decide_False.
Qed.

Lemma write_inv s m e p s' :
  store s m -> meta s -> env_ok e -> is_Some (m !! Page.page_id p) -> storable (config s) p ->
  write_page e p s = (Ok tt, s') ->
  store s' (<[Page.page_id p := p]> m) /\ meta s' /\ config s' = config s.
Proof.
  intros Hs Hmt He Hp Hst Hw. destruct (write_live s m e p s' Hs He Hp Hst Hw) as [Hs' Hc].
  destruct Hp as [q Hq]. destruct (st_live _ _ Hs _ _ Hq).
  destruct (write_page_frame s m e p s' Hs He ltac:(lia) Hst Hw) as (Hf & _ & Hd).
  split_and!; [done| |done]. apply (meta_frame s); [done|apply Hd; lia..|done].
Qed.

Lemma read_inv s m e v p :
  store s m -> meta s -> m !! v = Some p ->
  exists q s', read_page e v s = (Ok q, s') /\ same_page q p /\ store s' m /\ meta s'.
Proof.
  intros Hs Hmt Hv.
  destruct (read_live s m e v p Hs Hv) as (q & s' & Hr & Hq & Hs' & E1 & E2 & E3 & E4 & E5 & E6).
  exists q, s'. split_and!; [done..|]. apply (meta_frame s); [done| | |done];
  unfold disk, page_size; by rewrite E1, E4.
Qed.

(** The superblock changes in fields that no live page depends on, and is
    written to page 1 through the cache. *)
Lemma superblock_step s m e b s' :
  write_superblock map_order e b (set_superblock b s) = (Ok tt, s') ->
  store s m -> meta s -> env_ok e -> superblock_ok (queue s) b ->
  Superblock.next_page_id b = next_page s -> Superblock.total_pages b = total_pages s ->
  store s' m /\ frame (set_superblock b s) s' /\
  ((PageMapper.dirty (page_mapper s) = false -> mapper_saved b (page_mapper s)) -> meta s').
Proof.
  intros Hw Hs Hmt He Hb Hn Ht. unfold write_superblock in Hw. sinv. unfold id in Hw.
  set (s1 := set_superblock b s) in *.
  assert (Hst1 : store s1 m).
  { destruct Hs. constructor; simpl; rewrite ?Hn; try done. 
    - intros v p Hp. destruct (st_live0 v p Hp). constructor; simpl; rewrite ?Hn; done.
    - by rewrite <- st_total0, <- Ht. }
  set (p := make_page _ _ _ _ _) in *.
  assert (Hp : storable (config s1) p).
  { apply storable_small; try done. rewrite zlen_superblock. lia. }
  destruct (write_reserved s1 m e p s' Hst1 He eq_refl Hp Hw) as [Hst2 Hc2].
  assert (Hph : phys s1 1 = 1) by (apply (st_reserved _ _ Hst1)).
  destruct (write_page_frame s1 m e p s' Hst1 He) as (Hf & Hdec & Hd); [|done|done|].
  { change (0 <= phys s1 1). lia. }
  change (Page.page_id p) with 1 in Hdec, Hd. rewrite Hph in Hdec, Hd.
  split_and!; [done|done|]. intros Hsaved. destruct Hf as [E1 E2 E3 E4 E5]. 
  destruct Hmt as [M1 M2 M3 M4 M5 M6].
  constructor; unfold superblock_on_disk; rewrite ?Hd, ?E1, ?E2, ?E3, ?E4, ?E5 by lia;
    subst s1; simpl; rewrite ?Hn; try done.
  intros verify. destruct (Hdec verify) as (q & Hq & _ & _ & Hdat). by exists q.
Qed.
Lemma set_root_inv s m e r s' :
  store s m -> meta s -> env_ok e -> is_u64 r -> set_root_btree_page map_order e r s = (Ok tt, s') ->
  store s' m /\ meta s' /\ config s' = config s /\ root_btree_page s' = r.
Proof.
  intros Hs Hmt He Hr Hw. unfold set_root_btree_page in Hw. sinv. unfold id in Hw.
  destruct (superblock_step s m e _ s' Hw Hs Hmt He) as (Hst & [] & Hm);
    [destruct (mt_superblock _ Hmt); by constructor|done|done|].
  split_and!; [done|apply Hm, Hmt|done|]. unfold root_btree_page. by rewrite fr_superblock0.
Qed.

Lemma set_rows_inv s m e n s' :
  store s m -> meta s -> env_ok e -> is_u64 n -> set_btree_row_count map_order e n s = (Ok tt, s') ->
  store s' m /\ meta s' /\ config s' = config s /\ btree_row_count s' = n.
Proof.
  intros Hs Hmt He Hr Hw. unfold set_btree_row_count in Hw. sinv. unfold id in Hw.
  destruct (superblock_step s m e _ s' Hw Hs Hmt He) as (Hst & [] & Hm);
    [destruct (mt_superblock _ Hmt); by constructor|done|done|].
  split_and!; [done|apply Hm, Hmt|done|]. unfold btree_row_count. by rewrite fr_superblock0.
Qed.

(** ** Flushing, clearing and syncing *)
Variable cache_order : gmap PageId CacheShard.CacheEntry -> list (PageId * CacheShard.CacheEntry).
Hypothesis cache_order_all : forall m, cache_order m ≡ₚ map_to_list m.

Lemma no_dirty_pages s m : store s m -> dirty_pages cache_order s = [].
Proof.
  intros Hs. destruct (st_cache _ _ Hs) as (f & Hf & Hcl). unfold dirty_pages, cache_holds in *.
  destruct (cache s) as [c|]; [|done]. destruct (PageCache.get_dirty_pages _ _) as [|[k p] l] eqn:Hd; [done|].
  assert (Hk : f k = Some (p, true)).
  { apply (holds_dirty cache_order c f cache_order_all Hf). rewrite Hd. by left. }
  by destruct (Hcl _ _ _ Hk).
Qed.

(** Every write reaches the file at once, so there is nothing to flush. *)
Lemma flush_nothing s m e : store s m -> flush_cache cache_order e s = (Ok tt, s).
Proof.
  intros Hs. unfold flush_cache. erewrite sbind_ok by reflexivity. by rewrite (no_dirty_pages s m).
Qed.

Lemma clear_cache_ok s m e : store s m ->
  exists c, clear_cache cache_order e s = (Ok tt, set_cache c s) /\ store (set_cache c s) m.
Proof.
  intros Hs. pose proof (no_dirty_pages s m Hs) as Hd. destruct (st_cache _ _ Hs) as (f & Hf & Hcl).
  unfold clear_cache, on_cache, mbind, stateful_bind. unfold cache_holds, dirty_pages in *.
  destruct (cache s) as [c|] eqn:Hc.
  - destruct (holds_clear cache_order c f Hf) as (l & c' & -> & Hl & Hh). rewrite Hd in Hl. subst l.
    exists (Some c'). split; [done|]. by apply (store_cache s (Some c') (fun _ => None)).
  - exists None. rewrite <- Hc, set_cache_id. done.
Qed.

Lemma persist_inv s m e s' :
  store s m -> meta s -> env_ok e -> persist_page_mapper map_order e s = (Ok tt, s') ->
  store s' m /\ meta s' /\ config s' = config s /\ PageMapper.dirty (page_mapper s') = false /\
  PageMapper.mapping (page_mapper s') = PageMapper.mapping (page_mapper s).
Proof.
  intros Hs Hmt He Hw. unfold persist_page_mapper in Hw. sinv. unfold id in Hw. unfold PageMapper.is_dirty in Hw.
  destruct (PageMapper.dirty (page_mapper s)) eqn:Hd; simpl in Hw; [|by injection Hw as <-].
  sinv. destruct x0. 
  destruct (superblock_step s m e _ s1 Hs1 Hs Hmt He) as (Hst & [E1 E2 E3 E4 E5] & Hm);
    [destruct (mt_superblock _ Hmt); by constructor|done|done|].
  assert (Hm1 : meta s1).
  { apply Hm. intros _. split_and!; try done; destruct (st_next _ _ Hs); simpl; lia. }
  simpl in E5. injection Hw as <-. split_and!; [| |done|done|simpl; by rewrite E5].
  - destruct Hst. constructor; try done. relive st_live0.
  - destruct Hm1 as [M1 M2 M3 M4 M5 M6]. constructor; try done. intros _.
    simpl; rewrite E3, E5. split_and!; try done; destruct (st_next _ _ Hs); simpl; lia.
Qed.

Lemma sync_inv s m e e' s' :
  store s m -> meta s -> env_ok e' -> sync map_order cache_order e e' s = (Ok tt, s') ->
  store s' m /\ meta s' /\ config s' = config s /\ PageMapper.dirty (page_mapper s') = false /\
  PageMapper.mapping (page_mapper s') = PageMapper.mapping (page_mapper s).
Proof.
  intros Hs Hmt He Hw. unfold sync in Hw. rewrite (sbind_ok _ _ _ _ _ (flush_nothing s m e Hs)) in Hw.
  sinv. destruct x. destruct (persist_inv s m e' s0 Hs Hmt He Hs0) as (Hst & Hm1 & E1 & E2 & E3).
  unfold on_file in Hw. destruct (sync_all (file s0)) as [[[]|er|] f] eqn:Hf; try done.
  injection Hw as <-. apply sync_all_ok in Hf as [Hcon _].
  split_and!; [by apply store_set_file| |done..].
  apply (meta_frame s0); [done|unfold disk; simpl; by rewrite Hcon..|done].
Qed.
End Life.
End PagerLife.
