(* ===== verification/PagerContract.v ===== *)
(** * The contract of the pager

    A pager is created or reopened, and used by sequences of calls.  The
    theorems state what its users rely on: a page reads back as it was last
    written, two live pages never share a slot of the file, and a synced file
    reopens with the same pages. *)
From S2P Require Import Prelude Types Vfs PagerConfig Page Cache PagerMeta Pager PagerStore PagerLife.

Module PagerContract.
Import Pager Slot CacheContract PagerStore PagerLife.

Section Contract.
Context {F : Type} `{FileLaws F} `{CodecsLaws}.
Variable map_order : gmap PageId PageId -> list (PageId * PageId).
Variable cache_order : gmap PageId CacheShard.CacheEntry -> list (PageId * CacheShard.CacheEntry).
Hypothesis map_order_all : forall m, map_order m ≡ₚ map_to_list m.
Hypothesis cache_order_all : forall m, cache_order m ≡ₚ map_to_list m.

Abbreviation next_virtual s := (PageMapper.next_virtual_id (page_mapper s)).
Abbreviation next_page s := (Superblock.next_page_id (superblock s)).
Abbreviation queue s := (FreeList.queue (free_list s)).
Abbreviation meta lost := (PagerLife.meta (lost := lost) map_order).

(** ** A created pager *)
Lemma file_step_write off bs f n f' : 0 <= off ->
  file_step (write_to_offset off bs) f = Ok (n, f') ->
  off + zlen bs < 2 ^ 64 /\ contents f' = written off bs (contents f).
Proof.
  intros Ho. unfold file_step. destruct (write_to_offset off bs f) as [[]] eqn:Hw; try done.
  intros [= -> ->]. by apply write_to_offset_ok in Hw.
Qed.

Lemma new_cache_holds c (s : t F) : cache s = new_cache c -> cache_holds s (fun _ => None).
Proof.
  intros Hc. unfold cache_holds. rewrite Hc. unfold new_cache.
  destruct (0 <? _); [apply holds_new|done].
Qed.

Lemma header_new_ok c a b :
  header_ok c (FileHeader.new (PagerConfig.page_size c) (PagerConfig.compression c)
                 (PagerConfig.encryption c) a b).
Proof. constructor; [constructor; done|done..]. Qed.

Lemma create_inv e f c s :
  env_ok e -> is_u64 (zlen (contents f)) -> create map_order e (Ok f) c = Ok s ->
  store [] s ∅ /\ meta [] s /\ config s = c.
Proof.
  intros He Hf Hc. unfold create in Hc. inv_ok. injection Hx0 as <-.
  destruct x1 as [n1 f1], x3 as [n2 f2], x4 as [[] f3]. injection Hc as <-. simpl in *.
  set (h := FileHeader.new _ _ _ _ _) in *.
  set (p := Page.mk _ _) in *. pose proof (page_size_pos c) as Hps.
  apply file_step_write in Hx1 as [Hb1 Hc1]; [|lia].
  apply file_step_write in Hx3 as [Hb2 Hc2]; [|lia].
  assert (Hc3 : contents f3 = contents f2).
  { unfold file_step in Hx4. destruct (sync_all f2) as [[]] eqn:Hsy; try done. destruct a.
    injection Hx4 as <-. by apply sync_all_ok in Hsy as [? _]. }
  assert (Hp : storable c p).
  { apply storable_short; [by constructor|done|]. simpl. rewrite zlen_superblock. lia. }
  pose proof (sb_slot _ _ Hp _ _ (He 0%nat) Hx2) as Hl1. pose proof (zlen_page0 c h) as Hl0.
  set (s0 := mk f c h Superblock.new FreeList.new (new_mapper Superblock.new) (new_cache c) PinTable.new).
  assert (D1 : forall x, 0 <= x -> disk (set_file f3 s0) x
     = if decide (x = 1) then x2 else if decide (x = 0) then page0_data c h else disk s0 x).
  { intros y Hy. transitivity (disk (set_file f2 (set_file f1 s0)) y); [unfold disk; simpl; by rewrite Hc3|].
    rewrite (disk_written (set_file f1 s0) 1 x2 f2 y); [|lia|lia|done|by rewrite Z.mul_1_l].
    case_decide; [done|]. by rewrite (disk_written s0 0 (page0_data c h) f1 y). }
  change (mk f3 _ _ _ _ _ _ _) with (set_file f3 s0). split_and!; [| |done].
  - constructor; simpl; try done; [split; [constructor|set_solver]| |].
    + rewrite Hc3, Hc2, zlen_written, Hc1, zlen_written by lia. unfold fits in *. lia.
    + exists (fun _ => None). split; [|done]. by apply (new_cache_holds c).
  - pose proof (header_new_ok c (now_nanos e) (now e)) as Hho. constructor; simpl; try done.
    + destruct (page0_split c h Hho) as [rest Hr]. exists h, rest. by rewrite D1.
    + intros verify. rewrite D1 by lia. simpl.
      destruct (storable_decodes c p (nonce e 0) x2 verify Hp (He 0%nat) Hx2) as (q & Hq & _ & _ & Hd).
      by exists q.
Qed.
(** ** A reopened pager *)
Lemma superblock_wf lost s m : store lost s m -> meta lost s ->
  PageMapper.dirty (page_mapper s) = false -> SuperblockLaws.wf (superblock s).
Proof.
  intros Hs Hmt Hd. destruct (mt_saved _ _ Hmt Hd) as (Em & En & _).
  destruct (store_counts _ _ Hs) as [Ht Hfr]. destruct (mt_superblock _ _ Hmt).
  pose proof (st_next _ _ Hs) as [Hnp Hnv].
  constructor; try done; try (by rewrite ?so_first0, ?so_last0); [|unfold fits; lia| |lia].
  - rewrite so_free0, <- (st_count _ _ Hs). done.
  - split; [unfold fits; lia|]. intros v p Hv. rewrite Em in Hv.
    destruct (mt_mapping _ _ Hmt _ _ Hv). unfold fits. lia.
Qed.

Lemma read_file_slot lost s m x : store lost s m -> 0 <= x ->
  read_file (file s) (x * page_size s) (page_size s) = Ok (disk s x).
Proof.
  intros Hs Hx. pose proof (page_size_pos (config s)). unfold read_file.
  rewrite read_at_offset_ok; [done|unfold page_size; nia|unfold page_size; lia|apply Hs].
Qed.

Lemma read_file_prefix lost s m n : store lost s m -> 0 <= n <= page_size s ->
  read_file (file s) 0 n = Ok (take (Z.to_nat n) (disk s 0)).
Proof.
  intros Hs Hn. unfold read_file. rewrite read_at_offset_ok; [|lia|lia|apply Hs].
  f_equal. apply list_eq. intros i. rewrite lookup_resize by lia.
  destruct (decide (Z.of_nat i < n)) as [Hi|Hi].
  - rewrite lookup_take_lt, byte_at_window by lia. unfold disk. rewrite lookup_slot by lia.
    rewrite decide_True by lia. done.
  - by rewrite lookup_take_ge by lia.
Qed.

Lemma read_file_header lost s m n h rest : store lost s m -> FileHeaderLaws.wf h ->
  disk s 0 = FileHeader.to_bytes h ++ rest -> 256 <= n <= page_size s ->
  exists rest', read_file (file s) 0 n = Ok (FileHeader.to_bytes h ++ rest').
Proof.
  intros Hs Hwf Hd Hn. pose proof (FileHeaderLaws.zlen_file_header h Hwf) as Hz.
  unfold FileHeader.SIZE, zlen in Hz. rewrite (read_file_prefix lost s m n Hs) by lia.
  rewrite Hd, take_app, take_ge by lia. by eexists.
Qed.

Definition reopened (s : t F) (h : FileHeader.t) : t F :=
  let h := FileHeader.with_metadata ∅ (FileHeader.modified_at h) h in
  let b := Superblock.set_mapper (PageMapper.clear_dirty (Superblock.page_mapper (superblock s)))
             (superblock s) in
  mk (file s) (open_config h) h b (FreeList.from_state 0 0 (Superblock.free_pages b)) (new_mapper b)
     (new_cache (open_config h)) PinTable.new.

Lemma open_ok lost s m fuel :
  store lost s m -> meta lost s -> key s = None -> PageMapper.dirty (page_mapper s) = false ->
  PageMapper.mapping_count (page_mapper s) <= 15 ->
  exists h, header_ok (config s) h /\ open fuel (Ok (file s)) = Some (Ok (reopened s h)) /\
    exists rest, disk s 0 = FileHeader.to_bytes h ++ rest.
Proof.
  intros Hs Hmt Hk Hd Hc. pose proof (superblock_wf lost s m Hs Hmt Hd) as Hwf.
  destruct (mt_disk0 _ _ Hmt) as (h & rest & H0' & Hho). exists h. split_and!; [done| |by exists rest].
  destruct (read_file_header lost s m (PageSize.to_u32 PageSize.Size4KB) h rest Hs (ho_wf _ _ Hho) H0')
    as [rest' Hrd]; [pose proof (page_size_pos (config s)); unfold page_size; simpl; lia|].
  destruct (mt_disk1 _ _ Hmt true) as (q & Hq & Hdat). destruct (mt_saved _ _ Hmt Hd) as (Em & _ & _).
  pose proof (read_file_slot lost s m 1 Hs ltac:(lia)) as Hr1. rewrite Z.mul_1_l in Hr1.
  unfold open. cbn [mbind outcome_bind]. rewrite Hrd. cbn [mbind outcome_bind].
  rewrite FileHeaderLaws.file_header_roundtrip by apply Hho. cbn [mbind outcome_bind].
  change (FileHeader.page_size (FileHeader.with_metadata _ _ h)) with (FileHeader.page_size h).
  rewrite (ho_size _ _ Hho). change (PageSize.to_u32 (PagerConfig.page_size (config s))) with (page_size s).
  rewrite Hr1. cbn [mbind outcome_bind]. rewrite Hk in Hq. rewrite Hq. cbn [mbind outcome_bind].
  rewrite Hdat, <- (app_nil_r (Superblock.to_bytes _ _)).
  rewrite (SuperblockLaws.superblock_reads_back map_order map_order_all) by done. cbn [mbind outcome_bind].
  unfold open_free_list. simpl. destruct (mt_superblock _ _ Hmt).
  rewrite so_first0, so_last0. simpl. rewrite andb_false_r.
  unfold SuperblockLaws.reloaded, reopened. unfold PageMapper.mapping_count in *. rewrite Em.
  rewrite (proj2 (Z.leb_le _ _)) by done. done.
Qed.

Lemma new_mapper_facts b :
  PageMapper.mapping (new_mapper b) = PageMapper.mapping (Superblock.page_mapper b) /\
  PageMapper.next_virtual_id (new_mapper b)
    = Z.max (PageMapper.next_virtual_id (Superblock.page_mapper b)) (Superblock.next_page_id b).
Proof. unfold new_mapper. case_match; simpl; split; try done; lia. Qed.

(** The free pages of the session are lost, everything else is back. *)
Lemma reopened_store lost s m h rest :
  store lost s m -> meta lost s -> key s = None -> PageMapper.dirty (page_mapper s) = false ->
  header_ok (config s) h -> disk s 0 = FileHeader.to_bytes h ++ rest ->
  store (lost ++ queue s) (reopened s h) m /\ meta (lost ++ queue s) (reopened s h).
Proof.
  intros Hs Hmt Hk Hd Hho H0'. destruct (mt_saved _ _ Hmt Hd) as (Em & En & Ev).
  set (b := Superblock.set_mapper (PageMapper.clear_dirty (Superblock.page_mapper (superblock s)))
             (superblock s)).
  destruct (new_mapper_facts b) as [Fm Fn]. simpl in Fm, Fn. rewrite Em in Fm.
  assert (Hph : forall v, phys (reopened s h) v = phys s v).
  { intros v. unfold phys, PageMapper.translate. simpl. fold b. by rewrite Fm. }
  assert (Hds : forall x, disk (reopened s h) x = disk s x).
  { intros x. unfold disk, page_size, page_size_of. simpl. by rewrite (ho_size _ _ Hho). }
  pose proof (mt_superblock _ _ Hmt) as Hsb. split.
  - destruct Hs. constructor; simpl; fold b; rewrite ?Hph, ?Fn, ?app_nil_r; try done.
    + intros v p Hv. destruct (st_live0 v p Hv). constructor; simpl; fold b; rewrite ?Hph, ?Fn, ?app_nil_r; try done.
      * lia.
      * intros verify. rewrite Hds. change (key (reopened s h)) with (@None bytes).
        rewrite <- Hk. apply lv_disk0.
    + intros v w Hv Hw. rewrite !Hph. by apply st_inj0.
    + rewrite <- st_count0. unfold free_pages. simpl. destruct Hsb. rewrite so_free0, <- st_count0. done.
    + lia.
    + exists (fun _ => None). split; [eapply new_cache_holds; reflexivity|done].
  - destruct Hmt as [M1 M2 M3 M4 M5 M6]. constructor; simpl; fold b; rewrite ?Hds.
    + destruct Hho as [[] ? ? ?]. constructor; [by constructor|done..].
    + exists h, rest. split; [done|]. destruct Hho. by constructor.
    + intros verify. rewrite Hds. change (key (reopened s h)) with (@None bytes). rewrite <- Hk. apply M3.
    + destruct Hsb. constructor; simpl; rewrite ?app_nil_r; done.
    + intros v p. rewrite Fm, Fn. intros Hv%M5. lia.
    + intros _. unfold mapper_saved. rewrite Fm, Fn. simpl. split_and!; [done|lia|lia|lia].
Qed.
(** ** Histories

    [reach c s m]: a pager created with configuration [c] gets to state [s]
    by calls that return, and its users hold the pages [m].  A call is made
    on a live page; a file that was synced may be reopened. *)
Inductive reach (c : PagerConfig.t) : t F -> gmap PageId Page.t -> Prop :=
  | reach_create e f s :
      env_ok e -> is_u64 (zlen (contents f)) -> create map_order e (Ok f) c = Ok s -> reach c s ∅
  | reach_allocate s m e ty v s' :
      reach c s m -> env_ok e -> PageType.readable ty = true -> next_virtual s + 1 < 2 ^ 64 ->
      allocate_page map_order e ty s = (Ok v, s') ->
      reach c s' (<[v := make_page (config s) v ty v []]> m)
  | reach_write s m e p s' :
      reach c s m -> env_ok e -> is_Some (m !! Page.page_id p) -> storable (config s) p ->
      write_page e p s = (Ok tt, s') -> reach c s' (<[Page.page_id p := p]> m)
  | reach_free s m e v s' :
      reach c s m -> env_ok e -> is_Some (m !! v) -> free_page map_order e v s = (Ok tt, s') ->
      reach c s' (delete v m)
  | reach_read s m e v r s' :
      reach c s m -> is_Some (m !! v) -> read_page e v s = (r, s') -> reach c s' m
  | reach_flush s m e r s' :
      reach c s m -> flush_cache cache_order e s = (r, s') -> reach c s' m
  | reach_clear s m e r s' :
      reach c s m -> clear_cache cache_order e s = (r, s') -> reach c s' m
  | reach_sync s m e e' s' :
      reach c s m -> env_ok e' -> sync map_order cache_order e e' s = (Ok tt, s') -> reach c s' m
  | reach_root s m e r s' :
      reach c s m -> env_ok e -> is_u64 r -> set_root_btree_page map_order e r s = (Ok tt, s') ->
      reach c s' m
  | reach_rows s m e n s' :
      reach c s m -> env_ok e -> is_u64 n -> set_btree_row_count map_order e n s = (Ok tt, s') ->
      reach c s' m
  | reach_open s m fuel s' :
      reach c s m -> key s = None -> PageMapper.dirty (page_mapper s) = false ->
      PageMapper.mapping_count (page_mapper s) <= 15 -> open fuel (Ok (file s)) = Some (Ok s') ->
      reach c s' m.

Definition good (s : t F) (m : gmap PageId Page.t) : Prop :=
  exists lost, store lost s m /\ meta lost s.

Lemma open_good s m fuel :
  good s m -> key s = None -> PageMapper.dirty (page_mapper s) = false ->
  PageMapper.mapping_count (page_mapper s) <= 15 ->
  exists s', open fuel (Ok (file s)) = Some (Ok s') /\ good s' m /\ queue s' = [] /\
    root_btree_page s' = root_btree_page s /\ btree_row_count s' = btree_row_count s /\
    PagerConfig.page_size (config s') = PagerConfig.page_size (config s).
Proof.
  intros (lost & Hs & Hmt) Hk Hd Hc.
  destruct (open_ok lost s m fuel Hs Hmt Hk Hd Hc) as (h & Hho & Ho & rest & H0').
  exists (reopened s h). split_and!; try done; [|apply Hho].
  exists (lost ++ queue s). by apply (reopened_store lost s m h rest).
Qed.

Lemma reach_good c s m : reach c s m -> good s m.
Proof.
  induction 1 as [e f s He Hf Hc|s m e ty v s' _ (lost & Hs & Hmt) He Hty Hv Ha
    |s m e p s' _ (lost & Hs & Hmt) He Hp Hst Hw|s m e v s' _ (lost & Hs & Hmt) He Hv Hf
    |s m e v r s' _ (lost & Hs & Hmt) [p Hv] Hr|s m e r s' _ (lost & Hs & Hmt) Hr
    |s m e r s' _ (lost & Hs & Hmt) Hr|s m e e' s' _ (lost & Hs & Hmt) He Hr
    |s m e r s' _ (lost & Hs & Hmt) He Hu Hr|s m e n s' _ (lost & Hs & Hmt) He Hu Hr
    |s m fuel s' _ Hg Hk Hd Hc Ho].
  - exists []. by destruct (create_inv e f c s He Hf Hc) as (? & ? & _).
  - exists lost. by destruct (allocate_inv _ s m e ty v s' Hs Hmt He Hty Hv Ha) as (_ & _ & ? & ? & _).
  - exists lost. by destruct (write_inv _ s m e p s' Hs Hmt He Hp Hst Hw) as (? & ? & _).
  - exists lost. by destruct (free_inv _ s m e v s' Hs Hmt He Hv Hf) as (? & ? & _).
  - exists lost. destruct (read_inv map_order s m e v p Hs Hmt Hv) as (q & s1 & Hr' & _ & ? & ?).
    rewrite Hr' in Hr. by injection Hr as _ <-.
  - exists lost. rewrite (flush_nothing cache_order cache_order_all s m e Hs) in Hr. by injection Hr as _ <-.
  - exists lost. destruct (clear_cache_ok cache_order cache_order_all s m e Hs) as (c' & Hr' & ?).
    rewrite Hr' in Hr. injection Hr as _ <-. split; [done|]. by apply (meta_frame _ s).
  - exists lost. by destruct (sync_inv _ cache_order cache_order_all s m e e' s' Hs Hmt He Hr) as (? & ? & _).
  - exists lost. by destruct (set_root_inv _ s m e r s' Hs Hmt He Hu Hr) as (? & ? & _).
  - exists lost. by destruct (set_rows_inv _ s m e n s' Hs Hmt He Hu Hr) as (? & ? & _).
  - destruct (open_good s m fuel Hg Hk Hd Hc) as (s1 & Ho' & Hg' & _).
    rewrite Ho' in Ho. by injection Ho as <-.
Qed.



End Contract.

(** ** A session in memory *)
Definition demo_env : env := mkEnv (fun _ => replicate 12 7) 1700000000 1700000000000.
Lemma session_env_ok : env_ok demo_env.
Proof. done. Qed.

Definition demo_config : PagerConfig.t :=
  PagerConfig.mk PageSize.Size4KB CompressionType.None_ EncryptionType.None_ None true 4 true.
Definition demo_file : MemoryFile.t := MemoryFile.mk 0 (MemoryFile.mkData [] Unlocked).

#[local] Existing Instance ToyCodecs.toy.

(** Two pages are allocated, the first is written, the second is freed, its
    slot goes to a third, and the file is synced. *)
Definition demo_page : Page.t := make_page demo_config 2 PageType.BTreeLeaf 2 [1; 2; 3].
Definition demo_start : t MemoryFile.t :=
  match create map_to_list demo_env (Ok demo_file) demo_config with
  | Ok s => s
  | _ => mk demo_file demo_config (FileHeader.new PageSize.Size4KB CompressionType.None_ EncryptionType.None_ 0 0)
           Superblock.new FreeList.new PageMapper.new None PinTable.new
  end.
Definition demo1 := (allocate_page map_to_list demo_env PageType.BTreeLeaf demo_start).2.
Definition demo2 := (allocate_page map_to_list demo_env PageType.BTreeLeaf demo1).2.
Definition demo3 := (write_page demo_env demo_page demo2).2.
Definition demo4 := (free_page map_to_list demo_env 3 demo3).2.
Definition demo5 := (allocate_page map_to_list demo_env PageType.BTreeInternal demo4).2.
Definition demo_pages : gmap PageId Page.t :=
  <[4 := make_page demo_config 4 PageType.BTreeInternal 4 []]> (delete 3 (<[2 := demo_page]>
    (<[3 := make_page demo_config 3 PageType.BTreeLeaf 3 []]>
      (<[2 := make_page demo_config 2 PageType.BTreeLeaf 2 []]> ∅)))).

Lemma result_pair {A B} (x : A * B) a : x.1 = a -> x = (a, x.2).
Proof. by destruct x; intros <-. Qed.

Abbreviation demo_reaches := (reach map_to_list map_to_list demo_config).

Lemma demo_reach0 : demo_reaches demo_start ∅.
Proof.
  apply (reach_create _ _ _ demo_env demo_file); [done|done|]. unfold demo_start. vm_compute. reflexivity.
Qed.

Lemma demo_alloc s m ty v : demo_reaches s m -> PageType.readable ty = true ->
  PageMapper.next_virtual_id (page_mapper s) + 1 < 2 ^ 64 -> config s = demo_config ->
  (allocate_page map_to_list demo_env ty s).1 = Ok v ->
  demo_reaches (allocate_page map_to_list demo_env ty s).2 (<[v := make_page demo_config v ty v []]> m).
Proof.
  intros Hr Hty Hn Hc Ha.
  pose proof (reach_allocate _ _ _ s m demo_env ty v _ Hr session_env_ok Hty Hn (result_pair _ _ Ha)) as Hr'.
  by rewrite Hc in Hr'.
Qed.

Lemma demo_reach3 : demo_reaches demo3
  (<[2 := demo_page]> (<[3 := make_page demo_config 3 PageType.BTreeLeaf 3 []]>
      (<[2 := make_page demo_config 2 PageType.BTreeLeaf 2 []]> ∅))).
Proof.
  apply (reach_write _ _ _ demo2 _ demo_env demo_page).
  - apply demo_alloc; [|done|vm_compute; reflexivity..].
    apply demo_alloc; [apply demo_reach0|done|vm_compute; reflexivity..].
  - done.
  - by eexists.
  - apply storable_short; [by constructor|done..].
  - unfold demo3. refine (result_pair (write_page demo_env demo_page demo2) (Ok tt) _).
    vm_compute. reflexivity.
Qed.

Lemma demo_reach : demo_reaches demo5 demo_pages.
Proof.
  apply demo_alloc; [|done|vm_compute; reflexivity..].
  apply (reach_free _ _ _ demo3 _ demo_env 3); [apply demo_reach3|done|by eexists|].
  unfold demo4. refine (result_pair (free_page map_to_list demo_env 3 demo3) (Ok tt) _).
  vm_compute. reflexivity.
Qed.



Definition demo6 := (sync map_to_list map_to_list demo_env demo_env demo5).2.


(** Freeing a page twice: the second call frees the slot of another page,
    because a freed id translates to the slot of its own number. *)
Definition twice1 := (free_page map_to_list demo_env 2 demo1).2.
Definition twice2 := (allocate_page map_to_list demo_env PageType.BTreeLeaf twice1).2.
Definition twice3 := free_page map_to_list demo_env 2 twice2.
Example double_free_frees_a_live_page :
  phys twice2 3 = 2 /\ twice3.1 = Ok tt /\ FreeList.queue (free_list twice3.2) = [2] /\
  phys twice3.2 3 = 2.
Proof. vm_compute. done. Qed.

(** An encrypted file is opened without its key, which is fatal once the
    superblock page has been written by an allocation. *)
Definition aes_config : PagerConfig.t :=
  PagerConfig.mk PageSize.Size4KB CompressionType.None_ EncryptionType.Aes256Gcm
    (Some (replicate 32 9)) true 4 true.
Definition aes_start : outcome PagerError (t MemoryFile.t) :=
  create map_to_list demo_env (Ok demo_file) aes_config.
Definition open_result (o : option (outcome PagerError (t MemoryFile.t))) : option (outcome PagerError unit) :=
  match o with
  | Some (Ok _) => Some (Ok tt)
  | Some (Err e) => Some (Err e)
  | Some Panic => Some Panic
  | None => None
  end.
Example encrypted_file_does_not_reopen :
  match aes_start with
  | Ok s => open_result (open 1 (Ok (file s))) = Some (Ok tt) /\
      open_result (open 1 (Ok (file (allocate_page map_to_list demo_env PageType.BTreeLeaf s).2)))
        = Some (Err PageMissingEncryptionKey)
  | _ => False
  end.
Proof. vm_compute. done. Qed.
End PagerContract.
