(* ===== verification/Overflow.v ===== *)
(** * Overflow chains and compaction ([src/pager/pagefile.rs],
    [src/pager/overflow_stream.rs])

    A value too big for its page is cut into chunks, one per overflow page;
    each page starts with a header that names the next page in 32 bits.  The
    CRC-32 of [crc32fast] is the parameter [crc32].  A call that makes
    several pager calls draws the environment [es i] for its [i]-th. *)
From stdpp Require Import sorting.
From S2P Require Import Prelude Types Vfs PagerConfig Page Cache PagerMeta Pager.

Module Overflow.
Import Pager.

Section Ops.
Context {F : Type} `{FileOps F} `{Codecs}.
Variable map_order : gmap PageId PageId -> list (PageId * PageId).
Variable crc32 : bytes -> Z.

Abbreviation M := (stateful (t F) PagerError).

Definition write_overflow_page (e : env) (page_id : PageId) (data : bytes) (next : option PageId)
    : M unit :=
  let header := OverflowPageHeader.new (from_option as_u32 0 next) (as_u32 (zlen data)) (crc32 data) in
  s ← gets id;
  write_page e (make_page (config s) page_id PageType.Overflow 0
                  (OverflowPageHeader.to_bytes header ++ data)).

Definition link_overflow_pages (e e' : env) (from_page_id to_page_id : PageId) : M unit :=
  page ← read_page e from_page_id;
  h ← lift (OverflowPageHeader.from_bytes (Page.data page));
  data ← lift (slice OverflowPageHeader.SIZE (zlen (Page.data page)) (Page.data page));
  s ← gets id;
  write_page e' (make_page (config s) from_page_id PageType.Overflow 0
    (OverflowPageHeader.to_bytes
       (OverflowPageHeader.mk (OverflowPageHeader.magic h) (as_u32 to_page_id)
          (OverflowPageHeader.data_length h) (OverflowPageHeader.checksum h)) ++ data)).

Definition page_data_size (c : PagerConfig.t) : Z :=
  PageSize.data_size (PagerConfig.page_size c) - OverflowPageHeader.SIZE.
Definition div_ceil (a b : Z) : Z := (a + b - 1) / b.

Fixpoint allocate_pages (es : nat -> env) (i n : nat) : M (list PageId) :=
  match n with
  | O => mret []
  | S n =>
      page_id ← allocate_page map_order (es i) PageType.Overflow;
      rest ← allocate_pages es (S i) n;
      mret (page_id :: rest)
  end.

(** The loop that writes chunk [i] and those behind it to [page_ids]. *)
Fixpoint write_chunks (es : nat -> env) (size : Z) (data : bytes) (i : nat) (page_ids : list PageId)
    : M unit :=
  match page_ids with
  | [] => mret tt
  | page_id :: rest =>
      chunk ← lift (slice (Z.of_nat i * size) (Z.min ((Z.of_nat i + 1) * size) (zlen data)) data);
      _ ← write_overflow_page (es i) page_id chunk (head rest);
      write_chunks es size data (S i) rest
  end.

(** The allocations draw from [es], the writes from [es']. *)
Definition allocate_overflow_chain (es es' : nat -> env) (data : bytes) : M (list PageId) :=
  if zlen data =? 0 then mret []
  else
    s ← gets id;
    let size := page_data_size (config s) in
    page_ids ← allocate_pages es 0 (Z.to_nat (div_ceil (zlen data) size));
    _ ← write_chunks es' size data 0 page_ids;
    mret page_ids.

(** An overflow page is read and checked: its data and the next page. *)
Definition expect_overflow (page : Page.t) : outcome PagerError unit :=
  ensure (bool_decide (Page.page_type page = PageType.Overflow))
    (PagerInternalError "Expected overflow page").
Definition next_of (h : OverflowPageHeader.t) : option PageId :=
  if OverflowPageHeader.is_last h then None else Some (OverflowPageHeader.next_page_id h).

Definition load_overflow_page (e : env) (page_id : PageId) : M (bytes * option PageId) :=
  page ← read_page e page_id;
  _ ← lift (expect_overflow page);
  h ← lift (OverflowPageHeader.from_bytes (Page.data page));
  let data_start := OverflowPageHeader.SIZE in
  let data_end := data_start + OverflowPageHeader.data_length h in
  _ ← lift (ensure (data_end <=? zlen (Page.data page))
              (PagerInternalError "Overflow page data length exceeds page size"));
  data ← lift (slice data_start data_end (Page.data page));
  _ ← lift (ensure (crc32 data =? OverflowPageHeader.checksum h)
              (PagerInternalError "Overflow page checksum mismatch"));
  mret (data, next_of h).

(** The loops over a chain; [None] is running out of [fuel], the pages of
    the chain: a chain that comes back to a page is followed for ever. *)
Fixpoint read_loop (es : nat -> env) (fuel i : nat) (result : bytes) (current : PageId)
    : M (option bytes) :=
  match fuel with
  | O => mret None
  | S fuel =>
      x ← load_overflow_page (es i) current;
      match x.2 with
      | None => mret (Some (result ++ x.1))
      | Some next => read_loop es fuel (S i) (result ++ x.1) next
      end
  end.
Definition read_overflow_chain (es : nat -> env) (fuel : nat) (first_page_id : PageId) : M (option bytes) :=
  read_loop es fuel 0 [] first_page_id.

(** The reads draw from [es], the frees from [es']. *)
Fixpoint free_loop (es es' : nat -> env) (fuel i : nat) (current : PageId) : M (option unit) :=
  match fuel with
  | O => mret None
  | S fuel =>
      page ← read_page (es i) current;
      _ ← lift (expect_overflow page);
      h ← lift (OverflowPageHeader.from_bytes (Page.data page));
      let next := next_of h in
      _ ← free_page map_order (es' i) current;
      match next with
      | Some next_id => free_loop es es' fuel (S i) next_id
      | None => mret (Some tt)
      end
  end.
Definition free_overflow_chain (es es' : nat -> env) (fuel : nat) (first_page_id : PageId)
    : M (option unit) :=
  free_loop es es' fuel 0 first_page_id.

(** The number of pages freed. *)
Definition free_value_ref (es es' : nat -> env) (fuel : nat) (v : ValueRef.t) : M (option Z) :=
  match v with
  | ValueRef.Inline => mret (Some 0)
  | ValueRef.SinglePage page_id _ _ => _ ← free_page map_order (es' 0%nat) page_id; mret (Some 1)
  | ValueRef.OverflowChain first_page_id _ page_count =>
      r ← free_overflow_chain es es' fuel first_page_id;
      mret (match r with Some _ => Some page_count | None => None end)
  end.

(** Every reference is tried; the first error is the result. *)
Fixpoint free_all (es es' : nat -> nat -> env) (fuel k : nat) (l : list ValueRef.t) (total : Z)
    (error : option PagerError) : M (option Z) := fun s =>
  match l with
  | [] => match error with Some e => (Err e, s) | None => (Ok (Some total), s) end
  | v :: l =>
      match free_value_ref (es k) (es' k) fuel v s with
      | (Ok (Some n), s') => free_all es es' fuel (S k) l (total + n) error s'
      | (Ok None, s') => (Ok None, s')
      | (Err e, s') =>
          free_all es es' fuel (S k) l total (match error with Some e0 => Some e0 | None => Some e end) s'
      | (Panic, s') => (Panic, s')
      end
  end.
Definition free_value_refs (es es' : nat -> nat -> env) (fuel : nat) (l : list ValueRef.t) : M (option Z) :=
  free_all es es' fuel 0 l 0 None.
End Ops.
End Overflow.

(** ** Reading a chain through a buffer *)
Module OverflowChainStream.
Import Pager Overflow.

Record t : Type := mk {
  current_page_id : option PageId; total_length : Z; position : Z; buffer : bytes; buffer_pos : Z }.

Definition new (first_page_id : PageId) (total_length : Z) : t :=
  mk (Some first_page_id) total_length 0 [] 0.
Definition size_hint (st : t) : option Z := Some (total_length st).

Section Ops.
Context {F : Type} `{FileOps F} `{Codecs}.
Variable crc32 : bytes -> Z.

(** The stream and the pager behind it; [read] wraps the pager's errors in
    [TableError::Pager]. *)
Abbreviation SM := (stateful (t * Pager.t F) PagerError).

Definition load_next_page (e : env) : SM unit := fun '(st, s) =>
  match current_page_id st with
  | None => (Ok tt, (st, s))
  | Some page_id =>
      match load_overflow_page crc32 e page_id s with
      | (Ok (data, next), s') => (Ok tt, (mk next (total_length st) (position st) data 0, s'))
      | (Err x, s') => (Err x, (st, s'))
      | (Panic, s') => (Panic, (st, s'))
      end
  end.

(** The loop of [read]: [want] bytes of the caller's buffer are still free.
    Every round that does not leave the loop copies a byte, so [fuel] never
    ends it when it is at least [want]. *)
Fixpoint read_rounds (es : nat -> env) (fuel i : nat) (want : Z) : SM bytes :=
  match fuel with
  | O => mret []
  | S fuel =>
      x ← gets id;
      let st := x.1 in
      if (0 <? want) && (position st <? total_length st) then
        if (zlen (buffer st) <=? buffer_pos st) && bool_decide (current_page_id st = None) then mret []
        else
          _ ← (if zlen (buffer st) <=? buffer_pos st then load_next_page (es i) else mret tt);
          x ← gets id;
          let st := x.1 in
          if zlen (buffer st) =? 0 then mret []
          else
            let to_copy := Z.min (Z.min want (zlen (buffer st) - buffer_pos st))
                             (total_length st - position st) in
            bytes ← lift (slice (buffer_pos st) (buffer_pos st + to_copy) (buffer st));
            _ ← modify (fun x => (mk (current_page_id st) (total_length st) (position st + to_copy)
                                     (buffer st) (buffer_pos st + to_copy), x.2));
            rest ← read_rounds es fuel (S i) (want - to_copy);
            mret (bytes ++ rest)
      else mret []
  end.

(** [read] into a buffer of [n] bytes: the bytes copied. *)
Definition read (es : nat -> env) (n : Z) : SM bytes :=
  x ← gets id;
  if total_length x.1 <=? position x.1 then mret [] else read_rounds es (Z.to_nat n) 0 n.
End Ops.
End OverflowChainStream.

(** ** Compaction *)
Module Vacuum.
Import Pager.

Record VacuumPagerStats : Type := mkStats {
  pages_moved : Z; pages_truncated : Z; bytes_reclaimed : Z;
  file_size_before : Z; file_size_after : Z }.
Definition stats_new (file_size_before : Z) : VacuumPagerStats :=
  mkStats 0 0 0 file_size_before file_size_before.
Definition calculate_reclaimed (st : VacuumPagerStats) : VacuumPagerStats :=
  mkStats (pages_moved st) (pages_truncated st)
    (if file_size_after st <? file_size_before st then file_size_before st - file_size_after st
     else bytes_reclaimed st)
    (file_size_before st) (file_size_after st).

Section Ops.
Context {F : Type} `{FileOps F} `{Codecs}.
Variable map_order : gmap PageId PageId -> list (PageId * PageId).

Abbreviation M := (stateful (t F) PagerError).

Definition is_free (p : Page.t) : bool :=
  bool_decide (Page.page_type p = PageType.Free) || bool_decide (Page.page_type p = PageType.FreeList).

(** Pages [2 .. n + 1], from the last down. *)
Fixpoint scan_down (es : nat -> env) (n : nat) : M (option PageId) :=
  match n with
  | O => mret None
  | S n' =>
      let page_id := Z.of_nat n' + 2 in
      page ← read_page (es n) page_id;
      if negb (is_free page) then mret (Some page_id) else scan_down es n'
  end.
Definition find_highest_used_page (es : nat -> env) : M (option PageId) :=
  s ← gets id; scan_down es (Z.to_nat (total_pages s - 2)).

Definition set_page_id (p : Page.t) (id : PageId) : Page.t :=
  let h := Page.header p in
  Page.mk (PageHeader.mk id (PageHeader.page_type h) (PageHeader.compression h)
             (PageHeader.encryption h) (PageHeader.flags h) (PageHeader.uncompressed_size h)
             (PageHeader.compressed_size h) (PageHeader.virtual_page_id h)) (Page.data p).

Definition move_page (e e' : env) (from_page_id to_page_id : PageId) : M unit :=
  _ ← lift (ensure (negb (from_page_id =? to_page_id)) (PagerInternalError "Cannot move page to itself"));
  _ ← lift (ensure (negb ((from_page_id =? 0) || (from_page_id =? 1))) (InvalidPageId from_page_id));
  _ ← lift (ensure (negb ((to_page_id =? 0) || (to_page_id =? 1))) (InvalidPageId to_page_id));
  s ← gets id;
  let virtual_pages :=
    PageMapper.find_virtual_pages_for_physical map_order (page_mapper s) from_page_id in
  page ← read_page e from_page_id;
  _ ← write_page_to_disk e' 0 (set_page_id page to_page_id);
  _ ← modify (fun s =>
        set_mapper (foldl (fun m v => PageMapper.remap m v to_page_id) (page_mapper s) virtual_pages) s);
  write_page_to_disk e' 1 (make_page (config s) from_page_id PageType.Free 0 []).

(** The loop over the pages [base .. base + n - 1], from the last down, with
    the free pages that are left: the number of pages moved. *)
Fixpoint move_down (es es' : nat -> env) (base : Z) (n : nat) (free : list PageId) (moved : Z) : M Z :=
  match n with
  | O => mret moved
  | S n' =>
      let from_page_id := base + Z.of_nat n' in
      page ← read_page (es n) from_page_id;
      if is_free page then move_down es es' base n' free moved
      else
        match free with
        | to_page_id :: free =>
            _ ← move_page (es' (2 * n)%nat) (es' (2 * n + 1)%nat) from_page_id to_page_id;
            move_down es es' base n' free (moved + 1)
        | [] => mret moved
        end
  end.

Definition truncate_file (new_size : Z) : M unit :=
  _ ← on_file (set_size new_size); on_file sync_all.

Definition set_total_pages (n : Z) (b : Superblock.t) : Superblock.t :=
  Superblock.mk (Superblock.magic b) (Superblock.version b) n
    (Superblock.free_pages b) (Superblock.first_free_list_page b)
    (Superblock.last_free_list_page b) (Superblock.next_page_id b)
    (Superblock.transaction_counter b) (Superblock.last_checkpoint_lsn b)
    (Superblock.root_btree_page b) (Superblock.btree_row_count b) (Superblock.page_mapper_page b)
    (Superblock.page_mapper b).

(** [old_total - new_total] does not underflow: the highest used page is a
    page of the file. *)
Definition compact_and_truncate (e : env) (es es' es'' : nat -> env) : M VacuumPagerStats :=
  s ← gets id;
  size ← lift (match get_size (file s) with
               | Ok n => Ok n | Err x => Err (PagerVfsError x) | Panic => Panic end);
  highest ← find_highest_used_page es;
  match highest with
  | None => mret (stats_new size)
  | Some highest_used =>
      s ← gets id;
      let '(all_free_pages, l) := FreeList.snapshot_free_pages (free_list s) in
      _ ← modify (set_free_list l);
      let free_pages := merge_sort Z.le (filter (fun p => 2 <= p < highest_used) all_free_pages) in
      moved ← move_down es' es'' (highest_used + 1) (Z.to_nat (total_pages s - (highest_used + 1)))
                free_pages 0;
      let new_total_pages := highest_used + 1 in
      let new_file_size := new_total_pages * page_size s in
      _ ← truncate_file new_file_size;
      s ← gets id;
      let old_total := total_pages s in
      let b := set_total_pages new_total_pages (superblock s) in
      _ ← modify (set_superblock b);
      _ ← write_superblock map_order e b;
      mret (calculate_reclaimed
              (mkStats moved (old_total - new_total_pages) 0 size new_file_size))
  end.
End Ops.
End Vacuum.
