(* ===== verification/OverflowLaws.v ===== *)
(** * Overflow chains over the pager's contract

    A chain reads back as the value it was made from, by [read_overflow_chain]
    and by a stream with buffers of any size; making it leaves every other
    page alone, and freeing it gives back its pages and no other. *)
From S2P Require Import Prelude Types Vfs PagerConfig Page Cache PagerMeta Pager PagerStore PagerLife PagerContract Overflow.

Module OverflowLaws.
Import Pager PagerStore PagerLife PagerContract Overflow.

Section Laws.
Context {F : Type} `{FileLaws F} `{CodecsLaws}.
Variable map_order : gmap PageId PageId -> list (PageId * PageId).
Variable cache_order : gmap PageId CacheShard.CacheEntry -> list (PageId * CacheShard.CacheEntry).
Variable crc32 : bytes -> Z.
Hypothesis map_order_all : forall m, map_order m ≡ₚ map_to_list m.
Hypothesis cache_order_all : forall m, cache_order m ≡ₚ map_to_list m.
Hypothesis crc32_range : forall bs, is_u32 (crc32 bs).

Abbreviation next_virtual s := (PageMapper.next_virtual_id (page_mapper s)).
Abbreviation reach := (PagerContract.reach (F := F) map_order cache_order).
Abbreviation good := (PagerContract.good (F := F) map_order).

(** ** Chains in the store *)
Definition next_id (ids : list PageId) : Z := default 0 (head ids).

Definition overflow_page (p : Page.t) (next : Z) (chunk : bytes) : Prop :=
  Page.page_type p = PageType.Overflow /\
  Page.data p
    = OverflowPageHeader.to_bytes (OverflowPageHeader.new next (zlen chunk) (crc32 chunk)) ++ chunk.

(** The pages [ids] hold [chunks], each linked to the one behind it. *)
Fixpoint linked (m : gmap PageId Page.t) (ids : list PageId) (chunks : list bytes) : Prop :=
  match ids, chunks with
  | [], [] => True
  | id :: ids, chunk :: chunks =>
      (exists p, m !! id = Some p /\ overflow_page p (next_id ids) chunk) /\
      0 < id < 2 ^ 32 /\ zlen chunk < 2 ^ 32 /\ linked m ids chunks
  | _, _ => False
  end.

Lemma linked_next m ids chunks : linked m ids chunks -> is_u32 (next_id ids).
Proof. destruct ids, chunks; simpl; try done. unfold next_id, fits. simpl. intros (_ & ? & _). lia. Qed.

Lemma linked_ext m m' ids chunks :
  (forall i, i ∈ ids -> m' !! i = m !! i) -> linked m ids chunks -> linked m' ids chunks.
Proof.
  revert chunks. induction ids as [|i ids IH]; intros [|ch chunks] Hm; simpl; try done.
  rewrite Hm by set_solver. intros (? & ? & ? & Hl). repeat (split; [done|]). apply IH; [set_solver|done].
Qed.

(** The header of an overflow page reads back. *)
Lemma header_back next len crc rest :
  is_u32 next -> is_u32 len -> is_u32 crc ->
  OverflowPageHeader.from_bytes (OverflowPageHeader.to_bytes (OverflowPageHeader.new next len crc) ++ rest)
    = Ok (OverflowPageHeader.new next len crc).
Proof.
  intros Hn Hl Hc. unfold OverflowPageHeader.from_bytes, OverflowPageHeader.to_bytes, OverflowPageHeader.SIZE.
  simpl. rewrite <- !app_assoc. assert (is_u32 OverflowPageHeader.MAGIC) by done. by read_back.
Qed.

Lemma zlen_overflow_header h : zlen (OverflowPageHeader.to_bytes h) = 32.
Proof.
  unfold OverflowPageHeader.to_bytes. rewrite !zlen_app. change (zlen (replicate 16 0)) with 16. zlen_tac.
Qed.
(** ** Reading *)
Lemma load_ok s m e id p next chunk :
  good s m -> m !! id = Some p -> overflow_page p next chunk -> is_u32 next -> zlen chunk < 2 ^ 32 ->
  exists s', load_overflow_page crc32 e id s
      = (Ok (chunk, if next =? 0 then None else Some next), s') /\ good s' m.
Proof.
  intros (lost & Hs & Hm) Hp [Hty Hd] Hn Hl.
  destruct (read_inv map_order s m e id p Hs Hm Hp) as (q & s' & Hr & (_ & Hty' & Hd') & Hs' & Hm').
  rewrite Hty in Hty'. rewrite Hd in Hd'. exists s'. split; [|by exists lost].
  unfold load_overflow_page. erewrite sbind_ok by exact Hr.
  erewrite sbind_ok by (unfold expect_overflow; by rewrite bool_decide_eq_true_2).
  pose proof (zlen_nonneg chunk). pose proof (zlen_overflow_header
    (OverflowPageHeader.new next (zlen chunk) (crc32 chunk))) as Hz.
  erewrite sbind_ok by (rewrite Hd', header_back; [done|done|unfold fits; lia|apply crc32_range]).
  simpl. rewrite Hd'. unfold OverflowPageHeader.SIZE.
  erewrite sbind_ok by (unfold lift; rewrite ensure_true; [done|]; rewrite zlen_app, Hz; lia).
  erewrite sbind_ok by (unfold lift; rewrite slice_app_r, Hz, slice_full by (rewrite ?Hz; lia); done).
  erewrite sbind_ok by (unfold lift; rewrite ensure_true; [done|]; lia). done.
Qed.

Lemma read_loop_ok ids : forall chunks s m es fuel i acc,
  good s m -> ids <> [] -> linked m ids chunks -> (length ids <= fuel)%nat ->
  exists s', read_loop crc32 es fuel i acc (next_id ids) s = (Ok (Some (acc ++ mjoin chunks)), s') /\
    good s' m.
Proof.
  induction ids as [|id ids IH]; intros [|ch chunks] s m es fuel i acc Hg Hne Hl Hf; try done.
  destruct Hl as ((p & Hp & Hov) & Hid & Hch & Hl). destruct fuel as [|fuel]; [simpl in Hf; lia|].
  pose proof (linked_next _ _ _ Hl) as Hnx.
  destruct (load_ok s m (es i) id p (next_id ids) ch Hg Hp Hov Hnx Hch) as (s1 & Hload & Hg1).
  simpl. change (next_id (id :: ids)) with id. erewrite sbind_ok by exact Hload. simpl.
  destruct ids as [|id2 ids], chunks as [|ch2 chunks]; try done.
  - simpl. exists s1. by rewrite app_nil_r.
  - destruct (Z.eqb_spec (next_id (id2 :: ids)) 0) as [Heq|_].
    { destruct Hl as (_ & Hid2 & _). unfold next_id in Heq. simpl in Heq. lia. }
    destruct (IH (ch2 :: chunks) s1 m es fuel (S i) (acc ++ ch) Hg1) as (s' & Hr & Hg'); [done|done|simpl in *; lia|].
    exists s'. split; [|done]. rewrite Hr. simpl. by rewrite <- app_assoc.
Qed.
(** ** Writing *)
Definition plain (c : PagerConfig.t) : Prop :=
  PagerConfig.compression c = CompressionType.None_ /\ PagerConfig.encryption c = EncryptionType.None_.

Fixpoint chunks_of (size : Z) (data : bytes) (n : nat) : list bytes :=
  match n with
  | O => []
  | S n => take (Z.to_nat size) data :: chunks_of size (drop (Z.to_nat size) data) n
  end.

Lemma join_chunks size n : forall data, 0 <= size -> zlen data <= Z.of_nat n * size ->
  mjoin (chunks_of size data n) = data.
Proof.
  induction n as [|n IH]; intros data Hs Hl; simpl.
  - destruct data; [done|]. rewrite zlen_cons in Hl. pose proof (zlen_nonneg data). lia.
  - rewrite IH; [apply take_drop|done|]. unfold zlen in *. rewrite length_drop. nia.
Qed.

Lemma chunks_filled size n : forall data, 0 < size -> (Z.of_nat n - 1) * size < zlen data ->
  Forall (fun chunk => chunk <> []) (chunks_of size data n).
Proof.
  induction n as [|n IH]; intros data Hs Hl; simpl; constructor.
  - intros Hnil%(f_equal length). rewrite length_take in Hnil. unfold zlen in Hl. simpl in Hnil. nia.
  - apply IH; [done|]. unfold zlen in *. rewrite length_drop. nia.
Qed.

Lemma page_data_size_bounds c : 4000 <= page_data_size c /\ 96 + page_data_size c = page_size_of c.
Proof.
  unfold page_data_size, PageSize.data_size, PageSize.header_size, PageSize.checksum_size,
    OverflowPageHeader.SIZE, page_size_of.
  pose proof (page_size_pos c). unfold page_size_of in *. lia.
Qed.

(** The page [write_overflow_page] writes. *)
Definition chunk_page (c : PagerConfig.t) (id : PageId) (next : Z) (chunk : bytes) : Page.t :=
  make_page c id PageType.Overflow 0
    (OverflowPageHeader.to_bytes (OverflowPageHeader.new next (zlen chunk) (crc32 chunk)) ++ chunk).

Lemma chunk_page_storable c id next chunk :
  plain c -> is_u64 id -> zlen chunk <= page_data_size c -> storable c (chunk_page c id next chunk).
Proof.
  intros [Hc He] Hid Hl. destruct (page_data_size_bounds c) as [_ Hb].
  apply storable_raw; [by constructor|done|done|done|].
  simpl. rewrite zlen_app, zlen_overflow_header. lia.
Qed.

Lemma write_overflow_page_inv c s m e id chunk next s' :
  reach c s m -> env_ok e -> plain (config s) -> is_Some (m !! id) -> is_u32 id ->
  zlen chunk <= page_data_size (config s) -> is_u32 (default 0 next) ->
  write_overflow_page crc32 e id chunk next s = (Ok tt, s') ->
  reach c s' (<[id := chunk_page (config s) id (default 0 next) chunk]> m) /\ config s' = config s.
Proof.
  intros Hr He Hpl Hid Hu Hl Hn Hw. unfold write_overflow_page in Hw. sinv. unfold Datatypes.id in Hw.
  pose proof (zlen_nonneg chunk) as H0'. pose proof (page_size_pos (config s)) as Hps.
  destruct (page_data_size_bounds (config s)) as [_ Hb].
  assert (Hz : as_u32 (zlen chunk) = zlen chunk) by (apply as_u_id; unfold fits; lia).
  assert (Hnx : from_option as_u32 0 next = default 0 next).
  { destruct next as [j|]; [|done]. by apply as_u_id. }
  rewrite Hz, Hnx in Hw. fold (chunk_page (config s) id (default 0 next) chunk) in Hw.
  assert (Hst : storable (config s) (chunk_page (config s) id (default 0 next) chunk)).
  { apply chunk_page_storable; [done|unfold fits in *; lia|done]. }
  set (p := chunk_page _ _ _ _) in *.
  split; [by apply (reach_write _ _ c s m e p s' Hr He Hid Hst Hw)|].
  destruct (reach_good map_order cache_order map_order_all cache_order_all c s m Hr) as (lost & Hs & Hm).
  by destruct (write_inv map_order s m e p s' Hs Hm He Hid Hst Hw) as (_ & _ & ?).
Qed.

Lemma slice_chunk size (data : bytes) i chunk : 0 <= size ->
  slice (E := PagerError) (i * size) (Z.min ((i + 1) * size) (zlen data)) data = Ok chunk ->
  chunk = take (Z.to_nat size) (drop (Z.to_nat (i * size)) data) /\ zlen chunk <= size.
Proof.
  intros Hs. unfold slice. case_match eqn:Hc; [|done]. intros [= <-]. unfold zlen in *.
  split; [|rewrite length_take; lia].
  destruct (Z.min_spec ((i + 1) * size) (Z.of_nat (length data))) as [[Hm ->]|[Hm ->]].
  - f_equal. lia.
  - rewrite !take_ge; [done|..]; rewrite length_drop; lia.
Qed.

Lemma head_next ids : default 0 (head ids) = next_id ids.
Proof. done. Qed.

Lemma write_chunks_inv c es data ids : (forall i, env_ok (es i)) -> forall s m i s',
  reach c s m -> plain (config s) -> NoDup ids ->
  Forall (fun id => is_Some (m !! id) /\ 0 < id < 2 ^ 32) ids ->
  let size := page_data_size (config s) in
  write_chunks crc32 es size data i ids s = (Ok tt, s') ->
  exists m', reach c s' m' /\
    linked m' ids (chunks_of size (drop (Z.to_nat (Z.of_nat i * size)) data) (length ids)) /\
    (forall k, k ∉ ids -> m' !! k = m !! k) /\ (forall k, is_Some (m' !! k) <-> is_Some (m !! k)).
Proof.
  intros He. induction ids as [|id ids IH]; intros s m i s' Hr Hpl Hnd Hin size Hw; simpl in Hw.
  { injection Hw as <-. by exists m. }
  apply NoDup_cons in Hnd as [Hid Hnd]. apply Forall_cons in Hin as [[Hsome Hlt] Hin].
  destruct (page_data_size_bounds (config s)) as [Hsz Hb]. pose proof (page_size_pos (config s)) as Hps.
  sinv. apply slice_chunk in Hs as [-> Hl]; [|subst size; lia]. destruct x0.
  set (chunk := take _ _) in *. assert (Hl2 : zlen chunk < 2 ^ 32) by (subst size; lia).
  assert (Hnx : is_u32 (default 0 (head ids))).
  { destruct ids; simpl; [done|]. apply Forall_cons in Hin as [[_ ?] _]. unfold fits. lia. }
  destruct (write_overflow_page_inv c s m (es i) id chunk (head ids) s1 Hr (He i) Hpl Hsome) as [Hr1 Hc1];
    [unfold fits; lia|done|done|done|].
  set (m1 := <[id := _]> m) in *. subst size. rewrite <- Hc1 in Hw.
  destruct (IH s1 m1 (S i) s' Hr1) as (m' & Hr' & Hlk & Hout & Hdom); [by rewrite Hc1|done| |done|].
  { eapply Forall_impl; [exact Hin|]. intros j [Hj ?]. split; [|done]. subst m1.
    rewrite lookup_insert_is_Some. destruct (decide (id = j)); auto. }
  rewrite Hc1 in Hlk. exists m'. split_and!; [done| | |].
  - cbn [linked chunks_of length]. split; [|split; [done|split; [exact Hl2|]]].
    + exists (chunk_page (config s) id (next_id ids) chunk). rewrite Hout by done.
      subst m1. by rewrite lookup_insert_eq.
    + rewrite drop_drop. replace (Z.to_nat (Z.of_nat i * _) + _)%nat
        with (Z.to_nat (Z.of_nat (S i) * page_data_size (config s))) by lia. done.
  - intros k [Hk1 Hk2]%not_elem_of_cons. rewrite Hout by done. subst m1. by rewrite lookup_insert_ne.
  - intros k. rewrite Hdom. subst m1. rewrite lookup_insert_is_Some.
    destruct (decide (id = k)) as [->|]; naive_solver.
Qed.
(** ** Allocation *)
Record allocated (s : t F) (m m' : gmap PageId Page.t) (n : nat) (ids : list PageId) : Prop := {
  al_sub : m ⊆ m';
  al_nodup : NoDup ids;
  al_length : length ids = n;
  al_ids : Forall (fun id => m !! id = None /\ is_Some (m' !! id) /\
             next_virtual s <= id < 2 ^ 32) ids;
  al_only : forall k, is_Some (m' !! k) -> is_Some (m !! k) \/ k ∈ ids }.

Lemma allocate_pages_inv c es n : (forall i, env_ok (es i)) -> forall s m i ids s',
  reach c s m -> next_virtual s + Z.of_nat n <= 2 ^ 32 ->
  allocate_pages map_order es i n s = (Ok ids, s') ->
  exists m', reach c s' m' /\ config s' = config s /\ allocated s m m' n ids.
Proof.
  intros He. induction n as [|n IH]; intros s m i ids s' Hr Hb Ha; simpl in Ha.
  { injection Ha as <- <-. exists m. split_and!; [done|done|]. constructor; [done|constructor|done|constructor|by left]. }
  sinv. injection Ha as <- <-. rename x into v, s0 into s1, s1 into s'.
  destruct (reach_good map_order cache_order map_order_all cache_order_all c s m Hr) as (lost & Hs' & Hm).
  destruct (allocate_inv map_order s m (es i) PageType.Overflow v s1 Hs' Hm (He i) eq_refl) as
    (-> & Hv & _ & _ & Hc & Hnv); [lia|done|].
  assert (Hr1 := reach_allocate map_order cache_order c s m (es i) PageType.Overflow _ s1 Hr (He i) eq_refl
    ltac:(lia) Hs). set (m1 := <[next_virtual s := _]> m) in *.
  destruct (IH s1 m1 (S i) x0 s' Hr1) as (m' & Hr' & Hc' & [A1 A2 A3 A4 A5]); [lia|done|].
  exists m'. split_and!; [done|by rewrite Hc'|].
  assert (Hm1 : m1 ⊆ m' /\ m ⊆ m1).
  { split; [done|]. subst m1. by apply insert_subseteq. }
  constructor.
  - etrans; apply Hm1.
  - apply NoDup_cons. split; [|done]. intros Hin. rewrite Forall_forall in A4.
    destruct (A4 _ Hin) as (_ & _ & ?). lia.
  - simpl. by rewrite A3.
  - constructor.
    + split_and!; [done| |lia|]. 
      * eapply lookup_weaken_is_Some; [|apply Hm1]. subst m1. rewrite lookup_insert_eq. by eexists.
      * lia.
    + eapply Forall_impl; [exact A4|]. intros k (Hk1 & Hk2 & Hk3).
      apply lookup_insert_None in Hk1 as [Hk1 _]. split_and!; [done|done|lia|lia].
  - intros k [Hk|Hk]%A5; [|right; by right]. subst m1. rewrite lookup_insert_is_Some in Hk.
    destruct Hk as [<-|[_ ?]]; [right; by left|by left].
Qed.

(** What [allocate_overflow_chain] leaves behind. *)
Lemma allocate_chain_inv c s m es es' data ids s' :
  reach c s m -> (forall i, env_ok (es i)) -> (forall i, env_ok (es' i)) -> plain (config s) ->
  data <> [] -> next_virtual s + div_ceil (zlen data) (page_data_size (config s)) <= 2 ^ 32 ->
  allocate_overflow_chain map_order crc32 es es' data s = (Ok ids, s') ->
  exists m' chunks, reach c s' m' /\ linked m' ids chunks /\ mjoin chunks = data /\
    Forall (fun chunk => chunk <> []) chunks /\ NoDup ids /\ ids <> [] /\
    m ⊆ m' /\ (forall k, is_Some (m' !! k) <-> is_Some (m !! k) \/ k ∈ ids) /\
    (forall k, k ∈ ids -> m !! k = None).
Proof.
  intros Hr He He' Hpl Hne Hb Ha. unfold allocate_overflow_chain in Ha.
  assert (Hz : 0 < zlen data) by (destruct data; [done|]; rewrite zlen_cons; pose proof (zlen_nonneg data); lia).
  rewrite (proj2 (Z.eqb_neq _ _)) in Ha by lia. sinv. injection Ha as <- <-. unfold id in *. destruct x1.
  destruct (page_data_size_bounds (config s)) as [Hsz _].
  set (size := page_data_size (config s)) in *. set (n := div_ceil (zlen data) size) in *.
  assert (Hn : zlen data <= n * size /\ 0 < n /\ (n - 1) * size < zlen data).
  { subst n. unfold div_ceil. Z.div_mod_to_equations. nia. }
  destruct (allocate_pages_inv c es (Z.to_nat n) He s m 0 x0 s1 Hr ltac:(lia) Hs0) as (m1 & Hr1 & Hc1 & [A1 A2 A3 A4 A5]).
  rewrite Forall_forall in A4. subst size. rewrite <- Hc1 in Hs1.
  destruct (write_chunks_inv c es' data x0 He' s1 m1 0 s2 Hr1) as (m' & Hr' & Hlk & Hout & Hdom);
    [by rewrite Hc1|done| |done|].
  { apply Forall_forall. intros k Hk. destruct (A4 k Hk) as (_ & ? & ?).
    destruct (reach_good map_order cache_order map_order_all cache_order_all c s m Hr) as (lost & Hst & _).
    destruct (st_next _ _ Hst). split; [done|]. lia. }
  eexists m', _. split_and!; [done|exact Hlk| | |done| | | |].
  - rewrite A3, Hc1. simpl. apply join_chunks; [lia|]. lia.
  - rewrite A3, Hc1. apply chunks_filled; [lia|]. rewrite Z2Nat.id by lia. by apply Hn.
  - intros ->. simpl in A3. lia.
  - apply map_subseteq_spec. intros k p Hk. rewrite Hout; [by eapply lookup_weaken|].
    intros Hin. destruct (A4 k Hin) as (? & _). congruence.
  - intros k. rewrite Hdom. split; [apply A5|]. intros [Hk|Hk]; [by eapply lookup_weaken_is_Some|by apply A4].
  - intros k Hk. by apply A4.
Qed.

(** ** Freeing *)
Definition without (m : gmap PageId Page.t) (ids : list PageId) : gmap PageId Page.t :=
  foldl (fun m id => delete id m) m ids.

Lemma lookup_without ids : forall m k,
  without m ids !! k = if decide (k ∈ ids) then None else m !! k.
Proof.
  induction ids as [|id ids IH]; intros m k; [done|]. simpl. rewrite IH.
  destruct (decide (k = id)) as [->|Hne].
  - rewrite lookup_delete_eq. repeat case_decide; set_solver.
  - rewrite lookup_delete_ne by done. repeat case_decide; set_solver.
Qed.

Lemma free_loop_inv c es es' ids : (forall i, env_ok (es' i)) -> forall chunks s m fuel i r s',
  reach c s m -> ids <> [] -> linked m ids chunks -> NoDup ids -> (length ids <= fuel)%nat ->
  free_loop map_order es es' fuel i (next_id ids) s = (Ok r, s') ->
  r = Some tt /\ reach c s' (without m ids).
Proof.
  intros He. induction ids as [|id ids IH]; intros [|ch chunks] s m fuel i r s' Hr Hne Hl Hnd Hf Hrun; try done.
  destruct Hl as ((p & Hp & Hty & Hd) & Hid & Hch & Hl). apply NoDup_cons in Hnd as [Hnin Hnd].
  destruct fuel as [|fuel]; [simpl in Hf; lia|]. cbn [free_loop] in Hrun. change (next_id (id :: ids)) with id in Hrun.
  destruct (reach_good map_order cache_order map_order_all cache_order_all c s m Hr) as (lost & Hs & Hm).
  destruct (read_inv map_order s m (es i) id p Hs Hm Hp) as (q & s1 & Hread & (_ & Hty' & Hd') & _ & _).
  rewrite (sbind_ok _ _ _ _ _ Hread) in Hrun. rewrite Hty in Hty'. rewrite Hd in Hd'.
  pose proof (zlen_nonneg ch). pose proof (linked_next _ _ _ Hl) as Hnx.
  rewrite (sbind_ok _ _ s1 tt s1) in Hrun by (unfold expect_overflow; by rewrite bool_decide_eq_true_2).
  erewrite sbind_ok in Hrun by (rewrite Hd', header_back; [done|done|unfold fits; lia|apply crc32_range]).
  sinv. destruct x.
  assert (Hr1 : reach c s1 m) by (apply (reach_read _ _ c s m (es i) id (Ok q) s1 Hr); [by exists p|done]).
  assert (Hr2 : reach c s0 (delete id m)) by (by apply (reach_free _ _ c s1 m (es' i) id s0 Hr1 (He i)); [exists p|]).
  unfold next_of, OverflowPageHeader.is_last in Hrun. simpl in Hrun.
  destruct ids as [|id2 ids], chunks as [|ch2 chunks]; try done.
  - simpl in Hrun. by injection Hrun as <- <-.
  - destruct (Z.eqb_spec (next_id (id2 :: ids)) 0) as [Heq|_].
    { destruct Hl as (_ & Hid2 & _). unfold next_id in Heq. simpl in Heq. lia. }
    apply (IH (ch2 :: chunks) s0 (delete id m) fuel (S i) r s' Hr2); try done; [|simpl in *; lia].
    eapply linked_ext; [|exact Hl]. intros j Hj. rewrite lookup_delete_ne; [done|]. by intros ->.
Qed.

(** ** Streams *)
Import OverflowChainStream.

(** A stream over the store [m] with [rest] still to come. *)
Record streams (m : gmap PageId Page.t) (st : OverflowChainStream.t) (rest : bytes) : Prop := {
  str_pos : 0 <= buffer_pos st <= zlen (buffer st);
  str_left : total_length st - position st = zlen rest;
  str_chain : exists ids chunks, linked m ids chunks /\ Forall (fun chunk => chunk <> []) chunks /\
    current_page_id st = head ids /\ rest = drop (Z.to_nat (buffer_pos st)) (buffer st) ++ mjoin chunks }.

(** A refill when the buffer is used up and bytes are left. *)
Lemma load_next s m st rest e :
  good s m -> streams m st rest -> zlen (buffer st) <= buffer_pos st -> rest <> [] ->
  exists st' s', load_next_page crc32 e (st, s) = (Ok tt, (st', s')) /\ good s' m /\ streams m st' rest /\
    buffer_pos st' < zlen (buffer st') /\ current_page_id st <> None.
Proof.
  intros Hg [Hp Hleft (ids & chunks & Hl & Hfull & Hcur & Hrest)] Hend Hne. unfold load_next_page. rewrite Hcur.
  rewrite drop_ge in Hrest by (unfold zlen in *; lia). simpl in Hrest.
  destruct ids as [|id ids], chunks as [|ch chunks]; try done.
  destruct Hl as ((p & Hp' & Hov) & Hid & Hch & Hl). apply Forall_cons in Hfull as [Hch0 Hfull].
  destruct (load_ok s m e id p (next_id ids) ch Hg Hp' Hov (linked_next _ _ _ Hl) Hch) as (s1 & Hload & Hg1).
  simpl. rewrite Hload. eexists _, s1. split_and!; [done|done| | |done].
  - constructor; simpl; [pose proof (zlen_nonneg ch); lia|done|].
    exists ids, chunks. split_and!; [done|done| |done].
    destruct ids as [|id2 ids]; [done|]. destruct chunks as [|ch2 chunks]; [done|].
    destruct Hl as (_ & Hid2 & _). unfold next_id. simpl. rewrite (proj2 (Z.eqb_neq _ _)) by lia. done.
  - simpl. destruct ch; [done|]. rewrite zlen_cons. pose proof (zlen_nonneg ch). lia.
Qed.
(** One copy out of a buffer with bytes left. *)
Lemma copy_step m st rest want :
  streams m st rest -> buffer_pos st < zlen (buffer st) -> 0 < want -> position st < total_length st ->
  let to_copy := Z.min (Z.min want (zlen (buffer st) - buffer_pos st)) (total_length st - position st) in
  0 < to_copy <= want /\
  slice (E := PagerError) (buffer_pos st) (buffer_pos st + to_copy) (buffer st)
    = Ok (take (Z.to_nat to_copy) rest) /\
  streams m (mk (current_page_id st) (total_length st) (position st + to_copy) (buffer st)
               (buffer_pos st + to_copy)) (drop (Z.to_nat to_copy) rest).
Proof.
  intros [Hp Hleft (ids & chunks & Hl & Hfull & Hcur & Hrest)] Hb Hw Hpos to_copy.
  assert (Htc : 0 < to_copy <= want /\ to_copy <= zlen (buffer st) - buffer_pos st /\ to_copy <= zlen rest)
    by (subst to_copy; lia). clearbody to_copy.
  assert (Hlen : zlen (drop (Z.to_nat (buffer_pos st)) (buffer st)) = zlen (buffer st) - buffer_pos st)
    by (unfold zlen in *; rewrite length_drop; lia).
  split_and!; [lia|lia| |].
  - unfold slice. replace (_ && _) with true by lia. f_equal. rewrite Hrest, take_app_le by (unfold zlen in *; lia).
    f_equal. lia.
  - constructor; simpl; [lia|unfold zlen in *; rewrite length_drop; lia|].
    exists ids, chunks. split_and!; [done|done|done|].
    rewrite Hrest, drop_app_le by (unfold zlen in *; lia). rewrite drop_drop. do 2 f_equal. lia.
Qed.

Lemma read_rounds_ok m es fuel : forall i want st s rest,
  good s m -> streams m st rest -> 0 <= want <= Z.of_nat fuel ->
  exists st' s', read_rounds crc32 es fuel i want (st, s) = (Ok (take (Z.to_nat want) rest), (st', s')) /\
    good s' m /\ streams m st' (drop (Z.to_nat want) rest).
Proof.
  induction fuel as [|fuel IH]; intros i want st s rest Hg Hst Hw.
  { replace want with 0 by lia. simpl. rewrite drop_0. by exists st, s. }
  cbn [read_rounds]. erewrite sbind_ok by reflexivity. simpl.
  pose proof (str_left _ _ _ Hst) as Hleft. pose proof (zlen_nonneg rest) as Hz.
  destruct (Z.ltb_spec 0 want) as [Hw0|Hw0]; simpl.
  2: { replace want with 0 by lia. simpl. rewrite drop_0. by exists st, s. }
  destruct (Z.ltb_spec (position st) (total_length st)) as [Hpos|Hpos].
  2: { assert (rest = []) as -> by (destruct rest; [done|rewrite zlen_cons in *; pose proof (zlen_nonneg rest); lia]).
       rewrite take_nil, drop_nil. by exists st, s. }
  assert (Hne : rest <> []) by (intros ->; rewrite zlen_nil in Hleft; lia).
  assert (Hload : exists st1 s1,
    (if zlen (buffer st) <=? buffer_pos st then load_next_page crc32 (es i) else mret tt) (st, s)
      = (Ok tt, (st1, s1)) /\ good s1 m /\ streams m st1 rest /\ buffer_pos st1 < zlen (buffer st1) /\
    (zlen (buffer st) <=? buffer_pos st) && bool_decide (current_page_id st = None) = false).
  { destruct (Z.leb_spec (zlen (buffer st)) (buffer_pos st)) as [Hend|Hin].
    - destruct (load_next s m st rest (es i) Hg Hst Hend Hne) as (st1 & s1 & Hl & Hg1 & Hs1 & Hb1 & Hc).
      exists st1, s1. split_and!; try done. simpl. by apply bool_decide_eq_false.
    - exists st, s. done. }
  destruct Hload as (st1 & s1 & Hl & Hg1 & Hst1 & Hb1 & ->).
  erewrite sbind_ok by exact Hl. erewrite sbind_ok by reflexivity. simpl.
  pose proof (str_pos _ _ _ Hst1) as Hp1. pose proof (str_left _ _ _ Hst1) as Hleft1.
  rewrite (proj2 (Z.eqb_neq _ _)) by lia.
  destruct (copy_step m st1 rest want Hst1 Hb1 Hw0 ltac:(lia)) as (Htc & Hsl & Hst2).
  set (tc := Z.min _ _) in *.
  erewrite sbind_ok by (unfold lift; by rewrite Hsl). erewrite sbind_ok by reflexivity.
  destruct (IH (S i) (want - tc) _ s1 _ Hg1 Hst2 ltac:(lia)) as (st' & s' & Hrd & Hg' & Hst').
  erewrite sbind_ok by exact Hrd. exists st', s'.
  replace (Z.to_nat want) with (Z.to_nat tc + Z.to_nat (want - tc))%nat by lia.
  rewrite <- take_take_drop. rewrite drop_drop in Hst'. by split_and!.
Qed.

Lemma stream_new m ids chunks first :
  linked m ids chunks -> Forall (fun chunk => chunk <> []) chunks -> head ids = Some first ->
  streams m (OverflowChainStream.new first (zlen (mjoin chunks))) (mjoin chunks).
Proof.
  intros Hl Hf Hh. constructor; simpl; [done|lia|].
  exists ids, chunks. split_and!; [done|done|by rewrite Hh|done].
Qed.

(** Successive reads with buffers of the given sizes. *)
Fixpoint read_many (es : nat -> nat -> env) (k : nat) (sizes : list Z)
    : stateful (OverflowChainStream.t * Pager.t F) PagerError (list bytes) :=
  match sizes with
  | [] => mret []
  | n :: sizes => b ← OverflowChainStream.read crc32 (es k) n; rest ← read_many es (S k) sizes; mret (b :: rest)
  end.

(** What the reads must return: the data cut at the sizes. *)
Fixpoint cut (data : bytes) (sizes : list Z) : list bytes :=
  match sizes with
  | [] => []
  | n :: sizes => take (Z.to_nat n) data :: cut (drop (Z.to_nat n) data) sizes
  end.

Lemma stream_read_ok m es st s rest n :
  good s m -> streams m st rest -> 0 <= n ->
  exists st' s', OverflowChainStream.read crc32 es n (st, s) = (Ok (take (Z.to_nat n) rest), (st', s')) /\
    good s' m /\ streams m st' (drop (Z.to_nat n) rest).
Proof.
  intros Hg Hst Hn. unfold OverflowChainStream.read. erewrite sbind_ok by reflexivity. simpl.
  pose proof (str_left _ _ _ Hst) as Hleft. 
  destruct (Z.leb_spec (total_length st) (position st)) as [Hle|Hlt].
  - assert (rest = []) as -> by (destruct rest; [done|rewrite zlen_cons in *; pose proof (zlen_nonneg rest); lia]).
    rewrite take_nil, drop_nil. by exists st, s.
  - apply read_rounds_ok; [done|done|lia].
Qed.

Lemma read_many_ok m es sizes : forall k st s rest,
  good s m -> streams m st rest -> Forall (fun n => 0 <= n) sizes ->
  exists x, read_many es k sizes (st, s) = (Ok (cut rest sizes), x).
Proof.
  induction sizes as [|n sizes IH]; intros k st s rest Hg Hst Hf; [by eexists|].
  apply Forall_cons in Hf as [Hn Hf]. simpl.
  destruct (stream_read_ok m (es k) st s rest n Hg Hst Hn) as (st1 & s1 & Hr & Hg1 & Hst1).
  erewrite sbind_ok by exact Hr. destruct (IH (S k) st1 s1 _ Hg1 Hst1 Hf) as (x & Hx).
  erewrite sbind_ok by exact Hx. by eexists.
Qed.

(** A stream over an overflow chain hands out the value in order, cut
    at the sizes of the buffers it is read with, whatever those are, with
    empty results once the value is used up. *)
Theorem overflow_stream_reads c s m es es' es'' data ids first s' sizes
    (Hr : reach c s m) (He : forall i, env_ok (es i)) (He' : forall i, env_ok (es' i))
    (Hpl : plain (config s)) (Hne : data <> [])
    (Hb : next_virtual s + div_ceil (zlen data) (page_data_size (config s)) <= 2 ^ 32)
    (Ha : allocate_overflow_chain map_order crc32 es es' data s = (Ok ids, s'))
    (Hfirst : head ids = Some first) (Hsizes : Forall (fun n => 0 <= n) sizes) :
  exists x, read_many es'' 0 sizes (OverflowChainStream.new first (zlen data), s')
    = (Ok (cut data sizes), x).
Proof.
  destruct (allocate_chain_inv c s m es es' data ids s' Hr He He' Hpl Hne Hb Ha)
    as (m' & chunks & Hr' & Hlk & <- & Hfull & _).
  pose proof (reach_good map_order cache_order map_order_all cache_order_all c s' m' Hr') as Hg.
  eapply read_many_ok; [exact Hg|by apply (stream_new m' ids)|done].
Qed.

(** Freeing the chain of a value gives back exactly the pages it took:
    the pager is in a state where the pages that were live before the chain
    was made are live, unchanged, and no others. *)
Theorem overflow_chain_freed c s m es es' data ids first s1 es2 es3 fuel r s2
    (Hr : reach c s m) (He : forall i, env_ok (es i)) (He' : forall i, env_ok (es' i))
    (He3 : forall i, env_ok (es3 i)) (Hpl : plain (config s)) (Hne : data <> [])
    (Hb : next_virtual s + div_ceil (zlen data) (page_data_size (config s)) <= 2 ^ 32)
    (Ha : allocate_overflow_chain map_order crc32 es es' data s = (Ok ids, s1))
    (Hfirst : head ids = Some first) (Hf : (length ids <= fuel)%nat)
    (Hfree : free_overflow_chain map_order es2 es3 fuel first s1 = (Ok r, s2)) :
  r = Some tt /\ reach c s2 m.
Proof.
  destruct (allocate_chain_inv c s m es es' data ids s1 Hr He He' Hpl Hne Hb Ha)
    as (m' & chunks & Hr' & Hlk & _ & _ & Hnd & Hids & Hsub & Hdom & Hnew).
  assert (Hnext : next_id ids = first) by (unfold next_id; by rewrite Hfirst).
  unfold free_overflow_chain in Hfree. rewrite <- Hnext in Hfree.
  destruct (free_loop_inv c es2 es3 ids He3 chunks s1 m' fuel 0 r s2 Hr' Hids Hlk Hnd Hf Hfree) as [-> Hr2].
  split; [done|]. replace m with (without m' ids); [done|]. apply map_eq. intros k.
  rewrite lookup_without. case_decide as Hk; [by rewrite Hnew|].
  destruct (m !! k) as [p|] eqn:Hp; [by eapply lookup_weaken|].
  apply eq_None_not_Some. rewrite Hdom, Hp. intros [[? ?]|?]; done.
Qed.
End Laws.

(** ** A chain of two pages *)
#[local] Existing Instance ToyCodecs.toy.
Definition toy_crc (bs : bytes) : Z := as_u32 (ToyCodecs.sum bs).
Lemma toy_crc_range bs : is_u32 (toy_crc bs).
Proof. by apply as_u_fits. Qed.

Definition demo_value : bytes := replicate 4500 7.
Definition demo_envs (i : nat) : env := demo_env.
Definition demo_chained :=
  (allocate_overflow_chain map_to_list toy_crc demo_envs demo_envs demo_value demo5).2.

Lemma demo_chain_made :
  allocate_overflow_chain map_to_list toy_crc demo_envs demo_envs demo_value demo5
    = (Ok [5; 6], demo_chained).
Proof. unfold demo_chained. apply result_pair. vm_compute. reflexivity. Qed.


Lemma overflow_stream_reads_witness :
  exists x, read_many toy_crc (fun _ => demo_envs) 0 [4000; 600; 1]
      (OverflowChainStream.new 5 4500, demo_chained)
    = (Ok [replicate 4000 7; replicate 500 7; []], x).
Proof.
  destruct (overflow_stream_reads map_to_list map_to_list toy_crc (fun m => reflexivity _)
    (fun m => reflexivity _) toy_crc_range demo_config demo5 demo_pages demo_envs demo_envs (fun _ => demo_envs)
    demo_value [5; 6] 5 demo_chained [4000; 600; 1] demo_reach (fun _ => session_env_ok) (fun _ => session_env_ok))
    as (x & Hx).
  - split; vm_compute; reflexivity.
  - discriminate.
  - vm_compute. discriminate.
  - exact demo_chain_made.
  - reflexivity.
  - repeat constructor; lia.
  - exists x.
    change (replicate 4000 7) with (take (Z.to_nat 4000) demo_value).
    exact Hx.
Defined.

Definition demo_freed := (free_overflow_chain map_to_list demo_envs demo_envs 2 5 demo_chained).2.

Lemma overflow_chain_freed_witness :
  PagerContract.reach map_to_list map_to_list demo_config demo_freed demo_pages.
Proof.
  refine (proj2 (overflow_chain_freed map_to_list map_to_list toy_crc (fun m => reflexivity _)
    (fun m => reflexivity _) toy_crc_range demo_config demo5 demo_pages demo_envs demo_envs demo_value [5; 6] 5
    demo_chained demo_envs demo_envs 2 (Some tt) demo_freed demo_reach (fun _ => session_env_ok)
    (fun _ => session_env_ok) (fun _ => session_env_ok) _ _ _ demo_chain_made eq_refl _ _)).
  - split; vm_compute; reflexivity.
  - discriminate.
  - vm_compute. discriminate.
  - simpl. lia.
  - unfold demo_freed. apply result_pair. vm_compute. reflexivity.
Defined.

(** Compaction lowers the page count and keeps the counter of new pages, so
    a page allocated afterwards lies beyond the count and cannot be read. *)
Definition shrunk_free := (free_page map_to_list demo_env 3 demo2).2.
Definition shrunk :=
  (Vacuum.compact_and_truncate map_to_list demo_env demo_envs demo_envs demo_envs shrunk_free).2.
Definition shrunk_alloc := allocate_page map_to_list demo_env PageType.BTreeLeaf shrunk.
Example compaction_loses_the_next_page :
  (total_pages shrunk_free, total_pages shrunk) = (4, 3) /\
  shrunk_alloc.1 = Ok 4 /\ total_pages shrunk_alloc.2 = 3 /\
  (read_page demo_env 4 shrunk_alloc.2).1 = Err (PageNotFound 3).
Proof. vm_compute. done. Qed.
End OverflowLaws.
