(* ===== verification/OrdMap.v ===== *)
(** * Ordered maps

    [BTreeMap<Vec<u8>, V>] of the standard library: byte strings in
    lexicographic order, a map as the list of its entries in that order, with
    the lookups, updates and ranges the tables use. *)
From S2P Require Import Prelude Types.

(** ** Byte strings in order *)
Fixpoint key_ltb (a b : bytes) : bool :=
  match a, b with
  | _, [] => false
  | [], _ :: _ => true
  | x :: a, y :: b => (x <? y) || ((x =? y) && key_ltb a b)
  end.
Definition key_leb (a b : bytes) : bool := negb (key_ltb b a).
Definition key_lt (a b : bytes) : Prop := key_ltb a b = true.

Lemma key_lt_irrefl a : ~ key_lt a a.
Proof.
  unfold key_lt. induction a as [|x a IH]; simpl; [done|].
  rewrite Z.ltb_irrefl, Z.eqb_refl. simpl. done.
Qed.

Lemma key_lt_trans a b c : key_lt a b -> key_lt b c -> key_lt a c.
Proof.
  unfold key_lt. revert b c. induction a as [|x a IH]; intros [|y b] [|z c]; simpl; try done.
  destruct (Z.ltb_spec x y), (Z.ltb_spec y z), (Z.ltb_spec x z), (Z.eqb_spec x y),
    (Z.eqb_spec y z), (Z.eqb_spec x z); simpl; try done; try lia. apply IH.
Qed.

Lemma key_total a b : key_lt a b \/ a = b \/ key_lt b a.
Proof.
  unfold key_lt. revert b. induction a as [|x a IH]; intros [|y b]; simpl; auto.
  destruct (Z.ltb_spec x y), (Z.ltb_spec y x), (Z.eqb_spec x y), (Z.eqb_spec y x);
    simpl; auto; try lia. subst. destruct (IH b) as [?|[->|?]]; auto.
Qed.

Lemma key_lt_asym a b : key_lt a b -> ~ key_lt b a.
Proof. intros H1 H2. by apply (key_lt_irrefl a), (key_lt_trans a b a). Qed.

Lemma key_ltb_false a b : key_ltb a b = false <-> b = a \/ key_lt b a.
Proof.
  split.
  - intros Hf. destruct (key_total a b) as [Hl|[->|?]]; [|by left|by right]. unfold key_lt in Hl. congruence.
  - intros [->|Hl]; apply not_true_is_false; [apply key_lt_irrefl|by apply key_lt_asym].
Qed.

Lemma key_leb_spec a b : key_leb a b = true <-> a = b \/ key_lt a b.
Proof. unfold key_leb. rewrite negb_true_iff, key_ltb_false. done. Qed.

Lemma key_leb_false a b : key_leb a b = false <-> key_lt b a.
Proof. unfold key_leb. by rewrite negb_false_iff. Qed.

Lemma key_le_lt_trans a b c : key_leb a b = true -> key_lt b c -> key_lt a c.
Proof. intros [->|Hab]%key_leb_spec Hbc; [done|by eapply key_lt_trans]. Qed.

(** ** [starts_with] *)
Fixpoint starts_with (k p : bytes) : bool :=
  match p, k with
  | [], _ => true
  | x :: p, y :: k => (x =? y) && starts_with k p
  | _ :: _, [] => false
  end.

Lemma starts_with_ge k p : starts_with k p = true -> key_leb p k = true.
Proof.
  revert k. induction p as [|x p IH]; intros [|y k]; simpl; try done.
  destruct (Z.eqb_spec x y) as [->|]; [|done]. simpl. intros Hs%IH.
  apply key_leb_spec. apply key_leb_spec in Hs as [->|Hl]; [by left|right].
  unfold key_lt in *. simpl. rewrite Z.ltb_irrefl, Z.eqb_refl, Hl. done.
Qed.

(** Behind a key that is not below the prefix and does not start with it, no
    key starts with it. *)
Lemma starts_with_past p k k' :
  key_leb p k = true -> starts_with k p = false -> key_lt k k' -> starts_with k' p = false.
Proof.
  unfold key_lt. revert k k'. induction p as [|x p IH]; intros [|y k] [|z k']; simpl; try done.
  unfold key_leb. simpl.
  destruct (Z.eqb_spec x y), (Z.eqb_spec x z), (Z.eqb_spec y x), (Z.eqb_spec y z),
    (Z.ltb_spec y x), (Z.ltb_spec y z); simpl; try done; try lia. apply IH.
Qed.

Module BTreeMap.
Section Map.
Context {V : Type}.

#[local] Abbreviation t := (list (bytes * V)).
Definition empty : t := [].
Definition keys (m : t) : list bytes := map fst m.

Fixpoint get (m : t) (k : bytes) : option V :=
  match m with
  | [] => None
  | (k', v) :: m => if bytes_eqb k k' then Some v else get m k
  end.
Definition contains_key (m : t) (k : bytes) : bool := bool_decide (is_Some (get m k)).

Fixpoint insert (m : t) (k : bytes) (v : V) : t :=
  match m with
  | [] => [(k, v)]
  | (k', v') :: m' =>
      if key_ltb k k' then (k, v) :: m
      else if bytes_eqb k k' then (k, v) :: m'
      else (k', v') :: insert m' k v
  end.

Definition remove (m : t) (k : bytes) : t := filter (fun x => x.1 <> k) m.

(** [range(lo..)], [range(..hi)] and the like; a range whose ends are in the
    wrong order panics. *)
Definition above (lo : Bound bytes) (k : bytes) : bool :=
  match lo with Included a => key_leb a k | Excluded a => key_ltb a k | Unbounded => true end.
Definition below (hi : Bound bytes) (k : bytes) : bool :=
  match hi with Included a => key_leb k a | Excluded a => key_ltb k a | Unbounded => true end.
Definition range_ok (lo hi : Bound bytes) : bool :=
  match lo, hi with
  | Unbounded, _ | _, Unbounded => true
  | Excluded a, Excluded b => key_ltb a b
  | Included a, Included b | Included a, Excluded b | Excluded a, Included b => key_leb a b
  end.
Definition range {E} (m : t) (lo hi : Bound bytes) : outcome E t :=
  if range_ok lo hi then Ok (filter (fun x => above lo x.1 && below hi x.1 = true) m) else Panic.

Definition sorted (m : t) : Prop := StronglySorted key_lt (keys m).

(** ** Laws *)
Lemma get_None m k : get m k = None <-> k ∉ keys m.
Proof.
  induction m as [|[k' v] m IH]; simpl; [split; [intros _; apply not_elem_of_nil|done]|].
  rewrite not_elem_of_cons. destruct (bytes_eqb k k') eqn:He.
  - apply bytes_eqb_true in He as ->. naive_solver.
  - rewrite IH. split; [|naive_solver]. intros Hn. split; [|done]. intros ->.
    by rewrite bytes_eqb_refl in He.
Qed.

Lemma get_elem m k v : sorted m -> (k, v) ∈ m <-> get m k = Some v.
Proof.
  unfold sorted. induction m as [|[k' v'] m IH]; simpl; intros Hs.
  { split; [by intros ?%elem_of_nil|done]. }
  inversion Hs as [|?? Hs' Hall]; subst. rewrite elem_of_cons. destruct (bytes_eqb k k') eqn:He.
  - apply bytes_eqb_true in He as <-. split; [|intros [= ->]; by left].
    intros [[= ->]|Hin]; [done|]. exfalso. eapply Forall_forall in Hall; [by apply (key_lt_irrefl k)|].
    apply list_elem_of_fmap. by exists (k, v).
  - rewrite <- IH by done. split; [|by right]. intros [[= -> ->]|?]; [|done].
    by rewrite bytes_eqb_refl in He.
Qed.

Lemma get_insert m k v q : get (insert m k v) q = if bytes_eqb q k then Some v else get m q.
Proof.
  induction m as [|[k' v'] m IH]; simpl; [done|].
  destruct (key_ltb k k'); [simpl; by destruct (bytes_eqb q k)|].
  destruct (bytes_eqb k k') eqn:He; simpl.
  - apply bytes_eqb_true in He as <-. by destruct (bytes_eqb q k).
  - rewrite IH. destruct (bytes_eqb q k') eqn:Hq, (bytes_eqb q k) eqn:Hk; try done.
    apply bytes_eqb_true in Hq, Hk. subst. by rewrite bytes_eqb_refl in He.
Qed.

Lemma get_remove m k q : get (remove m k) q = if bytes_eqb q k then None else get m q.
Proof.
  unfold remove. induction m as [|[k' v'] m IH]; [simpl; by destruct (bytes_eqb q k)|].
  rewrite filter_cons. simpl. case_decide as Hd.
  - simpl. rewrite IH. destruct (bytes_eqb q k') eqn:Hq, (bytes_eqb q k) eqn:Hk; try done.
    apply bytes_eqb_true in Hq, Hk. by subst.
  - assert (k' = k) as -> by (destruct (decide (k' = k)); tauto). rewrite IH.
    by destruct (bytes_eqb q k).
Qed.

Lemma elem_insert_key m k v q : q ∈ keys (insert m k v) -> q = k \/ q ∈ keys m.
Proof.
  induction m as [|[k' v'] m IH]; simpl; [by intros [->|?]%elem_of_cons; auto|].
  destruct (key_ltb k k'); simpl; [rewrite elem_of_cons; tauto|].
  destruct (bytes_eqb k k'); simpl; rewrite !elem_of_cons; [tauto|]. intros [?|?%IH]; tauto.
Qed.

Lemma sorted_insert m k v : sorted m -> sorted (insert m k v).
Proof.
  unfold sorted. induction m as [|[k' v'] m IH]; simpl; intros Hs; [by repeat constructor|].
  inversion Hs as [|?? Hs' Hall]; subst. destruct (key_ltb k k') eqn:Hlt; simpl.
  - constructor; [done|]. constructor; [done|]. eapply Forall_impl; [exact Hall|].
    intros x Hx. by eapply key_lt_trans.
  - destruct (bytes_eqb k k') eqn:He; simpl.
    + apply bytes_eqb_true in He as <-. by constructor.
    + constructor; [by apply IH|]. apply Forall_forall. intros q [->|Hq]%elem_insert_key.
      * apply key_ltb_false in Hlt as [->|?]; [by rewrite bytes_eqb_refl in He|done].
      * by eapply Forall_forall in Hall.
Qed.

Lemma sorted_filter (P : bytes * V -> Prop) `{!forall x, Decision (P x)} m :
  sorted m -> sorted (filter P m).
Proof.
  unfold sorted. induction m as [|[k v] m IH]; simpl; intros Hs; [done|].
  inversion Hs as [|?? Hs' Hall]; subst. rewrite filter_cons. case_decide; simpl; [|by apply IH].
  constructor; [by apply IH|]. apply Forall_forall. intros q (x & -> & Hx)%list_elem_of_fmap.
  apply list_elem_of_filter in Hx as [_ Hx]. eapply Forall_forall in Hall; [done|].
  apply list_elem_of_fmap. by exists x.
Qed.

Lemma sorted_remove m k : sorted m -> sorted (remove m k).
Proof. apply sorted_filter. Qed.
End Map.
Abbreviation t V := (list (bytes * V)) (only parsing).

(** [values_mut]: every value is changed in place. *)
Definition map_values {V W} (f : V -> W) (m : t V) : t W := map (fun x => (x.1, f x.2)) m.
Lemma keys_map_values {V W} (f : V -> W) m : keys (map_values f m) = keys m.
Proof. unfold keys, map_values. rewrite map_map. done. Qed.
Lemma get_map_values {V W} (f : V -> W) m k : get (map_values f m) k = f <$> get m k.
Proof. induction m as [|[k' v] m IH]; simpl; [done|]. by destruct (bytes_eqb k k'). Qed.
Lemma sorted_map_values {V W} (f : V -> W) m : sorted m -> sorted (map_values f m).
Proof. unfold sorted. by rewrite keys_map_values. Qed.
End BTreeMap.
