(* ===== verification/MemTables.v ===== *)
(** * Tables in memory ([src/table/btree/memory.rs], [src/table/hash/memory.rs],
    [src/table/lsm/memtable.rs])

    Three tables that keep a version chain per key: the ordered table behind
    memory-resident tables and secondary indexes, the hash table, and the
    write buffer of an LSM tree.  A lock around a whole call is left out.  The
    size of a [VersionChain] in memory is the compiler's, the parameter
    [chain_size]; a [Vec] has 24 bytes and a pointer 8. *)
From S2P Require Import Prelude Types Page Mvcc OrdMap.

(** The errors of [TableError] the tables return; a message is kept where the
    code has a constant one. *)
Inductive TableError : Type :=
  | Corruption (location corruption_type : string)
  | TablePager (e : PagerError)
  | InvalidValueRef
  | InvalidFormatVersion (version : Z)
  | TableOther (msg : string)
  | MemtableFull
  | MemtableImmutable
  | MemtableNotImmutable
  | OperationNotSupported (msg : string)
  | InvalidOperationState (operation msg : string).

Inductive Mutation : Type :=
  | MPut (key value : bytes)
  | MDelete (key : bytes)
  | MRangeDelete (bounds : ScanBounds)
  | MMerge (key operand : bytes).

Record BatchReport : Type := mkReport {
  attempted : Z; applied : Z; deleted : Z; bytes_written : Z }.

(** The snapshot a read at an LSN makes for itself. *)
Definition read_snapshot (lsn : LogSequenceNumber) : Snapshot.t := Snapshot.new 0 "" lsn 0 0 [].

Definition saturating_sub (a b : Z) : Z := Z.max 0 (a - b).
Definition update_usage (usage delta : Z) : Z :=
  if delta <? 0 then saturating_sub usage (- delta) else Z.min (usage + delta) (2 ^ 64 - 1).

(** [commit_versions] of every table: the head of a chain becomes committed
    when the transaction made it and it is not. *)
Definition commit_head (tx_id : TransactionId) (commit_lsn : LogSequenceNumber) (c : VersionChain.t)
    : VersionChain.t :=
  if (VersionChain.created_by c =? tx_id) && bool_decide (VersionChain.commit_lsn c = None)
  then VersionChain.commit c commit_lsn else c.

Section Sizes.
Variable chain_size : Z.

Fixpoint chain_bytes (c : VersionChain.t) : Z :=
  VersionValue.len (VersionChain.value c) + chain_size + 8
    + match VersionChain.prev_version c with Some p => chain_bytes p | None => 0 end.
Definition estimate_entry_size (key : bytes) (c : VersionChain.t) : Z := zlen key + 24 + chain_bytes c.
Definition entry_size (key : bytes) (o : option VersionChain.t) : Z :=
  match o with Some c => estimate_entry_size key c | None => 0 end.
End Sizes.

Module MemoryBTree.
Record t : Type := mk {
  id : TableId; name : string; data : BTreeMap.t VersionChain.t;
  memory_usage : Z; memory_budget : Z }.

Definition with_budget (id : TableId) (name : string) (memory_budget : Z) : t :=
  mk id name BTreeMap.empty 0 memory_budget.
Definition new (id : TableId) (name : string) : t := with_budget id name (64 * 1024 * 1024).

Definition set_data (d : BTreeMap.t VersionChain.t) (delta : Z) (b : t) : t :=
  mk (id b) (name b) d (update_usage (memory_usage b) delta) (memory_budget b).

Definition row_count (b : t) : Z := zlen (data b).

(** [vacuum]: the versions removed. *)
Definition vacuum (m : LogSequenceNumber) (b : t) : Z * t :=
  (foldr Z.add 0 (map (fun x => Z.of_nat (VersionChain.vacuum x.2 m).1.1) (data b)),
   mk (id b) (name b) (BTreeMap.map_values (fun c => (VersionChain.vacuum c m).2) (data b))
      (memory_usage b) (memory_budget b)).

(** ** Reader *)
Definition get (b : t) (key : bytes) (snapshot_lsn : LogSequenceNumber) : option ValueBuf :=
  match BTreeMap.get (data b) key with
  | Some c => VersionChain.find_visible_inline c (read_snapshot snapshot_lsn)
  | None => None
  end.
Definition approximate_len (b : t) : option Z := Some (zlen (data b)).

(** ** Writer *)
Record Writer : Type := mkWriter {
  tx_id : TransactionId; snapshot_lsn : LogSequenceNumber;
  pending_changes : list (bytes * option bytes) }.
Definition writer (tx_id : TransactionId) (snapshot_lsn : LogSequenceNumber) : Writer :=
  mkWriter tx_id snapshot_lsn [].
Definition push (w : Writer) (l : list (bytes * option bytes)) : Writer :=
  mkWriter (tx_id w) (snapshot_lsn w) (pending_changes w ++ l).

Definition put (key value : bytes) (w : Writer) : Z * Writer :=
  (zlen key + zlen value + 16, push w [(key, Some value)]).
Definition delete (b : t) (key : bytes) (w : Writer) : bool * Writer :=
  if BTreeMap.contains_key (data b) key then (true, push w [(key, None)]) else (false, w).

Definition bound_key (x : Bound bytes) : option bytes :=
  match x with Included k | Excluded k => Some k | Unbounded => None end.
Fixpoint take_while {A} (P : A -> bool) (l : list A) : list A :=
  match l with [] => [] | x :: l => if P x then x :: take_while P l else [] end.

Definition keys_to_delete {E} (b : t) (bounds : ScanBounds) : outcome E (list bytes) :=
  match bounds with
  | All => Ok (BTreeMap.keys (data b))
  | Prefix p =>
      l ← BTreeMap.range (data b) (Included p) Unbounded;
      Ok (BTreeMap.keys (take_while (fun x => starts_with x.1 p) l))
  | Range start stop =>
      match bound_key start, bound_key stop with
      | Some s, Some e => l ← BTreeMap.range (data b) (Included s) (Included e); Ok (BTreeMap.keys l)
      | Some s, None => l ← BTreeMap.range (data b) (Included s) Unbounded; Ok (BTreeMap.keys l)
      | None, Some e => l ← BTreeMap.range (data b) Unbounded (Included e); Ok (BTreeMap.keys l)
      | None, None => Ok (BTreeMap.keys (data b))
      end
  end.
Definition range_delete (b : t) (bounds : ScanBounds) (w : Writer) : outcome TableError (Z * Writer) :=
  ks ← keys_to_delete b bounds;
  Ok (zlen ks, push w (map (fun k => (k, None)) ks)).

Definition batch_get (b : t) (w : Writer) (ks : list bytes) : list (option ValueBuf) :=
  map (fun k => get b k (snapshot_lsn w)) ks.

Fixpoint apply_mutations (b : t) (l : list Mutation) (w : Writer) (r : BatchReport)
    : outcome TableError (BatchReport * Writer) :=
  match l with
  | [] => Ok (r, w)
  | MPut k v :: l =>
      apply_mutations b l (put k v w).2
        (mkReport (attempted r) (applied r + 1) (deleted r) (bytes_written r + zlen k + zlen v))
  | MDelete k :: l =>
      let '(found, w) := delete b k w in
      apply_mutations b l w
        (mkReport (attempted r) (applied r + 1) (if found then deleted r + 1 else deleted r) (bytes_written r))
  | MRangeDelete bounds :: l =>
      x ← range_delete b bounds w;
      apply_mutations b l x.2
        (mkReport (attempted r) (applied r + 1) (deleted r + x.1) (bytes_written r))
  | MMerge _ _ :: l => apply_mutations b l w r
  end.
Definition apply_batch (b : t) (l : list Mutation) (w : Writer) : outcome TableError (BatchReport * Writer) :=
  apply_mutations b l w (mkReport (zlen l) 0 0 0).

Section Flush.
Variable chain_size : Z.

Definition flush_one (tx : TransactionId) (b : t) (x : bytes * option bytes) : t :=
  let '(key, value_opt) := x in
  let existing := BTreeMap.get (data b) key in
  let old_size := entry_size chain_size key existing in
  match value_opt with
  | Some value =>
      let new_chain := match existing with
                       | Some c => VersionChain.prepend c value tx
                       | None => VersionChain.new value tx
                       end in
      let new_size := estimate_entry_size chain_size key new_chain in
      set_data (BTreeMap.insert (BTreeMap.remove (data b) key) key new_chain) (new_size - old_size) b
  | None =>
      match existing with
      | Some _ => set_data (BTreeMap.remove (data b) key) (- old_size) b
      | None => b
      end
  end.
Definition flush (b : t) (w : Writer) : t * Writer :=
  (foldl (flush_one (tx_id w)) b (pending_changes w), mkWriter (tx_id w) (snapshot_lsn w) []).

Definition commit_versions (w : Writer) (commit_lsn : LogSequenceNumber) (b : t) : t :=
  mk (id b) (name b) (BTreeMap.map_values (commit_head (tx_id w) commit_lsn) (data b))
     (memory_usage b) (memory_budget b).

(** ** Secondary index entries *)
Definition insert_entry (index_key primary_key : bytes) (tx : TransactionId)
    (commit_lsn : LogSequenceNumber) (b : t) : t :=
  let existing := BTreeMap.get (data b) index_key in
  let old_size := entry_size chain_size index_key existing in
  let new_chain := VersionChain.commit
                     (match existing with
                      | Some c => VersionChain.prepend c primary_key tx
                      | None => VersionChain.new primary_key tx
                      end) commit_lsn in
  let new_size := estimate_entry_size chain_size index_key new_chain in
  set_data (BTreeMap.insert (BTreeMap.remove (data b) index_key) index_key new_chain)
    (new_size - old_size) b.

Definition delete_entry (index_key primary_key : bytes) (b : t) : t :=
  match BTreeMap.get (data b) index_key with
  | Some c =>
      match VersionChain.find_visible_inline c (read_snapshot (2 ^ 64 - 1)) with
      | Some stored =>
          if bytes_eqb stored primary_key
          then set_data (BTreeMap.remove (data b) index_key) (- estimate_entry_size chain_size index_key c) b
          else b
      | None => b
      end
  | None => b
  end.
End Flush.

(** ** Cursor *)
Record Cursor : Type := mkCursor {
  c_snapshot_lsn : LogSequenceNumber; bounds : ScanBounds;
  current_key : option bytes; current_value : option bytes; exhausted : bool }.

Definition is_in_bounds (c : Cursor) (key : bytes) : bool :=
  match bounds c with
  | All => true
  | Prefix p => starts_with key p
  | Range start stop => BTreeMap.above start key && BTreeMap.below stop key
  end.
Definition find_visible_value (c : Cursor) (chain : VersionChain.t) : option bytes :=
  VersionChain.find_visible_inline chain (read_snapshot (c_snapshot_lsn c)).

Definition stop (c : Cursor) : Cursor := mkCursor (c_snapshot_lsn c) (bounds c) None None true.
Definition at_entry (c : Cursor) (k v : bytes) : Cursor :=
  mkCursor (c_snapshot_lsn c) (bounds c) (Some k) (Some v) false.

(** The loop of [next], [prev], [seek] and [first]: the first entry with a
    visible value, unless a key out of bounds comes before it. *)
Fixpoint advance (c : Cursor) (l : list (bytes * VersionChain.t)) : Cursor :=
  match l with
  | [] => stop c
  | (k, chain) :: l =>
      if negb (is_in_bounds c k) then stop c
      else match find_visible_value c chain with Some v => at_entry c k v | None => advance c l end
  end.
(** The loop of [seek_for_prev] and [last] passes over keys out of bounds. *)
Fixpoint retreat (c : Cursor) (l : list (bytes * VersionChain.t)) : Cursor :=
  match l with
  | [] => stop c
  | (k, chain) :: l =>
      if negb (is_in_bounds c k) then retreat c l
      else match find_visible_value c chain with Some v => at_entry c k v | None => retreat c l end
  end.

Definition valid (c : Cursor) : bool := negb (exhausted c) && bool_decide (is_Some (current_key c)).

(** A range with one open end, which never panics. *)
Definition entries_from (b : t) (lo : Bound bytes) : list (bytes * VersionChain.t) :=
  filter (fun x => BTreeMap.above lo x.1 = true) (data b).
Definition entries_to (b : t) (hi : Bound bytes) : list (bytes * VersionChain.t) :=
  filter (fun x => BTreeMap.below hi x.1 = true) (data b).

Definition next (b : t) (c : Cursor) : Cursor :=
  if exhausted c then c
  else match current_key c with
       | Some k => advance c (drop 1 (entries_from b (Included k)))
       | None => mkCursor (c_snapshot_lsn c) (bounds c) (current_key c) (current_value c) true
       end.
Definition prev (b : t) (c : Cursor) : Cursor :=
  if exhausted c then c
  else match current_key c with
       | Some k => advance c (rev (entries_to b (Excluded k)))
       | None => mkCursor (c_snapshot_lsn c) (bounds c) (current_key c) (current_value c) true
       end.
Definition seek (b : t) (key : bytes) (c : Cursor) : Cursor := advance c (entries_from b (Included key)).
Definition seek_for_prev (b : t) (key : bytes) (c : Cursor) : Cursor :=
  retreat c (rev (entries_to b (Included key))).

Definition start_key (s : ScanBounds) : option bytes :=
  match s with All => None | Prefix p => Some p | Range start _ => bound_key start end.
Definition first (b : t) (c : Cursor) : Cursor :=
  advance c (match start_key (bounds c) with
             | Some k => entries_from b (Included k)
             | None => data b
             end).

(** The upper end [last] starts from. *)
Fixpoint bump_last (p : bytes) : bytes :=
  match p with
  | [] => []
  | [x] => if x <? 255 then [x + 1] else [x; 0]
  | x :: p => x :: bump_last p
  end.
Definition end_key (s : ScanBounds) : option bytes :=
  match s with All => None | Prefix p => Some (bump_last p) | Range _ e => bound_key e end.
Definition last (b : t) (c : Cursor) : Cursor :=
  retreat c (rev (match end_key (bounds c) with
                  | Some k => entries_to b (Excluded k)
                  | None => data b
                  end)).

Definition scan (b : t) (bounds : ScanBounds) (lsn : LogSequenceNumber) : Cursor :=
  first b (mkCursor lsn bounds None None false).
End MemoryBTree.

Module MemoryHashTable.
Record t : Type := mk {
  id : TableId; name : string; data : gmap bytes VersionChain.t;
  memory_usage : Z; memory_budget : Z }.

Definition with_budget (id : TableId) (name : string) (memory_budget : Z) : t :=
  mk id name ∅ 0 memory_budget.
Definition new (id : TableId) (name : string) : t := with_budget id name (64 * 1024 * 1024).
Definition set_data (d : gmap bytes VersionChain.t) (delta : Z) (h : t) : t :=
  mk (id h) (name h) d (update_usage (memory_usage h) delta) (memory_budget h).

(** An empty value is a deletion. *)
Definition get (h : t) (key : bytes) (snapshot_lsn : LogSequenceNumber) : option ValueBuf :=
  match data h !! key with
  | Some c =>
      match VersionChain.find_visible_inline c (read_snapshot snapshot_lsn) with
      | Some value => if zlen value =? 0 then None else Some value
      | None => None
      end
  | None => None
  end.
Definition batch_get (h : t) (ks : list bytes) (snapshot_lsn : LogSequenceNumber) : list (option ValueBuf) :=
  map (fun k => match data h !! k with
                | Some c => VersionChain.find_visible_inline c (read_snapshot snapshot_lsn)
                | None => None
                end) ks.
Definition approximate_len (h : t) : option Z := Some (Z.of_nat (size (data h))).

Definition vacuum (m : LogSequenceNumber) (h : t) : Z * t :=
  (map_fold (fun _ c n => n + Z.of_nat (VersionChain.vacuum c m).1.1) 0 (data h),
   mk (id h) (name h) ((fun c => (VersionChain.vacuum c m).2) <$> data h) (memory_usage h) (memory_budget h)).

Definition commit_versions (tx : TransactionId) (commit_lsn : LogSequenceNumber) (h : t) : t :=
  mk (id h) (name h) (commit_head tx commit_lsn <$> data h) (memory_usage h) (memory_budget h).

Section Flush.
Variable chain_size : Z.

Definition put (key value : bytes) (tx : TransactionId) (commit_lsn : LogSequenceNumber) (h : t) : Z * t :=
  let existing := data h !! key in
  let new_chain := VersionChain.mk (VersionValue.inline value) tx (Some commit_lsn) existing in
  (zlen key + zlen value + 16,
   set_data (<[key := new_chain]> (data h))
     (estimate_entry_size chain_size key new_chain - entry_size chain_size key existing) h).
Definition delete (key : bytes) (h : t) : bool * t :=
  match data h !! key with
  | Some c => (true, set_data (base.delete key (data h)) (- estimate_entry_size chain_size key c) h)
  | None => (false, h)
  end.

(** The writer of the table is the one of [MemoryBTree]; a deletion is
    flushed as an empty value. *)
Definition flush_one (tx : TransactionId) (h : t) (x : bytes * option bytes) : t :=
  let '(key, value_opt) := x in
  let existing := data h !! key in
  let version v := VersionChain.mk (VersionValue.inline v) tx None existing in
  let with_version c :=
    set_data (<[key := c]> (data h))
      (estimate_entry_size chain_size key c - entry_size chain_size key existing) h in
  match value_opt with
  | Some value => with_version (version value)
  | None => match existing with Some _ => with_version (version []) | None => h end
  end.
Definition flush (tx : TransactionId) (pending : list (bytes * option bytes)) (h : t) : t :=
  foldl (flush_one tx) h pending.
End Flush.

Definition writer_delete (h : t) (key : bytes) (w : MemoryBTree.Writer) : bool * MemoryBTree.Writer :=
  if bool_decide (is_Some (data h !! key)) then (true, MemoryBTree.push w [(key, None)]) else (false, w).
Definition writer_range_delete (bounds : ScanBounds) : outcome TableError Z :=
  Err (OperationNotSupported "Hash tables do not support range_delete operations").

Fixpoint apply_mutations (h : t) (l : list Mutation) (w : MemoryBTree.Writer) (r : BatchReport)
    : BatchReport * MemoryBTree.Writer :=
  match l with
  | [] => (r, w)
  | MPut k v :: l =>
      let '(n, w) := MemoryBTree.put k v w in
      apply_mutations h l w
        (mkReport (attempted r) (applied r + 1) (deleted r) (bytes_written r + n))
  | MDelete k :: l =>
      let '(found, w) := writer_delete h k w in
      apply_mutations h l w
        (if found then mkReport (attempted r) (applied r + 1) (deleted r + 1) (bytes_written r) else r)
  | MRangeDelete _ :: l | MMerge _ _ :: l => apply_mutations h l w r
  end.
Definition apply_batch (h : t) (l : list Mutation) (w : MemoryBTree.Writer) : BatchReport * MemoryBTree.Writer :=
  apply_mutations h l w (mkReport (zlen l) 0 0 0).
End MemoryHashTable.

Module Memtable.
Record t : Type := mk {
  data : BTreeMap.t VersionChain.t; memory_usage : Z; immutable : bool; max_size : Z;
  min_lsn : option LogSequenceNumber; max_lsn : option LogSequenceNumber }.

Definition new (max_size : Z) : t := mk BTreeMap.empty 0 false max_size None None.

Section Sizes.
(** The sizes of a [VersionChain] and of a [ValueRef]. *)
Variables chain_size ref_size : Z.

Definition value_size (v : VersionValue.t) : Z :=
  match v with VersionValue.Inline d => zlen d | VersionValue.External _ => ref_size end.
Fixpoint estimate_chain_size (c : VersionChain.t) : Z :=
  chain_size + value_size (VersionChain.value c)
    + match VersionChain.prev_version c with Some p => estimate_chain_size p | None => 0 end.

Definition commit_opt (c : VersionChain.t) (lsn : option LogSequenceNumber) : VersionChain.t :=
  match lsn with Some l => VersionChain.commit c l | None => c end.

Definition insert (key value : bytes) (txn_id : TransactionId) (commit_lsn : option LogSequenceNumber)
    : stateful t TableError unit :=
  m ← gets (fun m => m);
  _ ← lift (ensure (negb (immutable m)) MemtableImmutable);
  let '(new_chain, memory_delta) :=
    match BTreeMap.get (data m) key with
    | Some existing =>
        let c := commit_opt (VersionChain.prepend existing value txn_id) commit_lsn in
        (c, saturating_sub (estimate_chain_size c) (estimate_chain_size existing))
    | None =>
        (commit_opt (VersionChain.new value txn_id) commit_lsn, zlen key + zlen value + chain_size)
    end in
  _ ← lift (ensure (memory_usage m + memory_delta <=? max_size m) MemtableFull);
  let bound f cur := match commit_lsn with Some l => Some (match cur with Some c => f c l | None => l end)
                                         | None => cur end in
  modify (fun m => mk (BTreeMap.insert (data m) key new_chain) (memory_usage m + memory_delta) (immutable m)
                      (max_size m) (bound Z.min (min_lsn m)) (bound Z.max (max_lsn m))).
Definition delete (key : bytes) (txn_id : TransactionId) (commit_lsn : option LogSequenceNumber)
    : stateful t TableError unit :=
  insert key [] txn_id commit_lsn.

Definition commit_versions (txn_id : TransactionId) (commit_lsn : LogSequenceNumber) (m : t) : t :=
  mk (BTreeMap.map_values (commit_head txn_id commit_lsn) (data m)) (memory_usage m) (immutable m)
     (max_size m) (min_lsn m) (max_lsn m).

(** The first committed version at or below the LSN. *)
Fixpoint visible_at (c : VersionChain.t) (lsn : LogSequenceNumber) : option VersionValue.t :=
  if match VersionChain.commit_lsn c with Some l => l <=? lsn | None => false end
  then Some (VersionChain.value c)
  else match VersionChain.prev_version c with Some p => visible_at p lsn | None => None end.

(** An empty value is a deletion; it is returned as it is. *)
Definition get (m : t) (key : bytes) (snapshot_lsn : LogSequenceNumber) : outcome TableError (option bytes) :=
  match BTreeMap.get (data m) key with
  | Some c =>
      match visible_at c snapshot_lsn with
      | Some (VersionValue.Inline d) => Ok (Some d)
      | Some (VersionValue.External _) =>
          Err (InvalidOperationState "Memtable::get" "Found external VersionValue in memtable")
      | None => Ok None
      end
  | None => Ok None
  end.

Fixpoint scan_entries (l : BTreeMap.t VersionChain.t) (lsn : LogSequenceNumber)
    : outcome TableError (list (bytes * bytes)) :=
  match l with
  | [] => Ok []
  | (k, c) :: l =>
      match visible_at c lsn with
      | Some v =>
          if VersionValue.is_empty v then scan_entries l lsn
          else match v with
               | VersionValue.Inline d => rest ← scan_entries l lsn; Ok ((k, d) :: rest)
               | VersionValue.External _ =>
                   Err (InvalidOperationState "Memtable::scan" "Found external VersionValue in memtable")
               end
      | None => scan_entries l lsn
      end
  end.
Definition scan (m : t) (start stop : option bytes) (lsn : LogSequenceNumber)
    : outcome TableError (list (bytes * bytes)) :=
  l ← BTreeMap.range (data m)
        (match start with Some s => Included s | None => Unbounded end)
        (match stop with Some e => Excluded e | None => Unbounded end);
  scan_entries l lsn.

Definition entries (m : t) : outcome TableError (list (bytes * VersionChain.t)) :=
  _ ← ensure (immutable m) MemtableNotImmutable; Ok (data m).
Definition is_full (m : t) : bool := max_size m <=? memory_usage m.
Definition len (m : t) : Z := zlen (data m).
Definition is_empty (m : t) : bool := len m =? 0.
Definition make_immutable (m : t) : bool * t :=
  (negb (immutable m), mk (data m) (memory_usage m) true (max_size m) (min_lsn m) (max_lsn m)).

(** The subtraction from the atomic counter wraps. *)
Definition vacuum (min_visible_lsn : LogSequenceNumber) : stateful t TableError Z :=
  m ← gets (fun m => m);
  _ ← lift (ensure (immutable m) MemtableNotImmutable);
  let vac c := VersionChain.vacuum c min_visible_lsn in
  let removed := foldr Z.add 0 (map (fun x => Z.of_nat (vac x.2).1.1) (data m)) in
  let freed := foldr Z.add 0 (map (fun x =>
    saturating_sub (estimate_chain_size x.2) (estimate_chain_size (vac x.2).2)) (data m)) in
  _ ← modify (fun m => mk (BTreeMap.map_values (fun c => (vac c).2) (data m))
                          (as_u64 (memory_usage m - freed)) (immutable m) (max_size m) (min_lsn m) (max_lsn m));
  mret removed.
End Sizes.
End Memtable.
