(* ===== verification/MemTableLaws.v ===== *)
(** * What the tables in memory promise

    Point reads return the newest value committed at or below the LSN, over
    every history of transactions; scans return the visible entries in order.
    The first is proved once, against the interface [VersionedTable] that the
    ordered table and the hash table meet. *)
From stdpp Require Import sorting.
From S2P Require Import Prelude Types Mvcc OrdMap MemTables.

(** ** Reads at an LSN *)
Module Reads.

Lemma visible_read lsn l tx : VersionChain.visible (read_snapshot lsn) (Some l) tx = (l <=? lsn).
Proof.
  simpl. unfold Snapshot.is_visible. simpl. destruct (Z.ltb_spec lsn l).
  - symmetry. apply Z.leb_gt. lia.
  - rewrite (proj2 (Z.leb_le _ _)) by lia. destruct (tx <? 0); [done|].
    by rewrite bool_decide_eq_false_2 by set_solver.
Qed.

(** The search of the memtable is the search of the version chain. *)
Lemma visible_at_eq c lsn : VersionChain.find_visible_version c (read_snapshot lsn) = Memtable.visible_at c lsn.
Proof.
  induction c as [v b l|v b l p IH] using VersionChain.chain_ind; cbn [VersionChain.find_visible_version
    Memtable.visible_at VersionChain.commit_lsn VersionChain.created_by VersionChain.prev_version VersionChain.value];
    (destruct l as [l|]; [rewrite visible_read|]); by rewrite ?IH.
Qed.

(** The value a chain shows at an LSN, when all its values are inline. *)
Definition shown (o : option VersionChain.t) (lsn : LogSequenceNumber) : option bytes :=
  match o with Some c => VersionChain.find_visible_inline c (read_snapshot lsn) | None => None end.

#[global] Arguments shown : simpl never.

Lemma shown_version v tx l o lsn :
  shown (Some (VersionChain.mk (VersionValue.Inline v) tx l o)) lsn
    = if match l with Some l => l <=? lsn | None => false end then Some v else shown o lsn.
Proof.
  unfold shown, VersionChain.find_visible_inline. cbn [VersionChain.find_visible_version
    VersionChain.commit_lsn VersionChain.created_by VersionChain.prev_version VersionChain.value].
  destruct l as [l|]; [rewrite visible_read; destruct (l <=? lsn)|]; try done; by destruct o.
Qed.

Lemma shown_commit c tx l lsn :
  VersionChain.commit_lsn c = None -> VersionChain.created_by c = tx ->
  (exists v, VersionChain.value c = VersionValue.Inline v) ->
  shown (Some (commit_head tx l c)) lsn
    = if l <=? lsn then VersionValue.as_inline (VersionChain.value c) else shown (Some c) lsn.
Proof.
  destruct c as [v' b' l' p']. simpl. intros -> -> [v ->]. unfold commit_head. simpl.
  rewrite Z.eqb_refl. simpl. unfold VersionChain.commit. simpl VersionChain.value.
  simpl VersionChain.created_by. simpl VersionChain.prev_version. rewrite !shown_version. done.
Qed.
End Reads.

(** ** Tables of version chains *)
Definition change : Type := bytes * option bytes.

(** A version on top of a chain for each change: a deletion is an empty
    value, and nothing when there is no chain. *)
Definition push_change (tx : TransactionId) (o : option VersionChain.t) (c : option bytes)
    : option VersionChain.t :=
  match c with
  | Some v => Some (VersionChain.mk (VersionValue.Inline v) tx None o)
  | None => match o with
            | Some _ => Some (VersionChain.mk (VersionValue.Inline []) tx None o)
            | None => None
            end
  end.
Definition changes_of (k : bytes) (l : list change) : list (option bytes) :=
  map snd (filter (fun x => x.1 = k) l).

(** What a table promises: after a transaction flushed its changes and
    committed, the chain of a key has the changes on top. *)
Class VersionedTable (T : Type) : Type := {
  chain_of : T -> bytes -> option VersionChain.t;
  transact : TransactionId -> list change -> LogSequenceNumber -> T -> T;
  supported : list change -> Prop;
  transact_chain tx l lsn t k : supported l ->
    chain_of (transact tx l lsn t) k
      = commit_head tx lsn <$> foldl (push_change tx) (chain_of t k) (changes_of k l) }.

Section History.
Context {T : Type} `{VersionedTable T}.
Import Reads.

Record txn : Type := mkTxn { txn_id : TransactionId; txn_changes : list change; txn_lsn : LogSequenceNumber }.

Definition run_history (t : T) (l : list txn) : T :=
  foldl (fun t x => transact (txn_id x) (txn_changes x) (txn_lsn x) t) t l.

(** The last change of a key at or below an LSN, [None] when there is none. *)
Fixpoint last_change (l : list txn) (k : bytes) (lsn : LogSequenceNumber) (acc : option (option bytes))
    : option (option bytes) :=
  match l with
  | [] => acc
  | x :: l =>
      last_change l k lsn
        (if txn_lsn x <=? lsn
         then match last (changes_of k (txn_changes x)) with Some c => Some c | None => acc end
         else acc)
  end.

(** What may be read after a last change: a deletion reads as nothing or as
    an empty value. *)
Definition reads_as (o : option bytes) (c : option (option bytes)) : Prop :=
  match c with
  | None => o = None
  | Some None => o = None \/ o = Some []
  | Some (Some v) => o = Some v
  end.

(** Every chain starts with a committed version. *)
Definition head_committed (o : option VersionChain.t) : Prop :=
  match o with Some c => VersionChain.commit_lsn c <> None | None => True end.

(** The versions a transaction has pushed on a chain. *)
Definition pushed (tx : TransactionId) (o' : option VersionChain.t) (c : option bytes) : Prop :=
  match o' with
  | Some x => VersionChain.commit_lsn x = None /\ VersionChain.created_by x = tx /\
      VersionChain.value x = VersionValue.Inline (default [] c)
  | None => c = None
  end.

Lemma push_change_shown tx o c lsn : shown (push_change tx o c) lsn = shown o lsn.
Proof. destruct c as [v|]; simpl; [apply shown_version|]. destruct o; [apply shown_version|done]. Qed.

Lemma push_changes tx o cs :
  (forall lsn, shown (foldl (push_change tx) o cs) lsn = shown o lsn) /\
  match last cs with
  | None => foldl (push_change tx) o cs = o
  | Some c => pushed tx (foldl (push_change tx) o cs) c
  end.
Proof.
  induction cs as [|c cs IH] using rev_ind; [done|].
  rewrite foldl_snoc, last_snoc. destruct IH as [Hs _]. split.
  - intros lsn. by rewrite push_change_shown, Hs.
  - destruct c as [v|]; simpl; [done|]. by destruct (foldl _ _ _).
Qed.

Lemma commit_head_committed tx l c : VersionChain.commit_lsn c <> None -> commit_head tx l c = c.
Proof. intros Hc. unfold commit_head. rewrite bool_decide_eq_false_2 by done. by rewrite andb_false_r. Qed.

(** One transaction on one chain. *)
Lemma transact_shown tx l o cs acc lsn :
  head_committed o -> reads_as (shown o lsn) acc ->
  let o' := commit_head tx l <$> foldl (push_change tx) o cs in
  head_committed o' /\
  reads_as (shown o' lsn)
    (if l <=? lsn then match last cs with Some c => Some c | None => acc end else acc).
Proof.
  intros Hc Hr. destruct (push_changes tx o cs) as [Hs Hl]. simpl.
  destruct (last cs) as [c|]; [|rewrite Hl].
  - specialize (Hs lsn). destruct (foldl _ _ _) as [x|]; simpl in *.
    + destruct Hl as (Hu & Ht & Hv). split.
      { unfold commit_head. rewrite Hu, Ht, Z.eqb_refl. simpl. done. }
      rewrite shown_commit by eauto. rewrite Hv, Hs. destruct (l <=? lsn); [|done].
      destruct c; simpl; auto.
    + subst c. split; [done|]. destruct (l <=? lsn); [by left|]. by rewrite <- Hs in Hr.
  - destruct o as [c|]; simpl in *; [rewrite commit_head_committed by done|]; (split; [done|]);
      by destruct (l <=? lsn).
Qed.

Lemma history_reads l : forall t k lsn acc,
  Forall (fun x => supported (txn_changes x)) l ->
  head_committed (chain_of t k) -> reads_as (shown (chain_of t k) lsn) acc ->
  reads_as (shown (chain_of (run_history t l) k) lsn) (last_change l k lsn acc).
Proof.
  induction l as [|x l IH]; intros t k lsn acc Hf Hc Hr; [done|].
  apply Forall_cons in Hf as [Hx Hf]. simpl.
  destruct (transact_shown (txn_id x) (txn_lsn x) (chain_of t k) (changes_of k (txn_changes x)) acc lsn Hc Hr)
    as [Hc' Hr'].
  rewrite <- (transact_chain _ _ _ t k Hx) in Hc', Hr'. by apply IH.
Qed.
End History.

(** ** The hash table and the ordered table meet the interface *)
Section Instances.
Variable chain_size : Z.

Lemma hash_flush_chain tx l : forall h k,
  MemoryHashTable.data (MemoryHashTable.flush chain_size tx l h) !! k
    = foldl (push_change tx) (MemoryHashTable.data h !! k) (changes_of k l).
Proof.
  unfold MemoryHashTable.flush, changes_of. induction l as [|[k' c] l IH]; intros h k; [done|].
  simpl foldl at 1. rewrite IH, filter_cons. simpl.
  assert (Hk : forall x, MemoryHashTable.data
      (MemoryHashTable.set_data (<[k' := x]> (MemoryHashTable.data h)) 0 h) !! k
      = if decide (k' = k) then Some x else MemoryHashTable.data h !! k).
  { intros x. simpl. case_decide as Hd; [subst; by rewrite lookup_insert_eq|by rewrite lookup_insert_ne]. }
  case_decide as Hd; simpl; [subst k'|]; destruct c as [v|]; simpl.
  - by rewrite lookup_insert_eq.
  - destruct (MemoryHashTable.data h !! k) as [c0|] eqn:Hc; simpl; [by rewrite lookup_insert_eq|by rewrite Hc].
  - by rewrite lookup_insert_ne.
  - destruct (MemoryHashTable.data h !! k') as [c0|]; simpl; [by rewrite lookup_insert_ne|done].
Qed.

#[refine] Instance hash_versioned : VersionedTable MemoryHashTable.t := {|
  chain_of h k := MemoryHashTable.data h !! k;
  transact tx l lsn h := MemoryHashTable.commit_versions tx lsn (MemoryHashTable.flush chain_size tx l h);
  supported _ := True |}.
Proof. intros tx l lsn h k _. simpl. by rewrite lookup_fmap, hash_flush_chain. Defined.

Definition puts (l : list change) : Prop := Forall (fun x => is_Some x.2) l.

Lemma btree_flush_chain tx l : puts l -> forall b k,
  BTreeMap.get (MemoryBTree.data (foldl (MemoryBTree.flush_one chain_size tx) b l)) k
    = foldl (push_change tx) (BTreeMap.get (MemoryBTree.data b) k) (changes_of k l).
Proof.
  unfold changes_of. induction 1 as [|[k' c] l [v Hv] _ IH]; intros b k; [done|].
  simpl in Hv. subst c. simpl foldl at 1. rewrite IH, filter_cons. simpl.
  rewrite BTreeMap.get_insert, BTreeMap.get_remove. case_decide as Hd; simpl; [subst k'|].
  - rewrite bytes_eqb_refl. f_equal. by destruct (BTreeMap.get _ k).
  - assert (bytes_eqb k k' = false) as ->; [|done].
    destruct (bytes_eqb k k') eqn:He; [|done]. by apply bytes_eqb_true in He.
Qed.

(** In a history of puts no change is a deletion. *)
Lemma last_change_puts l k lsn : forall acc,
  Forall (fun x => puts (txn_changes x)) l -> acc <> Some None -> last_change l k lsn acc <> Some None.
Proof.
  induction l as [|x l IH]; intros acc Hp Ha; simpl; [done|]. apply Forall_cons in Hp as [Hx Hp].
  apply IH; [done|]. destruct (txn_lsn x <=? lsn); [|done].
  destruct (list.last (changes_of k (txn_changes x))) as [c|] eqn:Hl; [|done].
  apply last_Some_elem_of in Hl. unfold changes_of in Hl.
  apply list_elem_of_fmap in Hl as (y & -> & [_ Hy]%list_elem_of_filter).
  unfold puts in Hx. rewrite Forall_forall in Hx. destruct (Hx y Hy) as [v ->]. done.
Qed.

Definition btree_transact (tx : TransactionId) (l : list change) (lsn : LogSequenceNumber)
    (b : MemoryBTree.t) : MemoryBTree.t :=
  let w := MemoryBTree.push (MemoryBTree.writer tx lsn) l in
  MemoryBTree.commit_versions w lsn (MemoryBTree.flush chain_size b w).1.

#[refine] Instance btree_versioned : VersionedTable MemoryBTree.t := {|
  chain_of b k := BTreeMap.get (MemoryBTree.data b) k;
  transact := btree_transact;
  supported := puts |}.
Proof. intros tx l lsn b k Hl. simpl. by rewrite BTreeMap.get_map_values, btree_flush_chain. Defined.

(** An empty value and a deletion read alike. *)
Definition filled (o : option bytes) : option bytes :=
  match o with Some v => if zlen v =? 0 then None else Some v | None => None end.
Definition value_of (o : option (option bytes)) : option bytes :=
  match o with Some (Some v) => Some v | _ => None end.

Definition hash_history (id : TableId) (name : string) (l : list txn) : MemoryHashTable.t :=
  foldl (fun h x => MemoryHashTable.commit_versions (txn_id x) (txn_lsn x)
                      (MemoryHashTable.flush chain_size (txn_id x) (txn_changes x) h))
    (MemoryHashTable.new id name) l.
Definition btree_history (id : TableId) (name : string) (l : list txn) : MemoryBTree.t :=
  foldl (fun b x => btree_transact (txn_id x) (txn_changes x) (txn_lsn x) b) (MemoryBTree.new id name) l.

(** C40: the hash table is a multi-version store: after any sequence of
    transactions, each flushed and committed at its LSN, a read at an LSN
    returns the last value put at or below it, and nothing when the last
    change at or below it is a deletion or there is none; an empty value
    reads as a deletion. *)
Theorem hash_reads_history id name l k lsn :
  MemoryHashTable.get (hash_history id name l) k lsn = filled (value_of (last_change l k lsn None)).
Proof.
  pose proof (history_reads (T := MemoryHashTable.t) l (MemoryHashTable.new id name) k lsn None) as Hr.
  change (run_history (MemoryHashTable.new id name) l) with (hash_history id name l) in Hr.
  unfold MemoryHashTable.get. simpl in Hr. specialize (Hr ltac:(by apply Forall_true) I eq_refl).
  destruct (MemoryHashTable.data _ !! k) as [c|]; unfold Reads.shown in Hr;
    destruct (last_change l k lsn None) as [[v|]|]; simpl in *; try done.
  - by rewrite Hr.
  - destruct Hr as [-> | ->]; done.
  - by rewrite Hr.
Qed.

(** The ordered table is a multi-version store for transactions that
    put: a read at an LSN returns the last value put at or below it. *)
Theorem btree_reads_history id name l k lsn (Hputs : Forall (fun x => puts (txn_changes x)) l) :
  MemoryBTree.get (btree_history id name l) k lsn = value_of (last_change l k lsn None).
Proof.
  pose proof (history_reads (T := MemoryBTree.t) l (MemoryBTree.new id name) k lsn None Hputs I eq_refl) as Hr.
  change (run_history (MemoryBTree.new id name) l) with (btree_history id name l) in Hr.
  unfold MemoryBTree.get. simpl in Hr.
  change (match BTreeMap.get (MemoryBTree.data (btree_history id name l)) k with
          | Some c => _ | None => None end)
    with (Reads.shown (BTreeMap.get (MemoryBTree.data (btree_history id name l)) k) lsn).
  destruct (last_change l k lsn None) as [[v|]|] eqn:Hl; simpl in *; try done.
  by destruct (last_change_puts l k lsn None Hputs).
Qed.
End Instances.

Lemma btree_reads_history_witness :
  exists l, Forall (fun x => puts (txn_changes x)) l /\ MemoryBTree.get (btree_history 96 1 "t" l) [7] 5 = Some [2].
Proof.
  exists [mkTxn 1 [([7], Some [1]); ([7], Some [2])] 5; mkTxn 2 [([7], Some [3])] 9].
  assert (Hp : Forall (fun x => puts (txn_changes x))
    [mkTxn 1 [([7], Some [1]); ([7], Some [2])] 5; mkTxn 2 [([7], Some [3])] 9])
    by (repeat constructor; eauto).
  split; [exact Hp|]. rewrite btree_reads_history by exact Hp. vm_compute. reflexivity.
Defined.

(** ** Scans of the ordered table *)
Module Scan.
Import MemoryBTree.

(** The entries a cursor visits: the one it is on, then those of [next]. *)
Fixpoint collect (fuel : nat) (b : t) (c : Cursor) : list (bytes * bytes) :=
  match fuel with
  | O => []
  | S fuel =>
      match exhausted c, current_key c, current_value c with
      | false, Some k, Some v => (k, v) :: collect fuel b (next b c)
      | _, _, _ => []
      end
  end.

(** What a scan should return: the entries within the bounds with a value
    visible at the LSN, in key order. *)
Definition in_bounds (s : ScanBounds) (key : bytes) : bool :=
  match s with
  | All => true
  | Prefix p => starts_with key p
  | Range start stop => BTreeMap.above start key && BTreeMap.below stop key
  end.
Definition visible_entry (s : ScanBounds) (lsn : LogSequenceNumber) (x : bytes * VersionChain.t)
    : option (bytes * bytes) :=
  if in_bounds s x.1
  then (fun v => (x.1, v)) <$> VersionChain.find_visible_inline x.2 (read_snapshot lsn)
  else None.
Definition entries (s : ScanBounds) (lsn : LogSequenceNumber) (b : t) : list (bytes * bytes) :=
  omap (visible_entry s lsn) (data b).

(** Lists of entries whose out-of-bounds keys all come after the others. *)
Definition closes (s : ScanBounds) (l : list (bytes * VersionChain.t)) : Prop :=
  StronglySorted (fun x y => in_bounds s x.1 = false -> in_bounds s y.1 = false) l.

(** A scan with an excluded start key that is in the table begins on a key
    out of bounds and ends there. *)
Definition starts_within (s : ScanBounds) (b : t) : Prop :=
  match s with Range (Excluded k) _ => BTreeMap.get (data b) k = None | _ => True end.

Lemma above_mono lo k k' : BTreeMap.above lo k = true -> key_lt k k' -> BTreeMap.above lo k' = true.
Proof.
  destruct lo as [a|a|]; simpl; [|intros Ha Hk; exact (key_lt_trans _ _ _ Ha Hk)|done].
  intros Ha Hk. apply key_leb_spec. right. by eapply key_le_lt_trans.
Qed.
Lemma below_mono hi k k' : BTreeMap.below hi k = false -> key_lt k k' -> BTreeMap.below hi k' = false.
Proof.
  destruct hi as [a|a|]; simpl; [|  |done].
  - rewrite !key_leb_false. apply key_lt_trans.
  - rewrite !key_ltb_false. intros [->|Ha] Hk; right; [done|by eapply key_lt_trans].
Qed.

(** The entries from a bound on are the tail of the table. *)
Lemma filter_above lo (m : BTreeMap.t VersionChain.t) : BTreeMap.sorted m ->
  exists pre, m = pre ++ filter (fun x => BTreeMap.above lo x.1 = true) m /\
    Forall (fun x => BTreeMap.above lo x.1 = false) pre.
Proof.
  unfold BTreeMap.sorted. induction m as [|x m IH]; simpl; intros Hs; [by exists []|].
  inversion Hs as [|?? Hs' Hall]; subst. rewrite filter_cons. case_decide as Hd.
  - exists []. split; [|done]. simpl. f_equal. symmetry. apply filter_every, Forall_forall. intros y Hy.
    apply above_mono with x.1; [done|]. rewrite Forall_forall in Hall. apply Hall.
    apply list_elem_of_fmap. by exists y.
  - destruct (IH Hs') as (pre & Hm & Hp). exists (x :: pre). split; [by simpl; f_equal|].
    constructor; [by apply not_true_is_false|done].
Qed.

Lemma sorted_app_r (l m : BTreeMap.t VersionChain.t) :
  BTreeMap.sorted (l ++ m) -> BTreeMap.sorted m.
Proof. unfold BTreeMap.sorted, BTreeMap.keys. rewrite map_app. by intros (_ & _ & ?)%StronglySorted_app. Qed.

Lemma next_entries b pre k ch l : BTreeMap.sorted (data b) -> data b = pre ++ (k, ch) :: l ->
  drop 1 (entries_from b (Included k)) = l.
Proof.
  intros Hs Hd. unfold entries_from. rewrite Hd in *.
  unfold BTreeMap.sorted, BTreeMap.keys in Hs. rewrite map_app in Hs.
  apply StronglySorted_app in Hs as (Hx & _ & Hs). simpl in Hs. inversion Hs as [|?? Hs' Hall]; subst.
  rewrite filter_app, (filter_none _ pre).
  - simpl. rewrite filter_cons. case_decide as Hk; simpl.
    + rewrite drop_0. apply filter_every, Forall_forall. intros y Hy. simpl. apply key_leb_spec. right.
      rewrite Forall_forall in Hall. apply Hall, list_elem_of_fmap. by exists y.
    + destruct Hk. apply key_leb_spec. by left.
  - apply Forall_forall. intros y Hy. simpl. rewrite key_leb_spec. intros Hk.
    assert (Hlt : key_lt y.1 k).
    { apply Hx; [apply list_elem_of_fmap; by exists y|]. apply list_elem_of_fmap. exists (k, ch). split; [done|left]. }
    destruct Hk as [->|Hk]; [by apply key_lt_irrefl in Hlt|by apply key_lt_asym in Hlt].
Qed.

Lemma closed_out s lsn k ch l :
  closes s ((k, ch) :: l) -> in_bounds s k = false -> omap (visible_entry s lsn) l = [].
Proof.
  intros Hc Hk. inversion Hc as [|?? _ Hall]; subst. induction l as [|y l IH]; [done|].
  apply Forall_cons in Hall as [Hy Hall]. simpl. unfold visible_entry at 1. rewrite Hy by done.
  apply IH; [|done]. inversion Hc as [|?? Hc' _]; subst. inversion Hc'; subst. by constructor.
Qed.

Lemma collect_advance b s lsn l : BTreeMap.sorted (data b) -> closes s l ->
  forall pre c fuel, data b = pre ++ l -> bounds c = s -> c_snapshot_lsn c = lsn ->
  (length l < fuel)%nat ->
  collect fuel b (advance c l) = omap (visible_entry s lsn) l.
Proof.
  intros Hs. induction l as [|[k ch] l IH]; intros Hc pre c fuel Hd Hb Hl Hf.
  { by destruct fuel. }
  simpl. change (is_in_bounds c k) with (in_bounds (bounds c) k).
  unfold visible_entry, find_visible_value. simpl. rewrite Hb, Hl.
  destruct (in_bounds s k) eqn:Hi; simpl.
  - assert (Hc' : closes s l) by (by inversion Hc). assert (Hd' : data b = (pre ++ [(k, ch)]) ++ l).
    { by rewrite <- app_assoc. }
    simpl in Hf. destruct (VersionChain.find_visible_inline _ _) as [v|]; simpl.
    + destruct fuel as [|fuel]; [lia|]. simpl. f_equal. unfold next. simpl.
      rewrite (next_entries b pre k ch l) by done. eapply IH; simpl; eauto. lia.
    + eapply IH; eauto. lia.
  - etrans; [|symmetry; by apply (closed_out s lsn k ch l)]. by destruct fuel.
Qed.

(** On entries that are all above the start, a key out of bounds is past the end. *)
Lemma closes_from s (l : BTreeMap.t VersionChain.t) : BTreeMap.sorted l ->
  Forall (fun x => match s with
                   | All => True
                   | Prefix p => key_leb p x.1 = true
                   | Range start _ => BTreeMap.above start x.1 = true
                   end) l -> closes s l.
Proof.
  unfold BTreeMap.sorted, closes. induction l as [|x l IH]; intros Hs Hf; [constructor|].
  apply Forall_cons in Hf as [Hx Hf]. inversion Hs as [|?? Hs' Hall]; subst.
  constructor; [by apply IH|]. apply Forall_forall. intros y Hy.
  assert (Hlt : key_lt x.1 y.1).
  { rewrite Forall_forall in Hall. apply Hall, list_elem_of_fmap. by exists y. }
  destruct s as [|p|start stop]; simpl; [done| |].
  - intros Ho. by eapply starts_with_past.
  - rewrite Hx. simpl. intros Ho. rewrite (below_mono _ _ _ Ho Hlt). apply andb_false_r.
Qed.

Lemma omap_out s lsn (l : BTreeMap.t VersionChain.t) :
  Forall (fun x => in_bounds s x.1 = false) l -> omap (visible_entry s lsn) l = [].
Proof. induction 1 as [|x l Hx _ IH]; [done|]. simpl. unfold visible_entry at 1. by rewrite Hx. Qed.

(** The entries [first] walks over: a tail of the table that closes, behind
    entries that are out of bounds. *)
Definition first_entries (b : t) (s : ScanBounds) : BTreeMap.t VersionChain.t :=
  match start_key s with Some k => entries_from b (Included k) | None => data b end.

Lemma first_entries_spec b s : BTreeMap.sorted (data b) -> starts_within s b ->
  closes s (first_entries b s) /\
  exists pre, data b = pre ++ first_entries b s /\ Forall (fun x => in_bounds s x.1 = false) pre.
Proof.
  intros Hs Hw. unfold first_entries. destruct (start_key s) as [k|] eqn:Hk.
  - destruct (filter_above (Included k) (data b) Hs) as (pre & Hd & Hp). fold (entries_from b (Included k)) in Hd.
    assert (Hin : Forall (fun x => key_leb k x.1 = true) (entries_from b (Included k))).
    { apply Forall_forall. intros x [Hx _]%list_elem_of_filter. done. }
    split.
    + apply closes_from; [rewrite Hd in Hs; by eapply sorted_app_r|].
      destruct s as [|p|[a|a|] stop]; simplify_eq/=; [done|done|].
      rewrite Forall_forall in Hin |- *. intros x Hx. specialize (Hin x Hx).
      apply key_leb_spec in Hin as [->|?]; [|done]. exfalso.
      apply BTreeMap.get_None in Hw. apply Hw, list_elem_of_fmap. exists x. split; [done|].
      by apply list_elem_of_filter in Hx as [_ ?].
    + exists pre. split; [done|]. eapply Forall_impl; [exact Hp|]. intros x Hx. simpl in Hx.
      destruct s as [|p|[a|a|] stop]; simplify_eq/=.
      * apply not_true_is_false. intros Hst%starts_with_ge. congruence.
      * by rewrite Hx.
      * apply key_leb_false in Hx. rewrite (proj2 (key_ltb_false k x.1)); [done|by right].
  - split; [|by exists []]. apply closes_from; [done|]. apply Forall_forall.
    intros x _. by destruct s as [|p|[a|a|] stop].
Qed.

Lemma collect_scan b s lsn fuel : BTreeMap.sorted (data b) -> starts_within s b ->
  (length (data b) < fuel)%nat -> collect fuel b (scan b s lsn) = entries s lsn b.
Proof.
  intros Hs Hw Hf. destruct (first_entries_spec b s Hs Hw) as (Hc & pre & Hd & Hp).
  unfold scan, first. simpl. fold (first_entries b s).
  rewrite (collect_advance b s lsn _ Hs Hc pre) by
    (done || (apply (f_equal length) in Hd; rewrite length_app in Hd; lia)).
  unfold entries. rewrite Hd. by rewrite omap_app, (omap_out s lsn pre Hp).
Qed.

(** A scan whose excluded start is a key of the table begins on that key,
    which is out of bounds, and ends there. *)
Definition starts_on_key (s : ScanBounds) (b : t) : bool :=
  match s with Range (Excluded k) _ => bool_decide (is_Some (BTreeMap.get (data b) k)) | _ => false end.

Lemma starts_on_key_false s b : starts_on_key s b = false -> starts_within s b.
Proof.
  unfold starts_on_key, starts_within. destruct s as [|p|[k|k|] stop]; try done.
  intros Hk%bool_decide_eq_false. by apply eq_None_not_Some.
Qed.

Lemma entries_from_key b k ch : BTreeMap.sorted (data b) -> BTreeMap.get (data b) k = Some ch ->
  exists l, entries_from b (Included k) = (k, ch) :: l.
Proof.
  intros Hs Hg. apply BTreeMap.get_elem in Hg; [|done].
  destruct (filter_above (Included k) (data b) Hs) as (pre & Hd & _). fold (entries_from b (Included k)) in Hd.
  rewrite Hd in Hs. apply sorted_app_r in Hs. unfold BTreeMap.sorted, BTreeMap.keys in Hs.
  assert (Hin : (k, ch) ∈ entries_from b (Included k)).
  { apply list_elem_of_filter. split; [|done]. apply key_leb_spec. by left. }
  assert (Hle : Forall (fun x => key_leb k x.1 = true) (entries_from b (Included k))).
  { apply Forall_forall. intros x [Hx _]%list_elem_of_filter. done. }
  destruct (entries_from b (Included k)) as [|x l]; [by apply elem_of_nil in Hin|]. exists l.
  apply elem_of_cons in Hin as [->|Hin]; [done|]. exfalso.
  inversion Hs as [|?? _ Hall]; subst. rewrite Forall_forall in Hall.
  assert (Hlt : key_lt x.1 k) by (apply Hall, list_elem_of_fmap; by exists (k, ch)).
  apply Forall_cons in Hle as [[Hx|Hx]%key_leb_spec _].
  - rewrite Hx in Hlt. by apply key_lt_irrefl in Hlt.
  - by apply key_lt_asym in Hlt.
Qed.

Lemma collect_scan_out b s lsn fuel : BTreeMap.sorted (data b) -> starts_on_key s b = true ->
  collect fuel b (scan b s lsn) = [].
Proof.
  intros Hs Hk. unfold starts_on_key in Hk. destruct s as [|p|[k|k|] stop]; try done.
  apply bool_decide_eq_true in Hk as [ch Hk]. destruct (entries_from_key b k ch Hs Hk) as (l & Hl).
  assert (Hout : in_bounds (Range (Excluded k) stop) k = false)
    by (simpl; by rewrite (proj2 (key_ltb_false k k)) by by left).
  unfold scan, first. simpl. rewrite Hl. simpl.
  match goal with |- context [is_in_bounds ?c k] => change (is_in_bounds c k) with (in_bounds (bounds c) k) end.
  simpl bounds. rewrite Hout. simpl. by destruct fuel.
Qed.

(** A scan of the ordered table returns exactly the entries within its
    bounds whose value is visible at its LSN, each once and in key order: a
    cursor put on the first entry and moved by [next] until it is exhausted
    visits them all.  The table's keys are in order, and an excluded start is
    not a key of the table. *)
Theorem scan_collects b s lsn fuel (Hs : BTreeMap.sorted (data b)) (Hw : starts_within s b)
    (Hf : (length (data b) < fuel)%nat) :
  collect fuel b (scan b s lsn) = entries s lsn b.
Proof. by apply collect_scan. Qed.

(** The table of the examples: three keys, the middle one committed later. *)
Definition sample : t :=
  let put k v tx l b := commit_versions (writer tx l) l (flush 96 b (push (writer tx l) [(k, Some v)])).1 in
  put [1] [10] 1 1 (put [2] [20] 2 7 (put [3] [30] 3 3 (new 1 "t"))).

Lemma scan_collects_witness :
  starts_within (Range (Excluded [0]) Unbounded) sample /\
  collect 4 sample (scan sample (Range (Excluded [0]) Unbounded) 5) = [([1], [10]); ([3], [30])].
Proof.
  split; [reflexivity|].
  rewrite scan_collects; [reflexivity| |reflexivity|vm_compute; lia].
  vm_compute. repeat constructor.
Defined.

(** A scan that excludes a start key of the table returns nothing at all. *)
Example excluded_start_is_empty :
  collect 4 sample (scan sample (Range (Excluded [1]) Unbounded) 9) = [] /\
  entries (Range (Excluded [1]) Unbounded) 9 sample = [([2], [20]); ([3], [30])].
Proof. split; reflexivity. Qed.
End Scan.

(** ** The keys of the ordered table stay in order *)
Section Order.
Variable chain_size : Z.
Import MemoryBTree.

Lemma sorted_flush b w : BTreeMap.sorted (data b) -> BTreeMap.sorted (data (flush chain_size b w).1).
Proof.
  unfold flush. simpl. generalize (pending_changes w). intros l. revert b.
  induction l as [|[k c] l IH]; intros b Hs; simpl; [done|]. apply IH.
  unfold flush_one. destruct c as [v|]; simpl.
  - by apply BTreeMap.sorted_insert, BTreeMap.sorted_remove.
  - destruct (BTreeMap.get _ k); simpl; [by apply BTreeMap.sorted_remove|done].
Qed.

Lemma sorted_commit w lsn b : BTreeMap.sorted (data b) -> BTreeMap.sorted (data (commit_versions w lsn b)).
Proof. apply BTreeMap.sorted_map_values. Qed.
Lemma sorted_vacuum m b : BTreeMap.sorted (data b) -> BTreeMap.sorted (data (vacuum m b).2).
Proof. apply BTreeMap.sorted_map_values. Qed.
Lemma sorted_insert_entry k p tx lsn b :
  BTreeMap.sorted (data b) -> BTreeMap.sorted (data (insert_entry chain_size k p tx lsn b)).
Proof. intros Hs. by apply BTreeMap.sorted_insert, BTreeMap.sorted_remove. Qed.
Lemma sorted_delete_entry k p b :
  BTreeMap.sorted (data b) -> BTreeMap.sorted (data (delete_entry chain_size k p b)).
Proof.
  intros Hs. unfold delete_entry. repeat case_match; [|done..]. by apply BTreeMap.sorted_remove.
Qed.

Lemma sorted_history id name l : BTreeMap.sorted (data (btree_history chain_size id name l)).
Proof.
  unfold btree_history. assert (Hn : BTreeMap.sorted (data (new id name))) by constructor.
  revert Hn. generalize (new id name). induction l as [|x l IH]; intros b Hs; simpl; [done|].
  apply IH, sorted_commit, sorted_flush, Hs.
Qed.
End Order.

(** ** The write buffer of the LSM tree *)
Section MemtableLaws.
Variables chain_size ref_size : Z.
Import Memtable.

Lemma visible_at_commit_opt v tx o p lsn :
  visible_at (commit_opt (VersionChain.mk v tx None p) o) lsn
    = if match o with Some l => l <=? lsn | None => false end then Some v
      else match p with Some c => visible_at c lsn | None => None end.
Proof. by destruct o. Qed.

(** An insertion into the memtable either puts a version in front of the
    key's chain, which every read at or above its commit LSN then returns and
    no other read sees, and keeps the memory counted within the limit; or it
    is refused, because the table is frozen or because the counted memory
    would exceed the limit, and changes nothing.  It never panics. *)
Theorem memtable_insert_spec key value tx o m :
  match insert chain_size ref_size key value tx o m with
  | (Ok _, m') =>
      immutable m = false /\ memory_usage m' <= max_size m' /\
      forall q lsn, get m' q lsn
        = if bytes_eqb q key && match o with Some l => l <=? lsn | None => false end
          then Ok (Some value) else get m q lsn
  | (Err e, m') =>
      m' = m /\ ((e = MemtableImmutable /\ immutable m = true) \/ (e = MemtableFull /\ immutable m = false))
  | (Panic, _) => False
  end.
Proof.
  unfold insert, gets, lift, modify, ensure, mbind, stateful_bind.
  destruct (immutable m) eqn:Hi; simpl; [by auto|]. destruct (BTreeMap.get (data m) key) as [c|] eqn:Hg; simpl;
    (match goal with |- context [?a <=? max_size m] => destruct (Z.leb_spec a (max_size m)) end;
       simpl; [|by auto]);
    (split; [done|]; split; [done|]); intros q lsn; unfold get; simpl;
    rewrite BTreeMap.get_insert; destruct (bytes_eqb q key) eqn:Hq; simpl; try done;
    apply bytes_eqb_true in Hq as ->; rewrite Hg;
    unfold VersionChain.prepend, VersionChain.new; rewrite visible_at_commit_opt;
    by destruct o as [l|]; [destruct (l <=? lsn)|].
Qed.
End MemtableLaws.
