(* ===== verification/Transaction.v ===== *)
(** * Transactions ([src/txn/transaction.rs])

    A transaction buffers its writes, locks their keys in the conflict
    detector and logs them; [commit] logs PREPARE and COMMIT, applies the
    buffered writes to the tables and makes their versions visible.  The
    shared objects (detector, log, tables, current LSN) are the [World].

    The ordered table and the hash table in memory are the models of
    [MemTables]; the other kinds of table are reached through [TableEngines],
    the calls a transaction makes on them.  Hash maps and hash sets are
    iterated in an order that is an argument.  Metrics are left out; a
    formatted error is [Other]. *)
From S2P Require Import Prelude Types Vfs PagerConfig WalRecord WalReader WalWriter Mvcc Conflict OrdMap MemTables.

(** The kinds of [TableEngineInstance] that are not modelled themselves. *)
Inductive EngineKind : Type :=
  | AppendLog | PagedBTree | LsmTree | PagedBloomFilter | PagedHnswVector | PagedRTree
  | TimeSeriesTable | PagedFullTextIndex | PagedBlob | MemoryGraphTable | MemoryBlob | MemoryART.

#[global] Instance EngineKind_eq_dec : EqDecision EngineKind.
Proof. solve_decision. Defined.

(** Buffered operations on specialty tables; a float stands for its bits. *)
Inductive GraphEdgeOp : Type :=
  | AddEdge (source label target edge_id : bytes)
  | RemoveEdge (source label target edge_id : bytes).
Inductive TimeSeriesOp : Type :=
  | AppendPoint (series_key : bytes) (timestamp : Z) (value_key : bytes)
  | DeletePoint (series_key : bytes) (timestamp : Z) (value_key : bytes).
Inductive VectorOp : Type :=
  | InsertVector (id : bytes) (vector : list Z)
  | DeleteVector (id : bytes).
Inductive SerializedGeometry : Type :=
  | GPoint (x y : Z)
  | GBoundingBox (min_x min_y max_x max_y : Z)
  | GWkb (wkb : bytes).
Inductive GeoSpatialOp : Type :=
  | InsertGeometry (id : bytes) (geometry : SerializedGeometry)
  | DeleteGeometry (id : bytes).
Inductive FullTextOp : Type :=
  | IndexDocument (doc_id : bytes) (fields : list (string * string * Z))
  | UpdateDocument (doc_id : bytes) (fields : list (string * string * Z))
  | DeleteDocument (doc_id : bytes).

(** One call on a specialty table. *)
Inductive SpecialtyOp : Type :=
  | OnBloom (key : bytes)
  | OnGraph (op : GraphEdgeOp)
  | OnTimeSeries (op : TimeSeriesOp)
  | OnVector (op : VectorOp)
  | OnGeoSpatial (op : GeoSpatialOp)
  | OnFullText (op : FullTextOp).

(** The table an operation is for. *)
Definition specialty_kind (op : SpecialtyOp) : EngineKind :=
  match op with
  | OnBloom _ => PagedBloomFilter
  | OnGraph _ => MemoryGraphTable
  | OnTimeSeries _ => TimeSeriesTable
  | OnVector _ => PagedHnswVector
  | OnGeoSpatial _ => PagedRTree
  | OnFullText _ => PagedFullTextIndex
  end.

(** What a transaction calls on a table of another kind: a point read at an
    LSN, the membership test of a Bloom filter, the keys of a scan, a put or
    deletion with its flush, an operation of a specialty table, the tombstone
    of a Bloom filter key or of a point of a series, and the commit of the
    versions of a transaction. *)
Class TableEngines (E : Type) : Type := {
  engine_get : EngineKind -> E -> bytes -> LogSequenceNumber -> outcome TransactionError (option bytes);
  engine_might_contain : E -> bytes -> outcome TransactionError bool;
  engine_scan : EngineKind -> E -> ScanBounds -> LogSequenceNumber -> outcome TransactionError (list bytes);
  engine_write : EngineKind -> TransactionId -> LogSequenceNumber -> bytes -> option bytes ->
                 stateful E TransactionError unit;
  engine_special : TransactionId -> LogSequenceNumber -> SpecialtyOp -> stateful E TransactionError unit;
  engine_add_tombstone : TransactionId -> bytes -> option Z -> stateful E TransactionError unit;
  engine_commit_versions : EngineKind -> TransactionId -> LogSequenceNumber ->
                           stateful E TransactionError unit }.

(** A registry that only has the modelled tables. *)
#[global] Instance no_other_engines : TableEngines Empty_set := {|
  engine_get _ (e : Empty_set) := match e with end;
  engine_might_contain (e : Empty_set) := match e with end;
  engine_scan _ (e : Empty_set) := match e with end;
  engine_write _ _ _ _ _ := fun e : Empty_set => match e with end;
  engine_special _ _ _ := fun e : Empty_set => match e with end;
  engine_add_tombstone _ _ _ := fun e : Empty_set => match e with end;
  engine_commit_versions _ _ _ := fun e : Empty_set => match e with end |}.

Module Transaction.

Inductive TableEngineInstance (E : Type) : Type :=
  | EMemoryBTree (b : MemoryBTree.t)
  | EMemoryHashTable (h : MemoryHashTable.t)
  | EOther (k : EngineKind) (e : E).
#[global] Arguments EMemoryBTree {E}.
#[global] Arguments EMemoryHashTable {E}.
#[global] Arguments EOther {E}.

Inductive TransactionState : Type := Active | Preparing | Committed | Aborted.
#[global] Instance TransactionState_eq_dec : EqDecision TransactionState.
Proof. solve_decision. Defined.
Definition as_str (s : TransactionState) : string :=
  match s with
  | Active => "Active" | Preparing => "Preparing" | Committed => "Committed" | Aborted => "Aborted"
  end.

Record CommitInfo : Type := mkInfo {
  info_tx_id : TransactionId; commit_lsn : LogSequenceNumber; durable_lsn : option LogSequenceNumber }.

(** The fields of the struct that are the transaction's own. *)
Record t : Type := mk {
  txn_id : TransactionId;
  snapshot_lsn : LogSequenceNumber;
  isolation : IsolationLevel;
  durability : Durability;
  state : TransactionState;
  read_set : gset (Z * list Z);
  write_set : gmap (Z * list Z) (option bytes);
  bloom_write_set : gset (Z * list Z);
  graph_write_set : list (TableId * GraphEdgeOp);
  timeseries_write_set : list (TableId * TimeSeriesOp);
  vector_write_set : list (TableId * VectorOp);
  geospatial_write_set : list (TableId * GeoSpatialOp);
  fulltext_write_set : list (TableId * FullTextOp) }.

Definition build (txn_id : TransactionId) (snapshot_lsn : LogSequenceNumber)
    (isolation : IsolationLevel) (durability : Durability) : t :=
  mk txn_id snapshot_lsn isolation durability Active ∅ ∅ ∅ [] [] [] [] [].

Definition set_state (st : TransactionState) (x : t) : t :=
  mk (txn_id x) (snapshot_lsn x) (isolation x) (durability x) st (read_set x) (write_set x)
     (bloom_write_set x) (graph_write_set x) (timeseries_write_set x) (vector_write_set x)
     (geospatial_write_set x) (fulltext_write_set x).
Definition set_read_set (r : gset (Z * list Z)) (x : t) : t :=
  mk (txn_id x) (snapshot_lsn x) (isolation x) (durability x) (state x) r (write_set x)
     (bloom_write_set x) (graph_write_set x) (timeseries_write_set x) (vector_write_set x)
     (geospatial_write_set x) (fulltext_write_set x).
Definition set_write_set (ws : gmap (Z * list Z) (option bytes)) (x : t) : t :=
  mk (txn_id x) (snapshot_lsn x) (isolation x) (durability x) (state x) (read_set x) ws
     (bloom_write_set x) (graph_write_set x) (timeseries_write_set x) (vector_write_set x)
     (geospatial_write_set x) (fulltext_write_set x).

Definition record_read (object_id : TableId) (key : bytes) (x : t) : t :=
  match isolation x with
  | Serializable | RepeatableRead => set_read_set ({[(object_id, key)]} ∪ read_set x) x
  | _ => x
  end.
Definition record_write (object_id : TableId) (key value : bytes) (x : t) : t :=
  set_write_set (<[(object_id, key) := Some value]> (write_set x)) x.
Definition record_delete (object_id : TableId) (key : bytes) (x : t) : t :=
  set_write_set (<[(object_id, key) := None]> (write_set x)) x.
(** [record_bloom_insert], [record_graph_operation] and the like. *)
Definition record_special (object_id : TableId) (op : SpecialtyOp) (x : t) : t :=
  mk (txn_id x) (snapshot_lsn x) (isolation x) (durability x) (state x) (read_set x) (write_set x)
     (match op with OnBloom key => {[(object_id, key)]} ∪ bloom_write_set x | _ => bloom_write_set x end)
     (graph_write_set x ++ match op with OnGraph g => [(object_id, g)] | _ => [] end)
     (timeseries_write_set x ++ match op with OnTimeSeries g => [(object_id, g)] | _ => [] end)
     (vector_write_set x ++ match op with OnVector g => [(object_id, g)] | _ => [] end)
     (geospatial_write_set x ++ match op with OnGeoSpatial g => [(object_id, g)] | _ => [] end)
     (fulltext_write_set x ++ match op with OnFullText g => [(object_id, g)] | _ => [] end).

Definition is_active (x : t) : bool := bool_decide (state x = Active).

(** The undo operations; [commit] collects those of values, keys, edges and
    the removals of vectors, geometries and documents. *)
Inductive UndoOperation : Type :=
  | RestoreValue (object_id : TableId) (key : bytes) (old_value : option bytes)
  | RestoreKey (object_id : TableId) (key old_value : bytes)
  | RemoveBloomEntry (object_id : TableId) (key : bytes)
  | RemoveGraphEdge (object_id : TableId) (source label target edge_id : bytes)
  | RestoreGraphEdge (object_id : TableId) (source label target edge_id : bytes)
  | RemoveTimeSeriesPoint (object_id : TableId) (series_key : bytes) (timestamp : Z) (value_key : bytes)
  | RemoveVector (object_id : TableId) (id : bytes)
  | RestoreVector (object_id : TableId) (id : bytes) (vector : list Z)
  | RemoveGeometry (object_id : TableId) (id : bytes)
  | RestoreGeometry (object_id : TableId) (id : bytes) (geometry : SerializedGeometry)
  | RemoveDocument (object_id : TableId) (doc_id : bytes)
  | RestoreDocument (object_id : TableId) (doc_id : bytes) (fields : list (string * string * Z)).

(** What a call takes from outside: the log's inputs, the iteration orders of
    the hash tables, and the group-commit coordinator. *)
Record Orders : Type := mkOrders {
  write_order : gmap (Z * list Z) (option bytes) -> list ((Z * list Z) * option bytes);
  set_order : gset (Z * list Z) -> list (Z * list Z);
  table_order : gset Z -> list Z }.

Section Transaction.
Context `{Codecs} {F : Type} `{FileOps F} {E : Type} `{TableEngines E} (chain_size : Z).

Abbreviation engine := (TableEngineInstance E).

(** ** Shared objects *)
Record World : Type := mkWorld {
  conflict_detector : ConflictDetector.t;
  wal : WalWriter.t F;
  registry : gmap Z engine;
  current_lsn : LogSequenceNumber }.

(** A transaction with the world it runs in. *)
Record Sys : Type := mkSys { world : World; self : t }.
Abbreviation M := (stateful Sys TransactionError).

Definition upd_world (f : World -> World) : M unit := modify (fun s => mkSys (f (world s)) (self s)).
Definition upd_self (f : t -> t) : M unit := modify (fun s => mkSys (world s) (f (self s))).
Definition set_detector (d : ConflictDetector.t) (w : World) : World :=
  mkWorld d (wal w) (registry w) (current_lsn w).
Definition set_wal (l : WalWriter.t F) (w : World) : World :=
  mkWorld (conflict_detector w) l (registry w) (current_lsn w).
Definition set_registry (r : gmap Z engine) (w : World) : World :=
  mkWorld (conflict_detector w) (wal w) r (current_lsn w).
Definition set_lsn (l : LogSequenceNumber) (w : World) : World :=
  mkWorld (conflict_detector w) (wal w) (registry w) l.

(** A call on the log; its error becomes [Other]. *)
Definition on_wal {A} (m : stateful (WalWriter.t F) WalError A) : M A := fun s =>
  let '(r, l) := m (wal (world s)) in
  (match r with Ok a => Ok a | Err _ => Err Other | Panic => Panic end,
   mkSys (set_wal l (world s)) (self s)).
(** A call on a table; nothing when the table is not registered. *)
Definition on_engine (object_id : TableId) (m : stateful engine TransactionError unit) : M unit := fun s =>
  match registry (world s) !! object_id with
  | Some e => let '(r, e') := m e in
              (r, mkSys (set_registry (<[object_id := e']> (registry (world s))) (world s)) (self s))
  | None => (Ok tt, s)
  end.
Definition on_other {A} (k : EngineKind) (m : stateful E TransactionError A)
    (e : E) : outcome TransactionError A * engine :=
  let '(r, e') := m e in (r, EOther k e').
Definition catch (m : M unit) (h : TransactionError -> M unit) : M unit := fun s =>
  match m s with (Err e, s') => h e s' | r => r end.
Fixpoint for_each {A} (f : A -> M unit) (l : list A) : M unit :=
  match l with [] => mret tt | x :: l => _ ← f x; for_each f l end.

Definition require_active (operation : string) : M unit :=
  x ← gets self;
  lift (ensure (is_active x) (InvalidState (txn_id x) (as_str (state x)) operation)).

(** ** Beginning *)
(** [new]; a failure to log BEGIN is ignored. *)
Definition new (e : WalWriter.Env) (id : TransactionId) (snapshot : LogSequenceNumber)
    (iso : IsolationLevel) (dur : Durability) (w : World) : Sys :=
  mkSys (set_wal (WalWriter.write_begin e id (wal w)).2 w) (build id snapshot iso dur).
Definition new_read_only (id : TransactionId) (snapshot : LogSequenceNumber) (iso : IsolationLevel)
    (w : World) : Sys :=
  mkSys w (build id snapshot iso WalOnly).

Definition prepare : M unit :=
  _ ← require_active "prepare"; upd_self (set_state Preparing).

(** ** Reading *)
Definition engine_read (e : engine) (key : bytes) (lsn : LogSequenceNumber)
    : outcome TransactionError (option bytes) :=
  match e with
  | EMemoryBTree b => Ok (MemoryBTree.get b key lsn)
  | EMemoryHashTable h => Ok (MemoryHashTable.get h key lsn)
  | EOther k e =>
      match k with
      | AppendLog | PagedBTree | LsmTree | MemoryART | MemoryBlob | PagedBlob => engine_get k e key lsn
      | PagedBloomFilter => c ← engine_might_contain e key; Ok (if c : bool then Some [] else None)
      | PagedHnswVector | PagedRTree | MemoryGraphTable | TimeSeriesTable | PagedFullTextIndex => Err Other
      end
  end.

Definition get (object : TableId) (key : bytes) : M (option bytes) :=
  _ ← require_active "get";
  s ← gets (fun s => s);
  match write_set (self s) !! (object, key) with
  | Some value_opt => mret value_opt
  | None =>
      match registry (world s) !! object with
      | Some e => lift (engine_read e key (snapshot_lsn (self s)))
      | None => mret None
      end
  end.

(** ** Writing *)
(** The lock on a key: the check and the acquisition under one mutex. *)
Definition lock_key (object : TableId) (key : bytes) : M unit :=
  s ← gets (fun s => s);
  let d := conflict_detector (world s) in
  _ ← lift (ConflictDetector.check_write_conflict d object key (txn_id (self s)));
  upd_world (set_detector (ConflictDetector.acquire_write_lock d object key (txn_id (self s)))).
Definition log_write (e : WalWriter.Env) (object : TableId) (op : WriteOpType.t) (key value : bytes) : M unit :=
  x ← gets self;
  _ ← on_wal (WalWriter.write_operation e (txn_id x) object op key value); mret tt.

Definition put (e : WalWriter.Env) (object : TableId) (key value : bytes) : M unit :=
  _ ← require_active "put";
  _ ← lock_key object key;
  _ ← log_write e object WriteOpType.Put key value;
  upd_self (record_write object key value).

(** [contains] of a reader is whether [get] returns a value; a Bloom filter
    answers by itself. *)
Definition engine_contains (e : engine) (key : bytes) (lsn : LogSequenceNumber)
    : outcome TransactionError bool :=
  v ← engine_read e key lsn; Ok (bool_decide (is_Some v)).

(** Whether a key is in the write set or in the table. *)
Definition key_existed (object : TableId) (key : bytes) : M bool :=
  s ← gets (fun s => s);
  if bool_decide (is_Some (write_set (self s) !! (object, key))) then mret true
  else match registry (world s) !! object with
       | Some en => lift (engine_contains en key (snapshot_lsn (self s)))
       | None => mret false
       end.

Definition delete (e : WalWriter.Env) (object : TableId) (key : bytes) : M bool :=
  _ ← require_active "delete";
  _ ← lock_key object key;
  existed ← key_existed object key;
  _ ← log_write e object WriteOpType.Delete key [];
  _ ← upd_self (record_delete object key);
  mret existed.

(** The loop over a cursor; the bound is one more than the table's keys. *)
Fixpoint cursor_keys (fuel : nat) (b : MemoryBTree.t) (c : MemoryBTree.Cursor) : list bytes :=
  match fuel with
  | O => []
  | S fuel =>
      if MemoryBTree.valid c
      then (match MemoryBTree.current_key c with Some k => [k] | None => [] end)
             ++ cursor_keys fuel b (MemoryBTree.next b c)
      else []
  end.
Definition scanned_keys (e : engine) (bounds : ScanBounds) (lsn : LogSequenceNumber)
    : outcome TransactionError (list bytes) :=
  match e with
  | EMemoryBTree b => Ok (cursor_keys (S (length (MemoryBTree.data b))) b (MemoryBTree.scan b bounds lsn))
  | EMemoryHashTable _ => Err Other
  | EOther k e =>
      match k with
      | AppendLog => Ok []
      | PagedBTree | LsmTree | MemoryART => engine_scan k e bounds lsn
      | _ => Err Other
      end
  end.

(** The inputs of the [i]-th record are [es i]. *)
Fixpoint delete_keys (es : nat -> WalWriter.Env) (i : nat) (object : TableId) (ks : list bytes) : M unit :=
  match ks with
  | [] => mret tt
  | key :: ks =>
      _ ← lock_key object key;
      _ ← log_write (es i) object WriteOpType.Delete key [];
      _ ← upd_self (record_delete object key);
      delete_keys es (S i) object ks
  end.
Definition range_delete (es : nat -> WalWriter.Env) (object : TableId) (bounds : ScanBounds) : M Z :=
  _ ← require_active "range_delete";
  s ← gets (fun s => s);
  keys_to_delete ← (match registry (world s) !! object with
                    | Some en => lift (scanned_keys en bounds (snapshot_lsn (self s)))
                    | None => mret []
                    end);
  _ ← delete_keys es 0 object keys_to_delete;
  mret (zlen keys_to_delete).

(** ** Committing *)
(** One put or deletion with the flush of its writer. *)
Definition apply_write (id : TransactionId) (lsn : LogSequenceNumber) (key : bytes) (value_opt : option bytes)
    : stateful engine TransactionError unit := fun e =>
  let w := MemoryBTree.writer id lsn in
  match e with
  | EMemoryBTree b =>
      let w := match value_opt with
               | Some value => (MemoryBTree.put key value w).2
               | None => (MemoryBTree.delete b key w).2
               end in
      (Ok tt, EMemoryBTree (MemoryBTree.flush chain_size b w).1)
  | EMemoryHashTable h =>
      let w := match value_opt with
               | Some value => (MemoryBTree.put key value w).2
               | None => (MemoryHashTable.writer_delete h key w).2
               end in
      (Ok tt, EMemoryHashTable (MemoryHashTable.flush chain_size id (MemoryBTree.pending_changes w) h))
  | EOther k e =>
      match k with
      | AppendLog | PagedBTree | LsmTree | MemoryART | MemoryBlob | PagedBlob =>
          on_other k (engine_write k id lsn key value_opt) e
      | _ => (Err Other, EOther k e)
      end
  end.

(** The value an undo of a write restores. *)
Definition old_value (e : engine) (key : bytes) (lsn : LogSequenceNumber)
    : outcome TransactionError (option bytes) :=
  match e with
  | EMemoryBTree _ | EMemoryHashTable _ | EOther PagedBTree _ | EOther LsmTree _ => engine_read e key lsn
  | EOther _ _ => Ok None
  end.
Fixpoint undo_of_writes (r : gmap Z engine) (lsn : LogSequenceNumber)
    (l : list ((Z * list Z) * option bytes)) : outcome TransactionError (list UndoOperation) :=
  match l with
  | [] => Ok []
  | ((object_id, key), value_opt) :: l =>
      ops ← (match r !! object_id with
             | Some e =>
                 old ← old_value e key lsn;
                 Ok (match value_opt, old with
                     | Some _, _ => [RestoreValue object_id key old]
                     | None, Some old_val => [RestoreKey object_id key old_val]
                     | None, None => []
                     end)
             | None => Ok []
             end);
      rest ← undo_of_writes r lsn l;
      Ok (ops ++ rest)
  end.
Definition undo_of_graph (x : TableId * GraphEdgeOp) : UndoOperation :=
  match x.2 with
  | AddEdge s l g i => RemoveGraphEdge x.1 s l g i
  | RemoveEdge s l g i => RestoreGraphEdge x.1 s l g i
  end.
Definition undo_of_vector (x : TableId * VectorOp) : UndoOperation :=
  match x.2 with InsertVector i _ | DeleteVector i => RemoveVector x.1 i end.
Definition undo_of_geo (x : TableId * GeoSpatialOp) : UndoOperation :=
  match x.2 with InsertGeometry i _ | DeleteGeometry i => RemoveGeometry x.1 i end.
Definition undo_of_text (x : TableId * FullTextOp) : UndoOperation :=
  match x.2 with
  | IndexDocument i _ | UpdateDocument i _ | DeleteDocument i => RemoveDocument x.1 i
  end.
Definition collect_undo (o : Orders) : M (list UndoOperation) :=
  s ← gets (fun s => s);
  let x := self s in
  ops ← lift (undo_of_writes (registry (world s)) (snapshot_lsn x) (write_order o (write_set x)));
  mret (ops ++ map undo_of_graph (graph_write_set x) ++ map undo_of_vector (vector_write_set x)
            ++ map undo_of_geo (geospatial_write_set x) ++ map undo_of_text (fulltext_write_set x)).

(** An operation on a specialty table of the right kind. *)
Definition undo_special (id : TransactionId) (lsn : LogSequenceNumber) (op : SpecialtyOp)
    : stateful engine TransactionError unit := fun e =>
  match e with
  | EOther k en => if decide (k = specialty_kind op) then on_other k (engine_special id lsn op) en
                   else (Ok tt, e)
  | _ => (Ok tt, e)
  end.
Definition undo_tombstone (id : TransactionId) (kind : EngineKind) (key : bytes) (timestamp : option Z)
    : stateful engine TransactionError unit := fun e =>
  match e with
  | EOther k en => if decide (k = kind) then on_other k (engine_add_tombstone id key timestamp) en
                   else (Ok tt, e)
  | _ => (Ok tt, e)
  end.
Definition execute_undo (op : UndoOperation) : M unit :=
  x ← gets self;
  let id := txn_id x in
  let lsn := snapshot_lsn x in
  match op with
  | RestoreValue o key old =>
      on_engine o (fun e => match e with
        | EMemoryBTree _ | EMemoryHashTable _ | EOther PagedBTree _ | EOther LsmTree _ =>
            apply_write id lsn key old e
        | EOther _ _ => (Ok tt, e)
        end)
  | RestoreKey o key old =>
      on_engine o (fun e => match e with
        | EOther PagedBTree _ | EOther LsmTree _ => apply_write id lsn key (Some old) e
        | _ => (Ok tt, e)
        end)
  | RemoveBloomEntry o key => on_engine o (undo_tombstone id PagedBloomFilter key None)
  | RemoveGraphEdge o s l g i => on_engine o (undo_special id lsn (OnGraph (RemoveEdge s l g i)))
  | RestoreGraphEdge o s l g i => on_engine o (undo_special id lsn (OnGraph (AddEdge s l g i)))
  | RemoveTimeSeriesPoint o key ts _ => on_engine o (undo_tombstone id TimeSeriesTable key (Some ts))
  | RemoveVector o i => on_engine o (undo_special id lsn (OnVector (DeleteVector i)))
  | RestoreVector o i v => on_engine o (undo_special id lsn (OnVector (InsertVector i v)))
  | RemoveGeometry o i => on_engine o (undo_special id lsn (OnGeoSpatial (DeleteGeometry i)))
  | RestoreGeometry o i g => on_engine o (undo_special id lsn (OnGeoSpatial (InsertGeometry i g)))
  | RemoveDocument o i => on_engine o (undo_special id lsn (OnFullText (DeleteDocument i)))
  | RestoreDocument o i fs => on_engine o (undo_special id lsn (OnFullText (IndexDocument i fs)))
  end.

(** The conflict check of the isolation level. *)
Definition check_isolation (o : Orders) : M unit :=
  s ← gets (fun s => s);
  match isolation (self s) with
  | RepeatableRead | Serializable =>
      lift (ConflictDetector.check_read_write_conflicts (conflict_detector (world s))
              (set_order o (read_set (self s))) (txn_id (self s)))
  | ReadUncommitted | ReadCommitted | SnapshotIsolation => mret tt
  end.

Definition log_commit (submit : TransactionId -> LogSequenceNumber -> stateful (WalWriter.t F) WalError unit)
    (e : WalWriter.Env) : M LogSequenceNumber :=
  x ← gets self;
  lsn ← on_wal (WalWriter.write_commit submit e (txn_id x));
  _ ← (match durability x with
       | FlushOnCommit => on_wal WalWriter.flush
       | MemoryOnly | WalOnly | SyncOnCommit => mret tt
       end);
  mret lsn.

Definition apply_writes (l : list ((Z * list Z) * option bytes)) : M unit :=
  for_each (fun y => x ← gets self;
                     on_engine y.1.1 (apply_write (txn_id x) (snapshot_lsn x) y.1.2 y.2)) l.

(** A buffered operation of a specialty table; one on a table of another kind
    is an error, and so is the deletion of a point. *)
Definition apply_special (lsn : LogSequenceNumber) (y : TableId * SpecialtyOp) : M unit :=
  x ← gets self;
  on_engine y.1 (fun e =>
    match e with
    | EOther k en =>
        if decide (k = specialty_kind y.2)
        then match y.2 with
             | OnTimeSeries (DeletePoint _ _ _) => (Err Other, e)
             | op => on_other k (engine_special (txn_id x) lsn op) en
             end
        else (Err Other, e)
    | _ => (Err Other, e)
    end).
Definition special_ops (o : Orders) (x : t) : list (TableId * SpecialtyOp) :=
  map (fun p => (p.1, OnBloom p.2)) (set_order o (bloom_write_set x))
    ++ map (fun p => (p.1, OnGraph p.2)) (graph_write_set x)
    ++ map (fun p => (p.1, OnTimeSeries p.2)) (timeseries_write_set x)
    ++ map (fun p => (p.1, OnVector p.2)) (vector_write_set x)
    ++ map (fun p => (p.1, OnGeoSpatial p.2)) (geospatial_write_set x)
    ++ map (fun p => (p.1, OnFullText p.2)) (fulltext_write_set x).

Definition modified_tables (x : t) : gset Z :=
  set_map fst (dom (write_set x)) ∪ set_map fst (bloom_write_set x)
    ∪ list_to_set (map fst (graph_write_set x)) ∪ list_to_set (map fst (timeseries_write_set x))
    ∪ list_to_set (map fst (vector_write_set x)) ∪ list_to_set (map fst (geospatial_write_set x))
    ∪ list_to_set (map fst (fulltext_write_set x)).

Definition commit_versions (lsn : LogSequenceNumber) (object_id : TableId) : M unit :=
  x ← gets self;
  on_engine object_id (fun e =>
    match e with
    | EMemoryBTree b =>
        (Ok tt, EMemoryBTree (MemoryBTree.commit_versions
                                (MemoryBTree.writer (txn_id x) (snapshot_lsn x)) lsn b))
    | EMemoryHashTable h => (Ok tt, EMemoryHashTable (MemoryHashTable.commit_versions (txn_id x) lsn h))
    | EOther k en =>
        match k with
        | PagedHnswVector | PagedFullTextIndex | MemoryGraphTable | MemoryBlob | PagedBlob => (Ok tt, e)
        | _ => on_other k (engine_commit_versions k (txn_id x) lsn) en
        end
    end).

Definition release : M unit :=
  s ← gets (fun s => s);
  upd_world (set_detector (ConflictDetector.release_locks (conflict_detector (world s)) (txn_id (self s)))).

(** The records PREPARE, COMMIT and ROLLBACK have the inputs [es 0], [es 1]
    and [es 2]. *)
Definition abort_apply (es : nat -> WalWriter.Env) (undo : list UndoOperation) (err : TransactionError) : M unit :=
  x ← gets self;
  _ ← for_each (fun op => catch (execute_undo op) (fun _ => mret tt)) (rev undo);
  _ ← on_wal (WalWriter.write_rollback (es 2%nat) (txn_id x));
  _ ← upd_self (set_state Aborted);
  _ ← release;
  lift (Err err).

Definition commit (submit : TransactionId -> LogSequenceNumber -> stateful (WalWriter.t F) WalError unit)
    (es : nat -> WalWriter.Env) (o : Orders) : M CommitInfo :=
  x ← gets self;
  _ ← lift (ensure (bool_decide (state x = Active \/ state x = Preparing))
              (InvalidState (txn_id x) (as_str (state x)) "commit"));
  undo ← collect_undo o;
  _ ← on_wal (WalWriter.write_prepare (es 0%nat) (txn_id x));
  _ ← upd_self (set_state Preparing);
  _ ← check_isolation o;
  lsn ← log_commit submit (es 1%nat);
  _ ← catch (apply_writes (write_order o (write_set x))) (abort_apply es undo);
  _ ← for_each (apply_special lsn) (special_ops o x);
  _ ← for_each (commit_versions lsn) (table_order o (modified_tables x));
  _ ← upd_world (set_lsn lsn);
  _ ← upd_self (set_state Committed);
  _ ← release;
  mret (mkInfo (txn_id x) lsn (Some lsn)).

Definition rollback (e : WalWriter.Env) : M unit :=
  x ← gets self;
  _ ← lift (ensure (bool_decide (state x = Active \/ state x = Preparing))
              (InvalidState (txn_id x) (as_str (state x)) "rollback"));
  _ ← on_wal (WalWriter.write_rollback e (txn_id x));
  _ ← upd_self (set_state Aborted);
  release.
End Transaction.

#[global] Arguments World : clear implicits.
#[global] Arguments Sys : clear implicits.
End Transaction.
