(* ===== verification/TransactionLaws.v ===== *)
(** * What transactions promise

    A transaction reads its own writes over the tables as they were; nothing
    it writes reaches a table before [commit]; [commit] makes all its writes
    visible at its commit LSN or none; and what the composition with the log,
    the conflict detector and the tables loses. *)
From stdpp Require Import sorting.
From S2P Require Import Prelude Types Vfs PagerConfig WalRecord WalReader WalWriter WalRecovery Mvcc Conflict OrdMap MemTables MemTableLaws Transaction.

Module TransactionLaws.
Import Transaction.

Ltac run_m := unfold require_active, lock_key, log_write, on_wal, upd_self, upd_world, gets, modify, lift, ensure,
  mret, stateful_ret, mbind, stateful_bind.

Section Laws.
Context `{Codecs} {F : Type} `{FileOps F} {E : Type} `{TableEngines E} (chain_size : Z).
Implicit Types (s : Sys F E) (w : World F E).

(** ** Reading over one's own writes *)
(** A read at an LSN of the tables. *)
Definition read_at (r : gmap Z (TableEngineInstance E)) (o : TableId) (k : bytes) (lsn : LogSequenceNumber)
    : outcome TransactionError (option bytes) :=
  match r !! o with Some e => engine_read e k lsn | None => Ok None end.

(** What a transaction sees: its own write, or the tables at its snapshot. *)
Definition seen s (o : TableId) (k : bytes) : outcome TransactionError (option bytes) :=
  match write_set (self s) !! (o, k) with
  | Some v => Ok v
  | None => read_at (registry (world s)) o k (snapshot_lsn (self s))
  end.

Lemma get_seen s o k :
  get o k s = (if is_active (self s) then seen s o k
               else Err (InvalidState (txn_id (self s)) (as_str (Transaction.state (self s))) "get"), s).
Proof.
  unfold get. run_m. simpl. destruct (is_active (self s)); [|done]. unfold seen, read_at.
  destruct (write_set (self s) !! (o, k)); [done|]. by destruct (registry (world s) !! o).
Qed.

(** A call changes the write set only, besides locks and log: [buffered f s s']. *)
Definition buffered (f : gmap (Z * list Z) (option bytes) -> gmap (Z * list Z) (option bytes)) s s' : Prop :=
  registry (world s') = registry (world s) /\ Transaction.current_lsn (world s') = Transaction.current_lsn (world s) /\
  self s' = set_write_set (f (write_set (self s))) (self s).

Lemma set_write_set_id x : set_write_set (write_set x) x = x.
Proof. by destruct x. Qed.

Lemma put_buffered e o k v s :
  let '(r, s') := put e o k v s in
  buffered (fun ws => if is_ok r then <[(o, k) := Some v]> ws else ws) s s' /\
  (is_ok r = true -> is_active (self s) = true).
Proof.
  unfold put. run_m. simpl. destruct (is_active (self s)) eqn:Ha; simpl.
  2:{ unfold buffered. by rewrite set_write_set_id. }
  destruct (ConflictDetector.check_write_conflict _ _ _ _) as [u|er|]; simpl;
    [|unfold buffered; simpl; by rewrite set_write_set_id..].
  destruct (WalWriter.write_operation _ _ _ _ _ _ _) as [[l|er|] w]; simpl;
    unfold buffered; simpl; by rewrite ?set_write_set_id.
Qed.

Lemma key_existed_same o k s : exists r, key_existed o k s = (r, s).
Proof.
  unfold key_existed. run_m. case_bool_decide; [by eexists|].
  destruct (registry (world s) !! o); by eexists.
Qed.

Lemma delete_buffered e o k s :
  let '(r, s') := delete e o k s in
  buffered (fun ws => if is_ok r then <[(o, k) := None]> ws else ws) s s' /\
  (is_ok r = true -> is_active (self s) = true).
Proof.
  unfold delete. run_m. simpl. destruct (is_active (self s)) eqn:Ha; simpl.
  2:{ unfold buffered. by rewrite set_write_set_id. }
  destruct (ConflictDetector.check_write_conflict _ _ _ _) as [u|er|]; simpl;
    [|unfold buffered; simpl; by rewrite set_write_set_id..].
  destruct (key_existed_same o k (mkSys (set_detector (ConflictDetector.acquire_write_lock
      (conflict_detector (world s)) o k (txn_id (self s))) (world s)) (self s))) as [ex ->].
  destruct ex as [b|er|]; [|unfold buffered; simpl; by rewrite set_write_set_id..]. simpl.
  destruct (WalWriter.write_operation _ _ _ _ _ _ _) as [[l|er|] w]; simpl;
    unfold buffered; simpl; by rewrite ?set_write_set_id.
Qed.

Inductive Call : Type :=
  | CPut (e : WalWriter.Env) (o : TableId) (k v : bytes)
  | CDelete (e : WalWriter.Env) (o : TableId) (k : bytes).
Definition run_call (c : Call) s : bool * Sys F E :=
  match c with
  | CPut e o k v => let '(r, s') := put e o k v s in (is_ok r, s')
  | CDelete e o k => let '(r, s') := delete e o k s in (is_ok r, s')
  end.
Definition written (c : Call) : (Z * list Z) * option bytes :=
  match c with CPut _ o k v => ((o, k), Some v) | CDelete _ o k => ((o, k), None) end.
(** The writes of the calls that succeeded, in order. *)
Fixpoint run_calls (l : list Call) s : list ((Z * list Z) * option bytes) * Sys F E :=
  match l with
  | [] => ([], s)
  | c :: l =>
      let '(ok, s') := run_call c s in
      let '(ws, s'') := run_calls l s' in
      ((if ok then [written c] else []) ++ ws, s'')
  end.
Definition last_write (l : list ((Z * list Z) * option bytes)) (o : TableId) (k : bytes) : option (option bytes) :=
  list.last (map snd (filter (fun x => x.1 = (o, k)) l)).

Lemma run_call_buffered c s :
  let '(ok, s') := run_call c s in
  buffered (fun ws => if ok then <[(written c).1 := (written c).2]> ws else ws) s s' /\
  (ok = true -> is_active (self s) = true).
Proof.
  destruct c as [e o k v|e o k]; simpl.
  - pose proof (put_buffered e o k v s) as Hb. by destruct (put e o k v s).
  - pose proof (delete_buffered e o k s) as Hb. by destruct (delete e o k s).
Qed.

Lemma last_write_cons x l o k :
  last_write (x :: l) o k
    = match last_write l o k with Some v => Some v | None => if decide (x.1 = (o, k)) then Some x.2 else None end.
Proof.
  unfold last_write. rewrite filter_cons. case_decide; simpl.
  - generalize (map snd (filter (fun x => x.1 = (o, k)) l)). intros q.
    destruct (list.last q) as [v|] eqn:Hq; [|by apply last_None in Hq as ->].
    rewrite list.last_cons, Hq. done.
  - by destruct (list.last _).
Qed.

Lemma seen_buffered f s s' o k :
  buffered f s s' -> f (write_set (self s)) !! (o, k) = write_set (self s) !! (o, k) -> seen s' o k = seen s o k.
Proof. intros (Hr & _ & Hs) Hf. unfold seen. rewrite Hs, Hr. simpl. by rewrite Hf. Qed.

Lemma seen_written f s s' o k v :
  buffered f s s' -> f (write_set (self s)) !! (o, k) = Some v -> seen s' o k = Ok v.
Proof. intros (Hr & _ & Hs) Hf. unfold seen. rewrite Hs. simpl. by rewrite Hf. Qed.

Lemma is_active_buffered f s s' : buffered f s s' -> is_active (self s') = is_active (self s).
Proof. intros (_ & _ & ->). done. Qed.

(** C19: a transaction reads its own writes over a fixed view: after any
    sequence of [put] and [delete] calls, whether they succeed or are refused,
    a read returns the last value this transaction successfully wrote under
    the key, nothing when that was a deletion, and otherwise what it returned
    before; and none of the calls has changed a table. *)
Theorem own_writes_read_back l s o k :
  let '(ws, s') := run_calls l s in
  registry (world s') = registry (world s) /\
  (get o k s').1 = match last_write ws o k with Some v => Ok v | None => (get o k s).1 end.
Proof.
  revert s. induction l as [|c l IH]; intros s; simpl; [done|].
  pose proof (run_call_buffered c s) as Hc. destruct (run_call c s) as [ok s1]. destruct Hc as [Hb Ha].
  specialize (IH s1). destruct (run_calls l s1) as [ws s2]. destruct IH as [Hr IH].
  split; [by rewrite Hr, (proj1 Hb)|]. rewrite IH.
  assert (Hg : ok = false \/ (written c).1 <> (o, k) -> (get o k s1).1 = (get o k s).1).
  { intros Hn. rewrite !get_seen. simpl. rewrite (is_active_buffered _ _ _ Hb).
    destruct (is_active (self s)); [|destruct Hb as (_ & _ & ->); done].
    apply (seen_buffered _ _ _ _ _ Hb). destruct ok; [|done]. destruct Hn as [?|Hn]; [done|].
    by rewrite lookup_insert_ne. }
  destruct ok; simpl; [|by rewrite Hg by auto]. rewrite last_write_cons.
  destruct (last_write ws o k); [done|]. case_decide as Hd; [|by rewrite Hg by auto].
  rewrite get_seen. simpl. rewrite (is_active_buffered _ _ _ Hb), Ha by done.
  apply (seen_written _ _ _ _ _ _ Hb). rewrite Hd. by rewrite lookup_insert_eq.
Qed.

(** ** Deleting a range *)
Definition deletes (o : TableId) (ks : list bytes) (ws : gmap (Z * list Z) (option bytes))
    : gmap (Z * list Z) (option bytes) :=
  foldl (fun ws k => <[(o, k) := None]> ws) ws ks.

Lemma deletes_lookup o ks : forall ws o' k,
  deletes o ks ws !! (o', k) = if decide (o' = o /\ k ∈ ks) then Some None else ws !! (o', k).
Proof.
  induction ks as [|k0 ks IH]; intros ws o' k; simpl.
  { rewrite decide_False; [done|]. intros [_ []%elem_of_nil]. }
  rewrite IH. destruct (decide (o' = o /\ k ∈ ks)) as [[-> Hin]|Hn].
  - rewrite decide_True; [done|]. split; [done|by right].
  - destruct (decide (o' = o /\ k = k0)) as [[-> ->]|Hne].
    + rewrite lookup_insert_eq, decide_True; [done|]. split; [done|left].
    + rewrite lookup_insert_ne by (intros [= -> ->]; tauto). rewrite decide_False; [done|].
      intros [-> [->|?]%elem_of_cons]; tauto.
Qed.

Lemma buffered_trans f g s1 s2 s3 :
  buffered f s1 s2 -> buffered g s2 s3 -> buffered (fun ws => g (f ws)) s1 s3.
Proof.
  intros (Hr & Hl & Hs) (Hr' & Hl' & Hs'). unfold buffered. rewrite Hr', Hl', Hs', Hs. done.
Qed.

Lemma delete_keys_buffered es o ks : forall i s s',
  delete_keys es i o ks s = (Ok tt, s') -> buffered (deletes o ks) s s'.
Proof.
  induction ks as [|k ks IH]; intros i s s' Hd; simpl in Hd.
  { injection Hd as <-. unfold buffered. simpl. by rewrite set_write_set_id. }
  unfold mbind at 1, stateful_bind at 1 in Hd. unfold lock_key in Hd. revert Hd. run_m. simpl.
  destruct (ConflictDetector.check_write_conflict _ _ _ _) as [u|er|]; simpl; [|done..].
  destruct (WalWriter.write_operation _ _ _ _ _ _ _) as [[l|er|] w]; simpl; [|done..].
  intros Hd%IH. refine (buffered_trans (fun ws => <[(o, k) := None]> ws) (deletes o ks) _ _ _ _ Hd).
  done.
Qed.

(** A cursor that is on a key is on its value. *)
Definition on_entry (c : MemoryBTree.Cursor) : Prop :=
  is_Some (MemoryBTree.current_key c) -> is_Some (MemoryBTree.current_value c).

Lemma advance_on_entry l : forall c, on_entry (MemoryBTree.advance c l).
Proof.
  induction l as [|[k ch] l IH]; intros c; simpl; [by intros [? [=]]|].
  destruct (negb _); [by intros [? [=]]|]. destruct (MemoryBTree.find_visible_value c ch); [|apply IH].
  intros _. by eexists.
Qed.

Lemma next_on_entry b c : on_entry c -> on_entry (MemoryBTree.next b c).
Proof.
  intros Hc. unfold MemoryBTree.next. destruct (MemoryBTree.exhausted c); [done|].
  destruct (MemoryBTree.current_key c) eqn:Hk; [apply advance_on_entry|].
  unfold on_entry in *. simpl. by rewrite Hk in *.
Qed.

Lemma cursor_keys_collect fuel b : forall c, on_entry c ->
  cursor_keys fuel b c = map fst (Scan.collect fuel b c).
Proof.
  induction fuel as [|fuel IH]; intros c Hc; [done|]. simpl. unfold MemoryBTree.valid.
  destruct (MemoryBTree.exhausted c); [done|]. simpl.
  destruct (MemoryBTree.current_key c) as [k|] eqn:Hk; simpl; [|done].
  destruct Hc as [v Hv]; [by rewrite Hk|]. rewrite Hv. simpl. f_equal. apply IH.
  apply next_on_entry. intros _. by rewrite Hv.
Qed.

(** C21: [range_delete] on an ordered table in memory deletes, for this
    transaction, exactly the keys within the bounds that its snapshot sees: it
    returns their number, each of them reads as absent afterwards, and every
    other key reads as before.  The exception is an excluded start that is
    itself a key of the table: then it deletes nothing and returns 0. *)
Theorem range_delete_spec es o bounds b s n s'
    (Hb : registry (world s) !! o = Some (EMemoryBTree b)) (Hs : BTreeMap.sorted (MemoryBTree.data b))
    (Hrun : range_delete es o bounds s = (Ok n, s')) :
  let gone := if Scan.starts_on_key bounds b then []
              else map fst (Scan.entries bounds (snapshot_lsn (self s)) b) in
  n = zlen gone /\
  forall o' k, (get o' k s').1 = if decide (o' = o /\ k ∈ gone) then Ok None else (get o' k s).1.
Proof.
  revert Hrun. unfold range_delete. run_m. simpl.
  destruct (is_active (self s)) eqn:Ha; simpl; [|done]. rewrite Hb. unfold scanned_keys.
  rewrite cursor_keys_collect by apply advance_on_entry.
  set (gone := if Scan.starts_on_key bounds b then [] else _).
  assert (Hg : map fst (Scan.collect (S (length (MemoryBTree.data b))) b
                 (MemoryBTree.scan b bounds (snapshot_lsn (self s)))) = gone).
  { unfold gone. destruct (Scan.starts_on_key bounds b) eqn:Hk.
    - by rewrite Scan.collect_scan_out.
    - by rewrite Scan.collect_scan by (lia || done || by apply Scan.starts_on_key_false). }
  rewrite Hg. clearbody gone.
  destruct (delete_keys _ _ _ _ _) as [[[]|er|] s1] eqn:Hd; [|done..]. intros [= <- <-].
  apply delete_keys_buffered in Hd. split; [done|]. intros o' k. rewrite !get_seen. simpl.
  rewrite (is_active_buffered _ _ _ Hd), Ha.
  case_decide as Hk; [eapply seen_written|eapply seen_buffered]; try exact Hd; rewrite deletes_lookup.
  - by rewrite decide_True.
  - by rewrite decide_False.
Qed.

(** ** Committing *)
Abbreviation engine := (TableEngineInstance E).

Definition engine_chain (e : engine) (k : bytes) : option VersionChain.t :=
  match e with
  | EMemoryBTree b => BTreeMap.get (MemoryBTree.data b) k
  | EMemoryHashTable h => MemoryHashTable.data h !! k
  | EOther _ _ => None
  end.
Definition same_kind (e e' : engine) : Prop :=
  match e, e' with
  | EMemoryBTree _, EMemoryBTree _ | EMemoryHashTable _, EMemoryHashTable _ => True
  | _, _ => False
  end.
(** How a table in memory shows a stored value. *)
Definition shows (e : engine) (v : option bytes) : option bytes :=
  match e with EMemoryHashTable _ => filled v | _ => v end.
(** The writes the tables in memory keep as versions: the ordered table
    forgets the versions of a key it deletes. *)
Definition versioned (e : engine) (v : option bytes) : Prop :=
  match e with EMemoryBTree _ => is_Some v | EMemoryHashTable _ => True | EOther _ _ => False end.

Lemma engine_read_shown e k lsn : same_kind e e ->
  engine_read e k lsn = Ok (shows e (Reads.shown (engine_chain e k) lsn)).
Proof.
  destruct e as [b|h|]; simpl; intros Hk; [| |done]; unfold MemoryBTree.get, MemoryHashTable.get, Reads.shown.
  - done.
  - by destruct (MemoryHashTable.data h !! k).
Qed.

Lemma push_change_one id o (k q : bytes) v :
  foldl (push_change id) o (changes_of q [(k, v)]) = if decide (q = k) then push_change id o v else o.
Proof. unfold changes_of. rewrite filter_cons. simpl. repeat case_decide; by subst. Qed.

Lemma apply_write_spec id lsn k v e : versioned e v ->
  exists e', apply_write chain_size id lsn k v e = (Ok tt, e') /\ same_kind e e' /\
    forall q, engine_chain e' q = if decide (q = k) then push_change id (engine_chain e q) v else engine_chain e q.
Proof.
  destruct e as [b|h|]; simpl; intros Hv; [| |done].
  - destruct Hv as [x ->]. eexists. split_and!; [done|done|]. intros q.
    rewrite <- push_change_one. simpl.
    apply (btree_flush_chain chain_size id [(k, Some x)]). by repeat constructor.
  - destruct v as [x|].
    + eexists. split_and!; [done|done|]. intros q.
      rewrite <- (push_change_one id _ k q (Some x)). apply (hash_flush_chain chain_size id [(k, Some x)]).
    + unfold MemoryHashTable.writer_delete. case_bool_decide as Hd; simpl;
        (eexists; split_and!; [done|done|]; intros q).
      * etrans; [apply (hash_flush_chain chain_size id [(k, None)])|]. by rewrite push_change_one.
      * case_decide; [subst q|done]. simpl.
        destruct (MemoryHashTable.data h !! k); [destruct Hd; by eexists|done].
Qed.

(** The changes of one key in a list of writes. *)
Definition changes_at (l : list ((Z * list Z) * option bytes)) (o : TableId) (k : bytes) : list (option bytes) :=
  map snd (filter (fun x => x.1 = (o, k)) l).

(** The tables before and after writes [l] of a transaction were applied. *)
Definition applied (id : TransactionId) (l : list ((Z * list Z) * option bytes)) (r r' : gmap Z engine) : Prop :=
  forall o, match r !! o, r' !! o with
            | None, None => True
            | Some e, Some e' =>
                (e' = e /\ Forall (fun y => y.1.1 <> o) l) \/
                (same_kind e e' /\
                 forall k, engine_chain e' k = foldl (push_change id) (engine_chain e k) (changes_at l o k))
            | _, _ => False
            end.
Definition versioned_writes (r : gmap Z engine) (l : list ((Z * list Z) * option bytes)) : Prop :=
  Forall (fun y => match r !! y.1.1 with Some e => versioned e y.2 | None => True end) l.

Lemma changes_at_none l o k : Forall (fun y => y.1.1 <> o) l -> changes_at l o k = [].
Proof.
  intros Hl. unfold changes_at. rewrite filter_none; [done|]. eapply Forall_impl; [exact Hl|].
  intros y Hy He. apply Hy. by rewrite He.
Qed.

Lemma changes_at_cons y l o k :
  changes_at (y :: l) o k = (if decide (y.1 = (o, k)) then [y.2] else []) ++ changes_at l o k.
Proof. unfold changes_at. rewrite filter_cons. by case_decide. Qed.

Lemma same_kind_trans e1 e2 e3 : same_kind e1 e2 -> same_kind e2 e3 -> same_kind e1 e3.
Proof. by destruct e1, e2, e3. Qed.
Lemma versioned_same_kind e e' v : same_kind e e' -> versioned e v -> versioned e' v.
Proof. by destruct e, e'. Qed.

Lemma applied_cons id o k v l r e e' r' :
  r !! o = Some e -> same_kind e e' ->
  (forall q, engine_chain e' q = if decide (q = k) then push_change id (engine_chain e q) v else engine_chain e q) ->
  applied id l (<[o := e']> r) r' -> applied id (((o, k), v) :: l) r r'.
Proof.
  intros Ho Hk Hc Ha o1. specialize (Ha o1). destruct (decide (o = o1)) as [<-|Hne].
  - rewrite lookup_insert_eq in Ha. rewrite Ho. destruct (r' !! o) as [e2|]; [|done]. right.
    destruct Ha as [[-> Hl]|[Hk2 Hc2]].
    + split; [done|]. intros q. rewrite changes_at_cons, (changes_at_none l) by done. simpl.
      rewrite Hc. repeat case_decide; simplify_eq/=; done.
    + split; [by eapply same_kind_trans|]. intros q. rewrite Hc2, Hc, changes_at_cons. simpl.
      repeat case_decide; simplify_eq/=; done.
  - rewrite lookup_insert_ne in Ha by done. destruct (r !! o1) as [e1|], (r' !! o1) as [e2|]; try done.
    destruct Ha as [[-> Hl]|[Hk2 Hc2]]; [left; by repeat constructor|right].
    split; [done|]. intros q. rewrite Hc2, changes_at_cons. simpl. rewrite decide_False; [done|]. by intros [= -> ->].
Qed.

Lemma applied_skip id y l r r' : r !! y.1.1 = None -> applied id l r r' -> applied id (y :: l) r r'.
Proof.
  intros Hy Ha o. specialize (Ha o). destruct (r !! o) as [e|] eqn:Ho, (r' !! o) as [e'|]; try done.
  assert (Hne : y.1.1 <> o) by (intros Hx; rewrite Hx in Hy; congruence).
  destruct Ha as [[-> Hl]|[Hk Hc]]; [left; by repeat constructor|right].
  split; [done|]. intros q. rewrite Hc, changes_at_cons, decide_False; [done|]. intros Hx. by rewrite Hx in Hne.
Qed.

Lemma applied_nil id r : applied id [] r r.
Proof. intros o. destruct (r !! o); [left|]; done. Qed.

(** Applying writes the tables keep as versions never fails. *)
Lemma apply_writes_spec l : forall s, versioned_writes (registry (world s)) l ->
  exists r', apply_writes chain_size l s = (Ok tt, mkSys (set_registry r' (world s)) (self s)) /\
    applied (txn_id (self s)) l (registry (world s)) r'.
Proof.
  induction l as [|[[o k] v] l IH]; intros s Hv.
  { exists (registry (world s)). split; [|apply applied_nil]. by destruct s as [[] ?]. }
  apply Forall_cons in Hv as [Hv Hl]. simpl in Hv. unfold apply_writes. simpl. run_m. unfold on_engine.
  destruct (registry (world s) !! o) as [e|] eqn:Ho; simpl.
  - destruct (apply_write_spec (txn_id (self s)) (snapshot_lsn (self s)) k v e Hv) as (e' & -> & Hk & Hc).
    set (s1 := mkSys (set_registry (<[o := e']> (registry (world s))) (world s)) (self s)).
    destruct (IH s1) as (r' & Hr & Ha).
    + eapply Forall_impl; [exact Hl|]. intros y Hy. simpl in *. destruct (decide (o = y.1.1)) as [Hoy|Hne].
      * rewrite <- Hoy, lookup_insert_eq. rewrite <- Hoy, Ho in Hy. by eapply versioned_same_kind.
      * by rewrite lookup_insert_ne.
    + exists r'. split; [exact Hr|]. by eapply applied_cons.
  - destruct (IH s Hl) as (r' & Hr & Ha). exists r'. split; [exact Hr|]. by apply applied_skip.
Qed.

(** The tables before and after the versions of a transaction were committed
    on the tables of a list. *)
Definition versions_committed (id : TransactionId) (lsn : LogSequenceNumber) (T : list Z)
    (r r' : gmap Z engine) : Prop :=
  forall o, match r !! o, r' !! o with
            | None, None => True
            | Some e, Some e' =>
                if decide (o ∈ T)
                then same_kind e e' /\ forall k, engine_chain e' k = commit_head id lsn <$> engine_chain e k
                else e' = e
            | _, _ => False
            end.
Definition in_memory (r : gmap Z engine) (T : list Z) : Prop :=
  Forall (fun o => match r !! o with Some e => same_kind e e | None => True end) T.

Lemma commit_versions_spec lsn o s : in_memory (registry (world s)) [o] ->
  exists r', commit_versions lsn o s = (Ok tt, mkSys (set_registry r' (world s)) (self s)) /\
    versions_committed (txn_id (self s)) lsn [o] (registry (world s)) r'.
Proof.
  intros [Ho _]%Forall_cons. unfold commit_versions. run_m. unfold on_engine.
  assert (Hone : forall e e', registry (world s) !! o = Some e -> same_kind e e' ->
      (forall k, engine_chain e' k = commit_head (txn_id (self s)) lsn <$> engine_chain e k) ->
      versions_committed (txn_id (self s)) lsn [o] (registry (world s)) (<[o := e']> (registry (world s)))).
  { intros e e' He Hk Hc o1. destruct (decide (o = o1)) as [<-|Hne].
    - rewrite lookup_insert_eq, He, decide_True by (by left). done.
    - rewrite lookup_insert_ne by done. destruct (registry (world s) !! o1); [|done].
      rewrite decide_False; [done|]. by intros ->%list_elem_of_singleton. }
  destruct (registry (world s) !! o) as [[b|h|k en]|] eqn:He; simpl in *; [| |done|].
  - eexists. split; [done|]. eapply Hone; [done|done|]. intros k. apply BTreeMap.get_map_values.
  - eexists. split; [done|]. eapply Hone; [done|done|]. intros k. apply lookup_fmap.
  - exists (registry (world s)). split; [by destruct s as [[] ?]|]. intros o1.
    destruct (registry (world s) !! o1) eqn:Ho1; [|done]. rewrite decide_False; [done|].
    intros ->%list_elem_of_singleton. congruence.
Qed.

Lemma versions_committed_cons id lsn o T r r1 r2 : o ∉ T ->
  versions_committed id lsn [o] r r1 -> versions_committed id lsn T r1 r2 ->
  versions_committed id lsn (o :: T) r r2.
Proof.
  intros Hn H12 H23 o1. specialize (H12 o1). specialize (H23 o1).
  destruct (r !! o1) as [e|], (r1 !! o1) as [e1|], (r2 !! o1) as [e2|]; try done.
  destruct (decide (o1 ∈ [o])) as [->%list_elem_of_singleton|Ho].
  - rewrite decide_False in H23 by done. subst e2. rewrite decide_True by (by left). done.
  - subst e1. destruct (decide (o1 ∈ T)).
    + rewrite decide_True; [done|by right].
    + rewrite decide_False; [done|]. intros [->|?]%elem_of_cons; [|done]. apply Ho. by left.
Qed.

Lemma commit_all_spec lsn T : NoDup T -> forall s, in_memory (registry (world s)) T ->
  exists r', for_each (commit_versions lsn) T s = (Ok tt, mkSys (set_registry r' (world s)) (self s)) /\
    versions_committed (txn_id (self s)) lsn T (registry (world s)) r'.
Proof.
  induction 1 as [|o T Hn _ IH]; intros s Hm.
  { exists (registry (world s)). split; [by destruct s as [[] ?]|]. intros o.
    destruct (registry (world s) !! o); [|done]. rewrite decide_False; [done|]. by intros ?%elem_of_nil. }
  apply Forall_cons in Hm as [Ho Hm]. destruct (commit_versions_spec lsn o s) as (r1 & Hc1 & Hr1); [by repeat constructor|].
  simpl. unfold mbind, stateful_bind. rewrite Hc1.
  destruct (IH (mkSys (set_registry r1 (world s)) (self s))) as (r2 & Hc2 & Hr2).
  - eapply Forall_impl; [exact Hm|]. intros o1 Hx. simpl in *. specialize (Hr1 o1).
    destruct (registry (world s) !! o1) as [e|], (r1 !! o1) as [e1|]; try done.
    destruct (decide (o1 ∈ [o])); [|by subst]. destruct Hr1 as [Hk _]. by destruct e, e1.
  - exists r2. split; [exact Hc2|]. by eapply versions_committed_cons.
Qed.

(** A transaction that only wrote keys and values. *)
Definition only_writes (x : Transaction.t) : Prop :=
  bloom_write_set x = ∅ /\ graph_write_set x = [] /\ timeseries_write_set x = [] /\
  vector_write_set x = [] /\ geospatial_write_set x = [] /\ fulltext_write_set x = [].
(** The iteration orders are orders of the hash tables. *)
Record orders_ok (o : Orders) : Prop := {
  ok_writes ws : write_order o ws ≡ₚ map_to_list ws;
  ok_set X : set_order o X ≡ₚ elements X;
  ok_tables T : table_order o T ≡ₚ elements T }.
(** No table in memory has a version of an unfinished transaction on top. *)
Definition settled (r : gmap Z engine) : Prop :=
  forall o e k, r !! o = Some e -> head_committed (engine_chain e k).

Lemma changes_at_order od ws o k : orders_ok od ->
  changes_at (write_order od ws) o k = match ws !! (o, k) with Some v => [v] | None => [] end.
Proof.
  intros Ho. unfold changes_at.
  assert (Hp : filter (fun x => x.1 = (o, k)) (write_order od ws) ≡ₚ
               match ws !! (o, k) with Some v => [((o, k), v)] | None => [] end).
  { rewrite (ok_writes od Ho ws). apply NoDup_Permutation.
    - apply NoDup_filter, NoDup_map_to_list.
    - destruct (ws !! (o, k)); [apply NoDup_singleton|constructor].
    - intros [q v]. rewrite list_elem_of_filter, elem_of_map_to_list. simpl.
      destruct (ws !! (o, k)) as [v'|] eqn:Hv.
      + rewrite list_elem_of_singleton. split; [intros [-> Hq]; congruence|intros [= -> ->]; done].
      + split; [intros [-> Hq]; congruence|by intros ?%elem_of_nil]. }
  destruct (ws !! (o, k)).
  - apply Permutation_singleton_r in Hp as ->. done.
  - apply Permutation_nil_r in Hp as ->. done.
Qed.

Lemma set_order_empty od : orders_ok od -> set_order od ∅ = [].
Proof. intros Ho. apply Permutation_nil_r. by rewrite (ok_set od Ho ∅), elements_empty. Qed.

Lemma special_ops_none od x : orders_ok od -> only_writes x -> special_ops od x = [].
Proof.
  intros Ho (Hb & Hg & Ht & Hv & Hge & Hf). unfold special_ops. rewrite Hb, Hg, Ht, Hv, Hge, Hf.
  by rewrite set_order_empty.
Qed.

Lemma modified_tables_writes x o : only_writes x ->
  o ∈ modified_tables x <-> exists k v, write_set x !! (o, k) = Some v.
Proof.
  intros (Hb & Hg & Ht & Hv & Hge & Hf). unfold modified_tables. rewrite Hb, Hg, Ht, Hv, Hge, Hf. simpl.
  split.
  - intros Hin. assert (Hd : o ∈ (set_map fst (dom (write_set x)) : gset Z)) by set_solver.
    apply elem_of_map in Hd as ([o1 k] & -> & [v Hv1]%elem_of_dom). by exists k, v.
  - intros (k & v & Hk). assert (o ∈ (set_map fst (dom (write_set x)) : gset Z)); [|set_solver].
    apply elem_of_map. exists (o, k). split; [done|]. apply elem_of_dom. by eexists.
Qed.

(** What a committed write set leaves in the tables. *)
Definition published (id : TransactionId) (lsn : LogSequenceNumber)
    (ws : gmap (Z * list Z) (option bytes)) (r r' : gmap Z engine) : Prop :=
  forall o, match r !! o, r' !! o with
            | None, None => True
            | Some e, Some e' =>
                ((forall k, ws !! (o, k) = None) /\
                 (e' = e \/ (same_kind e e' /\ forall k, engine_chain e' k = engine_chain e k))) \/
                (same_kind e e' /\ forall k, engine_chain e' k
                   = commit_head id lsn <$> foldl (push_change id) (engine_chain e k)
                       (match ws !! (o, k) with Some v => [v] | None => [] end))
            | _, _ => False
            end.

Lemma published_compose od x lsn r r1 r2 : orders_ok od -> only_writes x ->
  applied (txn_id x) (write_order od (write_set x)) r r1 ->
  versions_committed (txn_id x) lsn (table_order od (modified_tables x)) r1 r2 ->
  published (txn_id x) lsn (write_set x) r r2.
Proof.
  intros Hod Hx Ha Hc o. specialize (Ha o). specialize (Hc o).
  assert (HT : o ∈ table_order od (modified_tables x) <-> exists k v, write_set x !! (o, k) = Some v).
  { rewrite (ok_tables od Hod), elem_of_elements. by apply modified_tables_writes. }
  destruct (r !! o) as [e|], (r1 !! o) as [e1|], (r2 !! o) as [e2|]; try done.
  destruct (decide (o ∈ _)) as [Hin|Hout].
  - right. destruct Hc as [Hk2 Hc2]. destruct Ha as [[-> Hl]|[Hk1 Hc1]].
    + exfalso. apply HT in Hin as (k & v & Hv). apply elem_of_map_to_list in Hv.
      rewrite <- (ok_writes od Hod) in Hv. rewrite Forall_forall in Hl. by apply (Hl _ Hv).
    + split; [by eapply same_kind_trans|]. intros k. by rewrite Hc2, Hc1, (changes_at_order od).
  - subst e2. left. assert (Hno : forall k, write_set x !! (o, k) = None).
    { intros k. destruct (write_set x !! (o, k)) as [v|] eqn:Hv; [|done]. destruct Hout. apply HT. eauto. }
    split; [done|]. destruct Ha as [[-> _]|[Hk Hcc]]; [by left|right].
    split; [done|]. intros k. by rewrite Hcc, (changes_at_order od), Hno by done.
Qed.

Lemma reads_as_same v x : reads_as v (Some <$> x) <-> v = x.
Proof. by destruct x. Qed.

(** One chain under a committed write, or none. *)
Lemma commit_chain_reads id lsn c u :
  head_committed c ->
  let c' := commit_head id lsn <$> foldl (push_change id) c (match u with Some v => [v] | None => [] end) in
  head_committed c' /\
  forall l, reads_as (Reads.shown c' l)
              (match u with
               | Some v => if lsn <=? l then Some v else Some <$> Reads.shown c l
               | None => Some <$> Reads.shown c l
               end).
Proof.
  intros Hc c'. pose proof (fun l => transact_shown id lsn c (match u with Some v => [v] | None => [] end)
    (Some <$> Reads.shown c l) l Hc (proj2 (reads_as_same _ _) eq_refl)) as Ht.
  split; [apply (Ht 0)|]. intros l. destruct (Ht l) as [_ Hr]. fold c' in Hr.
  destruct u; simpl in Hr; [done|]. by destruct (lsn <=? l).
Qed.

(** Reads of published writes: at or above the commit LSN the written value,
    otherwise what was read before. *)
Lemma published_reads id lsn ws r r' : settled r -> published id lsn ws r r' ->
  (forall o k e v, r !! o = Some e -> ws !! (o, k) = Some v -> versioned e v) ->
  settled r' /\
  forall o k l, read_at r' o k l
    = match r !! o, ws !! (o, k) with
      | Some e, Some v => if lsn <=? l then Ok (shows e v) else read_at r o k l
      | _, _ => read_at r o k l
      end.
Proof.
  intros Hs Hp Hv. split.
  - intros o e' k He'. specialize (Hp o). rewrite He' in Hp. destruct (r !! o) as [e|] eqn:He; [|done].
    destruct Hp as [[_ [-> |[Hk Hc]]]|[Hk Hc]]; [by eapply Hs|rewrite Hc; by eapply Hs|].
    rewrite Hc. apply commit_chain_reads. by eapply Hs.
  - intros o k l. specialize (Hp o). unfold read_at.
    destruct (r !! o) as [e|] eqn:He, (r' !! o) as [e'|]; try done.
    destruct Hp as [[Hn [-> |[Hk Hc]]]|[Hk Hc]].
    + by rewrite Hn.
    + rewrite Hn, !engine_read_shown by (by destruct e, e'). rewrite Hc. by destruct e, e'.
    + rewrite !engine_read_shown by (by destruct e, e'). rewrite Hc.
      assert (shows e' = shows e) as -> by (by destruct e, e').
      destruct (commit_chain_reads id lsn (engine_chain e k) (ws !! (o, k)) (Hs _ _ _ He)) as [_ Hr].
      specialize (Hr l). destruct (ws !! (o, k)) as [v|] eqn:Hw; [|by apply reads_as_same in Hr as ->].
      destruct (lsn <=? l); [|by apply reads_as_same in Hr as ->].
      specialize (Hv o k e v He Hw). destruct v as [v|]; unfold reads_as in Hr; [by rewrite Hr|].
      destruct e as [b|h|]; simpl in Hv; [by destruct Hv| |done]. by destruct Hr as [-> | ->].
Qed.

(** Steps that touch only the log and the state of the transaction. *)
Definition quiet s s' : Prop :=
  exists l st, s' = mkSys (set_wal l (world s)) (set_state st (self s)).
Lemma quiet_refl s : quiet s s.
Proof. exists (wal (world s)), (Transaction.state (self s)). by destruct s as [[] []]. Qed.
Lemma quiet_trans s1 s2 s3 : quiet s1 s2 -> quiet s2 s3 -> quiet s1 s3.
Proof. intros (l & st & ->) (l' & st' & ->). by exists l', st'. Qed.
Lemma quiet_wal {A} (m : stateful (WalWriter.t F) WalError A) s r s' : on_wal m s = (r, s') -> quiet s s'.
Proof.
  unfold on_wal. destruct (m (wal (world s))) as [r1 l]. intros [= _ <-].
  exists l, (Transaction.state (self s)). by destruct s as [[] []].
Qed.
Lemma quiet_state st s : quiet s (mkSys (world s) (set_state st (self s))).
Proof. exists (wal (world s)), st. by destruct s as [[] []]. Qed.
Lemma quiet_log_commit submit e s r s' : log_commit submit e s = (r, s') -> quiet s s'.
Proof.
  unfold log_commit, gets, mbind, stateful_bind. simpl.
  destruct (on_wal _ s) as [[l|er|] s1] eqn:Hc; apply quiet_wal in Hc; [|by intros [= _ <-]..].
  destruct (durability (self s)); try by intros [= _ <-].
  destruct (on_wal _ s1) as [[[]|er|] s2] eqn:Hf; apply quiet_wal in Hf; intros [= _ <-]; by eapply quiet_trans.
Qed.
Lemma check_isolation_same od s : exists r, check_isolation od s = (r, s).
Proof. unfold check_isolation. run_m. destruct (isolation (self s)); by eexists. Qed.
Lemma collect_undo_same od s : exists r, collect_undo od s = (r, s).
Proof. unfold collect_undo. run_m. destruct (undo_of_writes _ _ _); by eexists. Qed.

(** [commit] up to the log's COMMIT record. *)
Definition commit_log (submit : TransactionId -> LogSequenceNumber -> stateful (WalWriter.t F) WalError unit)
    (es : nat -> WalWriter.Env) (od : Orders)
    : stateful (Sys F E) TransactionError (list UndoOperation * LogSequenceNumber) :=
  x ← gets self;
  _ ← lift (ensure (bool_decide (Transaction.state x = Active \/ Transaction.state x = Preparing))
              (InvalidState (txn_id x) (as_str (Transaction.state x)) "commit"));
  undo ← collect_undo od;
  _ ← on_wal (WalWriter.write_prepare (es 0%nat) (txn_id x));
  _ ← upd_self (set_state Preparing);
  _ ← check_isolation od;
  lsn ← log_commit submit (es 1%nat);
  mret (undo, lsn).

Lemma quiet_commit_log submit es od s r s' : commit_log submit es od s = (r, s') -> quiet s s'.
Proof.
  unfold commit_log, gets, upd_self, modify. unfold mbind, stateful_bind. unfold lift, ensure.
  destruct (bool_decide _); simpl; [|intros [= _ <-]; apply quiet_refl].
  destruct (collect_undo_same od s) as [[u|er|] ->]; [|intros [= _ <-]; apply quiet_refl..].
  destruct (on_wal _ s) as [[l|er|] s1] eqn:Hp; apply quiet_wal in Hp; [|by intros [= _ <-]..].
  set (s2 := mkSys (world s1) (set_state Preparing (self s1))).
  assert (Hs2 : quiet s s2) by (eapply quiet_trans; [exact Hp|apply quiet_state]).
  destruct (check_isolation_same od s2) as [[[]|er|] ->]; [|by intros [= _ <-]..].
  destruct (log_commit _ _ s2) as [[l2|er|] s3] eqn:Hc; apply quiet_log_commit in Hc; intros [= _ <-];
    by eapply quiet_trans.
Qed.

Lemma on_wal_self {A} (m : stateful (WalWriter.t F) WalError A) s r s' : on_wal m s = (r, s') -> self s' = self s.
Proof. unfold on_wal. destruct (m (wal (world s))). by intros [= _ <-]. Qed.
Lemma log_commit_self submit e s x s' : log_commit submit e s = (Ok x, s') -> self s' = self s.
Proof.
  unfold log_commit. intros Hc. sinv. injection Hc as _ <-. apply on_wal_self in Hs0. rewrite <- Hs0.
  destruct (durability (self s)); try by injection Hs1 as _ <-. by apply on_wal_self in Hs1.
Qed.
Lemma commit_log_state submit es od s x s' :
  commit_log submit es od s = (Ok x, s') -> Transaction.state (self s') = Preparing.
Proof.
  unfold commit_log. intros Hc. sinv. injection Hc as _ <-. injection Hs3 as _ <-.
  apply log_commit_self in Hs5. rewrite Hs5.
  match type of Hs4 with check_isolation _ ?y = _ => destruct (check_isolation_same od y) as [? Hk] end.
  rewrite Hk in Hs4. by injection Hs4 as _ <-.
Qed.

Lemma commit_unfold submit es od s :
  commit chain_size submit es od s
    = match commit_log submit es od s with
      | (Ok (undo, lsn), s1) =>
          (_ ← catch (apply_writes chain_size (write_order od (write_set (self s)))) (abort_apply chain_size es undo);
           _ ← for_each (apply_special lsn) (special_ops od (self s));
           _ ← for_each (commit_versions lsn) (table_order od (modified_tables (self s)));
           _ ← upd_world (set_lsn lsn);
           _ ← upd_self (set_state Committed);
           _ ← release;
           mret (mkInfo (txn_id (self s)) lsn (Some lsn))) s1
      | (Err e, s1) => (Err e, s1)
      | (Panic, s1) => (Panic, s1)
      end.
Proof.
  unfold commit, commit_log. unfold mbind, stateful_bind. unfold gets, lift.
  destruct (ensure _ _); [|done..].
  destruct (collect_undo od s) as [[u|er|] s1]; [|done..].
  destruct (on_wal _ s1) as [[l|er|] s2]; [|done..].
  destruct (upd_self _ s2) as [[l2|er|] s3]; [|done..].
  destruct (check_isolation _ s3) as [[l4|er|] s4]; [|done..].
  by destruct (log_commit _ _ s4) as [[l5|er|] s5].
Qed.

(** The writes of a transaction that its tables keep as versions. *)
Definition versioned_txn s : Prop :=
  forall o k e v, registry (world s) !! o = Some e -> write_set (self s) !! (o, k) = Some v -> versioned e v.

Lemma versioned_txn_writes od s : orders_ok od -> versioned_txn s ->
  versioned_writes (registry (world s)) (write_order od (write_set (self s))).
Proof.
  intros Hod Hv. apply Forall_forall. intros [[o k] v] Hin.
  rewrite (ok_writes od Hod) in Hin. apply elem_of_map_to_list in Hin. simpl.
  destruct (registry (world s) !! o) as [e|] eqn:He; [|done]. by eapply Hv.
Qed.

Lemma applied_kind id l r r' o e' : applied id l r r' -> r' !! o = Some e' ->
  exists e, r !! o = Some e /\ (e' = e \/ same_kind e e').
Proof.
  intros Ha He. specialize (Ha o). rewrite He in Ha. destruct (r !! o) as [e|]; [|done].
  exists e. split; [done|]. destruct Ha as [[-> _]|[Hk _]]; auto.
Qed.

Lemma in_memory_modified od s r1 : orders_ok od -> only_writes (self s) -> versioned_txn s ->
  applied (txn_id (self s)) (write_order od (write_set (self s))) (registry (world s)) r1 ->
  in_memory r1 (table_order od (modified_tables (self s))).
Proof.
  intros Hod Hx Hv Ha. apply Forall_forall. intros o Ho. rewrite (ok_tables od Hod), elem_of_elements in Ho.
  apply modified_tables_writes in Ho as (k & v & Hk); [|done].
  destruct (r1 !! o) as [e1|] eqn:He1; [|done].
  destruct (applied_kind _ _ _ _ _ _ Ha He1) as (e & He & Hke). pose proof (Hv o k e v He Hk) as Hve.
  destruct Hke as [-> |Hke]; [by destruct e|by destruct e, e1].
Qed.

(** The part of [commit] behind the COMMIT record. *)
Lemma publish_spec submit es od s undo lsn s1 : orders_ok od -> only_writes (self s) -> versioned_txn s ->
  quiet s s1 -> commit_log submit es od s = (Ok (undo, lsn), s1) ->
  exists r',
    commit chain_size submit es od s
      = (Ok (mkInfo (txn_id (self s)) lsn (Some lsn)),
         mkSys (mkWorld (ConflictDetector.release_locks (conflict_detector (world s)) (txn_id (self s)))
                  (wal (world s1)) r' lsn)
               (set_state Committed (self s))) /\
    published (txn_id (self s)) lsn (write_set (self s)) (registry (world s)) r'.
Proof.
  intros Hod Hx Hv (l & st & ->) Hlog. rewrite commit_unfold, Hlog, special_ops_none by done.
  unfold catch. unfold mbind, stateful_bind.
  match goal with |- context [apply_writes _ _ ?x] => set (s1 := x) end.
  destruct (apply_writes_spec (write_order od (write_set (self s))) s1) as (r1 & -> & Ha).
  { exact (versioned_txn_writes od s Hod Hv). }
  simpl for_each. unfold mret, stateful_ret.
  match goal with |- context [for_each _ _ ?x] => set (s2 := x) end.
  destruct (commit_all_spec lsn (table_order od (modified_tables (self s)))) with (s := s2) as (r2 & -> & Hc).
  { rewrite (ok_tables od Hod). apply NoDup_elements. }
  { exact (in_memory_modified od s r1 Hod Hx Hv Ha). }
  eexists. split; [reflexivity|]. exact (published_compose od (self s) lsn _ r1 r2 Hod Hx Ha Hc).
Qed.

(** C17: a commit is atomic.  For a transaction that has only puts and
    deletions of keys, all of them on tables in memory (hash tables, and
    ordered tables without deletions), while no table has unfinished
    versions, [commit] either succeeds: then every write of the transaction
    is read at and above the commit LSN, every read below that LSN and every
    read of another key is as before, the current LSN is the commit LSN, its
    locks are free and the others' locks are kept; or it fails, and every
    table is as it was. *)
Theorem commit_atomic submit es od s (Hod : orders_ok od) (Hx : only_writes (self s))
    (Hv : versioned_txn s) (Hs : settled (registry (world s))) :
  match commit chain_size submit es od s with
  | (Ok info, s') =>
      info_tx_id info = txn_id (self s) /\ Transaction.current_lsn (world s') = commit_lsn info /\
      Transaction.state (self s') = Committed /\ settled (registry (world s')) /\
      (forall o k l, read_at (registry (world s')) o k l
         = match registry (world s) !! o, write_set (self s) !! (o, k) with
           | Some e, Some v => if commit_lsn info <=? l then Ok (shows e v) else read_at (registry (world s)) o k l
           | _, _ => read_at (registry (world s)) o k l
           end) /\
      (forall key txn, ConflictDetector.holds (conflict_detector (world s')) txn key
         <-> ConflictDetector.holds (conflict_detector (world s)) txn key /\ txn <> txn_id (self s))
  | (_, s') => registry (world s') = registry (world s)
  end.
Proof.
  destruct (commit_log submit es od s) as [[[undo lsn]|er|] s1] eqn:Hlog;
    pose proof (quiet_commit_log _ _ _ _ _ _ Hlog) as Hq.
  - destruct (publish_spec submit es od s undo lsn s1 Hod Hx Hv Hq Hlog) as (r' & -> & Hp). simpl.
    destruct (published_reads _ _ _ _ _ Hs Hp Hv) as [Hs' Hr]. split_and!; try done.
    intros key txn. unfold ConflictDetector.holds. simpl. rewrite map_lookup_filter_Some. done.
  - rewrite commit_unfold, Hlog. by destruct Hq as (l & st & ->).
  - rewrite commit_unfold, Hlog. by destruct Hq as (l & st & ->).
Qed.

(** A rollback undoes a transaction: no table and not the current LSN
    changes, and when it succeeds the locks of the transaction are free, the
    others' are kept and the transaction takes no further call. *)
Theorem rollback_spec e s :
  match rollback e s with
  | (Ok _, s') =>
      registry (world s') = registry (world s) /\
      Transaction.current_lsn (world s') = Transaction.current_lsn (world s) /\
      (forall key txn, ConflictDetector.holds (conflict_detector (world s')) txn key
         <-> ConflictDetector.holds (conflict_detector (world s)) txn key /\ txn <> txn_id (self s)) /\
      (forall o k, is_ok (get o k s').1 = false) /\
      (forall e' o k v, is_ok (put e' o k v s').1 = false) /\
      (forall submit es od, is_ok (commit chain_size submit es od s').1 = false)
  | (_, s') => registry (world s') = registry (world s) /\ conflict_detector (world s') = conflict_detector (world s)
  end.
Proof.
  unfold rollback, release. run_m. simpl. case_bool_decide as Hst; simpl; [|done].
  destruct (WalWriter.write_rollback _ _ _) as [[l|er|] w]; simpl; [|done..].
  split_and!; try done. intros key txn. unfold ConflictDetector.holds. simpl. by rewrite map_lookup_filter_Some.
Qed.

(** ** Isolation *)
(** No isolation level refuses a commit.  Reading records nothing, so a
    transaction that reads, puts and deletes has an empty read set, and the
    read-write check of [commit] passes whatever other transactions have
    locked, at the levels RepeatableRead and Serializable too. *)
Theorem serializable_never_refused od l s (Hod : orders_ok od) (Hr : read_set (self s) = ∅) :
  let s' := (run_calls l s).2 in
  (forall o k, (get o k s').2 = s') /\ read_set (self s') = ∅ /\ check_isolation od s' = (Ok tt, s').
Proof.
  assert (Hl : read_set (self (run_calls l s).2) = ∅).
  { revert s Hr. induction l as [|c l IH]; intros s Hr; simpl; [done|].
    pose proof (run_call_buffered c s) as Hc. destruct (run_call c s) as [ok s1]. destruct Hc as [(_ & _ & Hs) _].
    specialize (IH s1). destruct (run_calls l s1). apply IH. by rewrite Hs. }
  split_and!; [intros o k; by rewrite get_seen|done|].
  unfold check_isolation. run_m. rewrite Hl, set_order_empty by done. by destruct (isolation _).
Qed.

(** ** The log under a commit *)
Definition keeps_wal {A} (m : stateful (Sys F E) TransactionError A) : Prop :=
  forall s, wal (world (m s).2) = wal (world s) /\ conflict_detector (world (m s).2) = conflict_detector (world s)
            /\ self (m s).2 = self s.

Lemma keeps_on_engine o m : keeps_wal (on_engine (F := F) o m).
Proof. intros s. unfold on_engine. destruct (registry (world s) !! o) as [e|]; [|done]. by destruct (m e). Qed.
Lemma keeps_for_each {A} (f : A -> stateful (Sys F E) TransactionError unit) l :
  (forall x, keeps_wal (f x)) -> keeps_wal (for_each f l).
Proof.
  intros Hf. induction l as [|x l IH]; intros s; [done|]. simpl. unfold mbind, stateful_bind.
  specialize (Hf x s). destruct (f x s) as [[u|er|] s1]; [|exact Hf..].
  destruct (IH s1) as (-> & -> & ->). exact Hf.
Qed.
Lemma keeps_catch m : keeps_wal m -> keeps_wal (catch (F := F) (E := E) m (fun _ => mret tt)).
Proof. intros Hm s. unfold catch. specialize (Hm s). by destruct (m s) as [[u|er|] s1]. Qed.

Lemma keeps_apply_writes l : keeps_wal (apply_writes (F := F) chain_size l).
Proof. apply keeps_for_each. intros x s. apply keeps_on_engine. Qed.
Lemma keeps_commit_versions lsn l : keeps_wal (for_each (commit_versions (F := F) lsn) l).
Proof. apply keeps_for_each. intros x s. unfold commit_versions. apply keeps_on_engine. Qed.
Lemma keeps_apply_special lsn l : keeps_wal (for_each (apply_special (F := F) lsn) l).
Proof. apply keeps_for_each. intros x s. unfold apply_special. apply keeps_on_engine. Qed.
Lemma keeps_execute_undo op : keeps_wal (execute_undo (F := F) chain_size op).
Proof. intros s. unfold execute_undo. destruct op; apply keeps_on_engine. Qed.

(** A successful commit has the log of its COMMIT record. *)
Lemma commit_wal submit es od s info s' : commit chain_size submit es od s = (Ok info, s') ->
  exists undo lsn s1, commit_log submit es od s = (Ok (undo, lsn), s1) /\ wal (world s') = wal (world s1).
Proof.
  rewrite commit_unfold. destruct (commit_log submit es od s) as [[[undo lsn]|er|] s1]; [|done..].
  intros Hc. exists undo, lsn, s1. split; [done|]. revert Hc. unfold catch. unfold mbind, stateful_bind.
  destruct (keeps_apply_writes (write_order od (write_set (self s))) s1) as [Hw _].
  destruct (apply_writes chain_size _ s1) as [[[]|er|] s2]; simpl in Hw; [| |done].
  - destruct (keeps_apply_special lsn (special_ops od (self s)) s2) as [Hw2 _].
    destruct (for_each _ _ s2) as [[[]|er|] s3]; simpl in Hw2; [|done..].
    destruct (keeps_commit_versions lsn (table_order od (modified_tables (self s))) s3) as [Hw3 _].
    destruct (for_each _ _ s3) as [[[]|er|] s4]; simpl in Hw3; [|done..].
    intros [= <- <-]. simpl. congruence.
  - unfold abort_apply, gets, upd_self, upd_world, modify, release, lift. unfold mbind, stateful_bind.
    destruct (for_each _ _ s2) as [[[]|er'|] s3]; [|done..].
    by destruct (on_wal _ s3) as [[l|er'|] s4].
Qed.
End Laws.

(** ** Commit, log and recovery together *)
Section Durability.
Context `{CodecsLaws} {F : Type} `{FileLaws F} {E : Type} `{TableEngines E} (chain_size : Z).
Implicit Types (s : Sys F E).

(** The coordinator serves the committer: [submit_commit] is its flush. *)
Definition submit_now (_ : TransactionId) (_ : LogSequenceNumber) : stateful (WalWriter.t F) WalError unit :=
  WalWriter.group_flush_create.

Lemma on_wal_ok {A} (m : stateful (WalWriter.t F) WalError A) s a s' :
  on_wal (E := E) m s = (Ok a, s') -> m (wal (world s)) = (Ok a, wal (world s')) /\ self s' = self s.
Proof. unfold on_wal. destruct (m (wal (world s))) as [[x|er|] l]; [|done..]. by intros [= -> <-]. Qed.

Lemma reachable_op w rs e o lsn w' d : WalWriter.reachable w rs -> WalWriter.env_ok e -> WalWriter.op_ok o ->
  WalWriter.run e o w = (Ok lsn, w') -> WalWriter.op_data e o w = Some d ->
  exists r, WalWriter.reachable w' (rs ++ [r]) /\ WalRecord.data r = d.
Proof.
  intros Hr He Ho Hrun Hd. pose proof (WalWriter.reachable_run _ _ _ _ _ _ Hr He Ho Hrun) as Hr'.
  unfold WalWriter.op_records in Hr'. rewrite Hd in Hr'. by eexists.
Qed.

Lemma reachable_flush w rs e w' : WalWriter.reachable w rs -> WalWriter.env_ok e ->
  WalWriter.flush w = (Ok tt, w') -> WalWriter.reachable w' rs.
Proof.
  intros Hr He Hf. rewrite <- (app_nil_r rs).
  eapply (WalWriter.reachable_run w rs e WalWriter.OpFlush); [done|done|done|].
  simpl. unfold mbind, stateful_bind. by rewrite Hf.
Qed.

Lemma log_commit_records e e' s rs lsn s1 :
  WalWriter.reachable (wal (world s)) rs -> WalWriter.env_ok e -> WalWriter.env_ok e' ->
  is_u64 (txn_id (self s)) -> log_commit submit_now e s = (Ok lsn, s1) ->
  exists rc, WalWriter.reachable (wal (world s1)) (rs ++ [rc]) /\
    WalRecord.data rc = RecordData.Commit (txn_id (self s)).
Proof.
  intros Hr He He' Hid Hc. unfold log_commit in Hc. sinv. apply on_wal_ok in Hs0 as [Hw _].
  destruct (reachable_op _ _ e (WalWriter.OpCommit (txn_id (self s))) _ _ _ Hr He Hid Hw eq_refl) as (rc & Hrc & Hd).
  exists rc. split; [|done]. injection Hc as _ <-.
  destruct (durability (self s)); try by injection Hs1 as _ <-.
  apply on_wal_ok in Hs1 as [Hf _]. destruct x1. by eapply reachable_flush.
Qed.

(** A commit logs PREPARE and COMMIT. *)
Lemma commit_log_records es od s rs undo lsn s1 :
  WalWriter.reachable (wal (world s)) rs -> (forall i, WalWriter.env_ok (es i)) -> is_u64 (txn_id (self s)) ->
  commit_log submit_now es od s = (Ok (undo, lsn), s1) ->
  exists rp rc, WalWriter.reachable (wal (world s1)) (rs ++ [rp; rc]) /\
    WalRecord.data rp = RecordData.Prepare (txn_id (self s)) /\
    WalRecord.data rc = RecordData.Commit (txn_id (self s)).
Proof.
  intros Hr He Hid Hc. unfold commit_log in Hc. sinv.
  destruct (collect_undo_same od s) as [u Hu]. rewrite Hu in Hs1. injection Hs1 as _ <-.
  apply on_wal_ok in Hs2 as [Hp Hself]. injection Hs3 as _ <-.
  destruct (check_isolation_same od (mkSys (world s4) (set_state Preparing (self s4)))) as [c Hch].
  rewrite Hch in Hs4. injection Hs4 as _ <-. injection Hc as _ _ <-.
  destruct (reachable_op _ _ (es 0%nat) (WalWriter.OpPrepare (txn_id (self s))) _ _ _ Hr (He _) Hid Hp eq_refl)
    as (rp & Hrp & Hdp).
  apply (log_commit_records _ (es 0%nat)) with (rs := rs ++ [rp]) in Hs5 as (rc & Hrc & Hdc); simpl in *;
    [|done|apply He|apply He|by rewrite Hself].
  exists rp, rc. rewrite <- app_assoc in Hrc. split_and!; [done|done|]. by rewrite Hdc, Hself.
Qed.

(** What the log is to say of a call. *)
Definition call_write (c : Call) : WalRecovery.RecoveredWrite :=
  match c with
  | CPut _ o k v => WalRecovery.mkWrite o WriteOpType.Put k v
  | CDelete _ o k => WalRecovery.mkWrite o WriteOpType.Delete k []
  end.
Definition call_env (c : Call) : WalWriter.Env := match c with CPut e _ _ _ | CDelete e _ _ => e end.
Definition call_op (id : TransactionId) (c : Call) : WalWriter.Op :=
  let w := call_write c in
  WalWriter.OpWrite id (WalRecovery.table_id w) (WalRecovery.op_type w) (WalRecovery.key w) (WalRecovery.value w).
(** Keys, values and identifiers fit the fields of a record. *)
Definition call_ok (id : TransactionId) (c : Call) : Prop :=
  WalWriter.env_ok (call_env c) /\ WalWriter.op_ok (call_op id c).

Lemma run_call_logs c s :
  run_call c s = (true, (run_call c s).2) ->
  exists lsn, WalWriter.run (call_env c) (call_op (txn_id (self s)) c) (wal (world s))
                = (Ok lsn, wal (world (run_call c s).2)).
Proof.
  destruct c as [e o k v|e o k]; simpl.
  - unfold put. run_m. simpl. destruct (is_active (self s)); simpl; [|done].
    destruct (ConflictDetector.check_write_conflict _ _ _ _) as [u|er|]; simpl; [|done..].
    destruct (WalWriter.write_operation _ _ _ _ _ _ _) as [[l|er|] w]; simpl; [|done..]. by exists l.
  - unfold delete. run_m. simpl. destruct (is_active (self s)); simpl; [|done].
    destruct (ConflictDetector.check_write_conflict _ _ _ _) as [u|er|]; simpl; [|done..].
    destruct (key_existed_same o k (mkSys (set_detector (ConflictDetector.acquire_write_lock
      (conflict_detector (world s)) o k (txn_id (self s))) (world s)) (self s))) as [ex ->].
    destruct ex as [b|er|]; simpl; [|done..].
    destruct (WalWriter.write_operation _ _ _ _ _ _ _) as [[l|er|] w]; simpl; [|done..]. by exists l.
Qed.

(** Successful calls log their writes, in order. *)
Lemma run_calls_logged l : forall s rs s',
  WalWriter.reachable (wal (world s)) rs -> Forall (call_ok (txn_id (self s))) l ->
  run_calls l s = (map written l, s') ->
  txn_id (self s') = txn_id (self s) /\
  exists rsw, WalWriter.reachable (wal (world s')) (rs ++ rsw) /\
    map WalRecord.data rsw = map (fun x => RecordData.Write (txn_id (self s)) (WalRecovery.table_id x)
      (WalRecovery.op_type x) (WalRecovery.key x) (WalRecovery.value x)) (map call_write l).
Proof.
  induction l as [|c l IH]; intros s rs s' Hr Hok Hrun; simpl in Hrun.
  - injection Hrun as <-. split; [done|]. exists []. by rewrite app_nil_r.
  - apply Forall_cons in Hok as [[He Hop] Hok].
    pose proof (run_call_buffered c s) as Hb. pose proof (run_call_logs c s) as Hlog.
    destruct (run_call c s) as [ok s1]. simpl in Hlog. destruct Hb as [(_ & _ & Hself) _].
    assert (Hlen : (length (run_calls l s1).1 <= length l)%nat).
    { clear. revert s1. induction l as [|c l IH]; intros s; simpl; [lia|].
      destruct (run_call c s) as [ok s2]. specialize (IH s2).
      destruct (run_calls l s2). simpl in *. destruct ok; simpl; lia. }
    destruct (run_calls l s1) as [ws s2] eqn:Hl. simpl in Hlen.
    destruct ok; injection Hrun as Hws <-; [|subst ws; simpl in Hlen; rewrite length_map in Hlen; lia].
    destruct (Hlog eq_refl) as [lsn Hw]. assert (Hid : txn_id (self s1) = txn_id (self s)) by (by rewrite Hself).
    destruct (reachable_op _ _ _ _ _ _ _ Hr He Hop Hw eq_refl) as (r & Hr1 & Hd).
    destruct (IH s1 _ s2 Hr1) as (Hid2 & rsw & Hr2 & Hm); [by rewrite Hid|by rewrite Hl; subst ws|].
    rewrite Hid in Hid2, Hm. split; [done|]. exists (r :: rsw). split; [by rewrite <- app_assoc in Hr2|].
    simpl. by rewrite Hd, Hm.
Qed.

(** C18: a commit is not durable in the sense of recovery.  A transaction is
    begun on a log a writer has written, its calls succeed, and [commit]
    succeeds: then the log has, behind what was there, BEGIN, the write of
    every call in order, PREPARE and COMMIT, and is the log of a writer.
    Wherever recovery accepted the log before, it accepts it now and takes
    the transaction for committed; but [process_record] takes PREPARE for a
    new beginning, and it returns none of the transaction's writes. *)
Theorem commit_not_recovered e es od id snap iso dur w calls rs lsn wl s info s'
    (Hr : WalWriter.reachable (wal w) rs)
    (He : WalWriter.env_ok e) (Hes : forall i, WalWriter.env_ok (es i)) (Hid : is_u64 id)
    (Hbegin : WalWriter.write_begin e id (wal w) = (Ok lsn, wl))
    (Hcalls : Forall (call_ok id) calls)
    (Hrun : run_calls calls (new e id snap iso dur w) = (map written calls, s))
    (Hc : commit chain_size submit_now es od s = (Ok info, s')) :
  exists rsw, WalWriter.reachable (wal (world s')) (rs ++ rsw) /\
    map WalRecord.data rsw = WalRecovery.two_phase id (map call_write calls) /\
    forall st0, WalRecovery.process_all WalRecovery.new rs = Ok st0 ->
      exists st, WalRecovery.process_all WalRecovery.new (rs ++ rsw) = Ok st /\
        WalRecovery.transactions st !! id = Some WalRecovery.Committed /\
        WalRecovery.writes_if_committed st id = [].
Proof.
  destruct (reachable_op _ _ e (WalWriter.OpBegin id) _ _ _ Hr He Hid Hbegin eq_refl) as (rb & Hrb & Hdb).
  destruct (run_calls_logged calls (new e id snap iso dur w) (rs ++ [rb]) s) as (Hids & rsw & Hrw & Hdw);
    [simpl; by rewrite Hbegin|done..|]. simpl in Hids, Hdw.
  apply commit_wal in Hc as (undo & lsn' & s1 & Hlog & Hw).
  destruct (commit_log_records es od s _ undo lsn' s1 Hrw Hes) as (rp & rc & Hrr & Hp & Hco);
    [by rewrite Hids|done|]. rewrite Hids in Hp, Hco.
  set (log := rb :: rsw ++ [rp; rc]).
  assert (Hd : map WalRecord.data log = WalRecovery.two_phase id (map call_write calls)).
  { unfold log, WalRecovery.two_phase. simpl. by rewrite map_app, Hdb, Hdw; simpl; rewrite Hp, Hco. }
  exists log. split_and!; [|done|].
  - unfold log. rewrite Hw. by rewrite <- !app_assoc in Hrr.
  - intros st0 Hst0. destruct (WalRecovery.two_phase_replay _ _ _ st0 Hd) as (_ & _ & st & Hst & _ & Htr & Hn).
    exists st. by rewrite WalRecovery.process_all_app, Hst0.
Qed.

Lemma scan_commit rs r txn : WalRecord.data r = RecordData.Commit txn -> txn ∉ (WalWriter.scan (rs ++ [r])).2.
Proof.
  intros Hd. rewrite WalWriter.scan_snoc. unfold WalWriter.scan_record. rewrite Hd.
  destruct (WalWriter.scan rs) as [l a]. simpl. set_solver.
Qed.

Lemma keeps_undo_all ops : keeps_wal (F := F) (for_each (fun op => catch (execute_undo chain_size op) (fun _ => mret tt)) ops).
Proof. apply keeps_for_each. intros op. apply keeps_catch, keeps_execute_undo. Qed.

(** C20: a commit whose writes cannot be applied leaves the transaction
    stuck: its COMMIT record is in the log, so the ROLLBACK record is refused
    and [commit] returns before it releases the locks; they are held for
    ever, by a transaction that no longer exists. *)
Theorem failed_apply_keeps_locks es od s rs undo lsn s1 er s2
    (Hr : WalWriter.reachable (wal (world s)) rs) (He : forall i, WalWriter.env_ok (es i))
    (Hid : is_u64 (txn_id (self s)))
    (Hlog : commit_log submit_now es od s = (Ok (undo, lsn), s1))
    (Happly : apply_writes chain_size (write_order od (write_set (self s))) s1 = (Err er, s2)) :
  match commit chain_size submit_now es od s with
  | (Ok _, _) => False
  | (_, s') =>
      conflict_detector (world s') = conflict_detector (world s) /\
      wal (world s') = wal (world s1) /\ Transaction.state (self s') <> Aborted
  end.
Proof.
  destruct (commit_log_records es od s rs undo lsn s1 Hr He Hid Hlog) as (rp & rc & Hrr & _ & Hco).
  pose proof (WalWriter.winv_active _ _ (WalWriter.reachable_inv _ _ Hrr)) as Hact.
  change [rp; rc] with ([rp] ++ [rc]) in Hact. rewrite app_assoc in Hact.
  pose proof (scan_commit (rs ++ [rp]) rc _ Hco) as Hna. unfold WalWriter.active_inv in Hact. rewrite <- Hact in Hna.
  pose proof (quiet_commit_log _ _ _ _ _ _ Hlog) as Hq.
  assert (Hst : Transaction.state (self s1) = Preparing) by (by eapply commit_log_state).
  destruct (keeps_apply_writes chain_size (write_order od (write_set (self s))) s1) as (Hw2 & Hd2 & Hs2).
  rewrite Happly in Hw2, Hd2, Hs2. simpl in Hw2, Hd2, Hs2.
  assert (Hd1 : conflict_detector (world s1) = conflict_detector (world s) /\ txn_id (self s1) = txn_id (self s))
    by (by destruct Hq as (l & st & ->)).
  destruct Hd1 as [Hd1 Hid1]. rewrite commit_unfold, Hlog. unfold catch. unfold mbind, stateful_bind. rewrite Happly.
  unfold abort_apply, gets. unfold mbind, stateful_bind.
  destruct (keeps_undo_all (rev undo) s2) as (Hw3 & Hd3 & Hs3).
  destruct (for_each _ _ s2) as [[[]|er3|] s3]; simpl in Hw3, Hd3, Hs3; [|split_and!; congruence..].
  unfold on_wal. unfold WalWriter.write_rollback. unfold mbind, stateful_bind. unfold WalWriter.require_active, gets, lift.
  unfold mbind, stateful_bind. rewrite bool_decide_eq_false_2 by (rewrite Hw3, Hw2, Hs2, Hid1; done). simpl.
  split_and!; congruence.
Qed.
End Durability.

(** ** Concrete runs *)
Section Demo.
#[local] Existing Instance ToyCodecs.toy.

Definition demo_orders : Orders := mkOrders map_to_list elements elements.
Lemma demo_orders_ok : orders_ok demo_orders.
Proof. by split. Qed.

Definition demo_btree : MemoryBTree.t := Scan.sample.
Definition demo_world : World MemoryFile.t Empty_set :=
  mkWorld ConflictDetector.new WalWriter.demo0
    {[ 1 := EMemoryHashTable (MemoryHashTable.new 1 "h"); 2 := EMemoryBTree demo_btree ]} 7.
(** Transaction 5 with one write of the hash table. *)
Definition demo_sys : Sys MemoryFile.t Empty_set :=
  (put WalWriter.demo_env 1 [1] [2] (new WalWriter.demo_env 5 7 Serializable SyncOnCommit demo_world)).2.
Definition demo_commit (s : Sys MemoryFile.t Empty_set) : outcome TransactionError CommitInfo * Sys MemoryFile.t Empty_set :=
  commit 96 submit_now (fun _ => WalWriter.demo_env) demo_orders s.

Lemma demo_wal : wal (world demo_sys) = WalWriter.demo1.
Proof. vm_compute. reflexivity. Qed.
Lemma demo_versioned : versioned_txn demo_sys.
Proof.
  intros o k e v He Hw. assert (Hws : write_set (self demo_sys) = {[ (1, [1]) := Some [2] ]}) by (vm_compute; reflexivity).
  rewrite Hws in Hw. apply lookup_singleton_Some in Hw as [[= <- <-] <-].
  change (registry (world demo_sys)) with (registry demo_world) in He. simpl in He.
  rewrite lookup_insert_eq in He. by injection He as <-.
Qed.
Lemma demo_settled : settled (registry (world demo_sys)).
Proof.
  intros o e k He. change (registry (world demo_sys)) with (registry demo_world) in He. simpl in He.
  apply lookup_insert_Some in He as [[_ <-]|[_ He]]; [done|].
  apply lookup_singleton_Some in He as [_ <-].
  change (head_committed (BTreeMap.get (MemoryBTree.data demo_btree) k)).
  assert (Ha : Forall (fun x => head_committed (Some x.2)) (MemoryBTree.data demo_btree))
    by (vm_compute; repeat constructor; discriminate).
  destruct (BTreeMap.get (MemoryBTree.data demo_btree) k) as [c|] eqn:Hc; [|done].
  apply BTreeMap.get_elem in Hc; [|vm_compute; repeat constructor].
  rewrite Forall_forall in Ha. exact (Ha _ Hc).
Qed.

Lemma commit_atomic_witness :
  exists info s', demo_commit demo_sys = (Ok info, s') /\ commit_lsn info = 4 /\
    read_at (registry (world s')) 1 [1] 4 = Ok (Some [2]) /\ read_at (registry (world s')) 1 [1] 3 = Ok None.
Proof.
  pose proof (commit_atomic (E := Empty_set) 96 submit_now (fun _ => WalWriter.demo_env) demo_orders demo_sys
    demo_orders_ok ltac:(vm_compute; repeat split) demo_versioned demo_settled) as Hc.
  fold (demo_commit demo_sys) in Hc.
  assert (Hok : exists info s', demo_commit demo_sys = (Ok info, s') /\ commit_lsn info = 4)
    by (do 2 eexists; split; vm_compute; reflexivity).
  destruct Hok as (info & s' & Hok & Hlsn). rewrite Hok in Hc. destruct Hc as (_ & _ & _ & _ & Hr & _).
  exists info, s'. split; [done|]. split; [done|]. rewrite !Hr, Hlsn. split; vm_compute; reflexivity.
Defined.

Lemma range_delete_spec_witness :
  exists s', range_delete (fun _ => WalWriter.demo_env) 2 (Range (Included [1]) (Excluded [3])) demo_sys = (Ok 2, s') /\
    (get 2 [1] s').1 = Ok None /\ (get 2 [3] s').1 = Ok (Some [30]).
Proof.
  assert (Hok : exists s', range_delete (fun _ => WalWriter.demo_env) 2 (Range (Included [1]) (Excluded [3])) demo_sys
    = (Ok 2, s')) by (eexists; vm_compute; reflexivity).
  destruct Hok as [s' Hok]. exists s'. split; [done|].
  destruct (range_delete_spec (E := Empty_set) (fun _ => WalWriter.demo_env) 2 (Range (Included [1]) (Excluded [3]))
    demo_btree demo_sys 2 s') as [_ Hg]; [vm_compute; reflexivity|vm_compute; repeat constructor|exact Hok|].
  rewrite !Hg. split; vm_compute; reflexivity.
Defined.

(** Write skew: transactions 5 and 6, both serializable, read both keys; 5
    writes one, 6 the other. *)
Definition skew (k : bytes) (id : TransactionId) (w : World MemoryFile.t Empty_set) : Sys MemoryFile.t Empty_set :=
  new WalWriter.demo_env id 7 Serializable SyncOnCommit w.
Lemma serializable_never_refused_witness :
  let s5 := (run_calls [CPut WalWriter.demo_env 1 [1] [5]] (skew [1] 5 demo_world)).2 in
  let s6 := (run_calls [CPut WalWriter.demo_env 1 [2] [6]] (skew [2] 6 (world s5))).2 in
  let r5 := demo_commit (mkSys (world s6) (self s5)) in
  check_isolation demo_orders s6 = (Ok tt, s6) /\
  is_ok r5.1 = true /\ is_ok (demo_commit (mkSys (world r5.2) (self s6))).1 = true.
Proof.
  intros s5 s6 r5. split; [|split; vm_compute; reflexivity].
  apply (serializable_never_refused (E := Empty_set) demo_orders [CPut WalWriter.demo_env 1 [2] [6]]
    (skew [2] 6 (world s5)) demo_orders_ok). reflexivity.
Defined.

Lemma demo_call_ok : call_ok 5 (CPut WalWriter.demo_env 1 [1] [2]).
Proof. split; [exact WalWriter.demo_env_ok|]. simpl. split_and!; try done; by repeat constructor. Qed.

(** Transaction 5 puts a key, commits, and its write is not recovered. *)
Lemma commit_not_recovered_witness :
  exists info s' rsw, demo_commit demo_sys = (Ok info, s') /\
    WalWriter.reachable (wal (world s')) rsw /\
    map WalRecord.data rsw
      = WalRecovery.two_phase 5 [WalRecovery.mkWrite 1 WriteOpType.Put [1] [2]] /\
    exists st, WalRecovery.process_all WalRecovery.new rsw = Ok st /\
      WalRecovery.transactions st !! 5 = Some WalRecovery.Committed /\
      WalRecovery.writes_if_committed st 5 = [].
Proof.
  assert (Hok : exists info s', demo_commit demo_sys = (Ok info, s')) by (do 2 eexists; vm_compute; reflexivity).
  destruct Hok as (info & s' & Hok). exists info, s'.
  destruct (commit_not_recovered (E := Empty_set) 96 WalWriter.demo_env (fun _ => WalWriter.demo_env) demo_orders
    5 7 Serializable SyncOnCommit demo_world [CPut WalWriter.demo_env 1 [1] [2]] [] 1
    (WalWriter.write_begin WalWriter.demo_env 5 (wal demo_world)).2 demo_sys info s') as (rsw & Hr & Hd & Hst).
  - exact WalWriter.demo0_reachable.
  - exact WalWriter.demo_env_ok.
  - intros _. exact WalWriter.demo_env_ok.
  - vm_compute. split; [discriminate|reflexivity].
  - vm_compute. reflexivity.
  - constructor; [exact demo_call_ok|constructor].
  - vm_compute. reflexivity.
  - exact Hok.
  - exists rsw. split; [exact Hok|]. split; [exact Hr|]. split; [exact Hd|].
    exact (Hst WalRecovery.new eq_refl).
Defined.

(** A registry with a Bloom filter, which takes no put. *)
#[local] Instance bloom_only : TableEngines unit := {|
  engine_get _ _ _ _ := Err Other; engine_might_contain _ _ := Ok false; engine_scan _ _ _ _ := Err Other;
  engine_write _ _ _ _ _ := fun e => (Err Other, e); engine_special _ _ _ := fun e => (Ok tt, e);
  engine_add_tombstone _ _ _ := fun e => (Ok tt, e); engine_commit_versions _ _ _ := fun e => (Ok tt, e) |}.
Definition bloom_sys : Sys MemoryFile.t unit :=
  (put WalWriter.demo_env 1 [1] [2] (new WalWriter.demo_env 5 7 Serializable SyncOnCommit
     (mkWorld ConflictDetector.new WalWriter.demo0 {[ 1 := EOther PagedBloomFilter tt ]} 7))).2.

Lemma failed_apply_keeps_locks_witness :
  let r := commit 96 submit_now (fun _ => WalWriter.demo_env) demo_orders bloom_sys in
  is_ok r.1 = false /\ ConflictDetector.holds (conflict_detector (world r.2)) 5 (1, [1]).
Proof.
  assert (Hlog : exists undo lsn s1, commit_log submit_now (fun _ => WalWriter.demo_env) demo_orders bloom_sys
    = (Ok (undo, lsn), s1) /\ exists er s2,
      apply_writes 96 (write_order demo_orders (write_set (self bloom_sys))) s1 = (Err er, s2)).
  { do 3 eexists. split; [vm_compute; reflexivity|]. do 2 eexists. vm_compute. reflexivity. }
  destruct Hlog as (undo & lsn & s1 & Hlog & er & s2 & Happly).
  pose proof (failed_apply_keeps_locks 96 (fun _ => WalWriter.demo_env) demo_orders bloom_sys WalWriter.demo_records
    undo lsn s1 er s2) as Hf.
  assert (Hw : wal (world bloom_sys) = WalWriter.demo1) by (vm_compute; reflexivity).
  rewrite Hw in Hf. specialize (Hf WalWriter.demo1_reachable (fun _ => WalWriter.demo_env_ok)
    ltac:(vm_compute; split; [discriminate|reflexivity]) Hlog Happly).
  assert (Hh : ConflictDetector.holds (conflict_detector (world bloom_sys)) 5 (1, [1])) by (vm_compute; reflexivity).
  intros r. fold r in Hf. clearbody r.
  destruct r as [[i|e|] s']; [destruct Hf|..]; destruct Hf as [Hd _]; (split; [reflexivity|]);
    simpl; rewrite Hd; exact Hh.
Defined.
End Demo.
End TransactionLaws.
