(* ===== verification/PageStore.v ===== *)
(** * The pages a table is kept in

    What a paged table asks of the pager, as a type class: [PageStore] lists
    the calls, [PageStoreLaws] what they promise, [MemoryPages] is the plain
    implementation with a map of pages.  The pager implements the class in
    [PagerPages.v].

    Code with loops over linked pages is [fuelled]: [None] stands for a loop
    that ran out of fuel, which the theorems exclude. *)
From S2P Require Import Prelude Types Page.

(** ** Stateful code with loops *)
Definition fuelled (S E A : Type) : Type := S -> option (outcome E A * S).

#[global] Instance fuelled_ret {S E} : MRet (fuelled S E) := fun A a s => Some (Ok a, s).
#[global] Instance fuelled_bind {S E} : MBind (fuelled S E) := fun A B f m s =>
  match m s with
  | Some (Ok a, s') => f a s'
  | Some (Err e, s') => Some (Err e, s')
  | Some (Panic, s') => Some (Panic, s')
  | None => None
  end.

Definition run {S E A} (m : stateful S E A) : fuelled S E A := fun s => Some (m s).
Definition out_of_fuel {S E A} : fuelled S E A := fun _ => None.
Definition raise {S E A} (e : E) : fuelled S E A := fun s => Some (Err e, s).
Definition panic {S E A} : fuelled S E A := fun s => Some (Panic, s).
Definition ask {S E A} (f : S -> A) : fuelled S E A := fun s => Some (Ok (f s), s).
Definition update {S E} (f : S -> S) : fuelled S E unit := fun s => Some (Ok tt, f s).
(** A result computed without touching the state, passed on with [?]. *)
Definition give {S E A} (m : outcome E A) : fuelled S E A := fun s => Some (m, s).

#[global] Arguments run {S E A} m s /.
#[global] Arguments raise {S E A} e s /.
#[global] Arguments panic {S E A} s /.
#[global] Arguments ask {S E A} f s /.
#[global] Arguments update {S E} f s /.
#[global] Arguments give {S E A} m s /.

Lemma fbind_ok {S E A B} (m : fuelled S E A) (f : A -> fuelled S E B) s a s' :
  m s = Some (Ok a, s') -> (m ≫= f) s = f a s'.
Proof. unfold mbind, fuelled_bind. by intros ->. Qed.

(** ** The calls *)
Class PageStore (S : Type) : Type := {
  data_size : S -> Z;
  page_bytes : S -> Z;
  next_page_id : S -> Z;
  read_page : PageId -> stateful S PagerError bytes;
  write_page : PageId -> PageType.t -> bytes -> stateful S PagerError unit;
  allocate_page : PageType.t -> stateful S PagerError PageId;
  free_page : PageId -> stateful S PagerError unit;
  root_btree_page : S -> PageId;
  set_root_btree_page : PageId -> stateful S PagerError unit;
  btree_row_count : S -> Z;
  set_btree_row_count : Z -> stateful S PagerError unit;
  read_overflow_chain : PageId -> fuelled S PagerError bytes;
  free_overflow_chain : PageId -> fuelled S PagerError unit;
  write_overflow_page : PageId -> bytes -> option PageId -> stateful S PagerError unit;
  link_overflow_pages : PageId -> PageId -> stateful S PagerError unit;
  free_value_refs : list ValueRef.t -> fuelled S PagerError Z;
}.

(** What no call but the setters changes. *)
Record same_store {S} `{PageStore S} (s s' : S) : Prop := {
  ss_size : data_size s' = data_size s;
  ss_next : next_page_id s' = next_page_id s;
  ss_root : root_btree_page s' = root_btree_page s;
  ss_rows : btree_row_count s' = btree_row_count s }.

(** [after faults m s Q]: the call returns a value for which [Q] holds, or
    fails where [faults] admits failure. *)
Definition after {S E A} (faults : Prop) (m : stateful S E A) (s : S) (Q : A -> S -> Prop) : Prop :=
  match m s with
  | (Ok a, s') => Q a s'
  | (_, _) => faults
  end.

(** [holds s m]: the live pages of the store and their data.  [store_faults]
    says whether calls may fail: a file may, the pages in memory may not. *)
Class PageStoreLaws (S : Type) `{PageStore S} : Type := {
  holds : S -> gmap PageId bytes -> Prop;
  store_faults : Prop;
  data_size_bounds s m : holds s m -> 1024 <= data_size s <= 65536;
  next_page_bound s m : holds s m -> 0 < next_page_id s < 2 ^ 64;
  next_page_fresh s m p : holds s m -> is_Some (m !! p) -> 0 < p < next_page_id s;
  read_page_ok s m p d :
    holds s m -> m !! p = Some d ->
    exists s', read_page p s = (Ok d, s') /\ holds s' m /\ same_store s s';
  write_page_ok s m p ty d :
    holds s m -> is_Some (m !! p) -> PageType.readable ty = true -> zlen d <= data_size s ->
    after store_faults (write_page p ty d) s (fun _ s' =>
      holds s' (<[p := d]> m) /\ same_store s s');
  allocate_page_ok s m ty :
    holds s m -> PageType.readable ty = true -> next_page_id s + 1 < 2 ^ 64 ->
    after store_faults (allocate_page ty) s (fun p s' =>
      p = next_page_id s /\ next_page_id s' = p + 1 /\ m !! p = None /\ 0 < p /\
      holds s' (<[p := []]> m) /\ data_size s' = data_size s /\
      root_btree_page s' = root_btree_page s /\ btree_row_count s' = btree_row_count s);
  free_page_ok s m p :
    holds s m -> is_Some (m !! p) ->
    after store_faults (free_page p) s (fun _ s' => holds s' (delete p m) /\ same_store s s');
  set_root_ok s m p :
    holds s m -> is_u64 p ->
    after store_faults (set_root_btree_page p) s (fun _ s' =>
      holds s' m /\ data_size s' = data_size s /\ next_page_id s' = next_page_id s /\
      root_btree_page s' = p /\ btree_row_count s' = btree_row_count s);
  set_rows_ok s m n :
    holds s m -> is_u64 n ->
    after store_faults (set_btree_row_count n) s (fun _ s' =>
      holds s' m /\ data_size s' = data_size s /\ next_page_id s' = next_page_id s /\
      root_btree_page s' = root_btree_page s /\ btree_row_count s' = n);
}.

Lemma same_store_refl {S} `{PageStore S} s : same_store s s.
Proof. done. Qed.
Lemma same_store_trans {S} `{PageStore S} s1 s2 s3 :
  same_store s1 s2 -> same_store s2 s3 -> same_store s1 s3.
Proof. intros [] []. constructor; congruence. Qed.

(** ** Calls that may fail with the store *)
Lemma after_bind {S E A B} faults (m : stateful S E A) (f : A -> stateful S E B) s Q R :
  after faults m s Q -> (forall a s', Q a s' -> after faults (f a) s' R) -> after faults (m ≫= f) s R.
Proof.
  unfold after, mbind, stateful_bind. destruct (m s) as [[a|e|] s']; [|done|done]. intros Hq Hf. exact (Hf a s' Hq).
Qed.
Lemma after_mono {S E A} faults (m : stateful S E A) s (Q R : A -> S -> Prop) :
  after faults m s Q -> (forall a s', Q a s' -> R a s') -> after faults m s R.
Proof. unfold after. destruct (m s) as [[a|e|] s']; auto. Qed.
Lemma after_lift {S E A} faults (m : outcome E A) (s : S) a (Q : A -> S -> Prop) : m = Ok a -> Q a s -> after faults (lift m) s Q.
Proof. by intros ->. Qed.
Lemma after_gets {S E A} faults (f : S -> A) (s : S) (Q : A -> S -> Prop) : Q (f s) s -> after (E := E) faults (gets f) s Q.
Proof. done. Qed.
Lemma after_get_bind {S E A B} faults (g : S -> A) (f : A -> stateful S E B) s R :
  after faults (f (g s)) s R -> after faults (gets g ≫= f) s R.
Proof. done. Qed.

(** ** Calls that only read *)
Section Reads.
Context {P : Type} `{PageStoreLaws P}.

Definition reads {E A} (m : gmap PageId bytes) (x : stateful P E A) (r : outcome E A) : Prop :=
  forall st, holds st m -> exists st', x st = (r, st') /\ holds st' m /\ same_store st st'.

Lemma reads_bind {E A B} m (x : stateful P E A) (f : A -> stateful P E B) a r :
  reads m x (Ok a) -> reads m (f a) r -> reads m (x ≫= f) r.
Proof.
  intros Hx Hf st Hh. destruct (Hx st Hh) as (st1 & H1 & Hh1 & Hs1). destruct (Hf st1 Hh1) as (st2 & H2 & Hh2 & Hs2).
  exists st2. split; [|split; [done|by eapply same_store_trans]]. by rewrite (sbind_ok _ _ _ _ _ H1).
Qed.
Lemma reads_lift {E A} m (x : outcome E A) r : x = r -> reads m (lift x) r.
Proof. intros <- st Hh. by exists st. Qed.
Lemma reads_ret {E A} m (a : A) : reads (E := E) m (mret a) (Ok a).
Proof. intros st Hh. by exists st. Qed.
End Reads.

(** ** Pages in a map *)
Module MemoryPages.

Record t : Type := mk {
  size : Z; next : PageId; pages : gmap PageId bytes; links : gmap PageId PageId;
  root : PageId; rows : Z }.

Definition new : t := mk 4032 2 ∅ ∅ 0 0.
Definition set_pages (m : gmap PageId bytes) (s : t) : t :=
  mk (size s) (next s) m (links s) (root s) (rows s).

Definition read (p : PageId) : stateful t PagerError bytes := fun s =>
  match pages s !! p with Some d => (Ok d, s) | None => (Err (PageNotFound p), s) end.
Definition write (p : PageId) (_ : PageType.t) (d : bytes) : stateful t PagerError unit := fun s =>
  (Ok tt, set_pages (<[p := d]> (pages s)) s).
Definition allocate (_ : PageType.t) : stateful t PagerError PageId := fun s =>
  (Ok (next s), mk (size s) (next s + 1) (<[next s := []]> (pages s)) (links s) (root s) (rows s)).
Definition free (p : PageId) : stateful t PagerError unit := fun s =>
  (Ok tt, set_pages (delete p (pages s)) s).

Fixpoint chain (fuel : nat) (p : PageId) (s : t) : option (list PageId) :=
  match fuel with
  | O => None
  | S fuel =>
      match links s !! p with
      | Some q => cons p <$> chain fuel q s
      | None => Some [p]
      end
  end.
Definition read_chain (p : PageId) : fuelled t PagerError bytes := fun s =>
  match chain (S (Datatypes.length (map_to_list (links s)))) p s with
  | Some l => Some (Ok (mjoin (map (fun q => default [] (pages s !! q)) l)), s)
  | None => None
  end.
Definition free_chain (p : PageId) : fuelled t PagerError unit := fun s =>
  match chain (S (Datatypes.length (map_to_list (links s)))) p s with
  | Some l => Some (Ok tt, set_pages (foldr delete (pages s) l) s)
  | None => None
  end.
Definition write_overflow (p : PageId) (d : bytes) (q : option PageId) : stateful t PagerError unit := fun s =>
  (Ok tt, mk (size s) (next s) (<[p := d]> (pages s))
             (match q with Some q => <[p := q]> (links s) | None => delete p (links s) end) (root s) (rows s)).
Definition link (p q : PageId) : stateful t PagerError unit := fun s =>
  (Ok tt, mk (size s) (next s) (pages s) (<[p := q]> (links s)) (root s) (rows s)).

Fixpoint free_refs (l : list ValueRef.t) (n : Z) : fuelled t PagerError Z :=
  match l with
  | [] => mret n
  | ValueRef.Inline :: l => free_refs l n
  | ValueRef.SinglePage p _ _ :: l => _ ← run (free p); free_refs l (n + 1)
  | ValueRef.OverflowChain p _ c :: l => _ ← free_chain p; free_refs l (n + c)
  end.

#[global] Instance store : PageStore t := {|
  data_size := size; page_bytes s := size s + 64; next_page_id := next; read_page := read; write_page := write;
  allocate_page := allocate; free_page := free; root_btree_page := root;
  set_root_btree_page p := fun s => (Ok tt, mk (size s) (next s) (pages s) (links s) p (rows s));
  btree_row_count := rows;
  set_btree_row_count n := fun s => (Ok tt, mk (size s) (next s) (pages s) (links s) (root s) n);
  read_overflow_chain := read_chain; free_overflow_chain := free_chain;
  write_overflow_page := write_overflow; link_overflow_pages := link;
  free_value_refs l := free_refs l 0 |}.

Definition holds_pages (s : t) (m : gmap PageId bytes) : Prop :=
  pages s = m /\ 1024 <= size s <= 65536 /\ 0 < next s < 2 ^ 64 /\
  forall p, is_Some (m !! p) -> 0 < p < next s.

#[global] Program Instance store_laws : PageStoreLaws t :=
  {| holds := holds_pages; store_faults := False |}.
Next Obligation. by intros s m (_ & ? & _). Qed.
Next Obligation. by intros s m (_ & _ & ? & _). Qed.
Next Obligation. intros s m p (_ & _ & _ & Hp) Hs. by apply Hp. Qed.
Next Obligation.
  intros s m p d (<- & ?) Hd. exists s. simpl. unfold read. by rewrite Hd.
Qed.
Next Obligation.
  intros s m p ty d (<- & Hsz & Hn & Hp) Hs _ _. unfold after. simpl. split; [|done].
  split_and!; simpl; try done; [lia..|]. intros q Hq. apply Hp.
  destruct (decide (q = p)) as [->|]; [done|]. by rewrite lookup_insert_ne in Hq.
Qed.
Next Obligation.
  intros s m ty (<- & Hsz & Hn & Hp) _ Hlt. unfold after. simpl. split_and!; simpl; try done; try lia.
  - destruct (pages s !! next s) eqn:He; [|done]. destruct (Hp (next s)) as [? ?]; [by eexists|lia].
  - split_and!; simpl; try done; [lia..|]. intros q [<-|Hq]%lookup_insert_is_Some; [lia|].
    destruct Hq as [_ Hq%Hp]. lia.
Qed.
Next Obligation.
  intros s m p (<- & Hsz & Hn & Hp) _. unfold after. simpl. split; [|done].
  split_and!; simpl; try done; [lia..|]. intros q [? ?]%lookup_delete_is_Some. by apply Hp.
Qed.
Next Obligation. by intros s m p (<- & ?) _. Qed.
Next Obligation. by intros s m p (<- & ?) _. Qed.

Lemma new_holds : holds_pages new ∅.
Proof. split_and!; simpl; try done. intros p. rewrite lookup_empty. by intros [? ?]. Qed.
End MemoryPages.
