(* ===== verification/PagerPages.v ===== *)
(** * The pager as the store of a table

    The pager's calls implement the interface of [PageStore.v]; its laws
    follow from the pager's invariant, so that what is proved of a table over
    any store holds of a table in a database file. *)
From S2P Require Import Prelude Types Vfs PagerConfig Page Cache PagerMeta Pager PagerStore PagerLife PagerContract Overflow PageStore.

Module PagerPages.
Import Pager Slot CacheContract PagerStore PagerLife PagerContract.

(** A pager and the number of calls made on it: call [n] draws its clock and
    nonces from [es n]. *)
Record t (F : Type) : Type := mk { pager : Pager.t F; calls : nat }.
Arguments mk {F}.
Arguments pager {F}.
Arguments calls {F}.

Section Pages.
Context {F : Type} `{FileOps F} `{Codecs}.
Variable map_order : gmap PageId PageId -> list (PageId * PageId).
Variable crc32 : bytes -> Z.
Variable es : nat -> nat -> env.
Variable fuel : nat.

Definition call {A} (m : (nat -> env) -> stateful (Pager.t F) PagerError A) : stateful (t F) PagerError A := fun s =>
  let '(r, p) := m (es (calls s)) (pager s) in (r, mk p (S (calls s))).
(** A loop over a chain of pages. *)
Definition call_loop {A} (m : (nat -> env) -> stateful (Pager.t F) PagerError (option A)) : fuelled (t F) PagerError A :=
  fun s =>
    match m (es (calls s)) (pager s) with
    | (Ok (Some a), p) => Some (Ok a, mk p (S (calls s)))
    | (Ok None, _) => None
    | (Err e, p) => Some (Err e, mk p (S (calls s)))
    | (Panic, p) => Some (Panic, mk p (S (calls s)))
    end.
Definition even (e : nat -> env) : nat -> env := fun i => e (2 * i)%nat.
Definition odd (e : nat -> env) : nat -> env := fun i => e (2 * i + 1)%nat.

Definition from (k : nat) (e : nat -> env) : nat -> env := fun i => e (2 * fuel * k + i)%nat.

(** The page of a node: [Page::new] and the node's bytes. *)
Definition node_page (id : PageId) (ty : PageType.t) (d : bytes) : Page.t := Page.mk (PageHeader.new id ty) d.
Definition read_data (e : env) (p : PageId) : stateful (Pager.t F) PagerError bytes :=
  page ← Pager.read_page e p; mret (Page.data page).

Definition pages : PageStore (t F) := {|
  data_size s := PageSize.data_size (PagerConfig.page_size (config (pager s)));
  page_bytes s := page_size (pager s);
  next_page_id s := PageMapper.next_virtual_id (page_mapper (pager s));
  PageStore.read_page p := call (fun e => read_data (e 0%nat) p);
  PageStore.write_page p ty d := call (fun e => Pager.write_page (e 0%nat) (node_page p ty d));
  PageStore.allocate_page ty := call (fun e => Pager.allocate_page map_order (e 0%nat) ty);
  PageStore.free_page p := call (fun e => Pager.free_page map_order (e 0%nat) p);
  PageStore.root_btree_page s := Pager.root_btree_page (pager s);
  PageStore.set_root_btree_page p := call (fun e => Pager.set_root_btree_page map_order (e 0%nat) p);
  PageStore.btree_row_count s := Pager.btree_row_count (pager s);
  PageStore.set_btree_row_count n := call (fun e => Pager.set_btree_row_count map_order (e 0%nat) n);
  PageStore.read_overflow_chain p := call_loop (fun e => Overflow.read_overflow_chain crc32 e fuel p);
  PageStore.free_overflow_chain p := call_loop (fun e => Overflow.free_overflow_chain map_order (even e) (odd e) fuel p);
  PageStore.write_overflow_page p d q := call (fun e => Overflow.write_overflow_page crc32 (e 0%nat) p d q);
  PageStore.link_overflow_pages p q := call (fun e => Overflow.link_overflow_pages (e 0%nat) (e 1%nat) p q);
  PageStore.free_value_refs l :=
    call_loop (fun e => Overflow.free_value_refs map_order (fun k => even (from k e)) (fun k => odd (from k e)) fuel l) |}.
End Pages.

(** ** What a call leaves alone *)
Section Laws.
Context {F : Type} `{FileLaws F} `{CodecsLaws}.
Variable map_order : gmap PageId PageId -> list (PageId * PageId).
Variable crc32 : bytes -> Z.
Variable es : nat -> nat -> env.
Hypothesis es_ok : forall n i, env_ok (es n i).
Variable fuel : nat.

Abbreviation next_virtual s := (PageMapper.next_virtual_id (page_mapper s)).
Record kept (s s' : Pager.t F) : Prop := {
  kp_config : config s' = config s;
  kp_next : next_virtual s' = next_virtual s;
  kp_root : Pager.root_btree_page s' = Pager.root_btree_page s;
  kp_rows : Pager.btree_row_count s' = Pager.btree_row_count s }.

Lemma frame_kept s s' : frame s s' -> kept s s'.
Proof.
  intros [E1 _ E3 _ E5]. constructor; [done|by rewrite E5|..];
    unfold Pager.root_btree_page, Pager.btree_row_count; by rewrite E3.
Qed.
Lemma kept_trans s1 s2 s3 : kept s1 s2 -> kept s2 s3 -> kept s1 s3.
Proof. intros [] []. constructor; congruence. Qed.

Lemma write_block_kept off bs s u s' : write_block off bs s = (Ok u, s') -> kept s s'.
Proof.
  intros Hw. unfold write_block in Hw. sinv. injection Hw as _ <-. unfold on_file in Hs.
  destruct (write_to_offset off bs (file s)) as [[]]; try done. by injection Hs as _ <-.
Qed.
Lemma write_metadata_kept e n h b s u s' : write_metadata map_order e n h b s = (Ok u, s') -> kept s s'.
Proof.
  intros Hw. unfold write_metadata in Hw. sinv. apply write_block_kept in Hs0. apply write_block_kept in Hw.
  by eapply kept_trans.
Qed.
Lemma collect_metadata_kept e (s : Pager.t F) r s' : collect_metadata e s = (Ok r, s') -> kept s s'.
Proof. intros [-> _]%collect_metadata_inv. done. Qed.

Lemma read_block_same off n (s : Pager.t F) bs s' : read_block off n s = (Ok bs, s') -> s' = s.
Proof. intros Hr. unfold read_block in Hr. sinv. by injection Hr. Qed.

Lemma free_kept e v s s' : Pager.free_page map_order e v s = (Ok tt, s') -> kept s s'.
Proof.
  intros Hf. unfold Pager.free_page in Hf. sinv. unfold id in *.
  apply read_block_same in Hs2 as ->. apply write_block_kept in Hs6. apply collect_metadata_kept in Hs10.
  apply write_metadata_kept in Hf. eapply kept_trans; [exact Hs6|]. eapply kept_trans; [|exact Hf].
  eapply kept_trans; [|exact Hs10]. done.
Qed.
Lemma take_physical_kept (s : Pager.t F) y s' : take_physical s = (Ok y, s') -> kept s s'.
Proof.
  intros Ht. unfold take_physical in Ht. sinv. unfold id in Ht. destruct (FreeList.pop_page _) as [[p|] l]; sinv;
    injection Ht as _ <-; [|done]. constructor; try done; unfold Pager.root_btree_page, Pager.btree_row_count; simpl;
    unfold Superblock.mark_page_allocated; by destruct (0 <? _).
Qed.
(** An allocation only moves the counter of page numbers. *)
Lemma allocate_kept e ty (s : Pager.t F) v s' : Pager.allocate_page map_order e ty s = (Ok v, s') ->
  Pager.root_btree_page s' = Pager.root_btree_page s /\ Pager.btree_row_count s' = Pager.btree_row_count s.
Proof.
  intros Ha. unfold Pager.allocate_page in Ha. sinv. unfold id in Ha.
  destruct (PageMapper.allocate_virtual (page_mapper s)) as [w m]. sinv. injection Ha as <- <-.
  repeat match goal with
    | Hx : write_block _ _ _ = _ |- _ => apply write_block_kept in Hx as []
    | Hx : collect_metadata _ _ = _ |- _ => apply collect_metadata_kept in Hx as []
    | Hx : write_metadata _ _ _ _ _ _ = _ |- _ => apply write_metadata_kept in Hx as []
    | Hx : take_physical _ = _ |- _ => apply take_physical_kept in Hx as []
    end.
  unfold Pager.root_btree_page, Pager.btree_row_count in *. simpl in *. split; congruence.
Qed.
Lemma read_kept s m e v q s' lost : store lost s m -> is_Some (m !! v) -> Pager.read_page e v s = (Ok q, s') -> kept s s'.
Proof.
  intros Hs [p Hv] Hr. destruct (read_live s m e v p Hs Hv) as (q' & s1 & Hr' & _ & _ & E1 & E2 & E3 & _).
  rewrite Hr' in Hr. injection Hr as _ <-. constructor; [done|by rewrite E3|..];
    unfold Pager.root_btree_page, Pager.btree_row_count; by rewrite E2.
Qed.
Lemma set_superblock_kept s m e b s' lost : write_superblock map_order e b (set_superblock b s) = (Ok tt, s') ->
  store lost s m -> PagerLife.meta (lost := lost) map_order s -> env_ok e ->
  superblock_ok (lost ++ FreeList.queue (free_list s)) b ->
  Superblock.next_page_id b = Superblock.next_page_id (superblock s) ->
  Superblock.total_pages b = total_pages s -> kept (set_superblock b s) s'.
Proof.
  intros Hw Hs Hm He Hb Hn Ht. destruct (superblock_step map_order s m e b s' Hw Hs Hm He Hb Hn Ht) as (_ & Hf & _).
  by apply frame_kept.
Qed.

(** Syncing keeps the root and the row count. *)
Lemma sync_kept cache_order s m e e' s' lost : (forall m, cache_order m ≡ₚ map_to_list m) -> store lost s m ->
  PagerLife.meta (lost := lost) map_order s -> env_ok e' -> Pager.sync map_order cache_order e e' s = (Ok tt, s') ->
  Pager.root_btree_page s' = Pager.root_btree_page s /\ Pager.btree_row_count s' = Pager.btree_row_count s.
Proof.
  intros Hall Hs Hm He Hw. unfold sync in Hw. rewrite (sbind_ok _ _ _ _ _ (flush_nothing cache_order Hall s m e Hs)) in Hw.
  sinv. destruct x. unfold on_file in Hw. destruct (sync_all _) as [[[]|er|] f]; try done. injection Hw as <-.
  unfold persist_page_mapper in Hs0. sinv. unfold id in Hs0. destruct (negb _); [by injection Hs0 as <-|].
  sinv. injection Hs0 as <-. destruct x0.
  apply (set_superblock_kept _ m _ _ _ lost) in Hs2 as [];
    [done|done|done|done|destruct (mt_superblock _ _ Hm); by constructor|done|done].
Qed.

(** ** The laws *)
Definition holds_pages (s : t F) (m : gmap PageId bytes) : Prop :=
  exists lost pm, store lost (pager s) pm /\ PagerLife.meta (lost := lost) map_order (pager s) /\ m = Page.data <$> pm.

(** A created pager holds no pages of its users. *)
Lemma created_holds (cache_order : gmap PageId CacheShard.CacheEntry -> list (PageId * CacheShard.CacheEntry)) e f c s n : (forall m, map_order m ≡ₚ map_to_list m) ->
  (forall m, cache_order m ≡ₚ map_to_list m) -> env_ok e -> is_u64 (zlen (contents f)) ->
  create map_order e (Ok f) c = Ok s -> holds_pages (mk s n) ∅.
Proof.
  intros Hm Hc He Hf Hs. destruct (create_inv map_order cache_order Hm Hc e f c s He Hf Hs) as (Hs0 & Hm0 & _).
  exists [], ∅. split_and!; [done|done|by rewrite fmap_empty].
Qed.

Lemma is_some_data (pm : gmap PageId Page.t) v : is_Some ((Page.data <$> pm) !! v) -> is_Some (pm !! v).
Proof. rewrite lookup_fmap. by intros [? (p & -> & _)%fmap_Some]. Qed.
Lemma node_page_storable c id ty d : is_u64 id -> PageType.readable ty = true ->
  zlen d <= PageSize.data_size (PagerConfig.page_size c) -> storable c (node_page id ty d).
Proof.
  intros Hid Hty Hd. apply storable_raw; try done. unfold PageSize.data_size, PageSize.header_size, PageSize.checksum_size in Hd.
  unfold page_size_of. simpl in *. lia.
Qed.

#[local] Instance pages_store : PageStore (t F) := pages map_order crc32 es fuel.

#[local] Ltac open_call :=
  unfold after; cbn [pages_store pages PageStore.write_page PageStore.allocate_page PageStore.free_page
    PageStore.set_root_btree_page PageStore.set_btree_row_count]; unfold call.
#[local] Ltac kept_store := constructor; simpl; try done; try congruence.

Lemma write_law s m p ty d : holds_pages s m -> is_Some (m !! p) -> PageType.readable ty = true ->
  zlen d <= data_size s ->
  after True (PageStore.write_page p ty d) s (fun _ s' => holds_pages s' (<[p := d]> m) /\ same_store s s').
Proof.
  intros (lost & pm & Hs & Hm & ->) Hp Hty Hd. apply is_some_data in Hp. open_call.
  destruct (Pager.write_page _ _ _) as [[[]|e|] s'] eqn:Hw; try done.
  pose proof Hp as [q Hq]. destruct (st_live _ _ Hs _ _ Hq) as [V1 _ V3 _ _].
  assert (Hst : storable (config (pager s)) (node_page p ty d)).
  { apply node_page_storable; [|done|done]. destruct (st_next _ _ Hs). unfold fits. lia. }
  destruct (write_inv map_order (pager s) pm _ (node_page p ty d) s' Hs Hm (es_ok _ _) Hp Hst Hw) as (Hs' & Hm' & _).
  destruct (write_page_frame (pager s) pm _ (node_page p ty d) s' Hs (es_ok _ _) ltac:(change (0 <= phys (pager s) p); lia) Hst Hw) as (Hf & _).
  apply frame_kept in Hf as []. split; [|kept_store].
  exists lost, (<[p := node_page p ty d]> pm). split_and!; [done|done|]. by rewrite fmap_insert.
Qed.
Lemma read_law s m p d : holds_pages s m -> m !! p = Some d ->
  exists s', PageStore.read_page p s = (Ok d, s') /\ holds_pages s' m /\ same_store s s'.
Proof.
  intros (lost & pm & Hs & Hm & ->) Hp. rewrite lookup_fmap in Hp. apply fmap_Some in Hp as (pg & Hp & ->).
  destruct (read_inv map_order (pager s) pm (es (calls s) 0) p pg Hs Hm Hp) as (q & s' & Hr & (_ & _ & Hq) & Hs' & Hm').
  exists (mk s' (S (calls s))). simpl. unfold call, read_data. rewrite (sbind_ok _ _ _ _ _ Hr). simpl. split_and!.
  - by rewrite Hq.
  - by exists lost, pm.
  - destruct (read_kept _ _ _ _ _ _ _ Hs ltac:(by eexists) Hr). kept_store.
Qed.
Lemma allocate_law s m ty : holds_pages s m -> PageType.readable ty = true -> next_page_id s + 1 < 2 ^ 64 ->
  after True (PageStore.allocate_page ty) s (fun p s' =>
    p = next_page_id s /\ next_page_id s' = p + 1 /\ m !! p = None /\ 0 < p /\
    holds_pages s' (<[p := []]> m) /\ data_size s' = data_size s /\
    PageStore.root_btree_page s' = PageStore.root_btree_page s /\
    PageStore.btree_row_count s' = PageStore.btree_row_count s).
Proof.
  intros (lost & pm & Hs & Hm & ->) Hty Hn. simpl in Hn. open_call.
  destruct (Pager.allocate_page _ _ _ _) as [[v|e|] s'] eqn:Ha; try done. simpl.
  destruct (allocate_inv map_order (pager s) pm _ ty v s' Hs Hm (es_ok _ _) Hty Hn Ha) as (-> & Hnone & Hs' & Hm' & Hc & Hnx).
  destruct (allocate_kept _ _ _ _ _ Ha) as [Hr Hrows]. split_and!; try done.
  - by rewrite lookup_fmap, Hnone.
  - destruct (st_next _ _ Hs). lia.
  - eexists lost, _. split_and!; [exact Hs'|done|]. by rewrite fmap_insert.
  - by rewrite Hc.
Qed.
Lemma free_law s m p : holds_pages s m -> is_Some (m !! p) ->
  after True (PageStore.free_page p) s (fun _ s' => holds_pages s' (delete p m) /\ same_store s s').
Proof.
  intros (lost & pm & Hs & Hm & ->) Hp%is_some_data. open_call.
  destruct (Pager.free_page _ _ _ _) as [[[]|e|] s'] eqn:Hf; try done.
  destruct (free_inv map_order (pager s) pm _ p s' Hs Hm (es_ok _ _) Hp Hf) as (Hs' & Hm' & _).
  destruct (free_kept _ _ _ _ Hf). split; [|kept_store]. exists lost, (delete p pm). split_and!; [done|done|].
  by rewrite fmap_delete.
Qed.
Lemma set_root_law s m p : holds_pages s m -> is_u64 p ->
  after True (PageStore.set_root_btree_page p) s (fun _ s' =>
    holds_pages s' m /\ data_size s' = data_size s /\ next_page_id s' = next_page_id s /\
    PageStore.root_btree_page s' = p /\ PageStore.btree_row_count s' = PageStore.btree_row_count s).
Proof.
  intros (lost & pm & Hs & Hm & ->) Hp. open_call.
  destruct (Pager.set_root_btree_page _ _ _ _) as [[[]|e|] s'] eqn:Hf; try done.
  destruct (set_root_inv map_order (pager s) pm _ p s' Hs Hm (es_ok _ _) Hp Hf) as (Hs' & Hm' & Hc & Hr).
  unfold Pager.set_root_btree_page in Hf. sinv. unfold id in Hf.
  apply (set_superblock_kept _ pm _ _ _ lost) in Hf as [];
    [|done|done|apply es_ok|destruct (mt_superblock _ _ Hm); by constructor|done|done].
  simpl. split_and!; [by exists lost, pm|by rewrite Hc|done|done|done].
Qed.
Lemma set_rows_law s m n : holds_pages s m -> is_u64 n ->
  after True (PageStore.set_btree_row_count n) s (fun _ s' =>
    holds_pages s' m /\ data_size s' = data_size s /\ next_page_id s' = next_page_id s /\
    PageStore.root_btree_page s' = PageStore.root_btree_page s /\ PageStore.btree_row_count s' = n).
Proof.
  intros (lost & pm & Hs & Hm & ->) Hp. open_call.
  destruct (Pager.set_btree_row_count _ _ _ _) as [[[]|e|] s'] eqn:Hf; try done.
  destruct (set_rows_inv map_order (pager s) pm _ n s' Hs Hm (es_ok _ _) Hp Hf) as (Hs' & Hm' & Hc & Hr).
  unfold Pager.set_btree_row_count in Hf. sinv. unfold id in Hf.
  apply (set_superblock_kept _ pm _ _ _ lost) in Hf as [];
    [|done|done|apply es_ok|destruct (mt_superblock _ _ Hm); by constructor|done|done].
  simpl. split_and!; [by exists lost, pm|by rewrite Hc|done|done|done].
Qed.

(** The page of a table node is stored as it is: whatever compression
    and encryption the pager is configured with, after a node was written its
    bytes stand in the slot of its page, right behind the page header. *)
Theorem node_pages_in_clear s m p ty d s' (Hh : holds_pages s m) (Hp : is_Some (m !! p))
    (Hty : PageType.readable ty = true) (Hd : zlen d <= data_size s)
    (Hw : PageStore.write_page p ty d s = (Ok tt, s')) :
  exists header rest, disk (pager s') (phys (pager s') p) = header ++ d ++ rest /\ zlen header = 32.
Proof.
  destruct Hh as (lost & pm & Hs & Hm & ->). apply is_some_data in Hp as [q Hq].
  destruct (st_live _ _ Hs _ _ Hq) as [V1 _ V3 _ _]. simpl in Hw. unfold call in Hw.
  destruct (Pager.write_page _ _ _) as [[[]|e|] s1] eqn:Hw1; try done. injection Hw as <-. simpl pager.
  assert (Hst : storable (config (pager s)) (node_page p ty d)).
  { apply node_page_storable; [|done|done]. destruct (st_next _ _ Hs). unfold fits. lia. }
  destruct (st_cache _ _ Hs) as (f0 & Hf0 & Hcl).
  destruct (write_page_inv (es (calls s) 0) (node_page p ty d) (pager s) s1 f0 (es_ok _ _)
    ltac:(change (0 <= phys (pager s) p); lia) Hf0 (store_clean _ _ _ Hcl) Hw1)
    as (n & bs & f & c & g & Hn & Hb & -> & Hc & _).
  pose proof (sb_slot _ _ Hst _ _ Hn Hb) as Hl. change (Page.page_id (node_page p ty d)) with p in Hc.
  change (disk (set_cache c (set_file f (pager s))) (phys (set_cache c (set_file f (pager s))) p))
    with (disk (set_file f (pager s)) (phys (pager s) p)).
  rewrite (disk_written (pager s) (phys (pager s) p) bs f (phys (pager s) p)), decide_True by (done || lia).
  apply Page.page_to_bytes_inv in Hb as (cmp & fin & Hcmp & Hfin & ->). injection Hcmp as <-. injection Hfin as <-.
  eexists _, _. split; [exact eq_refl|]. apply PageHeader.page_header_zlen_to_bytes.
Qed.

Definition pages_laws : PageStoreLaws (t F).
Proof.
  refine {| PageStore.holds := holds_pages; PageStore.store_faults := True |}.
  - intros s m _. simpl. pose proof (PageSize.to_u32_bounds (PagerConfig.page_size (config (pager s)))).
    unfold PageSize.data_size, PageSize.header_size, PageSize.checksum_size. lia.
  - intros s m (lost & pm & Hs & _). simpl. destruct (st_next _ _ Hs). lia.
  - intros s m p (lost & pm & Hs & _ & ->) [q Hp]%is_some_data. simpl. destruct (st_live _ _ Hs _ _ Hp). lia.
  - exact read_law.
  - exact write_law.
  - exact allocate_law.
  - exact free_law.
  - exact set_root_law.
  - exact set_rows_law.
Defined.
End Laws.
End PagerPages.

(** ** A node in an encrypted file *)
Module ClearSample.
Import PagerContract.
#[local] Existing Instance ToyCodecs.toy.
#[local] Existing Instance ToyCodecs.toy_laws.

Definition envs : nat -> nat -> Pager.env := fun _ _ => demo_env.
#[local] Instance store : PageStore (PagerPages.t MemoryFile.t) := PagerPages.pages map_to_list (fun _ => 0) envs 10.

Definition file_start : Pager.t MemoryFile.t := match aes_start with Ok s => s | _ => demo_start end.
Definition start : PagerPages.t MemoryFile.t := PagerPages.mk file_start 0.
Definition allocated : PagerPages.t MemoryFile.t := (allocate_page PageType.BTreeLeaf start).2.
Definition written : PagerPages.t MemoryFile.t := (write_page 2 PageType.BTreeLeaf [1; 2; 3] allocated).2.

Lemma aes_created : Pager.create map_to_list demo_env (Ok demo_file) aes_config = Ok file_start.
Proof. vm_compute. reflexivity. Qed.
Lemma file_empty : is_u64 (zlen (contents demo_file)).
Proof. done. Qed.
Lemma start_holds : PagerPages.holds_pages map_to_list start ∅.
Proof.
  unfold start. refine (PagerPages.created_holds map_to_list map_to_list _ _ _ _ 0
    (fun m => reflexivity _) (fun m => reflexivity _) session_env_ok file_empty aes_created).
Qed.
Lemma allocated_holds : PagerPages.holds_pages map_to_list allocated {[2 := []]}.
Proof.
  assert (Hn : (PageMapper.next_virtual_id (Pager.page_mapper (PagerPages.pager start)) + 1 <? 2 ^ 64) = true)
    by (vm_compute; reflexivity). apply Z.ltb_lt in Hn.
  pose proof (PagerPages.allocate_law (H1 := ToyCodecs.toy) map_to_list (fun _ => 0) envs (fun _ _ => session_env_ok) 10 start ∅
    PageType.BTreeLeaf start_holds eq_refl Hn) as Ha.
  unfold after in Ha. unfold allocated.
  assert (Hr : (allocate_page PageType.BTreeLeaf start).1 = Ok 2) by (vm_compute; reflexivity).
  change (PagerPages.pages_store map_to_list (fun _ => 0) envs 10) with store in Ha.
  destruct (allocate_page PageType.BTreeLeaf start) as [r s']. simpl in Hr. subst r.
  destruct Ha as (_ & _ & _ & _ & Hh & _). exact Hh.
Qed.
End ClearSample.

Lemma node_pages_in_clear_witness :
  exists header rest,
    PagerStore.disk (PagerPages.pager ClearSample.written) (PagerStore.phys (PagerPages.pager ClearSample.written) 2)
      = header ++ [1; 2; 3] ++ rest /\ zlen header = 32.
Proof.
  apply (PagerPages.node_pages_in_clear (H1 := ToyCodecs.toy) map_to_list (fun _ => 0) ClearSample.envs (fun _ _ => PagerContract.session_env_ok) 10
    ClearSample.allocated {[2 := []]} 2 PageType.BTreeLeaf [1; 2; 3] ClearSample.written).
  - exact ClearSample.allocated_holds.
  - by eexists.
  - reflexivity.
  - vm_compute. discriminate.
  - refine (PagerContract.result_pair _ (Ok tt) _). vm_compute. reflexivity.
Defined.
