(* ===== verification/BTreeNode.v ===== *)
(** * Nodes of the paged B-tree ([src/table/btree/paged.rs], lines 50-585)

    A node is one page: an internal node with separator keys and children, or
    a leaf with a version chain per key and the next leaf.  The bytes of a
    version chain are those of the crate [postcard], the parameter
    [ChainCodec]. *)
From stdpp Require Import sorting.
From S2P Require Import Prelude Types Page Mvcc OrdMap MemTables.

Lemma StronglySorted_lookup {A} (R : relation A) l : StronglySorted R l ->
  forall i j x y, l !! i = Some x -> l !! j = Some y -> (i < j)%nat -> R x y.
Proof.
  induction 1 as [|z l Hl IH Hz]; intros i j x y Hx Hy Hij; [done|].
  destruct j as [|j]; [lia|]. simpl in Hy. destruct i as [|i]; simpl in Hx.
  - injection Hx as ->. eapply Forall_lookup_1 in Hz; done.
  - by apply (IH i j); [..|lia].
Qed.

(** ** The codec of version chains *)
Class ChainCodec : Type := {
  chain_to_bytes : VersionChain.t -> bytes;
  chain_from_bytes : bytes -> option VersionChain.t }.
Class ChainCodecLaws `{ChainCodec} : Prop := {
  chain_roundtrip c : chain_from_bytes (chain_to_bytes c) = Some c }.

(** ** Binary search

    [slice::binary_search_by] of the standard library: the interval is halved
    without an early exit, so of several equal keys the last one is found. *)
Section Search.
Context {A : Type}.
Variable key_of : A -> bytes.

Fixpoint bisect (fuel : nat) (l : list A) (key : bytes) (base size : nat) : nat :=
  match fuel with
  | O => base
  | S fuel =>
      if (size <=? 1)%nat then base
      else
        let half := (size / 2)%nat in
        let mid := (base + half)%nat in
        let greater := match l !! mid with Some e => key_ltb key (key_of e) | None => true end in
        bisect fuel l key (if greater then base else mid) (size - half)
  end.

(** [(true, i)] is [Ok(i)], [(false, i)] is [Err(i)]. *)
Definition binary_search_by (l : list A) (key : bytes) : bool * nat :=
  match l with
  | [] => (false, 0%nat)
  | _ :: _ =>
      let base := bisect (length l) l key 0 (length l) in
      match l !! base with
      | Some e =>
          if bytes_eqb (key_of e) key then (true, base)
          else (false, if key_ltb (key_of e) key then S base else base)
      | None => (false, base)
      end
  end.

(** ** What the search finds in a sorted list *)
Definition key_le (a b : A) : Prop := key_leb (key_of a) (key_of b) = true.

(** [cut key l i]: the keys before index [i] are at most [key], the others
    above it. *)
Definition cut (key : bytes) (l : list A) (i : nat) : Prop :=
  forall j e, l !! j = Some e ->
    ((j < i)%nat -> key_leb (key_of e) key = true) /\ ((i <= j)%nat -> key_lt key (key_of e)).

Lemma bisect_bounds l key : StronglySorted key_le l -> forall fuel base size,
  (1 <= size <= fuel + 1)%nat -> (base + size <= length l)%nat ->
  (forall j e, l !! j = Some e -> (base + size <= j)%nat -> key_lt key (key_of e)) ->
  (base = 0%nat \/ exists e, l !! base = Some e /\ key_leb (key_of e) key = true) ->
  let r := bisect fuel l key base size in
  (r < length l)%nat /\
  (forall j e, l !! j = Some e -> (r < j)%nat -> key_lt key (key_of e)) /\
  (r = 0%nat \/ exists e, l !! r = Some e /\ key_leb (key_of e) key = true).
Proof.
  intros Hs. induction fuel as [|fuel IH]; intros base size Hsz Hb Hhi Hlo; cbn [bisect]; cbv zeta.
  - split_and!; [lia| |done]. intros j e Hj Hlt. apply (Hhi j e Hj). lia.
  - destruct (Nat.leb_spec size 1) as [H1|H1].
    + split_and!; [lia| |done]. intros j e Hj Hlt. apply (Hhi j e Hj). lia.
    + assert (Hhalf : (1 <= size / 2 < size)%nat).
      { split; [by apply Nat.div_le_lower_bound; lia|apply Nat.div_lt; lia]. }
      pose proof (Nat.Div0.mul_div_le size 2) as Hmul.
      destruct (lookup_lt_is_Some_2 l (base + size / 2)%nat) as [x Hx]; [lia|]. rewrite Hx.
      destruct (key_ltb key (key_of x)) eqn:Hg.
      * apply IH; [lia|lia| |done]. intros j e Hj Hle.
        destruct (decide (j = base + size / 2)%nat) as [->|Hne]; [by simplify_eq|].
        pose proof (StronglySorted_lookup key_le l Hs (base + size / 2)%nat j x e Hx Hj ltac:(lia)) as Hxe.
        apply key_leb_spec in Hxe as [<-|He]; [done|by eapply key_lt_trans].
      * apply IH; [lia|lia| |].
        -- intros j e Hj Hle. apply (Hhi j e Hj). lia.
        -- right. exists x. split; [done|]. unfold key_leb. by rewrite Hg.
Qed.

Lemma binary_search_cut l key b i : StronglySorted key_le l -> binary_search_by l key = (b, i) ->
  cut key l (if b then S i else i) /\
  (if b then exists e, l !! i = Some e /\ key_of e = key
   else forall e, e ∈ l -> key_of e <> key).
Proof.
  intros Hs Hb. destruct l as [|e0 l0] eqn:Hl.
  { injection Hb as <- <-. split; [by intros j e Hj|]. by intros e ?%elem_of_nil. }
  unfold binary_search_by in Hb. rewrite <- Hl in Hb, Hs |- *. assert (Hne : (1 <= length l)%nat) by (subst l; simpl; lia).
  clear Hl e0 l0. destruct (bisect_bounds l key Hs (length l) 0 (length l)) as (Hr & Hhi & Hlo);
    [lia|lia| |by left|].
  { intros j e Hj Hge. apply lookup_lt_Some in Hj. lia. }
  set (r := bisect _ _ _ _ _) in *. destruct (lookup_lt_is_Some_2 l r Hr) as [e Hx]. rewrite Hx in Hb.
  assert (Hcut : key_leb (key_of e) key = true -> cut key l (S r)).
  { intros Hle j x Hj. split; [|intros ?; apply (Hhi j x Hj); lia]. intros Hjr.
    destruct (decide (j = r)) as [->|]; [by simplify_eq|].
    pose proof (StronglySorted_lookup key_le l Hs j r x e Hj Hx ltac:(lia)) as Hxe.
    apply key_leb_spec in Hxe as [->|Hlt]; [done|].
    apply key_leb_spec. right. by apply key_leb_spec in Hle as [<-|?]; [|eapply key_lt_trans]. }
  destruct (bytes_eqb (key_of e) key) eqn:Heq.
  - injection Hb as <- <-. apply bytes_eqb_true in Heq. split; [|by exists e].
    apply Hcut, key_leb_spec. by left.
  - injection Hb as <- <-.
    assert (Hnk : key_of e <> key) by (intros Hk; apply bytes_eqb_true in Hk; congruence).
    assert (Hr0 : cut key l (if key_ltb (key_of e) key then S r else r)).
    { destruct (key_ltb (key_of e) key) eqn:Hlt; [apply Hcut, key_leb_spec; by right|].
      apply key_ltb_false in Hlt as [Hk|Hlt]; [by symmetry in Hk|].
      destruct Hlo as [Hr00|(x & Hx' & Hle)].
      - rewrite Hr00 in *. intros j x Hj. split; [lia|]. intros _.
        destruct j; [by simplify_eq|]. apply (Hhi _ _ Hj). lia.
      - simplify_eq. apply key_leb_spec in Hle as [Hk|Hk]; [done|]. by apply key_lt_asym in Hk. }
    split; [done|]. intros x [j Hj]%list_elem_of_lookup Hk. destruct (Hr0 j x Hj) as [Hle Hgt].
    rewrite Hk in Hle, Hgt. destruct (decide (j < (if key_ltb (key_of e) key then S r else r)))%nat as [Hj'|Hj'].
    + destruct (decide (j = r)) as [->|]; [by simplify_eq|].
      destruct (key_ltb (key_of e) key) eqn:Hlt; [|
        destruct Hlo as [Hr00|(y & Hy & Hle')]; [lia|simplify_eq;
        apply key_leb_spec in Hle' as [?|Hk']; [done|unfold key_lt in Hk'; congruence]]].
      pose proof (StronglySorted_lookup key_le l Hs j r x e Hj Hx ltac:(lia)) as Hxe.
      apply key_leb_spec in Hxe as [Hxe|Hxe]; [congruence|].
      rewrite Hk in Hxe. by apply (key_lt_asym _ _ Hxe).
    + by apply (key_lt_irrefl key), Hgt; lia.
Qed.

Lemma binary_search_le l key : StronglySorted key_le l -> ((binary_search_by l key).2 <= length l)%nat.
Proof.
  intros Hs. destruct l as [|e0 l0] eqn:Hl; [simpl; lia|]. unfold binary_search_by. rewrite <- Hl in *.
  assert (Hne : (1 <= length l)%nat) by (subst l; simpl; lia). clear Hl.
  destruct (bisect_bounds l key Hs (length l) 0 (length l)) as (Hr & _); [lia|lia| |by left|].
  { intros j e Hj Hge. apply lookup_lt_Some in Hj. lia. }
  destruct (l !! _); [|simpl; lia]. destruct (bytes_eqb _ _); [simpl; lia|]. destruct (key_ltb _ _); simpl; lia.
Qed.
End Search.

Definition calculate_max_order (page_data_size : Z) : Z :=
  let target_size := page_data_size * 3 / 5 in
  let BYTES_PER_ENTRY := 30 in
  Z.max (target_size / BYTES_PER_ENTRY) 4.

Module BTreeNode.

Definition PageVersion_initial : Z := 0.
Definition PageVersion_increment (v : Z) : Z := as_u64 (v + 1).

Record InternalEntry : Type := mkInternal { ikey : bytes; child_page_id : PageId }.
Record LeafEntry : Type := mkLeaf { key : bytes; chain : VersionChain.t }.

Inductive t : Type :=
  | Internal (version : Z) (entries : list InternalEntry) (rightmost_child : PageId)
  | Leaf (version : Z) (entries : list LeafEntry) (next_leaf : PageId).

Definition new_internal : t := Internal PageVersion_initial [] 0.
Definition new_leaf : t := Leaf PageVersion_initial [] 0.

Definition node_type (n : t) : PageType.t :=
  match n with Internal _ _ _ => PageType.BTreeInternal | Leaf _ _ _ => PageType.BTreeLeaf end.
Definition key_count (n : t) : Z :=
  match n with Internal _ es _ => zlen es | Leaf _ es _ => zlen es end.
Definition is_full (n : t) (max_order : Z) : bool := max_order <=? key_count n.
Definition has_minimum_keys (n : t) (min_keys : Z) : bool := min_keys <=? key_count n.
Definition get_version (n : t) : Z :=
  match n with Internal v _ _ => v | Leaf v _ _ => v end.
Definition with_incremented_version (n : t) : t :=
  match n with
  | Internal v es r => Internal (PageVersion_increment v) es r
  | Leaf v es nx => Leaf (PageVersion_increment v) es nx
  end.

Section Codec.
Context `{ChainCodec}.

Definition internal_bytes (e : InternalEntry) : bytes :=
  to_le_bytes 4 (zlen (ikey e)) ++ ikey e ++ to_le_bytes 8 (child_page_id e).
Definition leaf_bytes (e : LeafEntry) : bytes :=
  to_le_bytes 4 (zlen (key e)) ++ key e
    ++ to_le_bytes 4 (zlen (chain_to_bytes (chain e))) ++ chain_to_bytes (chain e).

Definition to_bytes (n : t) : bytes :=
  match n with
  | Internal v es r =>
      [0] ++ to_le_bytes 8 v ++ to_le_bytes 4 (zlen es) ++ to_le_bytes 8 r
        ++ mjoin (map internal_bytes es)
  | Leaf v es nx =>
      [1] ++ to_le_bytes 8 v ++ to_le_bytes 4 (zlen es) ++ to_le_bytes 8 nx
        ++ mjoin (map leaf_bytes es)
  end.

Definition truncated : TableError := Corruption "BTreeNode::from_bytes" "truncated_data".

(** The loops over the entries, from [offset]. *)
Fixpoint read_internal (count : nat) (offset : Z) (bs : bytes)
    : outcome TableError (list InternalEntry) :=
  match count with
  | O => Ok []
  | S count =>
      _ ← ensure (offset + 4 <=? zlen bs) truncated;
      key_len ← get_le 4 offset bs;
      let offset := offset + 4 in
      _ ← ensure (offset + key_len <=? zlen bs) truncated;
      k ← slice offset (offset + key_len) bs;
      let offset := offset + key_len in
      _ ← ensure (offset + 8 <=? zlen bs) truncated;
      child ← get_le 8 offset bs;
      rest ← read_internal count (offset + 8) bs;
      Ok (mkInternal k child :: rest)
  end.
Fixpoint read_leaf (count : nat) (offset : Z) (bs : bytes) : outcome TableError (list LeafEntry) :=
  match count with
  | O => Ok []
  | S count =>
      _ ← ensure (offset + 4 <=? zlen bs) truncated;
      key_len ← get_le 4 offset bs;
      let offset := offset + 4 in
      _ ← ensure (offset + key_len <=? zlen bs) truncated;
      k ← slice offset (offset + key_len) bs;
      let offset := offset + key_len in
      _ ← ensure (offset + 4 <=? zlen bs) truncated;
      chain_len ← get_le 4 offset bs;
      let offset := offset + 4 in
      _ ← ensure (offset + chain_len <=? zlen bs) truncated;
      cb ← slice offset (offset + chain_len) bs;
      c ← ok_or (chain_from_bytes cb) (Corruption "BTreeNode::from_bytes" "deserialization_error");
      rest ← read_leaf count (offset + chain_len) bs;
      Ok (mkLeaf k c :: rest)
  end.

Definition from_bytes (bs : bytes) : outcome TableError t :=
  _ ← ensure (negb (zlen bs =? 0)) (Corruption "BTreeNode::from_bytes" "empty_data");
  node_type ← index 0 bs;
  if (node_type =? 0) || (node_type =? 1) then
    _ ← ensure (1 + 8 <=? zlen bs) truncated;
    version ← get_le 8 1 bs;
    _ ← ensure (9 + 4 <=? zlen bs) truncated;
    entry_count ← get_le 4 9 bs;
    _ ← ensure (13 + 8 <=? zlen bs) truncated;
    pointer ← get_le 8 13 bs;
    if node_type =? 0 then
      entries ← read_internal (Z.to_nat entry_count) 21 bs;
      Ok (Internal version entries pointer)
    else
      entries ← read_leaf (Z.to_nat entry_count) 21 bs;
      Ok (Leaf version entries pointer)
  else Err (Corruption "BTreeNode::from_bytes" "invalid_node_type").

(** The ranges of the fields' machine types. *)
Definition wf (n : t) : Prop :=
  match n with
  | Internal v es r => is_u64 v /\ is_u64 r /\ Forall (fun e => is_u64 (child_page_id e)) es
  | Leaf v es nx => is_u64 v /\ is_u64 nx
  end.

Lemma zlen_internal_bytes e : zlen (internal_bytes e) = 12 + zlen (ikey e).
Proof. unfold internal_bytes. zlen_tac. Qed.
Lemma zlen_leaf_bytes e : zlen (leaf_bytes e) = 8 + zlen (key e) + zlen (chain_to_bytes (chain e)).
Proof. unfold leaf_bytes. zlen_tac. Qed.

Definition entries_size (n : t) : Z :=
  match n with
  | Internal _ es _ => zlen (mjoin (map internal_bytes es))
  | Leaf _ es _ => zlen (mjoin (map leaf_bytes es))
  end.
Lemma zlen_node n : zlen (to_bytes n) = 21 + entries_size n.
Proof. destruct n; simpl; zlen_tac. Qed.

Lemma mjoin_size {A} (f : A -> bytes) c l :
  (forall x, c <= zlen (f x)) -> c * zlen l <= zlen (mjoin (map f l)).
Proof.
  intros Hf. induction l as [|x l IH]; simpl; [unfold zlen; simpl; lia|].
  specialize (Hf x). rewrite zlen_cons, zlen_app. lia.
Qed.

Lemma internal_count es : 12 * zlen es <= zlen (mjoin (map internal_bytes es)).
Proof.
  apply mjoin_size. intros e. rewrite zlen_internal_bytes. pose proof (zlen_nonneg (ikey e)). lia.
Qed.
Lemma leaf_count es : 8 * zlen es <= zlen (mjoin (map leaf_bytes es)).
Proof.
  apply mjoin_size. intros e. rewrite zlen_leaf_bytes. pose proof (zlen_nonneg (key e)).
  pose proof (zlen_nonneg (chain_to_bytes (chain e))). lia.
Qed.

Lemma internal_bytes_app e k :
  internal_bytes e ++ k = to_le_bytes 4 (zlen (ikey e)) ++ ikey e ++ to_le_bytes 8 (child_page_id e) ++ k.
Proof. unfold internal_bytes. by rewrite <- !app_assoc. Qed.
Lemma leaf_bytes_app e k :
  leaf_bytes e ++ k = to_le_bytes 4 (zlen (key e)) ++ key e
    ++ to_le_bytes 4 (zlen (chain_to_bytes (chain e))) ++ chain_to_bytes (chain e) ++ k.
Proof. unfold leaf_bytes. by rewrite <- !app_assoc. Qed.

(** An entry list of a buffer below 4 GiB reads back where it was written. *)
Lemma read_internal_back es : forall pre,
  Forall (fun e => is_u64 (child_page_id e)) es -> zlen (mjoin (map internal_bytes es)) < 2 ^ 32 ->
  read_internal (length es) (zlen pre) (pre ++ mjoin (map internal_bytes es)) = Ok es.
Proof.
  induction es as [|e es IH]; intros pre Hw Hl; simpl; [done|].
  apply Forall_cons in Hw as [He Hw]. simpl in Hl. rewrite zlen_app, zlen_internal_bytes in Hl.
  pose proof (zlen_nonneg (ikey e)) as Hk. pose proof (zlen_nonneg (mjoin (map internal_bytes es))) as Hr.
  set (rest := mjoin (map internal_bytes es)) in *. rewrite !internal_bytes_app.
  assert (is_u32 (zlen (ikey e))) by (unfold fits; lia). read_back.
  replace (zlen pre + 4 + zlen (ikey e) + 8) with (zlen (pre ++ internal_bytes e))
    by (rewrite zlen_app, zlen_internal_bytes; lia).
  specialize (IH (pre ++ internal_bytes e) Hw ltac:(lia)).
  rewrite <- !app_assoc, internal_bytes_app in IH. rewrite IH. by destruct e.
Qed.

Lemma read_leaf_back `{!ChainCodecLaws} es : forall pre,
  zlen (mjoin (map leaf_bytes es)) < 2 ^ 32 ->
  read_leaf (length es) (zlen pre) (pre ++ mjoin (map leaf_bytes es)) = Ok es.
Proof.
  induction es as [|e es IH]; intros pre Hl; simpl; [done|].
  simpl in Hl. rewrite zlen_app, zlen_leaf_bytes in Hl.
  pose proof (zlen_nonneg (key e)) as Hk. pose proof (zlen_nonneg (chain_to_bytes (chain e))) as Hc.
  pose proof (zlen_nonneg (mjoin (map leaf_bytes es))) as Hr.
  set (rest := mjoin (map leaf_bytes es)) in *. rewrite !leaf_bytes_app.
  assert (is_u32 (zlen (key e))) by (unfold fits; lia).
  assert (is_u32 (zlen (chain_to_bytes (chain e)))) by (unfold fits; lia). read_back.
  rewrite chain_roundtrip. simpl.
  replace (zlen pre + 4 + zlen (key e) + 4 + zlen (chain_to_bytes (chain e)))
    with (zlen (pre ++ leaf_bytes e)) by (rewrite zlen_app, zlen_leaf_bytes; lia).
  specialize (IH (pre ++ leaf_bytes e) ltac:(lia)).
  rewrite <- !app_assoc, leaf_bytes_app in IH. rewrite IH. by destruct e.
Qed.

Lemma node_back `{!ChainCodecLaws} n : wf n -> zlen (to_bytes n) < 2 ^ 32 -> from_bytes (to_bytes n) = Ok n.
Proof.
  intros Hw Hl. rewrite zlen_node in Hl. destruct n as [v es r|v es nx]; simpl in Hw, Hl;
    unfold from_bytes, to_bytes.
  - destruct Hw as (Hv & Hr & Hes). set (body := mjoin (map internal_bytes es)) in *.
    assert (is_u32 (zlen es)).
    { pose proof (internal_count es) as Hc. fold body in Hc. pose proof (zlen_nonneg es). unfold fits. lia. }
    set (pre := [0] ++ to_le_bytes 8 v ++ to_le_bytes 4 (zlen es) ++ to_le_bytes 8 r).
    assert (Hpre : zlen pre = 21) by (unfold pre; zlen_tac).
    pose proof (read_internal_back es pre Hes ltac:(fold body; lia)) as Hb. rewrite Hpre in Hb.
    unfold pre in Hb. rewrite <- !app_assoc in Hb. fold body in Hb. read_back.
    unfold zlen at 1. rewrite Nat2Z.id. simpl in Hb. by rewrite Hb.
  - destruct Hw as (Hv & Hr). set (body := mjoin (map leaf_bytes es)) in *.
    assert (is_u32 (zlen es)).
    { pose proof (leaf_count es) as Hc. fold body in Hc. pose proof (zlen_nonneg es). unfold fits. lia. }
    set (pre := [1] ++ to_le_bytes 8 v ++ to_le_bytes 4 (zlen es) ++ to_le_bytes 8 nx).
    assert (Hpre : zlen pre = 21) by (unfold pre; zlen_tac).
    pose proof (read_leaf_back es pre ltac:(fold body; lia)) as Hb. rewrite Hpre in Hb.
    unfold pre in Hb. rewrite <- !app_assoc in Hb. fold body in Hb. read_back.
    unfold zlen at 1. rewrite Nat2Z.id. simpl in Hb. by rewrite Hb.
Qed.

(** What the reader accepts has the machine types of a node. *)
Lemma read_internal_typed count : forall offset bs, bytes_ok bs -> 0 <= offset ->
  read_internal count offset bs <> Panic /\
  forall es, read_internal count offset bs = Ok es -> Forall (fun e => is_u64 (child_page_id e)) es.
Proof.
  induction count as [|count IH]; intros offset bs Hok Ho; cbn [read_internal].
  { split; [done|]. intros es [= <-]. constructor. }
  split.
  - no_panic. apply (IH _ _ Hok). unfold fits in *. lia.
  - intros es Hr. inv_ok. injection Hr as <-.
    pose proof (get_le_fits _ _ _ _ Hok Hx0). pose proof (get_le_fits _ _ _ _ Hok Hx4).
    constructor; [done|]. eapply (proj2 (IH _ bs Hok _)), Hx5.
    Unshelve. unfold fits in *. lia.
Qed.

Lemma read_leaf_no_panic count : forall offset bs, bytes_ok bs -> 0 <= offset ->
  read_leaf count offset bs <> Panic.
Proof.
  induction count as [|count IH]; intros offset bs Hok Ho; cbn [read_leaf]; [done|].
  no_panic. apply (IH _ _ Hok). unfold fits in *. lia.
Qed.

Lemma from_bytes_typed bs : bytes_ok bs ->
  from_bytes bs <> Panic /\ forall n, from_bytes bs = Ok n -> wf n.
Proof.
  intros Hok. split.
  - unfold from_bytes. no_panic; [by apply read_internal_typed|by apply read_leaf_no_panic].
  - intros n Hn. unfold from_bytes in Hn. inv_ok. destruct (_ || _); [|done]. inv_ok.
    pose proof (get_le_fits _ _ _ _ Hok Hx2). pose proof (get_le_fits _ _ _ _ Hok Hx6).
    destruct (x0 =? 0); inv_ok; injection Hn as <-; [|done].
    split_and!; [done|done|]. by eapply (proj2 (read_internal_typed _ 21 bs Hok ltac:(lia))).
Qed.
End Codec.

(** C33: reading a node is typed: on any bytes [from_bytes] does not panic, and
    a node it returns has a version, pointers and children that are 64-bit
    numbers; and a node with such fields whose page is below 4 GiB reads back
    as it was written. *)
Theorem node_typed `{ChainCodecLaws} bs n (Hok : bytes_ok bs) :
  from_bytes bs <> Panic /\ (from_bytes bs = Ok n -> wf n) /\
  (wf n -> zlen (to_bytes n) < 2 ^ 32 -> from_bytes (to_bytes n) = Ok n).
Proof.
  destruct (from_bytes_typed bs Hok) as [Hp Ht]. split_and!; [done|apply Ht|apply node_back].
Qed.
End BTreeNode.

(** ** A codec to evaluate with

    Numbers in binary digits, lists with their length in front. *)
Module ToyChains.
Fixpoint enc_pos (p : positive) : bytes :=
  match p with xH => [2] | xO p => 0 :: enc_pos p | xI p => 1 :: enc_pos p end.
Definition enc_Z (z : Z) : bytes :=
  match z with Z0 => [0] | Zpos p => 1 :: enc_pos p | Zneg p => 2 :: enc_pos p end.
Definition enc_value (v : VersionValue.t) : bytes :=
  match v with
  | VersionValue.Inline d => 0 :: enc_Z (zlen d) ++ mjoin (map enc_Z d)
  | VersionValue.External ValueRef.Inline => [1]
  | VersionValue.External (ValueRef.SinglePage a b c) => 2 :: enc_Z a ++ enc_Z b ++ enc_Z c
  | VersionValue.External (ValueRef.OverflowChain a b c) => 3 :: enc_Z a ++ enc_Z b ++ enc_Z c
  end.
Definition enc_lsn (o : option Z) : bytes := match o with None => [0] | Some l => 1 :: enc_Z l end.
Fixpoint enc (c : VersionChain.t) : bytes :=
  enc_value (VersionChain.value c) ++ enc_Z (VersionChain.created_by c) ++ enc_lsn (VersionChain.commit_lsn c)
    ++ match VersionChain.prev_version c with None => [0] | Some p => 1 :: enc p end.

Fixpoint dec_pos (bs : bytes) : option (positive * bytes) :=
  match bs with
  | 2 :: bs => Some (xH, bs)
  | 0 :: bs => '(p, bs) ← dec_pos bs; Some (xO p, bs)
  | 1 :: bs => '(p, bs) ← dec_pos bs; Some (xI p, bs)
  | _ => None
  end.
Definition dec_Z (bs : bytes) : option (Z * bytes) :=
  match bs with
  | 0 :: bs => Some (0, bs)
  | 1 :: bs => '(p, bs) ← dec_pos bs; Some (Zpos p, bs)
  | 2 :: bs => '(p, bs) ← dec_pos bs; Some (Zneg p, bs)
  | _ => None
  end.
Fixpoint dec_list (n : nat) (bs : bytes) : option (bytes * bytes) :=
  match n with
  | O => Some ([], bs)
  | S n => '(z, bs) ← dec_Z bs; '(l, bs) ← dec_list n bs; Some (z :: l, bs)
  end.
Definition dec_three (f : Z -> Z -> Z -> ValueRef.t) (bs : bytes) : option (VersionValue.t * bytes) :=
  '(a, bs) ← dec_Z bs; '(b, bs) ← dec_Z bs; '(c, bs) ← dec_Z bs;
  Some (VersionValue.External (f a b c), bs).
Definition dec_value (bs : bytes) : option (VersionValue.t * bytes) :=
  match bs with
  | 0 :: bs => '(n, bs) ← dec_Z bs; '(d, bs) ← dec_list (Z.to_nat n) bs; Some (VersionValue.Inline d, bs)
  | 1 :: bs => Some (VersionValue.External ValueRef.Inline, bs)
  | 2 :: bs => dec_three ValueRef.SinglePage bs
  | 3 :: bs => dec_three ValueRef.OverflowChain bs
  | _ => None
  end.
Definition dec_lsn (bs : bytes) : option (option Z * bytes) :=
  match bs with
  | 0 :: bs => Some (None, bs)
  | 1 :: bs => '(l, bs) ← dec_Z bs; Some (Some l, bs)
  | _ => None
  end.
Fixpoint dec (fuel : nat) (bs : bytes) : option (VersionChain.t * bytes) :=
  match fuel with
  | O => None
  | S fuel =>
      '(v, bs) ← dec_value bs; '(b, bs) ← dec_Z bs; '(l, bs) ← dec_lsn bs;
      match bs with
      | 0 :: bs => Some (VersionChain.mk v b l None, bs)
      | 1 :: bs => '(p, bs) ← dec fuel bs; Some (VersionChain.mk v b l (Some p), bs)
      | _ => None
      end
  end.

Lemma dec_enc_pos p bs : dec_pos (enc_pos p ++ bs) = Some (p, bs).
Proof. induction p as [p IH|p IH|]; simpl; rewrite ?IH; done. Qed.
Lemma dec_enc_Z z bs : dec_Z (enc_Z z ++ bs) = Some (z, bs).
Proof. destruct z; simpl; rewrite ?dec_enc_pos; done. Qed.
Lemma dec_enc_list l bs : dec_list (length l) (mjoin (map enc_Z l) ++ bs) = Some (l, bs).
Proof. induction l as [|z l IH]; simpl; [done|]. rewrite <- app_assoc, dec_enc_Z. simpl. by rewrite IH. Qed.
Lemma dec_enc_value v bs : dec_value (enc_value v ++ bs) = Some (v, bs).
Proof.
  destruct v as [d|[|a b c|a b c]]; simpl; [|done|unfold dec_three..];
    rewrite <- ?app_assoc, dec_enc_Z; simpl.
  - unfold zlen. rewrite Nat2Z.id, dec_enc_list. done.
  - by rewrite <- ?app_assoc, !dec_enc_Z; simpl; rewrite dec_enc_Z.
  - by rewrite <- ?app_assoc, !dec_enc_Z; simpl; rewrite dec_enc_Z.
Qed.
Lemma dec_enc_lsn o bs : dec_lsn (enc_lsn o ++ bs) = Some (o, bs).
Proof. destruct o; simpl; [|done]. by rewrite dec_enc_Z. Qed.

Lemma dec_enc c : forall fuel bs, (length (VersionChain.versions c) <= fuel)%nat ->
  dec fuel (enc c ++ bs) = Some (c, bs).
Proof.
  induction c as [v b l|v b l p IH] using VersionChain.chain_ind; intros [|fuel] bs Hf;
    simpl in Hf; try lia; simpl; rewrite <- ?app_assoc, dec_enc_value; simpl;
    rewrite <- ?app_assoc, dec_enc_Z; simpl; rewrite <- ?app_assoc, dec_enc_lsn; simpl; [done|].
  rewrite IH by lia. done.
Qed.

Lemma versions_le_enc c : (length (VersionChain.versions c) <= length (enc c))%nat.
Proof.
  induction c as [v b l|v b l p IH] using VersionChain.chain_ind; simpl; rewrite !length_app; simpl; lia.
Qed.

#[export] Instance toy : ChainCodec := {|
  chain_to_bytes := enc;
  chain_from_bytes bs := fst <$> dec (length bs) bs |}.
#[export] Instance toy_laws : ChainCodecLaws.
Proof.
  constructor. intros c. simpl. rewrite <- (app_nil_r (enc c)) at 2.
  rewrite dec_enc; [done|]. apply versions_le_enc.
Qed.
End ToyChains.

Lemma node_typed_witness :
  let n := BTreeNode.Leaf 3 [BTreeNode.mkLeaf [7] (VersionChain.new [9] 1)] 5 in
  @BTreeNode.from_bytes ToyChains.toy (@BTreeNode.to_bytes ToyChains.toy n) = Ok n.
Proof.
  apply (@BTreeNode.node_typed ToyChains.toy ToyChains.toy_laws [1; 2]
           (BTreeNode.Leaf 3 [BTreeNode.mkLeaf [7] (VersionChain.new [9] 1)] 5)).
  - repeat constructor; done.
  - split; done.
  - vm_compute. reflexivity.
Defined.
