(* ===== verification/BTree.v ===== *)
(** * The paged B-tree ([src/table/btree/paged.rs])

    The operations of [PagedBTree] over any [PageStore].  The root pointer and
    the row count are kept in memory and in the store; the page latches carry
    no data and are left out.  Loops down the tree and along the leaves take
    [fuel].

    Other threads are seen in one place: [insert_internal] searches without a
    latch, so what they do between its search and its latch is the argument
    [others], one action per attempt. *)
From S2P Require Import Prelude Types Page Mvcc OrdMap MemTables PageStore BTreeNode.

Module PagedBTree.
Import BTreeNode.

Record t (S : Type) : Type := mk {
  id : TableId; name : string; pager : S; root_page_id : PageId; row_count : Z;
  max_order : Z; min_keys : Z; max_node_size : Z }.
Arguments mk {S}.
Arguments id {S}.
Arguments name {S}.
Arguments pager {S}.
Arguments root_page_id {S}.
Arguments row_count {S}.
Arguments max_order {S}.
Arguments min_keys {S}.
Arguments max_node_size {S}.

Record PathEntry : Type := mkPath { page_id : PageId; version : Z; child_index : nat }.

Section Ops.
Context {S : Type} `{PageStore S} `{ChainCodec}.

Abbreviation M := (fuelled (t S) TableError).

Definition set_pager (s : S) (b : t S) : t S :=
  mk (id b) (name b) s (root_page_id b) (row_count b) (max_order b) (min_keys b) (max_node_size b).
Definition set_root (p : PageId) (b : t S) : t S :=
  mk (id b) (name b) (pager b) p (row_count b) (max_order b) (min_keys b) (max_node_size b).
Definition set_rows (n : Z) (b : t S) : t S :=
  mk (id b) (name b) (pager b) (root_page_id b) n (max_order b) (min_keys b) (max_node_size b).

(** A call of the pager, its error converted by [?]. *)
Definition convert {A} (r : outcome PagerError A * S) (b : t S) : outcome TableError A * t S :=
  (match r.1 with Ok a => Ok a | Err e => Err (TablePager e) | Panic => Panic end, set_pager r.2 b).
Definition on_pager {A} (m : stateful S PagerError A) : M A := fun b =>
  Some (convert (m (pager b)) b).
Definition on_pager_loop {A} (m : fuelled S PagerError A) : M A := fun b =>
  match m (pager b) with Some r => Some (convert r b) | None => None end.

(** [new]: the table, or the error of the pager. *)
Definition new (id : TableId) (name : string) (s : S) : outcome TableError (t S) :=
  let page_data_size := data_size s in
  let max_order := calculate_max_order page_data_size in
  let run {A} (r : outcome PagerError A * S) : outcome TableError (A * S) :=
    match r with (Ok a, s) => Ok (a, s) | (Err e, _) => Err (TablePager e) | (Panic, _) => Panic end in
  r ← run (allocate_page PageType.BTreeLeaf s);
  let root := r.1 in
  r ← run (write_page root PageType.BTreeLeaf (to_bytes new_leaf) r.2);
  r ← run (set_root_btree_page root r.2);
  r ← run (set_btree_row_count 0 r.2);
  Ok (mk id name r.2 root 0 max_order (max_order / 2) (page_data_size * 3 / 5)).

Definition open (id : TableId) (name : string) (s : S) (root : PageId) : t S :=
  let page_data_size := data_size s in
  let max_order := calculate_max_order page_data_size in
  mk id name s root (btree_row_count s) max_order (max_order / 2) (page_data_size * 3 / 5).

Definition node_fits_in_page (b : t S) (n : BTreeNode.t) : bool := zlen (to_bytes n) <=? max_node_size b.
Definition get_root_page_id (b : t S) : PageId := root_page_id b.
Definition set_root_page_id (new_root : PageId) : M unit :=
  _ ← on_pager (set_root_btree_page new_root); update (set_root new_root).
Definition get_row_count (b : t S) : Z := row_count b.
Definition increment_row_count : M unit :=
  _ ← update (fun b => set_rows (row_count b + 1) b);
  n ← ask row_count;
  on_pager (set_btree_row_count n).
Definition decrement_row_count : M unit :=
  _ ← update (fun b => if 0 <? row_count b then set_rows (row_count b - 1) b else b);
  n ← ask row_count;
  on_pager (set_btree_row_count n).
Definition is_node_safe (b : t S) (n : BTreeNode.t) (is_insert : bool) : bool :=
  if is_insert then negb (is_full n (max_order b)) && node_fits_in_page b n
  else min_keys b <? key_count n.

Definition read_node (p : PageId) : M BTreeNode.t :=
  d ← on_pager (read_page p); give (from_bytes d).
Definition write_node (p : PageId) (n : BTreeNode.t) : M unit :=
  on_pager (write_page p (node_type n) (to_bytes n)).

(** ** Searching *)

(** The child an internal node has for a key, and its index. *)
Definition child_for (entries : list InternalEntry) (rightmost_child : PageId) (k : bytes)
    : PageId * nat :=
  let at_index i := match entries !! i with
                    | Some e => (child_page_id e, i)
                    | None => (rightmost_child, length entries)
                    end in
  match binary_search_by ikey entries k with
  | (true, idx) => at_index (idx + 1)%nat
  | (false, idx) => at_index idx
  end.

Fixpoint search_loop (fuel : nat) (k : bytes) (current : PageId) (path : list (PageId * PageId))
    : M (PageId * nat * list (PageId * PageId)) :=
  match fuel with
  | O => out_of_fuel
  | Datatypes.S fuel =>
      node ← read_node current;
      match node with
      | Internal _ entries rightmost_child =>
          let child := (child_for entries rightmost_child k).1 in
          search_loop fuel k child (path ++ [(current, child)])
      | Leaf _ entries _ => mret (current, (binary_search_by key entries k).2, path)
      end
  end.
Definition search_with_path (fuel : nat) (k : bytes) : M (PageId * nat * list (PageId * PageId)) :=
  root ← ask root_page_id; search_loop fuel k root [].
Definition search (fuel : nat) (k : bytes) : M (PageId * nat) :=
  r ← search_with_path fuel k; mret r.1.

Fixpoint optimistic_loop (fuel : nat) (k : bytes) (current : PageId) (path : list PathEntry)
    : M (PageId * nat * list PathEntry) :=
  match fuel with
  | O => out_of_fuel
  | Datatypes.S fuel =>
      node ← read_node current;
      match node with
      | Internal v entries rightmost_child =>
          let '(child, idx) := child_for entries rightmost_child k in
          optimistic_loop fuel k child (path ++ [mkPath current v idx])
      | Leaf v entries _ =>
          let idx := (binary_search_by key entries k).2 in
          mret (current, idx, path ++ [mkPath current v idx])
      end
  end.
Definition search_optimistic (fuel : nat) (k : bytes) : M (PageId * nat * list PathEntry) :=
  root ← ask root_page_id; optimistic_loop fuel k root [].

Fixpoint validate_loop (entries : list PathEntry) : M bool :=
  match entries with
  | [] => mret true
  | e :: entries =>
      node ← read_node (page_id e);
      if get_version node =? version e then validate_loop entries else mret false
  end.
(** Every node of the path but the last, from the parent to the root. *)
Definition validate_optimistic_path (path : list PathEntry) : M bool := validate_loop (drop 1 (rev path)).

(** ** Reading *)

(** A value that starts with the tag of a reference and decodes as one is
    read from its overflow pages. *)
Definition resolve_value (value : bytes) : M ValueBuf :=
  if (1 <=? zlen value) && (bool_decide (head value = Some 1) || bool_decide (head value = Some 2)) then
    match ValueRef.decode value with
    | Ok (ValueRef.SinglePage p offset length) =>
        d ← on_pager (read_page p); give (slice offset (offset + length) d)
    | Ok (ValueRef.OverflowChain p total_length _) =>
        d ← on_pager_loop (read_overflow_chain p);
        if negb (zlen d =? total_length)
        then raise (Corruption "get_internal" "overflow_chain_length_mismatch")
        else mret d
    | _ => mret value
    end
  else mret value.

Definition get_internal (fuel : nat) (k : bytes) (snapshot_lsn : LogSequenceNumber) : M (option ValueBuf) :=
  r ← search fuel k;
  node ← read_node r.1;
  match node with
  | Leaf _ entries _ =>
      match entries !! r.2 with
      | Some e =>
          if bytes_eqb (key e) k then
            match VersionChain.find_visible_inline (chain e) (read_snapshot snapshot_lsn) with
            | Some value =>
                if zlen value =? 0 then mret None
                else v ← resolve_value value; mret (Some v)
            | None => mret None
            end
          else mret None
      | None => mret None
      end
  | Internal _ _ _ => mret None
  end.

(** ** Splitting *)
Definition split_node (p : PageId) (n : BTreeNode.t) : M (PageId * bytes) :=
  let mid := Z.to_nat (key_count n / 2) in
  match n with
  | Internal v entries rightmost_child =>
      median ← give (unwrap (entries !! mid));
      right_page_id ← on_pager (allocate_page PageType.BTreeInternal);
      _ ← write_node p (Internal (PageVersion_increment v) (take mid entries) (child_page_id median));
      _ ← write_node right_page_id
            (Internal PageVersion_initial (drop (mid + 1) entries) rightmost_child);
      mret (right_page_id, ikey median)
  | Leaf v entries next_leaf =>
      median ← give (unwrap (entries !! mid));
      right_page_id ← on_pager (allocate_page PageType.BTreeLeaf);
      _ ← write_node p (Leaf (PageVersion_increment v) (take mid entries) right_page_id);
      _ ← write_node right_page_id (Leaf PageVersion_initial (drop mid entries) next_leaf);
      mret (right_page_id, key median)
  end.

(** The first index whose entry satisfies [f]. *)
Fixpoint find_index {A} (f : A -> bool) (l : list A) : option nat :=
  match l with
  | [] => None
  | x :: l => if f x then Some 0%nat else Datatypes.S <$> find_index f l
  end.

Definition set_child (p : PageId) (e : InternalEntry) : InternalEntry := mkInternal (ikey e) p.
Definition insert_at {A} (i : nat) (x : A) (l : list A) : list A := take i l ++ x :: drop i l.

(** The entries and the rightmost child of a parent after [left_child] was
    split: [left_child] keeps the keys below [k], [right_child] has the
    others.  The second search of the code, for a child that stands right of
    an entry, is over the same pointers but the first, with the rightmost
    one, so it finds nothing the others did not. *)
Definition next_children (entries : list InternalEntry) (rightmost_child : PageId) : list PageId :=
  drop 1 (map child_page_id entries) ++ (if decide (entries = []) then [] else [rightmost_child]).

Definition parent_after_split (entries : list InternalEntry) (rightmost_child left_child : PageId)
    (k : bytes) (right_child : PageId) : outcome TableError (list InternalEntry * PageId) :=
  if rightmost_child =? left_child then Ok (entries ++ [mkInternal k left_child], right_child)
  else
    let insert_pos :=
      match find_index (fun e => child_page_id e =? left_child) entries with
      | Some i => Some i
      | None => Datatypes.S <$> find_index (fun p => p =? left_child) (next_children entries rightmost_child)
      end in
    match insert_pos with
    | Some pos =>
        let entries' := insert_at pos (mkInternal k left_child) entries in
        match entries !! pos with
        | Some _ => Ok (alter (set_child right_child) (pos + 1)%nat entries', rightmost_child)
        | None => Ok (entries', right_child)
        end
    | None => Err (Corruption "PagedBTree::merge_or_redistribute" "missing_child")
    end.

(** [split] is [split_and_propagate] with the rest of the path. *)
Definition insert_into_parent (split : PageId -> BTreeNode.t -> M unit) (parent_page_id left_child : PageId)
    (k : bytes) (right_child : PageId) : M unit :=
  parent_node ← read_node parent_page_id;
  match parent_node with
  | Internal v entries rightmost_child =>
      r ← give (parent_after_split entries rightmost_child left_child k right_child);
      let parent_node := Internal v r.1 r.2 in
      _ ← write_node parent_page_id parent_node;
      b ← ask (fun b => b);
      if is_full parent_node (max_order b) || negb (node_fits_in_page b parent_node)
      then split parent_page_id parent_node
      else mret tt
  | Leaf _ _ _ => mret tt
  end.

(** The path holds pairs of a parent and the child followed, the last parent
    first, as [path.pop()] takes them. *)
Fixpoint split_and_propagate (path : list (PageId * PageId)) (p : PageId) (n : BTreeNode.t) : M unit :=
  current_root ← ask root_page_id;
  r ← split_node p n;
  let '(right_page_id, median_key) := r in
  if p =? current_root then
    new_root_page_id ← on_pager (allocate_page PageType.BTreeInternal);
    _ ← write_node new_root_page_id
          (Internal PageVersion_initial [mkInternal median_key p] right_page_id);
    set_root_page_id new_root_page_id
  else
    match path with
    | [] => raise (Corruption "PagedBTree::split_child" "missing_parent")
    | (parent_page_id, _) :: path =>
        insert_into_parent (split_and_propagate path) parent_page_id p median_key right_page_id
    end.

(** ** Inserting *)
Definition commit_if (commit_lsn : LogSequenceNumber) (c : VersionChain.t) : VersionChain.t :=
  if 0 <? commit_lsn then VersionChain.commit c commit_lsn else c.
Definition set_chain (c : VersionChain.t) (e : LeafEntry) : LeafEntry := mkLeaf (key e) c.

(** The entries of a leaf with the new version, and whether the key is new. *)
Definition leaf_insert (entries : list LeafEntry) (k value : bytes) (tx_id : TransactionId)
    (commit_lsn : LogSequenceNumber) : list LeafEntry * bool :=
  let '(found, pos) := binary_search_by key entries k in
  let fresh := commit_if commit_lsn (VersionChain.new value tx_id) in
  (match entries !! pos with
   | Some e =>
       if bytes_eqb (key e) k
       then <[pos := set_chain (commit_if commit_lsn (VersionChain.prepend (chain e) value tx_id)) e]> entries
       else insert_at pos (mkLeaf k fresh) entries
   | None => insert_at pos (mkLeaf k fresh) entries
   end, negb found).

(** The pairs of neighbours of a path, the last parent first. *)
Definition old_style_path (path : list PathEntry) : list (PageId * PageId) :=
  rev (zip_with (fun parent child => (page_id parent, page_id child))
         (take (length path - 1) path) (drop 1 path)).

Definition MAX_RETRIES : nat := 10.

Fixpoint insert_loop (others : nat -> M unit) (fuel tries : nat) (k value : bytes) (tx_id : TransactionId)
    (commit_lsn : LogSequenceNumber) : M unit :=
  match tries with
  | O => out_of_fuel
  | Datatypes.S tries =>
      let retry (e : TableError) : M unit :=
        match tries with
        | O => raise e
        | _ => insert_loop others fuel tries k value tx_id commit_lsn
        end in
      r ← search_optimistic fuel k;
      let '(leaf_page_id, _, path) := r in
      _ ← others tries;
      valid ← validate_optimistic_path path;
      if negb valid then retry (TableOther "Insert failed after 10 retries due to high contention")
      else
        node ← read_node leaf_page_id;
        match node with
        | Leaf v entries next_leaf =>
            let '(entries, is_new_key) := leaf_insert entries k value tx_id commit_lsn in
            let modified_node := Leaf (PageVersion_increment v) entries next_leaf in
            _ ← write_node leaf_page_id modified_node;
            b ← ask (fun b => b);
            _ ← (if is_full modified_node (max_order b) || negb (node_fits_in_page b modified_node)
                 then split_and_propagate (old_style_path path) leaf_page_id modified_node
                 else mret tt);
            if is_new_key then increment_row_count else mret tt
        | Internal _ _ _ => retry (Corruption "PagedBTree::insert_internal" "node_type_changed")
        end
  end.
Definition insert_internal (others : nat -> M unit) (fuel : nat) (k value : bytes) (tx_id : TransactionId)
    (commit_lsn : LogSequenceNumber) : M unit :=
  insert_loop others fuel MAX_RETRIES k value tx_id commit_lsn.

(** ** Deleting: a tombstone is put in front of the chain *)
Definition delete_internal (fuel : nat) (k : bytes) (tx_id : TransactionId) : M bool :=
  r ← search_with_path fuel k;
  let '(leaf_page_id, pos, _) := r in
  node ← read_node leaf_page_id;
  match node with
  | Leaf v entries next_leaf =>
      match entries !! pos with
      | Some e =>
          if bytes_eqb (key e) k then
            _ ← write_node leaf_page_id
                  (Leaf v (<[pos := set_chain (VersionChain.prepend (chain e) [] tx_id) e]> entries) next_leaf);
            _ ← decrement_row_count;
            mret true
          else mret false
      | None => mret false
      end
  | Internal _ _ _ => mret false
  end.

(** ** Committing *)
Fixpoint commit_chain_recursive (c : VersionChain.t) (tx_id : TransactionId) (commit_lsn : LogSequenceNumber)
    : VersionChain.t :=
  let lsn := if (VersionChain.created_by c =? tx_id) && bool_decide (VersionChain.commit_lsn c = None)
             then Some commit_lsn else VersionChain.commit_lsn c in
  VersionChain.mk (VersionChain.value c) (VersionChain.created_by c) lsn
    (match VersionChain.prev_version c with
     | Some p => Some (commit_chain_recursive p tx_id commit_lsn)
     | None => None
     end).

Fixpoint leftmost_leaf (fuel : nat) (current : PageId) : M PageId :=
  match fuel with
  | O => out_of_fuel
  | Datatypes.S fuel =>
      node ← read_node current;
      match node with
      | Internal _ entries rightmost_child =>
          leftmost_leaf fuel (match entries with e :: _ => child_page_id e | [] => rightmost_child end)
      | Leaf _ _ _ => mret current
      end
  end.

Fixpoint commit_leaves (fuel : nat) (current : PageId) (tx_id : TransactionId)
    (commit_lsn : LogSequenceNumber) : M unit :=
  match fuel with
  | O => out_of_fuel
  | Datatypes.S fuel =>
      node ← read_node current;
      match node with
      | Leaf v entries next_leaf =>
          _ ← write_node current
                (Leaf (PageVersion_increment v)
                   (map (fun e => set_chain (commit_chain_recursive (chain e) tx_id commit_lsn) e) entries)
                   next_leaf);
          if next_leaf =? 0 then mret tt else commit_leaves fuel next_leaf tx_id commit_lsn
      | Internal _ _ _ => panic
      end
  end.
Definition commit_versions_for_tx (fuel : nat) (tx_id : TransactionId) (commit_lsn : LogSequenceNumber)
    : M unit :=
  root ← ask root_page_id;
  first ← leftmost_leaf fuel root;
  commit_leaves fuel first tx_id commit_lsn.
End Ops.
End PagedBTree.
