(* ===== verification/BTreeOps.v ===== *)
(** * Writers, cursors and maintenance of the paged B-tree
    ([src/table/btree/paged.rs], lines 1183-1507 and 1833-3887)

    The writer buffers changes and applies them on [flush]; the cursor walks
    the linked leaves; merging, rebalancing, statistics, verification and
    vacuum walk the tree. *)
From S2P Require Import Prelude Types Page Mvcc OrdMap MemTables PageStore BTreeNode BTree.

Module PagedBTreeOps.
Import BTreeNode PagedBTree.

Section Ops.
Context {S : Type} `{PageStore S} `{ChainCodec}.

Abbreviation M := (fuelled (t S) TableError).

(** ** Merging and redistributing *)
Definition merge_nodes (left_page_id right_page_id : PageId) (separator_key : bytes) : M bool :=
  left_node ← read_node left_page_id;
  right_node ← read_node right_page_id;
  b ← ask (fun b => b);
  match left_node, right_node with
  | Internal lv les lr, Internal _ res rr =>
      if max_order b <? zlen les + zlen res + 1 then mret false
      else
        _ ← write_node left_page_id
              (Internal (PageVersion_increment lv) (les ++ [mkInternal separator_key lr] ++ res) rr);
        _ ← on_pager (free_page right_page_id);
        mret true
  | Leaf lv les _, Leaf _ res rn =>
      if max_order b <? zlen les + zlen res then mret false
      else
        _ ← write_node left_page_id (Leaf (PageVersion_increment lv) (les ++ res) rn);
        _ ← on_pager (free_page right_page_id);
        mret true
  | _, _ => mret false
  end.

(** The new separator, [None] when nothing was moved. *)
Definition redistribute_keys (left_page_id right_page_id : PageId) (separator_key : bytes)
    : M (option bytes) :=
  left_node ← read_node left_page_id;
  right_node ← read_node right_page_id;
  let target_left := Z.to_nat ((key_count left_node + key_count right_node) / 2) in
  match left_node, right_node with
  | Internal lv les lr, Internal rv res rr =>
      if (length les <? target_left)%nat then
        let to_move := (target_left - length les)%nat in
        let les := les ++ [mkInternal separator_key lr] ++ take (to_move - 1) res in
        match drop (to_move - 1) res with
        | e :: res =>
            _ ← write_node left_page_id (Internal (PageVersion_increment lv) les (child_page_id e));
            _ ← write_node right_page_id (Internal (PageVersion_increment rv) res rr);
            mret (Some (ikey e))
        | [] => mret None
        end
      else
        let moved_entries := drop target_left les in
        match last moved_entries with
        | None => mret None
        | Some e =>
            _ ← write_node left_page_id
                  (Internal (PageVersion_increment lv) (take target_left les) (child_page_id e));
            _ ← write_node right_page_id
                  (Internal (PageVersion_increment rv)
                     (removelast moved_entries ++ [mkInternal separator_key lr] ++ res) rr);
            mret (Some (ikey e))
        end
  | Leaf lv les ln, Leaf rv res rn =>
      if (length les <? target_left)%nat then
        let to_move := (target_left - length les)%nat in
        _ ← write_node left_page_id (Leaf (PageVersion_increment lv) (les ++ take to_move res) ln);
        _ ← write_node right_page_id (Leaf (PageVersion_increment rv) (drop to_move res) rn);
        mret (key <$> head (drop to_move res))
      else
        let moved_entries := drop target_left les in
        match moved_entries with
        | [] => mret None
        | e :: _ =>
            _ ← write_node left_page_id (Leaf (PageVersion_increment lv) (take target_left les) ln);
            _ ← write_node right_page_id (Leaf (PageVersion_increment rv) (moved_entries ++ res) rn);
            mret (Some (key e))
        end
  | _, _ => mret None
  end.

Definition set_key (k : bytes) (e : InternalEntry) : InternalEntry := mkInternal k (child_page_id e).

Definition update_separator_after_child_change (parent_page_id child : PageId) (replacement_key : bytes)
    : M unit :=
  let missing := Corruption "PagedBTree::update_separator_after_child_change" "missing_child_reference" in
  parent_node ← read_node parent_page_id;
  match parent_node with
  | Internal v entries rightmost_child =>
      match find_index (fun p => p =? child) (next_children entries rightmost_child) with
      | Some i => write_node parent_page_id (Internal v (alter (set_key replacement_key) i entries) rightmost_child)
      | None => raise missing
      end
  | Leaf _ _ _ => raise missing
  end.

(** Remove the separator of two merged children; [rm] is the rightmost child
    that is left. *)
Definition drop_separator (parent_page_id : PageId) (i : nat) (rm : list InternalEntry -> PageId -> PageId)
    : M bool :=
  updated_parent ← read_node parent_page_id;
  match updated_parent with
  | Internal v entries rightmost_child =>
      _ ← (if (i <? length entries)%nat then mret tt else panic);
      let entries := delete i entries in
      _ ← write_node parent_page_id (Internal v entries (rm entries rightmost_child));
      mret true
  | Leaf _ _ _ => mret false
  end.

(** One side of the rebalancing; [true] when the code returns there. *)
Definition rebalance_with (parent_page_id left_page right_page : PageId) (separator : bytes) (i : nat)
    (rm : list InternalEntry -> PageId -> PageId) : M bool :=
  r ← redistribute_keys left_page right_page separator;
  match r with
  | Some new_separator =>
      _ ← update_separator_after_child_change parent_page_id right_page new_separator; mret true
  | None =>
      merged ← merge_nodes left_page right_page separator;
      if (merged : bool) then drop_separator parent_page_id i rm else mret false
  end.

Definition rebalance_leaf_after_delete (leaf_page_id : PageId) (path : list (PageId * PageId)) : M unit :=
  match last path with
  | None => mret tt
  | Some (parent_page_id, _) =>
      parent_node ← read_node parent_page_id;
      match parent_node with
      | Leaf _ _ _ => raise (Corruption "PagedBTree::rebalance_leaf_after_delete" "parent_not_internal")
      | Internal _ entries rightmost_child =>
          let children := map child_page_id entries ++ [rightmost_child] in
          child_index ← give (ok_or (find_index (fun p => p =? leaf_page_id) children)
                                (Corruption "PagedBTree::rebalance_leaf_after_delete" "missing_child"));
          finished ←
            match child_index with
            | O => mret false
            | Datatypes.S j =>
                left_sibling ← give (unwrap (children !! j));
                separator ← give (unwrap (entries !! j));
                rebalance_with parent_page_id left_sibling leaf_page_id (ikey separator) j
                  (fun _ r => if (child_index =? length children - 1)%nat then left_sibling else r)
            end;
          if (finished : bool) then mret tt
          else
            match children !! (child_index + 1)%nat with
            | Some right_sibling =>
                separator ← give (unwrap (entries !! child_index));
                _ ← rebalance_with parent_page_id leaf_page_id right_sibling (ikey separator) child_index
                      (fun entries r => if (length entries <=? child_index)%nat then leaf_page_id else r);
                mret tt
            | None => mret tt
            end
      end
  end.

(** ** Walks over the tree *)
Fixpoint fold_children {A} (f : PageId -> A -> M A) (l : list PageId) (a : A) : M A :=
  match l with
  | [] => mret a
  | p :: l => a ← f p a; fold_children f l a
  end.

Record TreeStatistics : Type := mkStatistics {
  rows : Z; total_size_bytes : Z; tree_depth : Z; internal_node_count : Z; leaf_node_count : Z;
  key_min_size : Z; key_max_size : Z; key_total_size : Z;
  value_min_size : Z; value_max_size : Z; value_total_size : Z }.
Definition statistics_new : TreeStatistics := mkStatistics 0 0 0 0 0 (2 ^ 64 - 1) 0 0 (2 ^ 64 - 1) 0 0.

Definition count_entry (st : TreeStatistics) (e : LeafEntry) : TreeStatistics :=
  if VersionValue.is_empty (VersionChain.value (chain e)) then st
  else
    let key_size := zlen (key e) in
    let value_size := VersionValue.len (VersionChain.value (chain e)) in
    mkStatistics (rows st + 1) (total_size_bytes st) (tree_depth st) (internal_node_count st)
      (leaf_node_count st) (Z.min (key_min_size st) key_size) (Z.max (key_max_size st) key_size)
      (key_total_size st + key_size) (Z.min (value_min_size st) value_size)
      (Z.max (value_max_size st) value_size) (value_total_size st + value_size).
Definition count_node (st : TreeStatistics) (depth page_size internal leaf : Z) : TreeStatistics :=
  mkStatistics (rows st) (total_size_bytes st + page_size) (Z.max (tree_depth st) depth)
    (internal_node_count st + internal) (leaf_node_count st + leaf) (key_min_size st) (key_max_size st)
    (key_total_size st) (value_min_size st) (value_max_size st) (value_total_size st).

Fixpoint collect_node_statistics (fuel : nat) (page_size depth : Z) (p : PageId) (st : TreeStatistics)
    : M TreeStatistics :=
  match fuel with
  | O => out_of_fuel
  | Datatypes.S fuel =>
      node ← read_node p;
      match node with
      | Internal _ entries rightmost_child =>
          fold_children (collect_node_statistics fuel page_size (depth + 1))
            (map child_page_id entries ++ [rightmost_child]) (count_node st depth page_size 1 0)
      | Leaf _ entries _ => mret (foldl count_entry (count_node st depth page_size 0 1) entries)
      end
  end.
Definition collect_tree_statistics (fuel : nat) : M TreeStatistics :=
  b ← ask (fun b => b);
  st ← collect_node_statistics fuel (page_bytes (pager b)) 0 (root_page_id b) statistics_new;
  mret (if rows st =? 0
        then mkStatistics (rows st) (total_size_bytes st) (tree_depth st) (internal_node_count st)
               (leaf_node_count st) 0 (key_max_size st) (key_total_size st) 0 (value_max_size st)
               (value_total_size st)
        else st).

Fixpoint count_entries (fuel : nat) (p : PageId) (n : Z) : M Z :=
  match fuel with
  | O => out_of_fuel
  | Datatypes.S fuel =>
      node ← read_node p;
      match node with
      | Internal _ entries rightmost_child =>
          fold_children (count_entries fuel) (map child_page_id entries ++ [rightmost_child]) n
      | Leaf _ entries _ => mret (n + zlen entries)
      end
  end.

(** [verify]: the number of nodes visited; no check is made of a node. *)
Fixpoint verify_node (fuel : nat) (p : PageId) (checked_items : Z) : M Z :=
  match fuel with
  | O => out_of_fuel
  | Datatypes.S fuel =>
      node ← read_node p;
      match node with
      | Internal _ entries rightmost_child =>
          fold_children (verify_node fuel) (map child_page_id entries ++ [rightmost_child]) (checked_items + 1)
      | Leaf _ _ _ => mret (checked_items + 1)
      end
  end.
Definition verify (fuel : nat) : M Z := root ← ask root_page_id; verify_node fuel root 0.

(** ** Vacuum *)
Definition is_tombstone (c : VersionChain.t) : bool :=
  match VersionChain.value c with VersionValue.Inline v => zlen v =? 0 | _ => false end.

Fixpoint vacuum_entries (min_visible_lsn : LogSequenceNumber) (l : list LeafEntry)
    : M (list LeafEntry * nat) :=
  match l with
  | [] => mret ([], 0%nat)
  | e :: l =>
      let '(removed, freed_refs, c) := VersionChain.vacuum (chain e) min_visible_lsn in
      _ ← (match freed_refs with
           | [] => mret 0
           | _ => on_pager_loop (free_value_refs freed_refs)
           end);
      r ← vacuum_entries min_visible_lsn l;
      mret (if is_tombstone c then r.1 else set_chain c e :: r.1, (removed + r.2)%nat)
  end.

(** The children of an internal node: the entries kept, the versions removed
    and the pages freed. *)
Fixpoint vacuum_children (f : PageId -> M (nat * list PageId)) (l : list InternalEntry)
    : M (list InternalEntry * nat * list PageId) :=
  match l with
  | [] => mret ([], 0%nat, [])
  | e :: l =>
      x ← f (child_page_id e);
      r ← vacuum_children f l;
      mret (if bool_decide (child_page_id e ∈ x.2) then r.1.1 else e :: r.1.1,
            (x.1 + r.1.2)%nat, x.2 ++ r.2)
  end.

Fixpoint vacuum_node (fuel : nat) (min_visible_lsn : LogSequenceNumber) (is_root : bool) (p : PageId)
    : M (nat * list PageId) :=
  match fuel with
  | O => out_of_fuel
  | Datatypes.S fuel =>
      node ← read_node p;
      match node with
      | Internal v entries rightmost_child =>
          r ← vacuum_children (vacuum_node fuel min_visible_lsn false) entries;
          let '(entries, removed, freed) := r in
          x ← vacuum_node fuel min_visible_lsn false rightmost_child;
          let '(entries, rightmost_child) :=
            if bool_decide (rightmost_child ∈ x.2) then
              match last entries with
              | Some e => (removelast entries, child_page_id e)
              | None => (entries, 0)
              end
            else (entries, rightmost_child) in
          let removed := (removed + x.1)%nat in
          let freed := freed ++ x.2 in
          if (zlen entries =? 0) && (rightmost_child =? 0) && negb is_root then
            _ ← on_pager (free_page p); mret (removed, freed ++ [p])
          else
            _ ← write_node p (Internal (PageVersion_increment v) entries rightmost_child);
            mret (removed, freed)
      | Leaf v entries next_leaf =>
          r ← vacuum_entries min_visible_lsn entries;
          if (zlen r.1 =? 0) && negb is_root then
            _ ← on_pager (free_page p); mret (r.2, [p])
          else
            _ ← write_node p (Leaf (PageVersion_increment v) r.1 next_leaf);
            mret (r.2, [])
      end
  end.
Definition vacuum (fuel : nat) (min_visible_lsn : LogSequenceNumber) : M nat :=
  root ← ask root_page_id;
  if root =? 0 then mret 0%nat
  else r ← vacuum_node fuel min_visible_lsn true root; mret r.1.

(** ** Secondary index entries *)
Definition insert_entry (others : nat -> M unit) (fuel : nat) (index_key primary_key : bytes)
    (tx_id : TransactionId) (commit_lsn : LogSequenceNumber) : M unit :=
  insert_internal others fuel index_key primary_key tx_id commit_lsn.

Definition delete_entry (fuel : nat) (index_key primary_key : bytes) : M unit :=
  r ← search fuel index_key;
  node ← read_node r.1;
  match node with
  | Leaf v entries next_leaf =>
      match entries !! r.2 with
      | Some e =>
          if bytes_eqb (key e) index_key &&
             bool_decide (VersionChain.find_visible_inline (chain e) (read_snapshot (2 ^ 64 - 1)) = Some primary_key)
          then write_node r.1 (Leaf v (delete r.2 entries) next_leaf)
          else mret tt
      | None => mret tt
      end
  | Internal _ _ _ => mret tt
  end.
End Ops.

(** ** The cursor *)
Record Cursor : Type := mkCursor {
  c_snapshot_lsn : LogSequenceNumber; bounds : ScanBounds; current_page_id : PageId;
  current_position : nat; current_key : option bytes; current_value : option bytes;
  exhausted : bool; initialized : bool }.

Definition is_in_bounds (s : ScanBounds) (k : bytes) : bool :=
  match s with
  | All => true
  | Prefix p => starts_with k p
  | Range start stop => BTreeMap.above start k && BTreeMap.below stop k
  end.
Definition valid (c : Cursor) : bool := negb (exhausted c) && bool_decide (current_key c <> None).

Definition place (p : PageId) (i : nat) (c : Cursor) : Cursor :=
  mkCursor (c_snapshot_lsn c) (bounds c) p i (current_key c) (current_value c) (exhausted c) (initialized c).
Definition show (k v : option bytes) (c : Cursor) : Cursor :=
  mkCursor (c_snapshot_lsn c) (bounds c) (current_page_id c) (current_position c) k v (exhausted c) (initialized c).
Definition set_exhausted (x : bool) (c : Cursor) : Cursor :=
  mkCursor (c_snapshot_lsn c) (bounds c) (current_page_id c) (current_position c) (current_key c)
    (current_value c) x (initialized c).
Definition start_over (c : Cursor) : Cursor :=
  mkCursor (c_snapshot_lsn c) (bounds c) (current_page_id c) (current_position c) (current_key c)
    (current_value c) false true.

Section Cursors.
Context {S : Type} `{PageStore S} `{ChainCodec}.

(** The cursor and the table it reads. *)
Abbreviation CM := (fuelled (Cursor * t S) TableError).

Definition on_table {A} (m : fuelled (t S) TableError A) : CM A := fun '(c, b) =>
  match m b with Some (r, b') => Some (r, (c, b')) | None => None end.
Definition move (f : Cursor -> Cursor) : CM unit := update (fun x => (f x.1, x.2)).
Definition cursor {A} (f : Cursor -> A) : CM A := ask (fun x => f x.1).

(** An internal node without entries is an error here. *)
Fixpoint find_leftmost_leaf (fuel : nat) (current : PageId) : fuelled (t S) TableError PageId :=
  match fuel with
  | O => out_of_fuel
  | Datatypes.S fuel =>
      node ← read_node current;
      match node with
      | Internal _ [] _ => raise (Corruption "PagedBTree::delete_internal" "empty_node")
      | Internal _ (e :: _) _ => find_leftmost_leaf fuel (child_page_id e)
      | Leaf _ _ _ => mret current
      end
  end.
Fixpoint find_rightmost_leaf (fuel : nat) (current : PageId) : fuelled (t S) TableError PageId :=
  match fuel with
  | O => out_of_fuel
  | Datatypes.S fuel =>
      node ← read_node current;
      match node with
      | Internal _ _ rightmost_child => find_rightmost_leaf fuel rightmost_child
      | Leaf _ _ _ => mret current
      end
  end.

(** What the cursor shows of an entry. *)
Definition show_entry (e : LeafEntry) (c : Cursor) : Cursor :=
  if negb (is_in_bounds (bounds c) (key e)) then show None None (set_exhausted true c)
  else match VersionChain.find_visible_inline (chain e) (read_snapshot (c_snapshot_lsn c)) with
       | Some v => if zlen v =? 0 then show None None c else show (Some (key e)) (Some v) c
       | None => show None None c
       end.
Definition load_current_entry : CM unit :=
  c ← cursor (fun c => c);
  node ← on_table (read_node (current_page_id c));
  match node with
  | Leaf _ entries _ =>
      match entries !! current_position c with
      | Some e => move (show_entry e)
      | None => move (show None None)
      end
  | Internal _ _ _ => mret tt
  end.

(** The inner loop over the rest of a leaf of [len] entries; [true] when
    [advance_to_next_visible] returns there. *)
Fixpoint advance_within (n : nat) (len : nat) : CM bool :=
  match n with
  | O => mret false
  | Datatypes.S n =>
      c ← cursor (fun c => c);
      if (current_position c <? len)%nat then
        _ ← load_current_entry;
        c ← cursor (fun c => c);
        if bool_decide (current_key c <> None) || exhausted c then mret true
        else _ ← move (place (current_page_id c) (current_position c + 1)%nat); advance_within n len
      else mret false
  end.
Fixpoint advance_to_next_visible (fuel : nat) : CM unit :=
  match fuel with
  | O => out_of_fuel
  | Datatypes.S fuel =>
      c ← cursor (fun c => c);
      node ← on_table (read_node (current_page_id c));
      match node with
      | Leaf _ entries next_leaf =>
          found ← advance_within (Datatypes.S (length entries)) (length entries);
          if (found : bool) then mret tt
          else if next_leaf =? 0 then move (set_exhausted true)
          else _ ← move (place next_leaf 0); advance_to_next_visible fuel
      | Internal _ _ _ => raise (Corruption "PagedBTreeCursor::next" "wrong_node_type")
      end
  end.

(** The loop runs over the positions below the current one. *)
Fixpoint retreat_from (position : nat) : CM unit :=
  match position with
  | O => move (fun c => show None None (set_exhausted true c))
  | Datatypes.S position =>
      c ← cursor (fun c => c);
      _ ← move (place (current_page_id c) position);
      _ ← load_current_entry;
      c ← cursor (fun c => c);
      if bool_decide (current_key c <> None) then mret tt else retreat_from position
  end.
Definition retreat_to_prev_visible : CM unit := i ← cursor current_position; retreat_from i.

Definition go_to (fuel : nat) (k : bytes) : CM unit :=
  r ← on_table (search fuel k); move (place r.1 r.2).
Definition go_leftmost (fuel : nat) : CM unit :=
  p ← on_table (root ← ask root_page_id; find_leftmost_leaf fuel root); move (place p 0).
Definition run_dry : CM unit := move (fun c => show None None (set_exhausted true c)).

(** [seek] of a key within the bounds; [seek] calls itself at most once, on
    the included start key. *)
Definition seek_within (fuel : nat) (k : bytes) : CM unit :=
  _ ← move start_over;
  c ← cursor (fun c => c);
  if is_in_bounds (bounds c) k then _ ← go_to fuel k; advance_to_next_visible fuel else run_dry.

Definition seek (fuel : nat) (k : bytes) : CM unit :=
  _ ← move start_over;
  c ← cursor (fun c => c);
  if negb (is_in_bounds (bounds c) k) then
    match bounds c with
    | Range (Included s) _ => if key_ltb k s then seek_within fuel s else run_dry
    | Range (Excluded s) _ =>
        if key_leb k s then
          _ ← go_to fuel s;
          _ ← move (fun c => place (current_page_id c) (current_position c + 1)%nat c);
          advance_to_next_visible fuel
        else run_dry
    | _ => run_dry
    end
  else _ ← go_to fuel k; advance_to_next_visible fuel.

Definition next_entry (fuel : nat) : CM unit :=
  c ← cursor (fun c => c);
  if exhausted c then mret tt
  else
    _ ← move (place (current_page_id c) (current_position c + 1)%nat);
    advance_to_next_visible fuel.

Definition first (fuel : nat) : CM unit :=
  _ ← move start_over;
  c ← cursor (fun c => c);
  match bounds c with
  | All | Range Unbounded _ => _ ← go_leftmost fuel; advance_to_next_visible fuel
  | Prefix p => seek fuel p
  | Range (Included s) _ => seek fuel s
  | Range (Excluded s) _ =>
      _ ← seek fuel s;
      c ← cursor (fun c => c);
      if valid c && bool_decide (current_key c = Some s) then next_entry fuel else mret tt
  end.
Definition next (fuel : nat) : CM unit :=
  c ← cursor (fun c => c);
  if negb (initialized c) then first fuel else next_entry fuel.

Definition last (fuel : nat) : CM unit :=
  _ ← move start_over;
  p ← on_table (root ← ask root_page_id; find_rightmost_leaf fuel root);
  c ← cursor (fun c => c);
  _ ← move (place p (current_position c));
  node ← on_table (read_node p);
  match node with
  | Leaf _ entries _ =>
      if (length entries =? 0)%nat then run_dry
      else
        _ ← move (place p (length entries - 1)%nat);
        _ ← load_current_entry;
        c ← cursor (fun c => c);
        if bool_decide (current_key c = None) then retreat_to_prev_visible else mret tt
  | Internal _ _ _ => mret tt
  end.
Definition prev (fuel : nat) : CM unit :=
  c ← cursor (fun c => c);
  if negb (initialized c) then last fuel
  else if exhausted c then mret tt else retreat_to_prev_visible.

Definition seek_for_prev (fuel : nat) (k : bytes) : CM unit :=
  _ ← move start_over;
  c ← cursor (fun c => c);
  if negb (is_in_bounds (bounds c) k) then
    match bounds c with
    | Range _ (Included e) => if key_ltb e k then last fuel else run_dry
    | Range _ (Excluded e) => if key_leb e k then last fuel else run_dry
    | _ => run_dry
    end
  else
    r ← on_table (search fuel k);
    _ ← move (place r.1 r.2);
    node ← on_table (read_node r.1);
    match node with
    | Leaf _ entries _ =>
        match entries !! r.2 with
        | Some e => if bytes_eqb (key e) k then load_current_entry else retreat_to_prev_visible
        | None => retreat_to_prev_visible
        end
    | Internal _ _ _ => mret tt
    end.

(** [PagedBTreeCursor::new]: an error of the first positioning is dropped. *)
Definition new_cursor (fuel : nat) (s : ScanBounds) (lsn : LogSequenceNumber)
    : fuelled (t S) TableError Cursor := fun b =>
  match first fuel (mkCursor lsn s 0 0 None None false false, b) with
  | Some (Panic, (_, b')) => Some (Panic, b')
  | Some (_, (c, b')) => Some (Ok c, b')
  | None => None
  end.
End Cursors.
End PagedBTreeOps.
