(* ===== verification/BTreeWriter.v ===== *)
(** * Writers of the paged B-tree ([src/table/btree/paged.rs], lines 2281-3098)

    [PagedBTreeWriter] keeps the changes of a transaction until [flush];
    values too big for a page are streamed to overflow pages first.  A
    [ValueStream] is given by its two methods; the loops that read one to its
    end take [fuel]. *)
From S2P Require Import Prelude Types Page Mvcc OrdMap MemTables PageStore BTreeNode BTree BTreeOps.

Module PagedBTreeWriter.
Import BTreeNode PagedBTree PagedBTreeOps.

Inductive PendingChange : Type :=
  | PInline (k value : bytes)
  | PExternal (k : bytes) (value_ref : ValueRef.t)
  | PDelete (k : bytes).

Record t : Type := mk {
  tx_id : TransactionId; snapshot_lsn : LogSequenceNumber; pending_changes : list PendingChange }.
Definition new (tx_id : TransactionId) (snapshot_lsn : LogSequenceNumber) : t := mk tx_id snapshot_lsn [].
Definition push (x : PendingChange) (w : t) : t := mk (tx_id w) (snapshot_lsn w) (pending_changes w ++ [x]).

Definition is_external_value (value : bytes) : bool :=
  match value with
  | x :: _ => ((x =? 1) && (zlen value =? 11)) || ((x =? 2) && (zlen value =? 17))
  | [] => false
  end.

Definition max_inline_size : Z := 4096.

Section Ops.
Context {S : Type} `{PageStore S} `{ChainCodec}.

Abbreviation TM := (fuelled (PagedBTree.t S) TableError).
(** The writer and its table. *)
Abbreviation M := (fuelled (t * PagedBTree.t S) TableError).

Definition on_table {A} (m : TM A) : M A := fun '(w, b) =>
  match m b with Some (r, b') => Some (r, (w, b')) | None => None end.
Definition note (x : PendingChange) : M unit := update (fun s => (push x s.1, s.2)).

Definition put (k value : bytes) : M Z :=
  _ ← note (PInline k value); mret (zlen k + zlen value + 16).

Definition delete (fuel : nat) (k : bytes) : M bool :=
  w ← ask fst;
  v ← on_table (get_internal fuel k (snapshot_lsn w));
  if bool_decide (v <> None) then _ ← note (PDelete k); mret true else mret false.

(** The loop of [range_delete]: [rounds] is one more than the keys the cursor
    shows. *)
Fixpoint delete_scanned (fuel rounds : nat) (c : Cursor) (deleted_count : Z) : M Z :=
  match rounds with
  | O => out_of_fuel
  | Datatypes.S rounds =>
      if negb (valid c) then mret deleted_count
      else
        deleted_count ← match current_key c with
                        | Some k => _ ← note (PDelete k); mret (deleted_count + 1)
                        | None => mret deleted_count
                        end;
        c ← on_table (fun b => match next fuel (c, b) with
                               | Some (Ok _, (c', b')) => Some (Ok c', b')
                               | Some (Err e, (_, b')) => Some (Err e, b')
                               | Some (Panic, (_, b')) => Some (Panic, b')
                               | None => None
                               end);
        delete_scanned fuel rounds c deleted_count
  end.
Definition range_delete (fuel rounds : nat) (s : ScanBounds) : M Z :=
  w ← ask fst;
  c ← on_table (new_cursor fuel s (snapshot_lsn w));
  delete_scanned fuel rounds c 0.

Fixpoint batch_get (fuel : nat) (ks : list bytes) : M (list (option ValueBuf)) :=
  match ks with
  | [] => mret []
  | k :: ks =>
      w ← ask fst;
      v ← on_table (get_internal fuel k (snapshot_lsn w));
      rest ← batch_get fuel ks;
      mret (v :: rest)
  end.

Fixpoint apply_mutations (fuel rounds : nat) (l : list Mutation) (r : BatchReport) : M BatchReport :=
  match l with
  | [] => mret r
  | MPut k v :: l =>
      _ ← put k v;
      apply_mutations fuel rounds l
        (mkReport (attempted r) (applied r + 1) (deleted r) (bytes_written r + zlen k + zlen v))
  | MDelete k :: l =>
      found ← delete fuel k;
      apply_mutations fuel rounds l
        (mkReport (attempted r) (applied r + 1) (if (found : bool) then deleted r + 1 else deleted r)
           (bytes_written r))
  | MRangeDelete s :: l =>
      n ← range_delete fuel rounds s;
      apply_mutations fuel rounds l
        (mkReport (attempted r) (applied r + 1) (deleted r + n) (bytes_written r))
  | MMerge _ _ :: l => apply_mutations fuel rounds l r
  end.
Definition apply_batch (fuel rounds : nat) (l : list Mutation) : M BatchReport :=
  apply_mutations fuel rounds l (mkReport (zlen l) 0 0 0).

Definition free_value_ref (v : ValueRef.t) : TM unit :=
  match v with
  | ValueRef.Inline => mret tt
  | ValueRef.SinglePage p _ _ => on_pager (free_page p)
  | ValueRef.OverflowChain p _ _ => on_pager_loop (free_overflow_chain p)
  end.

(** The pages of the value a change replaces. *)
Definition free_replaced (fuel : nat) (lsn : LogSequenceNumber) (k : bytes) : TM unit :=
  old ← get_internal fuel k lsn;
  match old with
  | Some old_value =>
      if is_external_value old_value then
        match ValueRef.decode old_value with
        | Ok value_ref => free_value_ref value_ref
        | Err _ => raise InvalidValueRef
        | Panic => panic
        end
      else mret tt
  | None => mret tt
  end.

Definition flush_one (others : nat -> TM unit) (fuel : nat) (w : t) (x : PendingChange) : TM unit :=
  match x with
  | PInline k value =>
      _ ← free_replaced fuel (snapshot_lsn w) k;
      insert_internal others fuel k value (tx_id w) 0
  | PExternal k value_ref =>
      _ ← free_replaced fuel (snapshot_lsn w) k;
      insert_internal others fuel k (ValueRef.encode value_ref) (tx_id w) 0
  | PDelete k =>
      _ ← free_replaced fuel (snapshot_lsn w) k;
      _ ← delete_internal fuel k (tx_id w);
      mret tt
  end.
Fixpoint flush_all (others : nat -> TM unit) (fuel : nat) (w : t) (l : list PendingChange) : TM unit :=
  match l with
  | [] => mret tt
  | x :: l => _ ← flush_one others fuel w x; flush_all others fuel w l
  end.
(** The changes are taken out of the writer before the first is applied. *)
Definition flush (others : nat -> TM unit) (fuel : nat) : M unit :=
  w ← ask fst;
  _ ← update (fun s => (mk (tx_id w) (snapshot_lsn w) [], s.2));
  on_table (flush_all others fuel w (pending_changes w)).

Definition commit_versions (fuel : nat) (commit_lsn : LogSequenceNumber) : M unit :=
  w ← ask fst; on_table (commit_versions_for_tx fuel (tx_id w) commit_lsn).
End Ops.

(** ** Streams *)
Record ValueStream (T : Type) : Type := mkStream {
  stream_read : Z -> stateful T TableError bytes;
  stream_hint : T -> option Z }.
Arguments mkStream {T}.
Arguments stream_read {T}.
Arguments stream_hint {T}.

(** Buffered bytes and a chunk in front of a stream. *)
Definition composite {T} (s : ValueStream T) : ValueStream (bytes * bytes * T) :=
  mkStream
    (fun n '(buffered, chunk, x) =>
       let a := take (Z.to_nat n) buffered in
       let n1 := n - zlen a in
       let b := take (Z.to_nat n1) chunk in
       let n2 := n1 - zlen b in
       let rest := (drop (length a) buffered, drop (length b) chunk) in
       if 0 <? n2 then
         match stream_read s n2 x with
         | (Ok c, x') => (Ok (a ++ b ++ c), (rest, x'))
         | (Err e, x') => (Err e, (rest, x'))
         | (Panic, x') => (Panic, (rest, x'))
         end
       else (Ok (a ++ b), (rest, x)))
    (fun _ => None).

Record StreamingContext : Type := mkContext { allocated_pages : list PageId; total_written : Z }.
Definition context_new : StreamingContext := mkContext [] 0.
Definition add_page (p : PageId) (n : Z) (c : StreamingContext) : StreamingContext :=
  mkContext (allocated_pages c ++ [p]) (total_written c + n).

Definition HEADER : Z := OverflowPageHeader.SIZE.

Section Streams.
Context {S : Type} `{PageStore S}.

(** The pages of a value while it is streamed: the table, the context and
    the last page written. *)
Abbreviation XM := (fuelled (PagedBTree.t S * (StreamingContext * option PageId)) TableError).

Definition on_pages {A} (m : fuelled (PagedBTree.t S) TableError A) : XM A := fun '(b, x) =>
  match m b with Some (r, b') => Some (r, (b', x)) | None => None end.

Definition write_overflow_chunk (data : bytes) (next_page_id : option PageId) : XM unit :=
  p ← on_pages (on_pager (allocate_page PageType.Overflow));
  _ ← update (fun '(b, (c, prev)) => (b, (add_page p (zlen data) c, prev)));
  prev ← ask (fun x => x.2.2);
  _ ← match prev with
      | Some prev_id => on_pages (on_pager (link_overflow_pages prev_id p))
      | None => mret tt
      end;
  _ ← on_pages (on_pager (write_overflow_page p data next_page_id));
  update (fun '(b, (c, _)) => (b, (c, Some p))).

(** The loop over the bytes of one read: the rest of the page buffer. *)
Fixpoint fill_pages (fuel : nat) (usable_size : Z) (page_buffer chunk : bytes) : XM bytes :=
  match fuel, chunk with
  | _, [] => mret page_buffer
  | O, _ => out_of_fuel
  | Datatypes.S fuel, _ =>
      let to_copy := Z.to_nat (Z.min (zlen chunk) (usable_size - zlen page_buffer)) in
      let page_buffer := page_buffer ++ take to_copy chunk in
      let chunk := drop to_copy chunk in
      if usable_size <=? zlen page_buffer then
        _ ← write_overflow_chunk page_buffer None; fill_pages fuel usable_size [] chunk
      else fill_pages fuel usable_size page_buffer chunk
  end.

(** Errors of the frees are dropped. *)
Fixpoint free_pages_of (l : list PageId) (b : PagedBTree.t S) : PagedBTree.t S :=
  match l with
  | [] => b
  | p :: l =>
      free_pages_of l (match on_pager (free_page p) b with Some (_, b') => b' | None => b end)
  end.

Section Stream.
Context {T : Type} (s : ValueStream T).
Abbreviation SM := (fuelled (T * (PagedBTree.t S * (StreamingContext * option PageId))) TableError).

Definition read_stream (n : Z) : SM bytes := fun '(x, y) =>
  let '(r, x') := stream_read s n x in Some (r, (x', y)).
Definition on_x {A} (m : XM A) : SM A := fun '(x, y) =>
  match m y with Some (r, y') => Some (r, (x, y')) | None => None end.

Fixpoint stream_pages (fuel : nat) (usable_size : Z) (page_buffer : bytes) : SM unit :=
  match fuel with
  | O => out_of_fuel
  | Datatypes.S fuel =>
      chunk ← read_stream 8192;
      match chunk with
      | [] => match page_buffer with
              | [] => mret tt
              | _ => on_x (write_overflow_chunk page_buffer None)
              end
      | _ =>
          page_buffer ← on_x (fill_pages (length chunk) usable_size page_buffer chunk);
          stream_pages fuel usable_size page_buffer
      end
  end.

(** The writer, the stream and the table. *)
Abbreviation WM := (fuelled (t * (T * PagedBTree.t S)) TableError).

(** On an error every page allocated so far is given back. *)
Definition put_stream_external (fuel : nat) (k : bytes) : WM Z := fun '(w, (x, b)) =>
  let usable_size := data_size (pager b) - HEADER in
  match stream_pages fuel usable_size [] (x, (b, (context_new, None))) with
  | Some (Ok _, (x', (b', (c, _)))) =>
      match allocated_pages c with
      | [] => Some (Ok (zlen k + 16), (push (PInline k []) w, (x', b')))
      | p :: rest =>
          let value_ref :=
            match rest with
            | [] => ValueRef.SinglePage (as_u32 p) HEADER (as_u32 (total_written c))
            | _ => ValueRef.OverflowChain (as_u32 p) (total_written c) (as_u32 (zlen (allocated_pages c)))
            end in
          Some (Ok (zlen k + total_written c + 16), (push (PExternal k value_ref) w, (x', b')))
      end
  | Some (Err e, (x', (b', (c, _)))) => Some (Err e, (w, (x', free_pages_of (allocated_pages c) b')))
  | Some (Panic, (x', (b', _))) => Some (Panic, (w, (x', b')))
  | None => None
  end.

Definition read_chunk : WM bytes := fun '(w, (x, b)) =>
  let '(r, x') := stream_read s 8192 x in Some (r, (w, (x', b))).
Definition note_change (x : PendingChange) : WM unit := update (fun '(w, y) => (push x w, y)).

Fixpoint put_stream_inline (fuel : nat) (k buffer : bytes) : WM Z :=
  match fuel with
  | O => out_of_fuel
  | Datatypes.S fuel =>
      chunk ← read_chunk;
      match chunk with
      | [] => _ ← note_change (PInline k buffer); mret (zlen k + zlen buffer + 16)
      | _ => put_stream_inline fuel k (buffer ++ chunk)
      end
  end.
End Stream.

Definition with_composite {T A} (buffered chunk : bytes)
    (m : fuelled (t * ((bytes * bytes * T) * PagedBTree.t S)) TableError A)
    : fuelled (t * (T * PagedBTree.t S)) TableError A := fun '(w, (x, b)) =>
  match m (w, ((buffered, chunk, x), b)) with
  | Some (r, (w', ((_, x'), b'))) => Some (r, (w', (x', b')))
  | None => None
  end.

Fixpoint put_stream_adaptive {T} (s : ValueStream T) (fuel : nat) (k buffer : bytes) (max_inline : Z)
    : fuelled (t * (T * PagedBTree.t S)) TableError Z :=
  match fuel with
  | O => out_of_fuel
  | Datatypes.S fuel' =>
      chunk ← read_chunk s;
      match chunk with
      | [] => _ ← note_change (PInline k buffer); mret (zlen k + zlen buffer + 16)
      | _ =>
          if max_inline <? zlen buffer + zlen chunk
          then with_composite buffer chunk (put_stream_external (composite s) fuel k)
          else put_stream_adaptive s fuel' k (buffer ++ chunk) max_inline
      end
  end.

Definition put_stream {T} (s : ValueStream T) (fuel : nat) (k : bytes)
    : fuelled (t * (T * PagedBTree.t S)) TableError Z :=
  hint ← ask (fun y => stream_hint s y.2.1);
  match hint with
  | Some n => if n <=? max_inline_size then put_stream_inline s fuel k [] else put_stream_external s fuel k
  | None => put_stream_adaptive s fuel k [] max_inline_size
  end.
End Streams.

(** ** Reading a value as a stream *)
Module SinglePageStream.
Record t : Type := mk { page_id : PageId; offset : Z; length : Z; position : Z; buffer : option bytes }.
Definition new (page_id : PageId) (offset length : Z) : t := mk page_id offset length 0 None.
Definition size_hint (st : t) : option Z := Some (length st).

Section Ops.
Context {S : Type} `{PageStore S}.

Definition load_data : fuelled (t * S) TableError bytes := fun '(st, s) =>
  match buffer st with
  | Some d => Some (Ok d, (st, s))
  | None =>
      match read_page (page_id st) s with
      | (Ok data, s') =>
          if zlen data <? offset st + length st
          then Some (Err (Corruption "SinglePage" "value_overflow"), (st, s'))
          else
            match slice (E := TableError) (offset st) (offset st + length st) data with
            | Ok d => Some (Ok d, (mk (page_id st) (offset st) (length st) (position st) (Some d), s'))
            | Err e => Some (Err e, (st, s'))
            | Panic => Some (Panic, (st, s'))
            end
      | (Err e, s') => Some (Err (TablePager e), (st, s'))
      | (Panic, s') => Some (Panic, (st, s'))
      end
  end.
(** [read] into a buffer of [n] bytes: the bytes copied. *)
Definition read (n : Z) : fuelled (t * S) TableError bytes :=
  buffer ← load_data;
  st ← ask fst;
  let to_copy := Z.min (zlen buffer - position st) n in
  bytes ← give (slice (position st) (position st + to_copy) buffer);
  _ ← update (fun x => (mk (page_id st) (offset st) (length st) (position st + to_copy) (PagedBTreeWriter.SinglePageStream.buffer x.1), x.2));
  mret bytes.
End Ops.
End SinglePageStream.

(** ** Reading a value as a stream

    The value was already resolved by [get_internal]; what it begins with is
    taken for the tag of a reference once more. *)
Inductive ReadStream : Type :=
  | SliceValueStream (v : bytes)
  | PageStream (st : SinglePageStream.t)
  | ChainStream (first_page_id : PageId) (total_length : Z).

Definition get_stream {S} `{PageStore S} `{ChainCodec} (fuel : nat) (k : bytes) (snapshot_lsn : LogSequenceNumber)
    : fuelled (PagedBTree.t S) TableError (option ReadStream) :=
  value_opt ← get_internal fuel k snapshot_lsn;
  match value_opt with
  | None => mret None
  | Some value =>
      if (1 <=? zlen value) && (bool_decide (head value = Some 1) || bool_decide (head value = Some 2)) then
        match ValueRef.decode value with
        | Ok (ValueRef.SinglePage p offset length) => mret (Some (PageStream (SinglePageStream.new p offset length)))
        | Ok (ValueRef.OverflowChain p total_length _) => mret (Some (ChainStream p total_length))
        | Ok ValueRef.Inline => mret (Some (SliceValueStream value))
        | Err _ => raise (Corruption "ValueRef decode" "invalid_encoding")
        | Panic => panic
        end
      else mret (Some (SliceValueStream value))
  end.
End PagedBTreeWriter.
