(* ===== verification/BTreeShape.v ===== *)
(** * The shape of a paged B-tree

    The tree a set of pages stands for: leaves with their entries and nodes
    with their children, in key order and of one depth, the leaves linked from
    left to right.  A place in the tree is a subtree with the frames around
    it; [nodes] lists the pages with the nodes they hold. *)
From stdpp Require Import sorting.
From S2P Require Import Prelude Types Page Mvcc OrdMap MemTables PageStore BTreeNode BTree.

Module Shape.
Import BTreeNode.

#[warnings="-register-all"] Inductive tree : Type :=
  | TLeaf (p : PageId) (v : Z) (es : list LeafEntry)
  | TNode (p : PageId) (v : Z) (cs : list (tree * bytes)) (r : tree).

Lemma tree_ind' (P : tree -> Prop)
    (Hleaf : forall p v es, P (TLeaf p v es))
    (Hnode : forall p v cs r, Forall (fun x => P x.1) cs -> P r -> P (TNode p v cs r)) : forall t, P t.
Proof.
  fix IH 1. intros [p v es|p v cs r]; [apply Hleaf|]. apply Hnode; [|apply IH].
  induction cs as [|[c k] cs IHcs]; constructor; [apply IH|apply IHcs].
Qed.

Definition page (t : tree) : PageId := match t with TLeaf p _ _ => p | TNode p _ _ _ => p end.

Definition pair_of (e : LeafEntry) : bytes * VersionChain.t := (key e, chain e).

(** The entries of the leaves, from left to right. *)
Fixpoint contents (t : tree) : list (bytes * VersionChain.t) :=
  match t with
  | TLeaf _ _ es => map pair_of es
  | TNode _ _ cs r => mjoin (map (fun x => let '(c, _) := x in contents c) cs) ++ contents r
  end.

Fixpoint first_leaf (t : tree) : PageId :=
  match t with
  | TLeaf p _ _ => p
  | TNode _ _ [] r => first_leaf r
  | TNode _ _ ((c, _) :: _) _ => first_leaf c
  end.
Definition first_of (cs : list (tree * bytes)) (r : tree) : PageId :=
  match cs with [] => first_leaf r | (c, _) :: _ => first_leaf c end.

Definition entry_of (x : tree * bytes) : InternalEntry := mkInternal x.2 (page x.1).

(** The nodes of a tree with their pages; [nx] is the leaf behind it. *)
Fixpoint nodes (t : tree) (nx : PageId) : list (PageId * BTreeNode.t) :=
  match t with
  | TLeaf p v es => [(p, Leaf v es nx)]
  | TNode p v cs r =>
      (p, Internal v (map entry_of cs) (page r))
        :: (fix go cs := match cs with
                         | [] => nodes r nx
                         | (c, _) :: cs => nodes c (first_of cs r) ++ go cs
                         end) cs
  end.
Fixpoint children_nodes (cs : list (tree * bytes)) (r : tree) (nx : PageId) : list (PageId * BTreeNode.t) :=
  match cs with
  | [] => nodes r nx
  | (c, _) :: cs => nodes c (first_of cs r) ++ children_nodes cs r nx
  end.
Fixpoint before_nodes (pre : list (tree * bytes)) (nx : PageId) : list (PageId * BTreeNode.t) :=
  match pre with
  | [] => []
  | (c, _) :: pre =>
      nodes c (match pre with [] => nx | (d, _) :: _ => first_leaf d end) ++ before_nodes pre nx
  end.

Lemma nodes_TNode p v cs r nx :
  nodes (TNode p v cs r) nx = (p, Internal v (map entry_of cs) (page r)) :: children_nodes cs r nx.
Proof. simpl. f_equal. induction cs as [|[c k] cs IH]; simpl; [done|]. by rewrite IH. Qed.

Lemma children_nodes_app pre cs r nx :
  children_nodes (pre ++ cs) r nx = before_nodes pre (first_of cs r) ++ children_nodes cs r nx.
Proof.
  induction pre as [|[c k] pre IH]; simpl; [done|]. rewrite IH, app_assoc. do 2 f_equal.
  destruct pre as [|[d k'] pre]; done.
Qed.

Lemma before_nodes_snoc pre c k nx :
  before_nodes (pre ++ [(c, k)]) nx = before_nodes pre (first_leaf c) ++ nodes c nx.
Proof.
  induction pre as [|[d k'] pre IH]; simpl; [by rewrite app_nil_r|]. rewrite IH, app_assoc. do 2 f_equal.
  destruct pre as [|[e k''] pre]; done.
Qed.

(** ** Key order *)
Definition lo_le (lo : option bytes) (k : bytes) : Prop :=
  match lo with None => True | Some a => key_leb a k = true end.
Definition hi_lt (hi : option bytes) (k : bytes) : Prop :=
  match hi with None => True | Some b => key_lt k b end.
Definition hi_ge (hi : option bytes) (k : bytes) : Prop :=
  match hi with None => True | Some b => key_leb k b = true end.
Definition within (lo hi : option bytes) (k : bytes) : Prop := lo_le lo k /\ hi_lt hi k.

Fixpoint ordered (lo : option bytes) (t : tree) (hi : option bytes) : Prop :=
  match t with
  | TLeaf _ _ es => StronglySorted key_lt (map key es) /\ Forall (fun e => within lo hi (key e)) es
  | TNode _ _ cs r =>
      (fix go lo cs := match cs with
                       | [] => ordered lo r hi
                       | (c, k) :: cs => lo_le lo k /\ hi_ge hi k /\ ordered lo c (Some k) /\ go (Some k) cs
                       end) lo cs
  end.
Fixpoint ordered_before (lo : option bytes) (pre : list (tree * bytes)) (hi : option bytes) : Prop :=
  match pre with
  | [] => True
  | (c, k) :: pre => lo_le lo k /\ hi_ge hi k /\ ordered lo c (Some k) /\ ordered_before (Some k) pre hi
  end.
Definition last_key (lo : option bytes) (pre : list (tree * bytes)) : option bytes :=
  match last pre with Some x => Some x.2 | None => lo end.

Lemma last_key_cons lo c k pre : last_key lo ((c, k) :: pre) = last_key (Some k) pre.
Proof. unfold last_key. rewrite last_cons. by destruct (last pre). Qed.
Lemma last_key_snoc lo pre c k : last_key lo (pre ++ [(c, k)]) = Some k.
Proof. unfold last_key. by rewrite last_snoc. Qed.

Lemma ordered_TNode lo p v cs r hi :
  ordered lo (TNode p v cs r) hi <-> ordered_before lo cs hi /\ ordered (last_key lo cs) r hi.
Proof.
  simpl. revert lo. induction cs as [|[c k] cs IH]; intros lo; [simpl; tauto|].
  rewrite last_key_cons. specialize (IH (Some k)). simpl in *. tauto.
Qed.

Lemma ordered_before_app lo pre cs hi :
  ordered_before lo (pre ++ cs) hi <-> ordered_before lo pre hi /\ ordered_before (last_key lo pre) cs hi.
Proof.
  revert lo. induction pre as [|[c k] pre IH]; intros lo; [simpl; tauto|].
  rewrite last_key_cons. simpl. rewrite IH. tauto.
Qed.

Lemma last_sep_app lo pre cs : last_key lo (pre ++ cs) = last_key (last_key lo pre) cs.
Proof.
  revert lo. induction pre as [|[c k] pre IH]; intros lo; [done|]. simpl. by rewrite !last_key_cons, IH.
Qed.

(** ** Bounds *)
Lemma key_leb_refl a : key_leb a a = true.
Proof. apply key_leb_spec. by left. Qed.
Lemma key_leb_trans a b c : key_leb a b = true -> key_leb b c = true -> key_leb a c = true.
Proof.
  rewrite !key_leb_spec. intros [->|H1] [->|H2]; auto. right. by eapply key_lt_trans.
Qed.
Lemma key_lt_le_trans a b c : key_lt a b -> key_leb b c = true -> key_lt a c.
Proof. rewrite key_leb_spec. intros H1 [->|H2]; [done|by eapply key_lt_trans]. Qed.
Lemma key_lt_leb a b : key_lt a b -> key_leb a b = true.
Proof. rewrite key_leb_spec. auto. Qed.
Lemma lo_le_trans lo a b : lo_le lo a -> key_leb a b = true -> lo_le lo b.
Proof. destruct lo; [|done]. apply key_leb_trans. Qed.
Lemma hi_lt_trans hi a b : key_leb a b = true -> hi_lt hi b -> hi_lt hi a.
Proof. destruct hi; [|done]. apply key_le_lt_trans. Qed.
Lemma hi_lt_ge hi a b : key_lt a b -> hi_ge hi b -> hi_lt hi a.
Proof. destruct hi; [|done]. apply key_lt_le_trans. Qed.
Lemma hi_lt_hi_ge hi a : hi_lt hi a -> hi_ge hi a.
Proof. destruct hi; [|done]. apply key_lt_leb. Qed.

(** [hi] is not below [hi']. *)
Definition hi_le (hi' hi : option bytes) : Prop :=
  match hi', hi with _, None => True | None, Some _ => False | Some a, Some b => key_leb a b = true end.
Definition lo_ge (lo' lo : option bytes) : Prop :=
  match lo', lo with _, None => True | None, Some _ => False | Some a, Some b => key_leb b a = true end.

Lemma within_weaken lo hi lo' hi' k : lo_ge lo' lo -> hi_le hi' hi -> within lo' hi' k -> within lo hi k.
Proof.
  intros Hl Hh [H1 H2]. split.
  - destruct lo', lo; simpl in *; try done. by eapply key_leb_trans.
  - destruct hi', hi; simpl in *; try done. by eapply key_lt_le_trans.
Qed.

Lemma lo_ge_refl lo : lo_ge lo lo.
Proof. destruct lo; simpl; [apply key_leb_refl|done]. Qed.
Lemma hi_le_refl hi : hi_le hi hi.
Proof. destruct hi; simpl; [apply key_leb_refl|done]. Qed.
Lemma lo_ge_Some lo k : lo_le lo k -> lo_ge (Some k) lo.
Proof. by destruct lo. Qed.
Lemma hi_le_Some hi k : hi_ge hi k -> hi_le (Some k) hi.
Proof. by destruct hi. Qed.
Lemma lo_ge_trans a b c : lo_ge a b -> lo_ge b c -> lo_ge a c.
Proof. destruct a, b, c; simpl; try done. intros. by eapply key_leb_trans. Qed.

Lemma last_key_ge lo pre hi : ordered_before lo pre hi -> lo_ge (last_key lo pre) lo.
Proof.
  revert lo. induction pre as [|[c k] pre IH]; intros lo; [intros _; apply lo_ge_refl|].
  rewrite last_key_cons. simpl. intros (H1 & _ & _ & H4). eapply lo_ge_trans; [by apply IH|].
  by apply lo_ge_Some.
Qed.

(** ** The contents of an ordered tree are sorted *)
Abbreviation sorted_keys l := (StronglySorted key_lt (map fst l)).

Lemma sorted_app {V} (l k : list (bytes * V)) :
  sorted_keys l -> sorted_keys k ->
  (forall a b, a ∈ map fst l -> b ∈ map fst k -> key_lt a b) -> sorted_keys (l ++ k).
Proof.
  intros Hl Hk Hlk. rewrite map_app. apply StronglySorted_app_2; [|done|done].
  intros a b Ha Hb. by apply Hlk.
Qed.

Lemma contents_ordered t : forall lo hi, ordered lo t hi ->
  sorted_keys (contents t) /\ Forall (fun x => within lo hi x.1) (contents t).
Proof.
  induction t as [p v es|p v cs r IHcs IHr] using tree_ind'; intros lo hi Ho.
  { destruct Ho as [Hs Hw]. simpl. rewrite map_map. split; [done|]. by apply Forall_map. }
  apply ordered_TNode in Ho as [Hb Hr]. simpl.
  revert lo Hb Hr. induction IHcs as [|[c k] cs IHc _ IH]; intros lo Hb Hr; [by apply IHr|].
  simpl in Hb. destruct Hb as (H1 & H2 & H3 & H4). rewrite last_key_cons in Hr. simpl.
  destruct (IHc _ _ H3) as [Hs Hw]. destruct (IH _ H4 Hr) as [Hs' Hw']. simpl in Hs, Hw.
  rewrite <- app_assoc. split.
  - apply sorted_app; [done|done|]. intros a b (x & -> & Hx)%list_elem_of_fmap (y & -> & Hy)%list_elem_of_fmap.
    rewrite Forall_forall in Hw, Hw'. destruct (Hw _ Hx) as [_ Hxk], (Hw' _ Hy) as [Hky _]. simpl in *.
    by eapply key_lt_le_trans.
  - apply Forall_app. split; (eapply Forall_impl; [eassumption|]); intros x; apply within_weaken.
    + apply lo_ge_refl.
    + by apply hi_le_Some.
    + by apply lo_ge_Some.
    + apply hi_le_refl.
Qed.

(** ** Depth *)
Fixpoint depth (n : nat) (t : tree) : Prop :=
  match t, n with
  | TLeaf _ _ _, O => True
  | TNode _ _ cs r, S n => (fix go cs := match cs with [] => True | (c, _) :: cs => depth n c /\ go cs end) cs /\ depth n r
  | _, _ => False
  end.
Lemma depth_TNode n p v cs r : depth (S n) (TNode p v cs r) <-> Forall (fun x => depth n x.1) cs /\ depth n r.
Proof.
  simpl. induction cs as [|[c k] cs IH]; simpl.
  - split; intros [_ ?]; split; auto.
  - rewrite Forall_cons. simpl in *. tauto.
Qed.

(** ** Places *)
Record frame : Type := mkFrame {
  f_page : PageId; f_version : Z; f_pre : list (tree * bytes);
  f_post : option (bytes * list (tree * bytes) * tree) }.

(** The children of a frame's node with [t] in its place. *)
Definition fill (f : frame) (t : tree) : tree :=
  match f_post f with
  | None => TNode (f_page f) (f_version f) (f_pre f) t
  | Some (k, cs, r) => TNode (f_page f) (f_version f) (f_pre f ++ (t, k) :: cs) r
  end.
(** The same with two trees in its place, parted by [k]. *)
Definition link (f : frame) (t1 : tree) (k : bytes) (t2 : tree) : tree :=
  match f_post f with
  | None => TNode (f_page f) (f_version f) (f_pre f ++ [(t1, k)]) t2
  | Some (k', cs, r) => TNode (f_page f) (f_version f) (f_pre f ++ (t1, k) :: (t2, k') :: cs) r
  end.

Definition plug (ctx : list frame) (t : tree) : tree := foldl (fun t f => fill f t) t ctx.

Definition frame_nx (f : frame) (nx : PageId) : PageId :=
  match f_post f with None => nx | Some (_, cs, r) => first_of cs r end.
Definition frame_first (f : frame) (fl : PageId) : PageId :=
  match f_pre f with [] => fl | (c, _) :: _ => first_leaf c end.
Definition frame_node (f : frame) (pg : PageId) : BTreeNode.t :=
  match f_post f with
  | None => Internal (f_version f) (map entry_of (f_pre f)) pg
  | Some (k, cs, r) =>
      Internal (f_version f) (map entry_of (f_pre f) ++ mkInternal k pg :: map entry_of cs) (page r)
  end.
Definition frame_rest (f : frame) (fl nx : PageId) : list (PageId * BTreeNode.t) :=
  before_nodes (f_pre f) fl ++
  match f_post f with None => [] | Some (_, cs, r) => children_nodes cs r nx end.

Fixpoint ctx_nx (ctx : list frame) (nx : PageId) : PageId :=
  match ctx with [] => nx | f :: ctx => frame_nx f (ctx_nx ctx nx) end.
(** The nodes around a place that holds a tree with root [pg] and first leaf
    [fl]. *)
Fixpoint ctx_nodes (ctx : list frame) (pg fl nx : PageId) : list (PageId * BTreeNode.t) :=
  match ctx with
  | [] => []
  | f :: ctx =>
      (f_page f, frame_node f pg) :: frame_rest f fl (ctx_nx ctx nx)
        ++ ctx_nodes ctx (f_page f) (frame_first f fl) nx
  end.

Lemma page_fill f t : page (fill f t) = f_page f.
Proof. unfold fill. by destruct (f_post f) as [[[k cs] r]|]. Qed.
Lemma page_link f t1 k t2 : page (link f t1 k t2) = f_page f.
Proof. unfold link. by destruct (f_post f) as [[[k' cs] r]|]. Qed.
Lemma first_leaf_fill f t : first_leaf (fill f t) = frame_first f (first_leaf t).
Proof.
  unfold fill, frame_first. destruct (f_post f) as [[[k cs] r]|]; destruct (f_pre f) as [|[c k'] pre]; done.
Qed.
Lemma first_leaf_link f t1 k t2 : first_leaf (link f t1 k t2) = frame_first f (first_leaf t1).
Proof.
  unfold link, frame_first. destruct (f_post f) as [[[k' cs] r]|]; destruct (f_pre f) as [|[c k''] pre]; done.
Qed.

Lemma perm_focus {A} (x : A) pre l post : x :: pre ++ l ++ post ≡ₚ l ++ x :: pre ++ post.
Proof.
  rewrite <- (Permutation_middle l). apply perm_skip. rewrite !app_assoc.
  apply Permutation_app_tail, Permutation_app_comm.
Qed.

Lemma nodes_fill f t nx :
  nodes (fill f t) nx ≡ₚ nodes t (frame_nx f nx) ++ (f_page f, frame_node f (page t)) :: frame_rest f (first_leaf t) nx.
Proof.
  unfold fill, frame_nx, frame_node, frame_rest. destruct (f_post f) as [[[k cs] r]|]; rewrite nodes_TNode.
  - rewrite children_nodes_app, map_app. apply perm_focus.
  - rewrite <- (app_nil_r (f_pre f)) at 2. rewrite children_nodes_app. simpl.
    rewrite <- (app_nil_r (nodes t nx)) at 1. apply perm_focus.
Qed.

Lemma nodes_plug ctx : forall t nx,
  nodes (plug ctx t) nx ≡ₚ nodes t (ctx_nx ctx nx) ++ ctx_nodes ctx (page t) (first_leaf t) nx.
Proof.
  induction ctx as [|f ctx IH]; intros t nx; simpl; [by rewrite app_nil_r|].
  rewrite IH, nodes_fill, page_fill, first_leaf_fill. rewrite <- app_assoc. simpl. done.
Qed.

Definition link_node (f : frame) (pg1 : PageId) (k : bytes) (pg2 : PageId) : BTreeNode.t :=
  match f_post f with
  | None => Internal (f_version f) (map entry_of (f_pre f) ++ [mkInternal k pg1]) pg2
  | Some (k', cs, r) =>
      Internal (f_version f)
        (map entry_of (f_pre f) ++ mkInternal k pg1 :: mkInternal k' pg2 :: map entry_of cs) (page r)
  end.

Lemma nodes_link f t1 k t2 nx :
  nodes (link f t1 k t2) nx ≡ₚ nodes t1 (first_leaf t2) ++ nodes t2 (frame_nx f nx)
    ++ (f_page f, link_node f (page t1) k (page t2)) :: frame_rest f (first_leaf t1) nx.
Proof.
  unfold link, frame_nx, link_node, frame_rest.
  destruct (f_post f) as [[[k' cs] r]|]; rewrite nodes_TNode, children_nodes_app, map_app; simpl.
  - rewrite !(app_assoc (nodes t1 _) (nodes t2 _)). apply perm_focus.
  - rewrite (app_assoc (nodes t1 _) (nodes t2 _)). etransitivity; [|apply (perm_focus _ _ _ [])]. by rewrite app_nil_r.
Qed.

(** ** Order, contents and depth around a place *)
Definition frame_lo (f : frame) (lo : option bytes) : option bytes := last_key lo (f_pre f).
Definition frame_hi (f : frame) (hi : option bytes) : option bytes :=
  match f_post f with None => hi | Some (k, _, _) => Some k end.
Definition frame_ok (f : frame) (lo hi : option bytes) : Prop :=
  ordered_before lo (f_pre f) hi /\
  match f_post f with
  | None => True
  | Some (k, cs, r) =>
      lo_le (frame_lo f lo) k /\ hi_ge hi k /\ ordered_before (Some k) cs hi /\
      ordered (last_key (Some k) cs) r hi
  end.
Fixpoint ctx_lo (ctx : list frame) (lo : option bytes) : option bytes :=
  match ctx with [] => lo | f :: ctx => frame_lo f (ctx_lo ctx lo) end.
Fixpoint ctx_hi (ctx : list frame) (hi : option bytes) : option bytes :=
  match ctx with [] => hi | f :: ctx => frame_hi f (ctx_hi ctx hi) end.
Fixpoint ctx_ok (ctx : list frame) (lo hi : option bytes) : Prop :=
  match ctx with [] => True | f :: ctx => frame_ok f (ctx_lo ctx lo) (ctx_hi ctx hi) /\ ctx_ok ctx lo hi end.

Lemma ordered_fill f t lo hi :
  ordered lo (fill f t) hi <-> frame_ok f lo hi /\ ordered (frame_lo f lo) t (frame_hi f hi).
Proof.
  unfold fill, frame_ok, frame_lo, frame_hi. destruct (f_post f) as [[[k cs] r]|]; rewrite ordered_TNode.
  - rewrite ordered_before_app, last_sep_app, last_key_cons. simpl. tauto.
  - tauto.
Qed.

Lemma hi_ge_trans hi a b : key_leb a b = true -> hi_ge hi b -> hi_ge hi a.
Proof. destruct hi; [|done]. apply key_leb_trans. Qed.

Lemma ordered_link f t1 k t2 lo hi :
  frame_ok f lo hi -> lo_le (frame_lo f lo) k -> hi_ge (frame_hi f hi) k ->
  ordered (frame_lo f lo) t1 (Some k) -> ordered (Some k) t2 (frame_hi f hi) ->
  ordered lo (link f t1 k t2) hi.
Proof.
  unfold link, frame_ok, frame_lo, frame_hi. intros [Hp Hq] Hl Hh H1 H2.
  destruct (f_post f) as [[[k' cs] r]|]; rewrite ordered_TNode, ordered_before_app.
  - destruct Hq as (Hq1 & Hq2 & Hq3 & Hq4). rewrite last_sep_app, !last_key_cons. simpl.
    split_and!; try done. by eapply hi_ge_trans.
  - rewrite last_key_snoc. simpl. tauto.
Qed.

Lemma ordered_plug ctx : forall t lo hi,
  ordered lo (plug ctx t) hi <-> ctx_ok ctx lo hi /\ ordered (ctx_lo ctx lo) t (ctx_hi ctx hi).
Proof.
  induction ctx as [|f ctx IH]; intros t lo hi; simpl; [tauto|].
  unfold plug in *. rewrite IH, ordered_fill. tauto.
Qed.

Definition frame_before (f : frame) : list (bytes * VersionChain.t) :=
  mjoin (map (fun x => contents x.1) (f_pre f)).
Definition frame_after (f : frame) : list (bytes * VersionChain.t) :=
  match f_post f with
  | None => []
  | Some (_, cs, r) => mjoin (map (fun x => contents x.1) cs) ++ contents r
  end.
Fixpoint ctx_before (ctx : list frame) : list (bytes * VersionChain.t) :=
  match ctx with [] => [] | f :: ctx => ctx_before ctx ++ frame_before f end.
Fixpoint ctx_after (ctx : list frame) : list (bytes * VersionChain.t) :=
  match ctx with [] => [] | f :: ctx => frame_after f ++ ctx_after ctx end.

Lemma contents_TNode p v cs r :
  contents (TNode p v cs r) = mjoin (map (fun x => contents x.1) cs) ++ contents r.
Proof.
  simpl. do 2 f_equal. apply map_ext. by intros [c k].
Qed.
Lemma mjoin_app {A} (l k : list (list A)) : mjoin (l ++ k) = mjoin l ++ mjoin k.
Proof. induction l as [|x l IH]; simpl; [done|]. by rewrite IH, app_assoc. Qed.

Lemma contents_fill f t : contents (fill f t) = frame_before f ++ contents t ++ frame_after f.
Proof.
  unfold fill, frame_before, frame_after. destruct (f_post f) as [[[k cs] r]|]; rewrite contents_TNode.
  - rewrite map_app, mjoin_app. simpl. by rewrite <- !app_assoc.
  - by rewrite app_nil_r.
Qed.
Lemma contents_link f t1 k t2 :
  contents (link f t1 k t2) = frame_before f ++ (contents t1 ++ contents t2) ++ frame_after f.
Proof.
  unfold link, frame_before, frame_after. destruct (f_post f) as [[[k' cs] r]|]; rewrite contents_TNode.
  - rewrite map_app, mjoin_app. simpl. by rewrite <- !app_assoc.
  - rewrite map_app, mjoin_app. simpl. by rewrite !app_nil_r, <- !app_assoc.
Qed.
Lemma contents_plug ctx : forall t, contents (plug ctx t) = ctx_before ctx ++ contents t ++ ctx_after ctx.
Proof.
  induction ctx as [|f ctx IH]; intros t; simpl; [by rewrite app_nil_r|].
  unfold plug in *. rewrite IH, contents_fill. by rewrite <- !app_assoc.
Qed.

Definition frame_depth (n : nat) (f : frame) : Prop :=
  Forall (fun x => depth n x.1) (f_pre f) /\
  match f_post f with None => True | Some (_, cs, r) => Forall (fun x => depth n x.1) cs /\ depth n r end.
Fixpoint ctx_depth (n : nat) (ctx : list frame) : Prop :=
  match ctx with [] => True | f :: ctx => frame_depth n f /\ ctx_depth (S n) ctx end.

Lemma depth_fill n f t : depth (S n) (fill f t) <-> frame_depth n f /\ depth n t.
Proof.
  unfold fill, frame_depth. destruct (f_post f) as [[[k cs] r]|]; rewrite depth_TNode.
  - rewrite Forall_app, Forall_cons. simpl. tauto.
  - tauto.
Qed.
Lemma depth_link n f t1 k t2 : frame_depth n f -> depth n t1 -> depth n t2 -> depth (S n) (link f t1 k t2).
Proof.
  unfold link, frame_depth. intros [Hp Hq] H1 H2. destruct (f_post f) as [[[k' cs] r]|]; rewrite depth_TNode.
  - destruct Hq as [Hq1 Hq2]. rewrite Forall_app, !Forall_cons. simpl. tauto.
  - rewrite Forall_app, Forall_singleton. simpl. tauto.
Qed.
Lemma depth_plug ctx : forall n t, depth (n + length ctx) (plug ctx t) <-> ctx_depth n ctx /\ depth n t.
Proof.
  induction ctx as [|f ctx IH]; intros n t; simpl; [rewrite Nat.add_0_r; tauto|].
  unfold plug in *. rewrite Nat.add_succ_r, <- Nat.add_succ_l, IH, depth_fill. tauto.
Qed.

Lemma depth_plug_inv ctx : forall n t, depth n (plug ctx t) ->
  exists d, n = (d + length ctx)%nat /\ ctx_depth d ctx /\ depth d t.
Proof.
  induction ctx as [|f ctx IH]; intros n t Hd; simpl in *; [by exists n; rewrite Nat.add_0_r|].
  destruct (IH _ _ Hd) as (d & -> & Hc & Hf). destruct d as [|d].
  - unfold fill in Hf. by destruct (f_post f) as [[[??]?]|].
  - apply depth_fill in Hf as [Hf Ht]. exists d. split_and!; [lia|done..].
Qed.

(** Keys left and right of a place that may hold [k]. *)
Lemma before_lt lo pre hi : ordered_before lo pre hi -> forall k, lo_le (last_key lo pre) k ->
  Forall (fun x => key_lt x.1 k) (mjoin (map (fun x => contents x.1) pre)).
Proof.
  revert lo. induction pre as [|[c k'] pre IH]; intros lo Ho k Hk; simpl; [constructor|].
  rewrite last_key_cons in Hk. simpl in Ho. destruct Ho as (H1 & H2 & H3 & H4).
  apply Forall_app. split; [|by eapply IH]. destruct (contents_ordered _ _ _ H3) as [_ Hw].
  pose proof (last_key_ge _ _ _ H4) as Hge. eapply Forall_impl; [exact Hw|]. intros x [_ Hx]. simpl in Hx.
  eapply key_lt_le_trans; [exact Hx|].
  destruct (last_key (Some k') pre) as [a|]; [|done]. simpl in *. by eapply key_leb_trans.
Qed.
Lemma after_gt k : forall lo cs r hi, ordered_before lo cs hi -> ordered (last_key lo cs) r hi ->
  lo_ge lo (Some k) ->
  Forall (fun x => key_leb k x.1 = true) (mjoin (map (fun x => contents x.1) cs) ++ contents r).
Proof.
  intros lo cs r hi H1 H2 Hk.
  pose proof (contents_ordered (TNode 0 0 cs r) lo hi (proj2 (ordered_TNode lo 0 0 cs r hi) (conj H1 H2))) as [_ Hw].
  rewrite contents_TNode in Hw. eapply Forall_impl; [exact Hw|]. intros x [Hx _].
  destruct lo; [|done]. simpl in *. by eapply key_leb_trans.
Qed.

Lemma ctx_before_lt ctx lo hi k : ctx_ok ctx lo hi -> lo_le (ctx_lo ctx lo) k ->
  Forall (fun x => key_lt x.1 k) (ctx_before ctx).
Proof.
  induction ctx as [|f ctx IH]; simpl; [constructor|]. intros [[Hp _] Hc] Hk.
  apply Forall_app. split; [|by eapply before_lt]. apply IH; [done|].
  pose proof (last_key_ge _ _ _ Hp) as Hge. unfold frame_lo in Hk.
  destruct (last_key _ _) as [a|], (ctx_lo ctx lo) as [b|]; simpl in *; try done. by eapply key_leb_trans.
Qed.
Lemma ctx_after_gt ctx lo hi k : ctx_ok ctx lo hi -> hi_lt (ctx_hi ctx hi) k ->
  Forall (fun x => key_lt k x.1) (ctx_after ctx).
Proof.
  induction ctx as [|f ctx IH]; simpl; [constructor|]. intros [[_ Hq] Hc] Hk.
  unfold frame_hi in Hk. unfold frame_after. destruct (f_post f) as [[[k' cs] r]|].
  - destruct Hq as (H1 & H2 & H3 & H4). apply Forall_app. split.
    + pose proof (after_gt k' (Some k') cs r _ H3 H4 (lo_ge_refl _)) as Hw.
      eapply Forall_impl; [exact Hw|]. intros x Hx. simpl in Hk. by eapply key_lt_le_trans.
    + apply IH; [done|]. by eapply hi_lt_ge.
  - simpl. by apply IH.
Qed.

(** ** Splitting *)
Definition node_of (t : tree) (nx : PageId) : BTreeNode.t :=
  match t with TLeaf _ v es => Leaf v es nx | TNode _ v cs r => Internal v (map entry_of cs) (page r) end.
Definition below (t : tree) (nx : PageId) : list (PageId * BTreeNode.t) :=
  match t with TLeaf _ _ _ => [] | TNode _ _ cs r => children_nodes cs r nx end.
Lemma nodes_eq t nx : nodes t nx = (page t, node_of t nx) :: below t nx.
Proof. destruct t; [done|apply nodes_TNode]. Qed.

Inductive splits (rp : PageId) : tree -> tree -> bytes -> tree -> Prop :=
  | splits_leaf p v es1 e es2 :
      splits rp (TLeaf p v (es1 ++ e :: es2)) (TLeaf p (PageVersion_increment v) es1) (key e)
        (TLeaf rp PageVersion_initial (e :: es2))
  | splits_node p v cs1 c k cs2 r :
      splits rp (TNode p v (cs1 ++ (c, k) :: cs2) r) (TNode p (PageVersion_increment v) cs1 c) k
        (TNode rp PageVersion_initial cs2 r).

Lemma splits_contents rp t t1 k t2 : splits rp t t1 k t2 -> contents t = contents t1 ++ contents t2.
Proof.
  destruct 1; [simpl; by rewrite map_app|]. rewrite !contents_TNode, map_app, mjoin_app. simpl.
  by rewrite <- !app_assoc.
Qed.

Lemma splits_depth rp t t1 k t2 n : splits rp t t1 k t2 -> depth n t -> depth n t1 /\ depth n t2.
Proof.
  destruct 1; destruct n; try done. rewrite !depth_TNode, Forall_app, Forall_cons. simpl. tauto.
Qed.

Lemma splits_page rp t t1 k t2 : splits rp t t1 k t2 -> page t1 = page t /\ page t2 = rp /\
  first_leaf t1 = first_leaf t.
Proof. destruct 1; split_and!; try done. by destruct cs1 as [|[??]?]. Qed.

Lemma splits_below rp t t1 k t2 nx : splits rp t t1 k t2 ->
  below t1 (first_leaf t2) ++ below t2 nx = below t nx.
Proof.
  destruct 1; [done|]. simpl. rewrite children_nodes_app. simpl.
  rewrite <- (app_nil_r cs1) at 1. rewrite children_nodes_app. simpl. rewrite <- app_assoc.
  done.
Qed.

Lemma splits_ordered rp t t1 k t2 lo hi : splits rp t t1 k t2 -> ordered lo t hi ->
  lo_le lo k /\ hi_ge hi k /\ ordered lo t1 (Some k) /\ ordered (Some k) t2 hi.
Proof.
  destruct 1 as [p v es1 e es2|p v cs1 c k cs2 r].
  - simpl. rewrite map_app, Forall_app, Forall_cons. simpl. intros (Hs & Hw1 & [Hl Hh] & Hw2).
    apply StronglySorted_app in Hs as (Hs12 & Hs1 & Hs2).
    pose proof Hs2 as Hs2'. inversion Hs2' as [|?? Hs3 Hall]; subst.
    split_and!; try done; [by apply hi_lt_hi_ge| |].
    + apply Forall_forall. intros x Hx. rewrite Forall_forall in Hw1. destruct (Hw1 x Hx) as [? _].
      split; [done|]. simpl. apply Hs12; [apply list_elem_of_fmap; by exists x|by left].
    + constructor; [split; [apply key_leb_refl|done]|]. apply Forall_forall. intros x Hx.
      rewrite Forall_forall in Hw2; rewrite Forall_forall in Hall. destruct (Hw2 x Hx) as [_ ?]. split; [|done]. simpl.
      apply key_lt_leb, Hall. apply list_elem_of_fmap. by exists x.
  - rewrite !ordered_TNode, ordered_before_app, last_sep_app, last_key_cons. simpl.
    intros ((H1 & H2 & H3 & H4 & H5) & H6). split_and!; try done.
    + pose proof (last_key_ge _ _ _ H1) as Hge. destruct lo; [|done].
      destruct (last_key _ _); simpl in *; try done. by eapply key_leb_trans.
    + clear -H1 H2. revert lo H1 H2. induction cs1 as [|[d k'] cs1 IH]; intros lo; [done|].
      rewrite last_key_cons. simpl. intros (? & ? & ? & Hb) Hl. split_and!; try done.
      * pose proof (last_key_ge _ _ _ Hb) as Hge. destruct (last_key _ _); simpl in *; [|done].
        by eapply key_leb_trans.
      * by apply IH.
Qed.

(** ** Routing *)
Lemma separators_sorted lo cs hi : ordered_before lo cs hi ->
  StronglySorted (key_le ikey) (map entry_of cs) /\ Forall (fun e => lo_le lo (ikey e)) (map entry_of cs).
Proof.
  revert lo. induction cs as [|[c k] cs IH]; intros lo; simpl; [repeat constructor|].
  intros (H1 & H2 & H3 & H4). destruct (IH _ H4) as [Hs Hl]. split.
  - constructor; [done|]. eapply Forall_impl; [exact Hl|]. by intros e.
  - constructor; [done|]. eapply Forall_impl; [exact Hl|]. intros e He. simpl in *. by eapply lo_le_trans.
Qed.

Lemma route p v cs r lo hi k : ordered lo (TNode p v cs r) hi -> within lo hi k ->
  exists f c, TNode p v cs r = fill f c /\
    PagedBTree.child_for (map entry_of cs) (page r) k = (page c, length (f_pre f)) /\
    within (frame_lo f lo) (frame_hi f hi) k.
Proof.
  intros [Hb Hr]%ordered_TNode [Hlo Hhi]. destruct (separators_sorted _ _ _ Hb) as [Hs _].
  destruct (binary_search_by ikey (map entry_of cs) k) as [b i] eqn:Hbs.
  destruct (binary_search_cut _ _ _ _ _ Hs Hbs) as [Hcut _]. set (j := if b then S i else i) in *.
  assert (Hch : PagedBTree.child_for (map entry_of cs) (page r) k
    = match map entry_of cs !! j with
      | Some e => (child_page_id e, j) | None => (page r, length (map entry_of cs)) end).
  { unfold PagedBTree.child_for. rewrite Hbs. subst j. destruct b; [|done]. by rewrite Nat.add_1_r. }
  assert (Hlow : forall l, l = take j cs -> lo_le (last_key lo l) k).
  { intros l ->. unfold last_key. destruct (last (take j cs)) as [[c k']|] eqn:Hl; [|done]. simpl.
    rewrite last_lookup, lookup_take in Hl. case_decide; [|done].
    eapply (Hcut _ (entry_of (c, k'))); [|done]. by rewrite list_lookup_fmap, Hl. }
  destruct (cs !! j) as [[c k']|] eqn:Hj.
  - exists (mkFrame p v (take j cs) (Some (k', drop (S j) cs, r))), c.
    split_and!.
    + unfold fill. simpl. by rewrite take_drop_middle.
    + rewrite Hch, list_lookup_fmap, Hj. simpl. f_equal. rewrite length_take_le; [done|].
      apply lookup_lt_Some in Hj. lia.
    + split; [by apply Hlow|]. simpl. eapply (Hcut j (entry_of (c, k'))); [|done].
      by rewrite list_lookup_fmap, Hj.
  - exists (mkFrame p v cs None), r. apply lookup_ge_None in Hj. split_and!; [done| |].
    + rewrite Hch, list_lookup_fmap, (lookup_ge_None_2 cs) by done. simpl. by rewrite length_map.
    + split; [|done]. apply Hlow. by rewrite take_ge.
Qed.

(** ** Entries of a leaf as a map *)
Lemma leaf_sorted es : StronglySorted key_lt (map key es) -> StronglySorted (key_le key) es.
Proof.
  induction es as [|e es IH]; simpl; intros Hs; [constructor|]. inversion Hs as [|?? Hs' Hall]; subst.
  constructor; [by apply IH|]. rewrite Forall_map in Hall. eapply Forall_impl; [exact Hall|].
  intros x Hx. by apply key_lt_leb.
Qed.

Lemma neq_eqb a b : a <> b -> bytes_eqb a b = false.
Proof. intros Hne. apply not_true_is_false. by rewrite bytes_eqb_true. Qed.

(** A map in three parts, the middle one the place of [k]. *)
Section Middle.
Context {V : Type}.
Implicit Types l : list (bytes * V).

Lemma get_skip l1 k l : Forall (fun x => key_lt x.1 k) l1 -> BTreeMap.get (l1 ++ l) k = BTreeMap.get l k.
Proof.
  induction 1 as [|[a v] l1 Ha _ IH]; simpl; [done|]. rewrite neq_eqb; [done|].
  intros <-. by apply (key_lt_irrefl k).
Qed.
Lemma get_stop l2 k l : Forall (fun x => key_lt k x.1) l2 -> BTreeMap.get (l ++ l2) k = BTreeMap.get l k.
Proof.
  intros Hgt. induction l as [|[a v] l IH]; simpl; [|by rewrite IH]. apply BTreeMap.get_None.
  intros (x & -> & Hx)%list_elem_of_fmap. rewrite Forall_forall in Hgt. by apply (key_lt_irrefl _ (Hgt _ Hx)).
Qed.
Lemma get_middle l1 l2 k l :
  Forall (fun x => key_lt x.1 k) l1 -> Forall (fun x => key_lt k x.1) l2 ->
  BTreeMap.get (l1 ++ l ++ l2) k = BTreeMap.get l k.
Proof. intros. by rewrite get_skip, get_stop. Qed.

Lemma insert_skip l1 k l v : Forall (fun x => key_lt x.1 k) l1 ->
  BTreeMap.insert (l1 ++ l) k v = l1 ++ BTreeMap.insert l k v.
Proof.
  induction 1 as [|[a w] l1 Ha _ IH]; simpl; [done|].
  assert (Hka : key_ltb k a = false) by (apply key_ltb_false; by right). rewrite Hka, neq_eqb, IH; [done|].
  intros <-. by apply (key_lt_irrefl k).
Qed.
Lemma insert_stop l2 k l v : Forall (fun x => key_lt k x.1) l2 ->
  BTreeMap.insert (l ++ l2) k v = BTreeMap.insert l k v ++ l2.
Proof.
  intros Hgt. induction l as [|[a w] l IH]; simpl.
  - destruct Hgt as [|[a w] l2 Ha _]; simpl; [done|]. simpl in Ha. by rewrite Ha.
  - destruct (key_ltb k a); [done|]. destruct (bytes_eqb k a); [done|]. by rewrite IH.
Qed.
Lemma insert_middle l1 l2 k l v :
  Forall (fun x => key_lt x.1 k) l1 -> Forall (fun x => key_lt k x.1) l2 ->
  BTreeMap.insert (l1 ++ l ++ l2) k v = l1 ++ BTreeMap.insert l k v ++ l2.
Proof. intros. by rewrite insert_skip, insert_stop. Qed.
End Middle.

Lemma keys_pairs es : BTreeMap.keys (map pair_of es) = map key es.
Proof. unfold BTreeMap.keys. by rewrite map_map. Qed.

(** What the binary search says about the map of a leaf. *)
Lemma leaf_search es k b i : StronglySorted key_lt (map key es) -> binary_search_by key es k = (b, i) ->
  if b then exists es1 e es2, es = es1 ++ e :: es2 /\ i = length es1 /\ key e = k /\
            Forall (fun x => key_lt (key x) k) es1 /\ Forall (fun x => key_lt k (key x)) es2
  else es = take i es ++ drop i es /\
       Forall (fun x => key_lt (key x) k) (take i es) /\ Forall (fun x => key_lt k (key x)) (drop i es).
Proof.
  intros Hs Hb. destruct (binary_search_cut _ _ _ _ _ (leaf_sorted _ Hs) Hb) as [Hcut Hk]. destruct b.
  - destruct Hk as (e & He & Hek). exists (take i es), e, (drop (S i) es).
    split_and!; [by rewrite take_drop_middle|rewrite length_take_le; [done|]; apply lookup_lt_Some in He; lia|done| |].
    + apply Forall_lookup. intros j x Hx. rewrite lookup_take in Hx. case_decide as Hji; [|done].
      subst k. eapply (StronglySorted_lookup key_lt (map key es) Hs j i); [by rewrite list_lookup_fmap, Hx|by rewrite list_lookup_fmap, He|done].
    + apply Forall_lookup. intros j x Hx. rewrite lookup_drop in Hx. by apply (Hcut _ _ Hx); lia.
  - split_and!; [by rewrite take_drop| |].
    + apply Forall_lookup. intros j x Hx. rewrite lookup_take in Hx. case_decide; [|done].
      pose proof (proj1 (Hcut j x Hx) ltac:(done)) as Hle. apply key_leb_spec in Hle as [Hxk|]; [|done].
      exfalso. apply (Hk x); [by eapply list_elem_of_lookup_2|done].
    + apply Forall_lookup. intros j x Hx. rewrite lookup_drop in Hx. by apply (Hcut _ _ Hx); lia.
Qed.

(** The chain a key gets when a version is put in front. *)
Definition new_chain (o : option VersionChain.t) (value : bytes) (tx_id : TransactionId)
    (commit_lsn : LogSequenceNumber) : VersionChain.t :=
  PagedBTree.commit_if commit_lsn
    (match o with Some c => VersionChain.prepend c value tx_id | None => VersionChain.new value tx_id end).

Lemma leaf_insert_map es k value tx lsn : StronglySorted key_lt (map key es) ->
  let '(es', is_new) := PagedBTree.leaf_insert es k value tx lsn in
  let o := BTreeMap.get (map pair_of es) k in
  map pair_of es' = BTreeMap.insert (map pair_of es) k (new_chain o value tx lsn) /\
  is_new = bool_decide (o = None) /\
  (exists es1 es2 mid, es = es1 ++ mid ++ es2 /\ (length mid <= 1)%nat /\
     es' = es1 ++ mkLeaf k (new_chain o value tx lsn) :: es2).
Proof.
  intros Hs. unfold PagedBTree.leaf_insert. destruct (binary_search_by key es k) as [b i] eqn:Hb.
  pose proof (leaf_search _ _ _ _ Hs Hb) as Hl. destruct b.
  - destruct Hl as (es1 & e & es2 & -> & -> & He & H1 & H2).
    rewrite list_lookup_middle by done. rewrite He, bytes_eqb_refl. cbv zeta.
    assert (Hg : BTreeMap.get (map pair_of (es1 ++ e :: es2)) k = Some (chain e)).
    { rewrite map_app, get_skip by (by apply Forall_map). simpl. rewrite He. by rewrite bytes_eqb_refl. }
    rewrite Hg. rewrite insert_app_r_alt, Nat.sub_diag by lia. simpl. split_and!; [| |].
    + rewrite !map_app, insert_skip by (by apply Forall_map). simpl. unfold PagedBTree.set_chain, pair_of. simpl.
      rewrite He. assert (Hkk : key_ltb k k = false) by (apply key_ltb_false; by left).
      by rewrite Hkk, bytes_eqb_refl.
    + done.
    + exists es1, es2, [e]. unfold PagedBTree.set_chain. simpl. rewrite He. split_and!; [done|lia|done].
  - destruct Hl as (Hes & H1 & H2). cbv zeta.
    assert (Hg : BTreeMap.get (map pair_of es) k = None).
    { rewrite Hes, map_app, get_skip by (by apply Forall_map). apply BTreeMap.get_None.
      rewrite keys_pairs. intros (x & -> & Hx)%list_elem_of_fmap. rewrite Forall_forall in H2.
      by apply (key_lt_irrefl _ (H2 _ Hx)). }
    assert (Hins : (match es !! i with
       | Some e => if bytes_eqb (key e) k then
           <[i:=PagedBTree.set_chain (PagedBTree.commit_if lsn (VersionChain.prepend (chain e) value tx)) e]> es
         else PagedBTree.insert_at i (mkLeaf k (PagedBTree.commit_if lsn (VersionChain.new value tx))) es
       | None => PagedBTree.insert_at i (mkLeaf k (PagedBTree.commit_if lsn (VersionChain.new value tx))) es end)
       = take i es ++ mkLeaf k (new_chain None value tx lsn) :: drop i es).
    { destruct (es !! i) as [e|] eqn:Hi; [|done]. rewrite neq_eqb; [done|]. intros Hk.
      rewrite (drop_S _ _ _ Hi) in H2. apply Forall_cons in H2 as [H2 _]. rewrite Hk in H2.
      by apply (key_lt_irrefl k). }
    rewrite Hins, Hg. split_and!; [|done|].
    + rewrite Hes at 3. rewrite !map_app. rewrite insert_skip by (by apply Forall_map). simpl. f_equal.
      rewrite <- (app_nil_l (map pair_of (drop i es))) at 2. rewrite insert_stop; [done|]. by apply Forall_map.
    + exists (take i es), (drop i es), []. simpl. split_and!; [done|lia|done].
Qed.
End Shape.
