(* ===== verification/BTreeLaws.v ===== *)
(** * Correctness of the paged B-tree

    The pages of a table stand for a tree in key order ([table_ok]); the
    operations of [BTree.v] read and change it as a map from keys to version
    chains.  [runs m b Q] says that the call [m] on table [b] returns a value
    for which [Q] holds, or fails with an error of the pager where [faults]
    admits that: it neither runs out of fuel nor finds the tree corrupt.
    Calls that only read are proved for any [faults], so they do not fail. *)
From stdpp Require Import sorting.
From S2P Require Import Prelude Types Page Mvcc OrdMap MemTables PageStore BTreeNode BTree BTreeShape.

Module BTreeLaws.
Import BTreeNode PagedBTree Shape.

(** [faults] admits the failures of the store's writes. *)
Class Admits {S} `{PageStoreLaws S} (faults : Prop) : Prop := admits : store_faults -> faults.
#[global] Instance admits_store {S} `{PageStoreLaws S} : Admits store_faults.
Proof. by intros Hf. Qed.

Section Laws.
Context {S : Type} `{PageStoreLaws S} `{ChainCodecLaws} {faults : Prop} `{!Admits faults}.

Abbreviation M := (fuelled (t S) TableError).
Abbreviation size b := (data_size (pager b)).
Abbreviation next b := (next_page_id (pager b)).

Definition runs {A} (m : M A) (b : t S) (Q : A -> t S -> Prop) : Prop :=
  match m b with
  | Some (Ok a, b') => Q a b'
  | Some (Err (TablePager _), _) | Some (Panic, _) => faults
  | _ => False
  end.

Lemma runs_ret {A} (a : A) b (Q : A -> t S -> Prop) : Q a b -> runs (mret a) b Q.
Proof. done. Qed.
Lemma runs_bind {A B} (m : M A) (f : A -> M B) b Q :
  runs m b (fun a b' => runs (f a) b' Q) -> runs (m ≫= f) b Q.
Proof.
  unfold runs, mbind, fuelled_bind. destruct (m b) as [[[a|e|] b']|]; done.
Qed.
Lemma runs_mono {A} (m : M A) b (Q R : A -> t S -> Prop) :
  (forall a b', Q a b' -> R a b') -> runs m b Q -> runs m b R.
Proof. intros HQ. unfold runs. destruct (m b) as [[[a|e|] b']|]; auto. Qed.
Lemma runs_ask {A} (f : t S -> A) b (Q : A -> t S -> Prop) : Q (f b) b -> runs (ask f) b Q.
Proof. done. Qed.
Lemma runs_update f b (Q : unit -> t S -> Prop) : Q tt (f b) -> runs (update f) b Q.
Proof. done. Qed.
Lemma runs_give {A} (o : outcome TableError A) a b (Q : A -> t S -> Prop) :
  o = Ok a -> Q a b -> runs (give o) b Q.
Proof. by intros ->. Qed.

(** What a call leaves alone; [d] pages were allocated. *)
Record same (d : Z) (b b' : t S) : Prop := {
  sm_id : id b' = id b; sm_name : name b' = name b;
  sm_order : max_order b' = max_order b; sm_min : min_keys b' = min_keys b;
  sm_max : max_node_size b' = max_node_size b;
  sm_root : root_page_id b' = root_page_id b; sm_rows : row_count b' = row_count b;
  sm_size : size b' = size b; sm_next : next b' = next b + d;
  sm_sroot : root_btree_page (pager b') = root_btree_page (pager b);
  sm_srows : btree_row_count (pager b') = btree_row_count (pager b) }.

Lemma same_table_refl b : same 0 b b.
Proof. constructor; try done. lia. Qed.
Lemma same_trans d1 d2 b1 b2 b3 : same d1 b1 b2 -> same d2 b2 b3 -> same (d1 + d2) b1 b3.
Proof. intros [] []. constructor; try congruence. lia. Qed.
Lemma same_trans0 d b1 b2 b3 : same d b1 b2 -> same 0 b2 b3 -> same d b1 b3.
Proof. intros Ha Hb. rewrite <- (Z.add_0_r d). by eapply same_trans. Qed.
Lemma same_pager b s' : same_store (pager b) s' -> same 0 b (set_pager s' b).
Proof. intros []. constructor; simpl; try done. lia. Qed.

Lemma runs_pager {A} (m : stateful S PagerError A) b (P : A -> S -> Prop) Q :
  after store_faults m (pager b) P -> (forall a s', P a s' -> Q a (set_pager s' b)) ->
  runs (on_pager m) b Q.
Proof.
  unfold after, runs, on_pager, convert. destruct (m (pager b)) as [[a|e|] s']; simpl; intros Hm HQ; [auto|by apply admits..].
Qed.

(** ** Pages that hold nodes *)
Definition holds_node (D : Z) (m : gmap PageId bytes) (x : PageId * BTreeNode.t) : Prop :=
  m !! x.1 = Some (to_bytes x.2) /\ wf x.2 /\ zlen (to_bytes x.2) <= D.
Definition owns (D : Z) (m : gmap PageId bytes) (l : list (PageId * BTreeNode.t)) : Prop :=
  NoDup (map fst l) /\ Forall (holds_node D m) l.

#[global] Instance owns_perm D m : Proper (Permutation ==> iff) (owns D m).
Proof. intros l l' Hl. unfold owns. by rewrite Hl. Qed.

Lemma owns_in D m l x : owns D m l -> x ∈ l -> holds_node D m x.
Proof. intros [_ Hl] Hx. by rewrite Forall_forall in Hl; apply Hl. Qed.
Lemma owns_app_l D m l k : owns D m (l ++ k) -> owns D m l.
Proof. unfold owns. rewrite map_app, NoDup_app, Forall_app. tauto. Qed.

Lemma holds_node_ext D m m' x : m' !! x.1 = m !! x.1 -> holds_node D m x -> holds_node D m' x.
Proof. unfold holds_node. by intros ->. Qed.

Lemma owns_write D m p n n' l :
  owns D m ((p, n) :: l) -> wf n' -> zlen (to_bytes n') <= D ->
  owns D (<[p := to_bytes n']> m) ((p, n') :: l).
Proof.
  intros [Hnd Hall] Hw Hz. simpl in Hnd. apply NoDup_cons in Hnd as [Hp Hnd]. apply Forall_cons in Hall as [_ Hall].
  split; [simpl; by apply NoDup_cons|]. constructor; [unfold holds_node; simpl; by rewrite lookup_insert_eq|].
  apply Forall_forall. intros x Hx. rewrite Forall_forall in Hall. eapply holds_node_ext; [|by apply Hall].
  rewrite lookup_insert_ne; [done|]. intros ->. apply Hp. apply list_elem_of_fmap. by exists x.
Qed.

Lemma owns_fresh D m p n l d : owns D m l -> m !! p = None -> wf n -> zlen (to_bytes n) <= D ->
  owns D (<[p := to_bytes n]> (<[p := d]> m)) ((p, n) :: l).
Proof.
  intros [Hnd Hall] Hp Hw Hz.
  assert (Hne : forall x, x ∈ l -> x.1 <> p).
  { intros x Hx He. rewrite Forall_forall in Hall. destruct (Hall x Hx) as [Hm _]. rewrite He in Hm. congruence. }
  split.
  - simpl. apply NoDup_cons. split; [|done]. intros (x & Hx & Hin)%list_elem_of_fmap. by eapply Hne.
  - constructor; [unfold holds_node; simpl; by rewrite lookup_insert_eq|].
    apply Forall_forall. intros x Hx. rewrite Forall_forall in Hall. eapply holds_node_ext; [|by apply Hall].
    rewrite !lookup_insert_ne; [done|..]; intros He; by eapply Hne.
Qed.

Lemma owns_alloc D m p l d : owns D m l -> m !! p = None -> owns D (<[p := d]> m) l.
Proof.
  intros [Hnd Hall] Hp. split; [done|]. apply Forall_forall. intros x Hx. rewrite Forall_forall in Hall.
  eapply holds_node_ext; [|by apply Hall]. rewrite lookup_insert_ne; [done|]. intros ->.
  destruct (Hall x Hx) as [Hm _]. congruence.
Qed.

(** ** Reading and writing nodes *)
Lemma runs_read b m x Q : holds (pager b) m -> holds_node (size b) m x ->
  (forall b', same 0 b b' -> holds (pager b') m -> Q x.2 b') -> runs (read_node x.1) b Q.
Proof.
  intros Hh (Hm & Hw & Hz) HQ. destruct (read_page_ok _ _ _ _ Hh Hm) as (s' & Hr & Hh' & Hs).
  unfold read_node. apply runs_bind. unfold runs at 1, on_pager, convert. rewrite Hr. simpl.
  pose proof (data_size_bounds _ _ Hh). apply (runs_give _ x.2); [apply node_back; [done|lia]|].
  apply HQ; [by apply same_pager|done].
Qed.

Lemma runs_write b m p n Q : holds (pager b) m -> is_Some (m !! p) -> zlen (to_bytes n) <= size b ->
  (forall b', same 0 b b' -> holds (pager b') (<[p := to_bytes n]> m) -> Q tt b') ->
  runs (write_node p n) b Q.
Proof.
  intros Hh Hp Hz HQ. eapply runs_pager; [apply write_page_ok; [exact Hh|done|by destruct n|done]|].
  intros [] s' [Hh' Hs]. apply HQ; [by apply same_pager|done].
Qed.

Lemma runs_allocate b m ty Q : holds (pager b) m -> PageType.readable ty = true -> next b + 1 < 2 ^ 64 ->
  (forall b', same 1 b b' -> holds (pager b') (<[next b := []]> m) -> m !! next b = None -> is_u64 (next b) ->
    Q (next b) b') ->
  runs (on_pager (allocate_page ty)) b Q.
Proof.
  intros Hh Hty Hn HQ. eapply runs_pager; [by apply allocate_page_ok|].
  intros p s' (-> & Hn' & Hm & Hp & Hh' & Hsz & Hr & Hc). apply HQ; [|done|done|unfold fits; lia].
  constructor; simpl; try done; congruence.
Qed.

(** ** Splitting a node *)
Lemma zlen_mjoin_app {A} (f : A -> bytes) l k :
  zlen (mjoin (map f (l ++ k))) = zlen (mjoin (map f l)) + zlen (mjoin (map f k)).
Proof. by rewrite map_app, mjoin_app, zlen_app. Qed.

Definition splittable (t : tree) : Prop :=
  match t with TLeaf _ _ es => es <> [] | TNode _ _ cs _ => cs <> [] end.

Lemma middle {A} (l : list A) : l <> [] ->
  exists l1 x l2, l = l1 ++ x :: l2 /\ length l1 = Z.to_nat (zlen l / 2).
Proof.
  intros Hl. destruct (lookup_lt_is_Some_2 l (Z.to_nat (zlen l / 2))) as [x Hx].
  { assert (0 < zlen l) by (destruct l; [done|]; rewrite zlen_cons; pose proof (zlen_nonneg l); lia).
    pose proof (Z.div_lt_upper_bound (zlen l) 2 (zlen l)). pose proof (Z.div_pos (zlen l) 2). unfold zlen in *. lia. }
  exists (take (Z.to_nat (zlen l / 2)) l), x, (drop (Datatypes.S (Z.to_nat (zlen l / 2))) l).
  split; [by rewrite take_drop_middle|]. rewrite length_take_le; [done|]. apply lookup_lt_Some in Hx. lia.
Qed.

Lemma increment_u64 v : is_u64 (PageVersion_increment v).
Proof. by apply as_u_fits. Qed.

Lemma splits_wf rp t t1 k t2 nx : splits rp t t1 k t2 -> is_u64 rp ->
  wf (node_of t nx) -> wf (node_of t1 (first_leaf t2)) /\ wf (node_of t2 nx).
Proof.
  intros Hs Hrp. destruct Hs as [p v es1 e es2|p v cs1 c k cs2 r]; simpl.
  - intros [Hv Hnx]. split_and!; try done; apply increment_u64.
  - rewrite map_app, Forall_app, map_cons, Forall_cons. intros (Hv & Hr & Hc1 & Hc & Hc2).
    split_and!; try done; apply increment_u64.
Qed.

Lemma splits_size rp t t1 k t2 nx : splits rp t t1 k t2 ->
  zlen (to_bytes (node_of t1 (first_leaf t2))) <= zlen (to_bytes (node_of t nx)) /\
  zlen (to_bytes (node_of t2 nx)) <= zlen (to_bytes (node_of t nx)).
Proof.
  intros Hs. rewrite !zlen_node. destruct Hs; simpl.
  - rewrite zlen_mjoin_app. pose proof (zlen_nonneg (mjoin (map leaf_bytes es1))).
    pose proof (zlen_nonneg (mjoin (map leaf_bytes (e :: es2)))). simpl in *. lia.
  - rewrite map_app, zlen_mjoin_app. pose proof (zlen_nonneg (mjoin (map internal_bytes (map entry_of cs1)))).
    simpl. rewrite zlen_app. pose proof (zlen_nonneg (mjoin (map internal_bytes (map entry_of cs2)))).
    pose proof (zlen_nonneg (internal_bytes (entry_of (c, k)))). lia.
Qed.

(** A node is split in the middle. *)
Definition keys_of (t : tree) : Z := key_count (node_of t 0).
Definition halves (t t1 t2 : tree) : Prop :=
  keys_of t1 = keys_of t / 2 /\ keys_of t2 <= keys_of t - keys_of t / 2.
Lemma keys_node t nx : key_count (node_of t nx) = keys_of t.
Proof. by destruct t. Qed.
Lemma halves_leaf p v es1 e es2 v1 p2 v2 : length es1 = Z.to_nat (zlen (es1 ++ e :: es2) / 2) ->
  halves (TLeaf p v (es1 ++ e :: es2)) (TLeaf p v1 es1) (TLeaf p2 v2 (e :: es2)).
Proof.
  unfold halves, keys_of, zlen. cbn [node_of key_count]. unfold zlen. rewrite length_app. cbn [length].
  Z.div_mod_to_equations. lia.
Qed.
Lemma halves_node p v cs1 c k cs2 r v1 p2 v2 : length cs1 = Z.to_nat (zlen (cs1 ++ (c, k) :: cs2) / 2) ->
  halves (TNode p v (cs1 ++ (c, k) :: cs2) r) (TNode p v1 cs1 c) (TNode p2 v2 cs2 r).
Proof.
  unfold halves, keys_of, zlen. cbn [node_of key_count]. unfold zlen. rewrite !length_map, length_app. cbn [length].
  Z.div_mod_to_equations. lia.
Qed.

(** Pages outside [ps] that were live are as they were. *)
Definition untouched (ps : list PageId) (m m' : gmap PageId bytes) : Prop :=
  forall q, is_Some (m !! q) -> q ∉ ps -> m' !! q = m !! q.

Lemma untouched_refl ps m : untouched ps m m.
Proof. done. Qed.
Lemma untouched_trans ps m1 m2 m3 : untouched ps m1 m2 -> untouched ps m2 m3 -> untouched ps m1 m3.
Proof. intros U1 U2 q Hq Hn. rewrite U2; [by apply U1| |done]. by rewrite U1. Qed.
Lemma untouched_insert ps m p d : p ∈ ps -> untouched ps m (<[p := d]> m).
Proof. intros Hp q _ Hq. rewrite lookup_insert_ne; [done|]. by intros ->. Qed.
Lemma untouched_fresh ps m p d d' : m !! p = None -> untouched ps m (<[p := d']> (<[p := d]> m)).
Proof. intros Hp q [x Hx] _. rewrite !lookup_insert_ne; [done|..]; intros ->; congruence. Qed.
Lemma untouched_mono ps ps' m m' : (forall q, q ∈ ps -> q ∈ ps') -> untouched ps m m' -> untouched ps' m m'.
Proof. intros Hps Hu q Hq Hn. apply Hu; [done|]. intros Hin. by apply Hn, Hps. Qed.

Lemma split_node_ok t b m nx rest (Q : PageId * bytes -> PagedBTree.t S -> Prop) :
  holds (pager b) m -> owns (size b) m (nodes t nx ++ rest) -> splittable t -> next b + 1 < 2 ^ 64 ->
  (forall k t1 t2 b' m', splits (next b) t t1 k t2 -> halves t t1 t2 -> same 1 b b' -> holds (pager b') m' ->
     owns (size b) m' (nodes t1 (first_leaf t2) ++ nodes t2 nx ++ rest) ->
     untouched [page t] m m' -> is_u64 (next b) -> Q (next b, k) b') ->
  runs (split_node (page t) (node_of t nx)) b Q.
Proof.
  intros Hh Ho Hsp Hn HQ. rewrite nodes_eq in Ho. simpl in Ho.
  pose proof (owns_in _ _ _ _ Ho (list_elem_of_here _ _)) as (Hm & Hw & Hz). simpl in Hm, Hw, Hz.
  (* the two halves are written after the new page was allocated *)
  assert (Hgo : forall k t1 t2, splits (next b) t t1 k t2 -> halves t t1 t2 -> forall ty, PageType.readable ty = true ->
    runs (right_page_id ← on_pager (allocate_page ty);
          _ ← write_node (page t) (node_of t1 right_page_id);
          _ ← write_node right_page_id (node_of t2 nx); mret (right_page_id, k)) b Q).
  { intros k t1 t2 Hs Hhv ty Hty. apply runs_bind. eapply runs_allocate; [exact Hh|done|done|].
    intros b1 S1 Hh1 Hnone Hu. pose proof (splits_page _ _ _ _ _ Hs) as (Hp1 & Hp2 & _).
    assert (Hfl : node_of t1 (next b) = node_of t1 (first_leaf t2)) by (by destruct Hs).
    destruct (splits_wf _ _ _ _ _ nx Hs Hu Hw) as [W1 W2].
    destruct (splits_size _ _ _ _ _ nx Hs) as [Z1 Z2].
    assert (Hne : page t <> next b) by (intros He; rewrite He in Hm; congruence).
    apply runs_bind. eapply runs_write; [exact Hh1| | |].
    { rewrite lookup_insert_ne by done. by eexists. }
    { rewrite (sm_size _ _ _ S1), Hfl. lia. }
    intros b2 S2 Hh2. apply runs_bind. eapply runs_write; [exact Hh2| | |].
    { rewrite lookup_insert_ne, lookup_insert_eq by done. by eexists. }
    { rewrite (sm_size _ _ _ S2), (sm_size _ _ _ S1). lia. }
    intros b3 S3 Hh3. apply runs_ret. rewrite Hfl in Hh3.
    eapply (HQ k t1 t2); [exact Hs|exact Hhv| |exact Hh3| | |done].
    - eapply same_trans0; [eapply same_trans0; [exact S1|exact S2]|exact S3].
    - rewrite (nodes_eq t1), (nodes_eq t2), Hp1, Hp2. simpl.
      rewrite (insert_insert_ne _ (next b) (page t)) by done.
      assert (Hperm : (page t, node_of t1 (first_leaf t2)) :: below t1 (first_leaf t2) ++
        ((next b, node_of t2 nx) :: below t2 nx) ++ rest ≡ₚ
        (page t, node_of t1 (first_leaf t2)) :: (next b, node_of t2 nx) :: below t nx ++ rest).
      { apply perm_skip. simpl. rewrite <- Permutation_middle. apply perm_skip.
        by rewrite app_assoc, (splits_below _ _ _ _ _ nx Hs). }
      simpl in Hperm. rewrite Hperm. apply (owns_write _ _ _ (node_of t nx)); [|done|lia].
      rewrite Permutation_swap. apply owns_fresh; [done|done|done|lia].
    - rewrite (insert_insert_ne _ (next b) (page t)) by done.
      eapply untouched_trans; [by apply (untouched_fresh _ m (next b))|]. apply untouched_insert. by left. }
  destruct t as [p v es|p v cs r]; cbn [splittable node_of page] in *; unfold split_node;
    cbn [BTreeNode.key_count]; cbv zeta.
  - destruct (middle es Hsp) as (es1 & e & es2 & -> & Hlen). rewrite <- Hlen.
    rewrite list_lookup_middle by done. apply runs_bind. eapply runs_give; [done|].
    rewrite take_app_length, drop_app_length. apply (Hgo _ _ _ (splits_leaf (next b) p v es1 e es2)); [|done].
    by apply halves_leaf.
  - destruct (middle cs Hsp) as (cs1 & [c k] & cs2 & -> & Hlen). unfold zlen in *. rewrite length_map.
    rewrite <- Hlen. rewrite map_app. simpl.
    rewrite list_lookup_middle by (by rewrite length_map). apply runs_bind. eapply runs_give; [done|]. simpl.
    rewrite <- (length_map entry_of cs1). rewrite take_app_length.
    rewrite Nat.add_1_r, (cons_middle (entry_of (c, k))), app_assoc.
    rewrite drop_app_length' by (rewrite length_app; simpl; lia).
    apply (Hgo _ _ _ (splits_node (next b) p v cs1 c k cs2 r)); [|done]. by apply halves_node.
Qed.

(** ** Linking the halves into the parent *)
Lemma find_index_middle {A} (f : A -> bool) l1 x l2 :
  Forall (fun y => f y = false) l1 -> f x = true -> find_index f (l1 ++ x :: l2) = Some (length l1).
Proof. intros Hl Hx. induction Hl as [|y l1 Hy _ IH]; simpl; [by rewrite Hx|]. by rewrite Hy, IH. Qed.

Lemma parent_linked f pg k rp :
  Forall (fun x => page x.1 <> pg) (f_pre f) ->
  match f_post f with None => True | Some (_, _, r) => page r <> pg end ->
  match frame_node f pg with
  | Internal v es rm =>
      exists es' rm', parent_after_split es rm pg k rp = Ok (es', rm') /\
        Internal v es' rm' = link_node f pg k rp
  | Leaf _ _ _ => False
  end.
Proof.
  intros Hpre Hpost. unfold frame_node, link_node, parent_after_split.
  destruct (f_post f) as [[[k' cs] r]|].
  - rewrite (proj2 (Z.eqb_neq (page r) pg)) by done.
    rewrite find_index_middle; [|by apply Forall_map; eapply Forall_impl; [exact Hpre|];
      intros x Hx; simpl; apply Z.eqb_neq|simpl; lia].
    rewrite list_lookup_middle by done. eexists _, _. split; [done|]. f_equal.
    unfold insert_at. rewrite take_app_length, drop_app_length.
    rewrite alter_app_r_alt by lia. rewrite Nat.add_comm, Nat.add_sub. done.
  - rewrite Z.eqb_refl. by eexists _, _.
Qed.

(** Bounds on the keys of a node and on the room it leaves. *)
Definition node_keys (n : BTreeNode.t) : list bytes :=
  match n with Internal _ es _ => map ikey es | Leaf _ es _ => map key es end.
Definition slim (E : Z) (l : list (PageId * BTreeNode.t)) : Prop :=
  Forall (fun x => Forall (fun k => 12 + zlen k <= E) (node_keys x.2)) l.
Definition roomy (E D : Z) (l : list (PageId * BTreeNode.t)) : Prop :=
  Forall (fun x => zlen (to_bytes x.2) + E <= D) l.

(** Fewer than [M] keys in every node. *)
Definition few (M : Z) (l : list (PageId * BTreeNode.t)) : Prop := Forall (fun x => key_count x.2 < M) l.
#[global] Instance few_perm M : Proper (Permutation ==> iff) (few M).
Proof. intros l l' Hl. unfold few. by rewrite Hl. Qed.
Lemma few_app M l k : few M (l ++ k) <-> few M l /\ few M k.
Proof. apply Forall_app. Qed.
Lemma few_nodes M t nx : few M (nodes t nx) <-> keys_of t < M /\ few M (below t nx).
Proof. rewrite nodes_eq. unfold few. rewrite Forall_cons. cbn [snd]. by rewrite keys_node. Qed.
Lemma splits_few M rp t t1 k t2 nx : splits rp t t1 k t2 -> halves t t1 t2 -> 4 <= M -> keys_of t <= M ->
  few M (below t nx) -> few M (nodes t1 (first_leaf t2)) /\ few M (nodes t2 nx).
Proof.
  intros Hs [H1' H2'] HM Ht. rewrite <- (splits_below _ _ _ _ _ nx Hs), few_app, !few_nodes. intros [? ?].
  split_and!; try done; Z.div_mod_to_equations; lia.
Qed.

Lemma slim_app E l k : slim E (l ++ k) <-> slim E l /\ slim E k.
Proof. apply Forall_app. Qed.
#[global] Instance slim_perm E : Proper (Permutation ==> iff) (slim E).
Proof. intros l l' Hl. unfold slim. by rewrite Hl. Qed.
#[global] Instance roomy_perm E D : Proper (Permutation ==> iff) (roomy E D).
Proof. intros l l' Hl. unfold roomy. by rewrite Hl. Qed.

Lemma splits_slim E rp t t1 k t2 nx : splits rp t t1 k t2 -> slim E (nodes t nx) ->
  slim E (nodes t1 (first_leaf t2)) /\ slim E (nodes t2 nx) /\ 12 + zlen k <= E.
Proof.
  intros Hs. rewrite !nodes_eq. intros [Ht Hb]%Forall_cons. fold (slim E (below t nx)) in Hb.
  rewrite <- (splits_below _ _ _ _ _ nx Hs), slim_app in Hb. destruct Hb as [Hb1 Hb2].
  unfold slim in *. rewrite !Forall_cons. simpl in *.
  destruct Hs as [p v es1 e es2|p v cs1 c k cs2 r]; cbn [node_of node_keys] in *.
  - rewrite map_app, Forall_app in Ht. destruct Ht as [Ht1 Ht2]. simpl in Ht2. pose proof Ht2 as [? ?]%Forall_cons.
    tauto.
  - rewrite map_map, map_app, Forall_app in Ht. destruct Ht as [Ht1 Ht2]. simpl in Ht2.
    apply Forall_cons in Ht2 as [Ht2 Ht3]. rewrite !map_map. tauto.
Qed.

Lemma frame_slim f pg k rp E : 12 + zlen k <= E ->
  Forall (fun k => 12 + zlen k <= E) (node_keys (frame_node f pg)) ->
  Forall (fun k => 12 + zlen k <= E) (node_keys (link_node f pg k rp)).
Proof.
  intros Hk. unfold frame_node, link_node. destruct (f_post f) as [[[k' cs] r]|]; simpl;
    rewrite ?map_app, ?Forall_app; simpl; rewrite ?Forall_cons; tauto || (intros; split; [done|by constructor]).
Qed.

Lemma link_size f pg k rp :
  zlen (to_bytes (link_node f pg k rp)) = zlen (to_bytes (frame_node f pg)) + 12 + zlen k.
Proof.
  rewrite !zlen_node. unfold frame_node, link_node. destruct (f_post f) as [[[k' cs] r]|]; simpl;
    rewrite !zlen_mjoin_app; simpl; rewrite ?app_nil_r, ?zlen_app, !zlen_internal_bytes; simpl; lia.
Qed.

Lemma link_count f pg k rp : key_count (link_node f pg k rp) = key_count (frame_node f pg) + 1.
Proof.
  unfold frame_node, link_node. destruct (f_post f) as [[[k' cs] r]|]; simpl; unfold zlen; rewrite !length_app; simpl; lia.
Qed.

Lemma link_wf f pg k rp : wf (frame_node f pg) -> is_u64 pg -> is_u64 rp -> wf (link_node f pg k rp).
Proof.
  unfold frame_node, link_node. intros Hw Hpg Hrp. destruct (f_post f) as [[[k' cs] r]|]; simpl in *;
    rewrite ?Forall_app, ?Forall_cons in *; simpl in *.
  - tauto.
  - destruct Hw as (? & ? & ?). split_and!; try done.
Qed.

(** Siblings have pages of their own. *)
Lemma page_in_nodes t nx : page t ∈ map fst (nodes t nx).
Proof. rewrite nodes_eq. by left. Qed.
Lemma before_pages pre nx : Forall (fun x => page x.1 ∈ map fst (before_nodes pre nx)) pre.
Proof.
  induction pre as [|[c k] pre IH]; simpl; constructor; simpl.
  - rewrite map_app, elem_of_app. left. apply page_in_nodes.
  - eapply Forall_impl; [exact IH|]. intros x Hx. simpl in Hx. rewrite map_app, elem_of_app. by right.
Qed.
Lemma last_page cs r nx : page r ∈ map fst (children_nodes cs r nx).
Proof.
  induction cs as [|[c k] cs IH]; simpl; [apply page_in_nodes|]. rewrite map_app, elem_of_app. by right.
Qed.

Lemma siblings_differ f pg fl nx :
  pg ∉ map fst (frame_rest f fl nx) ->
  Forall (fun x => page x.1 <> pg) (f_pre f) /\
  match f_post f with None => True | Some (_, _, r) => page r <> pg end.
Proof.
  unfold frame_rest. rewrite map_app, not_elem_of_app. intros [Hn1 Hn2]. split.
  - eapply Forall_impl; [apply (before_pages _ fl)|]. intros x Hx He. simpl in Hx. by rewrite He in Hx.
  - destruct (f_post f) as [[[k cs] r]|]; [|done]. intros He. apply Hn2. rewrite <- He. apply last_page.
Qed.

(** ** Splitting up to the root *)
Record config_ok (b : PagedBTree.t S) : Prop := {
  co_order : 4 <= max_order b; co_size : 21 <= max_node_size b }.

(** The table after a split: the root may have moved. *)
Record moved (b b' : PagedBTree.t S) (root : PageId) : Prop := {
  mv_id : id b' = id b; mv_name : name b' = name b;
  mv_order : max_order b' = max_order b; mv_min : min_keys b' = min_keys b;
  mv_max : max_node_size b' = max_node_size b; mv_size : size b' = size b;
  mv_rows : row_count b' = row_count b;
  mv_srows : btree_row_count (pager b') = btree_row_count (pager b);
  mv_root : root_page_id b' = root;
  mv_sroot : root_btree_page (pager b) = root_page_id b -> root_btree_page (pager b') = root }.

Lemma same_moved d b b' : same d b b' -> moved b b' (root_page_id b).
Proof. intros []. constructor; congruence. Qed.
Lemma moved_trans d b1 b2 b3 root : same d b1 b2 -> moved b2 b3 root -> moved b1 b3 root.
Proof. intros [] []. constructor; try congruence. intros Hr. apply mv_sroot0. congruence. Qed.
Lemma config_same d b b' : same d b b' -> config_ok b -> config_ok b'.
Proof. intros [] []. constructor; congruence. Qed.

Fixpoint path_of (ctx : list frame) (pg : PageId) : list (PageId * PageId) :=
  match ctx with [] => [] | f :: ctx => (f_page f, pg) :: path_of ctx (f_page f) end.

Lemma root_in_ctx ctx : forall f t pg fl nx,
  page (plug (f :: ctx) t) ∈ map fst (ctx_nodes (f :: ctx) pg fl nx).
Proof.
  induction ctx as [|g ctx IH]; intros f t pg fl nx.
  - simpl. rewrite page_fill. by left.
  - change (plug (f :: g :: ctx) t) with (plug (g :: ctx) (fill f t)).
    specialize (IH g (fill f t) (f_page f) (frame_first f fl) nx).
    cbn [ctx_nodes] in *. rewrite map_cons, map_app. right. apply elem_of_app. right. exact IH.
Qed.

Lemma page_plug ctx : forall t t', page t = page t' -> page (plug ctx t) = page (plug ctx t').
Proof.
  induction ctx as [|f ctx IH]; intros t t' Hp; [done|]. simpl. apply IH. by rewrite !page_fill.
Qed.

Lemma node_of_link f t1 k t2 nx : node_of (link f t1 k t2) nx = link_node f (page t1) k (page t2).
Proof.
  unfold link, link_node. destruct (f_post f) as [[[k' cs] r]|]; simpl; by rewrite map_app.
Qed.
Lemma splittable_link f t1 k t2 : splittable (link f t1 k t2).
Proof.
  unfold link. destruct (f_post f) as [[[k' cs] r]|]; simpl; intros Hn%(f_equal length);
    rewrite length_app in Hn; simpl in Hn; lia.
Qed.

Lemma owns_pages_u64 D b m x : holds (pager b) m -> holds_node D m x -> is_u64 x.1.
Proof.
  intros Hh [Hm _]. pose proof (next_page_fresh _ _ x.1 Hh ltac:(by eexists)).
  pose proof (next_page_bound _ _ Hh). unfold fits. lia.
Qed.

Lemma too_big_splittable b t nx : config_ok b ->
  is_full (node_of t nx) (max_order b) || negb (node_fits_in_page b (node_of t nx)) = true -> splittable t.
Proof.
  intros [Ho Hs] Hbig. unfold node_fits_in_page in Hbig. rewrite zlen_node in Hbig.
  unfold is_full in Hbig. destruct t as [p v [|]|p v [|] r]; try done; exfalso;
    simpl in Hbig; unfold zlen in Hbig; simpl in Hbig;
    apply orb_true_iff in Hbig as [Hf%Z.leb_le|Hf%negb_true_iff%Z.leb_gt]; lia.
Qed.

(** A split root gets a new root above it. *)
Lemma new_root_ok E t1 k t2 b m (Q : unit -> PagedBTree.t S -> Prop) :
  holds (pager b) m -> owns (size b) m (nodes t1 (first_leaf t2) ++ nodes t2 0) ->
  next b + 1 < 2 ^ 64 -> 21 + E <= size b -> 12 + zlen k <= E ->
  (forall b' m', let t' := TNode (next b) PageVersion_initial [(t1, k)] t2 in
     holds (pager b') m' -> owns (size b) m' (nodes t' 0) -> moved b b' (page t') ->
     untouched [] m m' -> next b' = next b + 1 -> Q tt b') ->
  runs (new_root ← on_pager (allocate_page PageType.BTreeInternal);
        _ ← write_node new_root (Internal PageVersion_initial [mkInternal k (page t1)] (page t2));
        set_root_page_id new_root) b Q.
Proof.
  intros Hh Ho Hn HE Hk HQ. apply runs_bind. eapply runs_allocate; [exact Hh|done|done|].
  intros b1 S1 Hh1 Hnone Hu. set (n := Internal _ _ _).
  assert (Hz : zlen (to_bytes n) <= size b).
  { rewrite zlen_node. simpl. rewrite app_nil_r, zlen_internal_bytes. simpl. lia. }
  assert (Hw : wf n).
  { pose proof (owns_in _ _ _ (page t1, node_of t1 (first_leaf t2)) Ho) as H1'.
    pose proof (owns_in _ _ _ (page t2, node_of t2 0) Ho) as H2'. rewrite !nodes_eq in H1', H2'.
    split_and!; [done| |constructor; [|constructor]]; simpl.
    - apply (owns_pages_u64 (size b) b m (page t2, node_of t2 0) Hh), H2'. rewrite elem_of_app. right. by left.
    - apply (owns_pages_u64 (size b) b m (page t1, node_of t1 (first_leaf t2)) Hh), H1'. by left. }
  apply runs_bind. eapply runs_write; [exact Hh1|rewrite lookup_insert_eq; by eexists|by rewrite (sm_size _ _ _ S1)|].
  intros b2 S2 Hh2. unfold set_root_page_id. apply runs_bind.
  eapply runs_pager; [by apply set_root_ok|]. intros [] s' (Hh3 & Hsz & Hnx & Hr & Hc). apply runs_update.
  eapply HQ; [exact Hh3| | |by apply (untouched_fresh _ m (next b))|destruct S1, S2; simpl in *; lia].
  - rewrite nodes_TNode. apply owns_fresh; done.
  - destruct S1, S2. constructor; simpl; congruence.
Qed.

(** The pages of a tree after one of its nodes was split. *)
Lemma linked_perm rp f ctx t t1 k t2 : splits rp t t1 k t2 ->
  nodes (plug ctx (link f t1 k t2)) 0 ≡ₚ (f_page f, link_node f (page t) k rp) ::
    nodes t1 (first_leaf t2) ++ nodes t2 (frame_nx f (ctx_nx ctx 0)) ++
    frame_rest f (first_leaf t) (ctx_nx ctx 0) ++ ctx_nodes ctx (f_page f) (frame_first f (first_leaf t)) 0.
Proof.
  intros Hs. destruct (splits_page _ _ _ _ _ Hs) as (Hp1 & Hp2 & Hf1).
  rewrite nodes_plug, page_link, first_leaf_link, nodes_link, Hp1, Hp2, Hf1.
  rewrite <- !app_assoc. simpl. by rewrite <- !Permutation_middle.
Qed.

Lemma linked_pages rp f ctx t t1 k t2 q : splits rp t t1 k t2 ->
  q ∈ map fst (nodes (plug ctx (link f t1 k t2)) 0) ->
  q = rp \/ q ∈ map fst (nodes (plug (f :: ctx) t) 0).
Proof.
  intros Hs. rewrite (linked_perm rp f ctx t t1 k t2 Hs), nodes_plug. cbn [ctx_nodes ctx_nx].
  destruct (splits_page _ _ _ _ _ Hs) as (Hp1 & Hp2 & _).
  rewrite (nodes_eq t1), (nodes_eq t2), (nodes_eq t), Hp1, Hp2.
  rewrite <- (splits_below _ _ _ _ _ (frame_nx f (ctx_nx ctx 0)) Hs).
  rewrite !map_cons, !map_app. cbn [map fst app]. rewrite !map_app. cbn [map fst].
  repeat (rewrite elem_of_cons || rewrite elem_of_app). tauto.
Qed.

(** The tree with the halves in place of the node is the same map. *)
Lemma linked_tree E rp f ctx t t1 k t2 n : splits rp t t1 k t2 ->
  ordered None (plug (f :: ctx) t) None -> depth n t -> ctx_depth n (f :: ctx) ->
  slim E (nodes (plug (f :: ctx) t) 0) ->
  let t' := plug ctx (link f t1 k t2) in
  page t' = page (plug (f :: ctx) t) /\ ordered None t' None /\ depth (Datatypes.S n) (link f t1 k t2) /\
  contents t' = contents (plug (f :: ctx) t) /\ slim E (nodes t' 0) /\ 12 + zlen k <= E.
Proof.
  intros Hs Hord Hd [Hfd _] Hsl t'. apply ordered_plug in Hord as [[Hfo Hco] Hto]. cbn [ctx_lo ctx_hi] in Hto.
  destruct (splits_ordered _ _ _ _ _ _ _ Hs Hto) as (Ol & Oh & O1 & O2).
  destruct (splits_depth _ _ _ _ _ n Hs Hd) as [D1 D2].
  rewrite nodes_plug, slim_app in Hsl. destruct Hsl as [Hsl1 [Hslf Hsl2]%Forall_cons].
  destruct (splits_slim E _ _ _ _ _ _ Hs Hsl1) as (L1 & L2 & Lk). unfold t'. split_and!; [| | | | |done].
  - change (plug (f :: ctx) t) with (plug ctx (fill f t)). apply page_plug. by rewrite page_fill, page_link.
  - apply ordered_plug. split; [done|]. by apply ordered_link.
  - by apply depth_link.
  - rewrite !contents_plug. cbn [ctx_before ctx_after].
    rewrite contents_link, (splits_contents _ _ _ _ _ Hs). by rewrite <- !app_assoc.
  - rewrite (linked_perm rp f ctx t t1 k t2 Hs). apply Forall_cons. split; [by apply frame_slim|].
    apply slim_app; split; [done|]. apply slim_app; split; done.
Qed.

(** The halves are linked into the parent, which may then be too big. *)
Lemma link_parent_ok E f ctx rp t t1 k t2 b m split (Q : unit -> PagedBTree.t S -> Prop) :
  splits rp t t1 k t2 -> holds (pager b) m -> is_u64 rp ->
  owns (size b) m (nodes t1 (first_leaf t2) ++ nodes t2 (frame_nx f (ctx_nx ctx 0))
    ++ ctx_nodes (f :: ctx) (page t) (first_leaf t) 0) ->
  zlen (to_bytes (frame_node f (page t))) + E <= size b -> 12 + zlen k <= E ->
  (forall b' m', same 0 b b' -> holds (pager b') m' -> untouched [f_page f] m m' ->
     owns (size b) m' (nodes (plug ctx (link f t1 k t2)) 0) ->
     let n := node_of (link f t1 k t2) (ctx_nx ctx 0) in
     runs (if is_full n (max_order b') || negb (node_fits_in_page b' n) then split (f_page f) n else mret tt) b' Q) ->
  runs (insert_into_parent split (f_page f) (page t) k rp) b Q.
Proof.
  intros Hs Hh Hu Ho Hz Hk HQ. destruct (splits_page _ _ _ _ _ Hs) as (Hp1 & Hp2 & _).
  assert (Hpar : holds_node (size b) m (f_page f, frame_node f (page t))).
  { apply (owns_in _ _ _ _ Ho). rewrite !elem_of_app. right. right. by left. }
  unfold insert_into_parent. apply runs_bind.
  eapply (runs_read b m (f_page f, frame_node f (page t))); [exact Hh|done|]. intros b2 S2 Hh2. simpl.
  destruct (siblings_differ f (page t) (first_leaf t) (ctx_nx ctx 0)) as [Hd1 Hd2].
  { destruct Ho as [Hnd _]. rewrite map_app in Hnd. apply NoDup_app in Hnd as (_ & Hnd & _).
    intros Hin. apply (Hnd (page t)); [rewrite <- Hp1; apply page_in_nodes|].
    rewrite map_app, elem_of_app. right. simpl. right. rewrite map_app, elem_of_app. by left. }
  pose proof (parent_linked f (page t) k rp Hd1 Hd2) as Hlink.
  pose proof (link_size f (page t) k rp) as Hlz. destruct Hpar as (Hpm & Hpw & _). simpl in Hpm, Hpw.
  assert (Hpg : is_u64 (page t)).
  { apply (owns_pages_u64 (size b) b m (page t, node_of t1 (first_leaf t2)) Hh).
    apply (owns_in _ _ _ _ Ho). rewrite (nodes_eq t1), Hp1. by left. }
  pose proof (link_wf f (page t) k rp Hpw Hpg Hu) as Hlw.
  destruct (frame_node f (page t)) as [v es rm|] eqn:Hfn; [|done]. destruct Hlink as (es' & rm' & Hpas & Hln).
  apply runs_bind. eapply runs_give; [exact Hpas|]. simpl. rewrite Hln. apply runs_bind.
  pose proof (sm_size _ _ _ S2) as Z2. eapply runs_write; [exact Hh2|by eexists|rewrite Z2; lia|].
  intros b3 S3 Hh3. apply runs_bind, runs_ask.
  assert (Hlkn : node_of (link f t1 k t2) (ctx_nx ctx 0) = link_node f (page t) k rp) by (rewrite node_of_link; congruence).
  rewrite <- Hlkn. eapply HQ; [by apply (same_trans 0 0 b b2)|exact Hh3|apply untouched_insert; by left|].
  rewrite (linked_perm rp f ctx t t1 k t2 Hs). apply (owns_write _ _ _ (Internal v es rm)); [|done|lia].
  cbn [ctx_nodes] in Ho. rewrite Hfn in Ho. by rewrite <- !Permutation_middle in Ho.
Qed.

Lemma propagate_ok E ctx : forall t b m n (Q : unit -> PagedBTree.t S -> Prop),
  holds (pager b) m -> owns (size b) m (nodes (plug ctx t) 0) -> root_page_id b = page (plug ctx t) ->
  ordered None (plug ctx t) None -> depth n t -> ctx_depth n ctx -> splittable t ->
  slim E (nodes (plug ctx t) 0) -> roomy E (size b) (ctx_nodes ctx (page t) (first_leaf t) 0) ->
  21 + E <= size b -> next b + Z.of_nat (length ctx) + 2 < 2 ^ 64 -> config_ok b ->
  keys_of t <= max_order b -> few (max_order b) (below t (ctx_nx ctx 0)) ->
  few (max_order b) (ctx_nodes ctx (page t) (first_leaf t) 0) ->
  (forall b' m' t' n', holds (pager b') m' -> owns (size b) m' (nodes t' 0) -> moved b b' (page t') ->
     ordered None t' None -> depth n' t' -> (n' <= n + length ctx + 1)%nat ->
     contents t' = contents (plug ctx t) -> untouched (map fst (nodes (plug ctx t) 0)) m m' ->
     slim E (nodes t' 0) -> few (max_order b) (nodes t' 0) ->
     next b' <= next b + Z.of_nat (length ctx) + 2 -> Q tt b') ->
  runs (split_and_propagate (path_of ctx (page t)) (page t) (node_of t (ctx_nx ctx 0))) b Q.
Proof.
  induction ctx as [|f ctx IH]; intros t b m n Q Hh Ho Hroot Hord Hd Hcd Hsp Hsl Hrm HE Hn Hcfg Hkt Hft Hfc HQ;
    cbn [path_of split_and_propagate ctx_nx] in *; apply runs_bind, runs_ask, runs_bind.
  - cbn [plug foldl] in *.
    eapply split_node_ok with (rest := []); [exact Hh|by rewrite app_nil_r|done|simpl in Hn; lia|].
    intros k t1 t2 b1 m1 Hs Hhv S1 Hh1 Ho1 Hu1 Hu64.
    destruct (splits_few _ _ _ _ _ _ _ Hs Hhv (co_order _ Hcfg) Hkt Hft) as [F1 F2]. rewrite app_nil_r in Ho1. rewrite Hroot, Z.eqb_refl.
    destruct (splits_page _ _ _ _ _ Hs) as (Hp1 & Hp2 & _). destruct (splits_slim E _ _ _ _ _ 0 Hs Hsl) as (L1 & L2 & Lk).
    destruct (splits_ordered _ _ _ _ _ _ _ Hs Hord) as (_ & _ & O1 & O2).
    destruct (splits_depth _ _ _ _ _ n Hs Hd) as [D1 D2]. pose proof (sm_size _ _ _ S1) as Z1.
    rewrite <- Hp1. rewrite <- Hp2.
    eapply (new_root_ok E t1 k t2 b1 m1); [exact Hh1|by rewrite Z1|rewrite (sm_next _ _ _ S1); simpl in Hn; lia
      |by rewrite Z1|done|].
    intros b2 m2 t' Hh2 Ho2 M2 Hu2 Hn2. rewrite Z1 in Ho2.
    eapply (HQ b2 m2 t' (Datatypes.S n)); [done|done|by eapply moved_trans| | |simpl; lia| | | | |].
    + apply ordered_TNode. by split.
    + apply depth_TNode. split; [by repeat constructor|done].
    + unfold t'. rewrite contents_TNode. simpl. rewrite app_nil_r. symmetry. by eapply splits_contents.
    + eapply untouched_trans; [|by eapply untouched_mono; [|exact Hu2]; intros q ?%elem_of_nil].
      eapply untouched_mono; [|exact Hu1]. intros q ->%list_elem_of_singleton. apply page_in_nodes.
    + unfold t'. rewrite nodes_TNode. apply Forall_cons. split; [by repeat constructor|]. simpl. apply slim_app. by split.
    + unfold t'. rewrite nodes_TNode. apply Forall_cons. split; [destruct Hcfg; simpl; unfold zlen; simpl; lia|].
      simpl. apply few_app. by split.
    + rewrite Hn2, (sm_next _ _ _ S1). simpl. lia.
  - pose proof Ho as Ho'. rewrite nodes_plug in Ho'. cbn [ctx_nx] in Ho'.
    assert (Hnr : page t <> page (plug (f :: ctx) t)).
    { destruct Ho' as [Hnd _]. rewrite map_app in Hnd. apply NoDup_app in Hnd as (_ & Hnd & _).
      intros He. apply (Hnd (page t)); [apply page_in_nodes|]. rewrite He at 1. apply root_in_ctx. }
    eapply split_node_ok; [exact Hh|exact Ho'|done|simpl length in Hn; lia|].
    intros k t1 t2 b1 m1 Hs Hhv S1 Hh1 Ho1 Hu1 Hu64.
    destruct (splits_few _ _ _ _ _ _ _ Hs Hhv (co_order _ Hcfg) Hkt Hft) as [F1 F2]. rewrite Hroot, (proj2 (Z.eqb_neq _ _) Hnr).
    destruct (linked_tree E (next b) f ctx t t1 k t2 n Hs Hord Hd Hcd Hsl) as (Hroot3 & Hord3 & Hd3 & Hcon3 & Hsl3 & Lk).
    set (lk := link f t1 k t2) in *. pose proof (sm_size _ _ _ S1) as Z1. destruct Hcd as [_ Hcd].
    cbn [ctx_nodes] in Hrm. apply Forall_cons in Hrm as [Hrf [_ Hrm]%Forall_app].
    cbn [ctx_nodes] in Hfc. apply Forall_cons in Hfc as [Hff [Hfr Hfc]%few_app].
    destruct (splits_page _ _ _ _ _ Hs) as (Hp1 & Hp2 & Hfl1).
    assert (Hkl : keys_of lk <= max_order b).
    { unfold keys_of, lk. rewrite node_of_link, link_count, Hp1. cbn [snd] in Hff. lia. }
    assert (Hbl : few (max_order b) (below lk (ctx_nx ctx 0))).
    { pose proof (nodes_link f t1 k t2 (ctx_nx ctx 0)) as Hperm. rewrite nodes_eq, node_of_link, page_link in Hperm.
      rewrite <- !Permutation_middle in Hperm. apply Permutation_cons_inv in Hperm. fold lk in Hperm. rewrite Hperm, !few_app.
      by rewrite Hfl1. }
    eapply (link_parent_ok E f ctx (next b) t t1 k t2 b1 m1); [exact Hs|done|done|by rewrite Z1|by rewrite Z1|done|].
    intros b3 m3 S3 Hh3 Hu3 Ho3. cbv zeta. rewrite Z1 in Ho3. pose proof (same_trans0 _ _ _ _ S1 S3) as S13.
    assert (Hu13 : untouched (map fst (nodes (plug (f :: ctx) t) 0)) m m3).
    { eapply untouched_trans; (eapply untouched_mono; [|eassumption]); intros q ->%list_elem_of_singleton;
        rewrite nodes_plug, map_app, elem_of_app; [left; apply page_in_nodes|right; simpl; by left]. }
    fold lk in Ho3 |- *. destruct (is_full _ _ || _) eqn:Hbig.
    + rewrite <- (page_link f t1 k t2). fold lk.
      eapply (IH lk b3 m3 (Datatypes.S n)); try done.
      * by rewrite (sm_size _ _ _ S13).
      * by rewrite (sm_root _ _ _ S13), Hroot3.
      * by eapply too_big_splittable; [eapply config_same|].
      * unfold lk. rewrite page_link, first_leaf_link, (sm_size _ _ _ S13).
        by rewrite Hfl1.
      * by rewrite (sm_size _ _ _ S13).
      * rewrite (sm_next _ _ _ S13). simpl length in Hn. lia.
      * by eapply config_same.
      * by rewrite (sm_order _ _ _ S13).
      * by rewrite (sm_order _ _ _ S13).
      * unfold lk. by rewrite (sm_order _ _ _ S13), page_link, first_leaf_link, Hfl1.
      * intros b4 m4 t' n' Hh4 Ho4 M4 Hord4 Hd4 Hn4 Hc4 Hu4 Hsl4 Hf4 Hx4.
        eapply (HQ b4 m4 t' n'); try done.
        -- by rewrite (sm_size _ _ _ S13) in Ho4.
        -- by eapply moved_trans.
        -- simpl length. lia.
        -- by rewrite Hc4.
        -- intros q Hq Hnot. rewrite Hu4; [by apply Hu13|by rewrite Hu13|].
           intros [->|Hin]%(linked_pages (next b) f ctx t t1 k t2 q Hs); [|done].
           pose proof (next_page_fresh _ _ _ Hh Hq). lia.
        -- by rewrite (sm_order _ _ _ S13) in Hf4.
        -- rewrite (sm_next _ _ _ S13) in Hx4. simpl length. lia.
    + apply runs_ret. eapply (HQ b3 m3 (plug ctx lk) (Datatypes.S n + length ctx)%nat); try done.
      * rewrite Hroot3, <- Hroot. by eapply same_moved.
      * by apply depth_plug.
      * simpl length. lia.
      * rewrite nodes_plug, few_app, few_nodes. unfold lk. rewrite page_link, first_leaf_link, Hfl1. split_and!; try done.
        fold lk. rewrite (sm_order _ _ _ S13) in Hbig. apply orb_false_iff in Hbig as [Hbig%Z.leb_gt _].
        by rewrite keys_node in Hbig.
      * rewrite (sm_next _ _ _ S13). simpl length. lia.
Qed.

(** ** Searching *)
Definition path_entry (f : frame) : PathEntry := mkPath (f_page f) (f_version f) (length (f_pre f)).

(** A search from a place goes down to the leaf of the key. *)
Definition found (t : tree) (k : bytes) (ctx : list frame) (p : PageId) (v : Z) (es : list LeafEntry) : Prop :=
  plug ctx (TLeaf p v es) = t /\ within (ctx_lo ctx None) (ctx_hi ctx None) k.

Lemma node_at ctx t D m : owns D m (nodes (plug ctx t) 0) ->
  holds_node D m (page t, node_of t (ctx_nx ctx 0)).
Proof.
  intros Ho. rewrite nodes_plug in Ho. apply (owns_in _ _ _ _ Ho). rewrite nodes_eq. by left.
Qed.

Lemma optimistic_ok k n : forall t ctx b m path fuel (Q : _ -> PagedBTree.t S -> Prop),
  holds (pager b) m -> owns (size b) m (nodes (plug ctx t) 0) -> depth n t -> (n < fuel)%nat ->
  ordered None (plug ctx t) None -> within (ctx_lo ctx None) (ctx_hi ctx None) k ->
  (forall ctx' p v es b', found (plug ctx t) k (ctx' ++ ctx) p v es -> same 0 b b' -> holds (pager b') m ->
     let i := (binary_search_by key es k).2 in
     Q (p, i, path ++ rev (map path_entry ctx') ++ [mkPath p v i]) b') ->
  runs (optimistic_loop fuel k (page t) path) b Q.
Proof.
  induction n as [|n IH]; intros t ctx b m path fuel Q Hh Ho Hd Hf Hord Hk HQ;
    (destruct fuel as [|fuel]; [lia|]); cbn [optimistic_loop]; apply runs_bind;
    (eapply (runs_read b m (page t, node_of t (ctx_nx ctx 0))); [exact Hh|by apply node_at|]);
    intros b1 S1 Hh1; destruct t as [p v es|p v cs r]; try done.
  - simpl. apply runs_ret. by apply (HQ [] p v es).
  - cbn [node_of snd page]. pose proof Hord as [_ Ht]%ordered_plug.
    destruct (route _ _ _ _ _ _ _ Ht Hk) as (f & c & Hfill & Hch & Hkc). rewrite Hch.
    rewrite Hfill in *. change (plug ctx (fill f c)) with (plug (f :: ctx) c) in *.
    assert (Hp : p = f_page f) by (rewrite <- (page_fill f c), <- Hfill; done).
    assert (Hv : v = f_version f) by (unfold fill in Hfill; destruct (f_post f) as [[[??]?]|]; by injection Hfill).
    eapply (IH c (f :: ctx) b1 m).
    + done.
    + by rewrite (sm_size _ _ _ S1).
    + by apply depth_fill in Hd as [_ ?].
    + lia.
    + done.
    + done.
    + intros ctx' p' v' es' b' Hfd S' Hh'. cbv zeta in *. rewrite <- app_assoc.
      specialize (HQ (ctx' ++ [f]) p' v' es' b'). rewrite <- app_assoc in HQ.
      rewrite map_app, rev_app_distr in HQ. simpl in HQ. rewrite Hp, Hv. apply HQ; [done| |done].
      by apply (same_trans 0 0 b b1).
Qed.

Lemma search_loop_ok k n : forall t ctx b m path fuel (Q : _ -> PagedBTree.t S -> Prop),
  holds (pager b) m -> owns (size b) m (nodes (plug ctx t) 0) -> depth n t -> (n < fuel)%nat ->
  ordered None (plug ctx t) None -> within (ctx_lo ctx None) (ctx_hi ctx None) k ->
  (forall ctx' p v es b' path', found (plug ctx t) k (ctx' ++ ctx) p v es -> same 0 b b' -> holds (pager b') m ->
     Q (p, (binary_search_by key es k).2, path') b') ->
  runs (search_loop fuel k (page t) path) b Q.
Proof.
  induction n as [|n IH]; intros t ctx b m path fuel Q Hh Ho Hd Hf Hord Hk HQ;
    (destruct fuel as [|fuel]; [lia|]); cbn [search_loop]; apply runs_bind;
    (eapply (runs_read b m (page t, node_of t (ctx_nx ctx 0))); [exact Hh|by apply node_at|]);
    intros b1 S1 Hh1; destruct t as [p v es|p v cs r]; try done.
  - simpl. apply runs_ret. by apply (HQ [] p v es).
  - cbn [node_of snd page]. pose proof Hord as [_ Ht]%ordered_plug.
    destruct (route _ _ _ _ _ _ _ Ht Hk) as (f & c & Hfill & Hch & Hkc). rewrite Hch.
    rewrite Hfill in *. change (plug ctx (fill f c)) with (plug (f :: ctx) c) in *.
    eapply (IH c (f :: ctx) b1 m); [done|by rewrite (sm_size _ _ _ S1)|by apply depth_fill in Hd as [_ ?]|lia|done|done|].
    intros ctx' p' v' es' b' path' Hfd S' Hh'.
    apply (HQ (ctx' ++ [f]) p' v' es' b'); [by rewrite <- app_assoc| |done]. by apply (same_trans 0 0 b b1).
Qed.

(** ** The invariant of a table *)
Record table_ok (b : PagedBTree.t S) (m : gmap PageId bytes) (t : tree) (n : nat) : Prop := {
  ok_holds : holds (pager b) m;
  ok_owns : owns (size b) m (nodes t 0);
  ok_root : root_page_id b = page t;
  ok_stored : root_btree_page (pager b) = page t;
  ok_ordered : ordered None t None;
  ok_depth : depth n t;
  ok_config : config_ok b;
  ok_rows : is_u64 (row_count b) /\ btree_row_count (pager b) = row_count b }.

Lemma table_ok_same b b' m t n : table_ok b m t n -> same 0 b b' -> holds (pager b') m -> table_ok b' m t n.
Proof.
  intros [] Hs Hh. pose proof (config_same _ _ _ Hs ok_config0). destruct Hs.
  constructor; try congruence.
Qed.

Lemma search_with_path_ok b m t n k fuel (Q : _ -> PagedBTree.t S -> Prop) :
  table_ok b m t n -> (n < fuel)%nat ->
  (forall ctx p v es b' path', found t k ctx p v es -> same 0 b b' -> table_ok b' m t n ->
     Q (p, (binary_search_by key es k).2, path') b') ->
  runs (search_with_path fuel k) b Q.
Proof.
  intros Hok Hf HQ. unfold search_with_path. apply runs_bind, runs_ask. rewrite (ok_root _ _ _ _ Hok).
  pose proof Hok as Hok'. destruct Hok'. eapply (search_loop_ok k n t []); try done.
  intros ctx p v es b' path' Hfd Hs Hh'. rewrite app_nil_r in Hfd. apply (HQ ctx p v es); [done|done|].
  by eapply table_ok_same.
Qed.

Lemma validate_ok b m D l : holds (pager b) m -> size b = D ->
  Forall (fun e => exists n, holds_node D m (page_id e, n) /\ get_version n = version e) l ->
  runs (validate_loop l) b (fun r b' => r = true /\ same 0 b b' /\ holds (pager b') m).
Proof.
  intros Hh HD Hl. revert b Hh HD. induction Hl as [|e l (n & Hn & Hv) _ IH]; intros b Hh HD; cbn [validate_loop].
  { apply runs_ret. split_and!; [done|apply same_table_refl|done]. }
  apply runs_bind. eapply (runs_read b m (page_id e, n)); [exact Hh|by rewrite HD|].
  intros b1 S1 Hh1. simpl. rewrite Hv, Z.eqb_refl. eapply runs_mono; [|apply IH; [done|by rewrite (sm_size _ _ _ S1)]].
  intros r b' (-> & S2 & Hh2). split_and!; [done|by apply (same_trans 0 0 b b1)|done].
Qed.

Lemma ctx_versions ctx : forall pg fl nx D m, Forall (holds_node D m) (ctx_nodes ctx pg fl nx) ->
  Forall (fun e => exists n, holds_node D m (page_id e, n) /\ get_version n = version e) (map path_entry ctx).
Proof.
  induction ctx as [|f ctx IH]; intros pg fl nx D m Hl; simpl; [constructor|]. cbn [ctx_nodes] in Hl.
  apply Forall_cons in Hl as [Hf [_ Hl]%Forall_app]. constructor; [|by eapply IH].
  exists (frame_node f pg). split; [done|]. unfold frame_node. by destruct (f_post f) as [[[??]?]|].
Qed.

Lemma old_style_snoc l a b : old_style_path (l ++ [a; b])
  = (page_id a, page_id b) :: old_style_path (l ++ [a]).
Proof.
  unfold old_style_path. rewrite !length_app. cbn [length].
  replace (length l + 2 - 1)%nat with (length (l ++ [a])) by (rewrite length_app; simpl; lia).
  replace (length l + 1 - 1)%nat with (length l) by lia.
  replace (l ++ [a; b]) with ((l ++ [a]) ++ [b]) by (by rewrite <- app_assoc).
  rewrite !take_app_length. destruct l as [|x l]; [done|]. simpl.
  rewrite !drop_0, <- !app_assoc. simpl.
  assert (Hz : zip_with (fun parent child => (page_id parent, page_id child)) (x :: l ++ [a]) ((l ++ [a]) ++ [b])
    = zip_with (fun parent child => (page_id parent, page_id child)) (x :: l) (l ++ [a]) ++ [(page_id a, page_id b)]).
  { rewrite app_comm_cons. rewrite zip_with_app; [done|]. simpl. rewrite length_app. simpl. lia. }
  rewrite <- app_assoc in Hz. simpl in Hz. rewrite Hz. rewrite rev_app_distr. done.
Qed.

Lemma old_style_path_of ctx : forall e, old_style_path (rev (map path_entry ctx) ++ [e]) = path_of ctx (page_id e).
Proof.
  induction ctx as [|f ctx IH]; intros e; [done|]. simpl. rewrite <- app_assoc. simpl.
  rewrite old_style_snoc, IH. done.
Qed.

(** ** Changing a leaf *)
Lemma write_leaf_ok ctx p v es v' es' b m n (Q : unit -> PagedBTree.t S -> Prop) :
  table_ok b m (plug ctx (TLeaf p v es)) n -> is_u64 v' ->
  zlen (to_bytes (Leaf v' es' (ctx_nx ctx 0))) <= size b ->
  ordered (ctx_lo ctx None) (TLeaf p v' es') (ctx_hi ctx None) ->
  (forall b' m', same 0 b b' -> table_ok b' m' (plug ctx (TLeaf p v' es')) n -> untouched [p] m m' -> Q tt b') ->
  runs (write_node p (Leaf v' es' (ctx_nx ctx 0))) b Q.
Proof.
  intros Hok Hv Hz Ho HQ. pose proof (node_at _ _ _ _ (ok_owns _ _ _ _ Hok)) as (Hm & Hw & _). simpl in Hm, Hw.
  eapply runs_write; [apply Hok|by eexists|done|]. intros b' Hs Hh'.
  apply (HQ b' (<[p := to_bytes (Leaf v' es' (ctx_nx ctx 0))]> m)); [done| |apply untouched_insert; by left].
  pose proof (table_ok_same b b' m _ n Hok Hs) as Hcfg. destruct Hok. pose proof (config_same _ _ _ Hs ok_config0).
  assert (Hpg : page (plug ctx (TLeaf p v' es')) = page (plug ctx (TLeaf p v es))) by (by apply page_plug).
  assert (Hdep : depth n (plug ctx (TLeaf p v' es'))).
  { destruct (depth_plug_inv _ _ _ ok_depth0) as (d & -> & Hc & Hd). apply depth_plug. by split; [|destruct d]. }
  destruct Hs. constructor; try congruence.
  - rewrite sm_size0. rewrite nodes_plug in ok_owns0 |- *. simpl in ok_owns0 |- *.
    apply (owns_write _ _ _ (Leaf v es (ctx_nx ctx 0))); [done|by destruct Hw|done].
  - apply ordered_plug in ok_ordered0 as [? _]. by apply ordered_plug.
Qed.

Lemma count_ok b m t n f c (Q : unit -> PagedBTree.t S -> Prop) :
  table_ok b m t n -> f b = set_rows c b -> is_u64 c ->
  (forall b', table_ok b' m t n -> row_count b' = c -> size b' = size b -> next b' = next b ->
     max_order b' = max_order b -> Q tt b') ->
  runs (_ ← update f; n ← ask row_count; on_pager (set_btree_row_count n)) b Q.
Proof.
  intros Hok Hf Hc HQ. apply runs_bind, runs_update, runs_bind, runs_ask. rewrite Hf. simpl.
  eapply runs_pager; [apply set_rows_ok; [apply Hok|done]|]. intros [] s' (Hh & Hsz & Hnx & Hr & Hcnt).
  apply HQ; simpl in *; [|done..]. destruct Hok as [? ? ? ? ? ? [] ?]. constructor; simpl; try congruence; by constructor.
Qed.
Lemma increment_ok b m t n (Q : unit -> PagedBTree.t S -> Prop) :
  table_ok b m t n -> row_count b + 1 < 2 ^ 64 ->
  (forall b', table_ok b' m t n -> row_count b' = row_count b + 1 -> size b' = size b -> next b' = next b ->
     max_order b' = max_order b -> Q tt b') ->
  runs increment_row_count b Q.
Proof.
  intros Hok Hlt HQ. eapply count_ok; [done|done| |done]. destruct (ok_rows _ _ _ _ Hok). unfold fits in *. lia.
Qed.
Lemma decrement_ok b m t n (Q : unit -> PagedBTree.t S -> Prop) :
  table_ok b m t n ->
  (forall b', table_ok b' m t n -> row_count b' = Z.max 0 (row_count b - 1) -> size b' = size b ->
     next b' = next b -> max_order b' = max_order b -> Q tt b') ->
  runs decrement_row_count b Q.
Proof.
  intros Hok HQ. destruct (ok_rows _ _ _ _ Hok) as [Hu _].
  eapply (count_ok b m t n _ (Z.max 0 (row_count b - 1))); [done| |unfold fits in *; lia|done].
  destruct (Z.ltb_spec 0 (row_count b)); [f_equal; lia|].
  replace (Z.max 0 (row_count b - 1)) with (row_count b) by (unfold fits in Hu; lia). by destruct b.
Qed.

(** ** Inserting *)
Lemma sorted_contents b m t n : table_ok b m t n -> BTreeMap.sorted (contents t).
Proof. intros Hok. by destruct (contents_ordered _ _ _ (ok_ordered _ _ _ _ Hok)). Qed.

(** The map of the whole tree at a key is that of the key's leaf. *)
Lemma found_get t k ctx p v es : ordered None t None -> found t k ctx p v es ->
  BTreeMap.get (contents t) k = BTreeMap.get (map pair_of es) k.
Proof.
  intros Ho [<- [Hl Hh]]. apply ordered_plug in Ho as [Hc _]. rewrite contents_plug.
  apply get_middle; [by eapply ctx_before_lt|by eapply ctx_after_gt].
Qed.
Lemma found_insert t k ctx p v es c : ordered None t None -> found t k ctx p v es ->
  BTreeMap.insert (contents t) k c = ctx_before ctx ++ BTreeMap.insert (map pair_of es) k c ++ ctx_after ctx.
Proof.
  intros Ho [<- [Hl Hh]]. apply ordered_plug in Ho as [Hc _]. rewrite contents_plug.
  apply insert_middle; [by eapply ctx_before_lt|by eapply ctx_after_gt].
Qed.

(** The leaf of a key after its chain was replaced or added. *)
Lemma leaf_ordered_insert lo hi p v es v' es' k c :
  ordered lo (TLeaf p v es) hi -> within lo hi k ->
  map pair_of es' = BTreeMap.insert (map pair_of es) k c -> ordered lo (TLeaf p v' es') hi.
Proof.
  intros [Hs Hw] Hk He. simpl. rewrite <- (keys_pairs es'), He. split.
  - apply (BTreeMap.sorted_insert (map pair_of es)). unfold BTreeMap.sorted. by rewrite keys_pairs.
  - apply Forall_forall. intros e Hin.
    assert (Hke : key e ∈ BTreeMap.keys (map pair_of es')).
    { rewrite keys_pairs. apply list_elem_of_fmap. by exists e. }
    clear Hin. rename Hke into Hin. rewrite He in Hin.
    apply BTreeMap.elem_insert_key in Hin as [->|Hin]; [done|].
    rewrite keys_pairs in Hin. apply list_elem_of_fmap in Hin as (x & -> & Hx). rewrite Forall_forall in Hw. by apply Hw.
Qed.

(** A call of another thread that leaves the pages alone: a reader. *)
Definition readers (others : nat -> M unit) (m : gmap PageId bytes) (t : tree) (n : nat) : Prop :=
  forall i b, table_ok b m t n -> runs (others i) b (fun _ b' => same 0 b b' /\ table_ok b' m t n).

(** Room for an entry of [E] bytes in every node, and for every key as a
    separator; no node has [max_order] keys. *)
Record room (E : Z) (b : PagedBTree.t S) (t : tree) : Prop := {
  rm_slim : slim E (nodes t 0);
  rm_room : roomy E (size b) (nodes t 0);
  rm_few : few (max_order b) (nodes t 0);
  rm_next : next b + Z.of_nat (length (nodes t 0)) + 2 < 2 ^ 64;
  rm_rows : row_count b + 1 < 2 ^ 64 }.

(** A new key is a new row. *)
Definition inserted_rows (b : PagedBTree.t S) (t : tree) (k : bytes) : Z :=
  row_count b + (if decide (BTreeMap.get (contents t) k = None) then 1 else 0).

(** A call changed the table so that it holds [l] and counts [rows] rows. *)
Record changed (E : Z) (b b' : PagedBTree.t S) (m : gmap PageId bytes) (t : tree) (n : nat)
    (l : BTreeMap.t VersionChain.t) (rows : Z) (m' : gmap PageId bytes) (t' : tree) (n' : nat) : Prop := {
  ch_ok : table_ok b' m' t' n';
  ch_contents : contents t' = l;
  ch_depth : (n' <= n + 1)%nat;
  ch_rows : row_count b' = rows;
  ch_untouched : untouched (map fst (nodes t 0)) m m';
  ch_slim : slim E (nodes t' 0);
  ch_few : few (max_order b') (nodes t' 0);
  ch_next : next b' <= next b + Z.of_nat n + 2;
  ch_size : size b' = size b;
  ch_order : max_order b' = max_order b }.

Lemma ctx_length ctx : forall pg fl nx, (length ctx <= length (ctx_nodes ctx pg fl nx))%nat.
Proof.
  induction ctx as [|f ctx IH]; intros pg fl nx; simpl; [lia|]. rewrite length_app.
  specialize (IH (f_page f) (frame_first f fl) nx). lia.
Qed.

(** The leaf was written: it is split up to the root when it is too big. *)
Lemma split_if_big E ctx p v es b m n (Q : unit -> PagedBTree.t S -> Prop) :
  let t := plug ctx (TLeaf p v es) in
  table_ok b m t n -> slim E (nodes t 0) -> roomy E (size b) (ctx_nodes ctx p p 0) -> 21 + E <= size b ->
  next b + Z.of_nat (length ctx) + 2 < 2 ^ 64 ->
  zlen es <= max_order b -> few (max_order b) (ctx_nodes ctx p p 0) ->
  (forall b' m' t' n', table_ok b' m' t' n' -> (n' <= n + 1)%nat -> contents t' = contents t ->
     row_count b' = row_count b -> size b' = size b -> max_order b' = max_order b ->
     untouched (map fst (nodes t 0)) m m' -> slim E (nodes t' 0) -> few (max_order b) (nodes t' 0) ->
     next b' <= next b + Z.of_nat n + 2 -> Q tt b') ->
  let node := Leaf v es (ctx_nx ctx 0) in
  runs (if is_full node (max_order b) || negb (node_fits_in_page b node)
        then split_and_propagate (path_of ctx p) p node else mret tt) b Q.
Proof.
  intros t Hok Hsl Hrm HE Hn Hes Hfc HQ node. destruct (is_full _ _ || _) eqn:Hbig.
  - destruct (depth_plug_inv _ _ _ (ok_depth _ _ _ _ Hok)) as (d & Hd & Hcd & Hld).
    pose proof Hok as [].
    eapply (propagate_ok E ctx (TLeaf p v es) b m d); try done.
    + by eapply (too_big_splittable b (TLeaf p v es) (ctx_nx ctx 0)).
    + by apply Forall_nil.
    + intros b' m' t' n' Hh' Ho' M' Hord' Hd' Hn' Hc' Hu' Hsl' Hf' Hx'. apply (HQ b' m' t' n'); try done.
      * destruct M'. constructor; try done; [by rewrite mv_size0|by apply mv_sroot0; congruence| |].
        -- destruct ok_config0. constructor; congruence.
        -- by rewrite mv_rows0, mv_srows0.
      * lia.
      * by destruct M'.
      * by destruct M'.
      * by destruct M'.
      * lia.
  - apply runs_ret. apply (HQ b m t n); try done; [lia| |lia].
    unfold t. rewrite nodes_plug, few_app, few_nodes. apply orb_false_iff in Hbig as [Hbig%Z.leb_gt _].
    split_and!; [done|by apply Forall_nil|done].
Qed.

(** The pages and keys of a tree when one leaf is replaced. *)
Lemma leaf_pages ctx p v es v' es' :
  map fst (nodes (plug ctx (TLeaf p v' es')) 0) ≡ₚ map fst (nodes (plug ctx (TLeaf p v es)) 0).
Proof. rewrite !nodes_plug, !map_app. done. Qed.
Lemma leaf_slim E ctx p v es v' es' :
  Forall (fun k => 12 + zlen k <= E) (map key es') ->
  slim E (nodes (plug ctx (TLeaf p v es)) 0) -> slim E (nodes (plug ctx (TLeaf p v' es')) 0).
Proof.
  rewrite !nodes_plug, !slim_app. intros Hk [_ Hc]. split; [|done]. simpl. by constructor.
Qed.

(** The leaf with the new version is written, split and counted. *)
Lemma insert_at_leaf E b m t n ctx p v es k value tx lsn :
  let c := new_chain (BTreeMap.get (contents t) k) value tx lsn in
  table_ok b m t n -> found t k ctx p v es -> room E b t ->
  8 + zlen k + zlen (chain_to_bytes c) <= E -> 12 + zlen k <= E ->
  runs (let '(entries, is_new_key) := leaf_insert es k value tx lsn in
        let modified_node := Leaf (PageVersion_increment v) entries (ctx_nx ctx 0) in
        _ ← write_node p modified_node;
        b ← ask (fun b => b);
        _ ← (if is_full modified_node (max_order b) || negb (node_fits_in_page b modified_node)
             then split_and_propagate (path_of ctx p) p modified_node else mret tt);
        if is_new_key then increment_row_count else mret tt) b
    (fun _ b' => exists m' t' n', changed E b b' m t n (BTreeMap.insert (contents t) k c) (inserted_rows b t k) m' t' n').
Proof.
  intros c Hok Hfd [Rs Rr Rf Rn Rc] HE Hk. pose proof Hfd as [Ht Hkin].
  pose proof (ok_ordered _ _ _ _ Hok) as Hord. pose proof Hord as Hord'. rewrite <- Ht in Hord'.
  apply ordered_plug in Hord' as [_ Hleaf]. pose proof (leaf_insert_map es k value tx lsn (proj1 Hleaf)) as Hli.
  rewrite (surjective_pairing (leaf_insert es k value tx lsn)) in Hli |- *.
  set (es' := (leaf_insert es k value tx lsn).1) in *. set (is_new := (leaf_insert es k value tx lsn).2) in *.
  rewrite <- (found_get t k ctx p v es Hord Hfd) in Hli.
  destruct Hli as (Hes' & Hnew & es1 & es2 & mid & He & _ & He').
  change (new_chain (BTreeMap.get (contents t) k) value tx lsn) with c in Hes', He'.
  pose proof (leaf_ordered_insert _ _ p v es (PageVersion_increment v) es' k c Hleaf Hkin Hes') as Hleaf'.
  rewrite <- Ht in Rr, Rn, Rf. rewrite nodes_plug in Rr, Rn, Rf. apply few_app in Rf as [[Rfl _]%few_nodes Rfc]. apply Forall_app in Rr as [[Rleaf _]%Forall_cons Rctx].
  cbn [snd] in Rleaf. cbn [page first_leaf] in Rctx. rewrite zlen_node in Rleaf. cbn [node_of entries_size] in Rleaf.
  assert (Hsz : zlen (to_bytes (Leaf (PageVersion_increment v) es' (ctx_nx ctx 0))) <= size b).
  { rewrite zlen_node. cbn [entries_size]. rewrite He in Rleaf. rewrite He'. rewrite !zlen_mjoin_app in *. simpl.
    rewrite zlen_app, zlen_leaf_bytes. cbn [key chain]. pose proof (zlen_nonneg (mjoin (map leaf_bytes mid))). lia. }
  cbv zeta. rewrite <- Ht in Hok. apply runs_bind.
  eapply write_leaf_ok; [exact Hok|apply increment_u64|done|exact Hleaf'|].
  intros b5 m5 S5 Hok5 Hu5. apply runs_bind, runs_ask, runs_bind. pose proof (sm_size _ _ _ S5) as Z5.
  eapply split_if_big with (E := E); [exact Hok5| |by rewrite Z5| | | |by rewrite (sm_order _ _ _ S5)|].
  - rewrite <- Ht in Rs. apply (leaf_slim E ctx p v es); [|done].
    rewrite nodes_plug, slim_app in Rs. destruct Rs as [[Rl _]%Forall_cons _]. simpl in Rl.
    rewrite He in Rl. rewrite He'. rewrite !map_app, !Forall_app in *. simpl. rewrite Forall_cons. tauto.
  - rewrite Z5. pose proof (zlen_nonneg (mjoin (map leaf_bytes es))). lia.
  - rewrite (sm_next _ _ _ S5). pose proof (ctx_length ctx p p 0). rewrite length_app in Rn. simpl in Rn. lia.
  - rewrite (sm_order _ _ _ S5). unfold keys_of in Rfl. cbn [node_of key_count] in Rfl.
    rewrite He in Rfl. rewrite He'. revert Rfl. unfold zlen. rewrite !length_app. simpl. lia.
  - intros b6 m6 t6 n6 Hok6 Hn6 Hc6 Hr6 Hsz6 Ho6 Hu6 Hsl6 Hf6 Hx6. rewrite (sm_rows _ _ _ S5) in Hr6.
    assert (Hdone : forall b7, table_ok b7 m6 t6 n6 -> row_count b7 = row_count b + (if is_new then 1 else 0) ->
      size b7 = size b -> next b7 = next b6 -> max_order b7 = max_order b6 -> exists m' t' n', changed E b b7 m t n (BTreeMap.insert (contents t) k c) (inserted_rows b t k) m' t' n').
    { intros b7 Hok7 Hr7 Hsz7 Hx7 Ho7. exists m6, t6, n6. constructor; try done.
      - rewrite Hc6, (found_insert t k ctx p v es c Hord Hfd), contents_plug. simpl. by rewrite Hes'.
      - unfold inserted_rows. rewrite Hr7, Hnew. case_decide; [by rewrite bool_decide_eq_true_2|by rewrite bool_decide_eq_false_2].
      - rewrite <- Ht. eapply untouched_trans; [eapply untouched_mono; [|exact Hu5]|eapply untouched_mono; [|exact Hu6]].
        + intros q ->%list_elem_of_singleton. rewrite nodes_plug, map_app. apply elem_of_app. left.
          apply (page_in_nodes (TLeaf p v es)).
        + intros q. by rewrite leaf_pages.
      - by rewrite Ho7, Ho6.
      - rewrite Hx7. rewrite (sm_next _ _ _ S5) in Hx6. lia.
      - by rewrite Ho7, Ho6, (sm_order _ _ _ S5). }
    destruct is_new.
    + eapply increment_ok; [exact Hok6|lia|]. intros b7 Hok7 Hr7 Hsz7 Hx7 Ho7. apply Hdone; [done|lia|congruence|done|done].
    + apply runs_ret, Hdone; [done|lia|congruence|done|done].
Qed.

Lemma insert_loop_ok E others fuel tries b m t n k value tx lsn :
  let c := new_chain (BTreeMap.get (contents t) k) value tx lsn in
  table_ok b m t n -> (n < fuel)%nat -> readers others m t n -> room E b t ->
  8 + zlen k + zlen (chain_to_bytes c) <= E -> 12 + zlen k <= E ->
  runs (insert_loop others fuel (Datatypes.S tries) k value tx lsn) b (fun _ b' =>
    exists m' t' n', changed E b b' m t n (BTreeMap.insert (contents t) k c) (inserted_rows b t k) m' t' n').
Proof.
  intros c Hok Hf Hrd Hroom HE Hk. cbn [insert_loop].
  unfold search_optimistic. apply runs_bind, runs_bind, runs_ask. rewrite (ok_root _ _ _ _ Hok).
  pose proof Hok as Hok0. destruct Hok0. eapply (optimistic_ok k n t []); try done.
  intros ctx p v es b1 Hfd S1 Hh1. rewrite app_nil_r in Hfd. cbv zeta. change (plug [] t) with t in Hfd.
  pose proof (table_ok_same _ _ _ _ _ Hok S1 Hh1) as Hok1. simpl.
  apply runs_bind. eapply runs_mono; [|by apply Hrd]. intros _ b2 [S2 Hok2].
  pose proof (same_trans 0 0 _ _ _ S1 S2) as S02. pose proof (ok_owns _ _ _ _ Hok2) as Ho2.
  destruct Hfd as [Ht Hkin]. rewrite <- Ht, nodes_plug in Ho2.
  apply runs_bind. unfold validate_optimistic_path. rewrite rev_app_distr, rev_involutive. simpl. rewrite drop_0.
  eapply runs_mono; [|eapply validate_ok; [apply Hok2|done|]].
  2: { destruct Ho2 as [_ Ho2]. apply Forall_app in Ho2 as [_ Ho2]. by eapply ctx_versions. }
  intros r b3 (-> & S3 & Hh3). cbn [negb]. pose proof (table_ok_same _ _ _ _ _ Hok2 S3 Hh3) as Hok3.
  pose proof (same_trans 0 0 _ _ _ S02 S3) as S03. apply runs_bind.
  eapply (runs_read b3 m (p, Leaf v es (ctx_nx ctx 0))); [done| |].
  { apply (node_at ctx (TLeaf p v es)). rewrite Ht. apply Hok3. }
  intros b4 S4 Hh4. pose proof (table_ok_same _ _ _ _ _ Hok3 S4 Hh4) as Hok4.
  pose proof (same_trans 0 0 _ _ _ S03 S4) as S04. cbn [snd].
  rewrite old_style_path_of. cbn [page_id].
  eapply runs_mono; [|apply (insert_at_leaf E b4 m t n ctx p v es k value tx lsn Hok4); try done].
  - intros _ b' (m' & t' & n' & []). exists m', t', n'.
    unfold inserted_rows in *. destruct S04. constructor; try done; try congruence. lia.
  - destruct Hroom, S04. constructor; rewrite ?sm_size0, ?sm_rows0, ?sm_next0, ?sm_order0; try done. lia.
Qed.

End Laws.
End BTreeLaws.
