(* ===== verification/BTreeLeaves.v ===== *)
(** * The chain of leaves of a paged B-tree

    The leaves of a tree from left to right, linked by their [next_leaf]
    fields, and the pass over them that stamps the versions of a transaction
    with its commit LSN. *)
From stdpp Require Import sorting.
From S2P Require Import Prelude Types Page Mvcc OrdMap MemTables PageStore BTreeNode BTree BTreeShape BTreeLaws.

Module Leaves.
Import BTreeNode PagedBTree Shape BTreeLaws.

Record leaf : Type := LeafAt { l_page : PageId; l_version : Z; l_entries : list LeafEntry }.

Fixpoint leaves (t : tree) : list leaf :=
  match t with
  | TLeaf p v es => [LeafAt p v es]
  | TNode _ _ cs r => mjoin (map (fun x => let '(c, _) := x in leaves c) cs) ++ leaves r
  end.
Fixpoint inner (t : tree) : list (PageId * BTreeNode.t) :=
  match t with
  | TLeaf _ _ _ => []
  | TNode p v cs r =>
      (p, Internal v (map entry_of cs) (page r)) :: mjoin (map (fun x => let '(c, _) := x in inner c) cs) ++ inner r
  end.

Definition head_page (l : list leaf) (nx : PageId) : PageId :=
  match l with x :: _ => l_page x | [] => nx end.
Fixpoint link_leaves (l : list leaf) (nx : PageId) : list (PageId * BTreeNode.t) :=
  match l with
  | [] => []
  | x :: l => (l_page x, Leaf (l_version x) (l_entries x) (head_page l nx)) :: link_leaves l nx
  end.

Lemma link_leaves_app l k nx : link_leaves (l ++ k) nx = link_leaves l (head_page k nx) ++ link_leaves k nx.
Proof. induction l as [|x l IH]; simpl; [done|]. rewrite IH. by destruct l. Qed.

Lemma head_leaves t : forall l nx, head_page (leaves t ++ l) nx = first_leaf t.
Proof.
  induction t as [p v es|p v cs r IHcs IHr] using tree_ind'; intros l nx; [done|].
  simpl. destruct cs as [|[c k] cs]; simpl; [apply IHr|]. apply Forall_cons in IHcs as [IHc _].
  rewrite <- !app_assoc. apply IHc.
Qed.
Lemma head_leaves' t nx : head_page (leaves t) nx = first_leaf t.
Proof. rewrite <- (app_nil_r (leaves t)). apply head_leaves. Qed.

Lemma nodes_leaves t : forall nx, nodes t nx ≡ₚ link_leaves (leaves t) nx ++ inner t.
Proof.
  induction t as [p v es|p v cs r IHcs IHr] using tree_ind'; intros nx; [done|].
  rewrite nodes_TNode. cbn [leaves inner]. rewrite <- Permutation_middle. apply perm_skip.
  induction IHcs as [|[c k] cs IHc _ IH]; simpl; [apply IHr|]. simpl in IHc.
  rewrite <- app_assoc, link_leaves_app, (IHc (first_of cs r)), IH.
  replace (head_page _ nx) with (first_of cs r).
  - rewrite <- !app_assoc. apply Permutation_app_head.
    rewrite !app_assoc. do 2 apply Permutation_app_tail. apply Permutation_app_comm.
  - destruct cs as [|[d k'] cs]; simpl; [by rewrite head_leaves'|]. by rewrite <- app_assoc, head_leaves.
Qed.

Lemma contents_leaves t : contents t = mjoin (map (fun x => map pair_of (l_entries x)) (leaves t)).
Proof.
  induction t as [p v es|p v cs r IHcs IHr] using tree_ind'; simpl; [by rewrite app_nil_r|].
  rewrite map_app, mjoin_app, <- IHr. f_equal.
  induction IHcs as [|[c k] cs IHc _ IH]; simpl in *; [done|].
  by rewrite map_app, mjoin_app, <- IHc, IH.
Qed.

Lemma leaves_nonempty t : leaves t <> [].
Proof.
  induction t as [p v es|p v cs r IHcs IHr] using tree_ind'; simpl; [done|]. intros [_ ?]%app_eq_nil. done.
Qed.

(** ** A change to every leaf *)
Section Stamp.
Variable g : VersionChain.t -> VersionChain.t.

Definition stamp (e : LeafEntry) : LeafEntry := set_chain (g (chain e)) e.
Definition stamp_leaf (x : leaf) : leaf :=
  LeafAt (l_page x) (PageVersion_increment (l_version x)) (map stamp (l_entries x)).
Fixpoint stamp_tree (t : tree) : tree :=
  match t with
  | TLeaf p v es => TLeaf p (PageVersion_increment v) (map stamp es)
  | TNode p v cs r => TNode p v (map (fun x => let '(c, k) := x in (stamp_tree c, k)) cs) (stamp_tree r)
  end.

Lemma stamp_page t : page (stamp_tree t) = page t.
Proof. by destruct t. Qed.
Lemma stamp_keys es : map key (map stamp es) = map key es.
Proof. rewrite map_map. by apply map_ext. Qed.

Lemma stamp_leaves t : leaves (stamp_tree t) = map stamp_leaf (leaves t).
Proof.
  induction t as [p v es|p v cs r IHcs IHr] using tree_ind'; simpl; [done|].
  rewrite map_app, <- IHr. f_equal.
  induction IHcs as [|[c k] cs IHc _ IH]; simpl in *; [done|]. by rewrite map_app, <- IHc, IH.
Qed.
Lemma stamp_inner t : inner (stamp_tree t) = inner t.
Proof.
  induction t as [p v es|p v cs r IHcs IHr] using tree_ind'; simpl; [done|]. rewrite stamp_page, IHr. do 2 f_equal.
  - f_equal. rewrite map_map. apply map_ext. intros [c k]. unfold entry_of. simpl. by rewrite stamp_page.
  - f_equal. induction IHcs as [|[c k] cs IHc _ IH]; simpl in *; [done|]. by rewrite IHc, IH.
Qed.
Lemma stamp_contents t : contents (stamp_tree t) = map (fun x => (x.1, g x.2)) (contents t).
Proof.
  rewrite !contents_leaves, stamp_leaves, map_map. induction (leaves t) as [|x l IH]; simpl; [done|].
  rewrite map_app, <- IH. f_equal. rewrite !map_map. by apply map_ext.
Qed.
Lemma stamp_depth t : forall n, depth n t -> depth n (stamp_tree t).
Proof.
  induction t as [p v es|p v cs r IHcs IHr] using tree_ind'; intros [|n]; try done.
  cbn [stamp_tree]. rewrite !depth_TNode. intros [Hcs Hr]. split; [|auto]. apply Forall_map.
  rewrite Forall_forall in IHcs. rewrite Forall_forall in Hcs. apply Forall_forall. intros [c k] Hx. simpl.
  apply (IHcs _ Hx), (Hcs _ Hx).
Qed.
Lemma stamp_last_key lo cs : last_key lo (map (fun x => let '(c, k) := x in (stamp_tree c, k)) cs) = last_key lo cs.
Proof. unfold last_key. change (map ?f cs) with (f <$> cs). rewrite fmap_last. destruct (last cs) as [[c k]|]; done. Qed.
Lemma stamp_ordered t : forall lo hi, ordered lo t hi -> ordered lo (stamp_tree t) hi.
Proof.
  induction t as [p v es|p v cs r IHcs IHr] using tree_ind'; intros lo hi.
  - simpl. rewrite stamp_keys, Forall_map. done.
  - cbn [stamp_tree]. rewrite !ordered_TNode, stamp_last_key. intros [Hcs Hr]. split; [|auto]. clear IHr Hr.
    revert lo Hcs. induction IHcs as [|[c k] cs IHc _ IH]; intros lo; simpl; [done|].
    intros (? & ? & Hc & Hcs). auto.
Qed.
End Stamp.

Section Laws.
Context {S : Type} `{PageStoreLaws S} `{ChainCodecLaws} {faults : Prop} `{!Admits faults}.
Abbreviation runs := (BTreeLaws.runs (faults := faults)).
Abbreviation size b := (data_size (pager b)).
Variables (tx : TransactionId) (lsn : LogSequenceNumber).

Definition committed (c : VersionChain.t) : VersionChain.t := commit_chain_recursive c tx lsn.

(** The stamped leaves fit in their pages. *)
Definition leaves_fit (D : Z) (l : list leaf) : Prop :=
  Forall (fun x => 21 + zlen (mjoin (map leaf_bytes (l_entries (stamp_leaf committed x)))) <= D) l.

Lemma leftmost_ok : forall n t nx rest b m fuel (Q : PageId -> PagedBTree.t S -> Prop),
  holds (pager b) m -> owns (size b) m (nodes t nx ++ rest) -> depth n t -> (n < fuel)%nat ->
  (forall b', same 0 b b' -> holds (pager b') m -> Q (first_leaf t) b') ->
  runs (leftmost_leaf fuel (page t)) b Q.
Proof.
  induction n as [|n IH]; intros t nx rest b m fuel Q Hh Ho Hd Hf HQ;
    (destruct fuel as [|fuel]; [lia|]); cbn [leftmost_leaf]; apply runs_bind;
    (eapply (runs_read b m (page t, node_of t nx));
       [exact Hh|eapply owns_in; [exact Ho|rewrite nodes_eq; by left]|]);
    intros b1 S1 Hh1; destruct t as [p v es|p v cs r]; try done; cbn [node_of snd].
  - by apply runs_ret, HQ.
  - apply depth_TNode in Hd as [Hcs Hr]. rewrite nodes_TNode in Ho.
    destruct cs as [|[c k] cs]; cbn [map entry_of child_page_id fst].
    + eapply (IH r nx ((p, Internal v [] (page r)) :: rest)); [done| |done|lia|].
      * rewrite (sm_size _ _ _ S1). simpl in Ho. by rewrite <- Permutation_middle.
      * intros b2 S2 Hh2. apply HQ; [by apply (same_trans 0 0 b b1)|done].
    + apply Forall_cons in Hcs as [Hc _]. simpl children_nodes in Ho.
      eapply (IH c (first_of cs r) ((p, _) :: children_nodes cs r nx ++ rest)); [done| |done|lia|].
      * rewrite (sm_size _ _ _ S1), <- Permutation_middle. simpl in Ho. by rewrite <- app_assoc in Ho.
      * intros b2 S2 Hh2. apply HQ; [by apply (same_trans 0 0 b b1)|done].
Qed.

Lemma commit_leaves_ok : forall l rest b m fuel (Q : unit -> PagedBTree.t S -> Prop),
  l <> [] -> holds (pager b) m -> owns (size b) m (link_leaves l 0 ++ rest) -> leaves_fit (size b) l ->
  (length l <= fuel)%nat ->
  (forall b' m', same 0 b b' -> holds (pager b') m' ->
     owns (size b') m' (link_leaves (map (stamp_leaf committed) l) 0 ++ rest) ->
     untouched (map l_page l) m m' -> Q tt b') ->
  runs (commit_leaves fuel (head_page l 0) tx lsn) b Q.
Proof.
  induction l as [|[p v es] l IH]; [done|]. intros rest b m fuel Q _ Hh Ho [Hz Hfit]%Forall_cons Hf HQ.
  destruct fuel as [|fuel]; [simpl in Hf; lia|]. cbn [commit_leaves head_page l_page link_leaves] in *.
  assert (Hin : holds_node (size b) m (p, Leaf v es (head_page l 0))) by (eapply owns_in; [exact Ho|by left]).
  apply runs_bind. eapply (runs_read b m (p, _)); [exact Hh|exact Hin|]. intros b1 S1 Hh1. cbn [snd l_version l_entries].
  set (n' := Leaf _ _ _). assert (Hn' : zlen (to_bytes n') <= size b).
  { unfold n'. rewrite zlen_node. exact Hz. }
  destruct Hin as (Hp & [_ Hnx] & _). simpl in Hp.
  apply runs_bind. eapply (runs_write b1 m p n'); [exact Hh1|by eexists|by rewrite (sm_size _ _ _ S1)|].
  intros b2 S2 Hh2. pose proof (same_trans 0 0 _ _ _ S1 S2) as S02. pose proof (sm_size _ _ _ S02) as Z2.
  assert (Ho2 : owns (size b2) (<[p := to_bytes n']> m) (link_leaves l 0 ++ (p, n') :: rest)).
  { rewrite Z2, <- Permutation_middle. eapply owns_write; [exact Ho| |done]. split; [apply increment_u64|done]. }
  destruct l as [|x l].
  - simpl. apply runs_ret. apply (HQ b2 (<[p := to_bytes n']> m)); try done.
    apply untouched_insert. by left.
  - assert (Hx : 0 < head_page (x :: l) 0).
    { apply (next_page_fresh _ _ _ Hh2). destruct (owns_in _ _ _ (l_page x, Leaf (l_version x) (l_entries x) (head_page l 0)) Ho2) as [Hm _].
      { by left. } by eexists. }
    rewrite (proj2 (Z.eqb_neq _ _)) by lia.
    eapply (IH ((p, n') :: rest) b2); [done|exact Hh2|exact Ho2|by rewrite Z2|simpl in *; lia|].
    intros b' m' S' Hh' Ho' Hu'. apply (HQ b' m'); [by apply (same_trans 0 0 b b2)|done| |].
    + by rewrite <- Permutation_middle in Ho'.
    + eapply untouched_trans; [apply untouched_insert; by left|]. eapply untouched_mono; [|exact Hu'].
      intros q Hq. by right.
Qed.

Lemma inner_page t : Forall (fun x => x ∈ map fst (nodes t 0)) (map l_page (leaves t)).
Proof.
  apply Forall_forall. intros q Hq. rewrite nodes_leaves, map_app. apply elem_of_app. left.
  clear -Hq. induction (leaves t) as [|x l IH]; simpl in *; [done|]. apply elem_of_cons in Hq as [->|Hq]; [by left|right; auto].
Qed.

(** Committing stamps every version of the transaction, on every leaf, and
    nothing else. *)
Lemma commit_ok b m t n fuel : table_ok b m t n -> (n < fuel)%nat -> (length (leaves t) <= fuel)%nat ->
  leaves_fit (size b) (leaves t) ->
  runs (commit_versions_for_tx fuel tx lsn) b (fun _ b' => exists m',
    table_ok b' m' (stamp_tree committed t) n /\ same 0 b b' /\ untouched (map fst (nodes t 0)) m m').
Proof.
  intros Hok Hn Hl Hfit. pose proof Hok as []. unfold commit_versions_for_tx. apply runs_bind, runs_ask.
  rewrite ok_root0. apply runs_bind.
  eapply (leftmost_ok n t 0 []); [done|by rewrite app_nil_r|done|done|]. intros b1 S1 Hh1.
  rewrite <- (head_leaves' t 0). pose proof (sm_size _ _ _ S1) as Z1.
  eapply (commit_leaves_ok _ (inner t)); [apply leaves_nonempty|done|by rewrite Z1, <- nodes_leaves|by rewrite Z1|done|].
  intros b' m' S' Hh' Ho' Hu'. pose proof (same_trans 0 0 _ _ _ S1 S') as S0. exists m'. split_and!; [|done|].
  - pose proof (config_same _ _ _ S0 ok_config0). destruct S0.
    constructor; rewrite ?stamp_page; try congruence.
    + by rewrite nodes_leaves, stamp_leaves, stamp_inner.
    + by apply stamp_ordered.
    + by apply stamp_depth.
  - eapply untouched_mono; [|exact Hu']. intros q Hq. pose proof (inner_page t) as Hi. rewrite Forall_forall in Hi. auto.
Qed.
End Laws.
End Leaves.
