(* ===== verification/BTreeReads.v ===== *)
(** * Reads, deletions and commits of the paged B-tree

    What the operations do to the map a table stands for, and the theorem
    that sequences of them refine an ordered map of version chains. *)
From stdpp Require Import sorting.
From S2P Require Import Prelude Types Page Mvcc OrdMap MemTables MemTableLaws PageStore BTreeNode BTree BTreeOps BTreeWriter BTreeShape BTreeLaws.

Module BTreeReads.
Import BTreeNode PagedBTree PagedBTreeWriter Shape BTreeLaws.

(** ** One leaf *)
Lemma leaf_lookup es k : StronglySorted key_lt (map key es) ->
  let i := (binary_search_by key es k).2 in
  (exists es1 e es2, es = es1 ++ e :: es2 /\ i = length es1 /\ key e = k /\
     Forall (fun x => key_lt (key x) k) es1 /\ BTreeMap.get (map pair_of es) k = Some (chain e)) \/
  (BTreeMap.get (map pair_of es) k = None /\ forall e, es !! i = Some e -> key e <> k).
Proof.
  intros Hs. destruct (binary_search_by key es k) as [b i] eqn:Hb. pose proof (leaf_search _ _ _ _ Hs Hb) as Hl.
  simpl. destruct b.
  - left. destruct Hl as (es1 & e & es2 & -> & -> & He & H1 & H2). exists es1, e, es2. split_and!; try done.
    rewrite map_app, get_skip by (by apply Forall_map). simpl. by rewrite He, bytes_eqb_refl.
  - right. destruct Hl as (Hes & H1 & H2). split.
    + rewrite Hes, map_app, get_skip by (by apply Forall_map). apply BTreeMap.get_None.
      rewrite keys_pairs. intros (x & -> & Hx)%list_elem_of_fmap. rewrite Forall_forall in H2.
      by apply (key_lt_irrefl _ (H2 _ Hx)).
    + intros e He Hk. rewrite (drop_S _ _ _ He) in H2. apply Forall_cons in H2 as [H2 _]. rewrite Hk in H2.
      by apply (key_lt_irrefl k).
Qed.

Lemma leaf_replace es1 e es2 c : Forall (fun x => key_lt (key x) (key e)) es1 ->
  map pair_of (es1 ++ set_chain c e :: es2) = BTreeMap.insert (map pair_of (es1 ++ e :: es2)) (key e) c.
Proof.
  intros Hl. rewrite !map_app, insert_skip by (by apply Forall_map). simpl. unfold pair_of at 2. simpl.
  assert (Hkk : key_ltb (key e) (key e) = false) by (apply key_ltb_false; by left).
  by rewrite Hkk, bytes_eqb_refl.
Qed.

(** A value that does not look like a reference is returned as it is. *)
Lemma resolve_plain {S} `{PageStore S} v : is_external_value v = false -> resolve_value (S := S) v = mret v.
Proof.
  intros Hx. unfold resolve_value. destruct v as [|x v]; [done|]. cbn [is_external_value] in Hx.
  apply orb_false_iff in Hx as [H1 H2]. destruct (1 <=? _); [|done]. cbn [andb].
  destruct (_ || _); [|done]. unfold ValueRef.decode.
  rewrite (proj2 (Z.eqb_neq (zlen (x :: v)) 0)) by (rewrite zlen_cons; pose proof (zlen_nonneg v); lia).
  cbn [negb ensure].
  change (index 0 (x :: v)) with (Ok (E := ValueRef.DecodeError) x). cbn [mbind outcome_bind].
  destruct (x =? ValueRef.TYPE_INLINE) eqn:E0; [destruct (zlen _ =? 1); done|].
  change ValueRef.TYPE_SINGLE_PAGE with 1. change ValueRef.TYPE_OVERFLOW_CHAIN with 2.
  destruct (x =? 1); [cbn [andb] in H1; by rewrite H1|]. destruct (x =? 2); [cbn [andb] in H2; by rewrite H2|]. done.
Qed.

(** The value a read at an LSN finds under a key. *)
Definition value_at (l : BTreeMap.t VersionChain.t) (k : bytes) (lsn : LogSequenceNumber) : option bytes :=
  filled (Reads.shown (BTreeMap.get l k) lsn).

Section Laws.
Context {S : Type} `{PageStoreLaws S} `{ChainCodecLaws} {faults : Prop} `{!Admits faults}.
Abbreviation runs := (BTreeLaws.runs (faults := faults)).

Abbreviation size b := (data_size (pager b)).
Abbreviation next b := (next_page_id (pager b)).

(** A search reads the leaf of its key. *)
Lemma search_leaf_ok {A} fuel b m t n k g (f : PageId -> nat -> BTreeNode.t -> fuelled (PagedBTree.t S) TableError A) Q :
  (forall p i path, g (p, i, path) = (read_node p ≫= f p i)) -> table_ok b m t n -> (n < fuel)%nat ->
  (forall ctx p v es b', found t k ctx p v es -> StronglySorted key_lt (map key es) ->
     BTreeMap.get (contents t) k = BTreeMap.get (map pair_of es) k -> same 0 b b' -> table_ok b' m t n ->
     runs (f p (binary_search_by key es k).2 (Leaf v es (ctx_nx ctx 0))) b' Q) ->
  runs (search_with_path fuel k ≫= g) b Q.
Proof.
  intros Hg Hok Hf HQ. apply runs_bind. eapply search_with_path_ok; [done|done|].
  intros ctx p v es b1 path Hfd S1 Hok1. rewrite Hg. apply runs_bind. pose proof Hfd as [Ht _].
  eapply (runs_read b1 m (p, Leaf v es (ctx_nx ctx 0))); [apply Hok1| |].
  { apply (node_at ctx (TLeaf p v es)). rewrite Ht. apply Hok1. }
  intros b2 S2 Hh2. pose proof (ok_ordered _ _ _ _ Hok) as Hord. apply (HQ ctx p v es b2); try done.
  - rewrite <- Ht in Hord. apply ordered_plug in Hord as [_ Hl]. apply Hl.
  - by apply (found_get t k ctx p v es).
  - by apply (same_trans 0 0 b b1).
  - by eapply table_ok_same.
Qed.

Lemma runs_eq {A} (m1 m2 : fuelled (PagedBTree.t S) TableError A) b Q : m1 b = m2 b -> runs m2 b Q -> runs m1 b Q.
Proof. unfold runs. by intros ->. Qed.

Lemma search_bind {A} fuel k (f : PageId * nat -> fuelled (PagedBTree.t S) TableError A) b :
  (search fuel k ≫= f) b = (search_with_path fuel k ≫= fun r => f r.1) b.
Proof.
  unfold search, mbind, fuelled_bind. destruct (search_with_path fuel k b) as [[[r|e|] b']|]; done.
Qed.

Lemma get_ok fuel b m t n k lsn : table_ok b m t n -> (n < fuel)%nat ->
  (forall v, value_at (contents t) k lsn = Some v -> is_external_value v = false) ->
  runs (get_internal fuel k lsn) b (fun r b' =>
    r = value_at (contents t) k lsn /\ same 0 b b' /\ table_ok b' m t n).
Proof.
  intros Hok Hf Hx. unfold get_internal. eapply runs_eq; [apply search_bind|].
  eapply search_leaf_ok; [intros p i path; cbn [fst snd]; exact eq_refl|done|done|].
  intros ctx p v es b1 _ Hs Hg S1 Hok1. cbv beta iota. unfold value_at, Reads.shown in *. rewrite Hg in *.
  destruct (leaf_lookup es k Hs) as [(es1 & e & es2 & He & Hi & Hk & _ & Hge)|[Hge Hno]].
  - rewrite Hge in *. rewrite Hi, He, list_lookup_middle by done. rewrite Hk, bytes_eqb_refl. simpl in *.
    destruct (VersionChain.find_visible_inline _ _) as [val|]; simpl in *; [|by apply runs_ret].
    destruct (zlen val =? 0); [by apply runs_ret|]. rewrite resolve_plain by (by apply Hx). by apply runs_ret.
  - rewrite Hge. destruct (es !! _) as [e|] eqn:He; [|by apply runs_ret].
    rewrite neq_eqb by (by apply Hno). by apply runs_ret.
Qed.

(** ** Deleting *)
Definition deleted (l : BTreeMap.t VersionChain.t) (k : bytes) (tx : TransactionId) : BTreeMap.t VersionChain.t :=
  match BTreeMap.get l k with
  | Some c => BTreeMap.insert l k (VersionChain.prepend c [] tx)
  | None => l
  end.
Definition deleted_rows (b : PagedBTree.t S) (t : tree) (k : bytes) : Z :=
  match BTreeMap.get (contents t) k with Some _ => Z.max 0 (row_count b - 1) | None => row_count b end.

Lemma delete_ok E fuel b m t n k tx : table_ok b m t n -> (n < fuel)%nat -> room E b t ->
  (forall c, BTreeMap.get (contents t) k = Some c ->
     8 + zlen k + zlen (chain_to_bytes (VersionChain.prepend c [] tx)) <= E) ->
  runs (delete_internal fuel k tx) b (fun r b' => r = bool_decide (is_Some (BTreeMap.get (contents t) k)) /\
    exists m' t', changed E b b' m t n (deleted (contents t) k tx) (deleted_rows b t k) m' t' n).
Proof.
  intros Hok Hf [Rs Rr Rf _ _] HE. unfold delete_internal, deleted, deleted_rows.
  eapply search_leaf_ok; [intros p i path; cbn [fst snd]; exact eq_refl|done|done|].
  intros ctx p v es b1 Hfd Hs Hg S1 Hok1. cbv beta iota. rewrite Hg in *. pose proof Hfd as [Ht Hkin].
  destruct (leaf_lookup es k Hs) as [(es1 & e & es2 & He & Hi & Hk & Hlt & Hge)|[Hge Hno]]; rewrite Hge in *.
  - rewrite Hi, He, list_lookup_middle by done. rewrite Hk, bytes_eqb_refl.
    rewrite insert_app_r_alt, Nat.sub_diag by lia. simpl. set (c := VersionChain.prepend (chain e) [] tx) in *.
    rewrite <- Hk in Hlt. pose proof (leaf_replace es1 e es2 c Hlt) as Hrep. rewrite <- He, Hk in Hrep.
    pose proof (ok_ordered _ _ _ _ Hok) as Hord. pose proof Hord as Hord'. rewrite <- Ht in Hord', Hok1.
    apply ordered_plug in Hord' as [_ Hleaf].
    rewrite <- Ht in Rr. rewrite nodes_plug in Rr. apply Forall_app in Rr as [[Rleaf _]%Forall_cons _].
    cbn [snd] in Rleaf. rewrite zlen_node in Rleaf. cbn [node_of entries_size] in Rleaf.
    pose proof (node_at _ _ _ _ (ok_owns _ _ _ _ Hok1)) as (_ & [Hv _] & _).
    apply runs_bind. eapply (write_leaf_ok ctx p v es); [exact Hok1|done| | |].
    + rewrite (sm_size _ _ _ S1), zlen_node. cbn [entries_size]. rewrite He in Rleaf.
      rewrite !zlen_mjoin_app in *. simpl in *. rewrite !zlen_app, !zlen_leaf_bytes in *. cbn [key chain set_chain].
      pose proof (zlen_nonneg (chain_to_bytes (chain e))). pose proof (zlen_nonneg (key e)). rewrite Hk in *.
      specialize (HE _ eq_refl). fold c in HE. lia.
    + by apply (leaf_ordered_insert _ _ p v es v _ k c Hleaf).
    + intros b2 m2 S2 Hok2 Hu2. apply runs_bind. eapply decrement_ok; [exact Hok2|].
      intros b3 Hok3 Hr3 Hz3 Hx3 Ho3. apply runs_ret. split; [done|]. eexists m2, _.
      pose proof (same_trans 0 0 _ _ _ S1 S2) as []. constructor; [exact Hok3| |lia| | | | | | |].
      * rewrite (found_insert t k ctx p v es c Hord Hfd), contents_plug. simpl contents. by rewrite Hrep.
      * by rewrite Hr3, sm_rows0.
      * eapply untouched_mono; [|exact Hu2]. intros q ->%list_elem_of_singleton. rewrite <- Ht, nodes_plug, map_app.
        apply elem_of_app. left. apply (page_in_nodes (TLeaf p v es)).
      * rewrite <- Ht in Rs. eapply (leaf_slim E ctx p v es); [|exact Rs]. rewrite nodes_plug, slim_app in Rs.
        destruct Rs as [[Rl _]%Forall_cons _]. cbn [snd node_of node_keys] in Rl. by rewrite He, !map_app in *.
      * rewrite <- Ht in Rf. rewrite nodes_plug, few_app, few_nodes in Rf |- *. rewrite Ho3, sm_order0.
        cbn [below page first_leaf] in *. destruct Rf as [[Rf1 Rf2] Rf3]. split_and!; try done.
        revert Rf1. unfold keys_of. simpl. unfold zlen. rewrite He, !length_app. done.
      * rewrite Hx3. lia.
      * congruence.
      * congruence.
  - assert (Hno' : runs (mret false) b1 (fun r b' => r = bool_decide (is_Some (@None VersionChain.t)) /\
        exists m' t', changed E b b' m t n (contents t) (row_count b) m' t' n)).
    { apply runs_ret. split; [done|]. exists m, t. destruct S1. constructor; try done; [lia|congruence|lia]. }
    destruct (es !! _) as [e|] eqn:He; [|done]. by rewrite neq_eqb by (by apply Hno).
Qed.
End Laws.
End BTreeReads.
