(* ===== verification/BTreeScan.v ===== *)
(** * Scans of the paged B-tree

    A cursor walks the chain of leaves and shows, in key order, the entries
    within its bounds that have a value at its LSN ([paged_scan_collects]). *)
From stdpp Require Import sorting.
From S2P Require Import Prelude Types Page Mvcc OrdMap MemTables MemTableLaws PageStore BTreeNode BTree BTreeOps BTreeShape BTreeLaws BTreeLeaves BTreeReads.

Module BTreeScan.
Import BTreeNode PagedBTree PagedBTreeOps Shape BTreeLaws Leaves BTreeReads.

(** ** What a scan shows *)
Definition shown_entry (s : ScanBounds) (lsn : LogSequenceNumber) (x : bytes * VersionChain.t) : option (bytes * bytes) :=
  if is_in_bounds s x.1
  then (fun v => (x.1, v)) <$> filled (VersionChain.find_visible_inline x.2 (read_snapshot lsn))
  else None.
(** The first entry shown, and the entries behind it. *)
Fixpoint first_shown (s : ScanBounds) (lsn : LogSequenceNumber) (l : list (bytes * VersionChain.t))
    : option (bytes * bytes * list (bytes * VersionChain.t)) :=
  match l with
  | [] => None
  | x :: l =>
      if is_in_bounds s x.1 then
        match filled (VersionChain.find_visible_inline x.2 (read_snapshot lsn)) with
        | Some v => Some (x.1, v, l)
        | None => first_shown s lsn l
        end
      else None
  end.

Lemma first_shown_app s lsn d l : Forall (fun x => is_in_bounds s x.1 = true /\ shown_entry s lsn x = None) d ->
  first_shown s lsn (d ++ l) = first_shown s lsn l.
Proof.
  induction 1 as [|x d [Hb Hx] _ IH]; simpl; [done|]. unfold shown_entry in Hx. rewrite Hb in *.
  by destruct (filled _).
Qed.

Lemma show_entry_filled e c : show_entry e c =
  if is_in_bounds (bounds c) (key e) then
    match filled (VersionChain.find_visible_inline (chain e) (read_snapshot (c_snapshot_lsn c))) with
    | Some v => show (Some (key e)) (Some v) c
    | None => show None None c
    end
  else show None None (set_exhausted true c).
Proof.
  unfold show_entry, filled. destruct (is_in_bounds _ _); cbn [negb]; [|done].
  destruct (VersionChain.find_visible_inline _ _) as [v|]; [|done]. by destruct (zlen v =? 0).
Qed.

Definition entries_of (l : list leaf) : list (bytes * VersionChain.t) := mjoin (map (fun x => map pair_of (l_entries x)) l).

Section Scans.
Context {S : Type} `{PageStoreLaws S} `{ChainCodecLaws}.
(** Reading does not fail. *)
Abbreviation runs := (BTreeLaws.runs (faults := False)).
Abbreviation CM := (fuelled (Cursor * PagedBTree.t S) TableError).

(** The loop of a caller: the entry the cursor is on, then [next]. *)
Fixpoint collect (n fuel : nat) : CM (list (bytes * bytes)) :=
  match n with
  | O => mret []
  | Datatypes.S n =>
      c ← cursor (fun c => c);
      match valid c, current_key c, current_value c with
      | true, Some k, Some v => _ ← next fuel; l ← collect n fuel; mret ((k, v) :: l)
      | _, _, _ => mret []
      end
  end.
Definition scan (n fuel : nat) (s : ScanBounds) (lsn : LogSequenceNumber)
    : fuelled (PagedBTree.t S) TableError (list (bytes * bytes)) :=
  mbind (M := fuelled (PagedBTree.t S) TableError) (fun c b =>
    match collect n fuel (c, b) with Some (r, (_, b')) => Some (r, b') | None => None end) (new_cursor fuel s lsn).

(** ** Calls on a cursor *)
Definition cruns {A} (m : CM A) (c : Cursor) (b : PagedBTree.t S) (Q : A -> Cursor -> PagedBTree.t S -> Prop) : Prop :=
  match m (c, b) with
  | Some (Ok a, (c', b')) => Q a c' b'
  | _ => False
  end.

Lemma cruns_ret {A} (a : A) c b (Q : A -> _ -> _ -> Prop) : Q a c b -> cruns (mret a) c b Q.
Proof. done. Qed.
Lemma cruns_bind {A B} (m : CM A) (f : A -> CM B) c b Q :
  cruns m c b (fun a c' b' => cruns (f a) c' b' Q) -> cruns (m ≫= f) c b Q.
Proof. unfold cruns, mbind, fuelled_bind. destruct (m (c, b)) as [[[a|e|] [c' b']]|]; done. Qed.
Lemma cruns_move f c b (Q : unit -> _ -> _ -> Prop) : Q tt (f c) b -> cruns (move f) c b Q.
Proof. done. Qed.
Lemma cruns_cursor {A} (f : Cursor -> A) c b (Q : A -> _ -> _ -> Prop) : Q (f c) c b -> cruns (cursor f) c b Q.
Proof. done. Qed.
Lemma cruns_table {A} (m : fuelled (PagedBTree.t S) TableError A) c b (Q : A -> _ -> _ -> Prop) :
  runs m b (fun a b' => Q a c b') -> cruns (on_table m) c b Q.
Proof. unfold runs, cruns, on_table. destruct (m b) as [[[a|[]|] b']|]; done. Qed.
Lemma cruns_mono {A} (m : CM A) c b (Q R : A -> _ -> _ -> Prop) :
  (forall a c' b', Q a c' b' -> R a c' b') -> cruns m c b Q -> cruns m c b R.
Proof. unfold cruns. intros HQ. destruct (m (c, b)) as [[[a|[]|] [c' b']]|]; auto. Qed.

(** ** Walking the leaves *)
Section Walk.
Variables (m : gmap PageId bytes) (t : tree) (n : nat) (s : ScanBounds) (lsn : LogSequenceNumber).

Abbreviation ok b := (table_ok b m t n).
Definition scans (c : Cursor) : Prop := bounds c = s /\ c_snapshot_lsn c = lsn.
Definition skipped (e : LeafEntry) : Prop :=
  is_in_bounds s (key e) = true /\ shown_entry s lsn (pair_of e) = None.

Lemma leaf_linked ls1 x ls2 : leaves t = ls1 ++ x :: ls2 ->
  (l_page x, Leaf (l_version x) (l_entries x) (head_page ls2 0)) ∈ nodes t 0.
Proof.
  intros Hl. rewrite nodes_leaves, Hl, link_leaves_app. rewrite !elem_of_app. left. right. by left.
Qed.
Lemma read_leaf_ok b ls1 x ls2 (Q : BTreeNode.t -> _ -> Prop) : ok b -> leaves t = ls1 ++ x :: ls2 ->
  (forall b', ok b' -> Q (Leaf (l_version x) (l_entries x) (head_page ls2 0)) b') -> runs (read_node (l_page x)) b Q.
Proof.
  intros Hok Hl HQ. eapply (runs_read b m (l_page x, _)); [apply Hok| |].
  - eapply owns_in; [apply Hok|]. by apply (leaf_linked ls1 x ls2).
  - intros b' Hs Hh. apply HQ. by eapply table_ok_same.
Qed.
Lemma next_nonzero b ls1 x y ls2 : ok b -> leaves t = ls1 ++ x :: y :: ls2 -> 0 < l_page y.
Proof.
  intros Hok Hl. destruct (owns_in _ _ _ _ (ok_owns _ _ _ _ Hok) (leaf_linked (ls1 ++ [x]) y ls2 ltac:(by rewrite <- app_assoc)))
    as [Hm _]. apply (next_page_fresh _ _ _ (ok_holds _ _ _ _ Hok)). by eexists.
Qed.

(** The cursor stands on an entry with [rest] behind it. *)
Definition on_entry (c : Cursor) (rest : list (bytes * VersionChain.t)) : Prop :=
  exists ls1 x ls2 d1 e d2, leaves t = ls1 ++ x :: ls2 /\ l_entries x = d1 ++ e :: d2 /\
    current_page_id c = l_page x /\ current_position c = length d1 /\ rest = map pair_of d2 ++ entries_of ls2.
Definition lands (c : Cursor) (rest : list (bytes * VersionChain.t)) : Prop :=
  scans c /\ initialized c = true /\
  match first_shown s lsn rest with
  | Some (k, v, rest') =>
      exhausted c = false /\ current_key c = Some k /\ current_value c = Some v /\ on_entry c rest'
  | None => exhausted c = true
  end.

Lemma load_entry_ok ls1 x ls2 d1 e d2 c b (Q : unit -> _ -> _ -> Prop) : ok b -> leaves t = ls1 ++ x :: ls2 ->
  l_entries x = d1 ++ e :: d2 -> current_page_id c = l_page x -> current_position c = length d1 ->
  (forall b', ok b' -> Q tt (show_entry e c) b') -> cruns load_current_entry c b Q.
Proof.
  intros Hok Hl He Hp Hi HQ. unfold load_current_entry. apply cruns_bind, cruns_cursor. rewrite Hp.
  apply cruns_bind, cruns_table. eapply read_leaf_ok; [done|done|]. intros b' Hok'. cbv beta iota.
  rewrite He, Hi, list_lookup_middle by done. by apply cruns_move, HQ.
Qed.

(** The rest of one leaf: all entries are skipped, or one ends the loop. *)
Lemma within_ok ls1 x ls2 (Q : bool -> _ -> _ -> Prop) : leaves t = ls1 ++ x :: ls2 ->
  forall d2 d1 c b k, l_entries x = d1 ++ d2 -> (length d2 < k)%nat -> ok b -> scans c -> initialized c = true ->
  current_page_id c = l_page x -> current_position c = length d1 -> exhausted c = false ->
  (forall c' b', ok b' -> scans c' -> initialized c' = true -> exhausted c' = false -> Forall skipped d2 -> Q false c' b') ->
  (forall d e d' c' b', ok b' -> d2 = d ++ e :: d' -> Forall skipped d -> lands c' (pair_of e :: map pair_of d' ++ entries_of ls2) ->
     Q true c' b') ->
  cruns (advance_within k (length (l_entries x))) c b Q.
Proof.
  intros Hl. induction d2 as [|e d2 IH]; intros d1 c b k He Hk Hok [Hb Hlsn] Hini Hp Hi Hx Hend Hstop;
    (destruct k as [|k]; [simpl in Hk; lia|]); cbn [advance_within]; apply cruns_bind, cruns_cursor; rewrite Hi.
  - rewrite He, app_nil_r, Nat.ltb_irrefl. apply cruns_ret. by apply Hend.
  - rewrite (proj2 (Nat.ltb_lt _ _)) by (rewrite He, length_app; simpl; lia).
    apply cruns_bind. eapply (load_entry_ok ls1 x ls2 d1 e d2); [done|done|done|done|done|]. intros b1 Hok1.
    apply cruns_bind, cruns_cursor. rewrite show_entry_filled, Hb, Hlsn.
    assert (Hstop' : forall c', lands c' (pair_of e :: map pair_of d2 ++ entries_of ls2) -> Q true c' b1).
    { intros c' Hc'. by apply (Hstop [] e d2). }
    destruct (is_in_bounds s (key e)) eqn:Hin.
    + assert (Hskip : shown_entry s lsn (pair_of e) = None -> forall c', scans c' -> initialized c' = true ->
        current_page_id c' = l_page x -> current_position c' = length d1 -> exhausted c' = false ->
        cruns (_ ← move (place (current_page_id c') (current_position c' + 1)%nat);
               advance_within k (length (l_entries x))) c' b1 Q).
      { intros Hs c' [Hb' Hl'] Hini' Hp' Hi' Hx'. apply cruns_bind, cruns_move.
        apply (IH (d1 ++ [e])); try done; simpl in *; [by rewrite <- app_assoc|lia|rewrite length_app; simpl; lia| |].
        - intros c2 b2 ? ? ? ? ?. apply Hend; try done. by constructor.
        - intros d e' d' c2 b2 ? -> ? ?. apply (Hstop (e :: d) e' d'); try done. by constructor. }
      unfold shown_entry in Hskip. cbn [fst snd pair_of] in Hskip. rewrite Hin in Hskip.
      destruct (filled _) as [v|] eqn:Hv.
      * simpl. apply cruns_ret, Hstop'. split; [done|]. split; [done|]. cbn [first_shown fst snd pair_of]. rewrite Hin, Hv.
        split_and!; try done. by exists ls1, x, ls2, d1, e, d2.
      * replace (bool_decide (current_key (show None None c) <> None) || exhausted (show None None c)) with false
          by (simpl; by rewrite Hx).
        by apply (Hskip eq_refl (show None None c)).
    + simpl. apply cruns_ret, Hstop'. split; [done|]. split; [done|]. simpl. by rewrite Hin.
Qed.

Lemma skipped_pairs d : Forall skipped d ->
  Forall (fun x => is_in_bounds s x.1 = true /\ shown_entry s lsn x = None) (map pair_of d).
Proof. intros Hd. by rewrite Forall_map. Qed.

(** From a place in the chain of leaves to the next entry shown. *)
Lemma advance_ok ls2 : forall ls1 x d1 d2 c b fuel, leaves t = ls1 ++ x :: ls2 -> l_entries x = d1 ++ d2 ->
  (length ls2 < fuel)%nat -> ok b -> scans c -> initialized c = true ->
  current_page_id c = l_page x -> current_position c = length d1 -> exhausted c = false ->
  cruns (advance_to_next_visible fuel) c b (fun _ c' b' => ok b' /\ lands c' (map pair_of d2 ++ entries_of ls2)).
Proof.
  induction ls2 as [|y ls2 IH]; intros ls1 x d1 d2 c b fuel Hl He Hf Hok Hsc Hini Hp Hi Hx;
    (destruct fuel as [|fuel]; [simpl in Hf; lia|]); cbn [advance_to_next_visible];
    apply cruns_bind, cruns_cursor; rewrite Hp; apply cruns_bind, cruns_table;
    (eapply read_leaf_ok; [done|exact Hl|]); intros b1 Hok1; cbv beta iota; apply cruns_bind;
    (eapply (within_ok ls1 x _ _ Hl d2 d1); try done; [rewrite He, length_app; lia| |]).
  - intros c' b' Hok' Hsc' Hini' Hx' Hd. cbn [head_page]. rewrite Z.eqb_refl. apply cruns_move. split; [done|].
    split; [done|]. split; [done|]. by rewrite first_shown_app by (by apply skipped_pairs).
  - intros d e d' c' b' Hok' -> Hd Hc'. apply cruns_ret. split; [done|]. destruct Hc' as (? & ? & Hc').
    split; [done|]. split; [done|]. rewrite map_app, <- app_assoc. by rewrite first_shown_app by (by apply skipped_pairs).
  - intros c' b' Hok' Hsc' Hini' Hx' Hd. cbn [head_page]. pose proof (next_nonzero _ _ _ _ _ Hok Hl) as Hy.
    rewrite (proj2 (Z.eqb_neq _ _)) by lia. apply cruns_bind, cruns_move.
    eapply cruns_mono; [|apply (IH (ls1 ++ [x]) y [] (l_entries y)); try done; [by rewrite <- app_assoc|simpl in Hf; lia]].
    intros _ c2 b2 (Hok2 & ? & ? & Hc2). split; [done|]. split; [done|]. split; [done|].
    by rewrite first_shown_app by (by apply skipped_pairs).
  - intros d e d' c' b' Hok' -> Hd Hc'. apply cruns_ret. split; [done|]. destruct Hc' as (? & ? & Hc').
    split; [done|]. split; [done|]. rewrite map_app, <- app_assoc. by rewrite first_shown_app by (by apply skipped_pairs).
Qed.

Lemma next_ok c b rest fuel : ok b -> on_entry c rest -> scans c -> initialized c = true -> exhausted c = false ->
  (length (leaves t) <= fuel)%nat ->
  cruns (next fuel) c b (fun _ c' b' => ok b' /\ lands c' rest).
Proof.
  intros Hok (ls1 & x & ls2 & d1 & e & d2 & Hl & He & Hp & Hi & ->) [Hb Hlsn] Hini Hx Hf. unfold next.
  apply cruns_bind, cruns_cursor. rewrite Hini. cbn [negb]. unfold next_entry. apply cruns_bind, cruns_cursor. rewrite Hx.
  apply cruns_bind, cruns_move. rewrite Hl, length_app in Hf. simpl in Hf.
  apply (advance_ok ls2 ls1 x (d1 ++ [e])); simpl; try done; [by rewrite <- app_assoc|lia|].
  rewrite length_app. simpl. lia.
Qed.

(** The loop collects the entries shown, up to the first one out of bounds. *)
Fixpoint shown_until (l : list (bytes * VersionChain.t)) : list (bytes * bytes) :=
  match l with
  | [] => []
  | x :: l => if is_in_bounds s x.1
              then match shown_entry s lsn x with Some y => y :: shown_until l | None => shown_until l end
              else []
  end.
Lemma shown_until_first l : shown_until l =
  match first_shown s lsn l with Some (k, v, l') => (k, v) :: shown_until l' | None => [] end.
Proof.
  induction l as [|x l IH]; simpl; [done|]. unfold shown_entry. destruct (is_in_bounds s x.1); [|done].
  destruct (filled _); simpl; [done|apply IH].
Qed.
Lemma first_shown_shorter l k v l' : first_shown s lsn l = Some (k, v, l') -> (length l' < length l)%nat.
Proof.
  induction l as [|x l IH]; simpl; [done|]. destruct (is_in_bounds s x.1); [|done].
  destruct (filled _); [intros [= _ _ ->]; lia|]. intros Hl%IH. lia.
Qed.

Lemma collect_ok fuel : (length (leaves t) <= fuel)%nat -> forall k rest c b, (length rest < k)%nat ->
  ok b -> lands c rest -> cruns (collect k fuel) c b (fun r _ b' => ok b' /\ r = shown_until rest).
Proof.
  intros Hf k. induction k as [|k IH]; intros rest c b Hk Hok (Hsc & Hini & Hl); [lia|]. cbn [collect].
  apply cruns_bind, cruns_cursor. unfold valid. rewrite shown_until_first.
  destruct (first_shown s lsn rest) as [[[k' v] rest']|] eqn:Hfs.
  - destruct Hl as (Hx & Hck & Hcv & Hon). rewrite Hx, Hck, Hcv. simpl. apply cruns_bind.
    eapply cruns_mono; [|by apply (next_ok c b rest')]. intros _ c' b' [Hok' Hl']. apply cruns_bind.
    apply first_shown_shorter in Hfs. eapply cruns_mono; [|apply (IH rest'); [lia|done|done]].
    intros r c2 b2 [? ->]. by apply cruns_ret.
  - rewrite Hl. simpl. by apply cruns_ret.
Qed.

(** ** Where a scan starts *)
Lemma entries_of_app l k : entries_of (l ++ k) = entries_of l ++ entries_of k.
Proof. unfold entries_of. by rewrite map_app, mjoin_app. Qed.
Lemma entries_leaves u : entries_of (leaves u) = contents u.
Proof. symmetry. apply contents_leaves. Qed.
Lemma entries_children cs : entries_of (mjoin (map (fun x => let '(c, _) := x in leaves c) cs)) =
  mjoin (map (fun x : tree * bytes => contents x.1) cs).
Proof.
  induction cs as [|[c k] cs IH]; simpl; [done|]. by rewrite entries_of_app, IH, entries_leaves.
Qed.
Lemma leaves_plug ctx : forall u, exists l1 l2, leaves (plug ctx u) = l1 ++ leaves u ++ l2 /\
  entries_of l1 = ctx_before ctx /\ entries_of l2 = ctx_after ctx.
Proof.
  induction ctx as [|f ctx IH]; intros u; [exists [], []; by rewrite app_nil_r|].
  destruct (IH (fill f u)) as (l1 & l2 & Hl & H1' & H2'). cbn [plug foldl] in Hl |- *. unfold plug in Hl. rewrite Hl.
  unfold fill. cbn [ctx_before ctx_after]. unfold frame_before, frame_after.
  set (pre := mjoin (map (fun x => let '(c, _) := x in leaves c) (f_pre f))).
  assert (Hpre : entries_of pre = mjoin (map (fun x => contents x.1) (f_pre f))) by apply entries_children.
  destruct (f_post f) as [[[k cs] r]|]; simpl leaves.
  - exists (l1 ++ pre), (mjoin (map (fun x => let '(c, _) := x in leaves c) cs) ++ leaves r ++ l2).
    rewrite !entries_of_app, entries_children, Hpre, H1', H2', entries_leaves, map_app, mjoin_app. simpl.
    by rewrite <- !app_assoc.
  - exists (l1 ++ pre), l2. rewrite entries_of_app, Hpre, H1', H2'. by rewrite <- !app_assoc.
Qed.

Lemma contents_split ls1 x ls2 d1 d2 : leaves t = ls1 ++ x :: ls2 -> l_entries x = d1 ++ d2 ->
  contents t = (entries_of ls1 ++ map pair_of d1) ++ map pair_of d2 ++ entries_of ls2.
Proof.
  intros Hl He. rewrite <- (entries_leaves t), Hl, entries_of_app. change (entries_of (x :: ls2)) with (map pair_of (l_entries x) ++ entries_of ls2).
  by rewrite He, map_app, <- !app_assoc.
Qed.

Lemma go_to_ok fuel k c b (Q : unit -> _ -> _ -> Prop) : ok b -> (n < fuel)%nat ->
  (forall ls1 x ls2 d1 d2 b', ok b' -> leaves t = ls1 ++ x :: ls2 -> l_entries x = d1 ++ d2 ->
     Forall (fun y => key_lt y.1 k) (entries_of ls1 ++ map pair_of d1) ->
     Forall (fun y => key_leb k y.1 = true) (map pair_of d2 ++ entries_of ls2) ->
     (is_Some (BTreeMap.get (contents t) k) -> exists e d, d2 = e :: d /\ key e = k) ->
     Q tt (place (l_page x) (length d1) c) b') ->
  cruns (go_to fuel k) c b Q.
Proof.
  intros Hok Hn HQ. unfold go_to, search. apply cruns_bind, cruns_table, runs_bind.
  eapply search_with_path_ok; [done|done|]. intros ctx p v es b1 path Hfd _ Hok1. apply runs_ret, cruns_move.
  pose proof (ok_ordered _ _ _ _ Hok) as Hord. pose proof (found_get _ _ _ _ _ _ Hord Hfd) as Hg.
  destruct Hfd as [Ht [Hlo Hhi]]. pose proof Hord as Hord'. rewrite <- Ht in Hord'. apply ordered_plug in Hord' as [Hctx [Hs _]].
  destruct (leaves_plug ctx (TLeaf p v es)) as (l1 & l2 & Hl & H1' & H2'). rewrite Ht in Hl. simpl in Hl.
  pose proof (ctx_before_lt _ _ _ k Hctx Hlo) as Hbef. pose proof (ctx_after_gt _ _ _ k Hctx Hhi) as Haft.
  assert (Haft' : Forall (fun y => key_leb k y.1 = true) (entries_of l2)).
  { rewrite H2'. eapply Forall_impl; [exact Haft|]. intros y Hy. by apply key_lt_leb. }
  rewrite <- H1' in Hbef. pose proof (binary_search_le key es k (leaf_sorted _ Hs)) as Hle.
  destruct (binary_search_by key es k) as [fd i] eqn:Hb. pose proof (leaf_search _ _ _ _ Hs Hb) as Hls. simpl in Hle |- *.
  destruct fd.
  - destruct Hls as (es1 & e & es2 & He & -> & Hk & Hlt & Hgt).
    apply (HQ l1 (LeafAt p v es) l2 es1 (e :: es2)); try done.
    + apply Forall_app. split; [done|]. by apply Forall_map.
    + apply Forall_app. split; [|done]. apply Forall_map. constructor; [simpl; rewrite Hk; apply key_leb_refl|].
      eapply Forall_impl; [exact Hgt|]. intros y Hy. by apply key_lt_leb.
    + intros _. by exists e, es2.
  - destruct Hls as (He & Hlt & Hgt). replace i with (length (take i es)) at 1 by (rewrite length_take; lia).
    apply (HQ l1 (LeafAt p v es) l2 (take i es) (drop i es)); try done.
    + apply Forall_app. split; [done|]. by apply Forall_map.
    + apply Forall_app. split; [|done]. apply Forall_map. eapply Forall_impl; [exact Hgt|]. intros y Hy. by apply key_lt_leb.
    + rewrite Hg. intros [ch Hch]. exfalso. rewrite He, map_app, get_skip in Hch by (by apply Forall_map).
      assert (Hnone : BTreeMap.get (map pair_of (drop i es)) k = None); [|congruence].
      apply BTreeMap.get_None. rewrite keys_pairs. intros (y & -> & Hy)%list_elem_of_fmap. rewrite Forall_forall in Hgt.
      by apply (key_lt_irrefl _ (Hgt _ Hy)).
Qed.

(** No internal node is without entries. *)
Definition branching (l : list (PageId * BTreeNode.t)) : Prop :=
  Forall (fun x => match x.2 with Internal _ [] _ => False | _ => True end) l.

Lemma find_leftmost_ok d : forall u nx rest b fuel (Q : PageId -> _ -> Prop), ok b ->
  nodes t 0 ≡ₚ nodes u nx ++ rest -> depth d u -> (d < fuel)%nat -> branching (nodes u nx) ->
  (forall b', ok b' -> Q (first_leaf u) b') -> runs (find_leftmost_leaf fuel (page u)) b Q.
Proof.
  induction d as [|d IH]; intros u nx rest b fuel Q Hok Hperm Hd Hf Hbr HQ;
    (destruct fuel as [|fuel]; [lia|]); cbn [find_leftmost_leaf]; apply runs_bind;
    (eapply (runs_read b m (page u, node_of u nx));
       [apply Hok|eapply owns_in; [apply Hok|rewrite Hperm, nodes_eq; by left]|]);
    intros b1 S1 Hh1; pose proof (table_ok_same _ _ _ _ _ Hok S1 Hh1) as Hok1;
    destruct u as [p v es|p v cs r]; try done; cbn [node_of snd].
  - by apply runs_ret, HQ.
  - rewrite nodes_TNode in Hbr, Hperm. apply Forall_cons in Hbr as [Hb Hbr]. apply depth_TNode in Hd as [Hcs _].
    destruct cs as [|[c k] cs]; [done|]. apply Forall_cons in Hcs as [Hc _]. simpl in Hbr. apply Forall_app in Hbr as [Hbr _].
    cbn [map entry_of child_page_id fst].
    apply (IH c (first_of cs r) ((p, Internal v (map entry_of ((c, k) :: cs)) (page r)) :: children_nodes cs r nx ++ rest));
      try done; [|lia].
    rewrite Hperm, <- Permutation_middle. simpl. by rewrite <- app_assoc.
Qed.

Lemma shown_until_closed l : Scan.closes s l -> shown_until l = omap (shown_entry s lsn) l.
Proof.
  induction l as [|x l IH]; intros Hc; simpl; [done|]. inversion Hc as [|?? Hc' Hall]; subst.
  unfold shown_entry at 2. destruct (is_in_bounds s x.1) eqn:Hb.
  - rewrite IH by done. unfold shown_entry at 1. rewrite Hb. by destruct (filled _).
  - assert (Hout : omap (shown_entry s lsn) l = []); [|symmetry; exact Hout].
    clear -Hall Hb. induction Hall as [|y l Hy _ IHl]; simpl; [done|]. unfold shown_entry at 1.
    change (is_in_bounds s y.1) with (Scan.in_bounds s y.1). by rewrite Hy.
Qed.
Lemma omap_outside l : Forall (fun x => is_in_bounds s x.1 = false) l -> omap (shown_entry s lsn) l = [].
Proof. induction 1 as [|x l Hx _ IH]; [done|]. simpl. unfold shown_entry at 1. by rewrite Hx. Qed.
Lemma first_shown_in l k v l' : first_shown s lsn l = Some (k, v, l') -> is_in_bounds s k = true.
Proof.
  induction l as [|x l IH]; simpl; [done|]. destruct (is_in_bounds s x.1) eqn:Hb; [|done].
  destruct (filled _); [intros [= <- _ _]; done|exact IH].
Qed.

(** The cursor after its first positioning: what is before it is out of
    bounds, and what is behind it closes. *)
Definition started (c : Cursor) : Prop :=
  exists pre rest, contents t = pre ++ rest /\ lands c rest /\
    Forall (fun x => is_in_bounds s x.1 = false) pre /\ Scan.closes s rest.

Lemma started_collect c : started c -> exists rest, lands c rest /\ (length rest <= length (contents t))%nat /\
  shown_until rest = omap (shown_entry s lsn) (contents t).
Proof.
  intros (pre & rest & Hc & Hl & Hp & Hcl). exists rest. split; [done|]. rewrite Hc, length_app. split; [lia|].
  by rewrite omap_app, omap_outside, shown_until_closed.
Qed.

Lemma sorted_rest b pre rest : ok b -> contents t = pre ++ rest -> BTreeMap.sorted rest.
Proof.
  intros Hok Hc. pose proof (sorted_contents _ _ _ _ Hok) as Hs. rewrite Hc in Hs. by eapply Scan.sorted_app_r.
Qed.

(** A dry cursor has nothing to show. *)
Lemma dry_started c b : ok b -> scans c -> initialized c = true ->
  Forall (fun x => is_in_bounds s x.1 = false) (contents t) -> started (show None None (set_exhausted true c)).
Proof.
  intros Hok Hsc Hini Hout. exists (contents t), []. rewrite app_nil_r. split_and!; [done| |done|constructor]. done.
Qed.

(** The start key of a bound, for the bounds that have one. *)
Definition from_key (k : bytes) : Prop :=
  match s with Prefix p => p = k | Range (Included a) _ => a = k | _ => False end.
Lemma from_key_out k y : from_key k -> key_lt y k -> is_in_bounds s y = false.
Proof.
  unfold from_key. destruct s as [|p|[a|a|] stop]; simpl; try done; intros -> Hy.
  - apply not_true_is_false. intros Hst%starts_with_ge. apply key_leb_spec in Hst as [<-|Hst];
      [by apply key_lt_irrefl in Hy|by apply key_lt_asym in Hy].
  - rewrite (proj2 (key_leb_false k y)); done.
Qed.
Lemma from_key_closes k b pre rest : ok b -> from_key k -> contents t = pre ++ rest ->
  Forall (fun y => key_leb k y.1 = true) rest -> Scan.closes s rest.
Proof.
  intros Hok Hk Hc Hr. apply Scan.closes_from; [by eapply sorted_rest|]. unfold from_key in Hk.
  destruct s as [|p|[a|a|] stop]; try done; subst; done.
Qed.

Lemma seek_ok fuel k c b : ok b -> (n < fuel)%nat -> (length (leaves t) <= fuel)%nat -> scans c -> from_key k ->
  cruns (seek fuel k) c b (fun _ c' b' => ok b' /\ started c').
Proof.
  intros Hok Hn Hf [Hb Hl] Hk. unfold seek. apply cruns_bind, cruns_move, cruns_bind, cruns_cursor. cbn [bounds start_over].
  rewrite Hb. destruct (is_in_bounds s k) eqn:Hin; cbn [negb].
  - apply cruns_bind. eapply go_to_ok; [done|done|]. intros ls1 x ls2 d1 d2 b1 Hok1 Hlv He Hpre Hrest _.
    eapply cruns_mono; [|apply (advance_ok ls2 ls1 x d1 d2); try done].
    2: { rewrite Hlv, length_app in Hf. simpl in Hf. lia. }
    intros _ c' b' [Hok' Hc']. split; [done|]. pose proof (contents_split _ _ _ _ _ Hlv He) as Hcon.
    eexists _, _. split_and!; [exact Hcon|done| |by eapply from_key_closes].
    eapply Forall_impl; [exact Hpre|]. intros y Hy. by eapply from_key_out.
  - assert (Hdry : cruns run_dry (start_over c) b (fun _ c' b' => ok b' /\ started c')).
    { apply cruns_move. split; [done|]. eapply dry_started; [done|done|done|]. apply Forall_forall. intros y Hy.
      unfold from_key in Hk. destruct s as [|p|[a|a|] stop]; try done; subst.
      - exfalso. clear -Hin. simpl in Hin. induction k as [|z k IH]; [done|]. simpl in Hin. by rewrite Z.eqb_refl in Hin.
      - simpl in Hin |- *. rewrite key_leb_refl in Hin. simpl in Hin.
        destruct (key_leb k y.1) eqn:Hky; [|done]. simpl. apply key_leb_spec in Hky as [<-|Hky]; [done|].
        by eapply Scan.below_mono. }
    unfold from_key in Hk. destruct s as [|p|[a|a|] stop]; try done. subst a.
    assert (Hkk : key_ltb k k = false) by (apply key_ltb_false; by left). by rewrite Hkk.
Qed.

(** What the bounds ask of the tree: an excluded start key is in the table,
    and the walk to the leftmost leaf meets no empty node. *)
Definition startable : Prop :=
  match s with
  | All | Range Unbounded _ => branching (nodes t 0)
  | Range (Excluded k) _ => is_Some (BTreeMap.get (contents t) k)
  | _ => True
  end.

Lemma leftmost_start fuel c b : ok b -> (n < fuel)%nat -> (length (leaves t) <= fuel)%nat -> scans c ->
  initialized c = true -> exhausted c = false -> branching (nodes t 0) -> Scan.closes s (contents t) ->
  cruns (_ ← go_leftmost fuel; advance_to_next_visible fuel) c b (fun _ c' b' => ok b' /\ started c').
Proof.
  intros Hok Hn Hf Hsc Hini Hx Hbr Hcl. unfold go_leftmost. apply cruns_bind, cruns_bind, cruns_table, runs_bind, runs_ask.
  rewrite (ok_root _ _ _ _ Hok). eapply (find_leftmost_ok n t 0 []); [done|by rewrite app_nil_r|apply Hok|done|done|].
  intros b1 Hok1. apply cruns_move. destruct (leaves t) as [|x ls2] eqn:Hlv; [by apply leaves_nonempty in Hlv|].
  pose proof (head_leaves' t 0) as Hfl. rewrite Hlv in Hfl. simpl in Hfl.
  eapply cruns_mono; [|apply (advance_ok ls2 [] x [] (l_entries x)); try done; simpl in *; lia].
  intros _ c' b' [Hok' Hc']. split; [done|]. exists [], (contents t). split_and!; [done| |constructor|done].
  rewrite (contents_split [] x ls2 [] (l_entries x)); done.
Qed.

Lemma excluded_start fuel k stop c b : s = Range (Excluded k) stop -> ok b -> (n < fuel)%nat ->
  (length (leaves t) <= fuel)%nat -> scans c -> is_Some (BTreeMap.get (contents t) k) ->
  cruns (seek fuel k) c b (fun _ c' b' => ok b' /\ started c').
Proof.
  intros Hs Hok Hn Hf [Hb Hl] Hk. unfold seek. apply cruns_bind, cruns_move, cruns_bind, cruns_cursor. cbn [bounds start_over].
  rewrite Hb, Hs. simpl is_in_bounds. assert (Hkk : key_ltb k k = false) by (apply key_ltb_false; by left).
  rewrite Hkk. cbn [andb negb]. rewrite key_leb_refl. apply cruns_bind. eapply go_to_ok; [done|done|].
  intros ls1 x ls2 d1 d2 b1 Hok1 Hlv He Hpre Hrest Hfnd. destruct (Hfnd Hk) as (e & d & -> & Hke).
  apply cruns_bind, cruns_move.
  eapply cruns_mono; [|apply (advance_ok ls2 ls1 x (d1 ++ [e]) d); try done; simpl].
  - intros _ c' b' [Hok' Hc']. split; [done|].
    pose proof (contents_split ls1 x ls2 (d1 ++ [e]) d Hlv ltac:(by rewrite <- app_assoc)) as Hcon.
    assert (Hgt : Forall (fun y => key_lt k y.1) (map pair_of d ++ entries_of ls2)).
    { pose proof (sorted_contents _ _ _ _ Hok) as Hso. rewrite (contents_split ls1 x ls2 d1 (e :: d) Hlv He) in Hso.
      apply Scan.sorted_app_r in Hso. unfold BTreeMap.sorted in Hso. simpl in Hso. inversion Hso as [|?? _ Hall]; subst.
      exact (proj1 (Forall_map _ _ _) Hall). }
    eexists _, _. split_and!; [exact Hcon|done| |].
    + rewrite map_app, app_assoc. apply Forall_app. split; [|constructor; [|constructor]].
      * eapply Forall_impl; [exact Hpre|]. intros y Hy. rewrite Hs. simpl. rewrite (proj2 (key_ltb_false k y.1)); [done|].
        by right.
      * rewrite Hs. simpl. by rewrite Hke, Hkk.
    + apply Scan.closes_from; [by eapply sorted_rest|]. rewrite Hs. exact Hgt.
  - by rewrite <- app_assoc.
  - rewrite Hlv, length_app in Hf. simpl in Hf. lia.
  - rewrite length_app. simpl. lia.
Qed.

Lemma first_ok fuel c b : ok b -> (n < fuel)%nat -> (length (leaves t) <= fuel)%nat -> scans c -> startable ->
  cruns (first fuel) c b (fun _ c' b' => ok b' /\ started c').
Proof.
  intros Hok Hn Hf Hsc Hst. unfold first. apply cruns_bind, cruns_move, cruns_bind, cruns_cursor. cbn [bounds start_over].
  pose proof Hsc as [Hb Hl]. rewrite Hb. unfold startable in Hst. pose proof (sorted_contents _ _ _ _ Hok) as Hso.
  assert (Hsc' : scans (start_over c)) by done.
  assert (Hseek : forall k, from_key k -> cruns (seek fuel k) (start_over c) b (fun _ c' b' => ok b' /\ started c'))
    by (intros k Hk; by apply seek_ok).
  assert (Hleft : branching (nodes t 0) -> Scan.closes s (contents t) ->
    cruns (_ ← go_leftmost fuel; advance_to_next_visible fuel) (start_over c) b (fun _ c' b' => ok b' /\ started c'))
    by (intros; by apply leftmost_start).
  destruct s as [|p|[a|a|] stop] eqn:Hs.
  - apply Hleft; [done|]. apply Scan.closes_from; [done|]. by apply Forall_forall.
  - apply Hseek. unfold from_key. by rewrite Hs.
  - apply Hseek. unfold from_key. by rewrite Hs.
  - apply cruns_bind. eapply cruns_mono; [|by apply (excluded_start fuel a stop)].
    intros _ c' b' [Hok' Hc']. apply cruns_bind, cruns_cursor. replace (valid c' && _) with false; [by apply cruns_ret|].
    symmetry. destruct Hc' as (pre & rest & _ & (_ & _ & Hl') & _). unfold valid.
    destruct (first_shown s lsn rest) as [[[k v] rest']|] eqn:Hfs; [|by rewrite Hl'].
    destruct Hl' as (_ & -> & _). apply first_shown_in in Hfs. rewrite Hs in Hfs. simpl in Hfs.
    rewrite (bool_decide_eq_false_2 (Some k = Some a)); [apply andb_false_r|]. intros [= ->].
    assert (Hkk : key_ltb a a = false) by (apply key_ltb_false; by left). by rewrite Hkk in Hfs.
  - apply Hleft; [done|]. apply Scan.closes_from; [done|]. by apply Forall_forall.
Qed.
End Walk.

(** C28: a scan of the paged B-tree returns exactly the entries within its
    bounds that have a value at its LSN, each once and in key order: a cursor
    made by [new] and moved by [next] while it is valid visits them all, over
    as many leaves as there are, and leaves the table as it was.  An excluded
    start must be a key of the table, and a scan from the first entry must
    meet no internal node without entries. *)
Theorem paged_scan_collects b m t n s lsn fuel count (Hok : table_ok b m t n) (Hst : startable t s)
    (Hn : (n < fuel)%nat) (Hl : (length (leaves t) <= fuel)%nat) (Hc : (length (contents t) < count)%nat) :
  runs (scan count fuel s lsn) b (fun r b' => table_ok b' m t n /\ r = omap (shown_entry s lsn) (contents t)).
Proof.
  unfold scan. apply runs_bind. unfold runs at 1, new_cursor.
  pose proof (first_ok m t n s lsn fuel (mkCursor lsn s 0 0 None None false false) b Hok Hn Hl ltac:(done) Hst) as Hf.
  unfold cruns in Hf. destruct (first fuel _) as [[[u|e|] [c b1]]|]; try done.
  destruct Hf as [Hok1 (rest & Hld & Hlen & Hsh)%started_collect].
  pose proof (collect_ok m t n s lsn fuel Hl count rest c b1 ltac:(lia) Hok1 Hld) as Hco. unfold cruns in Hco. unfold runs.
  destruct (collect count fuel (c, b1)) as [[[r|e|] [c' b2]]|]; try done. destruct Hco as [? ->]. by rewrite Hsh.
Qed.
End Scans.
End BTreeScan.
