(* ===== verification/BTreeTable.v ===== *)
(** * The paged B-tree as a table

    Sequences of insertions, deletions and commits refine an ordered map of
    version chains ([paged_btree_refines]): each call returns without an error
    of its own, keeps the invariant of the tree, and a read finds what the
    map holds.  [stored E b l n] is the invariant: the table [b] stands for
    the map [l] in a tree of depth [n], no node has [max_order] keys, and no
    entry or separator takes more than [E] bytes. *)
From stdpp Require Import sorting.
From S2P Require Import Prelude Types Page Mvcc OrdMap MemTables MemTableLaws PageStore BTreeNode BTree BTreeWriter BTreeShape BTreeLaws BTreeLeaves BTreeReads BTreeScan.

Module BTreeTable.
Import BTreeNode PagedBTree PagedBTreeWriter Shape BTreeLaws Leaves BTreeReads.

(** ** The map and its operations *)
Inductive event : Type :=
  | Put (k v : bytes) (tx : TransactionId) (commit_lsn : LogSequenceNumber)
  | Delete (k : bytes) (tx : TransactionId)
  | Commit (tx : TransactionId) (commit_lsn : LogSequenceNumber).

Definition apply (l : BTreeMap.t VersionChain.t) (e : event) : BTreeMap.t VersionChain.t :=
  match e with
  | Put k v tx lsn => BTreeMap.insert l k (new_chain (BTreeMap.get l k) v tx lsn)
  | Delete k tx => deleted l k tx
  | Commit tx lsn => map (fun x => (x.1, commit_chain_recursive x.2 tx lsn)) l
  end.
(** The row count the table keeps: an insertion under a key of a deleted row
    does not count it again. *)
Definition count (l : BTreeMap.t VersionChain.t) (rows : Z) (e : event) : Z :=
  match e with
  | Put k _ _ _ => rows + (if decide (BTreeMap.get l k = None) then 1 else 0)
  | Delete k _ => match BTreeMap.get l k with Some _ => Z.max 0 (rows - 1) | None => rows end
  | Commit _ _ => rows
  end.
Definition advance (a : BTreeMap.t VersionChain.t * Z) (e : event) : BTreeMap.t VersionChain.t * Z :=
  (apply a.1 e, count a.1 a.2 e).
Fixpoint states (l : BTreeMap.t VersionChain.t) (es : list event) : list (BTreeMap.t VersionChain.t) :=
  match es with [] => [] | e :: es => apply l e :: states (apply l e) es end.

Section Laws.
Context {S : Type} `{PageStoreLaws S} `{ChainCodecLaws}.
Abbreviation runs := (BTreeLaws.runs (faults := store_faults)).
Abbreviation M := (fuelled (PagedBTree.t S) TableError).
Abbreviation size b := (data_size (pager b)).
Abbreviation next b := (next_page_id (pager b)).

(** The table's calls, with no other thread between search and latch. *)
Definition alone : nat -> M unit := fun _ => mret tt.
Definition perform (fuel : nat) (e : event) : M unit :=
  match e with
  | Put k v tx lsn => insert_internal alone fuel k v tx lsn
  | Delete k tx => _ ← delete_internal fuel k tx; mret tt
  | Commit tx lsn => commit_versions_for_tx fuel tx lsn
  end.
Fixpoint perform_all (fuel : nat) (es : list event) : M unit :=
  match es with [] => mret tt | e :: es => _ ← perform fuel e; perform_all fuel es end.

(** ** The invariant *)
Definition entry_fits (E : Z) (x : bytes * VersionChain.t) : Prop :=
  12 + zlen x.1 + zlen (chain_to_bytes x.2) <= E.
Definition entries_fit (E : Z) (l : BTreeMap.t VersionChain.t) : Prop := Forall (entry_fits E) l.
#[global] Instance entries_fit_dec E l : Decision (entries_fit E l).
Proof. unfold entries_fit, entry_fits. apply _. Defined.

Record stored_as (E : Z) (b : PagedBTree.t S) (m : gmap PageId bytes) (t : tree) (n : nat) : Prop := {
  st_ok : table_ok b m t n;
  st_slim : slim E (nodes t 0);
  st_few : few (max_order b) (nodes t 0);
  st_fit : entries_fit E (contents t);
  st_room : 21 + max_order b * E <= size b }.
Definition stored (E : Z) (b : PagedBTree.t S) (l : BTreeMap.t VersionChain.t) (n : nat) : Prop :=
  exists m t, stored_as E b m t n /\ contents t = l.

(** ** Bounds on the tree *)
Lemma fewer_nodes b m t n : table_ok b m t n -> Z.of_nat (length (nodes t 0)) < next b.
Proof.
  intros [Hh [Hnd Hall] _ _ _ _ _ _]. pose proof (next_page_bound _ _ Hh) as Hb.
  assert (Hsub : map fst (nodes t 0) ⊆+ seqZ 1 (next b - 1)).
  { apply NoDup_submseteq; [done|]. intros q (x & -> & Hx)%list_elem_of_fmap. rewrite Forall_forall in Hall. destruct (Hall x Hx) as [Hm _].
    apply elem_of_seqZ. pose proof (next_page_fresh _ _ x.1 Hh ltac:(by eexists)). lia. }
  apply submseteq_length in Hsub.
  rewrite length_map, length_seqZ in Hsub. lia.
Qed.
Lemma depth_nodes n : forall t nx, depth n t -> (n < length (nodes t nx))%nat.
Proof.
  induction n as [|n IH]; intros [p v es|p v cs r] nx Hd; try done; [simpl; lia|].
  rewrite nodes_TNode. apply depth_TNode in Hd as [_ Hr]. specialize (IH r nx Hr). simpl.
  assert (Hle : (length (nodes r nx) <= length (children_nodes cs r nx))%nat); [|lia].
  clear. induction cs as [|[c k] cs IH]; simpl; [done|]. rewrite length_app. lia.
Qed.
Lemma leaves_nodes t : (length (leaves t) <= length (nodes t 0))%nat.
Proof.
  rewrite (nodes_leaves t 0), length_app. assert (Hl : length (link_leaves (leaves t) 0) = length (leaves t)); [|lia].
  induction (leaves t) as [|x l IH]; simpl; congruence.
Qed.

Lemma leaf_contents x t : x ∈ leaves t -> forall e, e ∈ l_entries x -> pair_of e ∈ contents t.
Proof.
  intros Hx e He. rewrite contents_leaves. apply list_elem_of_join. exists (map pair_of (l_entries x)). split.
  - apply list_elem_of_fmap. by exists e.
  - apply list_elem_of_fmap. by exists x.
Qed.

Lemma sum_le {A} (f : A -> bytes) E l : Forall (fun x => zlen (f x) <= E) l -> zlen (mjoin (map f l)) <= E * zlen l.
Proof.
  induction 1 as [|x l Hx _ IH]; simpl; [unfold zlen; simpl; lia|]. rewrite zlen_app, zlen_cons. lia.
Qed.

Lemma leaf_in x t : x ∈ leaves t -> exists nx, (l_page x, Leaf (l_version x) (l_entries x) nx) ∈ nodes t 0.
Proof.
  intros Hx. setoid_rewrite (nodes_leaves t 0). setoid_rewrite elem_of_app.
  induction (leaves t) as [|y l IH]; [by apply elem_of_nil in Hx|]. apply elem_of_cons in Hx as [->|Hx].
  - eexists. left. by left.
  - destruct (IH Hx) as [nx [Hn|Hn]]; exists nx; [left; by right|by right].
Qed.
Lemma inner_internal t x : x ∈ inner t -> match x.2 with Internal _ _ _ => True | _ => False end.
Proof.
  revert x. induction t as [|? ? cs r IHcs IHr] using tree_ind'; intros x; simpl; [by intros ?%elem_of_nil|].
  rewrite elem_of_cons, elem_of_app. intros [->|[Hx|Hx]]; [done| |by apply IHr].
  apply list_elem_of_join in Hx as (q & Hq & (c & -> & Hc)%list_elem_of_fmap). rewrite Forall_forall in IHcs.
  destruct c as [c k]. by apply (IHcs _ Hc).
Qed.
Lemma leaf_node t p v es nx : (p, Leaf v es nx) ∈ nodes t 0 -> exists y, y ∈ leaves t /\ l_entries y = es.
Proof.
  rewrite (nodes_leaves t 0), elem_of_app. intros [Hx|Hx%inner_internal]; [|done].
  induction (leaves t) as [|y l IH]; simpl in Hx; [by apply elem_of_nil in Hx|].
  apply elem_of_cons in Hx as [Hx|Hx]; [injection Hx as -> -> -> ->; exists y; split; [by left|done]|].
  destruct (IH Hx) as (z & Hz & ?). exists z. split; [by right|done].
Qed.

Lemma leaf_size E t x : entries_fit E (contents t) -> x ∈ leaves t ->
  zlen (mjoin (map leaf_bytes (l_entries x))) <= E * zlen (l_entries x).
Proof.
  intros Hfit Hx. apply sum_le, Forall_forall. intros e He. unfold entries_fit in Hfit. rewrite Forall_forall in Hfit.
  specialize (Hfit _ (leaf_contents _ _ Hx _ He)). unfold entry_fits in Hfit. rewrite zlen_leaf_bytes. simpl in Hfit. lia.
Qed.

Lemma stored_room E b m t n : stored_as E b m t n -> 0 <= E ->
  2 * next b + 2 < 2 ^ 64 -> row_count b + 1 < 2 ^ 64 -> room E b t.
Proof.
  intros [Hok Hs Hf Hfit Hr] HE Hn Hc. constructor; [done| |done|pose proof (fewer_nodes _ _ _ _ Hok); lia|done].
  apply Forall_forall. intros [p x] Hx. unfold slim in Hs. rewrite Forall_forall in Hs. unfold few in Hf.
  rewrite Forall_forall in Hf. specialize (Hf _ Hx). specialize (Hs _ Hx). simpl in *. rewrite zlen_node.
  assert (Hle : entries_size x <= E * key_count x); [|nia].
  destruct x as [v es r|v es nx]; simpl in *.
  - apply sum_le. rewrite Forall_map in Hs. eapply Forall_impl; [exact Hs|]. intros e He. simpl in He.
    by rewrite zlen_internal_bytes.
  - destruct (leaf_node _ _ _ _ _ Hx) as (y & Hy & <-). by apply leaf_size with t.
Qed.

(** ** Committing *)
Lemma stamped_nodes (P : list bytes -> Prop) g t : Forall (fun x => P (node_keys x.2)) (nodes t 0) ->
  Forall (fun x => P (node_keys x.2)) (nodes (stamp_tree g t) 0).
Proof.
  rewrite !nodes_leaves, stamp_leaves, stamp_inner, !Forall_app. intros [Hl Hi]. split; [|done].
  induction (leaves t) as [|x l IH]; simpl in *; [constructor|]. apply Forall_cons in Hl as [Hx Hl].
  constructor; [simpl; by rewrite stamp_keys|auto].
Qed.
Lemma few_keys M l : few M l <-> Forall (fun x => zlen (node_keys x.2) < M) l.
Proof. apply Forall_proper; [|done]. intros [p [? es ?|? es ?]]; simpl; unfold zlen; by rewrite length_map. Qed.

Lemma commit_changed E b m t n fuel tx lsn : stored_as E b m t n -> 0 <= E -> (Z.to_nat (next b) <= fuel)%nat ->
  entries_fit E (apply (contents t) (Commit tx lsn)) ->
  runs (commit_versions_for_tx fuel tx lsn) b (fun _ b' => exists m' t',
    changed E b b' m t n (apply (contents t) (Commit tx lsn)) (row_count b) m' t' n).
Proof.
  intros [Hok Hs Hf Hfit Hr] HE Hfu Hfit'. pose proof (fewer_nodes _ _ _ _ Hok) as Hnn.
  pose proof (depth_nodes n t 0 (ok_depth _ _ _ _ Hok)). pose proof (leaves_nodes t).
  change (apply _ _) with (map (fun x => (x.1, committed tx lsn x.2)) (contents t)) in Hfit' |- *.
  rewrite <- stamp_contents in Hfit' |- *.
  eapply runs_mono; [|eapply (commit_ok tx lsn b m t n); [done|lia|lia|]].
  - intros _ b' (m' & Hok' & [] & Hu). exists m', (stamp_tree (committed tx lsn) t). constructor; try done; [lia| | |lia].
    + by apply (stamped_nodes (Forall (fun k => 12 + zlen k <= E))).
    + rewrite few_keys in *. rewrite sm_order0. by apply (stamped_nodes (fun l => zlen l < max_order b)).
  - apply Forall_forall. intros x Hx. destruct (leaf_in _ _ Hx) as [nx Hin]. unfold few in Hf.
    rewrite Forall_forall in Hf. specialize (Hf _ Hin). simpl in Hf.
    pose proof (leaf_size E _ (stamp_leaf (committed tx lsn) x) Hfit') as Hz. rewrite stamp_leaves in Hz.
    specialize (Hz ltac:(apply list_elem_of_fmap; by exists x)). simpl in Hz |- *.
    replace (zlen (map (stamp _) (l_entries x))) with (zlen (l_entries x)) in Hz by (unfold zlen; by rewrite length_map).
    nia.
Qed.

(** ** Sequences of calls *)
Lemma get_insert_fits E l k c : entries_fit E (BTreeMap.insert l k c) -> 12 + zlen k + zlen (chain_to_bytes c) <= E.
Proof.
  intros Hf. assert (Hin : (k, c) ∈ BTreeMap.insert l k c).
  { clear. induction l as [|[a x] l IH]; simpl; [by left|]. destruct (key_ltb k a); [by left|].
    destruct (bytes_eqb k a); [by left|by right]. }
  unfold entries_fit in Hf. rewrite Forall_forall in Hf. apply (Hf _ Hin).
Qed.

Lemma perform_ok E e b m t n fuel : stored_as E b m t n -> 0 <= E -> entries_fit E (apply (contents t) e) ->
  2 * next b + 2 < 2 ^ 64 -> row_count b + 1 < 2 ^ 64 -> (Z.to_nat (next b) <= fuel)%nat ->
  runs (perform fuel e) b (fun _ b' => exists m' t' n',
    changed E b b' m t n (apply (contents t) e) (count (contents t) (row_count b) e) m' t' n').
Proof.
  intros Hst HE Hfit Hn Hc Hfu. pose proof (stored_room _ _ _ _ _ Hst HE Hn Hc) as Hroom.
  pose proof Hst as [Hok _ _ _ _]. pose proof (fewer_nodes _ _ _ _ Hok). pose proof (depth_nodes n t 0 (ok_depth _ _ _ _ Hok)).
  destruct e as [k v tx lsn|k tx|tx lsn]; simpl apply in *; simpl perform.
  - pose proof (get_insert_fits _ _ _ _ Hfit). pose proof (zlen_nonneg (chain_to_bytes (new_chain (BTreeMap.get (contents t) k) v tx lsn))).
    apply (insert_loop_ok E alone fuel 9 b m t n k v tx lsn); try done; try lia.
    intros i b0 Hb0. apply runs_ret. split; [apply same_table_refl|done].
  - apply runs_bind. eapply runs_mono; [|apply (delete_ok E fuel b m t n k tx); try done; [lia|]].
    + intros r b' (_ & m' & t' & Hch). apply runs_ret. by exists m', t', n.
    + intros c Hg. unfold deleted in Hfit. rewrite Hg in Hfit. pose proof (get_insert_fits _ _ _ _ Hfit). lia.
  - eapply runs_mono; [|eapply commit_changed; [done|done|done|done]].
    intros _ b' (m' & t' & Hch). by exists m', t', n.
Qed.

Lemma changed_stored E b b' m t n l rows m' t' n' : stored_as E b m t n -> entries_fit E l ->
  changed E b b' m t n l rows m' t' n' -> stored_as E b' m' t' n'.
Proof.
  intros [] Hfit []. subst l. constructor; try done. by rewrite ch_order0, ch_size0.
Qed.

(** Enough page numbers and rows for [len] more calls on a tree of depth [n]. *)
Record budget (b : PagedBTree.t S) (n : nat) (len : Z) : Prop := {
  bu_next : next b + len * (Z.of_nat n + len + 2) < 2 ^ 62;
  bu_rows : row_count b + len < 2 ^ 64 }.
Definition enough (b : PagedBTree.t S) (n : nat) (len : Z) : nat := Z.to_nat (next b + len * (Z.of_nat n + len + 2)).

Lemma count_le l rows e : 0 <= rows -> count l rows e <= rows + 1 /\ 0 <= count l rows e.
Proof. intros Hr. destruct e; simpl; [case_decide| destruct (BTreeMap.get l k)|]; lia. Qed.

Lemma perform_all_ok E fuel es : forall b m t n, stored_as E b m t n -> 0 <= E ->
  Forall (entries_fit E) (states (contents t) es) -> budget b n (zlen es) -> (enough b n (zlen es) <= fuel)%nat ->
  runs (perform_all fuel es) b (fun _ b' => exists m' t' n', stored_as E b' m' t' n' /\
    (contents t', row_count b') = foldl advance (contents t, row_count b) es /\
    size b' = size b /\ (enough b' n' 0 <= fuel)%nat /\ (n' <= n + length es)%nat /\ max_order b' = max_order b).
Proof.
  induction es as [|e es IH]; intros b m t n Hst HE Hall [Bn Br] Hfu; simpl.
  - apply runs_ret. exists m, t, n. split_and!; [done|done|done| |lia|done]. unfold enough, zlen in *. simpl in *. lia.
  - simpl in Hall. apply Forall_cons in Hall as [He Hall]. pose proof (zlen_nonneg es) as Hl. rewrite zlen_cons in *.
    pose proof Hst as [Hok _ _ _ _]. destruct (ok_rows _ _ _ _ Hok) as [Hu _].
    pose proof (next_page_bound _ _ (ok_holds _ _ _ _ Hok)) as Hnb. unfold enough in *. apply runs_bind.
    eapply runs_mono; [|eapply (perform_ok E e b m t n fuel); [done|done|done|nia|lia|nia]].
    intros _ b' (m' & t' & n' & Hch). pose proof (changed_stored _ _ _ _ _ _ _ _ _ _ _ Hst He Hch) as Hst'.
    destruct Hch. subst. pose proof (count_le (contents t) (row_count b) e ltac:(unfold fits in Hu; lia)) as [Hcl _].
    assert (Hbud : next b' + zlen es * (Z.of_nat n' + zlen es + 2) <= next b + (1 + zlen es) * (Z.of_nat n + (1 + zlen es) + 2)) by nia.
    eapply runs_mono; [|apply (IH b' m' t' n' Hst' HE)].
    + intros _ b2 (m2 & t2 & n2 & Hst2 & Hc2 & Hs2 & Hf2 & Hn2 & Ho2). exists m2, t2, n2.
      split_and!; [done| |congruence|done|lia|congruence]. rewrite Hc2. unfold advance at 3. simpl. congruence.
    + congruence.
    + constructor; lia.
    + lia.
Qed.

(** ** A new table *)
Lemma order_bounds D : 1024 <= D -> 4 <= calculate_max_order D.
Proof. unfold calculate_max_order. lia. Qed.

Lemma new_ok E id name s m : holds s m -> next_page_id s + 1 < 2 ^ 64 ->
  21 + calculate_max_order (data_size s) * E <= data_size s ->
  match PagedBTree.new id name s with
  | Ok b => stored E b [] 0 /\ row_count b = 0 /\ next b = next_page_id s + 1 /\
      size b = data_size s /\ max_order b = calculate_max_order (data_size s)
  | Err _ | Panic => store_faults
  end.
Proof.
  intros Hh Hn HE. pose proof (data_size_bounds _ _ Hh) as Hsz. unfold PagedBTree.new.
  pose proof (allocate_page_ok s m PageType.BTreeLeaf Hh eq_refl Hn) as Ha. unfold after in Ha.
  destruct (allocate_page PageType.BTreeLeaf s) as [[p|e|] s1]; simpl; try done.
  destruct Ha as (-> & Hn1 & Hnone & Hp & Hh1 & Hs1 & _ & _).
  pose proof (write_page_ok s1 _ (next_page_id s) PageType.BTreeLeaf (to_bytes new_leaf) Hh1) as Hw. unfold after in Hw.
  specialize (Hw ltac:(rewrite lookup_insert_eq; by eexists) eq_refl ltac:(rewrite zlen_node; simpl; unfold zlen; simpl; lia)).
  destruct (write_page _ _ _ s1) as [[[]|e|] s2]; simpl; try done. destruct Hw as [Hh2 [Hz2 Hn2 _ _]].
  assert (Hu : is_u64 (next_page_id s)) by (unfold fits; lia).
  pose proof (set_root_ok s2 _ (next_page_id s) Hh2 Hu) as Hr. unfold after in Hr.
  destruct (set_root_btree_page _ s2) as [[[]|e|] s3]; simpl; try done. destruct Hr as (Hh3 & Hz3 & Hn3 & Hr3 & _).
  pose proof (set_rows_ok s3 _ 0 Hh3 ltac:(done)) as Hc. unfold after in Hc.
  destruct (set_btree_row_count 0 s3) as [[[]|e|] s4]; simpl; try done. destruct Hc as (Hh4 & Hz4 & Hn4 & Hr4 & Hc4).
  split_and!; [|done|congruence|congruence|done]. eexists _, (TLeaf (next_page_id s) PageVersion_initial []). split; [|done].
  assert (Hsize : data_size s4 = data_size s) by congruence. pose proof (order_bounds (data_size s) (proj1 Hsz)).
  constructor; simpl.
  - constructor; simpl.
    + exact Hh4.
    + split; simpl; [apply NoDup_singleton|]. constructor; [|constructor]. unfold holds_node. simpl.
      rewrite lookup_insert_eq. split_and!; [done|done|done|]. clear HE.
      change (zlen _) with 21. lia.
    + done.
    + congruence.
    + split; constructor.
    + done.
    + constructor; simpl; [done|]. clear HE. apply Z.div_le_lower_bound; lia.
    + split; [done|congruence].
  - repeat constructor.
  - constructor; [|constructor]. clear HE. simpl. change (zlen _) with 0. lia.
  - constructor.
  - by rewrite Hsize.
Qed.

(** A read leaves the table as it is. *)
Lemma stored_get {faults : Prop} E fuel b m t n k lsn : stored_as E b m t n -> (n < fuel)%nat ->
  (forall v, value_at (contents t) k lsn = Some v -> is_external_value v = false) ->
  BTreeLaws.runs (faults := faults) (get_internal fuel k lsn) b (fun r b' =>
    r = value_at (contents t) k lsn /\ row_count b' = row_count b /\ stored_as E b' m t n).
Proof.
  intros Hst Hfu Hx. pose proof Hst as [Hok _ _ _ _].
  eapply runs_mono; [|by eapply (get_ok fuel b m t n k lsn Hok)].
  intros r b2 (Hr & Hs2 & Hok2). split_and!; [done|by rewrite (sm_rows _ _ _ Hs2)|].
  destruct Hst, Hs2. constructor; try done; congruence.
Qed.

(** A new table after a sequence of calls. *)
Lemma history_ok E id name s m b es fuel : holds s m -> PagedBTree.new id name s = Ok b -> 0 <= E ->
  21 + calculate_max_order (data_size s) * E <= data_size s -> Forall (entries_fit E) (states [] es) ->
  next_page_id s + 1 + zlen es * (zlen es + 2) < 2 ^ 62 ->
  (Z.to_nat (next_page_id s + 1 + zlen es * (zlen es + 2)) <= fuel)%nat ->
  runs (perform_all fuel es) b (fun _ b' => exists m' t' n', stored_as E b' m' t' n' /\
    (contents t', row_count b') = foldl advance ([], 0) es /\ size b' = data_size s /\
    max_order b' = calculate_max_order (data_size s) /\
    (n' < fuel)%nat /\ (n' <= length es)%nat).
Proof.
  intros Hs Hnew HE Hpage Hfit Hbud Hfuel. pose proof (zlen_nonneg es) as Hlen. pose proof (next_page_bound _ _ Hs) as Hnb.
  pose proof (new_ok E id name s m Hs ltac:(nia) Hpage) as Hb. rewrite Hnew in Hb.
  destruct Hb as ((m0 & t0 & Hst & Ht0) & Hr0 & Hn0 & Hsz0 & Ho0).
  eapply runs_mono; [|eapply (perform_all_ok E fuel es b m0 t0 0); [exact Hst|done|by rewrite Ht0| |]].
  - intros _ b' (m' & t' & n' & Hst' & Hc & Hsz & Hf' & Hn' & Ho'). rewrite Ht0, Hr0 in Hc. exists m', t', n'.
    split_and!; try done; [congruence|congruence|].
    pose proof Hst' as [Hok' _ _ _ _]. pose proof (fewer_nodes _ _ _ _ Hok').
    pose proof (depth_nodes n' t' 0 (ok_depth _ _ _ _ Hok')). unfold enough in Hf'. lia.
  - constructor; [rewrite Hn0; lia|rewrite Hr0; nia].
  - unfold enough. rewrite Hn0. simpl. lia.
Qed.

(** A table opened on a store with the same pages. *)
Lemma open_stored E b m t n id name s : stored_as E b m t n -> holds s m -> data_size s = size b ->
  root_btree_page s = page t -> btree_row_count s = row_count b -> max_order b = calculate_max_order (size b) ->
  stored_as E (PagedBTree.open id name s (root_btree_page s)) m t n.
Proof.
  intros [Hok Hs Hf Hfit Hr] Hh Hsz Hroot Hrows Ho. pose proof (data_size_bounds _ _ Hh) as Hb.
  destruct Hok. constructor; simpl; rewrite ?Hsz, <- ?Ho; try done.
  constructor; simpl; rewrite ?Hsz, ?Hroot, ?Hrows; try done.
  - constructor; simpl; [apply order_bounds; lia|]. clear -Hb Hsz. apply Z.div_le_lower_bound; lia.
  - split; [apply ok_rows0|done].
Qed.

(** C25: a sequence of insertions, deletions and commits on a new table of a
    store refines an ordered map of version chains: if no key with its chain
    takes more than [E] bytes at any time, where [max_order] entries of that
    size fit in a page (some fifty bytes in a page of 4 KiB), and the value
    read does not have the shape of an encoded ValueRef, then every call of the sequence returns (or the store
    itself failed), and afterwards the tree is balanced, in key order and holds
    exactly the entries of the map, with fewer than [max_order] keys in every
    node, the row count is that of the map's history, and a read at any LSN
    returns the value the map has there. *)
Theorem paged_btree_refines E id name s m b es fuel k lsn
    (Hs : holds s m) (Hnew : PagedBTree.new id name s = Ok b) (HE : 0 <= E)
    (Hpage : 21 + calculate_max_order (data_size s) * E <= data_size s)
    (Hfit : Forall (entries_fit E) (states [] es))
    (Hbud : next_page_id s + 1 + zlen es * (zlen es + 2) < 2 ^ 62)
    (Hfuel : (Z.to_nat (next_page_id s + 1 + zlen es * (zlen es + 2)) <= fuel)%nat) :
  let a := foldl advance ([], 0) es in
  (forall v, value_at a.1 k lsn = Some v -> is_external_value v = false) ->
  runs (_ ← perform_all fuel es; get_internal fuel k lsn) b (fun r b' =>
    r = value_at a.1 k lsn /\ row_count b' = a.2 /\
    exists n, stored E b' a.1 n /\ (n <= length es)%nat).
Proof.
  intros a Hx. apply runs_bind.
  eapply runs_mono; [|by eapply (history_ok E id name s m b es fuel)].
  intros _ b' (m' & t' & n' & Hst' & Hc & _ & _ & Hf' & Hn'). fold a in Hc.
  assert (Hl : contents t' = a.1 /\ row_count b' = a.2) by (by rewrite <- Hc). destruct Hl as [Hl Hrows].
  rewrite <- Hl in Hx. eapply runs_mono; [|by eapply (stored_get E fuel b' m' t' n' k lsn)].
  intros r b2 (-> & Hr & Hst2). rewrite Hl, Hr. split_and!; [done|done|]. exists n'. split; [|done]. by exists m', t'.
Qed.

(** C27: an insertion while other threads read the table: the search finds
    the leaf of the key, its version check passes, and the entry is put in
    front of the key's chain or added; nodes that are full or too big are
    split up to the root.  Afterwards the tree is in order and of one depth
    again, holds the old map with the new chain under the key, has one more
    row when the key is new, and no page outside the tree was changed. *)
Theorem paged_insert_spec E others fuel b m t n k value tx lsn (Hok : table_ok b m t n) (Hf : (n < fuel)%nat)
    (Hrd : readers (faults := store_faults) others m t n) (Hroom : room E b t)
    (HE : 12 + zlen k + zlen (chain_to_bytes (new_chain (BTreeMap.get (contents t) k) value tx lsn)) <= E) :
  runs (insert_internal others fuel k value tx lsn) b (fun _ b' => exists m' t' n',
    changed E b b' m t n (BTreeMap.insert (contents t) k (new_chain (BTreeMap.get (contents t) k) value tx lsn))
      (inserted_rows b t k) m' t' n').
Proof.
  pose proof (zlen_nonneg (chain_to_bytes (new_chain (BTreeMap.get (contents t) k) value tx lsn))).
  apply insert_loop_ok; try done; lia.
Qed.
End Laws.
End BTreeTable.

(** ** A table in memory *)
Module Sample.
Import BTreeTable.
#[local] Existing Instance ToyChains.toy.
#[local] Existing Instance ToyChains.toy_laws.

Definition table : PagedBTree.t MemoryPages.t :=
  match PagedBTree.new 1 "t" MemoryPages.new with
  | Ok b => b
  | _ => PagedBTree.mk 1 "t" MemoryPages.new 0 0 4 2 2419
  end.
Definition events : list event :=
  [Put [5] [8] 1 0; Put [3] [9] 1 0; Commit 1 4; Put [3] [7] 2 6; Delete [5] 3; Commit 3 8].
End Sample.

Lemma paged_btree_refines_witness :
  BTreeLaws.BTreeLaws.runs (S := MemoryPages.t) (faults := False)
    (_ ← @BTreeTable.perform_all _ _ ToyChains.toy 60 Sample.events;
     @PagedBTree.get_internal _ _ ToyChains.toy 60 [3] 5) Sample.table
    (fun r b' => r = Some [9] /\ PagedBTree.row_count b' = 1).
Proof.
  eapply BTreeLaws.BTreeLaws.runs_mono; cycle 1.
  - refine (@BTreeTable.paged_btree_refines MemoryPages.t _ MemoryPages.store_laws ToyChains.toy
      ToyChains.toy_laws 50 1 "t" MemoryPages.new ∅ Sample.table Sample.events 60 [3] 5 MemoryPages.new_holds _ _ _ _ _ _ _).
    + vm_compute. reflexivity.
    + done.
    + vm_compute. done.
    + apply (bool_decide_eq_true_1 (Forall (BTreeTable.entries_fit 50) (BTreeTable.states [] Sample.events))).
      vm_compute. reflexivity.
    + vm_compute. reflexivity.
    + vm_compute. lia.
    + intros v. vm_compute. by intros [= <-].
  - intros r b' (-> & -> & _). split; vm_compute; reflexivity.
Defined.

(** The table after the events. *)
Module SampleTable.
#[local] Existing Instance ToyChains.toy.
#[local] Existing Instance ToyChains.toy_laws.

Definition filled : PagedBTree.t MemoryPages.t :=
  match BTreeTable.perform_all 60 Sample.events Sample.table with Some (Ok _, b) => b | _ => Sample.table end.
Lemma made : PagedBTree.new 1 "t" MemoryPages.new = Ok Sample.table.
Proof. vm_compute. reflexivity. Qed.
Lemma performed : BTreeTable.perform_all 60 Sample.events Sample.table = Some (Ok tt, filled).
Proof. vm_compute. reflexivity. Qed.
Lemma events_fit : Forall (BTreeTable.entries_fit 50) (BTreeTable.states [] Sample.events).
Proof.
  apply (bool_decide_eq_true_1 (Forall (BTreeTable.entries_fit 50) (BTreeTable.states [] Sample.events))).
  vm_compute. reflexivity.
Qed.
Lemma filled_stored : exists m t n, BTreeTable.stored_as 50 filled m t n /\
  Shape.contents t = (foldl BTreeTable.advance ([], 0) Sample.events).1 /\
  (n < 60)%nat /\ (length (Leaves.leaves t) <= 60)%nat.
Proof.
  pose proof (BTreeTable.history_ok 50 1 "t" MemoryPages.new ∅ Sample.table Sample.events 60 MemoryPages.new_holds
    made ltac:(done) ltac:(vm_compute; done) events_fit ltac:(vm_compute; done) ltac:(vm_compute; lia)) as Hh.
  unfold BTreeLaws.runs in Hh. rewrite performed in Hh.
  destruct Hh as (m & t & n & Hst & Hc & _ & _ & Hn & _). exists m, t, n. split_and!; [done|by rewrite <- Hc|done|].
  pose proof Hst as [Hok _ _ _ _]. pose proof (BTreeTable.fewer_nodes _ _ _ _ Hok) as Hf. pose proof (BTreeTable.leaves_nodes t).
  assert (Hnx : (next_page_id (PagedBTree.pager filled) <=? 60) = true) by (vm_compute; reflexivity). apply Z.leb_le in Hnx. lia.
Qed.
End SampleTable.

Lemma paged_scan_collects_witness :
  BTreeLaws.runs (S := MemoryPages.t) (faults := False)
    (@BTreeScan.scan _ _ ToyChains.toy 10 60 (Range (Included [3]) Unbounded) 5) SampleTable.filled
    (fun r _ => r = [([3], [9]); ([5], [8])]).
Proof.
  destruct SampleTable.filled_stored as (m & t & n & [Hok _ _ _ _] & Hc & Hn & Hl).
  eapply BTreeLaws.runs_mono; cycle 1.
  - refine (@BTreeScan.paged_scan_collects MemoryPages.t _ MemoryPages.store_laws ToyChains.toy ToyChains.toy_laws
      SampleTable.filled m t n (Range (Included [3]) Unbounded) 5 60 10 Hok _ Hn Hl _).
    + exact I.
    + rewrite Hc. vm_compute. lia.
  - intros r b' [_ ->]. rewrite Hc. vm_compute. reflexivity.
Defined.

Lemma paged_insert_spec_witness :
  BTreeLaws.runs (S := MemoryPages.t) (faults := False)
    (@PagedBTree.insert_internal _ _ ToyChains.toy BTreeTable.alone 60 [4] [1; 2] 7 0) SampleTable.filled
    (fun _ b' => PagedBTree.row_count b' = 2).
Proof.
  destruct SampleTable.filled_stored as (m & t & n & Hst & Hc & Hn & Hl). pose proof Hst as [Hok _ _ _ _].
  eapply BTreeLaws.runs_mono; cycle 1.
  - refine (@BTreeTable.paged_insert_spec MemoryPages.t _ MemoryPages.store_laws ToyChains.toy ToyChains.toy_laws
      50 BTreeTable.alone 60 SampleTable.filled m t n [4] [1; 2] 7 0 Hok Hn _ _ _).
    + intros i b Hb. split; [apply BTreeLaws.same_table_refl|exact Hb].
    + apply (BTreeTable.stored_room 50 _ m t n Hst); vm_compute; done.
    + rewrite Hc. vm_compute. discriminate.
  - intros r b' (m' & t' & n' & Hch). rewrite (BTreeLaws.ch_rows _ _ _ _ _ _ _ _ _ _ _ Hch).
    unfold BTreeLaws.inserted_rows. rewrite Hc. vm_compute. reflexivity.
Defined.
