(* ===== verification/BTreeCases.v ===== *)
(** * Cases the paged B-tree gets wrong

    Evaluations of the model on small tables of order four.  Between the
    search of an insertion and its latch another insertion may split the
    leaf: the parent's version is not raised by the split, so the check of
    the path passes and the key goes to the wrong leaf. *)
From S2P Require Import Prelude Types Page Mvcc OrdMap MemTables PageStore BTreeNode BTree BTreeOps BTreeWriter BTreeScan.

Module BTreeCases.
Import BTreeNode PagedBTree PagedBTreeOps BTreeScan.
#[local] Existing Instance ToyChains.toy.

Abbreviation M := (fuelled (PagedBTree.t MemoryPages.t) TableError).
Definition nobody : nat -> M unit := fun _ => mret tt.

(** A table with nodes of at most four keys. *)
Definition small : PagedBTree.t MemoryPages.t :=
  match PagedBTree.new 1 "t" MemoryPages.new with
  | Ok b => PagedBTree.mk 1 "t" (pager b) (root_page_id b) 0 4 2 2419
  | _ => PagedBTree.mk 1 "t" MemoryPages.new 0 0 4 2 0
  end.
Fixpoint put_all (l : list (bytes * bytes)) : M unit :=
  match l with
  | [] => mret tt
  | (k, v) :: l => _ ← insert_internal nobody 10 k v 1 5; put_all l
  end.
Definition result {A} (m : M A) : option (outcome TableError A) := fst <$> m small.
Definition numbers (l : list Z) : list (bytes * bytes) := map (fun x => ([x], [x])) l.

(** An insertion during which another thread splits the leaf puts its
    key into the left half although the parent now sends the key to the right
    one: both insertions return, and the key cannot be found any more. *)
Example concurrent_split_loses_key :
  let other := fun _ => insert_internal nobody 10 [4] [4] 1 5 in
  result (_ ← put_all (numbers [1; 2; 10; 11; 3]);
          _ ← insert_internal other 10 [5] [5] 1 5;
          a ← get_internal 10 [4] 9;
          c ← get_internal 10 [5] 9;
          mret (a, c)) = Some (Ok (Some [4], None)).
Proof. vm_compute. reflexivity. Qed.

(** An excluded start that is not in the table: the entry behind it is
    passed over. *)
Example excluded_start_skips_an_entry :
  result (_ ← put_all (numbers [1; 3; 5]); scan 9 9 (Range (Excluded [2]) Unbounded) 9) = Some (Ok [([5], [5])]).
Proof. vm_compute. reflexivity. Qed.

(** A value of eleven bytes that begins with 1 is taken for a reference to
    page 2: a read returns bytes of that page, a scan the value itself. *)
Definition misread : bytes := [1; 2; 0; 0; 0; 0; 0; 1; 0; 0; 0].
Example inline_value_misread :
  result (_ ← put_all [([7], misread)]; v ← get_internal 9 [7] 9; l ← scan 9 9 All 9; mret (v, l))
    = Some (Ok (Some [1], [([7], misread)])).
Proof. vm_compute. reflexivity. Qed.

(** A plain value that begins with 1 can be read but not streamed. *)
Example plain_value_not_streamed :
  result (_ ← put_all [([7], [1; 7])]; get_internal 9 [7] 9) = Some (Ok (Some [1; 7])) /\
  result (_ ← put_all [([7], [1; 7])]; PagedBTreeWriter.get_stream 9 [7] 9)
    = Some (Err (Corruption "ValueRef decode" "invalid_encoding")).
Proof. vm_compute. split; reflexivity. Qed.

Definition erase (k : Z) : M bool := delete_internal 10 [k] 2.

(** Vacuum frees a leaf that became empty and takes it out of its parent, but
    the leaf before it still links to it: a scan from the left fails. *)
Example vacuum_breaks_the_leaf_chain :
  result (_ ← put_all (numbers [1; 2; 3; 4; 5; 6]); _ ← erase 3; _ ← erase 4;
          _ ← commit_versions_for_tx 10 2 6; _ ← vacuum 10 20;
          v ← get_internal 9 [5] 9; mret v) = Some (Ok (Some [5])) /\
  result (_ ← put_all (numbers [1; 2; 3; 4; 5; 6]); _ ← erase 3; _ ← erase 4;
          _ ← commit_versions_for_tx 10 2 6; _ ← vacuum 10 20;
          scan 9 9 All 9) = Some (Err (TablePager (PageNotFound 3))).
Proof. vm_compute. split; reflexivity. Qed.

(** Vacuum removes an entry whose newest version is an empty value, whether
    or not the deletion was committed: the committed value is gone. *)
Example vacuum_applies_uncommitted_deletes :
  result (_ ← put_all (numbers [1; 2]); _ ← erase 2; get_internal 9 [2] 9) = Some (Ok (Some [2])) /\
  result (_ ← put_all (numbers [1; 2]); _ ← erase 2; _ ← vacuum 10 0; get_internal 9 [2] 9) = Some (Ok None).
Proof. vm_compute. split; reflexivity. Qed.

(** [last] under an upper bound steps back into the bounds with [exhausted]
    still set: the cursor has a key but is not valid. *)
Definition position {A} (s : ScanBounds) (m : fuelled (Cursor * PagedBTree.t MemoryPages.t) TableError A) : M Cursor := fun b =>
  match m (mkCursor 9 s 0 0 None None false false, b) with
  | Some (Ok _, (c, b')) => Some (Ok c, b')
  | Some (Err e, (_, b')) => Some (Err e, b')
  | Some (Panic, (_, b')) => Some (Panic, b')
  | None => None
  end.
Example last_below_a_bound_is_invalid :
  result (_ ← put_all (numbers [1; 3; 5]); c ← position (Range Unbounded (Included [3])) (last 9);
          mret (valid c, current_key c)) = Some (Ok (false, Some [3])).
Proof. vm_compute. reflexivity. Qed.
(** Going backwards ends at the first entry of a leaf. *)
Example prev_stops_at_a_leaf :
  result (_ ← put_all (numbers [1; 2; 3; 4; 5; 6]); c ← position All (_ ← last 9; _ ← prev 9; prev 9);
          mret (valid c)) = Some (Ok false).
Proof. vm_compute. reflexivity. Qed.
End BTreeCases.
