(* ===== verification/TableFile.v ===== *)
(** * A paged B-tree in a database file

    The table of [BTreeTable.v] over the pager of [PagerPages.v]: what was
    committed to a table is read from the file after it was synced and opened
    again, and the node pages are stored as they are, whatever compression or
    encryption the pager is configured with. *)
From S2P Require Import Prelude Types Vfs PagerConfig Page Cache PagerMeta Pager PagerStore PagerLife PagerContract Overflow Mvcc OrdMap MemTables MemTableLaws PageStore PagerPages BTreeNode BTree BTreeWriter BTreeShape BTreeLaws BTreeLeaves BTreeReads BTreeTable.

Module TableFile.
Import PagerStore PagerLife PagerContract PagerPages BTreeLaws BTreeReads BTreeTable.

Section File.
Context {F : Type} `{FileLaws F} `{CodecsLaws} `{ChainCodecLaws}.
Variable map_order : gmap PageId PageId -> list (PageId * PageId).
Variable cache_order : gmap PageId CacheShard.CacheEntry -> list (PageId * CacheShard.CacheEntry).
Variable crc32 : bytes -> Z.
Variable es : nat -> nat -> Pager.env.
Variable chain_fuel : nat.
Hypothesis map_order_all : forall m, map_order m ≡ₚ map_to_list m.
Hypothesis cache_order_all : forall m, cache_order m ≡ₚ map_to_list m.
Hypothesis es_ok : forall n i, env_ok (es n i).

#[local] Instance file_pages : PageStore (PagerPages.t F) := pages map_order crc32 es chain_fuel.
#[local] Instance file_laws : PageStoreLaws (PagerPages.t F) := pages_laws map_order crc32 es es_ok chain_fuel.

(** C26: a table is made in a new database file and filled by a sequence of
    insertions, deletions and commits that all return; the pager syncs.  Then
    the file opens again, and a read from the table opened at the root the
    file names finds what the map of version chains has there, and the row
    count is the same; the file must not be encrypted, its page map must have
    at most fifteen pairs, no key with its chain may take more than [E] bytes
    at any time, where [max_order] entries of that size fit in a page, and the
    value read must not have the shape of an encoded ValueRef. *)
Theorem table_survives_reopen c e0 f s0 b id name E evs fuel b1 e1 e2 s1 ofuel k lsn
    (He : env_ok e0 /\ env_ok e2) (Hf : is_u64 (zlen (contents f)))
    (Hcreate : Pager.create map_order e0 (Ok f) c = Ok s0)
    (Hnew : PagedBTree.new id name (PagerPages.mk s0 0) = Ok b)
    (HE : 0 <= E) (Hpage : 21 + calculate_max_order (data_size (PagerPages.mk s0 0)) * E <= data_size (PagerPages.mk s0 0))
    (Hfit : Forall (entries_fit E) (states [] evs))
    (Hbud : next_page_id (PagerPages.mk s0 0) + 1 + zlen evs * (zlen evs + 2) < 2 ^ 62)
    (Hfuel : (Z.to_nat (next_page_id (PagerPages.mk s0 0) + 1 + zlen evs * (zlen evs + 2)) <= fuel)%nat)
    (Hrun : perform_all fuel evs b = Some (Ok tt, b1))
    (Hsync : Pager.sync map_order cache_order e1 e2 (PagerPages.pager (PagedBTree.pager b1)) = (Ok tt, s1))
    (Hkey : Pager.key s1 = None) (Hmap : PageMapper.mapping_count (Pager.page_mapper s1) <= 15) :
  let a := foldl advance ([], 0) evs in
  (forall v, value_at a.1 k lsn = Some v -> PagedBTreeWriter.is_external_value v = false) ->
  exists s2, Pager.open ofuel (Ok (Pager.file s1)) = Some (Ok s2) /\
    let b2 := PagedBTree.open id name (PagerPages.mk s2 0) (Pager.root_btree_page s2) in
    PagedBTree.row_count b2 = a.2 /\
    runs (faults := False) (PagedBTree.get_internal fuel k lsn) b2 (fun r _ => r = value_at a.1 k lsn).
Proof.
  intros a Hx. destruct He as [He0 He2]. destruct (create_inv map_order cache_order map_order_all cache_order_all e0 f c s0 He0 Hf Hcreate) as (Hs0 & Hm0 & _).
  assert (Hh : holds (PagerPages.mk s0 0) ∅) by (exists [], ∅; split_and!; [done|done|by rewrite fmap_empty]).
  pose proof (history_ok E id name _ _ b evs fuel Hh Hnew HE Hpage Hfit Hbud Hfuel) as Hrun'.
  unfold runs in Hrun'. rewrite Hrun in Hrun'. destruct Hrun' as (m & t & n & Hst & Hc & Hsz & Ho & Hfu & _). fold a in Hc.
  assert (Hl : Shape.contents t = a.1 /\ PagedBTree.row_count b1 = a.2) by (by rewrite <- Hc). destruct Hl as [Hl Hrows].
  pose proof Hst as [Hok _ _ _ _]. pose proof Hok as [(lost & pm & Hps & Hpm & ->) _ _ Hroot _ _ _ [_ Hcnt]].
  destruct (sync_inv map_order cache_order cache_order_all _ pm e1 e2 s1 Hps Hpm He2 Hsync) as (Hs1 & Hm1 & Ec & Ed & Em).
  destruct (open_good map_order map_order_all s1 pm ofuel) as (s2 & Hopen & Hg2 & _ & Hroot2 & Hrow2 & Hps2');
    [by exists lost|done|done|done|]. exists s2. split; [done|]. intros b2.
  destruct (sync_kept map_order cache_order _ pm e1 e2 s1 lost cache_order_all Hps Hpm He2 Hsync) as [Kr Kc].
  destruct Hg2 as (lost2 & Hps2 & Hpm2). simpl in Hroot, Hcnt.
  assert (Hst2 : stored_as E b2 (Page.data <$> pm) t n).
  { refine (open_stored E b1 (Page.data <$> pm) t n id name (PagerPages.mk s2 0) Hst _ _ _ _ _);
      [by exists lost2, pm| |simpl; congruence|simpl; congruence|].
    - simpl. by rewrite Hps2', Ec.
    - by rewrite Hsz. }
  rewrite <- Hl in Hx |- *. split; [simpl; congruence|].
  eapply runs_mono; [|by eapply (stored_get E fuel b2 _ t n k lsn)]. by intros r b' (-> & _).
Qed.
End File.
End TableFile.

(** ** A table in a file in memory *)
Module FileSample.
Import PagerContract BTreeTable.
#[local] Existing Instance ToyCodecs.toy.
#[local] Existing Instance ToyCodecs.toy_laws.
#[local] Existing Instance ToyChains.toy.
#[local] Existing Instance ToyChains.toy_laws.

Definition envs : nat -> nat -> Pager.env := fun _ _ => demo_env.
#[local] Instance store : PageStore (PagerPages.t MemoryFile.t) := PagerPages.pages map_to_list (fun _ => 0) envs 10.
Definition start : PagerPages.t MemoryFile.t := PagerPages.mk demo_start 0.
Definition dummy : PagedBTree.t (PagerPages.t MemoryFile.t) := PagedBTree.mk 1 "t" start 0 0 4 2 2419.
Definition table : PagedBTree.t (PagerPages.t MemoryFile.t) :=
  match PagedBTree.new 1 "t" start with Ok b => b | _ => dummy end.
Definition filled : PagedBTree.t (PagerPages.t MemoryFile.t) :=
  match perform_all 60 Sample.events table with Some (Ok _, b) => b | _ => dummy end.
Definition synced : Pager.t MemoryFile.t :=
  (Pager.sync map_to_list map_to_list demo_env demo_env (PagerPages.pager (PagedBTree.pager filled))).2.

Lemma file_created : Pager.create map_to_list demo_env (Ok demo_file) demo_config = Ok demo_start.
Proof. vm_compute. reflexivity. Qed.
Lemma opened : PagedBTree.new 1 "t" (PagerPages.mk demo_start 0) = Ok table.
Proof. vm_compute. reflexivity. Qed.
Lemma file_performed : perform_all 60 Sample.events table = Some (Ok tt, filled).
Proof. vm_compute. reflexivity. Qed.
Lemma synced_ok : Pager.sync map_to_list map_to_list demo_env demo_env
  (PagerPages.pager (PagedBTree.pager filled)) = (Ok tt, synced).
Proof. vm_compute. reflexivity. Qed.
End FileSample.

Lemma table_survives_reopen_witness :
  exists s2, Pager.open (H0 := ToyCodecs.toy) 1 (Ok (Pager.file FileSample.synced)) = Some (Ok s2) /\
    PagedBTree.row_count (@PagedBTree.open _ FileSample.store 1 "t" (PagerPages.mk s2 0) (Pager.root_btree_page s2)) = 1.
Proof.
  destruct (@TableFile.table_survives_reopen MemoryFile.t _ _ ToyCodecs.toy ToyCodecs.toy_laws ToyChains.toy ToyChains.toy_laws
    map_to_list map_to_list (fun _ => 0) FileSample.envs 10 (fun m => reflexivity _) (fun m => reflexivity _)
    (fun _ _ => PagerContract.session_env_ok) PagerContract.demo_config PagerContract.demo_env PagerContract.demo_file
    PagerContract.demo_start FileSample.table 1 "t" 50 Sample.events 60 FileSample.filled PagerContract.demo_env
    PagerContract.demo_env FileSample.synced 1 [3] 5) as (s2 & Ho & Hr & _).
  - split; exact PagerContract.session_env_ok.
  - vm_compute. done.
  - exact FileSample.file_created.
  - exact FileSample.opened.
  - done.
  - vm_compute. done.
  - apply (bool_decide_eq_true_1 (Forall (@BTreeTable.entries_fit ToyChains.toy 50) (BTreeTable.states [] Sample.events))).
    vm_compute. reflexivity.
  - vm_compute. reflexivity.
  - vm_compute. lia.
  - exact FileSample.file_performed.
  - exact FileSample.synced_ok.
  - vm_compute. reflexivity.
  - vm_compute. discriminate.
  - intros v. vm_compute. by intros [= <-].
  - exists s2. split; [exact Ho|]. refine (eq_trans Hr _). vm_compute. reflexivity.
Defined.
