(* ===== verification/LogRoom.v ===== *)
(** * Progress of the log

    When the calls of a [WalWriter] return.  The theorems of [WalWriter] are
    about calls that succeed; here are sufficient conditions for success: a
    file whose writes succeed ([FileTotal], met by the file in memory), a
    configuration without codecs, and room below the log's limit for the
    records to come ([room]). *)
From S2P Require Import Prelude Types Vfs PagerConfig WalRecord WalWriter.
Import WalWriter.

Class FileTotal (F : Type) `{FileOps F} : Prop := {
  write_all_total f buf : 0 <= cursor f -> is_u64 (cursor f + zlen buf) -> exists f', write_all buf f = (Ok tt, f');
  sync_data_total f : exists f', sync_data f = (Ok tt, f') }.

#[global] Instance MemoryFile_total : FileTotal MemoryFile.t.
Proof.
  split; [|by eexists]. intros f buf Hc Hb. simpl in *. unfold MemoryFile.write_all.
  destruct (zlen buf =? 0); [by eexists|]. unfold MemoryFile.write. unfold mbind, stateful_bind.
  rewrite as_u_id by done. destruct (Z.ltb_spec (MemoryFile.pos f + zlen buf) (MemoryFile.pos f));
    [pose proof (zlen_nonneg buf); lia|by eexists].
Qed.

Module LogRoom.
Section Room.
Context `{CodecsLaws} {F : Type} `{FileLaws F} `{!FileTotal F}.
Implicit Types (w : t F).

(** The size of a record without codecs. *)
Definition record_size (d : RecordData.t) : Z := 63 + zlen (WalRecord.serialize_data d).

(** Room for [n] records of [b] bytes together. *)
Record room (b : Z) (n : nat) w : Prop := {
  room_compression : compression (config w) = CompressionType.None_;
  room_encryption : encryption (config w) = EncryptionType.None_;
  room_cursor : 0 <= cursor (file w);
  room_buffer : cursor (file w) + zlen (buffer (state w)) <= current_offset (state w);
  room_bytes : 0 <= b /\ current_offset (state w) + b <= max_wal_size (config w) < 2 ^ 63;
  room_lsn : 0 <= current_lsn (state w) /\ current_lsn (state w) + Z.of_nat n < 2 ^ 64 }.

(** What flushing changes: neither the LSN nor the active transactions. *)
Definition flushed w w' : Prop :=
  config w' = config w /\ current_lsn (state w') = current_lsn (state w) /\
  current_offset (state w') = current_offset (state w) /\ active_txns (state w') = active_txns (state w).

Lemma plain_to_bytes ts l d key nonce :
  exists bs, WalRecord.to_bytes (WalRecord.new ts l d CompressionType.None_ EncryptionType.None_) key nonce = Ok bs /\
    zlen bs = record_size d.
Proof.
  eexists. split; [reflexivity|]. unfold record_size.
  rewrite !zlen_app, sha256_len, WalRecord.zlen_header. simpl. lia.
Qed.

Lemma flush_with_ok sync w : 0 <= cursor (file w) -> is_u64 (cursor (file w) + zlen (buffer (state w))) ->
  exists w', flush_with sync w = (Ok tt, w') /\ flushed w w' /\ 0 <= cursor (file w') /\
    cursor (file w') + zlen (buffer (state w')) <= cursor (file w) + zlen (buffer (state w)).
Proof.
  intros Hc Hb. unfold flush_with. unfold mbind, stateful_bind, gets at 1. simpl.
  destruct (Z.eqb_spec (zlen (buffer (state w))) 0) as [He|He].
  { eexists. split; [reflexivity|]. split; [done|]. lia. }
  destruct (write_all_total (file w) (buffer (state w)) Hc Hb) as [f1 Hw].
  destruct (write_all_ok (file w) (buffer (state w)) f1 Hc Hb) as [Hcur _]; [intros Hn; apply He; by rewrite Hn|done|].
  unfold on_file at 1. rewrite Hw. simpl. pose proof (zlen_nonneg (buffer (state w))).
  destruct (sync (config w)); simpl.
  - unfold on_file. simpl. destruct (sync_data_total f1) as [f2 Hs]. rewrite Hs.
    destruct (sync_data_ok f1 f2 Hs) as [_ Hc2].
    eexists. split; [reflexivity|]. split; [done|]. simpl. rewrite Hc2, Hcur. change (zlen []) with 0. lia.
  - eexists. split; [reflexivity|]. split; [done|]. simpl. rewrite Hcur. change (zlen []) with 0. lia.
Qed.

Lemma room_flushed b n w w' : room b n w -> flushed w w' -> 0 <= cursor (file w') ->
  cursor (file w') + zlen (buffer (state w')) <= cursor (file w) + zlen (buffer (state w)) -> room b n w'.
Proof. intros [] (Hc & Hl & Ho & _) ??. constructor; rewrite ?Hc, ?Hl, ?Ho; try done. lia. Qed.

Lemma room_weaken b n b' n' w : room b n w -> 0 <= b' <= b -> (n' <= n)%nat -> room b' n' w.
Proof. intros [] ??. constructor; try done; lia. Qed.

(** A record with room for it is written, at the current LSN. *)
Lemma write_data_ok b n w e d : room b (S n) w -> record_size d <= b ->
  exists w', write_data e d w = (Ok (current_lsn (state w)), w') /\ room (b - record_size d) n w' /\
    current_lsn (state w') = current_lsn (state w) + 1 /\ active_txns (state w') = active_txns (state w) /\
    config w' = config w.
Proof.
  intros [Hcp He Hcur Hbuf Hby Hl] Hd. unfold write_data, write_record_internal.
  unfold gets, upd, modify, lift, mret, stateful_ret, mbind, stateful_bind. rewrite Hcp, He.
  destruct (plain_to_bytes (now e) (current_lsn (state w)) d (encryption_key (config w)) (nonce e)) as (bs & -> & Hbs).
  pose proof (zlen_nonneg (buffer (state w))). pose proof (zlen_nonneg bs).
  rewrite as_u_id by (unfold fits; lia). unfold ensure.
  destruct (Z.leb_spec (current_offset (state w) + zlen bs) (max_wal_size (config w))); [|lia]. simpl.
  set (w1 := set_state w (with_buffer (buffer (state w) ++ bs) (state w))).
  assert (Hw1 : forall c : bool, exists w2, (if c then flush_internal else fun s => (Ok tt, s)) w1 = (Ok tt, w2) /\ flushed w1 w2 /\
    0 <= cursor (file w2) /\
    cursor (file w2) + zlen (buffer (state w2)) <= cursor (file w1) + zlen (buffer (state w1))).
  { intros [].
    - apply flush_with_ok; [done|]. simpl. rewrite zlen_app. unfold fits. lia.
    - exists w1. split_and!; done || lia. }
  edestruct Hw1 as (w2 & -> & (Hc2 & Hl2 & Ho2 & Ha2) & Hcu2 & Hb2). simpl in Hc2, Hl2, Ho2, Ha2, Hb2. rewrite zlen_app in Hb2.
  eexists. split; [reflexivity|]. simpl. rewrite Hl2, Ha2, Hc2. split_and!; [|apply as_u_id; unfold fits; lia|done|done].
  constructor; simpl; rewrite ?Hc2, ?Hl2, ?Ho2, ?as_u_id; try done; unfold fits; lia.
Qed.
(** One more record: the LSN it got, the room left, the active transactions. *)
Definition logged (d : RecordData.t) (b : Z) (n : nat) (a : gset TransactionId) w w' : Prop :=
  room (b - record_size d) n w' /\ current_lsn (state w') = current_lsn (state w) + 1 /\
  active_txns (state w') = a /\ config w' = config w.

Lemma with_active_logged d b n a a' w w' : logged d b n a w w' ->
  logged d b n a' w (set_state w' (with_active a' (state w'))).
Proof. intros ([] & Hl & _ & Hc). by split_and!. Qed.

#[local] Ltac log_step b n :=
  match goal with |- context [write_data ?e ?d ?w] =>
    let w1 := fresh "w" in let Hd := fresh "Hd" in
    destruct (write_data_ok b n w e d) as (w1 & Hd & ? & ? & ? & ?); [done|done|]; rewrite Hd
  end.
#[local] Ltac log_call := unfold gets, lift, upd, modify, mret, stateful_ret, mbind, stateful_bind, ensure.

Lemma write_begin_ok b n w e txn : room b (S n) w -> record_size (RecordData.Begin txn) <= b ->
  txn ∉ active_txns (state w) ->
  exists w', write_begin e txn w = (Ok (current_lsn (state w)), w') /\
    logged (RecordData.Begin txn) b n ({[txn]} ∪ active_txns (state w)) w w'.
Proof.
  intros Hr Hb Ht. unfold write_begin. log_call. rewrite bool_decide_eq_true_2 by done. log_step b n.
  eexists. split; [reflexivity|]. simpl.
  match goal with Ha : active_txns _ = _ |- _ => rewrite Ha end.
  by apply (with_active_logged _ _ _ (active_txns (state w))).
Qed.

Lemma require_active_in txn w : txn ∈ active_txns (state w) -> require_active txn w = (Ok tt, w).
Proof. intros Ht. unfold require_active. log_call. by rewrite bool_decide_eq_true_2. Qed.

(** WRITE and PREPARE. *)
Lemma write_operation_ok b n w e txn table op k v : room b (S n) w ->
  record_size (RecordData.Write txn table op k v) <= b -> txn ∈ active_txns (state w) ->
  exists w', write_operation e txn table op k v w = (Ok (current_lsn (state w)), w') /\
    logged (RecordData.Write txn table op k v) b n (active_txns (state w)) w w'.
Proof.
  intros Hr Hb Ht. unfold write_operation, mbind, stateful_bind. rewrite require_active_in by done.
  log_step b n. by eexists.
Qed.
Lemma write_prepare_ok b n w e txn : room b (S n) w ->
  record_size (RecordData.Prepare txn) <= b -> txn ∈ active_txns (state w) ->
  exists w', write_prepare e txn w = (Ok (current_lsn (state w)), w') /\
    logged (RecordData.Prepare txn) b n (active_txns (state w)) w w'.
Proof.
  intros Hr Hb Ht. unfold write_prepare, mbind, stateful_bind. rewrite require_active_in by done.
  log_step b n. by eexists.
Qed.

(** A coordinator that answers, and does no more than flush. *)
Definition answers (submit : TransactionId -> LogSequenceNumber -> stateful (t F) WalError unit) : Prop :=
  forall txn lsn b n w, room b n w -> exists w', submit txn lsn w = (Ok tt, w') /\ flushed w w' /\ room b n w'.

Lemma flush_answers sync : answers (fun _ _ => flush_with sync).
Proof.
  intros txn lsn b n w Hr. pose proof Hr as [].
  destruct (flush_with_ok sync w) as (w' & Hf & Hfl & Hc & Hb); [done|unfold fits|].
  { pose proof (zlen_nonneg (buffer (state w))). lia. }
  exists w'. split_and!; [done|done|]. by eapply room_flushed.
Qed.

Lemma write_commit_ok submit b n w e txn : answers submit -> room b (S n) w ->
  record_size (RecordData.Commit txn) <= b -> txn ∈ active_txns (state w) ->
  exists w', write_commit submit e txn w = (Ok (current_lsn (state w)), w') /\
    logged (RecordData.Commit txn) b n (active_txns (state w) ∖ {[txn]}) w w'.
Proof.
  intros Hs Hr Hb Ht. unfold write_commit, write_commit_record. log_call. rewrite require_active_in by done.
  log_step b n. simpl.
  match goal with |- context [set_state ?x (with_active ?a _)] =>
    assert (Hl : logged (RecordData.Commit txn) b n a w (set_state x (with_active a (state x))))
      by (by apply (with_active_logged _ _ _ (active_txns (state w)))) end.
  match goal with Ha : active_txns _ = active_txns (state w) |- _ => rewrite Ha in * end.
  set (w1 := set_state _ _) in *. destruct Hl as (Hr1 & Hl1 & Ha1 & Hc1).
  assert (Hf : forall f : stateful (t F) WalError unit, f = (if group_commit_enabled (config w1) then
      submit txn (current_lsn (state w)) else if sync_on_write (config w1) then flush else fun s => (Ok tt, s)) ->
    exists w2, f w1 = (Ok tt, w2) /\ flushed w1 w2 /\ room (b - record_size (RecordData.Commit txn)) n w2).
  { intros f ->. destruct (group_commit_enabled (config w1)); [by apply Hs|].
    destruct (sync_on_write (config w1)); [by apply (flush_answers _ txn 0)|by exists w1]. }
  destruct (Hf _ eq_refl) as (w2 & Hw2 & (Hc2 & Hl2 & _ & Ha2) & Hr2). simpl in Hw2 |- *. rewrite Hw2.
  eexists. split; [reflexivity|]. split_and!; [done|..]; congruence.
Qed.

End Room.
End LogRoom.
