(* ===== verification/EngineTxn.v ===== *)
(** * Transactions that succeed

    A transaction of one write, in an engine whose tables are in memory and
    whose log has room, commits: the progress the [TableHandle] calls of
    [Engine] rely on. *)
From S2P Require Import Prelude Types Vfs PagerConfig WalRecord WalReader WalWriter Mvcc Conflict OrdMap MemTables MemTableLaws Transaction TransactionLaws LogRoom.
Import Transaction TransactionLaws LogRoom.

Module EngineTxn.
Section Progress.
Context `{CodecsLaws} {F : Type} `{FileLaws F} `{!FileTotal F} {E : Type} `{TableEngines E} (chain_size : Z).
Implicit Types (s : Sys F E).

Lemma size_begin txn : record_size (RecordData.Begin txn) = 71.
Proof. done. Qed.
Lemma size_prepare txn : record_size (RecordData.Prepare txn) = 71.
Proof. done. Qed.
Lemma size_commit txn : record_size (RecordData.Commit txn) = 71.
Proof. done. Qed.
Lemma size_write txn o op k v : record_size (RecordData.Write txn o op k v) = 88 + zlen k + zlen v.
Proof. unfold record_size. simpl. zlen_tac. Qed.

(** The transactions of the handles. *)
Definition auto (id : TransactionId) (lsn : LogSequenceNumber) : Transaction.t := build id lsn ReadCommitted SyncOnCommit.
Definition wrote (id : TransactionId) (lsn : LogSequenceNumber) (o : TableId) (k : bytes) (v : option bytes) : Transaction.t :=
  set_write_set {[(o, k) := v]} (auto id lsn).

(** The system with a transaction's write buffered, its key locked. *)
Definition with_write (id : TransactionId) (lsn : LogSequenceNumber) (o : TableId) (k : bytes) (v : option bytes)
    (l : WalWriter.t F) s : Sys F E :=
  mkSys (mkWorld (ConflictDetector.acquire_write_lock (conflict_detector (world s)) o k id) l
           (registry (world s)) (Transaction.current_lsn (world s)))
        (wrote id lsn o k v).

Lemma lock_free s o k txn : ConflictDetector.write_locks (conflict_detector (world s)) = ∅ ->
  ConflictDetector.check_write_conflict (conflict_detector (world s)) o k txn = Ok tt.
Proof. intros Hl. unfold ConflictDetector.check_write_conflict. by rewrite Hl, lookup_empty. Qed.

Lemma put_ok b n s id lsn e o k v : self s = auto id lsn ->
  ConflictDetector.write_locks (conflict_detector (world s)) = ∅ ->
  room b (S n) (wal (world s)) -> 88 + zlen k + zlen v <= b -> id ∈ WalWriter.active_txns (WalWriter.state (wal (world s))) ->
  exists l, put e o k v s = (Ok tt, with_write id lsn o k (Some v) l s) /\
    logged (RecordData.Write id o WriteOpType.Put k v) b n (WalWriter.active_txns (WalWriter.state (wal (world s)))) (wal (world s)) l.
Proof.
  intros Hs Hl Hr Hb Ha. unfold put. run_m. rewrite Hs. simpl. rewrite lock_free by done. simpl.
  destruct (write_operation_ok b n (wal (world s)) e id o WriteOpType.Put k v) as (w & -> & Hlog);
    [done|by rewrite size_write|done|].
  eexists. split; [|exact Hlog]. done.
Qed.

Lemma txn_delete_ok b n s id lsn e o k en : self s = auto id lsn ->
  ConflictDetector.write_locks (conflict_detector (world s)) = ∅ ->
  registry (world s) !! o = Some en -> same_kind en en ->
  room b (S n) (wal (world s)) -> 88 + zlen k <= b -> id ∈ WalWriter.active_txns (WalWriter.state (wal (world s))) ->
  exists l, delete e o k s
      = (Ok (bool_decide (is_Some (shows en (Reads.shown (engine_chain en k) lsn)))), with_write id lsn o k None l s) /\
    logged (RecordData.Write id o WriteOpType.Delete k []) b n (WalWriter.active_txns (WalWriter.state (wal (world s)))) (wal (world s)) l.
Proof.
  intros Hs Hl Hen Hk Hr Hb Ha. unfold delete, key_existed. run_m. rewrite Hs. simpl. rewrite lock_free by done. simpl.
  rewrite lookup_empty. simpl. rewrite Hen. unfold engine_contains.
  rewrite engine_read_shown by done. simpl.
  destruct (write_operation_ok b n (wal (world s)) e id o WriteOpType.Delete k []) as (w & -> & Hlog);
    [done|rewrite size_write; change (zlen []) with 0; lia|done|].
  eexists. split; [|exact Hlog]. done.
Qed.

Lemma undo_in_memory (r : gmap Z (TableEngineInstance E)) lsn l : versioned_writes r l ->
  exists u, undo_of_writes r lsn l = Ok u.
Proof.
  induction l as [|[[o k] v] l IH]; intros Hv; [by eexists|]. apply Forall_cons in Hv as [Hx Hl].
  destruct (IH Hl) as [u Hu]. simpl in Hx |- *. destruct (r !! o) as [e|]; simpl; [|rewrite Hu; by eexists].
  assert (Ho : exists w, old_value e k lsn = Ok w) by (destruct e as [b|h|]; [by eexists..|done]).
  destruct Ho as [w ->]. simpl. rewrite Hu. by eexists.
Qed.

(** The commit of one write. *)
Lemma txn_commit_ok submit es od b n s id lsn o k v : answers submit -> orders_ok od -> self s = wrote id lsn o k v ->
  room b (S (S n)) (wal (world s)) -> 142 <= b -> id ∈ WalWriter.active_txns (WalWriter.state (wal (world s))) ->
  versioned_txn s ->
  let c := WalWriter.current_lsn (WalWriter.state (wal (world s))) + 1 in
  exists r' l, commit chain_size submit es od s
      = (Ok (mkInfo id c (Some c)),
         mkSys (mkWorld (ConflictDetector.release_locks (conflict_detector (world s)) id) l r' c)
               (set_state Committed (self s))) /\
    published id c {[(o, k) := v]} (registry (world s)) r' /\ room (b - 142) n l /\
    WalWriter.current_lsn (WalWriter.state l) = c + 1 /\
    WalWriter.active_txns (WalWriter.state l) = WalWriter.active_txns (WalWriter.state (wal (world s))) ∖ {[id]}.
Proof.
  intros Hsub Hod Hs Hr Hb Ha Hv c.
  destruct (undo_in_memory (registry (world s)) (snapshot_lsn (self s)) _ (versioned_txn_writes od s Hod Hv)) as [u Hu].
  destruct (write_prepare_ok b (S n) (wal (world s)) (es 0%nat) id) as (w1 & Hw1 & Hr1 & Hl1 & Ha1 & _);
    [done|rewrite size_prepare; lia|done|]. rewrite size_prepare in Hr1.
  destruct (write_commit_ok submit (b - 71) n w1 (es 1%nat) id) as (w2 & Hw2 & Hr2 & Hl2 & Ha2 & _);
    [done|done|rewrite size_commit; lia|by rewrite Ha1|]. rewrite size_commit in Hr2.
  assert (Hlog : exists u s1, commit_log submit es od s = (Ok (u, c), s1) /\ wal (world s1) = w2).
  { unfold commit_log, collect_undo, log_commit. run_m. rewrite Hs in *. simpl in Hu |- *. rewrite Hu. simpl.
    unfold Transaction.on_wal. simpl. rewrite Hw1. simpl. unfold check_isolation. run_m. rewrite Hs. simpl. rewrite Hw2. simpl. rewrite Hl1. by do 2 eexists. }
  destruct Hlog as (u' & s1 & Hlog & Hw).
  destruct (publish_spec chain_size submit es od s u' c s1) as (r' & -> & Hp);
    [done|by rewrite Hs|done|by eapply quiet_commit_log|done|].
  rewrite Hs in Hp |- *. exists r', w2. simpl in Hp |- *. rewrite Hw, Hl2, Hl1, Ha2, Ha1. split_and!; try done.
  eapply room_weaken; [done|lia|done].
Qed.
End Progress.
End EngineTxn.
