(* ===== verification/EngineTables.v ===== *)
(** * The tables of an engine, over time

    What the engine keeps true of the version chains of its tables in memory:
    they are in commit order and every version is committed at or below the
    engine's current LSN.  Then a read at or above the current LSN is a read
    of the present, a commit at a later LSN changes no earlier read, and
    vacuum changes no read at or above its watermark. *)
From S2P Require Import Prelude Types Vfs PagerConfig WalRecord WalReader WalWriter Mvcc Conflict OrdMap MemTables MemTableLaws Transaction TransactionLaws.
Import Transaction TransactionLaws.

Module EngineTables.

(** ** Chains *)
Definition committed_by (cur : LogSequenceNumber) (x : VersionChain.Version) : Prop :=
  exists l, VersionChain.v_commit_lsn x = Some l /\ l <= cur.
Definition chain_ok (cur : LogSequenceNumber) (c : VersionChain.t) : Prop :=
  VersionChain.well_ordered c /\ Forall (committed_by cur) (VersionChain.versions c).
Definition chains_ok (cur : LogSequenceNumber) (o : option VersionChain.t) : Prop :=
  match o with Some c => chain_ok cur c | None => True end.

Lemma committed_by_mono cur cur' x : cur <= cur' -> committed_by cur x -> committed_by cur' x.
Proof. intros Hle (l & Hl & ?). exists l. split; [done|lia]. Qed.
Lemma chains_ok_mono cur cur' o : cur <= cur' -> chains_ok cur o -> chains_ok cur' o.
Proof.
  intros Hle. destruct o as [c|]; [|done]. intros [Hw Hf]. split; [done|].
  eapply Forall_impl; [exact Hf|]. intros x. by apply committed_by_mono.
Qed.
Lemma chains_ok_head cur o : chains_ok cur o -> head_committed o.
Proof.
  destruct o as [c|]; [|done]. intros [_ Hf]. rewrite VersionChain.versions_eq in Hf.
  apply Forall_cons in Hf as [(l & Hl & _) _]. simpl in Hl |- *. congruence.
Qed.

Lemma sees_reader lsn x : VersionChain.sees (read_snapshot lsn) x <-> committed_by lsn x.
Proof.
  unfold VersionChain.sees, VersionChain.visible, committed_by.
  destruct (VersionChain.v_commit_lsn x) as [l|]; [|split; [done|by intros (? & ? & _)]].
  unfold read_snapshot. rewrite Snapshot.is_visible_spec by apply Snapshot.new_watermark_ok. simpl. split.
  - intros [? _]. by exists l.
  - intros (l' & [= <-] & ?). split; [done|set_solver].
Qed.

(** Reads at and above [cur] are the same. *)
Lemma chain_present cur l o : chains_ok cur o -> cur <= l -> Reads.shown o l = Reads.shown o cur.
Proof.
  destruct o as [c|]; [|done]. intros [_ Hf] Hl. unfold Reads.shown, VersionChain.find_visible_inline.
  assert (Hc : forall l, cur <= l ->
    VersionChain.find_visible_version c (read_snapshot l) = VersionChain.v_value <$> hd_error (VersionChain.versions c)).
  { intros l' Hl'. rewrite VersionChain.find_visible_filter, filter_every; [done|].
    eapply Forall_impl; [exact Hf|]. intros x Hx. apply sees_reader. by eapply committed_by_mono. }
  rewrite !Hc by lia. done.
Qed.

(** A committed write on top of a chain. *)
Lemma chain_commit cur lsn id o u : chains_ok cur o -> cur < lsn ->
  chains_ok lsn (commit_head id lsn <$> foldl (push_change id) o (match u with Some v => [v] | None => [] end)).
Proof.
  intros Ho Hlt.
  assert (Hpush : forall v, chains_ok lsn (Some (commit_head id lsn (VersionChain.mk v id None o)))).
  { intros v. unfold commit_head, VersionChain.commit. simpl. rewrite Z.eqb_refl. simpl.
    assert (Hn : Forall (committed_by lsn) match o with Some p => VersionChain.versions p | None => [] end /\
      StronglySorted VersionChain.newer match o with Some p => VersionChain.versions p | None => [] end /\
      Forall (VersionChain.newer (VersionChain.mkVersion v id (Some lsn)))
        match o with Some p => VersionChain.versions p | None => [] end).
    { destruct o as [c|]; [|by repeat constructor]. destruct Ho as [Hw Hf]. split_and!; [|done|].
      - eapply Forall_impl; [exact Hf|]. intros x. apply committed_by_mono. lia.
      - eapply Forall_impl; [exact Hf|]. intros x (l & Hl & ?). unfold VersionChain.newer. simpl. rewrite Hl. lia. }
    destruct Hn as (Hc & Hs & Hnew). split.
    - unfold VersionChain.well_ordered. simpl. by constructor.
    - simpl. constructor; [by exists lsn|done]. }
  destruct u as [[v|]|]; simpl; [apply Hpush| |].
  - destruct o as [c|]; [apply Hpush|done].
  - destruct o as [c|]; [|done]. simpl.
    rewrite commit_head_committed by (by apply (chains_ok_head cur (Some c))).
    apply (chains_ok_mono cur lsn (Some c)); [lia|done].
Qed.

(** Vacuum of a chain. *)
Lemma chain_vacuum cur m o : chains_ok cur o ->
  let o' := (fun c => (VersionChain.vacuum c m).2) <$> o in
  chains_ok cur o' /\ forall l, m <= l -> Reads.shown o' l = Reads.shown o l.
Proof.
  destruct o as [c|]; [|done]. intros [Hw Hf]. simpl.
  destruct (VersionChain.vacuum c m) as [[n fr] c'] eqn:Hv. simpl.
  assert (Hk : forall l, m <= l -> VersionChain.find_visible_version c' (read_snapshot l)
      = VersionChain.find_visible_version c (read_snapshot l) /\
    VersionChain.well_ordered c' /\ VersionChain.versions c' `prefix_of` VersionChain.versions c).
  { intros l Hl. destruct (VersionChain.vacuum_keeps c m (read_snapshot l) n fr c' Hw Hl) as (H1 & H2 & H3 & _); [|done|done].
    intros x _ Hold. unfold VersionChain.old, VersionChain.obsolete in Hold.
    destruct (VersionChain.v_commit_lsn x) as [lx|] eqn:Hx; [|done]. apply Z.ltb_lt in Hold. simpl.
    assert (Hs : VersionChain.sees (read_snapshot l) x) by (apply sees_reader; exists lx; split; [done|lia]).
    unfold VersionChain.sees, VersionChain.visible in Hs. by rewrite Hx in Hs. }
  split.
  - destruct (Hk m) as (_ & Hw' & [t Ht]); [done|]. split; [done|]. rewrite Ht in Hf. by apply Forall_app in Hf as [? _].
  - intros l Hl. unfold Reads.shown, VersionChain.find_visible_inline. by destruct (Hk l Hl) as [-> _].
Qed.

(** ** Tables *)
Section Tables.
Context {E : Type} `{TableEngines E}.
Implicit Types (r : gmap Z (TableEngineInstance E)) (e : TableEngineInstance E).

Definition tables_ok (cur : LogSequenceNumber) r : Prop :=
  forall o e, r !! o = Some e -> same_kind e e /\ forall k, chains_ok cur (engine_chain e k).

Lemma tables_settled cur r : tables_ok cur r -> settled r.
Proof. intros Hr o e k He. destruct (Hr o e He) as [_ Hc]. by eapply chains_ok_head. Qed.

Lemma read_memory cur r o e k l : tables_ok cur r -> r !! o = Some e ->
  read_at r o k l = Ok (shows e (Reads.shown (engine_chain e k) l)).
Proof. intros Hr He. unfold read_at. rewrite He. apply engine_read_shown. by apply (Hr o). Qed.

Lemma read_present cur r o k l : tables_ok cur r -> cur <= l -> read_at r o k l = read_at r o k cur.
Proof.
  intros Hr Hl. destruct (r !! o) as [e|] eqn:He; [|unfold read_at; by rewrite He].
  rewrite !(read_memory cur r o e) by done. f_equal. f_equal. apply chain_present; [by apply (Hr o)|done].
Qed.

Lemma tables_published cur lsn id ws r r' : tables_ok cur r -> cur < lsn -> published id lsn ws r r' -> tables_ok lsn r'.
Proof.
  intros Hr Hlt Hp o e' He'. specialize (Hp o). rewrite He' in Hp. destruct (r !! o) as [e|] eqn:He; [|done].
  destruct (Hr o e He) as [Hk Hc].
  destruct Hp as [[_ [-> |[Hk' Hc']]]|[Hk' Hc']].
  - split; [done|]. intros k. eapply chains_ok_mono; [|done]. lia.
  - split; [by destruct e, e'|]. intros k. rewrite Hc'. eapply chains_ok_mono; [|done]. lia.
  - split; [by destruct e, e'|]. intros k. rewrite Hc'. by apply (chain_commit cur).
Qed.

(** The kinds of the tables: [true] for a hash table. *)
Definition kinds r : gmap Z bool :=
  (fun e => match e with EMemoryHashTable _ => true | _ => false end) <$> r.
Lemma kinds_published cur id lsn ws r r' : tables_ok cur r -> published id lsn ws r r' -> kinds r' = kinds r.
Proof.
  intros Hr Hp. apply map_eq. intros o. unfold kinds. rewrite !lookup_fmap. specialize (Hp o).
  destruct (r !! o) as [e|] eqn:He, (r' !! o) as [e'|]; try done. simpl. f_equal.
  destruct Hp as [[_ [-> |[Hk _]]]|[Hk _]]; [done|by destruct e, e'..].
Qed.

Definition vacuum_engine (m : LogSequenceNumber) e : TableEngineInstance E :=
  match e with
  | EMemoryBTree b => EMemoryBTree (MemoryBTree.vacuum m b).2
  | EMemoryHashTable h => EMemoryHashTable (MemoryHashTable.vacuum m h).2
  | EOther k x => e
  end.
Lemma vacuum_engine_chain m e k : same_kind e e ->
  engine_chain (vacuum_engine m e) k = (fun c => (VersionChain.vacuum c m).2) <$> engine_chain e k.
Proof.
  destruct e as [b|h|]; simpl; intros Hk; [apply BTreeMap.get_map_values|by rewrite lookup_fmap|done].
Qed.

Lemma tables_vacuum cur m r o e : tables_ok cur r -> r !! o = Some e ->
  let r' := <[o := vacuum_engine m e]> r in
  tables_ok cur r' /\ kinds r' = kinds r /\ forall o' k l, m <= l -> read_at r' o' k l = read_at r o' k l.
Proof.
  intros Hr He r'. destruct (Hr o e He) as [Hk Hc].
  assert (Hv : forall k, chains_ok cur (engine_chain (vacuum_engine m e) k) /\
    forall l, m <= l -> Reads.shown (engine_chain (vacuum_engine m e) k) l = Reads.shown (engine_chain e k) l).
  { intros k. rewrite vacuum_engine_chain by done. by apply chain_vacuum. }
  split_and!.
  - intros o' e' He'. unfold r' in He'. destruct (decide (o' = o)) as [->|Hne].
    + rewrite lookup_insert_eq in He'. injection He' as <-. split; [by destruct e|]. intros k. apply Hv.
    + rewrite lookup_insert_ne in He' by done. by apply (Hr o').
  - unfold kinds, r'. rewrite fmap_insert. apply insert_id. rewrite lookup_fmap, He. by destruct e.
  - intros o' k l Hl. unfold read_at, r'. destruct (decide (o' = o)) as [->|Hne].
    + rewrite lookup_insert_eq, He, !engine_read_shown by (by destruct e). destruct (Hv k) as [_ ->]; [|done]. by destruct e.
    + by rewrite lookup_insert_ne.
Qed.
End Tables.
End EngineTables.
