(* ===== verification/Engine.v ===== *)
(** * The storage engine ([src/engine.rs], [src/table.rs])

    The engine owns the catalog, the named snapshots, the log, the pager and
    the registry of tables, begins transactions and runs single operations in
    transactions of their own ([TableHandle]).

    [TableEngineRegistry] makes the tables.  The tables in memory are those of
    [MemTables]; the others are made through [EngineFactory].  The pager is a
    [PageStore] with [PagerService], the catalog's JSON is [CatalogCodec]
    (serde_json).  The iteration order of the catalog is an argument, and so
    is the clock.  Durations and the averages of [VacuumStats] are left out;
    an error is its kind. *)
From stdpp Require Import sorting.
From S2P Require Import Prelude Types Vfs PagerConfig WalRecord WalReader WalWriter Mvcc Conflict Page Overflow OrdMap MemTables Transaction PageStore.

(** ** Tables and their options ([src/table/traits.rs], [src/types.rs]) *)
Inductive TableEngineKind : Type :=
  | KBTree | KBPlusTree | KLsmTree | KArt | KHash | KMemory | KAppendLog | KColumnarSegment | KSparseOrdered
  | KBloom | KBitmap | KFullText | KVectorHnsw | KVectorIvf | KGeoSpatial | KTimeSeries | KGraphAdjacency
  | KBlob | KCustom (n : Z).
Inductive KeyEncoding : Type :=
  | RawBytes | LexicographicTuple | BigEndianInteger | Utf8 | TimestampMicros | CustomEncoding (n : Z).

(** [configs] stands for the configurations of the other kinds of table. *)
Record TableOptions (C : Type) : Type := mkOptions {
  engine : TableEngineKind;
  key_encoding : KeyEncoding;
  compression : option CompressionKind;
  encryption : option EncryptionKind;
  page_size : option Z;
  format_version : Z;
  max_inline_size : option Z;
  max_value_size : option Z;
  bloom_config : option (Z * Z);
  configs : C }.
#[global] Arguments mkOptions {C}.
#[global] Arguments engine {C}.
#[global] Arguments bloom_config {C}.
#[global] Arguments configs {C}.

Record PhysicalLocation : Type := mkLocation { page_id : PageId; offset : Z; length_ : Z }.

Record TableInfo (C : Type) : Type := mkTable {
  id : TableId;
  name : string;
  options : TableOptions C;
  root : option PhysicalLocation;
  created_lsn : LogSequenceNumber;
  metadata : gmap string bytes }.
#[global] Arguments mkTable {C}.
#[global] Arguments id {C}.
#[global] Arguments name {C}.
#[global] Arguments options {C}.
#[global] Arguments root {C}.
#[global] Arguments created_lsn {C}.
#[global] Arguments metadata {C}.

Inductive RegistryError : Type :=
  | EngineCreationFailed (engine : TableEngineKind)
  | EngineOpenFailed (engine : TableEngineKind)
  | EngineAlreadyRegistered (table : TableId)
  | EngineNotFound (table : TableId)
  | UnsupportedEngine (engine : TableEngineKind).

Inductive StorageEngineErrorKind : Type :=
  | NotFound | NotATable | NotAnIndex | KeyAlreadyExists | KeyNotFound | TableAlreadyExists
  | IndexAlreadyExists | IndexMaintenanceFailed | TransactionFailed | WalFailed | PagerFailed
  | InvalidOperation | OtherError.

(** ** Interfaces *)
(** The constructors and [vacuum] of the tables that are not modelled here,
    over the pages of the store; their errors become registry errors.
    [engine_id] is [table_id]. *)
Class EngineFactory (E P C : Type) : Type := {
  paged_new : EngineKind -> TableId -> string -> TableOptions C -> stateful P TableError (E * PageId);
  lsm_new : TableId -> string -> TableOptions C -> PageId -> stateful P TableError E;
  paged_open : EngineKind -> TableId -> string -> TableOptions C -> PageId -> stateful P TableError E;
  art_new : TableId -> string -> E;
  engine_id : E -> TableId;
  engine_vacuum : EngineKind -> LogSequenceNumber -> E -> stateful P TableError (Z * E) }.

(** serde_json on a vector of table descriptions. *)
Class CatalogCodec (C : Type) : Type := {
  to_json : list (TableInfo C) -> option bytes;
  from_json : bytes -> option (list (TableInfo C)) }.
(** Documented behaviour: what [to_vec] writes, [from_slice] reads back. *)
Class CatalogCodecLaws (C : Type) `{CatalogCodec C} : Prop := {
  json_back l bs : to_json l = Some bs -> from_json bs = Some l }.

(** The calls on the pager that no table makes. *)
Class PagerService (P : Type) : Type := {
  pager_sync : stateful P PagerError unit;
  pager_compact : stateful P PagerError Vacuum.VacuumPagerStats }.

(** ** The registry *)
Module TableEngineRegistry.
Section Registry.
Context {E P C : Type} `{PageStore P} `{EngineFactory E P C}.
Abbreviation engine_t := (Transaction.TableEngineInstance E).

Definition table_id (e : engine_t) : TableId :=
  match e with
  | Transaction.EMemoryBTree b => MemoryBTree.id b
  | Transaction.EMemoryHashTable h => MemoryHashTable.id h
  | Transaction.EOther _ e => engine_id e
  end.

(** The kind of table that stores its pages under a root page. *)
Definition paged_kind (k : TableEngineKind) : option EngineKind :=
  match k with
  | KAppendLog => Some AppendLog
  | KBTree => Some PagedBTree
  | KBloom => Some PagedBloomFilter
  | KGeoSpatial => Some PagedRTree
  | KTimeSeries => Some TimeSeriesTable
  | KFullText => Some PagedFullTextIndex
  | KBlob => Some PagedBlob
  | _ => None
  end.

Definition open_kind (k : TableEngineKind) : option EngineKind :=
  match k with KLsmTree => Some LsmTree | _ => paged_kind k end.

Definition create_failed {A} (k : TableEngineKind) (m : stateful P TableError A) : stateful P RegistryError A :=
  fun p => let '(r, p') := m p in
           (match r with Ok a => Ok a | Err _ => Err (EngineCreationFailed k) | Panic => Panic end, p').
Definition open_failed {A} (k : TableEngineKind) (m : stateful P TableError A) : stateful P RegistryError A :=
  fun p => let '(r, p') := m p in
           (match r with Ok a => Ok a | Err _ => Err (EngineOpenFailed k) | Panic => Panic end, p').

Definition create_engine (table_id : TableId) (name : string) (o : TableOptions C)
    : stateful P RegistryError (engine_t * option PageId) :=
  match engine o with
  | KMemory => mret (Transaction.EMemoryBTree (MemoryBTree.new table_id name), None)
  | KHash => mret (Transaction.EMemoryHashTable (MemoryHashTable.new table_id name), None)
  | KArt => mret (Transaction.EOther MemoryART (art_new table_id name), None)
  | KLsmTree =>
      root_page_id ← (fun p => let '(r, p') := allocate_page PageType.LsmMeta p in
                               (match r with
                                | Ok a => Ok a
                                | Err _ => Err (EngineCreationFailed (engine o))
                                | Panic => Panic
                                end, p'));
      lsm ← create_failed (engine o) (lsm_new table_id name o root_page_id);
      mret (Transaction.EOther LsmTree lsm, Some root_page_id)
  | k =>
      match paged_kind k with
      | Some pk =>
          x ← create_failed k (paged_new pk table_id name o);
          mret (Transaction.EOther pk x.1, Some x.2)
      | None => lift (Err (UnsupportedEngine k))
      end
  end.

Definition open_engine (table_id : TableId) (name : string) (o : TableOptions C) (root_page_id : PageId)
    : stateful P RegistryError engine_t :=
  match engine o with
  | KMemory => mret (Transaction.EMemoryBTree (MemoryBTree.new table_id name))
  | KHash => mret (Transaction.EMemoryHashTable (MemoryHashTable.new table_id name))
  | KArt => mret (Transaction.EOther MemoryART (art_new table_id name))
  | k =>
      match open_kind k with
      | Some pk => e ← open_failed k (paged_open pk table_id name o root_page_id); mret (Transaction.EOther pk e)
      | None => lift (Err (UnsupportedEngine k))
      end
  end.

Definition register (e : engine_t) (engines : gmap Z engine_t) : outcome RegistryError (gmap Z engine_t) :=
  if bool_decide (is_Some (engines !! table_id e)) then Err (EngineAlreadyRegistered (table_id e))
  else Ok (<[table_id e := e]> engines).
End Registry.
End TableEngineRegistry.

(** ** Trimming a name *)
Section Trim.
(** The UTF-8 encodings of the characters with the property White_Space. *)
Definition white_space : list bytes :=
  map (fun c => [c]) [9; 10; 11; 12; 13; 32] ++ [[194; 133]; [194; 160]; [225; 154; 128]]
    ++ map (fun c => [226; 128; c]) [128; 129; 130; 131; 132; 133; 134; 135; 136; 137; 138; 168; 169; 175]
    ++ [[226; 129; 159]; [227; 128; 128]].

Fixpoint drop_first (ws : list bytes) (s : bytes) : option bytes :=
  match ws with
  | [] => None
  | w :: ws => if bool_decide (take (length w) s = w) then Some (drop (length w) s) else drop_first ws s
  end.
Fixpoint trim_with (fuel : nat) (ws : list bytes) (s : bytes) : bytes :=
  match fuel with
  | O => s
  | S fuel => match drop_first ws s with Some s' => trim_with fuel ws s' | None => s end
  end.
(** [str::trim]; every round drops a byte at least. *)
Definition trim_bytes (s : bytes) : bytes :=
  let s := trim_with (length s) white_space s in
  rev (trim_with (length s) (map (@rev Z) white_space) (rev s)).
Definition string_bytes (s : string) : bytes := map (fun a => Z.of_N (Ascii.N_of_ascii a)) (String.list_ascii_of_string s).
Definition string_of_bytes (bs : bytes) : string :=
  String.string_of_list_ascii (map (fun b => Ascii.ascii_of_N (Z.to_N b)) bs).
Definition trim (s : string) : string := string_of_bytes (trim_bytes (string_bytes s)).
End Trim.

(** ** The engine *)
Module StorageEngine.
Import Transaction.

Record VacuumStats : Type := mkVacuumStats {
  total_runs : Z; all_versions_removed : Z; last_removed : option (gmap Z Z) }.
Record VacuumFullStats : Type := mkFullStats {
  versions_removed_per_table : gmap Z Z; total_versions_removed : Z; pager_stats : Vacuum.VacuumPagerStats }.

(** The key [list_snapshots] sorts by. *)
Definition by_id (a b : Snapshot.t) : Prop := Snapshot.id a <= Snapshot.id b.
#[global] Instance by_id_dec a b : Decision (by_id a b) := Z_le_dec (Snapshot.id a) (Snapshot.id b).

Section Engine.
Context `{Codecs} {F : Type} `{FileOps F} {E : Type} `{TableEngines E} (chain_size : Z).
Context {P C : Type} `{PageStore P} `{PagerService P} `{EngineFactory E P C} `{CatalogCodec C}.
(** The iteration order of the catalog. *)
Variable catalog_order : gmap string (TableInfo C) -> list (string * TableInfo C).

Record t : Type := mk {
  world : World F E;
  next_txn_id : Z;
  next_snapshot_id : Z;
  snapshots : gmap Z Snapshot.t;
  table_catalog : gmap string (TableInfo C);
  pager : P;
  vacuum_stats : VacuumStats }.

Abbreviation M := (stateful t StorageEngineErrorKind).

Definition set_world (w : World F E) (d : t) : t :=
  mk w (next_txn_id d) (next_snapshot_id d) (snapshots d) (table_catalog d) (pager d) (vacuum_stats d).
Definition set_next_txn_id (n : Z) (d : t) : t :=
  mk (world d) n (next_snapshot_id d) (snapshots d) (table_catalog d) (pager d) (vacuum_stats d).
Definition set_next_snapshot_id (n : Z) (d : t) : t :=
  mk (world d) (next_txn_id d) n (snapshots d) (table_catalog d) (pager d) (vacuum_stats d).
Definition set_snapshots (s : gmap Z Snapshot.t) (d : t) : t :=
  mk (world d) (next_txn_id d) (next_snapshot_id d) s (table_catalog d) (pager d) (vacuum_stats d).
Definition set_catalog (c : gmap string (TableInfo C)) (d : t) : t :=
  mk (world d) (next_txn_id d) (next_snapshot_id d) (snapshots d) c (pager d) (vacuum_stats d).
Definition set_pager (p : P) (d : t) : t :=
  mk (world d) (next_txn_id d) (next_snapshot_id d) (snapshots d) (table_catalog d) p (vacuum_stats d).
Definition set_vacuum_stats (v : VacuumStats) (d : t) : t :=
  mk (world d) (next_txn_id d) (next_snapshot_id d) (snapshots d) (table_catalog d) (pager d) v.

(** A call on the pager, on the log, or on the registry's pages. *)
Definition on_pager {A} (m : stateful P PagerError A) : M A := fun d =>
  let '(r, p) := m (pager d) in
  (match r with Ok a => Ok a | Err _ => Err PagerFailed | Panic => Panic end, set_pager p d).
Definition on_wal {A} (m : stateful (WalWriter.t F) WalError A) : M A := fun d =>
  let '(r, l) := m (wal (world d)) in
  (match r with Ok a => Ok a | Err _ => Err WalFailed | Panic => Panic end, set_world (set_wal l (world d)) d).
Definition on_registry {A} (m : stateful P RegistryError A) : M A := fun d =>
  let '(r, p) := m (pager d) in
  (match r with Ok a => Ok a | Err _ => Err OtherError | Panic => Panic end, set_pager p d).

Definition allocate_txn_id : M TransactionId :=
  d ← gets (fun d => d);
  _ ← modify (set_next_txn_id (as_u64 (next_txn_id d + 1)));
  mret (next_txn_id d).
Definition allocate_snapshot_id : M Z :=
  d ← gets (fun d => d);
  _ ← modify (set_next_snapshot_id (as_u64 (next_snapshot_id d + 1)));
  mret (next_snapshot_id d).
Definition current_snapshot_lsn (d : t) : LogSequenceNumber := Transaction.current_lsn (world d).

Definition validate_snapshot_lsn (lsn : LogSequenceNumber) : M unit :=
  d ← gets (fun d => d);
  _ ← lift (ensure (lsn <=? current_snapshot_lsn d) InvalidOperation);
  if lsn =? 0 then mret tt
  else lift (ensure (existsb (fun s => Snapshot.lsn s =? lsn) (map snd (map_to_list (snapshots d)))) InvalidOperation).

(** ** Beginning transactions *)
Definition begin_read_with_isolation (iso : IsolationLevel) : M Transaction.t :=
  id ← allocate_txn_id;
  d ← gets (fun d => d);
  mret (self (new_read_only id (current_snapshot_lsn d) iso (world d))).
Definition begin_read : M Transaction.t := begin_read_with_isolation ReadCommitted.
Definition begin_write_with_isolation (e : WalWriter.Env) (dur : Durability) (iso : IsolationLevel) : M Transaction.t :=
  id ← allocate_txn_id;
  d ← gets (fun d => d);
  let s := Transaction.new e id (current_snapshot_lsn d) iso dur (world d) in
  _ ← modify (set_world (Transaction.world s));
  mret (self s).
Definition begin_write (e : WalWriter.Env) (dur : Durability) : M Transaction.t :=
  begin_write_with_isolation e dur ReadCommitted.
Definition begin_read_at_with_isolation (lsn : LogSequenceNumber) (iso : IsolationLevel) : M Transaction.t :=
  _ ← validate_snapshot_lsn lsn;
  id ← allocate_txn_id;
  d ← gets (fun d => d);
  mret (self (new_read_only id lsn iso (world d))).
Definition begin_read_at (lsn : LogSequenceNumber) : M Transaction.t := begin_read_at_with_isolation lsn ReadCommitted.
(** ** The catalog *)
Definition CATALOG_PAGE : PageId := 2.

(** A failed allocation is ignored. *)
Definition persist_catalog : M unit :=
  d ← gets (fun d => d);
  let tables := map snd (catalog_order (table_catalog d)) in
  json_data ← lift (ok_or (to_json tables) OtherError);
  _ ← (fun d => (Ok tt, set_pager (allocate_page PageType.Catalog (pager d)).2 d));
  on_pager (write_page CATALOG_PAGE PageType.Catalog
              (to_le_bytes 4 1 ++ to_le_bytes 4 (as_u32 (zlen tables)) ++ json_data)).

Definition register (e : TableEngineInstance E) : M unit :=
  d ← gets (fun d => d);
  engines ← lift (match TableEngineRegistry.register e (registry (world d)) with
                  | Ok r => Ok r | Err _ => Err OtherError | Panic => Panic end);
  modify (set_world (set_registry engines (world d))).

Definition recover_table (info : TableInfo C) : M unit :=
  e ← (match root info with
       | Some location =>
           on_registry (TableEngineRegistry.open_engine (id info) (name info) (options info) (page_id location))
       | None =>
           x ← on_registry (TableEngineRegistry.create_engine (id info) (name info) (options info));
           mret x.1
       end);
  _ ← register e;
  modify (fun d => set_catalog (<[name info := info]> (table_catalog d)) d).
Fixpoint recover_tables (l : list (TableInfo C)) : M unit :=
  match l with [] => mret tt | info :: l => _ ← recover_table info; recover_tables l end.
Definition recover_catalog : M unit :=
  data ← on_pager (read_page CATALOG_PAGE);
  if zlen data <? 8 then mret tt
  else
    version ← lift (get_le 4 0 data);
    count ← lift (get_le 4 4 data);
    _ ← lift (ensure (version =? 1) OtherError);
    json_data ← lift (slice 8 (zlen data) data);
    tables ← lift (ok_or (from_json json_data) OtherError);
    _ ← lift (ensure (zlen tables =? count) OtherError);
    _ ← modify (set_catalog ∅);
    recover_tables tables.

Definition create_table (nm : string) (o : TableOptions C) : M TableId :=
  d ← gets (fun d => d);
  _ ← lift (ensure (bool_decide (table_catalog d !! nm = None)) TableAlreadyExists);
  let table_id := as_u64 (Z.of_nat (size (table_catalog d)) + 1) in
  x ← on_registry (TableEngineRegistry.create_engine table_id nm o);
  _ ← register x.1;
  let root := (fun p => mkLocation p 0 0) <$> x.2 in
  let info := mkTable table_id nm o root (current_snapshot_lsn d) ∅ in
  _ ← modify (fun d => set_catalog (<[nm := info]> (table_catalog d)) d);
  _ ← persist_catalog;
  mret table_id.

(** The first entry, in the order of iteration, with the id. *)
Definition find_table (table : TableId) (c : gmap string (TableInfo C)) : option (string * TableInfo C) :=
  find (fun x => id x.2 =? table) (catalog_order c).
Definition drop_table (table : TableId) : M unit :=
  d ← gets (fun d => d);
  match find_table table (table_catalog d) with
  | Some (nm, _) =>
      _ ← modify (fun d => set_catalog (base.delete nm (table_catalog d)) d);
      _ ← modify (fun d => set_world (set_registry (base.delete table (registry (world d))) (world d)) d);
      persist_catalog
  | None => lift (Err NotFound)
  end.

Definition open_table (nm : string) (d : t) : option TableId := id <$> table_catalog d !! nm.
Definition get_object_info (table : TableId) (d : t) : option (TableInfo C) := snd <$> find_table table (table_catalog d).
Definition get_object_info_by_name (nm : string) (d : t) : option (TableInfo C) := table_catalog d !! nm.
Definition is_table (table : TableId) (d : t) : bool :=
  existsb (fun x => id x.2 =? table) (catalog_order (table_catalog d)).
Definition list_tables (d : t) : list (TableInfo C) := map snd (catalog_order (table_catalog d)).

(** ** Snapshots *)
(** [now] is [None] when the clock is before the epoch; the id is allocated
    before it is read. *)
Definition create_snapshot (e : WalWriter.Env) (now : option Z) (nm : string) : M Snapshot.t :=
  let nm := trim nm in
  _ ← lift (ensure (negb (bool_decide (nm = ""%string))) InvalidOperation);
  d ← gets (fun d => d);
  _ ← lift (ensure (negb (existsb (fun s => bool_decide (Snapshot.name s = nm)) (map snd (map_to_list (snapshots d)))))
              InvalidOperation);
  sid ← allocate_snapshot_id;
  created_at ← lift (ok_or now OtherError);
  let s := Snapshot.new sid nm (current_snapshot_lsn d) created_at 0 (WalWriter.active_transactions e (wal (world d))) in
  _ ← modify (fun d => set_snapshots (<[sid := s]> (snapshots d)) d);
  mret s.
Definition list_snapshots (d : t) : list Snapshot.t :=
  merge_sort by_id (map snd (map_to_list (snapshots d))).
Definition release_snapshot (sid : Z) : M unit :=
  d ← gets (fun d => d);
  match snapshots d !! sid with
  | Some _ => modify (set_snapshots (base.delete sid (snapshots d)))
  | None => lift (Err InvalidOperation)
  end.

Definition min_visible_lsn (d : t) : option LogSequenceNumber :=
  Snapshot.minimum (map Snapshot.lsn (map snd (map_to_list (snapshots d)))).

(** ** Vacuum *)
(** [TableEngineRegistry::vacuum_table]. *)
Definition registry_vacuum (table : TableId) (m : LogSequenceNumber) : M Z :=
  d ← gets (fun d => d);
  match registry (world d) !! table with
  | None => lift (Err NotFound)
  | Some e =>
      let put_back e := modify (fun d => set_world (set_registry (<[table := e]> (registry (world d))) (world d)) d) in
      match e with
      | EMemoryBTree b => _ ← put_back (EMemoryBTree (MemoryBTree.vacuum m b).2); mret (MemoryBTree.vacuum m b).1
      | EMemoryHashTable h =>
          _ ← put_back (EMemoryHashTable (MemoryHashTable.vacuum m h).2); mret (MemoryHashTable.vacuum m h).1
      | EOther k en =>
          match k with
          | PagedBTree | MemoryART | LsmTree | MemoryGraphTable | TimeSeriesTable | PagedBlob =>
              x ← (fun d => let '(r, p) := engine_vacuum k m en (pager d) in
                            (match r with Ok a => Ok a | Err _ => Err OtherError | Panic => Panic end, set_pager p d));
              _ ← put_back (EOther k x.2); mret x.1
          | AppendLog | PagedBloomFilter | PagedHnswVector | PagedRTree | PagedFullTextIndex | MemoryBlob =>
              lift (Err InvalidOperation)
          end
      end
  end.

Definition vacuum_pager : M Vacuum.VacuumPagerStats := on_pager pager_compact.
Definition watermark (d : t) : LogSequenceNumber := default (current_snapshot_lsn d) (min_visible_lsn d).
Definition vacuum_table (table : TableId) : M Vacuum.VacuumPagerStats :=
  d ← gets (fun d => d);
  _ ← lift (ok_or (get_object_info table d) NotFound);
  _ ← registry_vacuum table (watermark d);
  vacuum_pager.

(** The loop skips tables that fail. *)
Fixpoint vacuum_tables (m : LogSequenceNumber) (l : list (TableInfo C)) (per_table : gmap Z Z) (total : Z)
    : M (gmap Z Z * Z) :=
  match l with
  | [] => mret (per_table, total)
  | info :: l => fun d =>
      match registry_vacuum (id info) m d with
      | (Ok removed, d') =>
          if 0 <? removed then vacuum_tables m l (<[id info := removed]> per_table) (total + removed) d'
          else vacuum_tables m l per_table total d'
      | (Err _, d') => vacuum_tables m l per_table total d'
      | (Panic, d') => (Panic, d')
      end
  end.
Definition record_vacuum (per_table : gmap Z Z) (total : Z) (v : VacuumStats) : VacuumStats :=
  mkVacuumStats (total_runs v + 1) (all_versions_removed v + total) (Some per_table).
Definition vacuum_full : M VacuumFullStats :=
  d ← gets (fun d => d);
  x ← vacuum_tables (watermark d) (list_tables d) ∅ 0;
  st ← vacuum_pager;
  _ ← modify (fun d => set_vacuum_stats (record_vacuum x.1 x.2 (vacuum_stats d)) d);
  mret (mkFullStats x.1 x.2 st).

(** ** Opening and closing *)
(** The arguments are what [WalWriter::create] and [Pager::create], or
    [WalWriter::open] and [Pager::open], return. *)
Definition start (w : WalWriter.t F) (lsn : LogSequenceNumber) (p : P) : t :=
  mk (mkWorld ConflictDetector.new w ∅ lsn) 1 1 ∅ ∅ p (mkVacuumStats 0 0 None).
Definition failing {A B E1 : Type} (k : StorageEngineErrorKind) (r : outcome E1 A)
    (f : A -> outcome StorageEngineErrorKind B) : outcome StorageEngineErrorKind B :=
  match r with Ok a => f a | Err _ => Err k | Panic => Panic end.
Definition new (w : outcome WalError (WalWriter.t F)) (p : outcome PagerError P)
    : outcome StorageEngineErrorKind t :=
  failing WalFailed w (fun w => failing PagerFailed p (fun p =>
    match persist_catalog (start w 0 p) with
    | (Ok _, d) => Ok d | (Err e, _) => Err e | (Panic, _) => Panic
    end)).
Definition open (w : outcome WalError (WalWriter.t F)) (p : outcome PagerError P)
    : outcome StorageEngineErrorKind t :=
  failing WalFailed w (fun w => failing PagerFailed p (fun p =>
    match recover_catalog (start w (WalWriter.current_lsn (WalWriter.state w)) p) with
    | (Ok _, d) => Ok d | (Err e, _) => Err e | (Panic, _) => Panic
    end)).
(** [Drop]: errors are printed and ignored. *)
Definition drop (d : t) : t :=
  let d := (on_wal WalWriter.flush d).2 in (on_pager pager_sync d).2.
(** [close] takes the engine, so [Drop] runs behind it on every path. *)
Definition close : M unit := fun d =>
  let '(r, d') := (_ ← on_wal WalWriter.flush; on_pager pager_sync) d in (r, drop d').

(** ** Table handles *)
Definition table (tid : TableId) : M TableId :=
  d ← gets (fun d => d);
  _ ← lift (ensure (is_table tid d) NotATable);
  mret tid.

(** A call of a transaction in the engine's world; its error becomes
    [TransactionFailed]. *)
Abbreviation TM := (stateful (t * Transaction.t) StorageEngineErrorKind).
Definition txn {A} (m : stateful (Sys F E) TransactionError A) : TM A := fun '(d, x) =>
  let '(r, s) := m (mkSys (world d) x) in
  (match r with Ok a => Ok a | Err _ => Err TransactionFailed | Panic => Panic end,
   (set_world (Transaction.world s) d, self s)).
(** The transaction of a call is gone when the call returns. *)
Definition in_txn {A} (start : M Transaction.t) (m : TM A) : M A := fun d =>
  match start d with
  | (Ok x, d') => let '(r, (d'', _)) := m (d', x) in (r, d'')
  | (Err e, d') => (Err e, d')
  | (Panic, d') => (Panic, d')
  end.

(** What a call takes from outside: the inputs of the log's records, the
    group-commit coordinator and the orders of iteration. *)
Record Outside : Type := mkOutside {
  envs : nat -> WalWriter.Env;
  submit : TransactionId -> LogSequenceNumber -> stateful (WalWriter.t F) WalError unit;
  orders : Orders }.
Definition txn_commit (x : Outside) : TM CommitInfo :=
  txn (Transaction.commit chain_size (submit x) (fun i => envs x (i + 2)%nat) (orders x)).

Definition handle_insert (x : Outside) (tid : TableId) (k v : bytes) : M unit :=
  in_txn (begin_write (envs x 0%nat) SyncOnCommit)
    (existing ← txn (get tid k);
     _ ← lift (ensure (bool_decide (existing = None)) KeyAlreadyExists);
     _ ← txn (put (envs x 1%nat) tid k v);
     _ ← txn_commit x; mret tt).
Definition handle_update (x : Outside) (tid : TableId) (k v : bytes) : M unit :=
  in_txn (begin_write (envs x 0%nat) SyncOnCommit)
    (existing ← txn (get tid k);
     _ ← lift (ok_or existing KeyNotFound);
     _ ← txn (put (envs x 1%nat) tid k v);
     _ ← txn_commit x; mret tt).
Definition handle_upsert (x : Outside) (tid : TableId) (k v : bytes) : M bool :=
  in_txn (begin_write (envs x 0%nat) SyncOnCommit)
    (old_value ← txn (get tid k);
     _ ← txn (put (envs x 1%nat) tid k v);
     _ ← txn_commit x; mret (bool_decide (is_Some old_value))).
Definition handle_get (tid : TableId) (k : bytes) : M (option bytes) := in_txn begin_read (txn (get tid k)).
Definition handle_delete (x : Outside) (tid : TableId) (k : bytes) : M bool :=
  in_txn (begin_write (envs x 0%nat) SyncOnCommit)
    (old_value ← txn (get tid k);
     match old_value with
     | None => mret false
     | Some _ =>
         deleted ← txn (Transaction.delete (envs x 1%nat) tid k);
         _ ← txn_commit x; mret deleted
     end).
Definition handle_contains (tid : TableId) (k : bytes) : M bool :=
  v ← handle_get tid k; mret (bool_decide (is_Some v)).

(** Reading at a named snapshot: [begin_read_at] and [get]. *)
Definition read_at_snapshot (lsn : LogSequenceNumber) (tid : TableId) (k : bytes) : M (option bytes) :=
  in_txn (begin_read_at lsn) (txn (get tid k)).

End Engine.
#[global] Arguments t : clear implicits.
End StorageEngine.
