(* ===== verification/EngineLaws.v ===== *)
(** * The engine as a multi-version map

    The specification of an engine with tables in memory: a map from tables
    and keys to values, and for each named snapshot the map as it was when
    the snapshot was taken ([view]).  The theorem of this file is that every
    sequence of handle calls, snapshot calls, snapshot reads and vacuums
    answers as the specification does. *)
From S2P Require Import Prelude Types Vfs PagerConfig WalRecord WalReader WalWriter Mvcc Conflict OrdMap MemTables MemTableLaws Transaction TransactionLaws LogRoom EngineTxn EngineTables Page Overflow PageStore Engine.
Import Transaction TransactionLaws LogRoom EngineTxn EngineTables StorageEngine.

Module EngineLaws.

(** ** The specification *)
Abbreviation store := (gmap (Z * list Z) bytes).
Record view : Type := mkView {
  names : gmap string TableId;
  tables : gmap Z bool;
  present : store;
  pins : gmap Z (string * store);
  next_pin : Z }.

Inductive answer : Type := Done | Truth (b : bool) | Value (v : option bytes) | Pinned (id : Z) | Table (id : TableId).

(** What the specification says of an answer: what it is, what it is unless
    the pager fails, or nothing. *)
Inductive expect : Type :=
  | Exactly (r : outcome StorageEngineErrorKind answer)
  | Unless_pager (x : answer)
  | Anything.

(** The calls, without what they take from outside; a table is made with its
    kind: [true] for a hash table. *)
Inductive request : Type :=
  | Insert (o : TableId) (k v : bytes)
  | Update (o : TableId) (k v : bytes)
  | Upsert (o : TableId) (k v : bytes)
  | Delete (o : TableId) (k : bytes)
  | Get (o : TableId) (k : bytes)
  | Contains (o : TableId) (k : bytes)
  | Pin (now : option Z) (name : string)
  | Release (id : Z)
  | ReadPinned (id : Z) (o : TableId) (k : bytes)
  | Create (name : string) (hash : bool)
  | Drop (id : TableId)
  | Vacuum (o : TableId)
  | VacuumFull.

Definition set_present (m : store) (a : view) : view := mkView (names a) (tables a) m (pins a) (next_pin a).
Definition set_pins (p : gmap Z (string * store)) (a : view) : view := mkView (names a) (tables a) (present a) p (next_pin a).
Definition bump (a : view) : view := mkView (names a) (tables a) (present a) (pins a) (next_pin a + 1).
(** The entries of other tables. *)
Definition without (id : TableId) (m : store) : store := filter (fun x => x.1.1 <> id) m.
Definition add_table (nm : string) (id : TableId) (hash : bool) (a : view) : view :=
  mkView (<[nm := id]> (names a)) (<[id := hash]> (tables a)) (present a) (pins a) (next_pin a).
Definition drop_named (nm : string) (id : TableId) (a : view) : view :=
  mkView (base.delete nm (names a)) (base.delete id (tables a)) (without id (present a))
    ((fun p => (p.1, without id p.2)) <$> pins a) (next_pin a).
Definition named (id : TableId) (a : view) : option string :=
  fst <$> find (fun x => x.2 =? id) (map_to_list (names a)).
Definition name_used (nm : string) (a : view) : bool :=
  existsb (fun x => bool_decide (x.2.1 = nm)) (map_to_list (pins a)).

(** What a call answers, and the view behind it; a vacuum answers what the
    pager says. *)
Definition respond (q : request) (a : view) : expect * view :=
  match q with
  | Insert o k v =>
      match present a !! (o, k) with
      | Some _ => (Exactly (Err KeyAlreadyExists), a)
      | None => (Exactly (Ok Done), set_present (<[(o, k) := v]> (present a)) a)
      end
  | Update o k v =>
      match present a !! (o, k) with
      | Some _ => (Exactly (Ok Done), set_present (<[(o, k) := v]> (present a)) a)
      | None => (Exactly (Err KeyNotFound), a)
      end
  | Upsert o k v =>
      (Exactly (Ok (Truth (bool_decide (is_Some (present a !! (o, k)))))), set_present (<[(o, k) := v]> (present a)) a)
  | Delete o k =>
      (Exactly (Ok (Truth (bool_decide (is_Some (present a !! (o, k)))))), set_present (base.delete (o, k) (present a)) a)
  | Get o k => (Exactly (Ok (Value (present a !! (o, k)))), a)
  | Contains o k => (Exactly (Ok (Truth (bool_decide (is_Some (present a !! (o, k)))))), a)
  | Pin now nm =>
      if bool_decide (trim nm = ""%string) || name_used (trim nm) a then (Exactly (Err InvalidOperation), a)
      else match now with
           | Some _ => (Exactly (Ok (Pinned (next_pin a))),
                        bump (set_pins (<[next_pin a := (trim nm, present a)]> (pins a)) a))
           | None => (Exactly (Err OtherError), bump a)
           end
  | Release id =>
      match pins a !! id with
      | Some _ => (Exactly (Ok Done), set_pins (base.delete id (pins a)) a)
      | None => (Exactly (Err InvalidOperation), a)
      end
  | ReadPinned id o k =>
      (Exactly (Ok (Value (match pins a !! id with Some p => p.2 !! (o, k) | None => None end))), a)
  | Create nm o =>
      match names a !! nm with
      | Some _ => (Exactly (Err TableAlreadyExists), a)
      | None =>
          let id := Z.of_nat (size (names a)) + 1 in
          match tables a !! id with
          | Some _ => (Exactly (Err OtherError), a)
          | None => (Unless_pager (Table id), add_table nm id o a)
          end
      end
  | Drop id =>
      match named id a with
      | Some nm => (Unless_pager Done, drop_named nm id a)
      | None => (Exactly (Err NotFound), a)
      end
  | Vacuum _ | VacuumFull => (Anything, a)
  end.

(** The calls the theorem is about: on tables that exist; no empty values,
    which a hash table shows as absent; deletions on hash tables, since the
    ordered table forgets the versions of a key it deletes; reads of
    snapshots that are held. *)
Definition allowed (a : view) (q : request) : Prop :=
  match q with
  | Insert o _ v | Update o _ v | Upsert o _ v => is_Some (tables a !! o) /\ v <> []
  | Delete o _ => tables a !! o = Some true
  | ReadPinned id _ _ => is_Some (pins a !! id)
  | Create _ _ => Z.of_nat (size (names a)) + 1 < 2 ^ 64
  | _ => True
  end.
(** The bytes a call may log. *)
Definition need (q : request) : Z :=
  match q with
  | Insert _ k v | Update _ k v | Upsert _ k v => 301 + zlen k + zlen v
  | Delete _ k => 301 + zlen k
  | _ => 0
  end.

Section Laws.
Context `{CodecsLaws} {F : Type} `{FileLaws F} `{!FileTotal F} {E : Type} `{TableEngines E} (chain_size : Z).
Context {P C : Type} `{PageStore P} `{PagerService P} `{EngineFactory E P C}.
Context `{CatalogCodec C}.
Variable catalog_order : gmap string (TableInfo C) -> list (string * TableInfo C).
Hypothesis catalog_order_all : forall c, catalog_order c ≡ₚ map_to_list c.
(** The options a table in memory is made with. *)
Variable options_of : bool -> TableOptions C.
Hypothesis options_kind : forall hash, engine (options_of hash) = if hash then KHash else KMemory.
Abbreviation db := (StorageEngine.t F E P C).
Abbreviation outside := (Outside (F := F)).

(** A call as the engine performs it. *)
Definition tell {A} (f : A -> answer) (m : stateful db StorageEngineErrorKind A)
    : stateful db StorageEngineErrorKind answer := x ← m; mret (f x).
Definition perform (x : outside) (q : request) : stateful db StorageEngineErrorKind answer :=
  match q with
  | Insert o k v => tell (fun _ => Done) (handle_insert chain_size x o k v)
  | Update o k v => tell (fun _ => Done) (handle_update chain_size x o k v)
  | Upsert o k v => tell Truth (handle_upsert chain_size x o k v)
  | Delete o k => tell Truth (handle_delete chain_size x o k)
  | Get o k => tell Value (handle_get o k)
  | Contains o k => tell Truth (handle_contains o k)
  | Pin now nm => tell (fun s => Pinned (Snapshot.id s)) (create_snapshot (envs x 0%nat) now nm)
  | Release id => tell (fun _ => Done) (release_snapshot id)
  | ReadPinned id o k => fun d =>
      tell Value (read_at_snapshot (match snapshots d !! id with Some s => Snapshot.lsn s | None => 0 end) o k) d
  | Create nm hash => tell Table (create_table catalog_order nm (options_of hash))
  | Drop id => tell (fun _ => Done) (drop_table catalog_order id)
  | Vacuum o => tell (fun _ => Done) (vacuum_table catalog_order o)
  | VacuumFull => tell (fun _ => Done) (vacuum_full catalog_order)
  end.

(** ** What the engine keeps true *)
(** Between calls, with room for [n] more records of [b] bytes. *)
Record sound (b : Z) (n : nat) (d : db) : Prop := {
  s_room : room b n (wal (world d));
  s_locks : ConflictDetector.write_locks (conflict_detector (world d)) = ∅;
  s_active x : x ∈ WalWriter.active_txns (WalWriter.state (wal (world d))) -> x < next_txn_id d;
  s_txn : 0 <= next_txn_id d /\ next_txn_id d + Z.of_nat n < 2 ^ 64;
  s_lsn : 0 <= Transaction.current_lsn (world d) < WalWriter.current_lsn (WalWriter.state (wal (world d)));
  s_tables : tables_ok (Transaction.current_lsn (world d)) (registry (world d));
  s_snapshots sid s : snapshots d !! sid = Some s ->
    sid < next_snapshot_id d /\ 0 <= Snapshot.lsn s <= Transaction.current_lsn (world d);
  s_pin : 0 <= next_snapshot_id d /\ next_snapshot_id d + Z.of_nat n < 2 ^ 64 }.

(** The view an engine shows. *)
Definition pinned_as (r : gmap Z (TableEngineInstance E)) (s : option Snapshot.t) (p : option (string * store)) : Prop :=
  match s, p with
  | Some s, Some p => Snapshot.name s = p.1 /\ forall o k, read_at r o k (Snapshot.lsn s) = Ok (p.2 !! (o, k))
  | None, None => True
  | _, _ => False
  end.
Record has_view (d : db) (a : view) : Prop := {
  v_names : id <$> table_catalog d = names a;
  v_owned nm i : names a !! nm = Some i -> is_Some (tables a !! i);
  v_distinct nm nm' i : names a !! nm = Some i -> names a !! nm' = Some i -> nm = nm';
  v_kinds : kinds (registry (world d)) = tables a;
  v_present o k : read_at (registry (world d)) o k (Transaction.current_lsn (world d)) = Ok (present a !! (o, k));
  v_pins sid : pinned_as (registry (world d)) (snapshots d !! sid) (pins a !! sid);
  v_next : next_snapshot_id d = next_pin a }.

Lemma sound_weaken b n b' n' d : sound b n d -> 0 <= b' <= b -> (n' <= n)%nat -> sound b' n' d.
Proof. intros [] ??. constructor; try done; try lia. by eapply room_weaken. Qed.
(** ** Beginning and reading *)
Definition started (d : db) (l : WalWriter.t F) : db :=
  set_world (set_wal l (world d)) (set_next_txn_id (next_txn_id d + 1) d).

Lemma set_world_id (d : db) : set_world (world d) d = d.
Proof. by destruct d. Qed.

Lemma begin_write_ok b n e d : sound b (S n) d -> 71 <= b ->
  exists l, begin_write e SyncOnCommit d
      = (Ok (auto (next_txn_id d) (Transaction.current_lsn (world d))), started d l) /\
    logged (RecordData.Begin (next_txn_id d)) b n
      ({[next_txn_id d]} ∪ WalWriter.active_txns (WalWriter.state (wal (world d)))) (wal (world d)) l.
Proof.
  intros [] Hb. destruct (write_begin_ok b n (wal (world d)) e (next_txn_id d)) as (l & Hl & Hlog);
    [done|by rewrite size_begin|by intros ?%s_active0; lia|].
  exists l. split; [|done]. unfold begin_write, begin_write_with_isolation, allocate_txn_id.
  unfold gets, modify, mret, stateful_ret, mbind, stateful_bind. simpl. rewrite Hl, as_u_id by (unfold fits; lia). done.
Qed.

Lemma sound_started b n d l : sound b (S n) d ->
  logged (RecordData.Begin (next_txn_id d)) b n
    ({[next_txn_id d]} ∪ WalWriter.active_txns (WalWriter.state (wal (world d)))) (wal (world d)) l ->
  sound (b - 71) n (started d l).
Proof.
  intros [] (Hr & Hl & Ha & _). constructor; simpl; try done; try lia.
  rewrite Ha. intros x [->%elem_of_singleton|Hx%s_active0]%elem_of_union; lia.
Qed.
Lemma view_started d l a : has_view d a -> has_view (started d l) a.
Proof. by intros []. Qed.

Lemma begin_read_ok b n iso d : sound b (S n) d ->
  begin_read_with_isolation iso d
    = (Ok (build (next_txn_id d) (Transaction.current_lsn (world d)) iso WalOnly),
       set_next_txn_id (next_txn_id d + 1) d).
Proof.
  intros []. unfold begin_read_with_isolation, allocate_txn_id, gets, modify, mret, stateful_ret, mbind, stateful_bind.
  by rewrite as_u_id by (unfold fits; lia).
Qed.
Lemma sound_counted b n d : sound b (S n) d -> sound b n (set_next_txn_id (next_txn_id d + 1) d).
Proof.
  intros []. constructor; simpl; try done; try lia.
  - destruct (room_bytes _ _ _ s_room0). eapply room_weaken; [done|lia|lia].
  - intros x ?%s_active0. lia.
Qed.

(** A read in a transaction without writes. *)
Lemma txn_get (d : db) x o k v : is_active x = true -> write_set x = ∅ ->
  read_at (registry (world d)) o k (snapshot_lsn x) = Ok v -> txn (get o k) (d, x) = (Ok v, (d, x)).
Proof.
  intros Ha Hw Hr. unfold txn. rewrite get_seen. simpl. rewrite Ha. unfold seen. simpl.
  by rewrite Hw, lookup_empty, Hr, set_world_id.
Qed.

(** ** Writing *)
Definition written_present (o : TableId) (k : bytes) (v : option bytes) (m : store) : store :=
  match v with Some v => <[(o, k) := v]> m | None => base.delete (o, k) m end.
(** The values a table shows as they are. *)
Definition plain (a : view) (o : TableId) (v : option bytes) : Prop :=
  match v with Some v => is_Some (tables a !! o) /\ v <> [] | None => tables a !! o = Some true end.

Lemma written_lookup (o : TableId) (k : bytes) (v : option bytes) (m : store) (o' : TableId) (k' : bytes) :
  written_present o k v m !! (o', k') = if decide ((o, k) = (o', k')) then v else m !! (o', k').
Proof. destruct v as [v|]; simpl; case_decide as Hd; [rewrite Hd|..|rewrite Hd|]; by simplify_map_eq. Qed.

(** The engine behind the buffered write of a transaction. *)
Definition buffering (d : db) (id : TransactionId) (o : TableId) (k : bytes) (l : WalWriter.t F) : db :=
  set_world (mkWorld (ConflictDetector.acquire_write_lock (conflict_detector (world d)) o k id) l
               (registry (world d)) (Transaction.current_lsn (world d))) d.

Lemma plain_shows d a o v e : has_view d a -> plain a o v -> registry (world d) !! o = Some e ->
  same_kind e e -> versioned e v /\ shows e v = v.
Proof.
  intros Hv Hp He Hk. assert (Ht : tables a !! o = Some (match e with EMemoryHashTable _ => true | _ => false end)).
  { rewrite <- (v_kinds d a Hv). unfold kinds. by rewrite lookup_fmap, He. }
  destruct e as [b|h|]; [| |done]; destruct v as [v|]; simpl in *; [|congruence| |done].
  - split; [by eexists|done].
  - destruct Hp as [_ Hne]. split; [done|]. destruct v as [|y v]; [done|]. rewrite zlen_cons.
    pose proof (zlen_nonneg v). by destruct (Z.eqb_spec (1 + zlen v) 0); [lia|].
Qed.
Lemma locks_released (d : ConflictDetector.t) o k id : ConflictDetector.write_locks d = ∅ ->
  ConflictDetector.write_locks (ConflictDetector.release_locks (ConflictDetector.acquire_write_lock d o k id) id) = ∅.
Proof.
  intros Hd. simpl. rewrite Hd. apply map_empty. intros q. apply map_lookup_filter_None. right.
  intros i [[_ <-]|[_ Hi]]%lookup_insert_Some; [by intros []|]. by rewrite lookup_empty in Hi.
Qed.

(** The view of the tables a committed write leaves. *)
Lemma view_committed b n d a id c o k v r' (d' : db) : sound b n d -> has_view d a -> plain a o v ->
  Transaction.current_lsn (world d) < c -> published id c {[(o, k) := v]} (registry (world d)) r' ->
  registry (world d') = r' -> Transaction.current_lsn (world d') = c -> snapshots d' = snapshots d ->
  next_snapshot_id d' = next_snapshot_id d -> table_catalog d' = table_catalog d ->
  tables_ok c r' /\ has_view d' (set_present (written_present o k v (present a)) a).
Proof.
  intros Hs Hv Hpl Hc Hp Hr Hl Hsn Hnx Hcat. pose proof (s_tables _ _ _ Hs) as Ht.
  assert (Hver : forall o' k' e' v', registry (world d) !! o' = Some e' ->
    ({[(o, k) := v]} : gmap (Z * list Z) (option bytes)) !! (o', k') = Some v' -> versioned e' v' /\ shows e' v' = v').
  { intros o' k' e' v' He [[= <- <-] <-]%lookup_singleton_Some. eapply plain_shows; [done|done|done|]. by apply (Ht o). }
  destruct (published_reads id c _ _ r' (tables_settled _ _ Ht) Hp) as [_ Hread]; [by intros; eapply Hver|].
  assert (Hold : forall o' k' l, l < c -> read_at r' o' k' l = read_at (registry (world d)) o' k' l).
  { intros o' k' l Hlc. rewrite Hread. destruct (registry (world d) !! o') as [e'|]; [|done].
    destruct (_ !! (o', k')); [|done]. by destruct (Z.leb_spec c l); [lia|]. }
  split; [by eapply tables_published|]. destruct Hv as [Hnm Hown Hdis Hkn Hpr Hpi Hnx'].
  constructor; simpl; rewrite ?Hr, ?Hl, ?Hsn, ?Hnx, ?Hcat; [done|done|done| | | |done].
  - by rewrite (kinds_published _ _ _ _ _ _ Ht Hp).
  - intros o' k'. rewrite Hread, written_lookup.
    assert (Hpre : read_at (registry (world d)) o' k' c = Ok (present a !! (o', k'))).
    { rewrite (read_present (Transaction.current_lsn (world d))) by (done || lia). apply Hpr. }
    destruct (decide ((o, k) = (o', k'))) as [[= <- <-]|Hne].
    + rewrite lookup_singleton_eq. destruct (registry (world d) !! o) as [e|] eqn:He.
      * rewrite Z.leb_refl. f_equal. by eapply (Hver o k e v He); rewrite lookup_singleton_eq.
      * exfalso. assert (Hno : tables a !! o = None) by (by rewrite <- Hkn; unfold kinds; rewrite lookup_fmap, He).
        destruct v as [v|]; simpl in Hpl; rewrite Hno in Hpl; [by destruct Hpl as [[] _]|done].
    + rewrite lookup_singleton_ne by done. by destruct (registry (world d) !! o').
  - intros sid. pose proof (Hpi sid) as Hpin. unfold pinned_as in *.
    destruct (snapshots d !! sid) as [sn|] eqn:Hsid, (pins a !! sid) as [p|]; try done.
    destruct Hpin as [Hn Hm]. split; [done|]. intros o' k'.
    destruct (s_snapshots _ _ _ Hs sid sn Hsid) as [_ Hle]. rewrite Hold by lia. apply Hm.
Qed.

(** One write and its commit, behind the transaction's beginning. *)
Lemma write_ok {A B} (x : outside) (m : stateful (Sys F E) TransactionError A) (f : A -> B) r b b' n d a id o k v l :
  answers (submit x) -> orders_ok (orders x) -> sound b' (S (S (S n))) d -> has_view d a -> plain a o v ->
  m (mkSys (world d) (auto id (Transaction.current_lsn (world d))))
    = (Ok r, with_write id (Transaction.current_lsn (world d)) o k v l
               (mkSys (world d) (auto id (Transaction.current_lsn (world d))))) ->
  room b (S (S n)) l -> 142 <= b ->
  WalWriter.current_lsn (WalWriter.state l) = WalWriter.current_lsn (WalWriter.state (wal (world d))) + 1 ->
  WalWriter.active_txns (WalWriter.state l) = WalWriter.active_txns (WalWriter.state (wal (world d))) ->
  id ∈ WalWriter.active_txns (WalWriter.state (wal (world d))) ->
  exists d2 x2,
    (y ← txn m; _ ← txn_commit chain_size x; mret (f y)) (d, auto id (Transaction.current_lsn (world d)))
      = (Ok (f r), (d2, x2)) /\
    sound (b - 142) n d2 /\ has_view d2 (set_present (written_present o k v (present a)) a).
Proof.
  intros Hsub Hod Hs Hv Hpl Hm Hr Hb Hl Ha Hid. set (cur := Transaction.current_lsn (world d)) in *.
  set (s1 := with_write id cur o k v l (mkSys (world d) (auto id cur))) in *.
  destruct (txn_commit_ok chain_size (submit x) (fun i => envs x (i + 2)%nat) (orders x) b n s1 id cur o k v)
    as (r' & l' & Hc & Hp & Hr' & Hl' & Ha'); [done|done|done|done|done|by rewrite <- Ha in Hid| |].
  { intros o' k' e' v' He Hw. simpl in Hw. apply lookup_singleton_Some in Hw as [[= <- <-] <-].
    eapply plain_shows; [done|done|done|]. by apply (s_tables _ _ _ Hs o). }
  simpl in Hc, Hp, Hl', Ha'.
  pose proof (s_lsn _ _ _ Hs) as Hlsn. fold cur in Hlsn.
  do 2 eexists. split.
  { unfold txn_commit, txn. unfold mbind, stateful_bind. rewrite Hm. simpl.
    match goal with |- context [commit _ _ _ _ ?y] => change y with s1 end. rewrite Hc. reflexivity. }
  match goal with |- sound _ _ ?y /\ _ => destruct (view_committed b' (S (S (S n))) d a id
    (WalWriter.current_lsn (WalWriter.state l) + 1) o k v r' y) as [Htab Hview] end; try done; [fold cur; lia|].
  split; [|exact Hview]. clear Hm Hc. subst s1 cur. destruct Hs. constructor; simpl in *; try done; try lia.
  - by apply locks_released.
  - rewrite Ha', Ha. intros y Hy. apply s_active0. set_solver.
  - intros sid sn Hsn. destruct (s_snapshots0 sid sn Hsn). lia.
Qed.
(** ** The handles *)
Definition begun (b : Z) (n : nat) (d : db) (l : WalWriter.t F) : Prop :=
  logged (RecordData.Begin (next_txn_id d)) b n
    ({[next_txn_id d]} ∪ WalWriter.active_txns (WalWriter.state (wal (world d)))) (wal (world d)) l.

Lemma begun_active b n d l : begun b n d l ->
  next_txn_id d ∈ WalWriter.active_txns (WalWriter.state (wal (world (started d l)))).
Proof. intros (_ & _ & Ha & _). simpl. rewrite Ha. set_solver. Qed.

Lemma put_path {B} (x : outside) (f : unit -> B) e b n d a o k v l :
  answers (submit x) -> orders_ok (orders x) -> sound (b + (301 + zlen k + zlen v)) (4 + n) d -> 0 <= b ->
  has_view d a -> plain a o (Some v) -> begun (b + (301 + zlen k + zlen v)) (3 + n) d l ->
  exists d2 x2,
    (y ← txn (put e o k v); _ ← txn_commit chain_size x; mret (f y))
        (started d l, auto (next_txn_id d) (Transaction.current_lsn (world d)))
      = (Ok (f tt), (d2, x2)) /\
    sound b n d2 /\ has_view d2 (set_present (<[(o, k) := v]> (present a)) a).
Proof.
  intros Hsub Hod Hs Hb0 Hv Hpl Hl. pose proof (sound_started _ _ _ _ Hs Hl) as Hs1.
  pose proof (view_started d l a Hv) as Hv1. pose proof (begun_active _ _ _ _ Hl) as Ha.
  set (b1 := b + (301 + zlen k + zlen v) - 71) in *.
  destruct (put_ok b1 (2 + n) (mkSys (world (started d l)) (auto (next_txn_id d) (Transaction.current_lsn (world d))))
    (next_txn_id d) (Transaction.current_lsn (world d)) e o k v) as (l2 & Hput & Hr2 & Hl2 & Ha2 & _);
    [done|apply Hs1|apply Hs1|lia|exact Ha|]. rewrite size_write in Hr2.
  destruct (write_ok x (put e o k v) f tt (b + 142) b1 n (started d l) a (next_txn_id d) o k (Some v) l2)
    as (d2 & x2 & Hrun & Hs2 & Hv2); try done; [|lia|].
  - eapply room_weaken; [exact Hr2|lia|lia].
  - exists d2, x2. split_and!; [exact Hrun| |exact Hv2]. by replace (b + 142 - 142) with b in Hs2 by lia.
Qed.

Lemma delete_path {B} (x : outside) (f : bool -> B) e b n d a o k l :
  answers (submit x) -> orders_ok (orders x) -> sound (b + (301 + zlen k)) (4 + n) d -> 0 <= b ->
  has_view d a -> plain a o None -> begun (b + (301 + zlen k)) (3 + n) d l ->
  exists d2 x2,
    (y ← txn (delete e o k); _ ← txn_commit chain_size x; mret (f y))
        (started d l, auto (next_txn_id d) (Transaction.current_lsn (world d)))
      = (Ok (f (bool_decide (is_Some (present a !! (o, k))))), (d2, x2)) /\
    sound b n d2 /\ has_view d2 (set_present (base.delete (o, k) (present a)) a).
Proof.
  intros Hsub Hod Hs Hb0 Hv Hpl Hl. pose proof (sound_started _ _ _ _ Hs Hl) as Hs1.
  pose proof (view_started d l a Hv) as Hv1. pose proof (begun_active _ _ _ _ Hl) as Ha.
  assert (He : exists en, registry (world d) !! o = Some en).
  { simpl in Hpl. rewrite <- (v_kinds d a Hv) in Hpl. unfold kinds in Hpl. rewrite lookup_fmap in Hpl.
    destruct (registry (world d) !! o); [by eexists|done]. }
  destruct He as [en He]. destruct (s_tables _ _ _ Hs o en He) as [Hk _].
  set (b1 := b + (301 + zlen k) - 71) in *.
  destruct (txn_delete_ok b1 (2 + n) (mkSys (world (started d l)) (auto (next_txn_id d) (Transaction.current_lsn (world d))))
    (next_txn_id d) (Transaction.current_lsn (world d)) e o k en) as (l2 & Hdel & Hr2 & Hl2 & Ha2 & _);
    [done|apply Hs1|done|done|apply Hs1|lia|exact Ha|]. rewrite size_write in Hr2.
  assert (Hseen : shows en (Reads.shown (engine_chain en k) (Transaction.current_lsn (world d))) = present a !! (o, k)).
  { pose proof (v_present d a Hv o k) as Hp. rewrite (read_memory _ _ o en k _ (s_tables _ _ _ Hs) He) in Hp. congruence. }
  rewrite Hseen in Hdel.
  destruct (write_ok x (delete e o k) f (bool_decide (is_Some (present a !! (o, k)))) (b + 142) b1 n (started d l) a
    (next_txn_id d) o k None l2) as (d2 & x2 & Hrun & Hs2 & Hv2); try done; [|lia|].
  - eapply room_weaken; [exact Hr2|change (zlen []) with 0; lia|lia].
  - exists d2, x2. split_and!; [exact Hrun| |exact Hv2]. by replace (b + 142 - 142) with b in Hs2 by lia.
Qed.
(** What a call does to engine and view. *)
Definition agrees (spec : expect) (r : outcome StorageEngineErrorKind answer) : Prop :=
  match spec with
  | Exactly x => r = x
  | Unless_pager x => r = Ok x \/ (exists e, r = Err e /\ (e = PagerFailed \/ e = OtherError)) \/ r = Panic
  | Anything => True
  end.
Definition follows (b : Z) (n : nat) (x : outside) (q : request) (d : db) (a : view) : Prop :=
  let '(r, d') := perform x q d in
  agrees (respond q a).1 r /\ sound b n d' /\ has_view d' (respond q a).2.

Lemma tell_ok {A} (f : A -> answer) (m : stateful db StorageEngineErrorKind A) d v d' :
  m d = (Ok v, d') -> tell f m d = (Ok (f v), d').
Proof. intros Hm. unfold tell. by rewrite (sbind_ok _ _ _ _ _ Hm). Qed.
Lemma tell_err {A} (f : A -> answer) (m : stateful db StorageEngineErrorKind A) d e d' :
  m d = (Err e, d') -> tell f m d = (Err e, d').
Proof. intros Hm. unfold tell. by rewrite (sbind_err _ _ _ _ _ Hm). Qed.

(** A handle call: the read it starts with, then the rest of it. *)
Lemma handle_begins {A} (m : option bytes -> stateful (db * Transaction.t) StorageEngineErrorKind A) e b n d a o k :
  sound b (S n) d -> 71 <= b -> has_view d a ->
  exists l, begun b n d l /\
    forall r d' x', m (present a !! (o, k)) (started d l, auto (next_txn_id d) (Transaction.current_lsn (world d)))
        = (r, (d', x')) ->
      in_txn (begin_write e SyncOnCommit) (existing ← txn (get o k); m existing) d = (r, d').
Proof.
  intros Hs Hb Hv. destruct (begin_write_ok b n e d Hs Hb) as (l & Hbw & Hl). exists l. split; [done|].
  intros r d' x' Hm. unfold in_txn. rewrite Hbw. rewrite (sbind_ok _ _ _ (present a !! (o, k))
    (started d l, auto (next_txn_id d) (Transaction.current_lsn (world d)))); [by rewrite Hm|].
  apply txn_get; [done|done|]. apply (v_present d a Hv).
Qed.

Lemma early_return b n need d a l : sound (b + need) (4 + n) d -> begun (b + need) (3 + n) d l -> 0 <= b -> 71 <= need ->
  has_view d a -> sound b n (started d l) /\ has_view (started d l) a.
Proof.
  intros Hs Hl Hb Hn Hv. split; [|by apply view_started].
  eapply sound_weaken; [exact (sound_started _ _ _ _ Hs Hl)|lia|simpl; lia].
Qed.

Section Step.
Variables (x : outside) (b : Z) (n : nat) (d : db) (a : view).
Hypothesis Hsub : answers (submit x).
Hypothesis Hod : orders_ok (orders x).
Hypothesis Hb : 0 <= b.
Hypothesis Hv : has_view d a.

#[local] Ltac begin_handle Hs o k l Hl Hin :=
  match goal with |- context [in_txn (begin_write ?e _) (mbind ?m _)] =>
    edestruct (handle_begins m e _ _ d a o k Hs ltac:(lia) Hv) as (l & Hl & Hin)
  end.

Lemma insert_follows o k v : sound (b + need (Insert o k v)) (4 + n) d -> allowed a (Insert o k v) ->
  follows b n x (Insert o k v) d a.
Proof.
  simpl. intros Hs Hal. pose proof (zlen_nonneg k). pose proof (zlen_nonneg v).
  unfold follows. cbn [perform respond]; unfold handle_insert.
  begin_handle Hs o k l Hl Hin.
  destruct (present a !! (o, k)) as [w|] eqn:Hw; cbn [fst snd].
  - erewrite tell_err by (eapply Hin; reflexivity). split; [done|]. eapply early_return; [done|done|done|lia|done].
  - destruct (put_path x (fun _ => tt) (envs x 1%nat) b n d a o k v l) as (d2 & x2 & Hp & Hs2 & Hv2); try done.
    by erewrite tell_ok by (eapply Hin; exact Hp).
Qed.

Lemma update_follows o k v : sound (b + need (Update o k v)) (4 + n) d -> allowed a (Update o k v) ->
  follows b n x (Update o k v) d a.
Proof.
  simpl. intros Hs Hal. pose proof (zlen_nonneg k). pose proof (zlen_nonneg v).
  unfold follows. cbn [perform respond]; unfold handle_update.
  begin_handle Hs o k l Hl Hin.
  destruct (present a !! (o, k)) as [w|] eqn:Hw; cbn [fst snd].
  - destruct (put_path x (fun _ => tt) (envs x 1%nat) b n d a o k v l) as (d2 & x2 & Hp & Hs2 & Hv2); try done.
    by erewrite tell_ok by (eapply Hin; exact Hp).
  - erewrite tell_err by (eapply Hin; reflexivity). split; [done|]. eapply early_return; [done|done|done|lia|done].
Qed.

Lemma upsert_follows o k v : sound (b + need (Upsert o k v)) (4 + n) d -> allowed a (Upsert o k v) ->
  follows b n x (Upsert o k v) d a.
Proof.
  simpl. intros Hs Hal. pose proof (zlen_nonneg k). pose proof (zlen_nonneg v).
  unfold follows. cbn [perform respond]; unfold handle_upsert.
  begin_handle Hs o k l Hl Hin.
  destruct (put_path x (fun _ => bool_decide (is_Some (present a !! (o, k)))) (envs x 1%nat) b n d a o k v l)
    as (d2 & x2 & Hp & Hs2 & Hv2); try done.
  by erewrite tell_ok by (eapply Hin; exact Hp).
Qed.

Lemma delete_follows o k : sound (b + need (Delete o k)) (4 + n) d -> allowed a (Delete o k) ->
  follows b n x (Delete o k) d a.
Proof.
  simpl. intros Hs Hal. pose proof (zlen_nonneg k).
  unfold follows. cbn [perform respond]; unfold handle_delete.
  begin_handle Hs o k l Hl Hin.
  destruct (present a !! (o, k)) as [w|] eqn:Hw; cbn [fst snd].
  - destruct (delete_path x (fun y => y) (envs x 1%nat) b n d a o k l) as (d2 & x2 & Hp & Hs2 & Hv2); try done.
    erewrite tell_ok by (eapply Hin; exact Hp). by rewrite Hw.
  - erewrite tell_ok by (eapply Hin; reflexivity). split; [done|]. rewrite delete_id by done.
    replace (set_present (present a) a) with a by (by destruct a).
    eapply early_return; [done|done|done|lia|done].
Qed.
(** ** Reads and snapshots *)
Lemma view_counted m : has_view d a -> has_view (set_next_txn_id m d) a.
Proof. by intros []. Qed.

Lemma handle_get_ok o k : sound b (4 + n) d ->
  handle_get o k d = (Ok (present a !! (o, k)), set_next_txn_id (next_txn_id d + 1) d).
Proof.
  intros Hs. unfold handle_get, in_txn, begin_read. rewrite (begin_read_ok b (3 + n)) by done.
  erewrite txn_get; [done|done|done|]. apply (v_present d a Hv).
Qed.
Lemma read_sound : sound b (4 + n) d -> sound b n (set_next_txn_id (next_txn_id d + 1) d).
Proof. intros Hs. eapply sound_weaken; [by apply sound_counted|lia|simpl; lia]. Qed.

Lemma get_follows o k : sound b (4 + n) d -> follows b n x (Get o k) d a.
Proof.
  intros Hs. unfold follows. cbn [perform respond]. rewrite (tell_ok _ _ _ _ _ (handle_get_ok o k Hs)).
  split_and!; [done|by apply read_sound|by apply view_counted].
Qed.
Lemma contains_follows o k : sound b (4 + n) d -> follows b n x (Contains o k) d a.
Proof.
  intros Hs. unfold follows. cbn [perform respond]. unfold handle_contains.
  erewrite tell_ok by (by rewrite (sbind_ok _ _ _ _ _ (handle_get_ok o k Hs))).
  split_and!; [done|by apply read_sound|by apply view_counted].
Qed.

Lemma read_pinned_follows sid o k : sound b (4 + n) d -> is_Some (pins a !! sid) -> follows b n x (ReadPinned sid o k) d a.
Proof.
  intros Hs [p Hp]. unfold follows. cbn [perform respond]. rewrite Hp.
  pose proof (v_pins d a Hv sid) as Hpin. unfold pinned_as in Hpin. rewrite Hp in Hpin.
  destruct (snapshots d !! sid) as [sn|] eqn:Hsid; [|done]. destruct Hpin as [_ Hread].
  destruct (s_snapshots _ _ _ Hs sid sn Hsid) as [_ Hle].
  assert (Hval : validate_snapshot_lsn (Snapshot.lsn sn) d = (Ok tt, d)).
  { unfold validate_snapshot_lsn, gets, lift, mbind, stateful_bind, ensure, current_snapshot_lsn.
    destruct (Z.leb_spec (Snapshot.lsn sn) (Transaction.current_lsn (world d))); [|lia].
    destruct (Snapshot.lsn sn =? 0); [done|].
    assert (existsb (fun s => Snapshot.lsn s =? Snapshot.lsn sn) (map snd (map_to_list (snapshots d))) = true) as ->; [|done].
    apply existsb_exists. exists sn. split; [|apply Z.eqb_refl].
    apply in_map_iff. exists (sid, sn). split; [done|]. by apply list_elem_of_In, elem_of_map_to_list. }
  erewrite tell_ok.
  2:{ unfold read_at_snapshot, in_txn, begin_read_at, begin_read_at_with_isolation, allocate_txn_id.
      unfold mbind, stateful_bind. rewrite Hval. unfold gets, modify, mret, stateful_ret.
      rewrite as_u_id by (destruct (s_txn _ _ _ Hs); unfold fits; lia).
      erewrite txn_get; [reflexivity|done|done|]. apply Hread. }
  split_and!; [done|by apply read_sound|by apply view_counted].
Qed.

Lemma names_agree nm :
  existsb (fun s => bool_decide (Snapshot.name s = nm)) (map snd (map_to_list (snapshots d))) = name_used nm a.
Proof.
  unfold name_used. apply eq_true_iff_eq. rewrite !existsb_exists. split.
  - intros (sn & (y & <- & Hin)%in_map_iff & Hn). destruct y as [sid sn]. simpl in Hn.
    apply list_elem_of_In, elem_of_map_to_list in Hin. pose proof (v_pins d a Hv sid) as Hp. unfold pinned_as in Hp.
    rewrite Hin in Hp. destruct (pins a !! sid) as [p|] eqn:Hpin; [|done]. destruct Hp as [Hnm _].
    exists (sid, p). split; [by apply list_elem_of_In, elem_of_map_to_list|]. simpl. by rewrite <- Hnm.
  - intros ([sid p] & Hin & Hn). apply list_elem_of_In, elem_of_map_to_list in Hin.
    pose proof (v_pins d a Hv sid) as Hp. unfold pinned_as in Hp. rewrite Hin in Hp.
    destruct (snapshots d !! sid) as [sn|] eqn:Hsn; [|done]. destruct Hp as [Hnm _]. exists sn.
    split; [|simpl in Hn; by rewrite Hnm]. apply in_map_iff. exists (sid, sn). split; [done|].
    by apply list_elem_of_In, elem_of_map_to_list.
Qed.

Lemma pin_follows now nm : sound b (4 + n) d -> follows b n x (Pin now nm) d a.
Proof.
  intros Hs. unfold follows. cbn [perform respond]. unfold tell, create_snapshot, allocate_snapshot_id.
  unfold gets, modify, mret, stateful_ret, mbind, stateful_bind, lift, ensure.
  rewrite names_agree. assert (Hid : as_u64 (next_snapshot_id d + 1) = next_pin a + 1).
  { rewrite <- (v_next d a Hv). destruct (s_pin _ _ _ Hs). rewrite as_u_id; [done|]. unfold fits. lia. }
  assert (Hw : sound b n d) by (eapply sound_weaken; [done|lia|lia]).
  destruct (bool_decide (trim nm = _)); simpl; [done|]. destruct (name_used (trim nm) a); simpl; [done|].
  destruct now as [tm|]; simpl; rewrite Hid, ?(v_next d a Hv).
  - split; [done|]. pose proof Hv as []. destruct Hw, Hs. split.
    + constructor; simpl; try done; try lia. intros sid s Hsn. destruct (decide (sid = next_pin a)) as [->|Hne].
      * rewrite lookup_insert_eq in Hsn. injection Hsn as <-. simpl. unfold current_snapshot_lsn. lia.
      * rewrite lookup_insert_ne in Hsn by done. destruct (s_snapshots0 sid s Hsn). lia.
    + constructor; simpl; try done. intros sid. destruct (decide (sid = next_pin a)) as [->|Hne].
      * rewrite !lookup_insert_eq. split; [done|]. intros o k. apply v_present0.
      * rewrite !lookup_insert_ne by done. apply v_pins0.
  - split; [done|]. pose proof Hv as []. destruct Hw, Hs. split; constructor; simpl; try done; try lia.
    intros sid s Hsn. destruct (s_snapshots0 sid s Hsn). lia.
Qed.

Lemma release_follows sid : sound b (4 + n) d -> follows b n x (Release sid) d a.
Proof.
  intros Hs. unfold follows. cbn [perform respond]. unfold tell, release_snapshot.
  unfold gets, modify, mret, stateful_ret, mbind, stateful_bind, lift.
  assert (Hw : sound b n d) by (eapply sound_weaken; [done|lia|lia]).
  pose proof (v_pins d a Hv sid) as Hp. unfold pinned_as in Hp.
  destruct (snapshots d !! sid) as [sn|] eqn:Hsn, (pins a !! sid) as [p|] eqn:Hpin; simpl; try done.
  split; [done|]. pose proof Hv as []. destruct Hw. split.
  - constructor; simpl; try done. intros s' sn' [_ Hl]%lookup_delete_Some. by eapply s_snapshots0.
  - constructor; simpl; try done. intros s'. destruct (decide (s' = sid)) as [->|Hne].
    + by rewrite !lookup_delete_eq.
    + rewrite !lookup_delete_ne by done. apply v_pins0.
Qed.
End Step.

(** ** Vacuum *)
(** A watermark no held snapshot is below. *)
Definition below (m : LogSequenceNumber) (d : db) : Prop :=
  m <= Transaction.current_lsn (world d) /\ forall sid s, snapshots d !! sid = Some s -> m <= Snapshot.lsn s.
(** An engine with a view, whatever its pager. *)
Definition good (b : Z) (n : nat) (m : LogSequenceNumber) (a : view) (d : db) : Prop :=
  sound b n d /\ has_view d a /\ below m d.

Lemma watermark_below b n (d : db) : sound b n d -> below (watermark d) d.
Proof.
  intros Hs. unfold watermark, min_visible_lsn, current_snapshot_lsn.
  set (l := map Snapshot.lsn (map snd (map_to_list (snapshots d)))).
  assert (Hin : forall sid sn, snapshots d !! sid = Some sn -> Snapshot.lsn sn ∈ l).
  { intros sid sn Hsn. apply list_elem_of_In, in_map, in_map_iff. exists (sid, sn). split; [done|].
    by apply list_elem_of_In, elem_of_map_to_list. }
  assert (Hcur : forall y, y ∈ l -> y <= Transaction.current_lsn (world d)).
  { intros y (sn & <- & ([sid sn'] & <- & Hy)%in_map_iff)%list_elem_of_In%in_map_iff.
    apply list_elem_of_In, elem_of_map_to_list in Hy. apply (s_snapshots _ _ _ Hs sid sn' Hy). }
  pose proof (Snapshot.minimum_le l) as Hmin. destruct (Snapshot.minimum l) as [m|] eqn:Hm; simpl in Hmin |- *.
  - split; [|intros sid sn Hsn; by eapply Hmin, Hin].
    destruct l as [|y l']; [done|]. transitivity y; [apply Hmin|apply Hcur]; by left.
  - split; [done|]. intros sid sn Hsn%Hin. destruct l; [by apply elem_of_nil in Hsn|done].
Qed.

Lemma good_pager b n m a d p : good b n m a d -> good b n m a (set_pager p d).
Proof. intros ([] & [] & Hb). split_and!; [by constructor|by constructor|done]. Qed.

Lemma good_vacuumed b n m a d o e : good b n m a d -> registry (world d) !! o = Some e ->
  good b n m a (set_world (set_registry (<[o := vacuum_engine m e]> (registry (world d))) (world d)) d).
Proof.
  intros (Hs & Hv & Hcur & Hb) He.
  destruct (tables_vacuum _ m _ o e (s_tables _ _ _ Hs) He) as (Ht & Hk & Hr). split_and!; [| |done].
  - destruct Hs. by constructor.
  - destruct Hv as [Hnm Hown Hdis Hkinds Hp Hpins Hn].
    constructor; simpl; [done|done|done|by rewrite Hk|intros; by rewrite Hr| |done].
    intros sid. specialize (Hpins sid). unfold pinned_as in *.
    destruct (snapshots d !! sid) as [sn|] eqn:Hsn, (pins a !! sid) as [p|]; try done.
    destruct Hpins as [Hnm' Hm]. split; [done|]. intros o' k'. rewrite Hr; [apply Hm|by eapply Hb].
Qed.

Lemma registry_vacuum_good b n m a d o : good b n m a d ->
  let '(_, d') := registry_vacuum o m d in good b n m a d'.
Proof.
  intros Hg. unfold registry_vacuum, gets, modify, lift, mret, stateful_ret, mbind, stateful_bind.
  destruct (registry (world d) !! o) as [e|] eqn:He; [|done]. pose proof (good_vacuumed _ _ _ _ _ _ _ Hg He) as Hv.
  destruct Hg as [Hs _]. destruct (s_tables _ _ _ Hs o e He) as [Hk _]. by destruct e as [t|h|]; [exact Hv|exact Hv|].
Qed.
Lemma vacuum_tables_good b n m a l : forall d pt tot, good b n m a d ->
  let '(_, d') := vacuum_tables m l pt tot d in good b n m a d'.
Proof.
  induction l as [|info l IH]; intros d pt tot Hg; [done|]. simpl.
  pose proof (registry_vacuum_good b n m a d (id info) Hg) as Hr.
  destruct (registry_vacuum (id info) m d) as [[rm|e|] d']; [|by apply IH|done].
  destruct (0 <? rm); by apply IH.
Qed.

Lemma vacuum_pager_good b n m a d : good b n m a d -> let '(_, d') := vacuum_pager d in good b n m a d'.
Proof.
  intros Hg. unfold vacuum_pager, on_pager. destruct (pager_compact (pager d)). by apply good_pager.
Qed.

Lemma good_bind {A B} b n m a (f : stateful db StorageEngineErrorKind A) (g : A -> stateful db StorageEngineErrorKind B) d :
  (let '(_, d') := f d in good b n m a d') ->
  (forall y d', good b n m a d' -> let '(_, d'') := g y d' in good b n m a d'') ->
  let '(_, d') := (y ← f; g y) d in good b n m a d'.
Proof. intros Hf Hg. unfold mbind, stateful_bind. destruct (f d) as [[y|e|] d']; [by apply Hg|done|done]. Qed.

Lemma vacuum_table_good b n a d o : good b n (watermark d) a d ->
  let '(_, d') := vacuum_table catalog_order o d in good b n (watermark d) a d'.
Proof.
  intros Hg. unfold vacuum_table. unfold gets at 1. unfold mbind at 1, stateful_bind at 1.
  apply good_bind; [done|]. intros _ d1 Hg1. apply good_bind; [by apply registry_vacuum_good|].
  intros _ d2 Hg2. by apply vacuum_pager_good.
Qed.
Lemma vacuum_full_good b n a d : good b n (watermark d) a d ->
  let '(_, d') := vacuum_full catalog_order d in good b n (watermark d) a d'.
Proof.
  intros Hg. unfold vacuum_full. unfold gets at 1. unfold mbind at 1, stateful_bind at 1.
  apply good_bind; [by apply vacuum_tables_good|]. intros y d1 Hg1. apply good_bind; [by apply vacuum_pager_good|].
  intros st d2 ([] & [] & Hb2). split_and!; [by constructor|by constructor|done].
Qed.

Lemma vacuum_follows {A} b n x q d a (m : stateful db StorageEngineErrorKind A) : sound b (4 + n) d -> 0 <= b -> has_view d a ->
  perform x q = tell (fun _ => Done) m -> respond q a = (Anything, a) ->
  (good b n (watermark d) a d -> let '(_, d') := m d in good b n (watermark d) a d') -> follows b n x q d a.
Proof.
  intros Hs Hb Hv Hp Hr Hm. unfold follows. rewrite Hp, Hr. unfold tell.
  assert (Hw : sound b n d) by (eapply sound_weaken; [done|lia|lia]).
  assert (Hg : good b n (watermark d) a d) by (split_and!; [done|done|by eapply watermark_below]).
  assert (Hgg : let '(_, d') := (_ ← m; mret Done) d in good b n (watermark d) a d')
    by (apply good_bind; [by apply Hm|done]).
  destruct ((_ ← m; mret Done) d) as [r d']. by destruct Hgg as (? & ? & _).
Qed.

(** ** The catalog *)
(** Writing the catalog changes the pager only. *)
Lemma persist_frame b n m a d : good b n m a d ->
  let '(r, d') := persist_catalog catalog_order d in
  good b n m a d' /\ (r = Ok tt \/ (exists e, r = Err e /\ (e = PagerFailed \/ e = OtherError)) \/ r = Panic).
Proof.
  intros Hg. unfold persist_catalog, on_pager, gets, lift, mbind, stateful_bind.
  destruct (to_json _) as [js|]; simpl; [|split; [done|right; left; eauto]].
  destruct (write_page _ _ _ _) as [[[]|e|] p]; (split; [by do 2 apply good_pager|]); [by left| |by right; right].
  right; left. eauto.
Qed.

Definition empty_engine (hash : bool) (tid : TableId) (nm : string) : TableEngineInstance E :=
  if hash then EMemoryHashTable (MemoryHashTable.new tid nm) else EMemoryBTree (MemoryBTree.new tid nm).

Lemma create_in_memory hash tid nm (p : P) :
  TableEngineRegistry.create_engine tid nm (options_of hash) p = (Ok (empty_engine hash tid nm, None), p).
Proof. unfold TableEngineRegistry.create_engine. rewrite options_kind. by destruct hash. Qed.

Lemma empty_engine_ok cur hash tid nm : same_kind (empty_engine hash tid nm) (empty_engine hash tid nm) /\
  (forall k, engine_chain (empty_engine hash tid nm) k = None) /\
  TableEngineRegistry.table_id (empty_engine hash tid nm) = tid /\
  chains_ok cur None /\ forall k l, engine_read (empty_engine hash tid nm) k l = Ok None.
Proof. by destruct hash. Qed.

Lemma good_created b n m a d nm i hash info : good b n m a d -> names a !! nm = None -> tables a !! i = None ->
  id info = i ->
  good b n m (add_table nm i hash a)
    (set_catalog (<[nm := info]> (table_catalog d))
       (set_world (set_registry (<[i := empty_engine hash i nm]> (registry (world d))) (world d)) d)).
Proof.
  intros (Hs & Hv & Hb) Hnm Hi Hid. destruct (empty_engine_ok 0 hash i nm) as (Hk & Hc & _ & _ & Hr).
  assert (Hno : registry (world d) !! i = None).
  { pose proof (v_kinds d a Hv) as Hkd. rewrite <- Hkd in Hi. unfold kinds in Hi. rewrite lookup_fmap in Hi.
    by destruct (registry (world d) !! i). }
  assert (Hread : forall o k l, read_at (<[i := empty_engine hash i nm]> (registry (world d))) o k l
      = read_at (registry (world d)) o k l).
  { intros o k l. unfold read_at. destruct (decide (o = i)) as [->|Hne];
      [by rewrite lookup_insert_eq, Hno, Hr|by rewrite lookup_insert_ne]. }
  split_and!; [| |done].
  - destruct Hs. constructor; simpl; try done. intros o e He. destruct (decide (o = i)) as [->|Hne].
    + rewrite lookup_insert_eq in He. injection He as <-. split; [done|]. intros k. by rewrite Hc.
    + rewrite lookup_insert_ne in He by done. by apply (s_tables0 o).
  - destruct Hv as [Hn Hown Hdis Hkn Hp Hpins Hnx]. constructor; simpl.
    + by rewrite fmap_insert, Hn, Hid.
    + intros nm' i' [[<- <-]|[Hne Hl]]%lookup_insert_Some; [by rewrite lookup_insert_eq; eexists|].
      destruct (decide (i' = i)) as [->|?]; [by rewrite lookup_insert_eq; eexists|].
      rewrite lookup_insert_ne by done. by eapply Hown.
    + intros n1 n2 i' H1' H2'. apply lookup_insert_Some in H1' as [[<- <-]|[Hne1 Hl1]];
        apply lookup_insert_Some in H2' as [[<- E2]|[Hne2 Hl2]]; try done.
      * destruct (Hown _ _ Hl2) as [? Ht]. congruence.
      * destruct (Hown _ _ Hl1) as [? Ht]. congruence.
      * by eapply Hdis.
    + unfold kinds. rewrite fmap_insert. fold (kinds (registry (world d))). rewrite Hkn. f_equal. by destruct hash.
    + intros o k. rewrite Hread. apply Hp.
    + intros sid. specialize (Hpins sid). unfold pinned_as in *.
      destruct (snapshots d !! sid), (pins a !! sid); try done. destruct Hpins as [? Hm]. split; [done|].
      intros o k. by rewrite Hread.
    + done.
Qed.

Lemma registry_free d a i : has_view d a -> registry (world d) !! i = None <-> tables a !! i = None.
Proof.
  intros Hv. rewrite <- (v_kinds d a Hv). unfold kinds. rewrite lookup_fmap. by destruct (registry (world d) !! i).
Qed.
Lemma catalog_free d a nm : has_view d a -> table_catalog d !! nm = None <-> names a !! nm = None.
Proof.
  intros Hv. rewrite <- (v_names d a Hv), lookup_fmap. by destruct (table_catalog d !! nm).
Qed.

(** A call that ends with writing the catalog. *)
Lemma persist_follows {A B} b n m a d (f : unit -> A) (g : A -> B) : good b n m a d ->
  let '(r, d') := (y ← (_ ← persist_catalog catalog_order; mret (f tt)); mret (g y)) d in
  good b n m a d' /\ (r = Ok (g (f tt)) \/ (exists e, r = Err e /\ (e = PagerFailed \/ e = OtherError)) \/ r = Panic).
Proof.
  intros Hg. pose proof (persist_frame b n m a d Hg) as Hp. unfold mbind, stateful_bind.
  destruct (persist_catalog catalog_order d) as [[[]|e|] d']; destruct Hp as [Hgd Hr]; (split; [done|]);
    [by left| |by right; right].
  destruct Hr as [Hr|[(e' & [= ->] & He)|Hr]]; [done| |done]. right; left. eauto.
Qed.

(** The first half of [create_table]. *)
Lemma create_table_eq d a nm hash : has_view d a -> Z.of_nat (size (names a)) + 1 < 2 ^ 64 ->
  let i := Z.of_nat (size (names a)) + 1 in
  create_table catalog_order nm (options_of hash) d
    = match names a !! nm, tables a !! i with
      | Some _, _ => (Err TableAlreadyExists, d)
      | None, Some _ => (Err OtherError, d)
      | None, None =>
          (_ ← persist_catalog catalog_order; mret i)
            (set_catalog (<[nm := mkTable i nm (options_of hash) None (current_snapshot_lsn d) ∅]> (table_catalog d))
              (set_world (set_registry (<[i := empty_engine hash i nm]> (registry (world d))) (world d)) d))
      end.
Proof.
  intros Hv Hsz i. unfold create_table.
  assert (Hsize : as_u64 (Z.of_nat (size (table_catalog d)) + 1) = i).
  { assert (size (table_catalog d) = size (names a)) as -> by (rewrite <- (v_names d a Hv); by rewrite map_size_fmap).
    apply as_u_id. unfold fits. lia. }
  pose proof (catalog_free d a nm Hv) as Hcf. pose proof (registry_free d a i Hv) as Hrf.
  unfold gets, lift, ensure, on_registry, register, mret, stateful_ret, mbind, stateful_bind. rewrite Hsize.
  destruct (names a !! nm) as [j|] eqn:Hnm.
  { rewrite bool_decide_eq_false_2; [done|]. intros Hn. apply Hcf in Hn. done. }
  rewrite bool_decide_eq_true_2 by (by apply Hcf). rewrite create_in_memory.
  destruct (empty_engine_ok 0 hash i nm) as (_ & _ & Hid & _). simpl. unfold TableEngineRegistry.register. rewrite Hid.
  destruct (tables a !! i) as [h|] eqn:Hi.
  - rewrite bool_decide_eq_true_2; [by destruct d|]. destruct (registry (world d) !! i); [by eexists|].
    by pose proof (proj1 Hrf eq_refl).
  - rewrite bool_decide_eq_false_2; [by destruct d|]. rewrite (proj2 Hrf eq_refl). by intros [].
Qed.

Lemma create_follows x b n d a nm hash : sound b (4 + n) d -> 0 <= b -> has_view d a ->
  Z.of_nat (size (names a)) + 1 < 2 ^ 64 -> follows b n x (Create nm hash) d a.
Proof.
  intros Hs Hb Hv Hsz. unfold follows. cbn [perform respond].
  assert (Hw : sound b n d) by (eapply sound_weaken; [done|lia|lia]).
  assert (Hg : good b n (watermark d) a d) by (split_and!; [done|done|by eapply watermark_below]).
  pose proof (create_table_eq d a nm hash Hv Hsz) as Hc. cbv zeta in Hc.
  destruct (names a !! nm) as [j|] eqn:Hnm; [by erewrite tell_err by exact Hc|].
  destruct (tables a !! _) as [h|] eqn:Hi; [by erewrite tell_err by exact Hc|].
  set (i := Z.of_nat (size (names a)) + 1) in *.
  set (info := mkTable i nm (options_of hash) None (current_snapshot_lsn d) ∅) in *.
  pose proof (persist_follows b n (watermark d) _ _ (fun _ => i) Table
    (good_created _ _ _ _ d nm i hash info Hg Hnm Hi eq_refl)) as Hp.
  set (d1 := set_catalog _ _) in *.
  unfold tell, mbind at 1, stateful_bind at 1. rewrite Hc.
  change (let '(r, d') := (y ← (_ ← persist_catalog catalog_order; mret i); mret (Table y)) d1 in
    agrees (Unless_pager (Table i)) r /\ sound b n d' /\ has_view d' (add_table nm i hash a)).
  destruct ((y ← (_ ← persist_catalog catalog_order; mret i); mret (Table y)) d1) as [r d'].
  destruct Hp as [(? & ? & _) Hr]. done.
Qed.

Lemma without_lookup (i : TableId) (m : store) (o : TableId) (k : bytes) : without i m !! (o, k) = if decide (o = i) then None else m !! (o, k).
Proof.
  unfold without. case_decide as Ho.
  - apply map_lookup_filter_None. right. intros v _. simpl. by intros [].
  - destruct (m !! (o, k)) as [v|] eqn:Hm; [by apply map_lookup_filter_Some|]. apply map_lookup_filter_None. by left.
Qed.

Lemma named_spec a i : match named i a with
                       | Some nm => names a !! nm = Some i
                       | None => forall nm, names a !! nm <> Some i
                       end.
Proof.
  unfold named. destruct (find _ _) as [[nm j]|] eqn:Hf; simpl.
  - apply find_some in Hf as [Hin Hj]. apply list_elem_of_In, elem_of_map_to_list in Hin. simpl in Hj.
    by apply Z.eqb_eq in Hj as ->.
  - intros nm Hnm. pose proof (find_none _ _ Hf (nm, i)) as Hn. simpl in Hn. rewrite Z.eqb_refl in Hn.
    discriminate Hn. by apply list_elem_of_In, elem_of_map_to_list.
Qed.
Lemma find_table_named d a i : has_view d a -> fst <$> find_table catalog_order i (table_catalog d) = named i a.
Proof.
  intros Hv. pose proof (named_spec a i) as Hn. unfold find_table.
  assert (Hin : forall nm info, In (nm, info) (catalog_order (table_catalog d)) <-> table_catalog d !! nm = Some info).
  { intros nm info. rewrite <- list_elem_of_In, (catalog_order_all (table_catalog d)). apply elem_of_map_to_list. }
  assert (Hnames : forall nm info, table_catalog d !! nm = Some info -> names a !! nm = Some (id info)).
  { intros nm info Hc. rewrite <- (v_names d a Hv), lookup_fmap. by rewrite Hc. }
  destruct (find _ _) as [[nm info]|] eqn:Hf; simpl.
  - apply find_some in Hf as [Hc Hi]. apply Hin, Hnames in Hc. simpl in Hi. apply Z.eqb_eq in Hi. rewrite Hi in Hc.
    destruct (named i a) as [nm'|]; [|by destruct (Hn nm)]. f_equal. by eapply (v_distinct d a Hv).
  - destruct (named i a) as [nm'|]; [|done]. exfalso.
    rewrite <- (v_names d a Hv), lookup_fmap in Hn. destruct (table_catalog d !! nm') as [info|] eqn:Hc; [|done].
    simpl in Hn. injection Hn as Hi. apply Hin in Hc. pose proof (find_none _ _ Hf _ Hc) as Hno. simpl in Hno.
    by rewrite Hi, Z.eqb_refl in Hno.
Qed.

Lemma good_dropped b n m a d nm i : good b n m a d -> names a !! nm = Some i ->
  good b n m (drop_named nm i a)
    (set_world (set_registry (base.delete i (registry (world d))) (world d))
       (set_catalog (base.delete nm (table_catalog d)) d)).
Proof.
  intros (Hs & Hv & Hb) Hnm.
  assert (Hread : forall (mm : store) l, (forall o k, read_at (registry (world d)) o k l = Ok (mm !! (o, k))) ->
    forall o k, read_at (base.delete i (registry (world d))) o k l = Ok (without i mm !! (o, k))).
  { intros mm l Hmm o k. unfold read_at. rewrite without_lookup. case_decide as Ho.
    - subst o. by rewrite lookup_delete_eq.
    - rewrite lookup_delete_ne by done. apply Hmm. }
  split_and!; [| |done].
  - destruct Hs. constructor; simpl; try done. intros o e [_ He]%lookup_delete_Some. by apply (s_tables0 o).
  - destruct Hv as [Hn Hown Hdis Hkn Hp Hpins Hnx]. constructor; simpl.
    + by rewrite fmap_delete, Hn.
    + intros nm' i' [Hne Hl]%lookup_delete_Some. rewrite lookup_delete_ne; [by eapply Hown|].
      intros ->. apply Hne. by eapply Hdis.
    + intros n1 n2 i' [_ H1']%lookup_delete_Some [_ H2']%lookup_delete_Some. by eapply Hdis.
    + unfold kinds. rewrite fmap_delete. fold (kinds (registry (world d))). by rewrite Hkn.
    + by apply Hread.
    + intros sid. specialize (Hpins sid). rewrite lookup_fmap. unfold pinned_as in *.
      destruct (snapshots d !! sid), (pins a !! sid); try done. destruct Hpins as [? Hm]. split; [done|]. by apply Hread.
    + done.
Qed.

Lemma drop_table_eq d a i : has_view d a ->
  drop_table catalog_order i d
    = match named i a with
      | Some nm => persist_catalog catalog_order
                     (set_world (set_registry (base.delete i (registry (world d))) (world d))
                        (set_catalog (base.delete nm (table_catalog d)) d))
      | None => (Err NotFound, d)
      end.
Proof.
  intros Hv. pose proof (find_table_named d a i Hv) as Hf. unfold drop_table.
  unfold gets, modify, mbind, stateful_bind.
  destruct (find_table catalog_order i (table_catalog d)) as [[nm info]|], (named i a) as [nm'|]; try done.
  by injection Hf as ->.
Qed.
Lemma drop_follows x b n d a i : sound b (4 + n) d -> 0 <= b -> has_view d a -> follows b n x (Drop i) d a.
Proof.
  intros Hs Hb Hv. unfold follows. cbn [perform respond].
  assert (Hw : sound b n d) by (eapply sound_weaken; [done|lia|lia]).
  assert (Hg : good b n (watermark d) a d) by (split_and!; [done|done|by eapply watermark_below]).
  pose proof (drop_table_eq d a i Hv) as Hd. pose proof (named_spec a i) as Hn.
  destruct (named i a) as [nm|]; [|by erewrite tell_err by exact Hd].
  pose proof (persist_frame b n (watermark d) _ _ (good_dropped _ _ _ _ _ _ _ Hg Hn)) as Hp.
  unfold tell, mbind, stateful_bind. rewrite Hd.
  destruct (persist_catalog catalog_order _) as [[[]|e|] d']; destruct Hp as [(? & ? & _) Hr]; (split; [|done]); simpl;
    [by left| |by right; right].
  destruct Hr as [Hr|[(e' & [= ->] & He)|Hr]]; [done| |done]. right; left. eauto.
Qed.

(** ** Histories *)
Lemma perform_follows x q b n d a : answers (submit x) -> orders_ok (orders x) -> 0 <= b ->
  sound (b + need q) (4 + n) d -> has_view d a -> allowed a q -> follows b n x q d a.
Proof.
  intros Hsub Hod Hb Hs Hv Hal. destruct q; simpl in Hs, Hal; rewrite ?Z.add_0_r in Hs.
  - by apply insert_follows.
  - by apply update_follows.
  - by apply upsert_follows.
  - by apply delete_follows.
  - by apply get_follows.
  - by apply contains_follows.
  - by apply pin_follows.
  - by apply release_follows.
  - by apply read_pinned_follows.
  - by apply create_follows.
  - by apply drop_follows.
  - eapply vacuum_follows; [done|done|done|reflexivity|done|apply vacuum_table_good].
  - eapply vacuum_follows; [done|done|done|reflexivity|done|apply vacuum_full_good].
Qed.

Fixpoint perform_all (l : list (outside * request)) (d : db) : list (outcome StorageEngineErrorKind answer) * db :=
  match l with
  | [] => ([], d)
  | (x, q) :: l =>
      let '(r, d') := perform x q d in let '(rs, d'') := perform_all l d' in (r :: rs, d'')
  end.
Fixpoint respond_all (l : list request) (a : view) : list expect * view :=
  match l with
  | [] => ([], a)
  | q :: l => let '(r, a') := respond q a in let '(rs, a'') := respond_all l a' in (r :: rs, a'')
  end.
Fixpoint allowed_all (l : list request) (a : view) : Prop :=
  match l with [] => True | q :: l => allowed a q /\ allowed_all l (respond q a).2 end.
Definition need_all (l : list request) : Z := foldr (fun q z => need q + z) 0 l.

Lemma need_nonneg q : 0 <= need q.
Proof. destruct q as [? k v|? k v|? k v|? k|? ?|? ?|? ?|?|? ? ?|? ?|?|?|]; simpl; try done;
  pose proof (zlen_nonneg k); try pose proof (zlen_nonneg v); lia. Qed.
Lemma need_all_nonneg l : 0 <= need_all l.
Proof. induction l as [|q l IH]; simpl; [done|]. pose proof (need_nonneg q). lia. Qed.

Lemma perform_all_follows l : forall d a,
  Forall (fun y => answers (submit y.1) /\ orders_ok (orders y.1)) l ->
  sound (need_all (map snd l)) (4 * length l) d -> has_view d a -> allowed_all (map snd l) a ->
  Forall2 agrees (respond_all (map snd l) a).1 (perform_all l d).1 /\
  sound 0 0 (perform_all l d).2 /\ has_view (perform_all l d).2 (respond_all (map snd l) a).2.
Proof.
  induction l as [|[x q] l IH]; intros d a Ho Hs Hv Hal; simpl in *; [done|].
  apply Forall_cons in Ho as [[Hsub Hod] Ho]. destruct Hal as [Hq Hal].
  assert (Hf : follows (need_all (map snd l)) (4 * length l) x q d a).
  { apply perform_follows; try done; [apply need_all_nonneg|]. eapply sound_weaken; [exact Hs| |].
    - fold (need_all (map snd l)). pose proof (need_all_nonneg (map snd l)). pose proof (need_nonneg q). lia.
    - simpl. lia. }
  unfold follows in Hf. destruct (perform x q d) as [r d'], (respond q a) as [r' a']. destruct Hf as (Hr & Hs' & Hv').
  destruct (IH d' a' Ho Hs' Hv' Hal) as (Hrs & Hs2 & Hv2).
  destruct (perform_all l d') as [rs d2], (respond_all (map snd l) a') as [rs' a2]. split_and!; [by constructor|done|done].
Qed.
(** ** From the engine's making *)
Definition fresh_view : view := mkView ∅ ∅ ∅ ∅ 1.

Lemma start_good (f : F) cfg p b n : WalWriter.compression cfg = CompressionType.None_ ->
  WalWriter.encryption cfg = EncryptionType.None_ -> cursor f = 0 -> 0 <= b <= WalWriter.max_wal_size cfg ->
  WalWriter.max_wal_size cfg < 2 ^ 63 -> Z.of_nat n + 1 < 2 ^ 64 ->
  let d := start (C := C) (WalWriter.mk f cfg (WalWriter.mkState 1 0 ∅ [])) 0 p in
  good b n (watermark d) fresh_view d.
Proof.
  intros Hc He Hf Hb Hm Hn d.
  assert (Hs : sound b n d).
  { constructor; simpl; try done; try lia. by constructor; simpl; rewrite ?Hf; try lia. }
  split_and!; [done| |by eapply watermark_below].
  by constructor.
Qed.

End Laws.
End EngineLaws.

(** ** An engine in memory *)
Module EngineSample.
Import EngineLaws.
#[local] Existing Instance ToyCodecs.toy.
#[local] Existing Instance ToyCodecs.toy_laws.

(** A pager in memory has nothing to sync or compact, no table is paged, and
    the catalog is written as nothing. *)
#[export] Instance no_service : PagerService MemoryPages.t := {|
  pager_sync := mret tt; pager_compact := mret (Vacuum.stats_new 0) |}.
#[export] Instance no_factory : EngineFactory unit MemoryPages.t unit := {|
  paged_new _ _ _ _ := lift (Err InvalidValueRef);
  lsm_new _ _ _ _ := lift (Err InvalidValueRef);
  paged_open _ _ _ _ _ := lift (Err InvalidValueRef);
  art_new _ _ := tt;
  engine_id _ := 0;
  engine_vacuum _ _ _ := lift (Err InvalidValueRef) |}.
#[export] Instance no_codec : CatalogCodec unit := {| to_json _ := Some []; from_json _ := None |}.
#[export] Instance no_engines : TableEngines unit := {|
  engine_get _ _ _ _ := Err Other; engine_might_contain _ _ := Ok false; engine_scan _ _ _ _ := Err Other;
  engine_write _ _ _ _ _ := fun e => (Err Other, e); engine_special _ _ _ := fun e => (Ok tt, e);
  engine_add_tombstone _ _ _ := fun e => (Ok tt, e); engine_commit_versions _ _ _ := fun e => (Ok tt, e) |}.

Definition kind_of (hash : bool) : TableOptions unit :=
  mkOptions (if hash then KHash else KMemory) RawBytes None None None 1 None None None tt.
Definition file : MemoryFile.t := MemoryFile.mk 0 (MemoryFile.mkData [] Unlocked).
Definition db0 : outcome StorageEngineErrorKind (StorageEngine.t MemoryFile.t unit MemoryPages.t unit) :=
  new (E := unit) (C := unit) map_to_list (WalWriter.create (Ok file) WalWriter.default_config) (Ok MemoryPages.new).
Definition around : Outside (F := MemoryFile.t) :=
  mkOutside (fun _ => WalWriter.demo_env) (fun _ _ => WalWriter.group_flush_create) demo_orders.

Definition requests : list request :=
  [Create "users" true; Create "log" false; Create "users" true; Insert 1 [1] [10]; Insert 2 [7] [70]; Pin (Some 5) " s ";
   Upsert 1 [1] [11]; Insert 1 [1] [12]; Update 1 [2] [20]; Vacuum 1; VacuumFull; ReadPinned 1 1 [1]; Get 1 [1];
   Delete 1 [1]; Delete 1 [1]; Contains 1 [1]; ReadPinned 1 1 [1]; Release 1; Release 1; Vacuum 1; Get 2 [7]; Drop 1;
   Create "more" true].
(** After the drop the next id is still taken: the last call fails. *)
Definition answers_expected : list (outcome StorageEngineErrorKind answer) :=
  [Ok (Table 1); Ok (Table 2); Err TableAlreadyExists; Ok Done; Ok Done; Ok (Pinned 1); Ok (Truth true);
   Err KeyAlreadyExists; Err KeyNotFound; Ok Done; Ok Done; Ok (Value (Some [10])); Ok (Value (Some [11]));
   Ok (Truth true); Ok (Truth false); Ok (Truth false); Ok (Value (Some [10])); Ok Done; Err InvalidOperation; Ok Done;
   Ok (Value (Some [70])); Ok Done; Err OtherError].
Definition calls : list (Outside (F := MemoryFile.t) * request) := map (fun q => (around, q)) requests.

Example engine_answers :
  match db0 with Ok d => (perform_all 96 map_to_list kind_of calls d).1 | _ => [] end = answers_expected.
Proof. vm_compute. reflexivity. Qed.
End EngineSample.
Import EngineSample.

