(* ===== verification/EngineCatalog.v ===== *)
(** * The catalog on disk

    [persist_catalog] writes the catalog to its page and [recover_catalog]
    rebuilds it when an engine is opened. *)
From S2P Require Import Prelude Types Vfs PagerConfig WalRecord WalReader WalWriter Mvcc Conflict OrdMap MemTables Transaction Page PageStore Engine EngineLaws.
Import Transaction StorageEngine.

Module EngineCatalog.
Section Catalog.
Context `{Codecs} {F : Type} `{FileOps F} {E : Type} `{TableEngines E}.
Context {P C : Type} `{PageStoreLaws P} `{EngineFactory E P C} `{CatalogCodecLaws C}.
Variable catalog_order : gmap string (TableInfo C) -> list (string * TableInfo C).
Hypothesis catalog_order_all : forall c, catalog_order c ≡ₚ map_to_list c.
Abbreviation db := (StorageEngine.t F E P C).

(** The tables in memory and their catalog entries. *)
Definition in_memory (info : TableInfo C) : Prop := engine (options info) = KMemory \/ engine (options info) = KHash.
Definition empty_table (info : TableInfo C) : TableEngineInstance E :=
  match engine (options info) with
  | KHash => EMemoryHashTable (MemoryHashTable.new (id info) (name info))
  | _ => EMemoryBTree (MemoryBTree.new (id info) (name info))
  end.

(** A catalog of tables in memory whose entries have the names they are
    filed under and ids of their own. *)
Record catalog_ok (c : gmap string (TableInfo C)) : Prop := {
  c_names nm info : c !! nm = Some info -> name info = nm;
  c_ids nm nm' info info' : c !! nm = Some info -> c !! nm' = Some info' -> id info = id info' -> nm = nm';
  c_memory nm info : c !! nm = Some info -> in_memory info /\ root info = None }.

(** The bytes of the catalog page. *)
Definition catalog_bytes (tables : list (TableInfo C)) (json : bytes) : bytes :=
  to_le_bytes 4 1 ++ to_le_bytes 4 (zlen tables) ++ json.

Definition with_table (d : db) (info : TableInfo C) : db :=
  set_catalog (<[name info := info]> (table_catalog d))
    (set_world (set_registry (<[id info := empty_table info]> (registry (world d))) (world d)) d).

Lemma recover_table_ok d info : in_memory info -> root info = None -> registry (world d) !! id info = None ->
  recover_table info d = (Ok tt, with_table d info).
Proof.
  intros Hm Hroot Hfree. unfold recover_table, on_registry, register, with_table, empty_table.
  unfold gets, lift, modify, mret, stateful_ret, mbind, stateful_bind. rewrite Hroot.
  unfold TableEngineRegistry.create_engine, TableEngineRegistry.register.
  destruct Hm as [-> | ->]; simpl; rewrite bool_decide_eq_false_2 by (rewrite Hfree; by intros []); by destruct d.
Qed.

Lemma recover_tables_ok l : forall d, Forall (fun i => in_memory i /\ root i = None) l -> NoDup (map id l) ->
  (forall i, i ∈ map id l -> registry (world d) !! i = None) ->
  recover_tables l d = (Ok tt, foldl with_table d l).
Proof.
  induction l as [|info l IH]; intros d Hm Hnd Hfree; [done|]. apply Forall_cons in Hm as [[Hi Hr] Hm].
  apply NoDup_cons in Hnd as [Hni Hnd]. simpl. unfold mbind, stateful_bind.
  rewrite recover_table_ok by (try done; apply Hfree; by left). apply IH; [done|done|].
  intros i Hin. unfold with_table. cbn. rewrite lookup_insert_ne; [apply Hfree; by right|]. intros Heq. apply Hni. by rewrite Heq.
Qed.

Lemma rebuilt l : forall d, NoDup (map name l) -> NoDup (map id l) ->
  table_catalog (foldl with_table d l) = list_to_map (map (fun i => (name i, i)) l) ∪ table_catalog d /\
  registry (world (foldl with_table d l)) = list_to_map (map (fun i => (id i, empty_table i)) l) ∪ registry (world d).
Proof.
  induction l as [|info l IH]; intros d Hn Hi; simpl; [by rewrite !map_empty_union|].
  apply NoDup_cons in Hn as [Hnn Hn]. apply NoDup_cons in Hi as [Hni Hi].
  destruct (IH (with_table d info) Hn Hi) as [-> ->]. simpl. split; rewrite <- insert_union_r, insert_union_l; try done;
    apply not_elem_of_list_to_map_1; by rewrite <- list_fmap_compose.
Qed.

Section Order.
Variable c : gmap string (TableInfo C).
Hypothesis Hc : catalog_ok c.
Abbreviation entries := (map snd (catalog_order c)).

Lemma entries_in info : info ∈ entries <-> exists nm, c !! nm = Some info.
Proof.
  rewrite list_elem_of_In, in_map_iff. split.
  - intros ([nm i] & <- & Hin). apply list_elem_of_In in Hin. rewrite (catalog_order_all c), elem_of_map_to_list in Hin. by exists nm.
  - intros [nm Hn]. exists (nm, info). split; [done|]. apply list_elem_of_In.
    by rewrite (catalog_order_all c), elem_of_map_to_list.
Qed.
Lemma entries_pairs : map (fun i => (name i, i)) entries = catalog_order c.
Proof.
  rewrite map_map. rewrite <- (map_id (catalog_order c)) at 2. apply map_ext_in. intros [nm i] Hin. simpl. f_equal.
  apply list_elem_of_In in Hin. rewrite (catalog_order_all c), elem_of_map_to_list in Hin. by apply (c_names c Hc).
Qed.
Lemma order_nodup : NoDup (catalog_order c).
Proof. rewrite (catalog_order_all c). apply NoDup_map_to_list. Qed.
Lemma names_nodup : NoDup (map name entries).
Proof.
  assert (map name entries = (catalog_order c).*1) as ->.
  { rewrite <- entries_pairs at 2. generalize entries. intros l. induction l; f_equal/=; done. }
  rewrite (catalog_order_all c). apply NoDup_fst_map_to_list.
Qed.
Lemma ids_nodup : NoDup (map id entries).
Proof.
  rewrite map_map. apply (NoDup_fmap_2_strong (fun x : string * TableInfo C => id x.2)); [|apply order_nodup].
  intros [n1 i1] [n2 i2] H1' H2' Hid. rewrite (catalog_order_all c), elem_of_map_to_list in H1', H2'. simpl in Hid.
  assert (n1 = n2) as -> by (by eapply (c_ids c Hc)). congruence.
Qed.
Lemma entries_memory : Forall (fun i => in_memory i /\ root i = None) entries.
Proof. apply Forall_forall. intros i [nm Hn]%entries_in. by eapply (c_memory c Hc). Qed.
Lemma entries_map : list_to_map (map (fun i => (name i, i)) entries) = c.
Proof.
  rewrite entries_pairs. rewrite <- (list_to_map_to_list c) at 2. apply list_to_map_proper; [|apply catalog_order_all].
  rewrite (catalog_order_all c). apply NoDup_fst_map_to_list.
Qed.
End Order.

(** What [recover_catalog] does with the page it reads. *)
Lemma recover_catalog_ok (d : db) tables json p2 :
  read_page CATALOG_PAGE (pager d) = (Ok (catalog_bytes tables json), p2) ->
  zlen tables < 2 ^ 32 -> to_json tables = Some json -> registry (world d) = ∅ ->
  Forall (fun i => in_memory i /\ root i = None) tables -> NoDup (map id tables) ->
  table_catalog d = ∅ ->
  recover_catalog d = (Ok tt, foldl with_table (set_catalog ∅ (set_pager p2 d)) tables).
Proof.
  intros Hr Hsize Hj Hreg Hm Hid _. unfold recover_catalog, on_pager, modify, lift, mbind, stateful_bind. rewrite Hr.
  pose proof (zlen_nonneg tables). pose proof (zlen_nonneg json). unfold catalog_bytes.
  rewrite (proj2 (Z.ltb_ge _ _)) by zlen_tac. read_step. simpl.
  do 2 read_step. simpl. replace (8 - 4 - 4) with 0 by lia.
  repeat read_step. simpl. rewrite (json_back _ _ Hj). simpl. rewrite Z.eqb_refl. simpl.
  apply recover_tables_ok; [done|done|]. simpl. rewrite Hreg. intros. apply lookup_empty.
Qed.

(** C6: the catalog survives.  The catalog has tables in memory only
    ([catalog_ok]), its JSON with the eight bytes before it fits the data of a
    page (a larger one is written and lost), the store has a catalog page and
    can allocate another page.  Then, once [persist_catalog] returns, the
    catalog page of the store holds the catalog; and an engine opened over any store
    that holds that page, whatever else it holds, has the same catalog, with
    an empty table in memory registered under each id and no other table. *)
Theorem catalog_survives (d : db) m json d1
    (Hc : catalog_ok (table_catalog d)) (Hj : to_json (list_tables catalog_order d) = Some json)
    (Hh : holds (pager d) m) (Hpage : is_Some (m !! CATALOG_PAGE)) (Hnext : next_page_id (pager d) + 1 < 2 ^ 64)
    (Hsize : zlen (list_tables catalog_order d) < 2 ^ 32) (Hfit : 8 + zlen json <= data_size (pager d))
    (Halloc : is_ok (allocate_page PageType.Catalog (pager d)).1 = true)
    (Hp : persist_catalog catalog_order d = (Ok tt, d1)) :
  let page := catalog_bytes (list_tables catalog_order d) json in
  (exists m1, holds (pager d1) m1 /\ m1 !! CATALOG_PAGE = Some page) /\
  forall (w : WalWriter.t F) p' m', holds p' m' -> m' !! CATALOG_PAGE = Some page ->
    exists d' : db, open (Ok w) (Ok p') = Ok d' /\ table_catalog d' = table_catalog d /\
      registry (world d') = list_to_map (map (fun i => (id i, empty_table i)) (list_tables catalog_order d)).
Proof.
  intros page. pose proof (zlen_nonneg (list_tables catalog_order d)) as Hn.
  assert (Hpg : to_le_bytes 4 1 ++ to_le_bytes 4 (as_u32 (zlen (list_tables catalog_order d))) ++ json = page).
  { unfold page, catalog_bytes. rewrite as_u_id; [done|]. unfold fits. lia. }
  assert (Hlen : zlen page = 8 + zlen json) by (unfold page, catalog_bytes; zlen_tac).
  split.
  - unfold persist_catalog, on_pager, gets, lift, mbind, stateful_bind in Hp. fold (list_tables catalog_order d) in Hp.
    rewrite Hj in Hp. simpl in Hp. rewrite Hpg in Hp.
    pose proof (allocate_page_ok (pager d) m PageType.Catalog Hh eq_refl Hnext) as Ha. unfold after in Ha.
    destruct (allocate_page PageType.Catalog (pager d)) as [[q|e|] p1]; simpl in Halloc, Hp; [|done|done].
    destruct Ha as (_ & _ & Hq & _ & Hh1 & Hds & _).
    assert (Hp1 : is_Some ((<[q := []]> m) !! CATALOG_PAGE)).
    { destruct (decide (q = CATALOG_PAGE)) as [->|?]; [rewrite lookup_insert_eq; by eexists|by rewrite lookup_insert_ne]. }
    pose proof (write_page_ok p1 _ CATALOG_PAGE PageType.Catalog page Hh1 Hp1 eq_refl ltac:(rewrite Hds, Hlen; lia)) as Hw.
    unfold after in Hw. destruct (write_page CATALOG_PAGE PageType.Catalog page p1) as [[[]|e|] p2]; [|done|done].
    injection Hp as <-. destruct Hw as [Hh2 _]. eexists. split; [exact Hh2|]. by rewrite lookup_insert_eq.
  - intros w p' m' Hh' Hm'. destruct (read_page_ok p' m' CATALOG_PAGE page Hh' Hm') as (p2 & Hr & _).
    pose proof (rebuilt (list_tables catalog_order d)
      (set_catalog ∅ (set_pager p2 (start w (WalWriter.current_lsn (WalWriter.state w)) p')))
      (names_nodup _ Hc) (ids_nodup _ Hc)) as [Hcat Hreg]. simpl in Hcat, Hreg.
    eexists. split; [|split; [|rewrite Hreg; apply map_union_empty]].
    + unfold open. simpl. erewrite (recover_catalog_ok _ (list_tables catalog_order d) json p2); [done|done|done|done|done| | |].
      * by apply entries_memory.
      * by apply ids_nodup.
      * done.
    + rewrite Hcat, map_union_empty. by apply entries_map.
Qed.
End Catalog.
End EngineCatalog.

(** ** A catalog written and read back *)
Module CatalogSample.
Import StorageEngine EngineLaws.EngineSample.
#[local] Existing Instance ToyCodecs.toy.
#[local] Existing Instance ToyCodecs.toy_laws.
#[export] Instance kind_eq : EqDecision TableEngineKind. Proof. solve_decision. Defined.
#[export] Instance encoding_eq : EqDecision KeyEncoding. Proof. solve_decision. Defined.
#[export] Instance compression_eq : EqDecision CompressionKind. Proof. solve_decision. Defined.
#[export] Instance encryption_eq : EqDecision EncryptionKind. Proof. solve_decision. Defined.
#[export] Instance location_eq : EqDecision PhysicalLocation. Proof. solve_decision. Defined.
#[export] Instance options_eq : EqDecision (TableOptions unit). Proof. solve_decision. Defined.
#[export] Instance info_eq : EqDecision (TableInfo unit). Proof. solve_decision. Defined.

(** Five bytes or more per table: id, kind, creation, length of the name,
    name. *)
Definition encode_info (i : TableInfo unit) : bytes :=
  [id i; (if bool_decide (engine (options i) = KHash) then 1 else 0); created_lsn i; zlen (string_bytes (name i))]
  ++ string_bytes (name i).
Fixpoint decode_infos (fuel : nat) (bs : bytes) : list (TableInfo unit) :=
  match fuel, bs with
  | S fuel, i :: k :: l :: n :: bs =>
      mkTable i (string_of_bytes (take (Z.to_nat n) bs)) (kind_of (k =? 1)) None l ∅
      :: decode_infos fuel (skipn (Z.to_nat n) bs)
  | _, _ => []
  end.
(** Lists that would not be read back are refused. *)
Definition sample_codec : CatalogCodec unit := {|
  to_json l := let bs := flat_map encode_info l in
    if bool_decide (decode_infos (length l) bs = l) then Some (zlen l :: bs) else None;
  from_json bs := match bs with n :: bs => Some (decode_infos (Z.to_nat n) bs) | [] => None end |}.
#[export] Instance sample_laws : CatalogCodecLaws unit (H := sample_codec).
Proof.
  constructor. simpl. intros l bs. destruct (bool_decide_reflect (decode_infos (length l) (flat_map encode_info l) = l)); [|done].
  injection 1 as <-. unfold zlen. rewrite Nat2Z.id. congruence.
Qed.

Definition sample : outcome StorageEngineErrorKind (StorageEngine.t MemoryFile.t unit MemoryPages.t unit) :=
  match new (E := unit) (C := unit) (H5 := sample_codec) map_to_list
          (WalWriter.create (Ok file) WalWriter.default_config) (Ok MemoryPages.new) with
  | Ok d => match (_ ← create_table (H5 := sample_codec) map_to_list "users" (kind_of true);
                   create_table (H5 := sample_codec) map_to_list "log" (kind_of false)) d with
            | (Ok _, d) => Ok d | (Err e, _) => Err e | (Panic, _) => Panic end
  | r => r
  end.

(** [catalog_ok] by computation. *)
Definition memory_kind (k : TableEngineKind) : bool := match k with KMemory | KHash => true | _ => false end.
Definition catalog_check (c : gmap string (TableInfo unit)) : bool :=
  forallb (fun x => bool_decide (name x.2 = x.1) && memory_kind (engine (options x.2)) && bool_decide (root x.2 = None))
    (map_to_list c) && bool_decide (NoDup (map (fun x => id x.2) (map_to_list c))).
Lemma check_ok c : catalog_check c = true -> EngineCatalog.catalog_ok c.
Proof.
  intros [Hall Hids]%andb_prop. apply bool_decide_eq_true in Hids. rewrite forallb_forall in Hall.
  assert (Hin : forall nm i, c !! nm = Some i -> In (nm, i) (map_to_list c)).
  { intros nm i Hi. by apply list_elem_of_In, elem_of_map_to_list. }
  constructor.
  - intros nm i Hi. specialize (Hall _ (Hin _ _ Hi)). simpl in Hall. apply andb_prop in Hall as [[Hn _]%andb_prop _].
    by apply bool_decide_eq_true in Hn.
  - intros n1 n2 i1 i2 H1 H2 Hid. apply Hin in H1, H2. revert Hids H1 H2. clear Hall Hin. generalize (map_to_list c). intros l.
    induction l as [|[n i] l IH]; simpl; [done|]. intros [Hni Hnd]%NoDup_cons Ha Hb.
    assert (Hout : forall n' i', In (n', i') l -> id i' <> id i).
    { intros n' i' Hl Heq. apply Hni. rewrite <- Heq, list_elem_of_In. by apply (in_map (fun x => id x.2) _ _ Hl). }
    destruct Ha as [[= -> ->]|Ha], Hb as [[= -> ->]|Hb]; [done| | |by apply IH]; exfalso; eapply Hout; eauto.
  - intros nm i Hi. specialize (Hall _ (Hin _ _ Hi)). simpl in Hall. apply andb_prop in Hall as [[_ Hk]%andb_prop Hr].
    apply bool_decide_eq_true in Hr. split; [|done]. unfold EngineCatalog.in_memory. destruct (engine (options i)); auto; done.
Qed.
End CatalogSample.
Import CatalogSample EngineLaws.EngineSample.

Lemma catalog_survives_witness :
  exists d d1 d', CatalogSample.sample = Ok d /\
    StorageEngine.persist_catalog (H5 := CatalogSample.sample_codec) map_to_list d = (Ok tt, d1) /\
    StorageEngine.open (H5 := CatalogSample.sample_codec) (E := unit) (Ok (wal (StorageEngine.world d))) (Ok (StorageEngine.pager d1)) = Ok d' /\
    StorageEngine.table_catalog d' = StorageEngine.table_catalog d.
Proof.
  assert (Hd : exists d, CatalogSample.sample = Ok d) by (eexists; vm_compute; reflexivity). destruct Hd as [d Hd].
  assert (Hd1 : exists d1, StorageEngine.persist_catalog (H5 := CatalogSample.sample_codec) map_to_list d = (Ok tt, d1)).
  { vm_compute in Hd. injection Hd as <-. eexists. vm_compute. reflexivity. }
  destruct Hd1 as [d1 Hd1].
  assert (Hj : exists json, to_json (CatalogCodec := CatalogSample.sample_codec) (StorageEngine.list_tables map_to_list d) = Some json
    /\ 8 + zlen json <= 4032).
  { vm_compute in Hd. injection Hd as <-. eexists. split; [vm_compute; reflexivity|]. vm_compute. discriminate. }
  destruct Hj as (json & Hj & Hl).
  destruct (EngineCatalog.catalog_survives (H5 := CatalogSample.sample_codec) (E := unit) (C := unit) map_to_list
    (fun c => Permutation_refl _) d (MemoryPages.pages (StorageEngine.pager d)) json d1) as [(m1 & Hm1 & Hp1) Hopen].
  - vm_compute in Hd. injection Hd as <-. apply check_ok. vm_compute. reflexivity.
  - exact Hj.
  - change (MemoryPages.holds_pages (StorageEngine.pager d) (MemoryPages.pages (StorageEngine.pager d))).
    assert (Hsz : MemoryPages.size (StorageEngine.pager d) = 4032 /\ MemoryPages.next (StorageEngine.pager d) = 5 /\
      map fst (map_to_list (MemoryPages.pages (StorageEngine.pager d))) = [3; 4; 2]).
    { clear Hd1. vm_compute in Hd. injection Hd as <-. split_and!; vm_compute; reflexivity. }
    destruct Hsz as (Hsz & Hnx & Hk). split; [done|]. rewrite Hsz, Hnx. split; [lia|]. split; [lia|].
    intros p [bs Hp]. apply elem_of_map_to_list, list_elem_of_In, (in_map fst) in Hp. rewrite Hk in Hp.
    simpl in Hp. lia.
  - vm_compute in Hd. injection Hd as <-. vm_compute. eexists. reflexivity.
  - vm_compute in Hd. injection Hd as <-. vm_compute. reflexivity.
  - vm_compute in Hd. injection Hd as <-. vm_compute. reflexivity.
  - vm_compute in Hd. injection Hd as <-. exact Hl.
  - vm_compute in Hd. injection Hd as <-. vm_compute. reflexivity.
  - exact Hd1.
  - destruct (Hopen (wal (StorageEngine.world d)) (StorageEngine.pager d1) m1 Hm1 Hp1) as (d' & Ho & Hc & _).
    exists d, d1, d'. exact (conj Hd (conj Hd1 (conj Ho Hc))).
Defined.
