(* ===== verification/TimeCodec.v ===== *)
(** * The codecs of time series ([src/table/timeseries/compression.rs])

    Timestamps as deltas of deltas, integers as deltas, both in variable-length
    zigzag numbers, and floating-point values as XORs of their bits.  An [f64]
    is its bits ([to_bits] and [from_bits] lose nothing).  Unchecked
    arithmetic wraps around, as in a release build. *)
From S2P Require Import Prelude Types MemTables.

(** ** Signed integers *)
Definition is_i64 (z : Z) : Prop := - 2 ^ 63 <= z < 2 ^ 63.
(** The cast [z as i64] and the wrap-around of [i64] arithmetic. *)
Definition as_i64 (z : Z) : Z := (z + 2 ^ 63) mod 2 ^ 64 - 2 ^ 63.

Lemma as_i64_range z : is_i64 (as_i64 z).
Proof. unfold is_i64, as_i64. pose proof (Z.mod_pos_bound (z + 2 ^ 63) (2 ^ 64)). lia. Qed.
Lemma as_i64_id z : is_i64 z -> as_i64 z = z.
Proof. unfold is_i64, as_i64. intros. rewrite Z.mod_small; lia. Qed.
(** Wrapping at every step is wrapping once at the end. *)
Lemma as_i64_congr a b : a mod 2 ^ 64 = b mod 2 ^ 64 -> as_i64 a = as_i64 b.
Proof. intros Hab. unfold as_i64. by rewrite <- Zplus_mod_idemp_l, Hab, Zplus_mod_idemp_l. Qed.
Lemma as_i64_mod z : as_i64 z mod 2 ^ 64 = z mod 2 ^ 64.
Proof.
  unfold as_i64. rewrite Zminus_mod_idemp_l. f_equal. lia.
Qed.
Lemma as_i64_add_l a b : as_i64 (as_i64 a + b) = as_i64 (a + b).
Proof. apply as_i64_congr. by rewrite <- Zplus_mod_idemp_l, as_i64_mod, Zplus_mod_idemp_l. Qed.
Lemma as_i64_add_r a b : as_i64 (a + as_i64 b) = as_i64 (a + b).
Proof. by rewrite Z.add_comm, as_i64_add_l, Z.add_comm. Qed.
(** Adding a difference back. *)
Lemma add_back a b : is_i64 b -> as_i64 (a + as_i64 (b - a)) = b.
Proof. intros. rewrite as_i64_add_r. replace (a + (b - a)) with b by lia. by apply as_i64_id. Qed.
(** The eight bytes of a signed integer. *)
Lemma le_i64 z : is_i64 z -> as_i64 (from_le_bytes (to_le_bytes 8 (as_u64 z))) = z.
Proof.
  intros Hz. rewrite from_to_le_bytes by (apply as_u_fits; lia). transitivity (as_i64 z); [|by apply as_i64_id].
  apply as_i64_congr. unfold as_u. by rewrite Zmod_mod.
Qed.

Module TimeCodec.

(** ** Variable-length integers *)
Definition zigzag (value : Z) : Z := as_u64 (Z.lxor (as_i64 (Z.shiftl value 1)) (Z.shiftr value 63)).
(** Ten rounds shift 64 bits out. *)
Fixpoint varint_loop (fuel : nat) (n : Z) : bytes :=
  match fuel with
  | O => []
  | S fuel =>
      let byte := Z.land n 127 in
      let n := Z.shiftr n 7 in
      if n =? 0 then [byte] else Z.lor byte 128 :: varint_loop fuel n
  end.
Definition encode_varint (value : Z) : bytes := varint_loop 10 (zigzag value).

Definition unzigzag (result : Z) : Z := Z.lxor (as_i64 (Z.shiftr result 1)) (- Z.land result 1).
Fixpoint decode_loop (result shift pos : Z) (data : bytes) : outcome TableError (Z * Z) :=
  match data with
  | [] => Err (TableOther "Insufficient data for varint")
  | byte :: data =>
      let result := Z.lor result (as_u64 (Z.shiftl (Z.land byte 127) shift)) in
      if Z.land byte 128 =? 0 then Ok (unzigzag result, pos + 1)
      else if 64 <=? shift + 7 then Err (TableOther "Varint too large")
      else decode_loop result (shift + 7) (pos + 1) data
  end.
Definition decode_varint (data : bytes) : outcome TableError (Z * Z) := decode_loop 0 0 0 data.

(** ** Timestamps *)
Fixpoint dod_loop (prev prev_delta : Z) (l : list Z) : bytes :=
  match l with
  | [] => []
  | ts :: l =>
      let delta := as_i64 (ts - prev) in
      encode_varint (as_i64 (delta - prev_delta)) ++ dod_loop ts delta l
  end.
Definition compress_timestamps_delta_of_delta (timestamps : list Z) : outcome TableError bytes :=
  match timestamps with
  | [] => Ok []
  | [t0] => Ok (to_le_bytes 8 (as_u64 t0))
  | t0 :: t1 :: l =>
      let first_delta := as_i64 (t1 - t0) in
      Ok (to_le_bytes 8 (as_u64 t0) ++ to_le_bytes 8 (as_u64 first_delta) ++ dod_loop t1 first_delta l)
  end.

Fixpoint undod_loop (count : nat) (last prev_delta pos : Z) (data : bytes) : outcome TableError (list Z) :=
  match count with
  | O => Ok []
  | S count =>
      rest ← slice pos (zlen data) data;
      x ← decode_varint rest;
      let delta := as_i64 (prev_delta + x.1) in
      let ts := as_i64 (last + delta) in
      l ← undod_loop count ts delta (pos + x.2) data;
      Ok (ts :: l)
  end.
Definition decompress_timestamps_delta_of_delta (data : bytes) (count : nat) : outcome TableError (list Z) :=
  match count with
  | O => Ok []
  | S count =>
      _ ← ensure (8 <=? zlen data) (TableOther "Insufficient data for first timestamp");
      first ← get_le 8 0 data;
      let first_ts := as_i64 first in
      match count with
      | O => Ok [first_ts]
      | S count =>
          _ ← ensure (8 + 8 <=? zlen data) (TableOther "Insufficient data for first delta");
          d ← get_le 8 8 data;
          let first_delta := as_i64 d in
          let ts := as_i64 (first_ts + first_delta) in
          l ← undod_loop count ts first_delta 16 data;
          Ok (first_ts :: ts :: l)
      end
  end.

(** ** Values *)
Fixpoint gorilla_loop (prev_bits : Z) (l : list Z) : bytes :=
  match l with
  | [] => []
  | curr_bits :: l =>
      let xor := Z.lxor prev_bits curr_bits in
      (if xor =? 0 then [0] else 1 :: to_le_bytes 8 xor) ++ gorilla_loop curr_bits l
  end.
Definition compress_values_gorilla (values : list Z) : outcome TableError bytes :=
  match values with
  | [] => Ok []
  | v :: l => Ok (to_le_bytes 8 v ++ gorilla_loop v l)
  end.
Fixpoint ungorilla_loop (count : nat) (prev_bits pos : Z) (data : bytes) : outcome TableError (list Z) :=
  match count with
  | O => Ok []
  | S count =>
      _ ← ensure (pos <? zlen data) (TableOther "Insufficient data for value");
      marker ← index pos data;
      let pos := pos + 1 in
      x ← (if marker =? 0 then Ok (prev_bits, pos)
           else
             _ ← ensure (pos + 8 <=? zlen data) (TableOther "Insufficient data for XOR value");
             xor ← get_le 8 pos data;
             Ok (Z.lxor prev_bits xor, pos + 8));
      l ← ungorilla_loop count x.1 x.2 data;
      Ok (x.1 :: l)
  end.
Definition decompress_values_gorilla (data : bytes) (count : nat) : outcome TableError (list Z) :=
  match count with
  | O => Ok []
  | S count =>
      _ ← ensure (8 <=? zlen data) (TableOther "Insufficient data for first value");
      first_bits ← get_le 8 0 data;
      match count with
      | O => Ok [first_bits]
      | S _ => l ← ungorilla_loop count first_bits 8 data; Ok (first_bits :: l)
      end
  end.

Fixpoint delta_loop (prev : Z) (l : list Z) : bytes :=
  match l with
  | [] => []
  | v :: l => encode_varint (as_i64 (v - prev)) ++ delta_loop v l
  end.
Definition compress_values_delta (values : list Z) : outcome TableError bytes :=
  match values with
  | [] => Ok []
  | v :: l => Ok (to_le_bytes 8 (as_u64 v) ++ delta_loop v l)
  end.
Fixpoint undelta_loop (count : nat) (last pos : Z) (data : bytes) : outcome TableError (list Z) :=
  match count with
  | O => Ok []
  | S count =>
      rest ← slice pos (zlen data) data;
      x ← decode_varint rest;
      let value := as_i64 (last + x.1) in
      l ← undelta_loop count value (pos + x.2) data;
      Ok (value :: l)
  end.
Definition decompress_values_delta (data : bytes) (count : nat) : outcome TableError (list Z) :=
  match count with
  | O => Ok []
  | S count =>
      _ ← ensure (8 <=? zlen data) (TableOther "Insufficient data for first value");
      first ← get_le 8 0 data;
      l ← undelta_loop count (as_i64 first) 8 data;
      Ok (as_i64 first :: l)
  end.

(** ** The variable-length integers *)
Lemma zigzag_spec v : is_i64 v -> zigzag v = if 0 <=? v then 2 * v else - 2 * v - 1.
Proof.
  unfold is_i64. intros Hv. unfold zigzag. rewrite Z.shiftl_mul_pow2, Z.shiftr_div_pow2 by lia. change (2 ^ 1) with 2.
  destruct (Z.leb_spec 0 v).
  - rewrite (Z.div_small v) by lia. rewrite Z.lxor_0_r. unfold as_u. rewrite as_i64_mod, Z.mod_small; lia.
  - replace (v / 2 ^ 63) with (-1) by (apply (Z.div_unique_pos v _ (-1) (v + 2 ^ 63)); lia).
    rewrite Z.lxor_m1_r. unfold Z.lnot, as_u. replace (Z.pred (- as_i64 (v * 2))) with (-1 - as_i64 (v * 2)) by lia.
    rewrite <- Zminus_mod_idemp_r, as_i64_mod, Zminus_mod_idemp_r, Z.mod_small; lia.
Qed.
Lemma zigzag_u64 v : is_i64 v -> is_u64 (zigzag v).
Proof. intros Hv. rewrite zigzag_spec by done. unfold is_i64, fits in *. destruct (Z.leb_spec 0 v); lia. Qed.
Lemma unzigzag_zigzag v : is_i64 v -> unzigzag (zigzag v) = v.
Proof.
  intros Hv. rewrite zigzag_spec by done. unfold is_i64 in Hv. unfold unzigzag.
  rewrite (Z.land_ones _ 1) by lia. rewrite Z.shiftr_div_pow2 by lia. change (2 ^ 1) with 2. destruct (Z.leb_spec 0 v).
  - rewrite (Z.mul_comm 2), Z.div_mul, Z.mod_mul, Z.lxor_0_r by lia. apply as_i64_id. unfold is_i64. lia.
  - replace (- 2 * v - 1) with (1 + (- v - 1) * 2) by lia. rewrite Z.div_add, Z.mod_add by lia. change (1 / 2) with 0. change (- (1 mod 2)) with (-1).
    rewrite Z.lxor_m1_r, as_i64_id by (unfold is_i64; lia). unfold Z.lnot. lia.
Qed.

Lemma lor_shift a b s : 0 <= s -> 0 <= a < 2 ^ s -> Z.lor a (Z.shiftl b s) = a + b * 2 ^ s.
Proof.
  intros Hs Ha. rewrite <- Z.add_nocarry_lor; [by rewrite Z.shiftl_mul_pow2|].
  apply Z.bits_inj'. intros n Hn. rewrite Z.land_spec, Z.bits_0.
  destruct (Z.ltb_spec n s); [by rewrite Z.shiftl_spec_low, andb_false_r by done|].
  destruct (decide (a = 0)) as [->|]; [by rewrite Z.bits_0|].
  rewrite (Z.bits_above_log2 a n); [done|lia|]. apply Z.log2_lt_pow2; [lia|].
  pose proof (Z.pow_le_mono_r 2 s n). lia.
Qed.
(** The flag of a byte. *)
Lemma flagged b : 0 <= b < 128 -> Z.land (Z.lor b 128) 127 = b /\ Z.land (Z.lor b 128) 128 = 128.
Proof.
  intros Hb. pose proof (lor_shift b 1 7 ltac:(lia) ltac:(lia)) as Hl.
  change (Z.shiftl 1 7) with 128 in Hl. change (2 ^ 7) with 128 in Hl. rewrite Hl. split.
  - rewrite (Z.land_ones _ 7) by lia. change (2 ^ 7) with 128. rewrite Z.mod_add, Z.mod_small; lia.
  - apply Z.bits_inj'. intros n Hn. rewrite Z.land_spec. destruct (decide (n = 7)) as [->|].
    + assert (Ht : Z.testbit (b + 1 * 128) 7 = true); [|by rewrite Ht].
      rewrite Z.testbit_true by lia. change (2 ^ 7) with 128. by rewrite Z.div_add, Z.div_small by lia.
    + by change 128 with (2 ^ 7); rewrite (Z.pow2_bits_false 7 n), andb_false_r by lia.
Qed.
Lemma unflagged b : 0 <= b < 128 -> Z.land b 127 = b /\ Z.land b 128 = 0.
Proof.
  intros Hb. split; [rewrite (Z.land_ones _ 7) by lia; apply Z.mod_small; lia|].
  apply Z.bits_inj'. intros n Hn. rewrite Z.land_spec, Z.bits_0. destruct (decide (n = 7)) as [->|].
  - rewrite (Z.bits_above_log2 b 7); [done|lia|]. destruct (decide (b = 0)) as [->|]; [done|].
    apply Z.log2_lt_pow2; lia.
  - by change 128 with (2 ^ 7); rewrite (Z.pow2_bits_false 7 n), andb_false_r by lia.
Qed.

(** What the encoder's loop writes the decoder's loop adds to what it has. *)
Lemma decode_back fuel : forall n shift result pos rest,
  0 <= n < 2 ^ (7 * Z.of_nat fuel) -> (0 < fuel)%nat -> 0 <= shift -> n * 2 ^ shift < 2 ^ 64 -> 0 <= result < 2 ^ shift ->
  decode_loop result shift pos (varint_loop fuel n ++ rest)
    = Ok (unzigzag (result + n * 2 ^ shift), pos + zlen (varint_loop fuel n)).
Proof.
  induction fuel as [|fuel IH]; [lia|]. intros n shift result pos rest Hn _ Hs Hb Hr.
  cbn [varint_loop]. pose proof (Z.mod_pos_bound n 128 ltac:(lia)) as Hm. pose proof (Z.div_mod n 128 ltac:(lia)) as Hdm.
  change (Z.land n 127) with (Z.land n (Z.ones 7)). rewrite Z.land_ones, Z.shiftr_div_pow2 by lia. change (2 ^ 7) with 128.
  pose proof (Z.pow_pos_nonneg 2 shift ltac:(lia) Hs) as Hp.
  assert (Hdec : forall c, Z.land c 127 = n mod 128 ->
    Z.lor result (as_u64 (Z.shiftl (Z.land c 127) shift)) = result + n mod 128 * 2 ^ shift).
  { intros c ->. rewrite as_u_id; [by apply (lor_shift _ _ _ Hs Hr)|]. rewrite Z.shiftl_mul_pow2 by done. unfold fits.
    split; [apply Z.mul_nonneg_nonneg; lia|]. eapply Z.le_lt_trans; [|exact Hb]. apply Z.mul_le_mono_nonneg_r; lia. }
  destruct (Z.eqb_spec (n / 128) 0) as [H0|H0]; cbn [app decode_loop].
  - destruct (unflagged (n mod 128) Hm) as [H1 H2]. rewrite Hdec, H2 by done. simpl. f_equal. f_equal. f_equal.
    rewrite (Z.mod_small n) by lia. done.
  - destruct (flagged (n mod 128) Hm) as [H1 H2]. rewrite Hdec, H2 by done. simpl.
    assert (Hpow : 2 ^ (shift + 7) = 2 ^ shift * 128) by (rewrite Z.pow_add_r by lia; done).
    destruct (Z.leb_spec 64 (shift + 7)) as [Hge|Hlt].
    + pose proof (Z.pow_le_mono_r 2 64 (shift + 7) ltac:(lia) Hge). exfalso.
      assert (128 * 2 ^ shift <= n * 2 ^ shift); [apply Z.mul_le_mono_nonneg_r; lia|lia].
    + assert (0 < fuel)%nat.
      { destruct fuel; [|lia]. change (2 ^ (7 * Z.of_nat 1)) with 128 in Hn. rewrite Z.div_small in H0; lia. }
      rewrite IH; [| |done|lia| |].
      * rewrite zlen_cons, Hpow. f_equal. f_equal; [|lia]. f_equal.
        transitivity (result + (128 * (n / 128) + n mod 128) * 2 ^ shift); [ring|by rewrite <- Hdm].
      * split; [apply Z.div_pos; lia|]. apply Z.div_lt_upper_bound; [lia|].
        replace (7 * Z.of_nat (S fuel)) with (7 + 7 * Z.of_nat fuel) in Hn by lia. rewrite Z.pow_add_r in Hn by lia. lia.
      * rewrite Hpow. eapply Z.le_lt_trans; [|exact Hb]. rewrite Z.mul_assoc, (Z.mul_comm _ 128), Z.mul_assoc.
        apply Z.mul_le_mono_nonneg_r; lia.
      * rewrite Hpow. split; [lia|]. assert (n mod 128 * 2 ^ shift <= 127 * 2 ^ shift); [|lia].
        apply Z.mul_le_mono_nonneg_r; lia.
Qed.
Lemma varint_back v rest : is_i64 v -> decode_varint (encode_varint v ++ rest) = Ok (v, zlen (encode_varint v)).
Proof.
  intros Hv. unfold decode_varint, encode_varint. pose proof (zigzag_u64 v Hv). unfold fits in *.
  rewrite decode_back by lia. change (2 ^ 0) with 1. rewrite Z.mul_1_r, !Z.add_0_l. by rewrite unzigzag_zigzag.
Qed.

(** A loop reads the number that stands at its position. *)
Lemma read_varint data l v rest : data = l ++ encode_varint v ++ rest -> is_i64 v ->
  exists r, slice (E := TableError) (zlen l) (zlen data) data = Ok r /\ decode_varint r = Ok (v, zlen (encode_varint v)).
Proof.
  intros -> Hv. exists (encode_varint v ++ rest). split; [|by apply varint_back].
  rewrite slice_app_r by zlen_tac. apply slice_here_last; zlen_tac.
Qed.

(** ** The loops *)
Lemma undod_back l : forall pre prev prev_delta, Forall is_i64 l ->
  undod_loop (length l) prev prev_delta (zlen pre) (pre ++ dod_loop prev prev_delta l) = Ok l.
Proof.
  induction l as [|ts l IH]; intros pre prev prev_delta Hl; [done|]. apply Forall_cons in Hl as [Hts Hl].
  cbn [length undod_loop dod_loop]. set (delta := as_i64 (ts - prev)). set (v := as_i64 (delta - prev_delta)).
  assert (Hdelta : as_i64 (prev_delta + v) = delta) by (apply add_back, as_i64_range).
  assert (Hback : as_i64 (prev + delta) = ts) by (by apply add_back).
  destruct (read_varint (pre ++ encode_varint v ++ dod_loop ts delta l) pre v _ eq_refl) as (r & -> & Hd);
    [apply as_i64_range|]. simpl. rewrite Hd. simpl. rewrite Hdelta, Hback.
  rewrite app_assoc, <- zlen_app.
  specialize (IH (pre ++ encode_varint v) ts delta Hl). by rewrite IH.
Qed.
Lemma undelta_back l : forall pre prev, Forall is_i64 l ->
  undelta_loop (length l) prev (zlen pre) (pre ++ delta_loop prev l) = Ok l.
Proof.
  induction l as [|ts l IH]; intros pre prev Hl; [done|]. apply Forall_cons in Hl as [Hts Hl].
  cbn [length undelta_loop delta_loop]. set (v := as_i64 (ts - prev)).
  assert (Hback : as_i64 (prev + v) = ts) by (by apply add_back).
  destruct (read_varint (pre ++ encode_varint v ++ delta_loop ts l) pre v _ eq_refl) as (r & -> & Hd);
    [apply as_i64_range|]. simpl. rewrite Hd. simpl. rewrite Hback.
  rewrite app_assoc, <- zlen_app. specialize (IH (pre ++ encode_varint v) ts Hl). by rewrite IH.
Qed.
Lemma lxor_u64 a b : is_u64 a -> is_u64 b -> is_u64 (Z.lxor a b).
Proof.
  unfold fits. intros Ha Hb. split; [apply Z.lxor_nonneg; lia|].
  destruct (decide (Z.lxor a b = 0)) as [->|Hne]; [lia|]. assert (0 <= Z.lxor a b) by (apply Z.lxor_nonneg; lia).
  apply Z.log2_lt_pow2; [lia|]. pose proof (Z.log2_lxor a b ltac:(lia) ltac:(lia)) as Hl.
  assert (forall x, 0 <= x < 2 ^ 64 -> Z.log2 x < 64) as Hlog.
  { intros x Hx. destruct (decide (x = 0)) as [->|]; [done|]. apply Z.log2_lt_pow2; lia. }
  pose proof (Hlog a Ha). pose proof (Hlog b Hb). lia.
Qed.
Lemma lxor_back a b : Z.lxor a (Z.lxor a b) = b.
Proof. by rewrite <- Z.lxor_assoc, Z.lxor_nilpotent, Z.lxor_0_l. Qed.
Lemma ungorilla_back l : forall pre prev, is_u64 prev -> Forall is_u64 l ->
  ungorilla_loop (length l) prev (zlen pre) (pre ++ gorilla_loop prev l) = Ok l.
Proof.
  induction l as [|x l IH]; intros pre prev Hp Hl; [done|]. apply Forall_cons in Hl as [Hx Hl].
  cbn [length ungorilla_loop gorilla_loop]. pose proof (zlen_nonneg (gorilla_loop x l)).
  destruct (Z.eqb_spec (Z.lxor prev x) 0) as [H0|H0].
  - apply Z.lxor_eq in H0 as <-. rewrite (ensure_true (zlen pre <? _)) by zlen_tac. simpl. rewrite index_app_r by zlen_tac.
    rewrite index_here by lia. simpl. specialize (IH (pre ++ [0]) prev Hp Hl). rewrite zlen_app, <- app_assoc in IH.
    simpl in IH. change (zlen [0]) with 1 in IH. by rewrite IH.
  - rewrite (ensure_true (zlen pre <? _)) by zlen_tac. cbn -[get_le]. rewrite index_app_r by zlen_tac. rewrite index_here by lia. cbn -[get_le].
    rewrite ensure_true by zlen_tac. cbn -[get_le]. rewrite get_le_app_r by zlen_tac. rewrite get_le_cons_r by lia.
    rewrite get_le_here; [|lia|done|by apply lxor_u64]. simpl. rewrite lxor_back.
    specialize (IH (pre ++ 1 :: to_le_bytes 8 (Z.lxor prev x)) x Hx Hl).
    replace (zlen pre + 1 + 8) with (zlen (pre ++ 1 :: to_le_bytes 8 (Z.lxor prev x))) by zlen_tac.
    rewrite <- app_assoc in IH. simpl in IH. by rewrite IH.
Qed.

(** C13: the codecs of time series lose nothing: for any timestamps and
    integers in the range of [i64], however far apart, and any bit patterns
    of [f64]s, decompressing as many values as were compressed returns them. *)
Theorem series_roundtrip (timestamps values floats : list Z)
    (Ht : Forall is_i64 timestamps) (Hv : Forall is_i64 values) (Hf : Forall is_u64 floats) :
  (bs ← compress_timestamps_delta_of_delta timestamps;
   decompress_timestamps_delta_of_delta bs (length timestamps)) = Ok timestamps /\
  (bs ← compress_values_delta values; decompress_values_delta bs (length values)) = Ok values /\
  (bs ← compress_values_gorilla floats; decompress_values_gorilla bs (length floats)) = Ok floats.
Proof.
  assert (Hone : forall z rest, is_i64 z -> get_le (E := TableError) 8 0 (to_le_bytes 8 (as_u64 z) ++ rest) = Ok (as_u64 z)).
  { intros z rest _. apply get_le_here; [done|done|]. apply as_u_fits. lia. }
  assert (Hcast : forall z, is_i64 z -> as_i64 (as_u64 z) = z).
  { intros z Hz. rewrite <- (as_i64_id z Hz) at 2. apply as_i64_congr. unfold as_u. by rewrite Zmod_mod. }
  split_and!.
  - destruct timestamps as [|t0 [|t1 l]]; [done|..]; apply Forall_cons in Ht as [H0 Ht]; simpl.
    + rewrite ensure_true by zlen_tac. cbn -[get_le]. pose proof (Hone t0 [] H0) as Hg. rewrite app_nil_r in Hg.
      rewrite Hg. simpl. by rewrite Hcast.
    + apply Forall_cons in Ht as [H1 Ht]. set (delta := as_i64 (t1 - t0)).
      assert (Hd : is_i64 delta) by apply as_i64_range.
      rewrite (ensure_true (8 <=? _)) by zlen_tac. simpl. rewrite Hone by done. simpl.
      rewrite ensure_true by zlen_tac. simpl. rewrite get_le_app_r by zlen_tac. rewrite zlen_to_le_bytes.
      change (8 - Z.of_nat 8) with 0. rewrite Hone by done. simpl. rewrite !Hcast by done.
      unfold delta at 1 2. rewrite !add_back by done. fold delta.
      pose proof (undod_back l (to_le_bytes 8 (as_u64 t0) ++ to_le_bytes 8 (as_u64 delta)) t1 delta Ht) as Hl.
      rewrite zlen_app, !zlen_to_le_bytes, <- app_assoc in Hl. change (Z.of_nat 8 + Z.of_nat 8) with 16 in Hl. by rewrite Hl.
  - destruct values as [|v l]; [done|]. apply Forall_cons in Hv as [H0 Hv]. simpl.
    rewrite ensure_true by zlen_tac. simpl. rewrite Hone by done. simpl. rewrite Hcast by done.
    pose proof (undelta_back l (to_le_bytes 8 (as_u64 v)) v Hv) as Hl. rewrite zlen_to_le_bytes in Hl.
    change (Z.of_nat 8) with 8 in Hl. by rewrite Hl.
  - destruct floats as [|x l]; [done|]. apply Forall_cons in Hf as [H0 Hf]. simpl.
    rewrite ensure_true by zlen_tac. simpl. rewrite get_le_here by (done || apply H0). simpl.
    destruct l as [|y l]; [done|].
    pose proof (ungorilla_back (y :: l) (to_le_bytes 8 x) x H0 Hf) as Hl. rewrite zlen_to_le_bytes in Hl.
    change (Z.of_nat 8) with 8 in Hl. by rewrite Hl.
Qed.

Lemma series_roundtrip_witness :
  (bs ← compress_timestamps_delta_of_delta [1000; 1015; - 2 ^ 63];
   decompress_timestamps_delta_of_delta bs 3) = Ok [1000; 1015; - 2 ^ 63].
Proof.
  apply (series_roundtrip [1000; 1015; - 2 ^ 63] [] []); repeat constructor; unfold is_i64; simpl; try discriminate; reflexivity.
Defined.


Example sample :
  (bs ← compress_timestamps_delta_of_delta [1000; 1015; 1025; - 2 ^ 63; 2 ^ 63 - 1];
   decompress_timestamps_delta_of_delta bs 5) = Ok [1000; 1015; 1025; - 2 ^ 63; 2 ^ 63 - 1].
Proof. vm_compute. reflexivity. Qed.
End TimeCodec.
