(* ===== verification/TimeSeries.v ===== *)
(** * Time series ([src/table/timeseries])

    Buckets of points by time (bucket.rs), the manager that keeps some of them
    in memory and the others on pages, and the table (mod.rs, config.rs).
    A [BTreeMap] with integer keys is a [gmap] read in key order ([in_order]).
    postcard is [PostcardCodec]; the clock ([now], in seconds) is an argument.
    The aggregates over floating-point values are left out. *)
From stdpp Require Import sorting.
From S2P Require Import Prelude Types Mvcc Page PageStore OrdMap MemTables TimeCodec.

(** ** Maps in key order *)
Definition by_key {V} (a b : Z * V) : Prop := a.1 <= b.1.
#[global] Instance by_key_dec {V} : RelDecision (@by_key V).
Proof. intros a b. unfold by_key. apply _. Defined.
Definition in_order {V} (m : gmap Z V) : list (Z * V) := merge_sort by_key (map_to_list m).

(** ** Buckets of time *)
Module BucketId.
Definition I64_MAX : Z := 2 ^ 63 - 1.
(** [u64::div_ceil]. *)
Definition div_ceil (a b : Z) : Z := (a + b - 1) / b.
(** Division by zero panics. *)
Definition from_timestamp {E} (timestamp bucket_size : Z) : outcome E Z :=
  if bucket_size =? 0 then Panic
  else if 0 <=? timestamp then Ok (timestamp / bucket_size)
  else
    let abs_ts := as_u64 (as_i64 (- timestamp)) in
    Ok (as_u64 (2 ^ 64 - 1 - div_ceil abs_ts bucket_size + 1)).
Definition start_timestamp {E} (id bucket_size : Z) : outcome E Z :=
  if bucket_size =? 0 then Panic
  else if I64_MAX / bucket_size <? id then Ok I64_MAX
  else Ok (as_i64 (id * bucket_size)).
(** [saturating_add]. *)
Definition saturating_add (a b : Z) : Z := Z.max (- 2 ^ 63) (Z.min I64_MAX (a + b)).
Definition end_timestamp {E} (id bucket_size : Z) : outcome E Z :=
  s ← start_timestamp id bucket_size; Ok (saturating_add s (as_i64 bucket_size)).
End BucketId.

Record TimeSeriesTombstone : Type := mkTombstone {
  t_series : bytes; t_timestamp : Z; t_tx : TransactionId; t_lsn : option LogSequenceNumber }.
Definition tombstone_visible (s : Snapshot.t) (t : TimeSeriesTombstone) : bool :=
  match t_lsn t with Some lsn => lsn <=? Snapshot.lsn s | None => false end.

(** The page ids of a series' buckets, as written behind the metadata. *)
Record SeriesBucketEntry : Type := mkEntry { e_series : bytes; e_pages : list (Z * PageId) }.

(** postcard; [None] is an error. *)
Class PostcardCodec : Type := {
  chain_to : VersionChain.t -> option bytes;
  chain_from : bytes -> option VersionChain.t;
  tombstone_to : TimeSeriesTombstone -> option bytes;
  tombstone_from : bytes -> option TimeSeriesTombstone;
  entries_to : list SeriesBucketEntry -> option bytes;
  entries_from : bytes -> option (list SeriesBucketEntry) }.
(** Documented behaviour: what is written is read back. *)
Class PostcardLaws `{PostcardCodec} : Prop := {
  chain_back c bs : chain_to c = Some bs -> chain_from bs = Some c;
  tombstone_back t bs : tombstone_to t = Some bs -> tombstone_from bs = Some t;
  entries_back l bs : entries_to l = Some bs -> entries_from bs = Some l }.

Module TimeBucket.
Record t : Type := mk {
  id : Z;
  start_ts : Z;
  end_ts : Z;
  points : gmap Z VersionChain.t;
  tombstones : gmap Z TimeSeriesTombstone;
  page_id : option PageId;
  dirty : bool;
  last_access_time : Z }.
Definition set_points (m : gmap Z VersionChain.t) (b : t) : t :=
  mk (id b) (start_ts b) (end_ts b) m (tombstones b) (page_id b) true (last_access_time b).
Definition set_tombstones (m : gmap Z TimeSeriesTombstone) (b : t) : t :=
  mk (id b) (start_ts b) (end_ts b) (points b) m (page_id b) true (last_access_time b).
Definition set_page_id (p : option PageId) (b : t) : t :=
  mk (id b) (start_ts b) (end_ts b) (points b) (tombstones b) p (dirty b) (last_access_time b).
Definition set_dirty (d : bool) (b : t) : t :=
  mk (id b) (start_ts b) (end_ts b) (points b) (tombstones b) (page_id b) d (last_access_time b).
Definition touch (now : Z) (b : t) : t :=
  mk (id b) (start_ts b) (end_ts b) (points b) (tombstones b) (page_id b) (dirty b) now.

Section Bucket.
Context `{PostcardCodec}.
Abbreviation R := (outcome TableError).

Definition new (now bid bucket_size : Z) : R t :=
  s ← BucketId.start_timestamp bid bucket_size;
  e ← BucketId.end_timestamp bid bucket_size;
  Ok (mk bid s e ∅ ∅ None false now).

Definition contains_timestamp (ts : Z) (b : t) : bool := (start_ts b <=? ts) && (ts <? end_ts b).
Definition outside : TableError := TableOther "Timestamp is outside bucket range".

Definition insert (ts : Z) (value_key : bytes) (tx : TransactionId) (b : t) : R t :=
  _ ← ensure (contains_timestamp ts b) outside;
  let new_chain := match points b !! ts with
                   | Some existing_chain => VersionChain.prepend existing_chain value_key tx
                   | None => VersionChain.new value_key tx
                   end in
  Ok (set_points (<[ts := new_chain]> (points b)) b).

Definition add_tombstone (series_key : bytes) (ts : Z) (tx : TransactionId) (b : t) : R t :=
  _ ← ensure (contains_timestamp ts b) outside;
  Ok (set_tombstones (<[ts := mkTombstone series_key ts tx None]> (tombstones b)) b).
Definition commit_tombstone (tx : TransactionId) (lsn : LogSequenceNumber) (x : TimeSeriesTombstone) : TimeSeriesTombstone :=
  if (t_tx x =? tx) && bool_decide (t_lsn x = None) then mkTombstone (t_series x) (t_timestamp x) (t_tx x) (Some lsn) else x.
Definition commit_tombstones (tx : TransactionId) (lsn : LogSequenceNumber) (b : t) : t :=
  set_tombstones (commit_tombstone tx lsn <$> tombstones b) b.
Definition is_tombstoned (ts : Z) (s : Snapshot.t) (b : t) : bool :=
  match tombstones b !! ts with Some x => tombstone_visible s x | None => false end.

(** The closure of [get], [range], [iter] and [latest_before]. *)
Definition visible_at (s : Snapshot.t) (b : t) (x : Z * VersionChain.t) : option (Z * bytes) :=
  if is_tombstoned x.1 s b then None
  else match VersionChain.find_visible_inline x.2 s with Some v => Some (x.1, v) | None => None end.
Definition get (now ts : Z) (s : Snapshot.t) (b : t) : option bytes * t :=
  let b := touch now b in
  (if is_tombstoned ts s b then None
   else match points b !! ts with Some c => VersionChain.find_visible_inline c s | None => None end, b).
(** [BTreeMap::range(start..end)] panics when [start > end]. *)
Definition range (start end_ : Z) (s : Snapshot.t) (b : t) : R (list (Z * bytes)) :=
  if end_ <? start then Panic
  else Ok (omap (visible_at s b) (filter (fun x => start <= x.1 < end_) (in_order (points b)))).
Definition iter (s : Snapshot.t) (b : t) : list (Z * bytes) := omap (visible_at s b) (in_order (points b)).
Definition latest_before (ts : Z) (s : Snapshot.t) (b : t) : option (Z * bytes) :=
  hd_error (omap (visible_at s b) (rev (filter (fun x => x.1 <= ts) (in_order (points b))))).
Definition len (b : t) : Z := Z.of_nat (size (points b)).
Definition is_empty (b : t) : bool := bool_decide (points b = ∅).

(** [size_of::<VersionChain>()] is an argument. *)
Fixpoint chain_size (size_of : Z) (c : VersionChain.t) : Z :=
  4 + VersionValue.len (VersionChain.value c) + size_of
  + match VersionChain.prev_version c with Some p => chain_size size_of p | None => 0 end.
Definition estimated_size (size_of : Z) (b : t) : Z :=
  foldl (fun n x => n + 8 + chain_size size_of x.2) 32 (in_order (points b)).

Fixpoint commit_chain_recursive (tx : TransactionId) (lsn : LogSequenceNumber) (c : VersionChain.t) : VersionChain.t :=
  VersionChain.mk (VersionChain.value c) (VersionChain.created_by c)
    (if (VersionChain.created_by c =? tx) && bool_decide (VersionChain.commit_lsn c = None)
     then Some lsn else VersionChain.commit_lsn c)
    (match VersionChain.prev_version c with Some p => Some (commit_chain_recursive tx lsn p) | None => None end).
Definition commit_versions (tx : TransactionId) (lsn : LogSequenceNumber) (b : t) : t :=
  set_points (commit_chain_recursive tx lsn <$> points b) b.

(** The number removed and the bucket left. *)
Definition old_tombstone (m : LogSequenceNumber) (x : TimeSeriesTombstone) : bool :=
  match t_lsn x with Some lsn => lsn <? m | None => false end.
Definition vacuum (m : LogSequenceNumber) (b : t) : Z * t :=
  let chains := foldl (fun n x => n + Z.of_nat (VersionChain.vacuum x.2 m).1.1) 0 (in_order (points b)) in
  let keep : gmap Z TimeSeriesTombstone := filter (fun x => old_tombstone m x.2 = false) (tombstones b) in
  let removed := chains + (Z.of_nat (size (tombstones b)) - Z.of_nat (size keep)) in
  (removed, mk (id b) (start_ts b) (end_ts b) ((fun c => (VersionChain.vacuum c m).2) <$> points b) keep
              (page_id b) (if 0 <? removed then true else dirty b) (last_access_time b)).

(** *** The page of a bucket *)
Definition framed (o : option bytes) : bytes := let l := default [] o in to_le_bytes 4 (as_u32 (zlen l)) ++ l.
Definition to_bytes (b : t) : bytes :=
  to_le_bytes 8 (id b) ++ to_le_bytes 8 (as_u64 (start_ts b)) ++ to_le_bytes 8 (as_u64 (end_ts b))
  ++ to_le_bytes 8 (last_access_time b) ++ to_le_bytes 4 (as_u32 (Z.of_nat (size (points b))))
  ++ flat_map (fun x => to_le_bytes 8 (as_u64 x.1) ++ framed (chain_to x.2)) (in_order (points b))
  ++ to_le_bytes 4 (as_u32 (Z.of_nat (size (tombstones b))))
  ++ flat_map (fun x => framed (tombstone_to x.2)) (in_order (tombstones b)).

Definition read_field (n pos : Z) (data : bytes) (msg : string) : R Z :=
  _ ← ensure (pos + n <=? zlen data) (TableOther msg); get_le n pos data.
Fixpoint read_points (n : nat) (pos : Z) (data : bytes) (points : gmap Z VersionChain.t)
    : R (Z * gmap Z VersionChain.t) :=
  match n with
  | O => Ok (pos, points)
  | S n =>
      ts ← read_field 8 pos data "Insufficient data for point timestamp";
      chain_len ← read_field 4 (pos + 8) data "Insufficient data for chain length";
      let pos := pos + 12 in
      _ ← ensure (pos + chain_len <=? zlen data) (TableOther "Insufficient data for version chain");
      l ← slice pos (pos + chain_len) data;
      chain ← ok_or (chain_from l) (TableOther "Failed to deserialize version chain");
      read_points n (pos + chain_len) data (<[as_i64 ts := chain]> points)
  end.
(** Stops at the first entry that is not complete, and skips one that cannot
    be decoded. *)
Fixpoint read_tombstones (n : nat) (pos : Z) (data : bytes) (m : gmap Z TimeSeriesTombstone)
    : R (gmap Z TimeSeriesTombstone) :=
  match n with
  | O => Ok m
  | S n =>
      if zlen data <? pos + 4 then Ok m
      else
        tombstone_len ← get_le 4 pos data;
        let pos := pos + 4 in
        if zlen data <? pos + tombstone_len then Ok m
        else
          l ← slice pos (pos + tombstone_len) data;
          read_tombstones n (pos + tombstone_len) data
            (match tombstone_from l with Some x => <[t_timestamp x := x]> m | None => m end)
  end.
Definition from_bytes (data : bytes) : R t :=
  bucket_id ← read_field 8 0 data "Insufficient data for bucket ID";
  start ← read_field 8 8 data "Insufficient data for start timestamp";
  end_ ← read_field 8 16 data "Insufficient data for end timestamp";
  last ← read_field 8 24 data "Insufficient data for last access time";
  point_count ← read_field 4 32 data "Insufficient data for point count";
  x ← read_points (Z.to_nat point_count) 36 data ∅;
  let '(pos, points) := x in
  tombs ← (if (pos <? zlen data) && (pos + 4 <=? zlen data)
           then count ← get_le 4 pos data; read_tombstones (Z.to_nat count) (pos + 4) data ∅
           else Ok ∅);
  Ok (mk bucket_id (as_i64 start) (as_i64 end_) points tombs None false last).

Context {P : Type} `{PageStore P}.
(** Errors of the pager become messages. *)
Definition on_pager {S A} (get : S -> P) (put : P -> S -> S) (msg : string) (m : stateful P PagerError A)
    : stateful S TableError A := fun s =>
  let '(r, p) := m (get s) in
  (match r with Ok a => Ok a | Err _ => Err (TableOther msg) | Panic => Panic end, put p s).
Abbreviation B := (stateful (t * P) TableError).
Definition bucket_pager {A} (msg : string) (m : stateful P PagerError A) : B A :=
  on_pager snd (fun p s => (s.1, p)) msg m.
Definition flush : B unit :=
  b ← gets fst;
  let bucket_data := to_bytes b in
  p ← (match page_id b with
       | Some p => mret p
       | None =>
           p ← bucket_pager "Failed to allocate page" (allocate_page PageType.BTreeLeaf);
           _ ← modify (fun s => (set_page_id (Some p) s.1, s.2));
           mret p
       end);
  _ ← bucket_pager "Failed to write page" (write_page p PageType.BTreeLeaf bucket_data);
  modify (fun s => (set_dirty false s.1, s.2)).
Definition load (now : Z) (p : PageId) : stateful P TableError t :=
  data ← on_pager (fun s => s) (fun p _ => p) "Failed to read page" (read_page p);
  b ← lift (from_bytes data);
  mret (touch now (set_page_id (Some p) b)).
End Bucket.
End TimeBucket.

(** ** The buckets of a series *)
Module BucketManager.
Record t : Type := mk {
  bucket_size : Z;
  buckets : gmap Z TimeBucket.t;
  max_buckets_in_memory : Z;
  bucket_page_map : gmap Z PageId }.
Definition set_buckets (l : gmap Z TimeBucket.t) (m : t) : t :=
  mk (bucket_size m) l (max_buckets_in_memory m) (bucket_page_map m).
Definition set_page_map (l : gmap Z PageId) (m : t) : t :=
  mk (bucket_size m) (buckets m) (max_buckets_in_memory m) l.
Definition new (bucket_size max : Z) : t := mk bucket_size ∅ max ∅.
Definition update (id : Z) (b : TimeBucket.t) (m : t) : t := set_buckets (<[id := b]> (buckets m)) m.

(** [min_by_key]: the first of those with the least access time. *)
Fixpoint oldest (best : option (Z * TimeBucket.t)) (l : list (Z * TimeBucket.t)) : option Z :=
  match l with
  | [] => fst <$> best
  | x :: l =>
      oldest (match best with
              | Some y => if TimeBucket.last_access_time x.2 <? TimeBucket.last_access_time y.2 then Some x else best
              | None => Some x
              end) l
  end.

Section Manager.
Context `{PostcardCodec} {P : Type} `{PageStore P}.
Abbreviation M := (stateful (t * P) TableError).
Definition upd (f : t -> t) : M unit := modify (fun s => (f s.1, s.2)).

(** The bucket taken out of the map is flushed on its own: when that fails
    it is gone. *)
Definition flush_removed (b : TimeBucket.t) : M TimeBucket.t := fun '(m, p) =>
  let '(r, (b', p')) := TimeBucket.flush (b, p) in
  (match r with Ok _ => Ok b' | Err e => Err e | Panic => Panic end, (m, p')).
Definition evict_lru_bucket : M unit :=
  m ← gets fst;
  match oldest None (in_order (buckets m)) with
  | None => mret tt
  | Some bucket_id =>
      match buckets m !! bucket_id with
      | None => mret tt
      | Some bucket =>
          _ ← upd (fun m => set_buckets (delete bucket_id (buckets m)) m);
          bucket ← (if TimeBucket.dirty bucket then flush_removed bucket else mret bucket);
          match TimeBucket.page_id bucket with
          | Some p => upd (fun m => set_page_map (<[bucket_id := p]> (bucket_page_map m)) m)
          | None => mret tt
          end
      end
  end.

(** The id of the bucket, which is in memory afterwards. *)
Definition get_or_create_bucket (now timestamp : Z) : M Z :=
  m ← gets fst;
  bucket_id ← lift (BucketId.from_timestamp timestamp (bucket_size m));
  match buckets m !! bucket_id with
  | Some b => _ ← upd (update bucket_id (TimeBucket.touch now b)); mret bucket_id
  | None =>
      _ ← (if max_buckets_in_memory m <=? Z.of_nat (size (buckets m)) then evict_lru_bucket else mret tt);
      m ← gets fst;
      b ← (match bucket_page_map m !! bucket_id with
           | Some p => fun '(m, st) => let '(r, st') := TimeBucket.load now p st in (r, (m, st'))
           | None => lift (TimeBucket.new now bucket_id (bucket_size m))
           end);
      _ ← upd (update bucket_id b);
      mret bucket_id
  end.
(** A change of a bucket that is in memory. *)
Definition on_bucket (id : Z) (f : TimeBucket.t -> outcome TableError TimeBucket.t) : M unit :=
  m ← gets fst;
  b ← lift (unwrap (buckets m !! id));
  b ← lift (f b);
  upd (update id b).

(** [BTreeMap::range(start..=end)] panics when [start > end]. *)
Definition get_bucket_ids_in_range (start_ts end_ts : Z) (m : t) : outcome TableError (list Z) :=
  start_bucket ← BucketId.from_timestamp start_ts (bucket_size m);
  end_bucket ← BucketId.from_timestamp end_ts (bucket_size m);
  if end_bucket <? start_bucket then Panic
  else Ok (map fst (filter (fun x => start_bucket <= x.1 <= end_bucket) (in_order (buckets m)))).

(** The flushed bucket stays in the map, also when flushing fails. *)
Definition flush_one (x : Z * TimeBucket.t) : M unit :=
  if TimeBucket.dirty x.2 then
    fun '(m, p) =>
      let '(r, (b, p')) := TimeBucket.flush (x.2, p) in
      let m := update x.1 b m in
      match r with
      | Ok _ => (Ok tt, (match TimeBucket.page_id b with
                         | Some q => set_page_map (<[x.1 := q]> (bucket_page_map m)) m
                         | None => m
                         end, p'))
      | Err e => (Err e, (m, p'))
      | Panic => (Panic, (m, p'))
      end
  else mret tt.
Fixpoint flush_list (l : list (Z * TimeBucket.t)) : M unit :=
  match l with [] => mret tt | x :: l => _ ← flush_one x; flush_list l end.
Definition flush_all : M unit := m ← gets fst; flush_list (in_order (buckets m)).

Definition bucket_count (m : t) : Z := Z.of_nat (size (buckets m)).
Definition total_bucket_count (m : t) : Z := Z.of_nat (size (bucket_page_map m)).
Definition register_bucket_page (id : Z) (p : PageId) (m : t) : t := set_page_map (<[id := p]> (bucket_page_map m)) m.
Definition get_bucket_page_id (id : Z) (m : t) : option PageId := bucket_page_map m !! id.
Definition get_bucket_page_mappings (m : t) : list (Z * PageId) := in_order (bucket_page_map m).
End Manager.
End BucketManager.

(** ** Configuration *)
Inductive TimeSeriesCompression : Type := TsNone | DeltaOfDelta | Gorilla | TsDelta | Rle.
(** Durations in nanoseconds. *)
Inductive RetentionPolicy : Type := KeepAll | MaxAge (d : Z) | MaxPoints (n : Z) | UntilTimestamp (ts : Z).
Module TimeSeriesConfig.
Record t : Type := mk {
  bucket_size : Z;
  compression : TimeSeriesCompression;
  retention_policy : RetentionPolicy;
  enable_downsampling : bool;
  downsampling_interval : Z;
  max_points_per_bucket : Z;
  use_memory_index : bool }.
Definition default : t := mk 3600 DeltaOfDelta KeepAll false 86400 10000 true.
Definition compression_to_u8 (c : TimeSeriesCompression) : Z :=
  match c with TsNone => 0 | DeltaOfDelta => 1 | Gorilla => 2 | TsDelta => 3 | Rle => 4 end.
Definition compression_from_u8 (z : Z) : TimeSeriesCompression :=
  match z with 0 => TsNone | 1 => DeltaOfDelta | 2 => Gorilla | 3 => TsDelta | 4 => Rle | _ => DeltaOfDelta end.
Definition with_bucket_size (n : Z) (c : t) : t :=
  mk n (compression c) (retention_policy c) (enable_downsampling c) (downsampling_interval c) (max_points_per_bucket c) (use_memory_index c).
Definition with_compression (k : TimeSeriesCompression) (c : t) : t :=
  mk (bucket_size c) k (retention_policy c) (enable_downsampling c) (downsampling_interval c) (max_points_per_bucket c) (use_memory_index c).
Definition with_retention_policy (r : RetentionPolicy) (c : t) : t :=
  mk (bucket_size c) (compression c) r (enable_downsampling c) (downsampling_interval c) (max_points_per_bucket c) (use_memory_index c).
Definition with_downsampling (b : bool) (n : Z) (c : t) : t :=
  mk (bucket_size c) (compression c) (retention_policy c) b n (max_points_per_bucket c) (use_memory_index c).
Definition with_max_points_per_bucket (n : Z) (c : t) : t :=
  mk (bucket_size c) (compression c) (retention_policy c) (enable_downsampling c) (downsampling_interval c) n (use_memory_index c).
Definition with_memory_index (b : bool) (c : t) : t :=
  mk (bucket_size c) (compression c) (retention_policy c) (enable_downsampling c) (downsampling_interval c) (max_points_per_bucket c) b.
End TimeSeriesConfig.

(** ** The table *)
Module TimeSeriesTable.
Record t : Type := mk {
  table_id : TableId;
  name : string;
  config : TimeSeriesConfig.t;
  root_page_id : PageId;
  series : list (bytes * BucketManager.t);
  total_points : Z;
  total_size : Z }.
Definition set_series (l : list (bytes * BucketManager.t)) (x : t) : t :=
  mk (table_id x) (name x) (config x) (root_page_id x) l (total_points x) (total_size x).
Definition set_totals (points size : Z) (x : t) : t :=
  mk (table_id x) (name x) (config x) (root_page_id x) (series x) points size.

Definition TIMESERIES_MAGIC : Z := 0x54535253.
Definition TIMESERIES_VERSION : Z := 1.
(** [size_of::<TimeSeriesMetadata>()] with [repr(C)]. *)
Definition METADATA_SIZE : Z := 104.
Definition MAX_BUCKETS : Z := 100.

Section Table.
Context `{PostcardCodec} {P : Type} `{PageStore P}.
Abbreviation M := (stateful (t * P) TableError).
(** The bytes the compiler leaves between the fields and behind them. *)
Variables pad pad' pad'' : bytes.

Definition metadata_bytes (x : t) : bytes :=
  to_le_bytes 4 TIMESERIES_MAGIC ++ to_le_bytes 4 TIMESERIES_VERSION
  ++ to_le_bytes 8 (TimeSeriesConfig.bucket_size (config x))
  ++ [TimeSeriesConfig.compression_to_u8 (TimeSeriesConfig.compression (config x));
      (if TimeSeriesConfig.enable_downsampling (config x) then 1 else 0)] ++ pad
  ++ to_le_bytes 8 (TimeSeriesConfig.downsampling_interval (config x))
  ++ to_le_bytes 8 (TimeSeriesConfig.max_points_per_bucket (config x))
  ++ [if TimeSeriesConfig.use_memory_index (config x) then 1 else 0] ++ pad'
  ++ to_le_bytes 8 (total_points x) ++ to_le_bytes 8 (total_size x)
  ++ to_le_bytes 4 (as_u32 (zlen (series x))) ++ replicate 32 0 ++ pad''.

Definition table_pager {A} (msg : string) (m : stateful P PagerError A) : M A :=
  TimeBucket.on_pager snd (fun p s => (s.1, p)) msg m.
Definition write_metadata : M unit :=
  s ← gets (fun s => s);
  let entries := map (fun y => mkEntry y.1 (BucketManager.get_bucket_page_mappings y.2)) (series s.1) in
  series_data ← lift (ok_or (entries_to entries) (TableOther "Failed to serialize series data"));
  let page_data := metadata_bytes s.1 ++ series_data in
  _ ← lift (ensure (zlen page_data <=? data_size s.2) (TableOther "Metadata size exceeds page size"));
  table_pager "Failed to write root page" (write_page (root_page_id s.1) PageType.LsmMeta page_data).
Definition flush_metadata : M unit := write_metadata.

Definition new (tid : TableId) (nm : string) (c : TimeSeriesConfig.t) : stateful P TableError t := fun p =>
  match TimeBucket.on_pager (fun s => s) (fun p _ => p) "Failed to allocate root page" (allocate_page PageType.LsmMeta) p with
  | (Ok root, p) =>
      let '(r, (x, p)) := write_metadata (mk tid nm c root [] 0 0, p) in
      (match r with Ok _ => Ok x | Err e => Err e | Panic => Panic end, p)
  | (Err e, p) => (Err e, p)
  | (Panic, p) => (Panic, p)
  end.

(** A [bool] of the metadata is read as a byte. *)
Definition to_config (data : bytes) : outcome TableError TimeSeriesConfig.t :=
  bucket_size ← get_le 8 8 data;
  compression ← get_le 1 16 data;
  enable ← get_le 1 17 data;
  interval ← get_le 8 24 data;
  max ← get_le 8 32 data;
  memory ← get_le 1 40 data;
  Ok (TimeSeriesConfig.mk bucket_size (TimeSeriesConfig.compression_from_u8 compression) KeepAll (negb (enable =? 0))
        interval max (negb (memory =? 0))).
Definition restore (bucket_size : Z) (e : SeriesBucketEntry) : BucketManager.t :=
  foldl (fun m y => BucketManager.register_bucket_page y.1 y.2 m) (BucketManager.new bucket_size MAX_BUCKETS) (e_pages e).
Definition open (tid : TableId) (nm : string) (root : PageId) : stateful P TableError t :=
  data ← TimeBucket.on_pager (fun s => s) (fun p _ => p) "Failed to read root page" (read_page root);
  _ ← lift (ensure (METADATA_SIZE <=? zlen data) (Corruption "timeseries_metadata" "insufficient_data"));
  magic ← lift (get_le 4 0 data);
  _ ← lift (ensure (magic =? TIMESERIES_MAGIC) (Corruption "timeseries_metadata" "invalid_magic"));
  version ← lift (get_le 4 4 data);
  _ ← lift (ensure (version =? TIMESERIES_VERSION) (InvalidFormatVersion version));
  c ← lift (to_config data);
  total_points ← lift (get_le 8 48 data);
  total_size ← lift (get_le 8 56 data);
  series_data ← lift (slice METADATA_SIZE (zlen data) data);
  let entries := match series_data with [] => [] | _ => default [] (entries_from series_data) end in
  let series := foldl (fun l e => BTreeMap.insert l (e_series e) (restore (TimeSeriesConfig.bucket_size c) e)) [] entries in
  mret (mk tid nm c root series total_points total_size).

(** The manager of the series, made when there is none, and a call on it. *)
Definition on_series {A} (key : bytes) (f : stateful (BucketManager.t * P) TableError A) : M A := fun '(x, p) =>
  let m := match BTreeMap.get (series x) key with
           | Some m => m
           | None => BucketManager.new (TimeSeriesConfig.bucket_size (config x)) MAX_BUCKETS
           end in
  let '(r, (m, p)) := f (m, p) in (r, (set_series (BTreeMap.insert (series x) key m) x, p)).

Definition append_point_tx (now : Z) (key : bytes) (ts : Z) (value_key : bytes) (tx : TransactionId) : M unit :=
  _ ← on_series key (id ← BucketManager.get_or_create_bucket now ts;
                     BucketManager.on_bucket id (TimeBucket.insert ts value_key tx));
  modify (fun s => (set_totals (as_u64 (total_points s.1 + 1))
                      (as_u64 (total_size s.1 + as_u64 (zlen key + 8 + zlen value_key))) s.1, s.2)).
Definition append_point := append_point_tx.
Definition add_tombstone (now : Z) (key : bytes) (ts : Z) (tx : TransactionId) : M unit :=
  on_series key (id ← BucketManager.get_or_create_bucket now ts;
                 BucketManager.on_bucket id (TimeBucket.add_tombstone key ts tx)).

Definition map_buckets (f : TimeBucket.t -> TimeBucket.t) (x : t) : t :=
  set_series (BTreeMap.map_values (fun m => BucketManager.set_buckets (f <$> BucketManager.buckets m) m) (series x)) x.
(** Only the buckets in memory. *)
Definition commit_versions (tx : TransactionId) (lsn : LogSequenceNumber) (x : t) : t :=
  map_buckets (fun b => TimeBucket.commit_tombstones tx lsn (TimeBucket.commit_versions tx lsn b)) x.
Definition vacuum (m : LogSequenceNumber) (x : t) : Z * t :=
  (foldl (fun n y => foldl (fun n z => n + (TimeBucket.vacuum m z.2).1) n (in_order (BucketManager.buckets y.2))) 0 (series x),
   map_buckets (fun b => (TimeBucket.vacuum m b).2) x).

(** *** Scans *)
Record Cursor : Type := mkCursor {
  c_series : bytes; c_start : Z; c_end : Z; c_points : list (Z * bytes); c_position : Z }.
(** Errors of loading a bucket are dropped. *)
Fixpoint load_buckets (now : Z) (ids : list Z) : stateful (BucketManager.t * P) TableError unit :=
  match ids with
  | [] => mret tt
  | id :: ids =>
      m ← gets fst;
      start ← lift (BucketId.start_timestamp id (BucketManager.bucket_size m));
      _ ← (fun s => match BucketManager.get_or_create_bucket now start s with
                    | (Panic, s) => (Panic, s)
                    | (_, s) => (Ok tt, s)
                    end);
      load_buckets now ids
  end.
Fixpoint collect (start end_ : Z) (s : Snapshot.t) (ids : list Z) (m : BucketManager.t) : outcome TableError (list (Z * bytes)) :=
  match ids with
  | [] => Ok []
  | id :: ids =>
      a ← (match BucketManager.buckets m !! id with Some b => TimeBucket.range start end_ s b | None => Ok [] end);
      l ← collect start end_ s ids m;
      Ok (a ++ l)
  end.
Definition scan_series_snapshot (now : Z) (key : bytes) (start end_ : Z) (s : Snapshot.t) : M Cursor :=
  x ← gets fst;
  _ ← (match BTreeMap.get (series x) key with
       | None => mret tt
       | Some _ => on_series key (m ← gets fst;
                                  ids ← lift (BucketManager.get_bucket_ids_in_range start end_ m);
                                  load_buckets now ids)
       end);
  x ← gets fst;
  points ← lift (match BTreeMap.get (series x) key with
                 | None => Ok []
                 | Some m => ids ← BucketManager.get_bucket_ids_in_range start end_ m; collect start end_ s ids m
                 end);
  mret (mkCursor key start end_ (merge_sort by_key points) 0).
(** The snapshot of a scan without one: it sees every commit. *)
Definition everything : Snapshot.t := Snapshot.new 0 "" (2 ^ 64 - 1) 0 0 [].
Definition scan_series (now : Z) (key : bytes) (start end_ : Z) : M Cursor := scan_series_snapshot now key start end_ everything.

Definition valid (c : Cursor) : bool := c_position c <? zlen (c_points c).
Definition current (c : Cursor) : option (bytes * Z * bytes) :=
  if valid c then match c_points c !! Z.to_nat (c_position c) with
                  | Some (ts, v) => Some (c_series c, ts, v) | None => None end
  else None.
Definition next (c : Cursor) : Cursor :=
  if valid c then mkCursor (c_series c) (c_start c) (c_end c) (c_points c) (c_position c + 1) else c.
Definition count (c : Cursor) : Z := zlen (c_points c).

Definition latest_before_snapshot (key : bytes) (ts : Z) (s : Snapshot.t) (x : t) : outcome TableError (option (bytes * Z * bytes)) :=
  match BTreeMap.get (series x) key with
  | None => Ok None
  | Some m =>
      bucket_id ← BucketId.from_timestamp ts (TimeSeriesConfig.bucket_size (config x));
      Ok (hd_error (omap (fun y => match TimeBucket.latest_before ts s y.2 with
                                   | Some (ts, v) => Some (key, ts, v) | None => None end)
                    (rev (filter (fun y => y.1 <= bucket_id) (in_order (BucketManager.buckets m))))))
  end.
Definition latest_before (key : bytes) (ts : Z) (x : t) := latest_before_snapshot key ts everything x.
End Table.
End TimeSeriesTable.
