(* ===== verification/TimeSeriesLaws.v ===== *)
(** * A time series table is a map from series and timestamps to version chains

    The specification keeps for each series its points and tombstones; the
    buckets are invisible in it.  The theorem is for timestamps from the
    epoch on, in no more buckets than a series keeps in memory: the examples
    at the end show what happens outside that range. *)
From stdpp Require Import sorting.
From S2P Require Import Prelude Types Mvcc Page PageStore OrdMap MemTables TimeCodec TimeSeries.

(** ** Maps in key order *)
#[global] Instance by_key_trans {V} : Transitive (@by_key V).
Proof. unfold by_key. intros a b c. lia. Qed.
#[global] Instance by_key_total {V} : Total (@by_key V).
Proof. unfold by_key. intros a b. lia. Qed.

Section InOrder.
Context {V : Type}.
Implicit Types m : gmap Z V.
Lemma in_order_elem m k v : (k, v) ∈ in_order m <-> m !! k = Some v.
Proof. unfold in_order. rewrite merge_sort_Permutation. apply elem_of_map_to_list. Qed.
Lemma in_order_sorted m : StronglySorted by_key (in_order m).
Proof. apply StronglySorted_merge_sort; apply _. Qed.
Lemma in_order_keys m : NoDup (map fst (in_order m)).
Proof. change (NoDup (in_order m).*1). unfold in_order. rewrite merge_sort_Permutation. apply NoDup_fst_map_to_list. Qed.
Lemma in_order_nodup m : NoDup (in_order m).
Proof. eapply NoDup_fmap_1, in_order_keys. Qed.
End InOrder.

(** Lists sorted by key that have the same elements, one per key, are equal. *)
Lemma sorted_eq {V} (l k : list (Z * V)) : StronglySorted by_key l -> StronglySorted by_key k -> NoDup l -> NoDup k ->
  (forall x, x ∈ l <-> x ∈ k) -> (forall x y, x ∈ l -> y ∈ l -> x.1 = y.1 -> x = y) -> l = k.
Proof.
  intros Hl Hk Hnl Hnk Heq Hkey. apply (StronglySorted_unique_strong by_key); [|done|done|by apply NoDup_Permutation].
  intros x y Hx Hy H1 H2. apply Hkey; [done|by apply Heq|]. unfold by_key in *. lia.
Qed.
Lemma sorted_omap {V W} (f : Z * V -> option (Z * W)) l : (forall x y, f x = Some y -> y.1 = x.1) ->
  StronglySorted by_key l -> StronglySorted by_key (omap f l).
Proof.
  intros Hf Hl. induction Hl as [|x l Hl IH Hx]; simpl; [constructor|]. destruct (f x) as [y|] eqn:Hfx; [|done].
  constructor; [done|]. apply Forall_forall. intros z Hz. apply list_elem_of_omap in Hz as (x' & Hx' & Hz).
  rewrite Forall_forall in Hx. specialize (Hx x' Hx'). unfold by_key in *. by rewrite (Hf _ _ Hfx), (Hf _ _ Hz).
Qed.
Lemma nodup_omap {V W} (f : Z * V -> option (Z * W)) l : (forall x y, f x = Some y -> y.1 = x.1) ->
  NoDup (map fst l) -> NoDup (omap f l).
Proof.
  intros Hf. induction l as [|x l IH]; simpl; [constructor|]. intros [Hx Hl]%NoDup_cons.
  destruct (f x) as [y|] eqn:Hfx; [|by apply IH]. constructor; [|by apply IH]. intros Hy.
  apply list_elem_of_omap in Hy as (x' & Hx' & Hy). apply Hx. rewrite <- (Hf _ _ Hfx), (Hf _ _ Hy).
  by apply list_elem_of_fmap_2.
Qed.

Lemma elem_concat {A} (x : A) ls : x ∈ concat ls <-> exists l, x ∈ l /\ l ∈ ls.
Proof.
  rewrite list_elem_of_In, in_concat. split; intros (l & H1 & H2); exists l; rewrite ?list_elem_of_In in *; done.
Qed.

Module TimeSeriesLaws.
Import TimeSeriesTable.

(** ** The specification *)
Record spec : Type := mkSpec { s_points : gmap Z VersionChain.t; s_tombstones : gmap Z TimeSeriesTombstone }.
Definition no_points : spec := mkSpec ∅ ∅.

Inductive event : Type :=
  | Append (key : bytes) (ts : Z) (v : bytes) (tx : TransactionId)
  | Rollback (key : bytes) (ts : Z) (tx : TransactionId)
  | Commit (tx : TransactionId) (lsn : LogSequenceNumber)
  | Vacuum (m : LogSequenceNumber).

Definition pushed (c : option VersionChain.t) (v : bytes) (tx : TransactionId) : VersionChain.t :=
  match c with Some c => VersionChain.prepend c v tx | None => VersionChain.new v tx end.
Definition at_series (key : bytes) (f : spec -> spec) (a : gmap (list Z) spec) : gmap (list Z) spec :=
  <[key := f (default no_points (a !! key))]> a.
Definition spec_step (e : event) (a : gmap (list Z) spec) : gmap (list Z) spec :=
  match e with
  | Append key ts v tx => at_series key (fun s => mkSpec (<[ts := pushed (s_points s !! ts) v tx]> (s_points s)) (s_tombstones s)) a
  | Rollback key ts tx => at_series key (fun s => mkSpec (s_points s) (<[ts := mkTombstone key ts tx None]> (s_tombstones s))) a
  | Commit tx lsn => (fun s => mkSpec (TimeBucket.commit_chain_recursive tx lsn <$> s_points s)
                                (TimeBucket.commit_tombstone tx lsn <$> s_tombstones s)) <$> a
  | Vacuum m => (fun s => mkSpec ((fun c => (VersionChain.vacuum c m).2) <$> s_points s)
                            (filter (fun x => TimeBucket.old_tombstone m x.2 = false) (s_tombstones s))) <$> a
  end.
(** The points a snapshot sees in [start, end), in order. *)
Definition spec_sees (s : Snapshot.t) (x : spec) (y : Z * VersionChain.t) : option (Z * bytes) :=
  if match s_tombstones x !! y.1 with Some t => tombstone_visible s t | None => false end then None
  else match VersionChain.find_visible_inline y.2 s with Some v => Some (y.1, v) | None => None end.
Definition spec_scan (start end_ : Z) (s : Snapshot.t) (x : spec) : list (Z * bytes) :=
  omap (spec_sees s x) (filter (fun y => start <= y.1 < end_) (in_order (s_points x))).

Section Laws.
Context `{PostcardCodec} {P : Type} `{PageStore P}.
Abbreviation M := (stateful (t * P) TableError).

Definition perform (now : Z) (e : event) : M unit :=
  match e with
  | Append key ts v tx => append_point_tx now key ts v tx
  | Rollback key ts tx => add_tombstone now key ts tx
  | Commit tx lsn => modify (fun s => (commit_versions tx lsn s.1, s.2))
  | Vacuum m => modify (fun s => ((vacuum m s.1).2, s.2))
  end.
Fixpoint perform_all (l : list (Z * event)) : M unit :=
  match l with [] => mret tt | (now, e) :: l => _ ← perform now e; perform_all l end.

(** ** Buckets *)
Variable bs : Z.
Hypothesis bs_pos : 0 < bs < 2 ^ 63.
(** The buckets the history touches: no more than a series keeps in memory. *)
Variable ids : gset Z.
Hypothesis ids_few : Z.of_nat (size ids) <= MAX_BUCKETS.

Definition in_span (ts : Z) : Prop := 0 <= ts < 2 ^ 63 - 1 /\ ts / bs ∈ ids.
Definition allowed (e : event) : Prop :=
  match e with Append _ ts _ _ | Rollback _ ts _ => in_span ts | _ => True end.

Record bucket_ok (i : Z) (b : TimeBucket.t) : Prop := {
  b_range : 0 <= i /\ i * bs < 2 ^ 63 - 1;
  b_start : TimeBucket.start_ts b = i * bs;
  b_end : TimeBucket.end_ts b = Z.min BucketId.I64_MAX (i * bs + bs);
  b_points ts : is_Some (TimeBucket.points b !! ts) -> 0 <= ts /\ ts / bs = i;
  b_tombstones ts : is_Some (TimeBucket.tombstones b !! ts) -> 0 <= ts /\ ts / bs = i }.
Record manager_ok (m : BucketManager.t) : Prop := {
  m_size : BucketManager.bucket_size m = bs;
  m_max : BucketManager.max_buckets_in_memory m = MAX_BUCKETS;
  m_pages : BucketManager.bucket_page_map m = ∅;
  m_ids i : is_Some (BucketManager.buckets m !! i) -> i ∈ ids;
  m_buckets i b : BucketManager.buckets m !! i = Some b -> bucket_ok i b }.

(** What a manager holds at a timestamp. *)
Definition point (m : BucketManager.t) (ts : Z) : option VersionChain.t :=
  BucketManager.buckets m !! (ts / bs) ≫= fun b => TimeBucket.points b !! ts.
Definition tomb (m : BucketManager.t) (ts : Z) : option TimeSeriesTombstone :=
  BucketManager.buckets m !! (ts / bs) ≫= fun b => TimeBucket.tombstones b !! ts.
Record shows (m : BucketManager.t) (x : spec) : Prop := {
  sh_ok : manager_ok m;
  sh_points ts : point m ts = s_points x !! ts;
  sh_tombstones ts : tomb m ts = s_tombstones x !! ts }.

(** ** Bucket numbers *)
Lemma from_ok {E} ts : 0 <= ts -> BucketId.from_timestamp (E := E) ts bs = Ok (ts / bs).
Proof.
  intros. unfold BucketId.from_timestamp. rewrite (proj2 (Z.eqb_neq _ _)) by lia. by rewrite (proj2 (Z.leb_le _ _)).
Qed.
Lemma start_ok {E} i : 0 <= i -> i * bs < 2 ^ 63 - 1 -> BucketId.start_timestamp (E := E) i bs = Ok (i * bs).
Proof.
  intros Hi Hlt. unfold BucketId.start_timestamp. rewrite (proj2 (Z.eqb_neq _ _)) by lia.
  assert (i <= BucketId.I64_MAX / bs) by (apply Z.div_le_lower_bound; unfold BucketId.I64_MAX; lia).
  rewrite (proj2 (Z.ltb_ge _ _)) by lia. rewrite as_i64_id; [done|]. unfold is_i64. nia.
Qed.
Lemma end_ok {E} i : 0 <= i -> i * bs < 2 ^ 63 - 1 ->
  BucketId.end_timestamp (E := E) i bs = Ok (Z.min BucketId.I64_MAX (i * bs + bs)).
Proof.
  intros Hi Hlt. unfold BucketId.end_timestamp. rewrite start_ok by done. simpl. rewrite as_i64_id by (unfold is_i64; lia).
  unfold BucketId.saturating_add, BucketId.I64_MAX. f_equal. nia.
Qed.
Lemma bucket_start ts : 0 <= ts < 2 ^ 63 - 1 -> 0 <= ts / bs /\ ts / bs * bs <= ts < ts / bs * bs + bs.
Proof.
  intros Hts. pose proof (Z.div_pos ts bs ltac:(lia) ltac:(lia)). pose proof (Z.div_mod ts bs ltac:(lia)).
  pose proof (Z.mod_pos_bound ts bs ltac:(lia)). lia.
Qed.

(** ** Changing one bucket *)
Lemma lookup_update i b m j :
  BucketManager.buckets (BucketManager.update i b m) !! j = if decide (i = j) then Some b else BucketManager.buckets m !! j.
Proof. simpl. case_decide as Hd; [by rewrite Hd, lookup_insert_eq|by rewrite lookup_insert_ne]. Qed.
Lemma point_update i b m ts :
  point (BucketManager.update i b m) ts = if decide (i = ts / bs) then TimeBucket.points b !! ts else point m ts.
Proof. unfold point. rewrite lookup_update. by case_decide. Qed.
Lemma tomb_update i b m ts :
  tomb (BucketManager.update i b m) ts = if decide (i = ts / bs) then TimeBucket.tombstones b !! ts else tomb m ts.
Proof. unfold tomb. rewrite lookup_update. by case_decide. Qed.
Lemma update_ok i b m : manager_ok m -> i ∈ ids -> bucket_ok i b -> manager_ok (BucketManager.update i b m).
Proof.
  intros [] Hi Hb. constructor; try done; intros j.
  - rewrite lookup_update. case_decide; [by intros _; subst|apply m_ids0].
  - intros b'. rewrite lookup_update. case_decide; [by intros [= <-]; subst|apply m_buckets0].
Qed.
(** A bucket with the contents of the one it replaces. *)
Lemma shows_same i b b' m x : shows m x -> BucketManager.buckets m !! i = Some b -> bucket_ok i b' ->
  TimeBucket.points b' = TimeBucket.points b -> TimeBucket.tombstones b' = TimeBucket.tombstones b ->
  shows (BucketManager.update i b' m) x.
Proof.
  intros [Hok Hp Ht] Hb Hb' Hpb Htb. constructor.
  - apply update_ok; [done|eapply m_ids; [done|by eexists]|done].
  - intros ts. rewrite point_update, <- Hp. case_decide as Hd; [|done]. unfold point. rewrite <- Hd, Hb. simpl. by rewrite Hpb.
  - intros ts. rewrite tomb_update, <- Ht. case_decide as Hd; [|done]. unfold tomb. rewrite <- Hd, Hb. simpl. by rewrite Htb.
Qed.
Lemma touch_ok now i b : bucket_ok i b -> bucket_ok i (TimeBucket.touch now b).
Proof. by intros []. Qed.
Lemma fresh_ok i now : 0 <= i -> i * bs < 2 ^ 63 - 1 ->
  bucket_ok i (TimeBucket.mk i (i * bs) (Z.min BucketId.I64_MAX (i * bs + bs)) ∅ ∅ None false now).
Proof. intros. constructor; simpl; try done; intros ts [? Hl]; by rewrite lookup_empty in Hl. Qed.
Lemma shows_fresh i now m x : shows m x -> i ∈ ids -> 0 <= i -> i * bs < 2 ^ 63 - 1 -> BucketManager.buckets m !! i = None ->
  shows (BucketManager.update i (TimeBucket.mk i (i * bs) (Z.min BucketId.I64_MAX (i * bs + bs)) ∅ ∅ None false now) m) x.
Proof.
  intros [Hok Hp Ht] Hi Hi0 Hlt Hno. constructor; [by apply update_ok, fresh_ok|..]; intros ts.
  - rewrite point_update, <- Hp. case_decide as Hd; [|done]. unfold point. by rewrite <- Hd, Hno.
  - rewrite tomb_update, <- Ht. case_decide as Hd; [|done]. unfold tomb. by rewrite <- Hd, Hno.
Qed.

(** ** A bucket brought to memory *)
Lemma room_left m i : manager_ok m -> i ∈ ids -> BucketManager.buckets m !! i = None ->
  Z.of_nat (size (BucketManager.buckets m)) < MAX_BUCKETS.
Proof.
  intros Hm Hi Hno. rewrite <- size_dom. assert (Hsub : dom (BucketManager.buckets m) ⊂ ids).
  { split.
    - intros j Hj%elem_of_dom. by eapply m_ids.
    - intros Hall. specialize (Hall i Hi). apply elem_of_dom in Hall as [? Hs]. congruence. }
  apply subset_size in Hsub. unfold MAX_BUCKETS in *. lia.
Qed.
Lemma get_bucket now (m : BucketManager.t) (p : P) x ts : shows m x -> in_span ts ->
  exists m' b, BucketManager.get_or_create_bucket now ts (m, p) = (Ok (ts / bs), (m', p)) /\ shows m' x /\
    BucketManager.buckets m' !! (ts / bs) = Some b /\
    forall j, is_Some (BucketManager.buckets m' !! j) <-> j = ts / bs \/ is_Some (BucketManager.buckets m !! j).
Proof.
  intros Hs [Hts Hin]. pose proof (sh_ok _ _ Hs) as Hok. destruct (bucket_start ts Hts) as [Hq0 Hr].
  assert (Hj : forall b j, is_Some (BucketManager.buckets (BucketManager.update (ts / bs) b m) !! j)
    <-> j = ts / bs \/ is_Some (BucketManager.buckets m !! j)).
  { intros b j. rewrite lookup_update. case_decide as Hd; [subst; split; [by left|by eexists]|].
    split; [by right|]. by intros [->|?]. }
  unfold BucketManager.get_or_create_bucket, gets, lift, BucketManager.upd, modify. unfold mbind, stateful_bind. cbn [fst snd].
  rewrite (m_size _ Hok), from_ok by lia. destruct (BucketManager.buckets m !! (ts / bs)) as [b|] eqn:Hb.
  - eexists _, _. split; [reflexivity|]. split; [|split; [by rewrite lookup_update, decide_True|apply Hj]].
    eapply shows_same; [done|exact Hb|by eapply touch_ok, m_buckets|done|done].
  - rewrite (m_max _ Hok), (proj2 (Z.leb_gt _ _)) by by eapply room_left. unfold mret at 1, stateful_ret. cbn [fst snd].
    rewrite (m_pages _ Hok), lookup_empty, (m_size _ Hok). unfold TimeBucket.new. rewrite start_ok, end_ok by lia. simpl.
    eexists _, _. split; [reflexivity|]. split; [|split; [by rewrite lookup_update, decide_True|apply Hj]].
    apply shows_fresh; (done || lia).
Qed.

(** ** One event *)
Lemma bucket_contains_ok i b ts : bucket_ok i b -> 0 <= ts < 2 ^ 63 - 1 -> ts / bs = i -> TimeBucket.contains_timestamp ts b = true.
Proof.
  intros [] Hts Hi. destruct (bucket_start ts Hts) as [_ Hr]. rewrite Hi in Hr. unfold TimeBucket.contains_timestamp.
  rewrite b_start0, b_end0, (proj2 (Z.leb_le _ _)), (proj2 (Z.ltb_lt _ _)); unfold BucketId.I64_MAX; lia.
Qed.
Lemma on_bucket_ok i f (m : BucketManager.t) (p : P) b b' : BucketManager.buckets m !! i = Some b -> f b = Ok b' ->
  BucketManager.on_bucket i f (m, p) = (Ok tt, (BucketManager.update i b' m, p)).
Proof.
  intros Hb Hf. unfold BucketManager.on_bucket, gets, lift, BucketManager.upd, modify, mbind, stateful_bind. cbn [fst snd].
  rewrite Hb. simpl. by rewrite Hf.
Qed.
Lemma append_shows ts v tx m x b : shows m x -> 0 <= ts < 2 ^ 63 - 1 -> BucketManager.buckets m !! (ts / bs) = Some b ->
  exists b', TimeBucket.insert ts v tx b = Ok b' /\
    shows (BucketManager.update (ts / bs) b' m) (mkSpec (<[ts := pushed (s_points x !! ts) v tx]> (s_points x)) (s_tombstones x)).
Proof.
  intros Hs Hts Hb. pose proof Hs as [Hok Hp Ht]. pose proof (m_buckets _ Hok _ _ Hb) as Hbo. eexists. split.
  { unfold TimeBucket.insert. by rewrite (bucket_contains_ok _ _ _ Hbo Hts eq_refl). }
  assert (Hold : TimeBucket.points b !! ts = s_points x !! ts) by (rewrite <- Hp; unfold point; by rewrite Hb).
  rewrite Hold. constructor.
  - apply update_ok; [done|eapply m_ids; [done|by eexists]|]. destruct Hbo. constructor; try done. simpl.
    intros q [<-|[_ Hq]]%lookup_insert_is_Some; [split; [lia|done]|by apply b_points0].
  - intros q. rewrite point_update. simpl. rewrite (lookup_insert (s_points x)). case_decide as Hd.
    + rewrite lookup_insert. case_decide; [done|]. rewrite <- Hp. unfold point. by rewrite <- Hd, Hb.
    + rewrite decide_False; [apply Hp|]. intros ->. done.
  - intros q. rewrite tomb_update. simpl. case_decide as Hd; [|apply Ht]. rewrite <- Ht. unfold tomb. by rewrite <- Hd, Hb.
Qed.
Lemma tombstone_shows key ts tx m x b : shows m x -> 0 <= ts < 2 ^ 63 - 1 -> BucketManager.buckets m !! (ts / bs) = Some b ->
  exists b', TimeBucket.add_tombstone key ts tx b = Ok b' /\
    shows (BucketManager.update (ts / bs) b' m) (mkSpec (s_points x) (<[ts := mkTombstone key ts tx None]> (s_tombstones x))).
Proof.
  intros Hs Hts Hb. pose proof Hs as [Hok Hp Ht]. pose proof (m_buckets _ Hok _ _ Hb) as Hbo. eexists. split.
  { unfold TimeBucket.add_tombstone. by rewrite (bucket_contains_ok _ _ _ Hbo Hts eq_refl). }
  constructor.
  - apply update_ok; [done|eapply m_ids; [done|by eexists]|]. destruct Hbo. constructor; try done. simpl.
    intros q [<-|[_ Hq]]%lookup_insert_is_Some; [split; [lia|done]|by apply b_tombstones0].
  - intros q. rewrite point_update. simpl. case_decide as Hd; [|apply Hp]. rewrite <- Hp. unfold point. by rewrite <- Hd, Hb.
  - intros q. rewrite tomb_update. simpl. rewrite (lookup_insert (s_tombstones x)). case_decide as Hd.
    + rewrite lookup_insert. case_decide; [done|]. rewrite <- Ht. unfold tomb. by rewrite <- Hd, Hb.
    + rewrite decide_False; [apply Ht|]. intros ->. done.
Qed.
(** A change of every bucket, value by value. *)
Lemma map_shows f g h m x : shows m x ->
  (forall b, TimeBucket.start_ts (f b) = TimeBucket.start_ts b /\ TimeBucket.end_ts (f b) = TimeBucket.end_ts b) ->
  (forall b ts, TimeBucket.points (f b) !! ts = TimeBucket.points b !! ts ≫= g) ->
  (forall b ts, TimeBucket.tombstones (f b) !! ts = TimeBucket.tombstones b !! ts ≫= h) ->
  shows (BucketManager.set_buckets (f <$> BucketManager.buckets m) m) (mkSpec (omap g (s_points x)) (omap h (s_tombstones x))).
Proof.
  intros [Hok Hp Ht] Hf Hg Hh. constructor.
  - destruct Hok. constructor; try done; simpl; intros i.
    + rewrite lookup_fmap, fmap_is_Some. apply m_ids0.
    + intros b [b0 [<- Hb0]]%lookup_fmap_Some. destruct (m_buckets0 i b0 Hb0). destruct (Hf b0) as [Hs He].
      constructor; rewrite ?Hs, ?He; try done; intros ts [y Hy].
      * rewrite Hg in Hy. apply bind_Some in Hy as (z & Hz & _). apply b_points0. by eexists.
      * rewrite Hh in Hy. apply bind_Some in Hy as (z & Hz & _). apply b_tombstones0. by eexists.
  - intros ts. simpl. rewrite lookup_omap, <- Hp. unfold point. simpl. rewrite lookup_fmap.
    destruct (BucketManager.buckets m !! (ts / bs)); simpl; [apply Hg|done].
  - intros ts. simpl. rewrite lookup_omap, <- Ht. unfold tomb. simpl. rewrite lookup_fmap.
    destruct (BucketManager.buckets m !! (ts / bs)); simpl; [apply Hh|done].
Qed.
Lemma shows_ext m x y : shows m x -> (forall ts, s_points x !! ts = s_points y !! ts) ->
  (forall ts, s_tombstones x !! ts = s_tombstones y !! ts) -> shows m y.
Proof. intros [] Hp Ht. constructor; [done|intros; by rewrite <- Hp|intros; by rewrite <- Ht]. Qed.

(** ** The table *)
Definition related (x : t) (a : gmap (list Z) spec) : Prop :=
  TimeSeriesConfig.bucket_size (config x) = bs /\
  forall key, match BTreeMap.get (series x) key, a !! key with
              | Some m, Some s => shows m s | None, None => True | _, _ => False end.

Lemma new_shows : shows (BucketManager.new bs MAX_BUCKETS) no_points.
Proof.
  constructor.
  - constructor; simpl; [done|done|done|..].
    + intros i [? Hi]. by rewrite lookup_empty in Hi.
    + intros i b Hi. by rewrite lookup_empty in Hi.
  - intros ts. unfold point. simpl. by rewrite !lookup_empty.
  - intros ts. unfold tomb. simpl. by rewrite !lookup_empty.
Qed.
Lemma on_series_ok {A} key (f : stateful (BucketManager.t * P) TableError A) x a p (Q : A -> spec -> Prop) :
  related x a ->
  (forall m, shows m (default no_points (a !! key)) -> exists r m' s', f (m, p) = (Ok r, (m', p)) /\ shows m' s' /\ Q r s') ->
  exists r x' s', on_series key f (x, p) = (Ok r, (x', p)) /\ related x' (<[key := s']> a) /\ Q r s'.
Proof.
  intros [Hbs Hrel] Hf. unfold on_series. rewrite Hbs.
  set (m0 := match BTreeMap.get (series x) key with Some m => m | None => _ end).
  assert (Hm0 : shows m0 (default no_points (a !! key))).
  { specialize (Hrel key). unfold m0. destruct (BTreeMap.get (series x) key), (a !! key); try done. apply new_shows. }
  destruct (Hf m0 Hm0) as (r & m1 & s1 & Hrun & Hs & Hq). rewrite Hrun. exists r. eexists. exists s1.
  split; [reflexivity|]. split; [|done]. split; [done|]. intros k. simpl. rewrite BTreeMap.get_insert.
  destruct (bytes_eqb k key) eqn:Hk.
  - apply bytes_eqb_true in Hk as ->. by rewrite lookup_insert_eq.
  - rewrite lookup_insert_ne; [apply Hrel|]. intros ->. by rewrite bytes_eqb_refl in Hk.
Qed.

Lemma mapped_related f g x a : related x a -> (forall m s, shows m s ->
    shows (BucketManager.set_buckets (f <$> BucketManager.buckets m) m) (g s)) -> related (map_buckets f x) (g <$> a).
Proof.
  intros [Hbs Hrel] Hf. split; [done|]. intros key. unfold map_buckets. simpl. rewrite BTreeMap.get_map_values, lookup_fmap.
  specialize (Hrel key). destruct (BTreeMap.get (series x) key), (a !! key); simpl; try done. by apply Hf.
Qed.

Lemma series_perform_ok now e x a p : related x a -> allowed e ->
  exists x', perform now e (x, p) = (Ok tt, (x', p)) /\ related x' (spec_step e a).
Proof.
  intros Hr Ha. destruct e as [key ts v tx|key ts tx|tx lsn|w]; simpl in Ha.
  - cbn [perform spec_step]. unfold append_point_tx.
    destruct (on_series_ok key (id ← BucketManager.get_or_create_bucket now ts; BucketManager.on_bucket id (TimeBucket.insert ts v tx))
      x a p (fun _ s => s = mkSpec (<[ts := pushed (s_points (default no_points (a !! key)) !! ts) v tx]>
        (s_points (default no_points (a !! key)))) (s_tombstones (default no_points (a !! key)))) Hr) as ([] & x' & s' & Hrun & Hrel & ->).
    { intros m Hm. destruct (get_bucket now m p _ ts Hm Ha) as (m1 & b & Hg & Hm1 & Hb & _).
      destruct (append_shows ts v tx m1 _ b Hm1 (proj1 Ha) Hb) as (b' & Hi & Hs). exists tt. eexists. eexists.
      unfold mbind, stateful_bind. rewrite Hg, (on_bucket_ok _ _ _ _ _ _ Hb Hi). split; [reflexivity|]. split; [exact Hs|done]. }
    unfold mbind at 1, stateful_bind at 1. rewrite Hrun. unfold modify. eexists. split; [reflexivity|].
    destruct Hrel as [Hbs Hrel]. split; [done|]. exact Hrel.
  - cbn [perform spec_step]. unfold add_tombstone.
    destruct (on_series_ok key (id ← BucketManager.get_or_create_bucket now ts; BucketManager.on_bucket id (TimeBucket.add_tombstone key ts tx))
      x a p (fun _ s => s = mkSpec (s_points (default no_points (a !! key)))
        (<[ts := mkTombstone key ts tx None]> (s_tombstones (default no_points (a !! key))))) Hr) as ([] & x' & s' & Hrun & Hrel & ->).
    { intros m Hm. destruct (get_bucket now m p _ ts Hm Ha) as (m1 & b & Hg & Hm1 & Hb & _).
      destruct (tombstone_shows key ts tx m1 _ b Hm1 (proj1 Ha) Hb) as (b' & Hi & Hs). exists tt. eexists. eexists.
      unfold mbind, stateful_bind. rewrite Hg, (on_bucket_ok _ _ _ _ _ _ Hb Hi). split; [reflexivity|]. split; [exact Hs|done]. }
    exists x'. by rewrite Hrun.
  - cbn [perform spec_step]. unfold modify. eexists. split; [reflexivity|]. apply mapped_related; [done|]. intros m s Hs.
    eapply shows_ext; [eapply (map_shows _ (fun c => Some (TimeBucket.commit_chain_recursive tx lsn c))
      (fun y => Some (TimeBucket.commit_tombstone tx lsn y)) m s Hs)|..].
    + done.
    + intros b ts. simpl. rewrite lookup_fmap. by destruct (_ !! ts).
    + intros b ts. simpl. rewrite lookup_fmap. by destruct (_ !! ts).
    + intros ts. simpl. rewrite lookup_omap, lookup_fmap. by destruct (_ !! ts).
    + intros ts. simpl. rewrite lookup_omap, lookup_fmap. by destruct (_ !! ts).
  - cbn [perform spec_step]. unfold modify. eexists. split; [reflexivity|]. apply mapped_related; [done|]. intros m s Hs.
    assert (Hfil : forall (l : gmap Z TimeSeriesTombstone) ts,
      filter (fun x : Z * TimeSeriesTombstone => TimeBucket.old_tombstone w x.2 = false) l !! ts
      = l !! ts ≫= fun y => if TimeBucket.old_tombstone w y then None else Some y).
    { intros l ts. rewrite map_lookup_filter. destruct (l !! ts) as [y|]; [|done]. simpl.
      case_guard as Hg; simpl in *; destruct (TimeBucket.old_tombstone w y); congruence. }
    eapply shows_ext; [eapply (map_shows _ (fun c => Some (VersionChain.vacuum c w).2)
      (fun y => if TimeBucket.old_tombstone w y then None else Some y) m s Hs)|..].
    + done.
    + intros b ts. simpl. rewrite lookup_fmap. by destruct (_ !! ts).
    + intros b ts. simpl. apply Hfil.
    + intros ts. simpl. rewrite lookup_omap, lookup_fmap. by destruct (_ !! ts).
    + intros ts. simpl. rewrite lookup_omap. symmetry. apply Hfil.
Qed.
Lemma series_perform_all_ok l : forall x a p, related x a -> Forall (fun e => allowed e.2) l ->
  exists x', perform_all l (x, p) = (Ok tt, (x', p)) /\ related x' (foldl (fun a e => spec_step e.2 a) a l).
Proof.
  induction l as [|[now e] l IH]; intros x a p Hr Hl; [by exists x|]. apply Forall_cons in Hl as [He Hl].
  destruct (series_perform_ok now e x a p Hr He) as (x1 & Hp & Hr1). cbn [perform_all foldl].
  unfold mbind, stateful_bind. rewrite Hp. by apply IH.
Qed.

(** ** Scans *)
Lemma ids_in_range m x start end_ : shows m x -> 0 <= start <= end_ -> exists l,
  BucketManager.get_bucket_ids_in_range start end_ m = Ok l /\ NoDup l /\
  forall i, i ∈ l <-> start / bs <= i <= end_ / bs /\ is_Some (BucketManager.buckets m !! i).
Proof.
  intros Hs Hse. unfold BucketManager.get_bucket_ids_in_range. rewrite (m_size _ (sh_ok _ _ Hs)), !from_ok by lia. simpl.
  pose proof (Z.div_le_mono start end_ bs ltac:(lia) ltac:(lia)). rewrite (proj2 (Z.ltb_ge _ _)) by lia.
  eexists. split; [reflexivity|]. split.
  - apply (NoDup_fmap_2_strong fst).
    + intros [i b] [i' b'] [_ H1']%list_elem_of_filter [_ H2']%list_elem_of_filter ?. simpl in *. subst.
      apply in_order_elem in H1', H2'. congruence.
    + apply NoDup_filter, in_order_nodup.
  - intros i. rewrite list_elem_of_fmap. split.
    + intros ([i' b] & -> & [Hr Hb]%list_elem_of_filter). apply in_order_elem in Hb. split; [exact Hr|by eexists].
    + intros [Hr [b Hb]]. exists (i, b). split; [done|]. apply list_elem_of_filter. split; [exact Hr|by apply in_order_elem].
Qed.
Lemma load_buckets_ok now p x l : forall m, shows m x -> (forall i, i ∈ l -> is_Some (BucketManager.buckets m !! i)) ->
  exists m', load_buckets now l (m, p) = (Ok tt, (m', p)) /\ shows m' x.
Proof.
  induction l as [|i l IH]; intros m Hs Hl; cbn [load_buckets]; [by exists m|].
  destruct (Hl i ltac:(by left)) as [b Hb]. pose proof (sh_ok _ _ Hs) as Hok. pose proof (m_buckets _ Hok i b Hb) as Hbo.
  destruct (b_range _ _ Hbo) as [Hi Hlt]. unfold gets, lift, mbind, stateful_bind. cbn [fst snd].
  rewrite (m_size _ Hok), start_ok by done.
  assert (Hdiv : i * bs / bs = i) by (apply Z.div_mul; lia).
  destruct (get_bucket now m p x (i * bs) Hs) as (m1 & b1 & Hg & Hs1 & Hb1 & Hdom).
  { split; [nia|]. rewrite Hdiv. eapply m_ids; [done|by eexists]. }
  rewrite Hg. apply IH; [done|]. intros j Hj. apply Hdom. right. apply Hl. by right.
Qed.

(** What a scan takes from one bucket. *)
Definition part (start end_ : Z) (s : Snapshot.t) (m : BucketManager.t) (i : Z) : list (Z * bytes) :=
  match BucketManager.buckets m !! i with
  | Some b => omap (TimeBucket.visible_at s b) (filter (fun y => start <= y.1 < end_) (in_order (TimeBucket.points b)))
  | None => []
  end.
Lemma series_collect_ok start end_ s m l : start <= end_ -> collect start end_ s l m = Ok (concat (map (part start end_ s m) l)).
Proof.
  intros Hse. induction l as [|i l IH]; [done|]. cbn [collect map concat]. rewrite IH.
  assert (Hpart : match BucketManager.buckets m !! i with Some b => TimeBucket.range start end_ s b | None => Ok [] end
    = Ok (part start end_ s m i)).
  { unfold part. destruct (BucketManager.buckets m !! i) as [b|]; [|done]. unfold TimeBucket.range.
    by rewrite (proj2 (Z.ltb_ge _ _)) by lia. }
  by rewrite Hpart.
Qed.
Lemma visible_key s b x y : TimeBucket.visible_at s b x = Some y -> y.1 = x.1.
Proof. unfold TimeBucket.visible_at. destruct (TimeBucket.is_tombstoned _ _ _); [done|]. destruct (VersionChain.find_visible_inline _ _); [|done]. by intros [= <-]. Qed.
Lemma sees_key s sp x y : spec_sees s sp x = Some y -> y.1 = x.1.
Proof. unfold spec_sees. destruct (match s_tombstones sp !! x.1 with Some _ => _ | None => _ end); [done|]. destruct (VersionChain.find_visible_inline _ _); [|done]. by intros [= <-]. Qed.

Section Scan.
Variables (m : BucketManager.t) (sp : spec) (s : Snapshot.t) (start end_ : Z).
Hypothesis Hs : shows m sp.
Hypothesis Hse : 0 <= start <= end_.

Lemma visible_spec i b ts c : BucketManager.buckets m !! i = Some b -> ts / bs = i ->
  TimeBucket.visible_at s b (ts, c) = spec_sees s sp (ts, c).
Proof.
  intros Hb Hi. unfold TimeBucket.visible_at, spec_sees, TimeBucket.is_tombstoned. cbn [fst snd].
  rewrite <- (sh_tombstones _ _ Hs ts). unfold tomb. by rewrite Hi, Hb.
Qed.
Lemma part_elem i y : y ∈ part start end_ s m i <-> exists ts c, ts / bs = i /\ start <= ts < end_ /\
  s_points sp !! ts = Some c /\ spec_sees s sp (ts, c) = Some y.
Proof.
  unfold part. split.
  - destruct (BucketManager.buckets m !! i) as [b|] eqn:Hb; [|by intros ?%elem_of_nil].
    intros ([ts c] & [Hr Hin]%list_elem_of_filter & Hv)%list_elem_of_omap. apply in_order_elem in Hin.
    destruct (b_points _ _ (m_buckets _ (sh_ok _ _ Hs) i b Hb) ts ltac:(by eexists)) as [_ Hdiv].
    exists ts, c. split; [done|]. split; [exact Hr|]. split; [|by rewrite <- (visible_spec i b ts c Hb Hdiv)].
    rewrite <- (sh_points _ _ Hs). unfold point. by rewrite Hdiv, Hb.
  - intros (ts & c & Hdiv & Hr & Hc & Hv). rewrite <- (sh_points _ _ Hs) in Hc. unfold point in Hc. rewrite Hdiv in Hc.
    destruct (BucketManager.buckets m !! i) as [b|] eqn:Hb; [|done]. simpl in Hc. apply list_elem_of_omap.
    exists (ts, c). split; [|by rewrite (visible_spec i b ts c Hb Hdiv)]. apply list_elem_of_filter.
    split; [exact Hr|by apply in_order_elem].
Qed.
Lemma part_nodup i : NoDup (part start end_ s m i).
Proof.
  unfold part. destruct (BucketManager.buckets m !! i) as [b|]; [|constructor]. apply nodup_omap; [apply visible_key|].
  apply (NoDup_fmap_2_strong fst).
  - intros [k c] [k' c'] [_ H1']%list_elem_of_filter [_ H2']%list_elem_of_filter ?. simpl in *. subst.
    apply in_order_elem in H1', H2'. congruence.
  - apply NoDup_filter, in_order_nodup.
Qed.
Lemma parts_nodup l : NoDup l -> NoDup (concat (map (part start end_ s m) l)).
Proof.
  induction l as [|i l IH]; intros Hl; [constructor|]. apply NoDup_cons in Hl as [Hi Hl]. simpl. apply NoDup_app.
  split; [apply part_nodup|]. split; [|by apply IH]. intros y Hy Hin. apply elem_concat in Hin as (k & Hyk & Hk).
  apply list_elem_of_fmap in Hk as (j & -> & Hj). apply part_elem in Hy as (ts & c & <- & _ & _ & Hv).
  apply part_elem in Hyk as (ts' & c' & <- & _ & _ & Hv'). apply Hi. apply sees_key in Hv, Hv'. simpl in *. by rewrite <- Hv, Hv'.
Qed.
Lemma scan_equal l : NoDup l -> (forall i, i ∈ l <-> start / bs <= i <= end_ / bs /\ is_Some (BucketManager.buckets m !! i)) ->
  merge_sort by_key (concat (map (part start end_ s m) l)) = spec_scan start end_ s sp.
Proof.
  intros Hl Hin.
  assert (Hspec : forall y, y ∈ spec_scan start end_ s sp <-> exists ts c, start <= ts < end_ /\
    s_points sp !! ts = Some c /\ spec_sees s sp (ts, c) = Some y).
  { intros y. unfold spec_scan. rewrite list_elem_of_omap. split.
    - intros ([ts c] & [Hr Hc]%list_elem_of_filter & Hv). apply in_order_elem in Hc. by exists ts, c.
    - intros (ts & c & Hr & Hc & Hv). exists (ts, c). split; [|done]. apply list_elem_of_filter.
      split; [exact Hr|by apply in_order_elem]. }
  assert (Hsame : forall y, y ∈ merge_sort by_key (concat (map (part start end_ s m) l)) <-> y ∈ spec_scan start end_ s sp).
  { intros y. rewrite merge_sort_Permutation, Hspec, elem_concat. split.
    - intros (k & Hy & Hk). apply list_elem_of_fmap in Hk as (i & -> & _). apply part_elem in Hy as (ts & c & _ & Hy).
      by exists ts, c.
    - intros (ts & c & Hr & Hc & Hv). exists (part start end_ s m (ts / bs)). split; [by apply part_elem; exists ts, c|].
      apply list_elem_of_fmap_2, Hin. split; [split; apply Z.div_le_mono; lia|].
      rewrite <- (sh_points _ _ Hs) in Hc. unfold point in Hc. destruct (BucketManager.buckets m !! (ts / bs)); [by eexists|done]. }
  apply sorted_eq; [| | | |exact Hsame|].
  - apply StronglySorted_merge_sort; apply _.
  - apply sorted_omap; [apply sees_key|]. apply StronglySorted_filter, in_order_sorted.
  - rewrite merge_sort_Permutation. by apply parts_nodup.
  - apply nodup_omap; [apply sees_key|]. apply (NoDup_fmap_2_strong fst).
    + intros [k c] [k' c'] [_ H1']%list_elem_of_filter [_ H2']%list_elem_of_filter ?. simpl in *. subst.
      apply in_order_elem in H1', H2'. congruence.
    + apply NoDup_filter, in_order_nodup.
  - intros y y' Hy Hy' Heq. apply Hsame, Hspec in Hy as (ts & c & _ & Hc & Hv). apply Hsame, Hspec in Hy' as (ts' & c' & _ & Hc' & Hv').
    pose proof (sees_key _ _ _ _ Hv) as Hk. pose proof (sees_key _ _ _ _ Hv') as Hk'. simpl in *.
    assert (ts = ts') as -> by congruence. rewrite Hc in Hc'. injection Hc' as ->. congruence.
Qed.
End Scan.

Lemma scan_ok now key start end_ s x a (p : P) : related x a -> 0 <= start <= end_ ->
  exists c x', scan_series_snapshot now key start end_ s (x, p) = (Ok c, (x', p)) /\ related x' a /\
    c_points c = spec_scan start end_ s (default no_points (a !! key)) /\ c_position c = 0.
Proof.
  intros Hr Hse. unfold scan_series_snapshot, gets, lift, mret, stateful_ret. unfold mbind, stateful_bind. cbn [fst snd].
  pose proof Hr as [Hbs Hrel]. pose proof (Hrel key) as Hkey.
  destruct (BTreeMap.get (series x) key) as [m|] eqn:Hm, (a !! key) as [sp|] eqn:Hsp; try done.
  - destruct (on_series_ok key (fun s0 => let (o, s') := (Ok s0.1, s0) in
        match o with
        | Ok a0 => match BucketManager.get_bucket_ids_in_range start end_ a0 with
                   | Ok a1 => load_buckets now a1 s' | Err e => (Err e, s') | Panic => (Panic, s') end
        | Err e => (Err e, s') | Panic => (Panic, s') end) x a p (fun _ sp' => sp' = sp) Hr)
      as ([] & x' & ? & Hrun & Hrel' & ->).
    { rewrite Hsp. simpl. intros m0 Hm0. destruct (ids_in_range m0 sp start end_ Hm0 Hse) as (l & Hl & _ & Hin).
      rewrite Hl. destruct (load_buckets_ok now p sp l m0 Hm0) as (m1 & Hload & Hs1); [by intros i [_ Hi]%Hin|].
      exists tt, m1, sp. by rewrite Hload. }
    unfold on_series in *. rewrite Hrun. cbn [fst snd]. rewrite (insert_id a key sp Hsp) in Hrel'.
    pose proof (proj2 Hrel' key) as Hkey'. rewrite Hsp in Hkey'.
    destruct (BTreeMap.get (series x') key) as [m'|]; [|done].
    destruct (ids_in_range m' sp start end_ Hkey' Hse) as (l & Hl & Hnd & Hin). rewrite Hl. simpl.
    rewrite (series_collect_ok start end_ s m' l) by lia. eexists _, x'. split; [reflexivity|]. split; [done|]. split; [|done].
    by apply scan_equal.
  - cbn [fst snd]. rewrite Hm. eexists _, x. split; [reflexivity|]. done.
Qed.
End Laws.

(** C7: a time series table is a map from series and timestamps to version
    chains.  Any sequence of appends, rollbacks, commits and vacuums on a new
    table succeeds as long as timestamps are not negative and fall into at
    most a hundred buckets, and after it a scan from [start] to [end] returns
    for every series and snapshot, in order of time, exactly the points in
    that range that the snapshot sees and no rolled-back one. *)
Theorem series_refines `{PostcardCodec} {P : Type} `{PageStore P} (ids : gset Z) (l : list (Z * event)) (x : t) (p : P)
    (Hbs : 0 < TimeSeriesConfig.bucket_size (config x) < 2 ^ 63) (Hnew : series x = [])
    (Hids : Z.of_nat (size ids) <= MAX_BUCKETS)
    (Hl : Forall (fun e => allowed (TimeSeriesConfig.bucket_size (config x)) ids e.2) l) :
  exists x', perform_all l (x, p) = (Ok tt, (x', p)) /\
    forall now key start end_ s, 0 <= start <= end_ ->
      exists c x2, scan_series_snapshot now key start end_ s (x', p) = (Ok c, (x2, p)) /\
        c_points c = spec_scan start end_ s (default no_points (foldl (fun a e => spec_step e.2 a) ∅ l !! key)).
Proof.
  assert (Hr : related (TimeSeriesConfig.bucket_size (config x)) ids x ∅).
  { split; [done|]. intros key. by rewrite Hnew, lookup_empty. }
  destruct (series_perform_all_ok _ Hbs ids Hids l x ∅ p Hr Hl) as (x' & Hrun & Hr'). exists x'. split; [done|].
  intros now key start end_ s Hse. destruct (scan_ok _ Hbs ids Hids now key start end_ s x' _ p Hr' Hse) as (c & x2 & Hc & _ & Hp & _).
  by exists c, x2.
Qed.
End TimeSeriesLaws.

(** ** Concrete tables *)
Module TimeSeriesSample.
Import TimeSeriesLaws TimeSeriesTable.
(** Points with one committed value are written to a page. *)
#[export] Instance sample_codec : PostcardCodec := {|
  chain_to c := match c with VersionChain.mk (VersionValue.Inline d) tx (Some lsn) None => Some (tx :: lsn :: d) | _ => None end;
  chain_from bs := match bs with tx :: lsn :: d => Some (VersionChain.mk (VersionValue.Inline d) tx (Some lsn) None) | _ => None end;
  tombstone_to _ := None; tombstone_from _ := None; entries_to _ := Some []; entries_from _ := None |}.
Definition empty : t := mk 1 "series" TimeSeriesConfig.default 2 [] 0 0.
Definition points_of {E S} (r : outcome E Cursor * S) : option (list (Z * bytes)) :=
  match r.1 with Ok c => Some (c_points c) | _ => None end.

(** A point before the epoch is refused: its bucket is far in the future. *)
Example before_the_epoch :
  (append_point_tx 0 [65] (-1) [1] 7 (empty, MemoryPages.new)).1 = Err TimeBucket.outside.
Proof. vm_compute. reflexivity. Qed.
(** A scan that begins before the epoch panics. *)
Example scan_from_before :
  (scan_series 0 [65] (-1) 10 (let '(_, s) := append_point_tx 0 [65] 5 [1] 7 (empty, MemoryPages.new) in s)).1 = Panic.
Proof. vm_compute. reflexivity. Qed.
(** Two buckets where one fits in memory: the first is evicted with its
    point, which the scan does not find. *)
Definition small : t := mk 1 "series" TimeSeriesConfig.default 2 [([65], BucketManager.new 3600 1)] 0 0.
Definition evicted : outcome TableError unit * (t * MemoryPages.t) :=
  (_ ← append_point_tx 0 [65] 5 [1] 7;
   _ ← modify (fun s => (commit_versions 7 3 s.1, s.2));
   append_point_tx 1 [65] 4000 [2] 7) (small, MemoryPages.new).
Example evicted_point_lost : evicted.1 = Ok tt /\ points_of (scan_series 2 [65] 0 3000 evicted.2) = Some [] /\
  MemoryPages.pages evicted.2.2 !! 2 <> None.
Proof. vm_compute. split; [done|]. split; [done|]. discriminate. Qed.
End TimeSeriesSample.
Import TimeSeriesSample.

Lemma series_refines_witness :
  exists x' c x2, TimeSeriesLaws.perform_all [(0, TimeSeriesLaws.Append [65] 5 [1] 7); (1, TimeSeriesLaws.Append [65] 4000 [2] 8);
      (2, TimeSeriesLaws.Commit 7 3)] (empty, MemoryPages.new) = (Ok tt, (x', MemoryPages.new)) /\
    TimeSeriesTable.scan_series_snapshot 9 [65] 0 9000 TimeSeriesTable.everything (x', MemoryPages.new) = (Ok c, (x2, MemoryPages.new)) /\
    TimeSeriesTable.c_points c = [(5, [1])].
Proof.
  destruct (TimeSeriesLaws.series_refines {[0; 1]} [(0, TimeSeriesLaws.Append [65] 5 [1] 7); (1, TimeSeriesLaws.Append [65] 4000 [2] 8);
      (2, TimeSeriesLaws.Commit 7 3)] empty MemoryPages.new) as (x' & Hrun & Hscan).
  - vm_compute. done.
  - reflexivity.
  - vm_compute. discriminate.
  - repeat constructor; try (vm_compute; done); simpl; set_solver.
  - destruct (Hscan 9 [65] 0 9000 TimeSeriesTable.everything) as (c & x2 & Hc & Hp); [lia|].
    exists x', c, x2. split; [exact Hrun|]. split; [exact Hc|]. rewrite Hp. vm_compute. reflexivity.
Defined.
