(* ===== verification/Bloom.v ===== *)
(** * Bloom filters ([src/table/bloom])

    [BloomFilter] (memory.rs) keeps its bits in a vector, [PagedBloomFilter]
    (paged.rs) over pages of a [PageStore]; both derive the positions of a key
    from the same two hashes.  [BloomTombstoneSet] (tombstone.rs) records keys
    whose insertion was rolled back.  The floating-point estimate of the
    number of hash functions is an argument. *)
From S2P Require Import Prelude Types MemTables Mvcc Page PageStore.

(** ** Hashing *)
Module BloomHash.
Definition fnv_step (h byte : Z) : Z := as_u64 (Z.lxor h byte * 0x100000001b3).
Definition mul_step (h byte : Z) : Z := as_u64 (as_u64 (h * 31) + byte).
Definition hash_key (key : bytes) : Z * Z := (foldl fnv_step 0xcbf29ce484222325 key, foldl mul_step 0 key).
(** [hash % num_bits]: division by zero panics. *)
Definition get_bit_position {E} (num_bits h1 h2 i : Z) : outcome E Z :=
  let hash := as_u64 (h1 + as_u64 (i * h2)) in
  if num_bits =? 0 then Panic else Ok (hash mod num_bits).

(** A bit of a vector of bytes. *)
Definition set_bit {E} (pos : Z) (bits : bytes) : outcome E bytes :=
  b ← index (pos / 8) bits; Ok (<[Z.to_nat (pos / 8) := Z.lor b (Z.shiftl 1 (pos mod 8))]> bits).
Definition get_bit {E} (pos : Z) (bits : bytes) : outcome E bool :=
  b ← index (pos / 8) bits; Ok (negb (Z.land b (Z.shiftl 1 (pos mod 8)) =? 0)).
#[global] Arguments hash_key : simpl never.
End BloomHash.

(** ** The filter in memory *)
Module BloomFilter.
Import BloomHash.

Record t : Type := mk { bits : bytes; num_bits : Z; num_hash_functions : Z; num_items : Z }.

Definition div_ceil (a b : Z) : Z := (a + b - 1) / b.
(** [optimal bits_per_key] is [ceil(bits_per_key * 0.693)]. *)
Definition new (optimal : Z -> Z) (num_items bits_per_key : Z) (num_hash_functions : option Z) : t :=
  let num_bits := as_u64 (num_items * bits_per_key) in
  mk (replicate (Z.to_nat (div_ceil num_bits 8)) 0) num_bits (default (optimal bits_per_key) num_hash_functions) 0.
Definition from_bytes (bits : bytes) (num_hash_functions : Z) : t := mk bits (zlen bits * 8) num_hash_functions 0.
Definition from_bytes_with_size (bits : bytes) (num_bits num_hash_functions : Z) : t :=
  mk bits num_bits num_hash_functions 0.
Definition as_bytes (f : t) : bytes := bits f.
Definition clear (f : t) : t := mk (replicate (length (bits f)) 0) (num_bits f) (num_hash_functions f) 0.

Section Filter.
Context {E : Type}.
Fixpoint insert_loop (num_bits h1 h2 : Z) (l : list Z) (bits : bytes) : outcome E bytes :=
  match l with
  | [] => Ok bits
  | i :: l =>
      bit_pos ← get_bit_position num_bits h1 h2 i;
      bits ← set_bit bit_pos bits;
      insert_loop num_bits h1 h2 l bits
  end.
Definition insert (key : bytes) (f : t) : outcome E t :=
  let '(h1, h2) := hash_key key in
  bits ← insert_loop (num_bits f) h1 h2 (seqZ 0 (num_hash_functions f)) (bits f);
  Ok (mk bits (num_bits f) (num_hash_functions f) (num_items f + 1)).

Fixpoint contains_loop (num_bits h1 h2 : Z) (l : list Z) (bits : bytes) : outcome E bool :=
  match l with
  | [] => Ok true
  | i :: l =>
      bit_pos ← get_bit_position num_bits h1 h2 i;
      b ← get_bit bit_pos bits;
      if b : bool then contains_loop num_bits h1 h2 l bits else Ok false
  end.
Definition contains (key : bytes) (f : t) : outcome E bool :=
  let '(h1, h2) := hash_key key in contains_loop (num_bits f) h1 h2 (seqZ 0 (num_hash_functions f)) (bits f).

(** Insertions one after the other. *)
Fixpoint insert_all (keys : list bytes) (f : t) : outcome E t :=
  match keys with [] => Ok f | k :: keys => f ← insert k f; insert_all keys f end.
End Filter.

(** The number of errors [verify] reports. *)
Definition verify (f : t) : Z := if zlen (bits f) =? div_ceil (num_bits f) 8 then 0 else 1.

(** [BloomFilterBuilder]; [bits_for rate] is the floating-point estimate. *)
Record Builder : Type := mkBuilder { b_num_items : Z; b_bits_per_key : Z; b_hash_functions : option Z }.
Definition builder (num_items : Z) : Builder := mkBuilder num_items 10 None.
Definition with_bits_per_key (n : Z) (b : Builder) : Builder := mkBuilder (b_num_items b) n (b_hash_functions b).
Definition with_hash_functions (n : Z) (b : Builder) : Builder := mkBuilder (b_num_items b) (b_bits_per_key b) (Some n).
Definition build (optimal : Z -> Z) (b : Builder) : t := new optimal (b_num_items b) (b_bits_per_key b) (b_hash_functions b).
End BloomFilter.

(** ** Tombstones of rolled-back insertions *)
Module BloomTombstoneSet.
(** Key, transaction, LSN of the commit. *)
Definition BloomTombstone : Type := bytes * TransactionId * option LogSequenceNumber.
Definition tombstone (key : bytes) (tx : TransactionId) : BloomTombstone := (key, tx, None).
Definition is_visible (s : Snapshot.t) (t : BloomTombstone) : bool :=
  match t.2 with Some lsn => lsn <=? Snapshot.lsn s | None => false end.
Definition t : Type := gset BloomTombstone.
Definition new : t := ∅.
Definition add (key : bytes) (tx : TransactionId) (s : t) : t := {[tombstone key tx]} ∪ s.
Definition is_tombstoned (key : bytes) (snap : Snapshot.t) (s : t) : bool :=
  existsb (fun t => bool_decide (t.1.1 = key) && is_visible snap t) (elements s).
Definition commit_one (tx : TransactionId) (lsn : LogSequenceNumber) (t : BloomTombstone) : BloomTombstone :=
  if (t.1.2 =? tx) && bool_decide (t.2 = None) then (t.1, Some lsn) else t.
Definition commit_tombstones (tx : TransactionId) (lsn : LogSequenceNumber) (s : t) : t := set_map (commit_one tx lsn) s.
Definition kept (m : LogSequenceNumber) (t : BloomTombstone) : bool :=
  match t.2 with Some lsn => m <? lsn | None => true end.
(** The number removed and the set left. *)
Definition vacuum (m : LogSequenceNumber) (s : t) : Z * t :=
  let s' : t := filter (fun t => kept m t = true) s in (Z.of_nat (size s) - Z.of_nat (size s'), s').
Definition len (s : t) : Z := Z.of_nat (size s).
Definition clear (_ : t) : t := ∅.
End BloomTombstoneSet.

(** ** The filter over pages *)
Module PagedBloomFilter.
Import BloomHash.

Record t : Type := mk {
  table_id : TableId; name : string; root_page_id : PageId;
  num_bits : Z; num_hash_functions : Z; num_items : Z;
  bitmap_pages : list PageId; bits_per_page : Z; tombstones : BloomTombstoneSet.t }.
Definition set_num_items (n : Z) (f : t) : t :=
  mk (table_id f) (name f) (root_page_id f) (num_bits f) (num_hash_functions f) n (bitmap_pages f) (bits_per_page f) (tombstones f).
Definition set_tombstones (s : BloomTombstoneSet.t) (f : t) : t :=
  mk (table_id f) (name f) (root_page_id f) (num_bits f) (num_hash_functions f) (num_items f) (bitmap_pages f) (bits_per_page f) s.

Definition BLOOM_MAGIC : Z := 0x424C4F4D.
Definition BLOOM_VERSION : Z := 1.
(** [size_of::<BloomFilterMetadata>()] with [repr(C)]. *)
Definition METADATA_SIZE : Z := 72.
(** The fields at their offsets; [pad] and [pad'] are the bytes the compiler
    leaves between and behind them. *)
Definition metadata_bytes (pad pad' : bytes) (f : t) : bytes :=
  to_le_bytes 4 BLOOM_MAGIC ++ to_le_bytes 4 BLOOM_VERSION ++ to_le_bytes 8 (num_bits f)
  ++ to_le_bytes 4 (as_u32 (num_hash_functions f)) ++ pad ++ to_le_bytes 8 (num_items f)
  ++ to_le_bytes 4 (as_u32 (zlen (bitmap_pages f))) ++ replicate 32 0 ++ pad'.
(** [data[off..off + l.len()].copy_from_slice(&l)]. *)
Definition copy_at {E} (off : Z) (l data : bytes) : outcome E bytes :=
  a ← slice 0 off data; b ← slice (off + zlen l) (zlen data) data; Ok (a ++ l ++ b).
Fixpoint copy_ids {E} (off : Z) (ids : list PageId) (data : bytes) : outcome E bytes :=
  match ids with
  | [] => Ok data
  | p :: ids => data ← copy_at off (to_le_bytes 8 p) data; copy_ids (off + 8) ids data
  end.

Section Paged.
Context {P : Type} `{PageStore P}.
Abbreviation M := (stateful P TableError).
Variables pad pad' : bytes.

Definition on_pager {A} (m : stateful P PagerError A) : M A := fun p =>
  let '(r, p') := m p in (match r with Ok a => Ok a | Err e => Err (TablePager e) | Panic => Panic end, p').

Definition write_metadata (f : t) : M unit := fun p =>
  (data ← lift (copy_at 0 (metadata_bytes pad pad' f) (replicate (Z.to_nat (data_size p)) 0));
   data ← lift (copy_ids METADATA_SIZE (bitmap_pages f) data);
   on_pager (write_page (root_page_id f) PageType.BloomMeta data)) p.

(** [n] pages of zeros. *)
Fixpoint allocate_bitmap (n : nat) : M (list PageId) :=
  match n with
  | O => mret []
  | S n =>
      page_id ← on_pager (allocate_page PageType.BloomData);
      size ← gets data_size;
      _ ← on_pager (write_page page_id PageType.BloomData (replicate (Z.to_nat size) 0));
      l ← allocate_bitmap n;
      mret (page_id :: l)
  end.
Definition new (optimal : Z -> Z) (table_id : TableId) (name : string) (num_items bits_per_key : Z)
    (num_hash_functions : option Z) : M t :=
  let num_bits := as_u64 (num_items * bits_per_key) in
  root ← on_pager (allocate_page PageType.BloomMeta);
  size ← gets data_size;
  let bits_per_page := size * 8 in
  pages ← allocate_bitmap (Z.to_nat (BloomFilter.div_ceil num_bits bits_per_page));
  let f := mk table_id name root num_bits (default (optimal bits_per_key) num_hash_functions) 0 pages bits_per_page
             BloomTombstoneSet.new in
  _ ← write_metadata f;
  mret f.

Fixpoint read_ids (n : nat) (off : Z) (data : bytes) : outcome TableError (list PageId) :=
  match n with
  | O => Ok []
  | S n => p ← get_le 8 off data; l ← read_ids n (off + 8) data; Ok (p :: l)
  end.
(** A page shorter than the metadata is read beyond its end: undefined, shown
    as [Panic]. *)
Definition open (table_id : TableId) (name : string) (root : PageId) : M t :=
  data ← on_pager (read_page root);
  _ ← lift (slice 0 METADATA_SIZE data);
  magic ← lift (get_le 4 0 data);
  _ ← lift (ensure (magic =? BLOOM_MAGIC) (Corruption "bloom_filter_metadata" "invalid_magic"));
  version ← lift (get_le 4 4 data);
  _ ← lift (ensure (version =? BLOOM_VERSION) (InvalidFormatVersion version));
  num_bits ← lift (get_le 8 8 data);
  num_hash_functions ← lift (get_le 4 16 data);
  num_items ← lift (get_le 8 24 data);
  num_bitmap_pages ← lift (get_le 4 32 data);
  size ← gets data_size;
  pages ← lift (read_ids (Z.to_nat num_bitmap_pages) METADATA_SIZE data);
  mret (mk table_id name root num_bits num_hash_functions num_items pages (size * 8) BloomTombstoneSet.new).

Definition set_page_bit (f : t) (pos : Z) : M unit :=
  let bit_in_page := pos mod bits_per_page f in
  page_id ← lift (index (pos / bits_per_page f) (bitmap_pages f));
  data ← on_pager (read_page page_id);
  size ← gets data_size;
  let data := if zlen data <=? bit_in_page / 8 then resize size 0 data else data in
  data ← lift (set_bit bit_in_page data);
  on_pager (write_page page_id PageType.BloomData data).
Definition get_page_bit (f : t) (pos : Z) : M bool :=
  let bit_in_page := pos mod bits_per_page f in
  page_id ← lift (index (pos / bits_per_page f) (bitmap_pages f));
  data ← on_pager (read_page page_id);
  lift (get_bit bit_in_page data).

Fixpoint insert_loop (f : t) (h1 h2 : Z) (l : list Z) : M unit :=
  match l with
  | [] => mret tt
  | i :: l =>
      bit_pos ← lift (get_bit_position (num_bits f) h1 h2 i);
      _ ← set_page_bit f bit_pos;
      insert_loop f h1 h2 l
  end.
(** The calls that change the filter too. *)
Definition on_store {A} (m : M A) : stateful (t * P) TableError A := fun '(f, p) => let '(r, p') := m p in (r, (f, p')).
Definition upd_filter (g : t -> t) : stateful (t * P) TableError unit := modify (fun s => (g s.1, s.2)).
Definition insert (key : bytes) : stateful (t * P) TableError unit :=
  f ← gets fst;
  let '(h1, h2) := hash_key key in
  _ ← on_store (insert_loop f h1 h2 (seqZ 0 (num_hash_functions f)));
  _ ← upd_filter (fun f => set_num_items (num_items f + 1) f);
  f ← gets fst;
  on_store (write_metadata f).

Fixpoint contains_loop (f : t) (h1 h2 : Z) (l : list Z) : M bool :=
  match l with
  | [] => mret true
  | i :: l =>
      bit_pos ← lift (get_bit_position (num_bits f) h1 h2 i);
      b ← get_page_bit f bit_pos;
      if b : bool then contains_loop f h1 h2 l else mret false
  end.
Definition contains (key : bytes) (f : t) : M bool :=
  let '(h1, h2) := hash_key key in contains_loop f h1 h2 (seqZ 0 (num_hash_functions f)).

Fixpoint clear_pages (l : list PageId) : M unit :=
  match l with
  | [] => mret tt
  | page_id :: l =>
      size ← gets data_size;
      _ ← on_pager (write_page page_id PageType.BloomData (replicate (Z.to_nat size) 0));
      clear_pages l
  end.
Definition clear : stateful (t * P) TableError unit :=
  f ← gets fst;
  _ ← on_store (clear_pages (bitmap_pages f));
  _ ← upd_filter (set_num_items 0);
  f ← gets fst;
  on_store (write_metadata f).

Definition add_tombstone (key : bytes) (tx : TransactionId) (f : t) : t :=
  set_tombstones (BloomTombstoneSet.add key tx (tombstones f)) f.
Definition commit_tombstones (tx : TransactionId) (lsn : LogSequenceNumber) (f : t) : t :=
  set_tombstones (BloomTombstoneSet.commit_tombstones tx lsn (tombstones f)) f.
Definition is_tombstoned (key : bytes) (s : Snapshot.t) (f : t) : bool :=
  BloomTombstoneSet.is_tombstoned key s (tombstones f).
Definition vacuum_tombstones (m : LogSequenceNumber) (f : t) : Z * t :=
  let '(n, s) := BloomTombstoneSet.vacuum m (tombstones f) in (n, set_tombstones s f).
Definition tombstone_count (f : t) : Z := BloomTombstoneSet.len (tombstones f).
(** The number of errors [verify] reports. *)
Definition verify (f : t) : Z :=
  if zlen (bitmap_pages f) =? BloomFilter.div_ceil (num_bits f) (bits_per_page f) then 0 else 1.

Fixpoint insert_all (keys : list bytes) : stateful (t * P) TableError unit :=
  match keys with [] => mret tt | k :: keys => _ ← insert k; insert_all keys end.
End Paged.
End PagedBloomFilter.
