(* ===== verification/BloomLaws.v ===== *)
(** * What Bloom filters promise

    A filter is a set of positions: a key is reported present exactly when
    all its positions were set by inserted keys, so no inserted key is ever
    reported absent.  The filter over pages gives the same answers as the one
    in memory, also after it is opened again. *)
From S2P Require Import Prelude Types MemTables Mvcc Page PageStore Bloom.
Import BloomHash.

(** ** Bits of a vector *)
Definition bit (bits : bytes) (pos : Z) : bool := Z.testbit (default 0 (bits !! Z.to_nat (pos / 8))) (pos mod 8).

Lemma land_bit b i : 0 <= i -> negb (Z.land b (Z.shiftl 1 i) =? 0) = Z.testbit b i.
Proof.
  intros Hi. rewrite Z.shiftl_1_l. destruct (Z.testbit b i) eqn:Hb.
  - destruct (Z.eqb_spec (Z.land b (2 ^ i)) 0) as [H0|]; [|done].
    apply (f_equal (fun x => Z.testbit x i)) in H0. by rewrite Z.land_spec, Z.pow2_bits_true, Hb, Z.bits_0 in H0.
  - assert (Z.land b (2 ^ i) = 0) as ->; [|done]. apply Z.bits_inj'. intros n Hn. rewrite Z.land_spec, Z.bits_0.
    destruct (decide (n = i)) as [->|]; [by rewrite Hb|]. by rewrite Z.pow2_bits_false, andb_false_r by done.
Qed.
Lemma lor_bit b i j : 0 <= i -> 0 <= j -> Z.testbit (Z.lor b (Z.shiftl 1 i)) j = (j =? i) || Z.testbit b j.
Proof.
  intros Hi Hj. rewrite Z.lor_spec, Z.shiftl_1_l, orb_comm. f_equal. destruct (Z.eqb_spec j i) as [->|].
  - by apply Z.pow2_bits_true.
  - by apply Z.pow2_bits_false.
Qed.

Section Bits.
Context {E : Type}.
Implicit Types bits : bytes.

Lemma byte_at bits pos : 0 <= pos < 8 * zlen bits -> exists b, bits !! Z.to_nat (pos / 8) = Some b.
Proof.
  intros Hp. apply lookup_lt_is_Some. unfold zlen in Hp. pose proof (Z.div_lt_upper_bound pos 8 (Z.of_nat (length bits))).
  pose proof (Z.div_pos pos 8). lia.
Qed.
Lemma get_bit_ok pos bits : 0 <= pos < 8 * zlen bits -> get_bit (E := E) pos bits = Ok (bit bits pos).
Proof.
  intros Hp. destruct (byte_at bits pos Hp) as [b Hb]. unfold get_bit, index, bit. pose proof (Z.div_pos pos 8).
  rewrite (proj2 (Z.leb_le _ _)) by lia. rewrite Hb. simpl. rewrite land_bit; [done|]. apply Z.mod_pos_bound. lia.
Qed.
Lemma set_bit_ok pos bits : 0 <= pos < 8 * zlen bits -> exists bits',
  set_bit (E := E) pos bits = Ok bits' /\ zlen bits' = zlen bits /\
  forall q, 0 <= q -> bit bits' q = (q =? pos) || bit bits q.
Proof.
  intros Hp. destruct (byte_at bits pos Hp) as [b Hb]. unfold set_bit, index. pose proof (Z.div_pos pos 8).
  rewrite (proj2 (Z.leb_le _ _)) by lia. rewrite Hb. simpl. eexists. split; [done|].
  split; [unfold zlen; by rewrite length_insert|]. intros q Hq. unfold bit. pose proof (Z.div_pos q 8).
  destruct (decide (q / 8 = pos / 8)) as [Heq|Hne].
  - rewrite Heq, list_lookup_insert_eq by by apply lookup_lt_is_Some; eexists. rewrite Hb. simpl.
    rewrite lor_bit by (apply Z.mod_pos_bound; lia). f_equal.
    pose proof (Z.div_mod q 8 ltac:(lia)). pose proof (Z.div_mod pos 8 ltac:(lia)).
    destruct (Z.eqb_spec (q mod 8) (pos mod 8)), (Z.eqb_spec q pos); try done; exfalso; [lia|congruence].
  - rewrite list_lookup_insert_ne by lia. destruct (Z.eqb_spec q pos) as [->|]; done.
Qed.
Lemma bit_zeros n pos : bit (replicate n 0) pos = false.
Proof. unfold bit. destruct (replicate n 0 !! _) as [b|] eqn:Hb; [apply lookup_replicate in Hb as [-> _]|]; apply Z.bits_0. Qed.
End Bits.

Lemma div_ceil_covers n d : 0 < d -> 0 <= n -> n <= d * BloomFilter.div_ceil n d.
Proof. intros Hd Hn. unfold BloomFilter.div_ceil. pose proof (Z.div_mod (n + d - 1) d ltac:(lia)). pose proof (Z.mod_pos_bound (n + d - 1) d Hd). lia. Qed.
Lemma div_ceil_nonneg n d : 0 < d -> 0 <= n -> 0 <= BloomFilter.div_ceil n d.
Proof. intros. unfold BloomFilter.div_ceil. apply Z.div_pos; lia. Qed.

(** ** The set a filter stands for *)
(** The positions of a key in a filter of [n] bits with [k] hash functions. *)
Definition position (n : Z) (key : bytes) (i : Z) : Z := as_u64 ((hash_key key).1 + as_u64 (i * (hash_key key).2)) mod n.
Definition positions (n k : Z) (key : bytes) : gset Z := list_to_set (map (position n key) (seqZ 0 k)).
Definition marked (n k : Z) (keys : list bytes) : gset Z := ⋃ (map (positions n k) keys).

Lemma position_range n key i : 0 < n -> 0 <= position n key i < n.
Proof. intros. by apply Z.mod_pos_bound. Qed.
Lemma position_ok {E} n key h1 h2 i : hash_key key = (h1, h2) -> 0 < n ->
  get_bit_position (E := E) n h1 h2 i = Ok (position n key i).
Proof. intros Hk ?. unfold get_bit_position, position. rewrite Hk. by rewrite (proj2 (Z.eqb_neq _ _)) by lia. Qed.
Lemma marked_key n k keys key : key ∈ keys -> positions n k key ⊆ marked n k keys.
Proof.
  intros Hin x Hx. apply elem_of_union_list. exists (positions n k key). split; [|done].
  by apply list_elem_of_fmap_2.
Qed.
Lemma marked_snoc n k keys key : marked n k (keys ++ [key]) = marked n k keys ∪ positions n k key.
Proof. unfold marked. rewrite map_app, union_list_app_L. simpl. set_solver. Qed.

(** [contains] over any test of positions. *)
Lemma subset_forallb n k key (s : gset Z) (f : Z -> bool) :
  (forall i, f (position n key i) = bool_decide (position n key i ∈ s)) ->
  forallb (fun i => f (position n key i)) (seqZ 0 k) = bool_decide (positions n k key ⊆ s).
Proof.
  intros Hf. apply eq_true_iff_eq. rewrite forallb_forall, bool_decide_eq_true. unfold positions. split.
  - intros Hall x Hx. apply elem_of_list_to_set, list_elem_of_fmap in Hx as (i & -> & Hi). apply list_elem_of_In, Hall in Hi.
    rewrite Hf in Hi. by apply bool_decide_eq_true in Hi.
  - intros Hs i Hi. rewrite Hf. apply bool_decide_eq_true, Hs, elem_of_list_to_set, list_elem_of_fmap_2.
    by apply list_elem_of_In.
Qed.

(** ** The filter in memory *)
Module BloomFilterLaws.
Import BloomFilter.

(** A filter that stands for the set [s]. *)
Record stands_for (f : t) (s : gset Z) : Prop := {
  sf_bits : 0 < num_bits f;
  sf_size : num_bits f <= 8 * zlen (bits f);
  sf_set q : 0 <= q -> bit (bits f) q = bool_decide (q ∈ s) }.

Section Laws.
Context {E : Type}.

Lemma filter_insert_loop_ok n key h1 h2 l : hash_key key = (h1, h2) -> 0 < n -> forall bits, n <= 8 * zlen bits -> exists bits',
  insert_loop (E := E) n h1 h2 l bits = Ok bits' /\ zlen bits' = zlen bits /\
  forall q, 0 <= q -> bit bits' q = bool_decide (q ∈ map (position n key) l) || bit bits q.
Proof.
  intros Hk Hn. induction l as [|i l IH]; intros bits Hb; simpl; [by exists bits|].
  rewrite (position_ok n key) by done. simpl. pose proof (position_range n key i Hn).
  destruct (set_bit_ok (E := E) (position n key i) bits) as (b1 & -> & Hz & Hset); [lia|]. simpl.
  destruct (IH b1) as (b2 & -> & Hz2 & Hset2); [lia|]. exists b2. split; [done|]. split; [lia|]. intros q Hq.
  rewrite Hset2, Hset, orb_assoc by done. f_equal. apply eq_true_iff_eq.
  rewrite orb_true_iff, !bool_decide_eq_true, Z.eqb_eq, elem_of_cons. tauto.
Qed.
Lemma insert_ok key f s : stands_for f s -> exists f', insert (E := E) key f = Ok f' /\
  stands_for f' (s ∪ positions (num_bits f) (num_hash_functions f) key) /\
  zlen (bits f') = zlen (bits f) /\ num_bits f' = num_bits f /\ num_hash_functions f' = num_hash_functions f /\
  num_items f' = num_items f + 1.
Proof.
  intros [Hn Hs Hset]. unfold insert. destruct (hash_key key) as [h1 h2] eqn:Hk.
  destruct (filter_insert_loop_ok (num_bits f) key h1 h2 (seqZ 0 (num_hash_functions f)) Hk Hn (bits f) Hs) as (b & Hb & Hz & Hbit).
  rewrite Hb. simpl. eexists. split; [done|]. split; [|done]. constructor; simpl; [done|lia|].
  intros q Hq. rewrite Hbit, Hset by done. unfold positions. apply eq_true_iff_eq.
  rewrite orb_true_iff, !bool_decide_eq_true, elem_of_union, elem_of_list_to_set. tauto.
Qed.
Lemma contains_loop_ok n key h1 h2 l bits : hash_key key = (h1, h2) -> 0 < n -> n <= 8 * zlen bits ->
  contains_loop (E := E) n h1 h2 l bits = Ok (forallb (fun i => bit bits (position n key i)) l).
Proof.
  intros Hk Hn Hb. induction l as [|i l IH]; simpl; [done|]. rewrite (position_ok n key) by done. simpl.
  pose proof (position_range n key i Hn). rewrite get_bit_ok by lia. simpl. by destruct (bit bits _).
Qed.
Lemma filter_contains_ok key f s : stands_for f s ->
  contains (E := E) key f = Ok (bool_decide (positions (num_bits f) (num_hash_functions f) key ⊆ s)).
Proof.
  intros [Hn Hs Hset]. unfold contains. destruct (hash_key key) as [h1 h2] eqn:Hk.
  pose proof (contains_loop_ok (num_bits f) key h1 h2 (seqZ 0 (num_hash_functions f)) (bits f) Hk Hn Hs) as Hc.
  rewrite Hc. f_equal. apply subset_forallb. intros i. apply Hset.
  by apply position_range.
Qed.
Lemma insert_all_ok keys : forall f s, stands_for f s -> exists f', insert_all (E := E) keys f = Ok f' /\
  stands_for f' (s ∪ marked (num_bits f) (num_hash_functions f) keys) /\ zlen (bits f') = zlen (bits f) /\
  num_bits f' = num_bits f /\ num_hash_functions f' = num_hash_functions f /\ num_items f' = num_items f + zlen keys.
Proof.
  induction keys as [|k keys IH]; intros f s Hs; simpl.
  - exists f. unfold marked. simpl. rewrite zlen_nil, Z.add_0_r. rewrite (right_id_L ∅ (∪)). done.
  - destruct (insert_ok k f s Hs) as (f1 & -> & H1 & Hz & Hb & Hh & Hi). simpl.
    destruct (IH f1 _ H1) as (f2 & -> & H2 & Hz2 & Hb2 & Hh2 & Hi2). exists f2. rewrite Hb, Hh in *.
    rewrite <- (assoc_L (∪)) in H2. rewrite zlen_cons. split_and!; try congruence; [exact H2|lia].
Qed.
Lemma new_stands optimal n b h : 0 < as_u64 (n * b) -> stands_for (new optimal n b h) ∅.
Proof.
  intros Hn. constructor; simpl; [done| |].
  - pose proof (div_ceil_nonneg (as_u64 (n * b)) 8 ltac:(lia) ltac:(lia)). rewrite zlen_replicate by done.
    by apply div_ceil_covers; lia.
  - intros q _. rewrite bit_zeros. by rewrite bool_decide_eq_false_2 by set_solver.
Qed.

Lemma bloom_refines_plain optimal (n b : Z) (h : option Z) (keys : list bytes) (Hn : 0 < as_u64 (n * b)) :
  exists f, insert_all (E := E) keys (new optimal n b h) = Ok f /\ forall key,
    contains (E := E) key f = Ok (bool_decide
      (positions (as_u64 (n * b)) (default (optimal b) h) key ⊆ marked (as_u64 (n * b)) (default (optimal b) h) keys)).
Proof.
  pose proof (new_stands optimal n b h Hn) as H0.
  destruct (insert_all_ok keys _ ∅ H0) as (f & Hf & Hs & _ & Hb & Hh & _). rewrite (left_id_L ∅ (∪)) in Hs.
  exists f. split; [done|]. intros key. by rewrite (filter_contains_ok key f _ Hs), Hb, Hh.
Qed.

(** C9: a Bloom filter reports a key exactly when all the key's positions
    were set by inserted keys.  Every insertion into a new filter of at least
    one bit succeeds; afterwards, for every key, [contains] answers whether
    its positions are among those of the inserted keys, so an inserted key is
    never missed; the count is the number of insertions, [verify] finds no
    error, and a filter rebuilt from the bytes and the number of bits answers
    the same. *)
Theorem bloom_refines optimal (n b : Z) (h : option Z) (keys : list bytes) (Hn : 0 < as_u64 (n * b)) :
  let f0 := new optimal n b h in
  exists f, insert_all (E := E) keys f0 = Ok f /\ num_items f = zlen keys /\ verify f = 0 /\
    (forall key, key ∈ keys -> contains (E := E) key f = Ok true) /\
    forall key,
      contains (E := E) key f
        = Ok (bool_decide (positions (num_bits f0) (num_hash_functions f0) key ⊆ marked (num_bits f0) (num_hash_functions f0) keys))
      /\ contains (E := E) key (from_bytes_with_size (as_bytes f) (num_bits f) (num_hash_functions f))
           = contains key f.
Proof.
  intros f0. pose proof (new_stands optimal n b h Hn) as H0.
  destruct (insert_all_ok keys f0 ∅ H0) as (f & Hf & Hs & Hz & Hb & Hh & Hi). rewrite (left_id_L ∅ (∪)) in Hs.
  exists f. split; [done|]. split; [done|].
  assert (Hc : forall key, contains (E := E) key f = Ok (bool_decide (positions (num_bits f0) (num_hash_functions f0) key
    ⊆ marked (num_bits f0) (num_hash_functions f0) keys))).
  { intros key. by rewrite (filter_contains_ok key f _ Hs), Hb, Hh. }
  split_and!.
  - unfold verify. rewrite Hz, Hb. simpl. pose proof (div_ceil_nonneg (as_u64 (n * b)) 8 ltac:(lia) ltac:(lia)).
    rewrite zlen_replicate by done. by rewrite Z.eqb_refl.
  - intros key Hin. rewrite Hc. f_equal. by apply bool_decide_eq_true, marked_key.
  - intros key. split; [done|]. done.
Qed.

(** [from_bytes] takes every bit of the last byte for a bit of the filter:
    when the number of bits is not a multiple of eight an inserted key can be
    reported absent. *)
Definition small : t := new (fun _ => 3) 1 10 None.
Example from_bytes_misses :
  (f ← insert [65] small; contains (E := E) [65] f) = Ok true /\
  (f ← insert [65] small; contains (E := E) [65] (from_bytes (as_bytes f) (num_hash_functions f))) = Ok false.
Proof. split; vm_compute; reflexivity. Qed.
End Laws.
End BloomFilterLaws.

Lemma bloom_refines_witness :
  exists f, BloomFilter.insert_all (E := TableError) [[1]; [2; 3]] (BloomFilter.new (fun b => b) 4 10 (Some 7)) = Ok f /\
    BloomFilter.contains (E := TableError) [2; 3] f = Ok true.
Proof.
  destruct (BloomFilterLaws.bloom_refines (E := TableError) (fun b => b) 4 10 (Some 7) [[1]; [2; 3]] ltac:(reflexivity))
    as (f & Hf & _ & _ & Hin & _).
  exists f. split; [exact Hf|]. apply Hin. right. left.
Defined.
