(* ===== verification/BloomPages.v ===== *)
(** * The Bloom filter over pages

    The pages together hold the bits of the set a filter stands for
    ([rep]); the metadata page is enough to open the filter again.  That is so
    on a store that reads back every type of page ([EveryPage]), which the
    pager of this program does not: over it a filter answers while its pages
    are in the cache and is lost when they leave it
    ([PagerSample.bloom_pages_lost]). *)
From S2P Require Import Prelude Types Vfs PagerConfig MemTables Mvcc Page Pager PagerContract PageStore PagerPages Bloom BloomLaws.
Import BloomHash PagedBloomFilter.

(** What [PageStoreLaws] says of pages whose type the reader knows, said of
    all types: what the two page types of Bloom filters would need.  The pager
    of this program does NOT keep it, since it cannot read them back
    ([Page.bloom_pages_unreadable]); the theorem below is about the filter's
    algorithm, not about filters in a database file. *)
Class EveryPage (S : Type) `{PageStoreLaws S} : Prop := {
  write_every s m p ty d : holds s m -> is_Some (m !! p) -> zlen d <= data_size s ->
    after store_faults (write_page p ty d) s (fun _ s' => holds s' (<[p := d]> m) /\ same_store s s');
  allocate_every s m ty : holds s m -> next_page_id s + 1 < 2 ^ 64 ->
    after store_faults (allocate_page ty) s (fun p s' =>
      p = next_page_id s /\ next_page_id s' = p + 1 /\ m !! p = None /\ 0 < p /\
      holds s' (<[p := []]> m) /\ data_size s' = data_size s /\
      root_btree_page s' = root_btree_page s /\ btree_row_count s' = btree_row_count s) }.

#[export] Instance memory_every : EveryPage MemoryPages.t.
Proof.
  constructor.
  - intros s m p ty d Hh Hp Hd. exact (write_page_ok s m p PageType.BTreeLeaf d Hh Hp eq_refl Hd).
  - intros s m ty Hh Hn. exact (allocate_page_ok s m PageType.BTreeLeaf Hh eq_refl Hn).
Qed.

Section Pages.
Context {P : Type} `{EveryPage P}.
Variables pad pad' : bytes.
Hypothesis pad_size : zlen pad = 4 /\ zlen pad' = 4.

Lemma after_pager {A} (m : stateful P PagerError A) s Q :
  after store_faults m s Q -> after store_faults (on_pager m) s Q.
Proof. unfold after, on_pager. by destruct (m s) as [[a|e|] s']. Qed.
Lemma after_read p d m s : holds s m -> m !! p = Some d ->
  after store_faults (on_pager (read_page p)) s (fun x s' => x = d /\ holds s' m /\ same_store s s').
Proof.
  intros Hh Hd. apply after_pager. destruct (read_page_ok s m p d Hh Hd) as (s' & Hr & Hh' & Hs). unfold after. by rewrite Hr.
Qed.
Lemma pager_reads {A} (m : stateful P PagerError A) s (a : A) s' : m s = (Ok a, s') -> on_pager m s = (Ok a, s').
Proof. unfold on_pager. by intros ->. Qed.

(** ** The pages of a filter *)
Record rep (f : t) (s : gset Z) (st : P) (m : gmap PageId bytes) : Prop := {
  r_holds : holds st m;
  r_bits : 0 < num_bits f < 2 ^ 64;
  r_bpp : bits_per_page f = data_size st * 8;
  r_pages : zlen (bitmap_pages f) = BloomFilter.div_ceil (num_bits f) (bits_per_page f);
  r_nodup : NoDup (root_page_id f :: bitmap_pages f);
  r_root : is_Some (m !! root_page_id f);
  r_room : METADATA_SIZE + 8 * zlen (bitmap_pages f) <= data_size st;
  r_page i p : bitmap_pages f !! i = Some p -> exists d, m !! p = Some d /\ zlen d = data_size st /\
    forall q, 0 <= q < bits_per_page f -> bit d q = bool_decide (Z.of_nat i * bits_per_page f + q ∈ s) }.

Lemma page_of f s st m pos : rep f s st m -> 0 <= pos < num_bits f ->
  0 <= pos mod bits_per_page f < bits_per_page f /\
  exists i p, index (E := TableError) (pos / bits_per_page f) (bitmap_pages f) = Ok p /\
    bitmap_pages f !! i = Some p /\ Z.of_nat i = pos / bits_per_page f.
Proof.
  intros [] Hp. pose proof (data_size_bounds st m r_holds0) as Hsz. assert (Hb : 0 < bits_per_page f) by lia.
  pose proof (Z.mod_pos_bound pos _ Hb) as Hmod. pose proof (Z.div_mod pos (bits_per_page f) ltac:(lia)) as Hdm.
  split; [lia|]. pose proof (Z.div_pos pos _ ltac:(lia) Hb) as Hd0.
  pose proof (div_ceil_covers (num_bits f) _ Hb ltac:(lia)).
  assert (Hi : pos / bits_per_page f < zlen (bitmap_pages f)) by (rewrite r_pages0; nia).
  destruct (lookup_lt_is_Some_2 (bitmap_pages f) (Z.to_nat (pos / bits_per_page f))) as [p Hl]; [unfold zlen in Hi; lia|].
  exists (Z.to_nat (pos / bits_per_page f)), p. split; [|split; [done|lia]]. unfold index.
  rewrite (proj2 (Z.leb_le _ _)) by lia. by rewrite Hl.
Qed.

Lemma get_page_bit_ok f s st m pos : rep f s st m -> 0 <= pos < num_bits f ->
  exists st', get_page_bit f pos st = (Ok (bool_decide (pos ∈ s)), st') /\ rep f s st' m /\ same_store st st'.
Proof.
  intros Hr Hp. destruct (page_of f s st m pos Hr Hp) as (Hmod & i & p & Hidx & Hi & Hdiv). pose proof Hr as [].
  destruct (r_page0 i p Hi) as (d & Hd & Hlen & Hbit).
  destruct (read_page_ok st m p d r_holds0 Hd) as (st' & Hread & Hh & Hs). exists st'. split.
  - unfold get_page_bit, lift, mbind, stateful_bind. rewrite Hidx, (pager_reads _ _ _ _ Hread).
    rewrite get_bit_ok by lia. rewrite Hbit by done. f_equal. f_equal. f_equal.
    pose proof (Z.div_mod pos (bits_per_page f) ltac:(lia)). assert (Heq : Z.of_nat i * bits_per_page f + pos mod bits_per_page f = pos) by lia.
    by rewrite Heq.
  - split; [|done]. destruct Hs as [Hsz _ _ _]. constructor; rewrite ?Hsz; done.
Qed.

Lemma set_page_bit_ok f s st m pos : rep f s st m -> 0 <= pos < num_bits f ->
  after store_faults (set_page_bit f pos) st (fun _ st' => exists m', rep f (s ∪ {[pos]}) st' m' /\ same_store st st' /\
    forall p, p ∉ bitmap_pages f -> m' !! p = m !! p).
Proof.
  intros Hr Hp. destruct (page_of f s st m pos Hr Hp) as (Hmod & i & p & Hidx & Hi & Hdiv). pose proof Hr as [].
  destruct (r_page0 i p Hi) as (d & Hd & Hlen & Hbit).
  destruct (set_bit_ok (E := TableError) (pos mod bits_per_page f) d) as (d' & Hset & Hl' & Hbit'); [lia|].
  assert (Heq : Z.of_nat i * bits_per_page f + pos mod bits_per_page f = pos).
  { pose proof (Z.div_mod pos (bits_per_page f) ltac:(lia)). lia. }
  unfold set_page_bit. rewrite Hidx. eapply (after_bind _ _ _ _ (fun a x => a = p /\ x = st)); [done|]. intros ? ? [-> ->].
  eapply after_bind; [by apply (after_read p d m)|]. intros ? st1 (-> & Hh & Hs1). pose proof Hs1 as [Hsz _ _ _].
  eapply after_bind; [by apply (after_gets _ _ _ (fun a x => x = st1))|]. intros ? ? ->. cbv zeta.
  rewrite (proj2 (Z.leb_gt _ _)) by (rewrite Hlen; apply Z.div_lt_upper_bound; lia). rewrite Hset.
  eapply (after_bind _ _ _ _ (fun a x => a = d' /\ x = st1)); [done|]. intros ? ? [-> ->]. apply after_pager.
  eapply after_mono; [apply (write_every st1 m p); [done|by eexists|rewrite Hsz; lia]|]. intros _ st2 [Hh2 Hs2].
  exists (<[p := d']> m). pose proof (same_store_trans _ _ _ Hs1 Hs2) as Hs12. pose proof Hs12 as [Hsz2 _ _ _].
  pose proof r_nodup0 as [Hroot Hnd]%NoDup_cons. assert (Hin : p ∈ bitmap_pages f) by by eapply list_elem_of_lookup_2.
  split; [|split; [done|]].
  - constructor; rewrite ?Hsz2; try done.
    + rewrite lookup_insert_ne; [done|]. by intros ->.
    + intros j p' Hj. destruct (decide (p' = p)) as [->|Hne].
      * assert (j = i) as -> by by eapply NoDup_lookup. exists d'. rewrite lookup_insert_eq. split; [done|].
        split; [lia|]. intros q Hq. rewrite Hbit', Hbit by lia. apply eq_true_iff_eq.
        rewrite orb_true_iff, !bool_decide_eq_true, Z.eqb_eq, elem_of_union, elem_of_singleton. split.
        -- intros [->|?]; [right; lia|by left].
        -- intros [?|Hq']; [by right|left; lia].
      * rewrite lookup_insert_ne by done. destruct (r_page0 j p' Hj) as (dj & Hdj & Hlj & Hbj). exists dj.
        split; [done|]. split; [done|]. intros q Hq. rewrite Hbj by done. apply bool_decide_ext.
        rewrite elem_of_union, elem_of_singleton. split; [by left|]. intros [?|Hq']; [done|]. exfalso. apply Hne.
        assert (j = i) as ->; [|congruence]. apply Nat2Z.inj. rewrite Hdiv, <- Hq'. symmetry.
        rewrite Z.add_comm, Z.div_add by lia. rewrite Z.div_small by lia. lia.
  - intros q Hq. rewrite lookup_insert_ne; [done|]. by intros ->.
Qed.

(** ** The loops *)
Definition member (s : gset Z) (p : Z) : bool := bool_decide (p ∈ s).
Lemma insert_loop_pages f key h1 h2 l : hash_key key = (h1, h2) -> forall s st m, rep f s st m ->
  after store_faults (insert_loop f h1 h2 l) st (fun _ st' => exists m',
    rep f (s ∪ list_to_set (map (position (num_bits f) key) l)) st' m' /\ same_store st st' /\
    forall p, p ∉ bitmap_pages f -> m' !! p = m !! p).
Proof.
  intros Hk. induction l as [|i l IH]; intros s st m Hr; cbn [insert_loop].
  - exists m. simpl. rewrite (right_id_L ∅ (∪)). done.
  - pose proof (r_bits _ _ _ _ Hr) as Hb. pose proof (position_range (num_bits f) key i ltac:(lia)).
    eapply (after_bind _ _ _ _ (fun a x => a = position (num_bits f) key i /\ x = st)).
    { apply after_lift with (position (num_bits f) key i); [by apply position_ok; [|lia]|done]. }
    intros ? ? [-> ->]. eapply after_bind; [by apply (set_page_bit_ok f s st m)|]. intros _ st1 (m1 & Hr1 & Hs1 & Ho1).
    eapply after_mono; [by apply (IH (s ∪ {[position (num_bits f) key i]}) st1 m1)|]. intros _ st2 (m2 & Hr2 & Hs2 & Ho2). exists m2. simpl.
    rewrite <- (assoc_L (∪)) in Hr2. split; [done|]. split; [by eapply same_store_trans|].
    intros p Hp. by rewrite Ho2, Ho1.
Qed.
Lemma contains_loop_pages f key h1 h2 l s m : hash_key key = (h1, h2) -> forall st, rep f s st m ->
  exists st', contains_loop f h1 h2 l st
    = (Ok (forallb (fun i => member s (position (num_bits f) key i)) l), st') /\ rep f s st' m /\ same_store st st'.
Proof.
  intros Hk. induction l as [|i l IH]; intros st Hr; cbn [contains_loop forallb]; [by exists st|].
  pose proof (r_bits _ _ _ _ Hr) as Hb. pose proof (position_range (num_bits f) key i ltac:(lia)) as Hp.
  unfold lift at 1. unfold mbind, stateful_bind. rewrite (position_ok _ key) by (done || lia).
  destruct (get_page_bit_ok f s st m _ Hr Hp) as (st1 & Hg & Hr1 & Hs1). rewrite Hg.
  fold (member s (position (num_bits f) key i)).
  destruct (member s (position (num_bits f) key i)) eqn:Hd; cbn [andb]; [|by exists st1].
  destruct (IH st1 Hr1) as (st2 & Hc & Hr2 & Hs2). exists st2. rewrite Hc. split; [done|]. split; [done|].
  by eapply same_store_trans.
Qed.
Lemma contains_pages f key s st m : rep f s st m -> exists st',
  contains key f st = (Ok (bool_decide (positions (num_bits f) (num_hash_functions f) key ⊆ s)), st') /\
  rep f s st' m /\ same_store st st'.
Proof.
  intros Hr. unfold contains. destruct (hash_key key) as [h1 h2] eqn:Hk.
  destruct (contains_loop_pages f key h1 h2 (seqZ 0 (num_hash_functions f)) s m Hk st Hr) as (st' & -> & ?).
  exists st'. split; [|done]. f_equal. f_equal.
  by apply (subset_forallb _ _ key s (member s)).
Qed.

(** ** The metadata page *)
Definition meta_page (f : t) (size : Z) : bytes :=
  metadata_bytes pad pad' f ++ flat_map (to_le_bytes 8) (bitmap_pages f)
  ++ replicate (Z.to_nat (size - METADATA_SIZE - 8 * zlen (bitmap_pages f))) 0.

Lemma metadata_len f : zlen (metadata_bytes pad pad' f) = METADATA_SIZE.
Proof.
  destruct pad_size as [H1' H2']. unfold metadata_bytes. autorewrite with zlen. rewrite H1', H2'.
  change 32%nat with (Z.to_nat 32). by rewrite zlen_replicate.
Qed.
Lemma zlen_ids ids : zlen (flat_map (to_le_bytes 8) ids) = 8 * zlen ids.
Proof. induction ids as [|p ids IH]; [done|]. simpl. rewrite zlen_app, zlen_cons, zlen_to_le_bytes, IH. lia. Qed.
Lemma copy_at_ok {E} off (l a b c : bytes) : zlen a = off -> zlen b = zlen l -> copy_at (E := E) off l (a ++ b ++ c) = Ok (a ++ l ++ c).
Proof.
  intros Ha Hb. unfold copy_at. rewrite (slice_here 0 off a) by lia. simpl. rewrite <- Hb, <- Ha.
  rewrite slice_app_r by zlen_tac. rewrite slice_app_r by zlen_tac.
  rewrite slice_here_last; [done|lia|]. autorewrite with zlen. lia.
Qed.
Lemma copy_ids_ok {E} ids : forall a n, (8 * length ids <= n)%nat ->
  copy_ids (E := E) (zlen a) ids (a ++ replicate n 0)
    = Ok (a ++ flat_map (to_le_bytes 8) ids ++ replicate (n - 8 * length ids) 0).
Proof.
  induction ids as [|p ids IH]; intros a n Hn; cbn [copy_ids flat_map]; [by rewrite Nat.sub_0_r|].
  assert (replicate n 0 = replicate 8 0 ++ replicate (n - 8) 0) as ->.
  { rewrite <- replicate_add. f_equal. simpl in Hn. lia. }
  rewrite copy_at_ok by done. simpl. rewrite !app_assoc.
  assert (zlen a + 8 = zlen (a ++ to_le_bytes 8 p)) as -> by by rewrite zlen_app, zlen_to_le_bytes.
  rewrite IH by (simpl in Hn; lia). rewrite <- !app_assoc. do 5 f_equal. simpl. lia.
Qed.
Lemma write_metadata_ok f s st m : rep f s st m ->
  after store_faults (write_metadata pad pad' f) st (fun _ st' =>
    rep f s st' (<[root_page_id f := meta_page f (data_size st)]> m) /\ same_store st st').
Proof.
  intros Hr. pose proof Hr as []. pose proof (metadata_len f) as Hl. pose proof (zlen_nonneg (bitmap_pages f)).
  assert (Hsize : METADATA_SIZE = 72) by done.
  assert (Hcopy : (data ← copy_at (E := TableError) 0 (metadata_bytes pad pad' f) (replicate (Z.to_nat (data_size st)) 0);
      copy_ids METADATA_SIZE (bitmap_pages f) data) = Ok (meta_page f (data_size st))).
  { assert (replicate (Z.to_nat (data_size st)) 0 = [] ++ replicate 72 0 ++ replicate (Z.to_nat (data_size st) - 72) 0) as ->.
    { transitivity (replicate 72 0 ++ replicate (Z.to_nat (data_size st) - 72) 0); [|done].
      rewrite <- replicate_add. f_equal. lia. }
    rewrite copy_at_ok by (done || by rewrite Hl).
    change ([] ++ ?l) with l. cbn [mbind outcome_bind]. rewrite <- Hl.
    rewrite copy_ids_ok by (unfold zlen in *; lia). unfold meta_page. do 4 f_equal. unfold zlen in *. lia. }
  unfold write_metadata. unfold after, mbind, stateful_bind, lift.
  unfold mbind, outcome_bind in Hcopy. destruct (copy_at 0 _ _) as [d0|e|]; [|done|done]. rewrite Hcopy.
  pose proof (write_every st m (root_page_id f) PageType.BloomMeta (meta_page f (data_size st)) r_holds0 r_root0) as Hw.
  apply after_pager in Hw.
  - unfold after in Hw. destruct (on_pager _ st) as [[u|e|] st']; [|done|done]. destruct Hw as [Hh [Hsz ? ? ?]].
    split; [|done]. constructor; rewrite ?Hsz; try done.
    + by rewrite lookup_insert_eq.
    + intros i p Hi. rewrite lookup_insert_ne; [by apply r_page0|]. intros <-. apply NoDup_cons in r_nodup0 as [Hn _].
      apply Hn. by eapply list_elem_of_lookup_2.
  - unfold meta_page. rewrite !zlen_app, Hl, zlen_ids, zlen_replicate; lia.
Qed.

(** A filter whose metadata is on its page. *)
Definition saved (f : t) (s : gset Z) (st : P) (m : gmap PageId bytes) : Prop :=
  rep f s st m /\ m !! root_page_id f = Some (meta_page f (data_size st)).

Lemma rep_count f s st m n : rep f s st m -> rep (set_num_items n f) s st m.
Proof. by intros []. Qed.

(** ** Insertions *)
Lemma after_store {A} (m : stateful P TableError A) f st (Q : A -> t * P -> Prop) :
  after store_faults m st (fun a st' => Q a (f, st')) -> after store_faults (on_store m) (f, st) Q.
Proof. unfold after, on_store. by destruct (m st) as [[a|e|] st']. Qed.
Lemma insert_pages key f s st m : rep f s st m ->
  after store_faults (insert pad pad' key) (f, st) (fun _ x => x.1 = set_num_items (num_items f + 1) f /\
    same_store st x.2 /\
    exists m', saved x.1 (s ∪ positions (num_bits f) (num_hash_functions f) key) x.2 m').
Proof.
  intros Hr. unfold insert. eapply after_bind; [by apply (after_gets _ _ _ (fun a x => a = f /\ x = (f, st)))|].
  intros ? ? [-> ->]. destruct (hash_key key) as [h1 h2] eqn:Hk.
  eapply (after_bind _ _ _ _ (fun _ x => x.1 = f /\ exists m', rep f (s ∪ positions (num_bits f) (num_hash_functions f) key) x.2 m' /\
    same_store st x.2)).
  { apply after_store. eapply after_mono; [by apply (insert_loop_pages f key h1 h2 _ Hk s st m)|].
    intros _ st1 (m1 & Hr1 & Hs1 & _). split; [done|]. by exists m1. }
  intros _ [f1 st1]. cbn [fst snd]. intros (-> & m1 & Hr1 & Hs1).
  eapply (after_bind _ _ _ _ (fun _ x => x = (set_num_items (num_items f + 1) f, st1))); [done|]. intros _ ? ->.
  eapply (after_bind _ _ _ _ (fun a x => a = set_num_items (num_items f + 1) f /\ x = (set_num_items (num_items f + 1) f, st1))); [done|].
  intros ? ? [-> ->]. apply after_store. eapply after_mono; [by eapply write_metadata_ok, rep_count|].
  intros _ st2 [Hr2 Hs2]. split; [done|]. split; [by eapply same_store_trans|]. eexists. split; [exact Hr2|].
  destruct Hs2 as [Hsz _ _ _]. cbn [fst snd]. rewrite Hsz. by rewrite lookup_insert_eq.
Qed.
Lemma insert_all_pages keys : forall f s st m, saved f s st m ->
  after store_faults (insert_all pad pad' keys) (f, st) (fun _ x => x.1 = set_num_items (num_items f + zlen keys) f /\
    same_store st x.2 /\ exists m', saved x.1 (s ∪ marked (num_bits f) (num_hash_functions f) keys) x.2 m').
Proof.
  induction keys as [|k keys IH]; intros f s st m Hs; cbn [insert_all].
  - unfold after. simpl. rewrite zlen_nil, Z.add_0_r. split; [by destruct f|]. split; [done|]. exists m.
    unfold marked. simpl. by rewrite (right_id_L ∅ (∪)).
  - eapply after_bind; [by apply (insert_pages k f s st m); apply Hs|]. intros _ [f1 st1] (Hf1 & Hs1 & m1 & Hm1).
    cbn [fst snd] in *. subst f1. eapply after_mono; [exact (IH _ _ st1 m1 Hm1)|]. intros _ [f2 st2] (Hf2 & Hs2 & m2 & Hm2).
    cbn [fst snd] in *. subst f2. rewrite zlen_cons. split; [unfold set_num_items; simpl; f_equal; lia|].
    split; [by eapply same_store_trans|]. exists m2. simpl. rewrite <- (assoc_L (∪)) in Hm2.
    replace (num_items f + 1 + zlen keys) with (num_items f + (1 + zlen keys)) in Hm2 by lia. exact Hm2.
Qed.

(** ** A new filter *)
Lemma allocate_bitmap_ok n : forall st m, holds st m -> next_page_id st + Z.of_nat n < 2 ^ 64 ->
  after store_faults (allocate_bitmap n) st (fun l st' => exists m', holds st' m' /\ length l = n /\ NoDup l /\
    data_size st' = data_size st /\
    (forall p, p ∈ l -> m !! p = None /\ m' !! p = Some (replicate (Z.to_nat (data_size st)) 0)) /\
    (forall p, is_Some (m !! p) -> m' !! p = m !! p)).
Proof.
  induction n as [|n IH]; intros st m Hh Hn; cbn [allocate_bitmap].
  - exists m. split; [done|]. split; [done|]. split; [constructor|]. split; [done|]. split; [|done]. set_solver.
  - pose proof (data_size_bounds st m Hh).
    eapply after_bind; [apply after_pager, (allocate_every st m); [done|lia]|].
    intros p st1 (Hp & Hn1 & Hm & _ & Hh1 & Hsz1 & _).
    eapply (after_bind _ _ _ _ (fun a x => a = data_size st1 /\ x = st1)); [done|]. intros ? ? [-> ->].
    eapply after_bind.
    { apply after_pager, (write_every st1 (<[p := []]> m) p); [done|by rewrite lookup_insert_eq; eexists|].
      rewrite zlen_replicate; lia. }
    intros _ st2 [Hh2 [Hsz2 Hn2 _ _]]. rewrite insert_insert_eq in Hh2.
    eapply after_bind; [apply (IH st2 _ Hh2); lia|]. intros l st3 (m3 & Hh3 & Hlen & Hnd & Hsz3 & Hnew & Hold).
    assert (Hpl : p ∉ l). { intros Hin. destruct (Hnew p Hin) as [Hno _]. by rewrite lookup_insert_eq in Hno. }
    exists m3. split; [done|]. split; [by simpl; f_equal|]. split; [by constructor|]. split; [congruence|]. split.
    + intros q [->|Hq]%elem_of_cons.
      * split; [done|]. rewrite Hold by (rewrite lookup_insert_eq; by eexists). rewrite lookup_insert_eq, Hsz1. done.
      * destruct (Hnew q Hq) as [Hno Hz]. rewrite lookup_insert_ne in Hno by (by intros ->). split; [done|].
        by rewrite Hz, Hsz2, Hsz1.
    + intros q Hq. assert (q <> p) by (intros ->; rewrite Hm in Hq; by destruct Hq).
      rewrite Hold by by rewrite lookup_insert_ne. by rewrite lookup_insert_ne.
Qed.
Lemma new_pages optimal tid nm n b h st m : holds st m -> 0 < as_u64 (n * b) ->
  let np := BloomFilter.div_ceil (as_u64 (n * b)) (data_size st * 8) in
  METADATA_SIZE + 8 * np <= data_size st -> next_page_id st + np + 1 < 2 ^ 64 ->
  after store_faults (new pad pad' optimal tid nm n b h) st (fun f st' => (exists m', saved f ∅ st' m') /\
    num_bits f = as_u64 (n * b) /\ num_hash_functions f = default (optimal b) h /\ num_items f = 0).
Proof.
  intros Hh Hn np Hroom Hnext. pose proof (data_size_bounds st m Hh) as Hsz.
  assert (Hd : 0 < data_size st * 8) by lia.
  pose proof (div_ceil_nonneg (as_u64 (n * b)) (data_size st * 8) Hd (Z.lt_le_incl _ _ Hn)) as Hnp. fold np in Hnp.
  unfold new. eapply after_bind; [apply after_pager, (allocate_every st m); [done|lia]|].
  intros root st1 (Hroot & Hn1 & Hm & _ & Hh1 & Hsz1 & _).
  eapply (after_bind _ _ _ _ (fun a x => a = data_size st1 /\ x = st1)); [done|]. intros ? ? [-> ->]. cbv zeta.
  rewrite Hsz1. fold np. eapply after_bind; [apply (allocate_bitmap_ok (Z.to_nat np) st1 _ Hh1); lia|].
  intros l st2 (m2 & Hh2 & Hlen & Hnd & Hsz2 & Hnew & Hold).
  set (f := mk tid nm root _ _ 0 l _ _).
  assert (Hrep : rep f ∅ st2 m2).
  { constructor; simpl; rewrite ?Hsz2, ?Hsz1; try done.
    - split; [done|]. apply as_u_fits. lia.
    - fold np. unfold zlen. lia.
    - constructor; [|done]. intros Hin. destruct (Hnew root Hin) as [Hno _]. by rewrite lookup_insert_eq in Hno.
    - rewrite Hold; rewrite lookup_insert_eq; by eexists.
    - unfold zlen. rewrite Hlen. lia.
    - intros i p Hi. eapply list_elem_of_lookup_2, Hnew in Hi as [_ Hz]. eexists. split; [exact Hz|].
      rewrite zlen_replicate by lia. split; [done|]. intros q _. rewrite bit_zeros.
      by rewrite bool_decide_eq_false_2 by set_solver. }
  eapply after_bind; [by apply (write_metadata_ok f ∅ st2 m2)|]. intros _ st3 [Hr3 [Hsz3 _ _ _]].
  split; [|done]. eexists. split; [exact Hr3|]. by rewrite lookup_insert_eq, Hsz3.
Qed.

(** ** Opening a saved filter *)
Lemma read_ids_ok ids : Forall is_u64 ids -> forall off (a rest : bytes), zlen a = off ->
  read_ids (length ids) off (a ++ flat_map (to_le_bytes 8) ids ++ rest) = Ok ids.
Proof.
  intros Hids. induction Hids as [|p ids Hp Hids IH]; intros off a rest Ha; [done|]. cbn [length read_ids flat_map].
  rewrite get_le_app_r by lia. rewrite Ha, Z.sub_diag, <- app_assoc, get_le_here by done. cbn [mbind outcome_bind].
  specialize (IH (off + 8) (a ++ to_le_bytes 8 p) rest). rewrite <- app_assoc in IH.
  rewrite IH; [done|]. rewrite zlen_app, zlen_to_le_bytes. lia.
Qed.
Lemma ids_u64 f s st m : rep f s st m -> Forall is_u64 (bitmap_pages f).
Proof.
  intros []. apply Forall_lookup. intros i p Hi. destruct (r_page0 i p Hi) as (d & Hd & _).
  pose proof (next_page_fresh st m p r_holds0 ltac:(by eexists)). pose proof (next_page_bound st m r_holds0).
  unfold fits. lia.
Qed.
Lemma filter_open_ok f s st m tid nm : saved f s st m -> is_u32 (num_hash_functions f) -> is_u64 (num_items f) ->
  exists g st', open tid nm (root_page_id f) st = (Ok g, st') /\ rep g s st' m /\ same_store st st' /\
    num_bits g = num_bits f /\ num_hash_functions g = num_hash_functions f.
Proof.
  intros [Hr Hm] Hh Hi. pose proof Hr as []. pose proof (metadata_len f) as Hl. destruct pad_size as [Hp Hp'].
  pose proof (data_size_bounds st m r_holds0). pose proof (zlen_nonneg (bitmap_pages f)).
  destruct (read_page_ok st m _ _ r_holds0 Hm) as (st1 & Hread & Hh1 & Hs1). pose proof Hs1 as [Hsz _ _ _].
  eexists _, st1. unfold open, gets, mret, stateful_ret. unfold lift, mbind, stateful_bind.
  rewrite (pager_reads _ _ _ _ Hread). unfold meta_page.
  rewrite slice_here by (done || by rewrite Hl).
  set (tail := flat_map _ _ ++ replicate _ _).
  assert (Hfields : get_le (E := TableError) 4 0 (metadata_bytes pad pad' f ++ tail) = Ok BLOOM_MAGIC /\
    get_le (E := TableError) 4 4 (metadata_bytes pad pad' f ++ tail) = Ok BLOOM_VERSION /\
    get_le (E := TableError) 8 8 (metadata_bytes pad pad' f ++ tail) = Ok (num_bits f) /\
    get_le (E := TableError) 4 16 (metadata_bytes pad pad' f ++ tail) = Ok (num_hash_functions f) /\
    get_le (E := TableError) 8 24 (metadata_bytes pad pad' f ++ tail) = Ok (num_items f) /\
    get_le (E := TableError) 4 32 (metadata_bytes pad pad' f ++ tail) = Ok (zlen (bitmap_pages f))).
  { assert (is_u32 (zlen (bitmap_pages f))) by (unfold fits, METADATA_SIZE in *; lia).
    assert (is_u64 (num_bits f)) by (unfold fits; lia). unfold metadata_bytes. rewrite <- !app_assoc. rewrite !as_u_id by done.
    split_and!; repeat read_step; done. }
  destruct Hfields as (-> & -> & -> & -> & -> & ->). simpl ensure. cbv iota beta.
  assert (Hids : read_ids (Z.to_nat (zlen (bitmap_pages f))) METADATA_SIZE (metadata_bytes pad pad' f ++ tail) = Ok (bitmap_pages f)).
  { unfold zlen. rewrite Nat2Z.id. apply read_ids_ok; [by eapply ids_u64|done]. }
  rewrite Hids. split; [reflexivity|]. split; [|done]. constructor; simpl; rewrite ?Hsz; rewrite <- ?r_bpp0; done.
Qed.

(** Making a filter and inserting keys. *)
Definition filled optimal tid nm n b h keys : stateful P TableError t := fun st =>
  match new pad pad' optimal tid nm n b h st with
  | (Ok f, st) =>
      let '(r, (f, st)) := insert_all pad pad' keys (f, st) in
      (match r with Ok _ => Ok f | Err e => Err e | Panic => Panic end, st)
  | (Err e, st) => (Err e, st)
  | (Panic, st) => (Panic, st)
  end.

(** The algorithm over pages is that of the Bloom filter in memory.  In a
    store that keeps every page type (which this program's pager does not), and with a metadata page wide enough
    for the ids of the bitmap's pages, making a filter and inserting keys
    succeeds unless the store fails, and then [contains] answers for every
    key what the filter in memory with the same parameters and keys answers;
    so does the filter opened again from its root page. *)
Theorem paged_bloom_refines optimal tid nm (n b : Z) (h : option Z) (keys : list bytes) st m
    (Hh : holds st m) (Hn : 0 < as_u64 (n * b)) (Hk : is_u32 (default (optimal b) h)) (Hkeys : is_u64 (zlen keys))
    (Hroom : METADATA_SIZE + 8 * BloomFilter.div_ceil (as_u64 (n * b)) (data_size st * 8) <= data_size st)
    (Hnext : next_page_id st + BloomFilter.div_ceil (as_u64 (n * b)) (data_size st * 8) + 1 < 2 ^ 64) :
  after store_faults (filled optimal tid nm n b h keys) st (fun f st1 =>
    exists mem, BloomFilter.insert_all (E := TableError) keys (BloomFilter.new optimal n b h) = Ok mem /\
      forall key, exists st2, contains key f st1 = (BloomFilter.contains key mem, st2) /\
        forall tid' nm', exists g st3 st4, open tid' nm' (root_page_id f) st1 = (Ok g, st3) /\
          contains key g st3 = (BloomFilter.contains key mem, st4)).
Proof.
  pose proof (new_pages optimal tid nm n b h st m Hh Hn Hroom Hnext) as Hnew. unfold after, filled in *.
  destruct (new pad pad' optimal tid nm n b h st) as [[f|e|] st0]; [|done|done].
  destruct Hnew as ((m0 & Hs0) & Hb & Hf & Hi).
  pose proof (insert_all_pages keys f ∅ st0 m0 Hs0) as Hall. unfold after in Hall.
  destruct (insert_all pad pad' keys (f, st0)) as [[u|e|] [f1 st1]]; [|done|done].
  destruct Hall as (Hf1 & _ & m1 & Hs1). cbn [fst snd] in *. subst f1. rewrite Hi, Z.add_0_l in *.
  rewrite (left_id_L ∅ (∪)), Hb, Hf in Hs1.
  destruct (BloomFilterLaws.bloom_refines_plain (E := TableError) optimal n b h keys Hn) as (mem & Hmem & Hc). exists mem. split; [done|].
  intros key. rewrite Hc.
  destruct (contains_pages _ key _ _ _ (proj1 Hs1)) as (st2 & Hc2 & _ & _). simpl in Hc2. rewrite Hb, Hf in Hc2.
  exists st2. split; [done|]. intros tid' nm'.
  destruct (filter_open_ok _ _ _ _ tid' nm' Hs1) as (g & st3 & Ho & Hg & _ & Hgb & Hgh); [by simpl; rewrite Hf|done|].
  destruct (contains_pages g key _ _ _ Hg) as (st4 & Hc4 & _ & _). rewrite Hgb, Hgh in Hc4. simpl in Hc4. rewrite Hb, Hf in Hc4.
  exists g, st3, st4. done.
Qed.
End Pages.

Lemma paged_bloom_refines_witness :
  exists f st1 st2, filled [0; 0; 0; 0] [0; 0; 0; 0] (fun b => b) 7 "keys" 4 10 (Some 7) [[1]; [2; 3]] MemoryPages.new = (Ok f, st1) /\
    contains [2; 3] f st1 = (Ok true, st2).
Proof.
  pose proof (paged_bloom_refines [0; 0; 0; 0] [0; 0; 0; 0] (conj eq_refl eq_refl) (fun b => b) 7 "keys" 4 10 (Some 7)
    [[1]; [2; 3]] MemoryPages.new ∅ MemoryPages.new_holds ltac:(reflexivity)
    ltac:(split; [discriminate|reflexivity]) ltac:(split; [discriminate|reflexivity]) ltac:(discriminate) ltac:(reflexivity)) as Hr.
  unfold after in Hr.
  destruct (filled _ _ _ _ _ _ _ _ _ _) as [[f|e|] st1] eqn:Hf; [|destruct Hr|destruct Hr].
  destruct Hr as (mem & Hm & Hr). destruct (Hr [2; 3]) as (st2 & Hc & _). exists f, st1, st2. split; [reflexivity|].
  rewrite Hc. vm_compute in Hm. injection Hm as <-. vm_compute. reflexivity.
Defined.

(** ** Over the pager of the program *)
Module PagerSample.
#[local] Existing Instance ToyCodecs.toy.

Definition envs : nat -> nat -> Pager.env := fun _ _ => PagerContract.demo_env.
#[local] Instance store : PageStore (PagerPages.t MemoryFile.t) := PagerPages.pages map_to_list (fun _ => 0) envs 10.

(** A filter with one key, in a new file. *)
Definition one_key : outcome TableError (t * PagerPages.t MemoryFile.t) :=
  match new [0; 0; 0; 0] [0; 0; 0; 0] (fun b => b) 7 "k" 4 10 (Some 7) (PagerPages.mk PagerContract.demo_start 0) with
  | (Ok f, st) => match insert [0; 0; 0; 0] [0; 0; 0; 0] [1] (f, st) with
                  | (Ok _, fst_) => Ok fst_ | (Err e, _) => Err e | (Panic, _) => Panic end
  | (Err e, _) => Err e
  | (Panic, _) => Panic
  end.

(** While the pages are cached the key is found; after [clear_cache] the
    pager reads them from the file and refuses their types, 15 and 14, so the
    filter answers nothing and cannot be opened. *)
Example bloom_pages_lost :
  (x ← one_key;
   Ok ((contains [1] x.1 x.2).1,
       match Pager.clear_cache map_to_list PagerContract.demo_env (PagerPages.pager x.2) with
       | (Ok _, p) => ((contains [1] x.1 (PagerPages.mk p 0)).1, (open 7 "k" (root_page_id x.1) (PagerPages.mk p 0)).1)
       | _ => (Panic, Panic)
       end))
  = Ok (Ok true, (Err (TablePager (InvalidPageType 15)), Err (TablePager (InvalidPageType 14)))).
Proof. vm_compute. reflexivity. Qed.
End PagerSample.
