(* ===== verification/SSTable.v ===== *)
(** * Sorted string tables

    src/table/lsm/sstable.rs: the footer, data blocks and index block of an
    SSTable with their byte formats, the writer that lays them out on pages,
    and the reader that finds them again and looks keys up.

    SHA-256 and LZ4 are the codecs of PagerConfig.v, postcard's encoding of
    version chains is the [ChainCodec] of BTreeNode.v, pages are those of a
    [PageStore].  The page a writer fills is its bytes; the offset within it
    that the code keeps beside it is their number. *)
From S2P Require Import Prelude Types PagerConfig Page Mvcc OrdMap MemTables PageStore BTreeNode Bloom.

Abbreviation on_pager := PagedBloomFilter.on_pager.

Record SStableConfig : Type := mkSStableConfig {
  target_size : Z; block_size : Z; compression : option CompressionKind; encryption : option EncryptionKind;
  enable_checksums : bool; index_interval : Z }.
Definition default_sstable_config : SStableConfig := mkSStableConfig (2 * 1024 * 1024) (4 * 1024) None None true 16.

Record SStableMetadata : Type := mkMetadata {
  sst_id : Z; sst_level : Z; min_key : bytes; max_key : bytes; num_entries : Z; total_size : Z;
  created_lsn : LogSequenceNumber; first_page_id : PageId; num_pages : Z;
  index_offset : Z; bloom_filter_offset : Z; footer_offset : Z }.

(** ** The footer *)
Module SStableFooter.
Record t : Type := mk { magic : Z; version : Z; metadata : SStableMetadata; checksum : bytes }.
Definition MAGIC : Z := 0x005353544142.
Definition VERSION : Z := 1.
Definition SIZE : Z := 256.
Definition new (m : SStableMetadata) (checksum : bytes) : t := mk MAGIC VERSION m checksum.

(** The first 64 bytes of a key behind their number, padded. *)
Definition key_field (k : bytes) : bytes :=
  let l := take 64 k in to_le_bytes 4 (zlen l) ++ l ++ replicate (64 - length l) 0.
Definition to_bytes (f : t) : bytes :=
  let m := metadata f in
  resize SIZE 0
    (to_le_bytes 8 (magic f) ++ to_le_bytes 4 (version f) ++ to_le_bytes 8 (sst_id m) ++ to_le_bytes 4 (sst_level m)
     ++ key_field (min_key m) ++ key_field (max_key m)
     ++ to_le_bytes 8 (num_entries m) ++ to_le_bytes 8 (total_size m) ++ to_le_bytes 8 (created_lsn m)
     ++ to_le_bytes 8 (first_page_id m) ++ to_le_bytes 4 (num_pages m) ++ to_le_bytes 8 (index_offset m)
     ++ to_le_bytes 8 (bloom_filter_offset m) ++ to_le_bytes 8 (footer_offset m) ++ checksum f).

(** The length in front of a key is not compared with the 64 bytes behind it. *)
Definition from_bytes (bs : bytes) : outcome TableError t :=
  _ ← ensure (SIZE <=? zlen bs) (Corruption "SSTableFooter::from_bytes" "truncated_footer");
  magic ← get_le 8 0 bs;
  _ ← ensure (magic =? MAGIC) (Corruption "SSTableFooter::from_bytes" "invalid_magic");
  version ← get_le 4 8 bs;
  id ← get_le 8 12 bs;
  level ← get_le 4 20 bs;
  min_key_len ← get_le 4 24 bs;
  min_key ← slice 28 (28 + min_key_len) bs;
  max_key_len ← get_le 4 92 bs;
  max_key ← slice 96 (96 + max_key_len) bs;
  num_entries ← get_le 8 160 bs;
  total_size ← get_le 8 168 bs;
  created_lsn ← get_le 8 176 bs;
  first_page_id ← get_le 8 184 bs;
  num_pages ← get_le 4 192 bs;
  index_offset ← get_le 8 196 bs;
  bloom_filter_offset ← get_le 8 204 bs;
  footer_offset ← get_le 8 212 bs;
  checksum ← slice 220 252 bs;
  Ok (mk magic version
        (mkMetadata id level min_key max_key num_entries total_size created_lsn first_page_id num_pages
           index_offset bloom_filter_offset footer_offset) checksum).
End SStableFooter.

(** ** Data blocks *)
Module DataBlock.
(** Keys with their version chains, in the order of the keys. *)
Abbreviation t := (list (bytes * VersionChain.t)).
Definition HEADER_SIZE : Z := 37.

Fixpoint ascending {A} (key_of : A -> bytes) (l : list A) : bool :=
  match l with
  | a :: (b :: _) as l' => key_ltb (key_of a) (key_of b) && ascending key_of l'
  | _ => true
  end.
(** An [assert!] of the order. *)
Definition from_entries {E} (l : t) : outcome E t := if ascending fst l then Ok l else Panic.
Definition add (k : bytes) (c : VersionChain.t) (b : t) : outcome TableError t :=
  _ ← ensure (match last b with Some x => key_ltb x.1 k | None => true end)
        (InvalidOperationState "DataBlock::add" "Keys must be added in sorted order");
  Ok (b ++ [(k, c)]).
Definition first_key (b : t) : option bytes := fst <$> head b.
Definition last_key (b : t) : option bytes := fst <$> last b.
Definition search (b : t) (k : bytes) : option nat :=
  let '(found, i) := binary_search_by fst b k in if found then Some i else None.
Definition get (b : t) (k : bytes) : option VersionChain.t :=
  match search b k with Some i => snd <$> b !! i | None => None end.

Section Codec.
Context `{Codecs} `{ChainCodec}.

Definition entry_bytes (x : bytes * VersionChain.t) : bytes :=
  to_le_bytes 4 (as_u32 (zlen x.1)) ++ x.1
    ++ to_le_bytes 4 (as_u32 (zlen (chain_to_bytes x.2))) ++ chain_to_bytes x.2.
Definition to_bytes (compress : bool) (b : t) : bytes :=
  let data := flat_map entry_bytes b in
  let '(final_data, compressed_flag) :=
    if compress && (128 <? zlen data)
    then let compressed := lz4_compress data in
         if zlen compressed <? zlen data then (compressed, 1) else (data, 0)
    else (data, 0) in
  to_le_bytes 4 (as_u32 (zlen b)) ++ [compressed_flag] ++ sha256 final_data ++ final_data.

Definition corrupt (what : string) : TableError := Corruption "DataBlock::from_bytes" what.
Fixpoint read_entries (n : nat) (offset : Z) (data : bytes) : outcome TableError t :=
  match n with
  | O => Ok []
  | S n =>
      _ ← ensure (offset + 4 <=? zlen data) (corrupt "truncated_entry");
      key_len ← get_le 4 offset data;
      let offset := offset + 4 in
      _ ← ensure (offset + key_len <=? zlen data) (corrupt "truncated_key");
      key ← slice offset (offset + key_len) data;
      let offset := offset + key_len in
      _ ← ensure (offset + 4 <=? zlen data) (corrupt "truncated_chain_length");
      chain_len ← get_le 4 offset data;
      let offset := offset + 4 in
      _ ← ensure (offset + chain_len <=? zlen data) (corrupt "truncated_chain_data");
      chain_bytes ← slice offset (offset + chain_len) data;
      chain ← ok_or (chain_from_bytes chain_bytes) (corrupt "deserialization_error");
      rest ← read_entries n (offset + chain_len) data;
      Ok ((key, chain) :: rest)
  end.
Definition from_bytes (bs : bytes) : outcome TableError t :=
  _ ← ensure (HEADER_SIZE <=? zlen bs) (corrupt "truncated_block");
  num_entries ← get_le 4 0 bs;
  compressed_flag ← index 4 bs;
  checksum ← slice 5 37 bs;
  data_bytes ← slice 37 (zlen bs) bs;
  _ ← ensure (bytes_eqb checksum (sha256 data_bytes)) (corrupt "checksum_mismatch");
  data ← (if compressed_flag =? 1 then ok_or (lz4_decompress data_bytes) (corrupt "decompression_error")
          else Ok data_bytes);
  entries ← read_entries (Z.to_nat num_entries) 0 data;
  _ ← ensure (ascending fst entries) (corrupt "unsorted_entries");
  Ok entries.
Definition estimate_size (b : t) : Z :=
  HEADER_SIZE + foldr Z.add 0 (map (fun x => 4 + zlen x.1 + 4 + zlen (chain_to_bytes x.2)) b).
End Codec.
End DataBlock.

(** ** The index *)
Record IndexEntry : Type := mkIndex { ie_first_key : bytes; ie_page_id : PageId; ie_offset : Z }.

Module IndexBlock.
Abbreviation t := (list IndexEntry).
Definition HEADER_SIZE : Z := 36.

(** An [assert!] of the order. *)
Definition from_entries {E} (l : t) : outcome E t := if DataBlock.ascending ie_first_key l then Ok l else Panic.
Definition add (k : bytes) (p : PageId) (offset : Z) (b : t) : outcome TableError t :=
  _ ← ensure (match last b with Some x => key_ltb (ie_first_key x) k | None => true end)
        (InvalidOperationState "IndexBlock::add" "Index entries must be added in sorted order");
  Ok (b ++ [mkIndex k p offset]).

(** The rightmost entry whose first key is at most the key; every round
    halves the interval, so as many rounds as entries are enough. *)
Fixpoint search_loop (fuel : nat) (b : t) (key : bytes) (left right : nat) (result : option nat) : option nat :=
  match fuel with
  | O => result
  | S fuel =>
      if (left <? right)%nat then
        let mid := (left + (right - left) / 2)%nat in
        if match b !! mid with Some e => key_leb (ie_first_key e) key | None => false end
        then search_loop fuel b key (S mid) right (Some mid)
        else search_loop fuel b key left mid result
      else result
  end.
Definition search (b : t) (key : bytes) : option nat := search_loop (length b) b key 0 (length b) None.

Section Codec.
Context `{Codecs}.

Definition entry_bytes (e : IndexEntry) : bytes :=
  to_le_bytes 4 (as_u32 (zlen (ie_first_key e))) ++ ie_first_key e
    ++ to_le_bytes 8 (ie_page_id e) ++ to_le_bytes 8 (ie_offset e).
Definition to_bytes (b : t) : bytes :=
  let entries_data := flat_map entry_bytes b in
  to_le_bytes 4 (as_u32 (zlen b)) ++ sha256 entries_data ++ entries_data.

Definition corrupt (what : string) : TableError := Corruption "IndexBlock::from_bytes" what.
Fixpoint read_entries (n : nat) (offset : Z) (bs : bytes) : outcome TableError t :=
  match n with
  | O => Ok []
  | S n =>
      _ ← ensure (offset + 4 <=? zlen bs) (corrupt "truncated_entry_key_len");
      key_len ← get_le 4 offset bs;
      let offset := offset + 4 in
      _ ← ensure (offset + key_len <=? zlen bs) (corrupt "truncated_entry_key");
      first_key ← slice offset (offset + key_len) bs;
      let offset := offset + key_len in
      _ ← ensure (offset + 16 <=? zlen bs) (corrupt "truncated_entry_pointer");
      page_id ← get_le 8 offset bs;
      block_offset ← get_le 8 (offset + 8) bs;
      rest ← read_entries n (offset + 16) bs;
      Ok (mkIndex first_key page_id block_offset :: rest)
  end.
Definition from_bytes (bs : bytes) : outcome TableError t :=
  _ ← ensure (HEADER_SIZE <=? zlen bs) (corrupt "truncated_header");
  num_entries ← get_le 4 0 bs;
  stored_checksum ← slice 4 36 bs;
  entries_data ← slice 36 (zlen bs) bs;
  _ ← ensure (bytes_eqb stored_checksum (sha256 entries_data)) (corrupt "checksum_mismatch");
  entries ← read_entries (Z.to_nat num_entries) HEADER_SIZE bs;
  _ ← ensure (DataBlock.ascending ie_first_key entries) (corrupt "unsorted_entries");
  Ok entries.
Definition estimate_size (b : t) : Z :=
  HEADER_SIZE + foldr Z.add 0 (map (fun e => 4 + zlen (ie_first_key e) + 8 + 8) b).
End Codec.
End IndexBlock.

(** ** The writer *)
Module SStableWriter.
Record t : Type := mk {
  id : Z; level : Z; config : SStableConfig; bloom_builder : option BloomFilter.Builder; entries : DataBlock.t }.

Definition new (id level : Z) (config : SStableConfig) (estimated_entries : Z) : t :=
  mk id level config
    (if 0 <? estimated_entries
     then Some (BloomFilter.with_bits_per_key 10 (BloomFilter.builder estimated_entries)) else None) [].
Definition add (k : bytes) (c : VersionChain.t) (w : t) : outcome TableError t :=
  _ ← ensure (match last (entries w) with Some x => key_ltb x.1 k | None => true end)
        (InvalidOperationState "SStableBuilder::add" "Keys must be added in sorted order");
  Ok (mk (id w) (level w) (config w) (bloom_builder w) (entries w ++ [(k, c)])).

(** What [finish] keeps while it writes: the offset of the current page in
    the table, the page with its bytes, the pages so far and the index. *)
Record Layout : Type := mkLayout {
  current_offset : Z; current_page : PageId; page_data : bytes; pages : list PageId; index_entries : list IndexEntry }.

Section Write.
Context {P : Type} `{PageStore P} `{Codecs} `{ChainCodec}.
Abbreviation M := (stateful (Layout * P) TableError).

Definition layout_pager {A} (m : stateful P PagerError A) : M A := fun '(y, p) =>
  let '(r, p) := on_pager m p in (r, (y, p)).
Definition upd (f : Layout -> Layout) : M unit := modify (fun s => (f s.1, s.2)).

(** The current page is written and another one begun when [len] bytes do
    not fit behind it. *)
Definition make_room (len : Z) : M unit :=
  s ← gets (fun s => s);
  let y := s.1 in
  if data_size s.2 <? zlen (page_data y) + len then
    _ ← layout_pager (write_page (current_page y) PageType.LsmData (page_data y));
    new_page_id ← layout_pager (allocate_page PageType.LsmData);
    upd (fun y => mkLayout (as_u64 (current_offset y + zlen (page_data y))) new_page_id [] (pages y ++ [new_page_id])
                    (index_entries y))
  else mret tt.
Definition append (bs : bytes) : M unit :=
  upd (fun y => mkLayout (current_offset y) (current_page y) (page_data y ++ bs) (pages y) (index_entries y)).

Definition write_block (compress : bool) (block_entries : DataBlock.t) : M unit :=
  block ← lift (DataBlock.from_entries block_entries);
  first_key ← lift (unwrap (DataBlock.first_key block));
  let block_bytes := DataBlock.to_bytes compress block in
  _ ← make_room (zlen block_bytes);
  _ ← upd (fun y => mkLayout (current_offset y) (current_page y) (page_data y) (pages y)
                      (index_entries y ++ [mkIndex first_key (current_page y) (zlen (page_data y))]));
  append block_bytes.
Definition entry_size (x : bytes * VersionChain.t) : Z := 4 + zlen x.1 + 4 + zlen (chain_to_bytes x.2).
(** The entries in blocks of about the target size. *)
Fixpoint write_blocks (target : Z) (compress : bool) (l block_entries : DataBlock.t) (block_size_estimate : Z) : M unit :=
  match l with
  | [] => match block_entries with [] => mret tt | _ => write_block compress block_entries end
  | x :: l =>
      let size := entry_size x in
      if negb (bool_decide (block_entries = [])) && (target <? block_size_estimate + size) then
        _ ← write_block compress block_entries;
        write_blocks target compress l [x] size
      else write_blocks target compress l (block_entries ++ [x]) (block_size_estimate + size)
  end.

Definition write_bloom (bloom : option BloomFilter.t) : M Z :=
  match bloom with
  | None => mret 0
  | Some f =>
      offset ← gets (fun s => as_u64 (current_offset s.1 + zlen (page_data s.1)));
      let bloom_header := to_le_bytes 4 (as_u32 (BloomFilter.num_hash_functions f)) ++ to_le_bytes 4 (as_u32 (BloomFilter.num_bits f)) in
      _ ← make_room (zlen bloom_header + zlen (BloomFilter.as_bytes f));
      _ ← append bloom_header;
      _ ← append (BloomFilter.as_bytes f);
      mret offset
  end.
Definition checksum_of (m : SStableMetadata) : bytes :=
  sha256 (to_le_bytes 8 (sst_id m) ++ to_le_bytes 4 (sst_level m) ++ min_key m ++ max_key m ++ to_le_bytes 8 (num_entries m)).

(** [optimal] is the number of hash functions for a number of bits per key,
    computed in floating point.  The number of pages is taken before the
    footer may need a page of its own. *)
Definition write_all (w : t) (bloom : option BloomFilter.t) (min_key max_key : bytes) (first_page_id : PageId)
    (created_lsn : LogSequenceNumber) : M SStableMetadata :=
  let compress := bool_decide (is_Some (compression (config w))) in
  _ ← write_blocks (block_size (config w)) compress (entries w) [] 0;
  y ← gets fst;
  let index_offset := as_u64 (current_offset y + zlen (page_data y)) in
  index_block ← lift (IndexBlock.from_entries (index_entries y));
  let index_bytes := IndexBlock.to_bytes index_block in
  _ ← make_room (zlen index_bytes);
  _ ← append index_bytes;
  bloom_filter_offset ← write_bloom bloom;
  y ← gets fst;
  let footer_offset := as_u64 (current_offset y + zlen (page_data y)) in
  let metadata := mkMetadata (id w) (level w) min_key max_key (zlen (entries w)) (as_u64 (footer_offset + SStableFooter.SIZE))
                    created_lsn first_page_id (as_u32 (zlen (pages y))) index_offset bloom_filter_offset footer_offset in
  let footer_bytes := SStableFooter.to_bytes (SStableFooter.new metadata (checksum_of metadata)) in
  _ ← make_room (zlen footer_bytes);
  _ ← append footer_bytes;
  y ← gets fst;
  _ ← layout_pager (write_page (current_page y) PageType.LsmData (page_data y));
  mret metadata.
Definition build_bloom (optimal : Z -> Z) (w : t) : outcome TableError (option BloomFilter.t) :=
  match bloom_builder w with
  | Some b => f ← BloomFilter.insert_all (map fst (entries w)) (BloomFilter.build optimal b); Ok (Some f)
  | None => Ok None
  end.
(** A layout is local to the call. *)
Definition with_layout {A} (y : Layout) (m : M A) : stateful P TableError A := fun p =>
  let '(r, (_, p)) := m (y, p) in (r, p).
Definition finish (optimal : Z -> Z) (w : t) (created_lsn : LogSequenceNumber) : stateful P TableError SStableMetadata :=
  match head (entries w), last (entries w) with
  | Some lo, Some hi =>
      bloom ← lift (build_bloom optimal w);
      first_page_id ← on_pager (allocate_page PageType.LsmData);
      with_layout (mkLayout 0 first_page_id [] [first_page_id] [])
        (write_all w bloom lo.1 hi.1 first_page_id created_lsn)
  | _, _ => lift (Err (InvalidOperationState "SStableBuilder::build" "Cannot create empty SSTable"))
  end.
End Write.
End SStableWriter.

(** ** The reader *)
Module SStableReader.
Record t : Type := mk {
  metadata : SStableMetadata; index_block : IndexBlock.t; bloom_filter : option BloomFilter.t; config : SStableConfig }.

Section Read.
Context {P : Type} `{PageStore P} `{Codecs} `{ChainCodec}.
Abbreviation M := (stateful P TableError).

Definition corrupt (what : string) : TableError := Corruption "SSTableReader::open" what.
(** The last bytes of a page as a footer of the table that begins at
    [first]; [from_bytes]'s errors are ignored, its panics are not. *)
Definition candidate (first : PageId) (page_count : Z) (data : bytes) : outcome TableError (option SStableFooter.t) :=
  if SStableFooter.SIZE <=? zlen data then
    footer_bytes ← slice (zlen data - SStableFooter.SIZE) (zlen data) data;
    match SStableFooter.from_bytes footer_bytes with
    | Ok c =>
        let m := SStableFooter.metadata c in
        Ok (if (first_page_id m =? first) && (num_pages m =? page_count) && (0 <? num_entries m)
               && (index_offset m <? footer_offset m)
               && ((bloom_filter_offset m =? 0) || (bloom_filter_offset m <? footer_offset m))
            then Some c else None)
    | Err _ => Ok None
    | Panic => Panic
    end
  else Ok None.
(** At most 10001 pages are looked at, which [MAX_PAGES] rounds allow. *)
Definition MAX_PAGES : nat := Z.to_nat 10001.
Fixpoint find_footer (fuel : nat) (first current_page_id page_count : Z) : M SStableFooter.t :=
  match fuel with
  | O => lift (Err (corrupt "footer_not_found"))
  | S fuel => fun p =>
      match read_page current_page_id p with
      | (Ok data, p) =>
          (let page_count := as_u32 (page_count + 1) in
           c ← lift (candidate first page_count data);
           match c with
           | Some c => mret c
           | None =>
               if 10000 <? page_count then lift (Err (corrupt "footer_not_found"))
               else find_footer fuel first (as_u64 (current_page_id + 1)) page_count
           end) p
      | (Err _, p) => (Err (corrupt "footer_not_found"), p)
      | (Panic, p) => (Panic, p)
      end
  end.

Definition corrupt_read (what : string) : TableError := Corruption "SSTableReader::read_data" what.
(** The page with the offset, and the offset within it; [n] pages are left,
    and the last of them must reach the offset. *)
Fixpoint find_page (n : nat) (page_id cumulative_offset target_offset : Z) : M (PageId * Z) :=
  match n with
  | O => mret (page_id, 0)
  | S n =>
      data ← on_pager (read_page page_id);
      let data_len := zlen data in
      if target_offset <? cumulative_offset + data_len then mret (page_id, target_offset - cumulative_offset)
      else
        match n with
        | O => lift (Err (corrupt_read "offset_out_of_range"))
        | S _ => find_page n (as_u64 (page_id + 1)) (cumulative_offset + data_len) target_offset
        end
  end.
(** Every round reads at least a byte. *)
Fixpoint read_loop (fuel : nat) (page_id page_offset remaining : Z) : M bytes :=
  match fuel with
  | O => mret []
  | S fuel =>
      if 0 <? remaining then
        data ← on_pager (read_page page_id);
        _ ← lift (ensure (page_offset <? zlen data) (corrupt_read "invalid_offset"));
        let to_read := Z.min remaining (zlen data - page_offset) in
        l ← lift (slice page_offset (page_offset + to_read) data);
        rest ← (if (zlen data <=? page_offset + to_read) && (0 <? remaining - to_read)
                then read_loop fuel (as_u64 (page_id + 1)) 0 (remaining - to_read)
                else read_loop fuel page_id (page_offset + to_read) (remaining - to_read));
        mret (l ++ rest)
      else mret []
  end.
(** A vector of more than [isize::MAX] bytes panics. *)
Definition read_data_with_size (first offset size num_pages : Z) : M bytes :=
  _ ← lift (if 2 ^ 63 <=? size then Panic else Ok tt);
  x ← find_page (Z.to_nat num_pages) first 0 offset;
  read_loop (Z.to_nat size) x.1 x.2 size.

Definition open (first : PageId) (config : SStableConfig) : M t :=
  footer ← find_footer MAX_PAGES first first 0;
  let m := SStableFooter.metadata footer in
  let index_end := if 0 <? bloom_filter_offset m then bloom_filter_offset m else footer_offset m in
  index_data ← read_data_with_size first (index_offset m) (as_u64 (index_end - index_offset m)) (num_pages m);
  index_block ← lift (IndexBlock.from_bytes index_data);
  bloom ← (if 0 <? bloom_filter_offset m then
             bloom_data ← read_data_with_size first (bloom_filter_offset m)
                            (as_u64 (footer_offset m - bloom_filter_offset m)) (num_pages m);
             _ ← lift (ensure (8 <=? zlen bloom_data) (corrupt "truncated_bloom_filter"));
             num_hash ← lift (get_le 4 0 bloom_data);
             num_bits ← lift (get_le 4 4 bloom_data);
             bits ← lift (slice 8 (zlen bloom_data) bloom_data);
             mret (Some (BloomFilter.from_bytes_with_size bits num_bits num_hash))
           else mret None);
  mret (mk m index_block bloom config).

Definition may_contain (key : bytes) (r : t) : outcome TableError bool :=
  match bloom_filter r with Some f => BloomFilter.contains key f | None => Ok true end.

(** The lengths of [n] pages from the first one on. *)
Fixpoint cumulative (n : nat) (page_id : PageId) : M Z :=
  match n with
  | O => mret 0
  | S n =>
      data ← on_pager (read_page page_id);
      rest ← cumulative n (as_u64 (page_id + 1));
      mret (zlen data + rest)
  end.
(** The end of a block within its page: the next block, the index, or the
    end of the page. *)
Definition block_end (r : t) (idx : nat) (e : IndexEntry) (page_data : bytes) : M Z :=
  match index_block r !! S idx with
  | Some next_entry =>
      mret (if ie_page_id next_entry =? ie_page_id e then ie_offset next_entry else zlen page_data)
  | None =>
      cumulative_offset ← cumulative (Z.to_nat (as_u64 (ie_page_id e - first_page_id (metadata r)))) (first_page_id (metadata r));
      let index_start := index_offset (metadata r) in
      mret (if (cumulative_offset <=? index_start) && (index_start <? cumulative_offset + zlen page_data)
            then index_start - cumulative_offset else zlen page_data)
  end.
Definition bounded_block (location : string) (start stop : Z) (page_data : bytes) : outcome TableError DataBlock.t :=
  _ ← ensure (negb ((zlen page_data <=? start) || (zlen page_data <? stop) || (stop <=? start)))
        (Corruption location "invalid_block_bounds");
  block_bytes ← slice start stop page_data;
  DataBlock.from_bytes block_bytes.

(** The newest version committed at or below the LSN; an empty value is a
    deletion and returned as it is. *)
Definition value_at (c : VersionChain.t) (lsn : LogSequenceNumber) : outcome TableError (option bytes) :=
  match Memtable.visible_at c lsn with
  | Some (VersionValue.Inline d) => Ok (Some d)
  | Some (VersionValue.External _) =>
      Err (InvalidOperationState "SSTableReader::get" "Found external VersionValue in SSTable")
  | None => Ok None
  end.
Definition get (key : bytes) (snapshot_lsn : LogSequenceNumber) (r : t) : M (option bytes) :=
  b ← lift (may_contain key r);
  if negb b then mret None
  else
    match IndexBlock.search (index_block r) key with
    | None => mret None
    | Some idx =>
        index_entry ← lift (ok_or (index_block r !! idx) (Corruption "SSTableReader::get" "index_entry_not_found"));
        page_data ← on_pager (read_page (ie_page_id index_entry));
        stop ← block_end r idx index_entry page_data;
        block ← lift (bounded_block "SSTableReader::get" (ie_offset index_entry) stop page_data);
        match DataBlock.get block key with
        | None => mret None
        | Some c => lift (value_at c snapshot_lsn)
        end
    end.
Definition get_stream := get.
End Read.
End SStableReader.
