(* ===== verification/SSTableLaws.v ===== *)
(** * What an SSTable's writer leaves in the store

    Laws of SSTable.v: the codecs of footers, data blocks and indexes are
    inverse, the two binary searches find what they should, and the writer
    leaves its blocks, the index, the Bloom filter and the footer on
    consecutive pages ([table_at]).  SSTableReads.v reads them back. *)
From stdpp Require Import sorting.
From S2P Require Import Prelude Types PagerConfig Page Mvcc OrdMap MemTables PageStore BTreeNode Bloom BloomLaws BloomPages SSTable.

(** ** Order *)
Section Ascending.
Context {A : Type}.
Variable key_of : A -> bytes.
Definition key_below (a b : A) : Prop := key_lt (key_of a) (key_of b).

Lemma key_below_trans : Transitive key_below.
Proof. intros a b c. apply key_lt_trans. Qed.
Lemma ascending_spec l : DataBlock.ascending key_of l = true <-> StronglySorted key_below l.
Proof.
  induction l as [|a [|b l] IH]; simpl; [split; [constructor|done]|split; [repeat constructor|done]|].
  simpl in IH. rewrite andb_true_iff, IH. split.
  - intros [Hab Hl]. constructor; [done|]. constructor; [done|]. apply StronglySorted_inv in Hl as [_ Hf].
    eapply Forall_impl; [exact Hf|]. intros x. by apply key_below_trans.
  - intros [Hl Hf]%StronglySorted_inv. apply Forall_cons in Hf as [Hab _]. done.
Qed.
Lemma below_le l : StronglySorted key_below l -> StronglySorted (key_le key_of) l.
Proof.
  intros Hl. induction Hl as [|a l Hl IH Hf]; constructor; [done|].
  eapply Forall_impl; [exact Hf|]. intros x Hx. apply key_leb_spec. by right.
Qed.
End Ascending.

Lemma sorted_below {V} (l : list (bytes * V)) : BTreeMap.sorted l <-> StronglySorted (key_below fst) l.
Proof.
  unfold BTreeMap.sorted, BTreeMap.keys. induction l as [|x l IH]; simpl; [split; constructor|].
  split; intros [Hl Hf]%StronglySorted_inv; constructor; try tauto.
  - by rewrite Forall_fmap in Hf.
  - by rewrite Forall_fmap.
Qed.

(** ** Codecs *)
Lemma flat_map_snoc_app {A B} (f : A -> list B) pre x l post :
  pre ++ flat_map f (x :: l) ++ post = (pre ++ f x) ++ flat_map f l ++ post.
Proof. simpl. by rewrite <- !app_assoc. Qed.

Section Codecs.
Context `{CodecsLaws} `{ChainCodecLaws}.

Definition block_fits (b : DataBlock.t) : Prop := zlen (flat_map DataBlock.entry_bytes b) < 2 ^ 32.
Lemma zlen_entry x : zlen (DataBlock.entry_bytes x) = 8 + zlen x.1 + zlen (chain_to_bytes x.2).
Proof. unfold DataBlock.entry_bytes. zlen_tac. Qed.
Lemma zlen_entries_ge (l : DataBlock.t) : 8 * zlen l <= zlen (flat_map DataBlock.entry_bytes l).
Proof. induction l as [|x l IH]; simpl; [done|]. rewrite zlen_app, zlen_entry. zlen_tac. Qed.

Lemma read_entries_back l : forall pre post, block_fits l ->
  DataBlock.read_entries (length l) (zlen pre) (pre ++ flat_map DataBlock.entry_bytes l ++ post) = Ok l.
Proof.
  induction l as [|[k c] l IH]; intros pre post Hl; simpl; [done|].
  unfold block_fits in Hl. simpl in Hl. rewrite zlen_app, zlen_entry in Hl. simpl in Hl.
  pose proof (zlen_nonneg k) as Hk. pose proof (zlen_nonneg (chain_to_bytes c)) as Hc.
  pose proof (zlen_nonneg (flat_map DataBlock.entry_bytes l)) as Hr.
  specialize (IH (pre ++ DataBlock.entry_bytes (k, c)) post ltac:(unfold block_fits; lia)).
  rewrite zlen_app, zlen_entry in IH. simpl in IH.
  set (rest := flat_map DataBlock.entry_bytes l) in *. unfold DataBlock.entry_bytes in *. cbn [fst snd] in *.
  assert (is_u32 (zlen k)) by (unfold fits; lia). assert (is_u32 (zlen (chain_to_bytes c))) by (unfold fits; lia).
  rewrite !as_u_id in * by done. rewrite <- !app_assoc in *. read_back.
  rewrite chain_roundtrip. simpl.
  replace (zlen pre + 4 + zlen k + 4 + zlen (chain_to_bytes c)) with (zlen pre + (8 + zlen k + zlen (chain_to_bytes c))) by lia.
  by rewrite IH.
Qed.
Lemma block_back compress b : block_fits b -> StronglySorted (key_below fst) b ->
  DataBlock.from_bytes (DataBlock.to_bytes compress b) = Ok b.
Proof.
  intros Hf Hs. unfold DataBlock.to_bytes. set (data := flat_map DataBlock.entry_bytes b).
  assert (Hn : is_u32 (zlen b)).
  { pose proof (zlen_entries_ge b) as Hge. pose proof (zlen_nonneg b). unfold block_fits in Hf. unfold fits. lia. }
  assert (Hread : DataBlock.read_entries (Z.to_nat (zlen b)) 0 data = Ok b).
  { pose proof (read_entries_back b [] [] Hf) as Hr. rewrite app_nil_r in Hr. simpl in Hr. fold data in Hr.
    unfold zlen. rewrite Nat2Z.id. exact Hr. }
  assert (Hasc : DataBlock.ascending fst b = true) by by apply ascending_spec.
  assert (Hall : forall flag final, (flag = 1 /\ lz4_decompress final = Some data \/ flag = 0 /\ final = data) ->
    DataBlock.from_bytes (to_le_bytes 4 (as_u32 (zlen b)) ++ [flag] ++ sha256 final ++ final) = Ok b).
  { intros flag final Hfin. pose proof (sha256_len final) as Hsha. pose proof (zlen_nonneg final).
    unfold DataBlock.from_bytes. rewrite as_u_id by done. simpl app.
    rewrite ensure_true by (unfold DataBlock.HEADER_SIZE; zlen_tac). simpl. read_back.
    rewrite bytes_eqb_refl. simpl.
    destruct Hfin as [[-> Hd]|[-> ->]]; simpl; [rewrite Hd; simpl|]; rewrite Hread; simpl; by rewrite Hasc. }
  destruct (compress && (128 <? zlen data)); [|by apply Hall; right].
  destruct (zlen (lz4_compress data) <? zlen data); apply Hall; [left|by right].
  split; [done|]. by apply lz4_roundtrip.
Qed.

Lemma zlen_index_entry x : zlen (IndexBlock.entry_bytes x) = 20 + zlen (ie_first_key x).
Proof. unfold IndexBlock.entry_bytes. zlen_tac. Qed.
Definition index_fits (b : IndexBlock.t) : Prop :=
  zlen (flat_map IndexBlock.entry_bytes b) < 2 ^ 32 /\ Forall (fun e => is_u64 (ie_page_id e) /\ is_u64 (ie_offset e)) b.
Lemma read_index_back l : forall pre, index_fits l ->
  IndexBlock.read_entries (length l) (zlen pre) (pre ++ flat_map IndexBlock.entry_bytes l) = Ok l.
Proof.
  induction l as [|[k p o] l IH]; intros pre [Hl Hu]; simpl; [done|].
  apply Forall_cons in Hu as [[Hp Ho] Hu]. simpl in *. rewrite zlen_app, zlen_index_entry in Hl. simpl in Hl.
  pose proof (zlen_nonneg k) as Hk. pose proof (zlen_nonneg (flat_map IndexBlock.entry_bytes l)) as Hr.
  specialize (IH (pre ++ IndexBlock.entry_bytes (mkIndex k p o)) ltac:(split; [lia|done])).
  rewrite zlen_app, zlen_index_entry in IH. simpl in IH.
  set (rest := flat_map IndexBlock.entry_bytes l) in *. unfold IndexBlock.entry_bytes in *. simpl in *.
  assert (is_u32 (zlen k)) by (unfold fits; lia). rewrite !as_u_id in * by done. rewrite <- !app_assoc in *. read_back.
  replace (zlen pre + 4 + zlen k + 16) with (zlen pre + (20 + zlen k)) by lia. by rewrite IH.
Qed.
Lemma index_back b : index_fits b -> StronglySorted (key_below ie_first_key) b ->
  IndexBlock.from_bytes (IndexBlock.to_bytes b) = Ok b.
Proof.
  intros Hf Hs. unfold IndexBlock.to_bytes. set (data := flat_map IndexBlock.entry_bytes b).
  assert (Hn : is_u32 (zlen b)).
  { destruct Hf as [Hf _]. assert (20 * zlen b <= zlen data).
    { subst data. clear. induction b as [|x b IH]; simpl; [done|]. rewrite zlen_app, zlen_index_entry. zlen_tac. }
    pose proof (zlen_nonneg b). unfold fits. fold data in Hf. lia. }
  pose proof (sha256_len data) as Hsha. pose proof (zlen_nonneg data). rewrite as_u_id by done.
  unfold IndexBlock.from_bytes. rewrite ensure_true by (unfold IndexBlock.HEADER_SIZE; zlen_tac). simpl. read_back.
  rewrite bytes_eqb_refl. simpl.
  pose proof (read_index_back b (to_le_bytes 4 (zlen b) ++ sha256 data) Hf) as Hr.
  rewrite zlen_app, zlen_to_le_bytes, Hsha, <- app_assoc in Hr. fold data in Hr.
  unfold zlen at 1. rewrite Nat2Z.id. change IndexBlock.HEADER_SIZE with (Z.of_nat 4 + 32). rewrite Hr. simpl.
  assert (DataBlock.ascending ie_first_key b = true) as -> by by apply ascending_spec. done.
Qed.

(** Reading a field of a concatenation. *)
Definition field_offset (fs : list bytes) (i : nat) : Z := foldr Z.add 0 (map zlen (take i fs)).
Lemma zlen_fields (fs : list bytes) : zlen (mjoin fs) = foldr Z.add 0 (map zlen fs).
Proof. induction fs as [|x q IH]; simpl; [done|]. by rewrite zlen_app, IH. Qed.
Lemma slice_field (fs : list bytes) i f a b : fs !! i = Some f -> field_offset fs i = a -> b = a + zlen f ->
  slice (E := TableError) a b (mjoin fs) = Ok f.
Proof.
  unfold field_offset. intros Hi Ha ->. rewrite <- zlen_fields in Ha. rewrite <- (take_drop_middle fs i f Hi) at 1. rewrite join_app. simpl.
  rewrite slice_app_r by (pose proof (zlen_nonneg f); lia). rewrite Ha. apply slice_here; lia.
Qed.
Lemma get_field (fs : list bytes) i k z n off : fs !! i = Some (to_le_bytes k z) -> field_offset fs i = off ->
  n = Z.of_nat k -> fits (8 * n) z -> get_le (E := TableError) n off (mjoin fs) = Ok z.
Proof.
  unfold field_offset. intros Hi Ha Hn Hz. rewrite <- zlen_fields in Ha. rewrite <- (take_drop_middle fs i _ Hi). rewrite join_app. simpl.
  rewrite get_le_app_r by lia. apply get_le_here; [lia|done|done].
Qed.
Lemma bind_reads {A B} (x : outcome TableError A) (f : A -> outcome TableError B) a r : x = Ok a -> f a = r -> (x ≫= f) = r.
Proof. by intros ->. Qed.
(** The [i]th field of a buffer is read next. *)
Ltac field_len := unfold field_offset; simpl; rewrite ?zlen_to_le_bytes; lia.
Ltac read_field i :=
  eapply bind_reads;
    [ first [ eapply (get_field _ i); [reflexivity|field_len|reflexivity|assumption]
            | eapply (slice_field _ i); [reflexivity|field_len|first [reflexivity|lia]] ]
    | cbv beta ].

(** The footer keeps 64 bytes of each key. *)
Definition meta_fits (m : SStableMetadata) : Prop :=
  is_u64 (sst_id m) /\ is_u32 (sst_level m) /\ is_u64 (num_entries m) /\ is_u64 (total_size m) /\ is_u64 (created_lsn m)
  /\ is_u64 (first_page_id m) /\ is_u32 (num_pages m) /\ is_u64 (index_offset m) /\ is_u64 (bloom_filter_offset m)
  /\ is_u64 (footer_offset m).
Definition short_keys (m : SStableMetadata) : SStableMetadata :=
  mkMetadata (sst_id m) (sst_level m) (take 64 (min_key m)) (take 64 (max_key m)) (num_entries m) (total_size m)
    (created_lsn m) (first_page_id m) (num_pages m) (index_offset m) (bloom_filter_offset m) (footer_offset m).
Lemma zlen_key_field k : zlen (SStableFooter.key_field k) = 68.
Proof.
  unfold SStableFooter.key_field. rewrite !zlen_app, zlen_to_le_bytes. unfold zlen. rewrite length_replicate.
  pose proof (length_take_le k 64). rewrite length_take. lia.
Qed.
Lemma footer_back m sum : meta_fits m -> zlen sum = 32 ->
  zlen (SStableFooter.to_bytes (SStableFooter.new m sum)) = 256 /\
  SStableFooter.from_bytes (SStableFooter.to_bytes (SStableFooter.new m sum)) = Ok (SStableFooter.new (short_keys m) sum).
Proof.
  intros (H1' & H2' & H3' & H4' & H5' & H6' & H7' & H8' & H9' & H10') Hs. unfold SStableFooter.to_bytes.
  cbn [SStableFooter.metadata SStableFooter.new SStableFooter.magic SStableFooter.version SStableFooter.checksum].
  set (l := to_le_bytes 8 SStableFooter.MAGIC ++ _).
  assert (Hl : zlen l = 252).
  { subst l. rewrite !zlen_app, !zlen_key_field, !zlen_to_le_bytes, Hs. done. }
  assert (Hr : resize SStableFooter.SIZE 0 l = l ++ replicate 4 0).
  { unfold resize. rewrite Hl. done. }
  rewrite Hr. split; [rewrite zlen_app, Hl; done|]. unfold SStableFooter.from_bytes.
  eapply bind_reads; [apply ensure_true; rewrite zlen_app, Hl; done|cbv beta]. clear Hl Hr. subst l. unfold SStableFooter.key_field.
  assert (Hk : forall k : bytes, zlen (take 64 k) + zlen (replicate (64 - length (take 64 k)) 0) = 64 /\ is_u32 (zlen (take 64 k))).
  { intros k. unfold fits, zlen. rewrite length_replicate, length_take. lia. }
  destruct (Hk (min_key m)) as [Hk1 Hu1], (Hk (max_key m)) as [Hk2 Hu2].
  set (pad1 := replicate (64 - length (take 64 (min_key m))) 0) in *. set (pad2 := replicate (64 - length (take 64 (max_key m))) 0) in *.
  set (k1 := take 64 (min_key m)) in *. set (k2 := take 64 (max_key m)) in *.
  set (fs := [to_le_bytes 8 SStableFooter.MAGIC; to_le_bytes 4 SStableFooter.VERSION; to_le_bytes 8 (sst_id m);
    to_le_bytes 4 (sst_level m); to_le_bytes 4 (zlen k1); k1; pad1; to_le_bytes 4 (zlen k2); k2; pad2;
    to_le_bytes 8 (num_entries m); to_le_bytes 8 (total_size m); to_le_bytes 8 (created_lsn m);
    to_le_bytes 8 (first_page_id m); to_le_bytes 4 (num_pages m); to_le_bytes 8 (index_offset m);
    to_le_bytes 8 (bloom_filter_offset m); to_le_bytes 8 (footer_offset m); sum; replicate 4 0]).
  match goal with |- context [get_le 8 0 ?l] => replace l with (mjoin fs) by (subst fs; simpl; rewrite <- !app_assoc; done) end.
  assert (Hmagic : is_u64 SStableFooter.MAGIC) by done. assert (Hversion : is_u32 SStableFooter.VERSION) by done.
  read_field 0%nat. eapply bind_reads; [by apply ensure_true|cbv beta]. read_field 1%nat. read_field 2%nat. read_field 3%nat. read_field 4%nat. read_field 5%nat. read_field 7%nat.
  read_field 8%nat. read_field 10%nat. read_field 11%nat. read_field 12%nat. read_field 13%nat. read_field 14%nat.
  read_field 15%nat. read_field 16%nat. read_field 17%nat. read_field 18%nat. done.
Qed.
End Codecs.

(** ** Searches *)
Lemma search_loop_spec (b : IndexBlock.t) key : StronglySorted (key_below ie_first_key) b -> forall fuel left right result,
  (right - left <= fuel)%nat -> (left <= right <= length b)%nat ->
  (forall j e, b !! j = Some e -> (right <= j)%nat -> key_lt key (ie_first_key e)) ->
  (result = None /\ left = 0%nat \/ exists r e, result = Some r /\ left = S r /\ b !! r = Some e /\ key_leb (ie_first_key e) key = true) ->
  match IndexBlock.search_loop fuel b key left right result with
  | None => forall j e, b !! j = Some e -> key_lt key (ie_first_key e)
  | Some r => (exists e, b !! r = Some e /\ key_leb (ie_first_key e) key = true) /\
              forall j e, b !! j = Some e -> (r < j)%nat -> key_lt key (ie_first_key e)
  end.
Proof.
  intros Hs. induction fuel as [|fuel IH]; intros left right result Hf Hlr Hhi Hres; cbn [IndexBlock.search_loop]; cbv zeta.
  - assert (left = right) as <- by lia. destruct Hres as [[-> ->]|(r & e & -> & -> & He & Hle)].
    + intros j e Hj. apply (Hhi j e Hj). lia.
    + split; [by exists e|]. intros j x Hj Hr. apply (Hhi j x Hj). lia.
  - destruct (Nat.ltb_spec left right) as [Hlt|Hge].
    + set (mid := (left + (right - left) / 2)%nat).
      assert (Hmid : (left <= mid < right)%nat).
      { pose proof (Nat.div_lt (right - left) 2 ltac:(lia) ltac:(lia)). subst mid. lia. }
      destruct (lookup_lt_is_Some_2 b mid) as [e He]; [lia|]. rewrite He.
      destruct (key_leb (ie_first_key e) key) eqn:Hk.
      * apply IH; [lia|lia|done|]. right. by exists mid, e.
      * apply IH; [lia|lia| |done]. apply key_leb_false in Hk. intros j x Hj Hr.
        destruct (decide (j = mid)) as [->|]; [by simplify_eq|].
        eapply key_lt_trans; [exact Hk|]. apply (StronglySorted_lookup _ _ Hs mid j e x He Hj). lia.
    + assert (left = right) as <- by lia. destruct Hres as [[-> ->]|(r & e & -> & -> & He & Hle)].
      * intros j e Hj. apply (Hhi j e Hj). lia.
      * split; [by exists e|]. intros j x Hj Hr. apply (Hhi j x Hj). lia.
Qed.
Lemma search_spec (b : IndexBlock.t) key : StronglySorted (key_below ie_first_key) b ->
  match IndexBlock.search b key with
  | None => forall j e, b !! j = Some e -> key_lt key (ie_first_key e)
  | Some r => (exists e, b !! r = Some e /\ key_leb (ie_first_key e) key = true) /\
              forall j e, b !! j = Some e -> (r < j)%nat -> key_lt key (ie_first_key e)
  end.
Proof.
  intros Hs. apply search_loop_spec; [done|lia|lia| |by left].
  intros j e Hj Hle. apply lookup_lt_Some in Hj. lia.
Qed.

Lemma block_get (b : DataBlock.t) k : BTreeMap.sorted b -> DataBlock.get b k = BTreeMap.get b k.
Proof.
  intros Hs. unfold DataBlock.get, DataBlock.search. pose proof (proj1 (sorted_below b) Hs) as Hb.
  destruct (binary_search_by fst b k) as [found i] eqn:Hf.
  destruct (binary_search_cut fst b k found i (below_le fst b Hb) Hf) as [_ Hfound]. destruct found.
  - destruct Hfound as ([k' c] & Hi & <-). rewrite Hi. simpl. symmetry. apply BTreeMap.get_elem; [done|].
    by eapply list_elem_of_lookup_2.
  - symmetry. apply BTreeMap.get_None. intros ([k' c] & -> & Hin)%list_elem_of_fmap. by apply (Hfound _ Hin).
Qed.

(** ** The layout

    [blocks] on pages: every inner list is a page's blocks in order. *)
Section Layout.
Context `{CodecsLaws} `{ChainCodecLaws} {P : Type} `{PageStoreLaws P}.
Import SStableWriter.
Variable compress : bool.

Definition data_of (c : list DataBlock.t) : bytes := flat_map (DataBlock.to_bytes compress) c.
Definition key_of_block (b : DataBlock.t) : bytes := default [] (DataBlock.first_key b).
Fixpoint index_page (p : PageId) (off : Z) (c : list DataBlock.t) : list IndexEntry :=
  match c with
  | [] => []
  | b :: c => mkIndex (key_of_block b) p off :: index_page p (off + zlen (DataBlock.to_bytes compress b)) c
  end.
Fixpoint index_of (p : PageId) (pgs : list (list DataBlock.t)) : list IndexEntry :=
  match pgs with [] => [] | c :: pgs => index_page p 0 c ++ index_of (p + 1) pgs end.

Lemma index_page_app p off c c' :
  index_page p off (c ++ c') = index_page p off c ++ index_page p (off + zlen (data_of c)) c'.
Proof.
  revert off. induction c as [|b c IH]; intros off; simpl; [by rewrite zlen_nil, Z.add_0_r|].
  rewrite IH. f_equal. f_equal. f_equal. rewrite zlen_app. lia.
Qed.
Lemma index_of_app p pgs pgs' : index_of p (pgs ++ pgs') = index_of p pgs ++ index_of (p + zlen pgs) pgs'.
Proof.
  revert p. induction pgs as [|c pgs IH]; intros p; simpl; [by rewrite zlen_nil, Z.add_0_r|].
  rewrite IH, app_assoc. f_equal. f_equal. rewrite zlen_cons. lia.
Qed.
Lemma index_of_length p pgs : length (index_of p pgs) = length (concat pgs).
Proof.
  revert p. induction pgs as [|c pgs IH]; intros p; simpl; [done|]. rewrite !length_app, IH. f_equal.
  generalize 0. clear IH. induction c as [|b c IH]; intros off; simpl; [done|]. by rewrite IH.
Qed.
Lemma index_of_keys p pgs : map ie_first_key (index_of p pgs) = map key_of_block (concat pgs).
Proof.
  revert p. induction pgs as [|c pgs IH]; intros p; simpl; [done|]. rewrite !map_app, IH. f_equal.
  generalize 0. clear IH. induction c as [|b c IH]; intros off; simpl; [done|]. by rewrite IH.
Qed.

(** The blocks the writer makes of its entries. *)
Fixpoint split_blocks (target : Z) (l cur : DataBlock.t) (est : Z) : list DataBlock.t :=
  match l with
  | [] => match cur with [] => [] | _ => [cur] end
  | x :: l =>
      if negb (bool_decide (cur = [])) && (target <? est + entry_size x)
      then cur :: split_blocks target l [x] (entry_size x)
      else split_blocks target l (cur ++ [x]) (est + entry_size x)
  end.
Lemma split_concat target l : forall cur est, concat (split_blocks target l cur est) = cur ++ l.
Proof.
  induction l as [|x l IH]; intros cur est; simpl; [by destruct cur; simpl; rewrite ?app_nil_r|].
  destruct (negb _ && _); simpl; rewrite IH; [done|]. by rewrite <- app_assoc.
Qed.
Lemma split_nonempty target l : forall cur est, Forall (fun b => b <> []) (split_blocks target l cur est).
Proof.
  induction l as [|x l IH]; intros cur est; simpl; [by destruct cur; repeat constructor|].
  destruct (bool_decide_reflect (cur = [])); simpl; [apply IH|].
  destruct (_ <? _); [constructor; [done|]|]; apply IH.
Qed.

(** *** The state of the writer *)
Record laid (first : PageId) (done : list bytes) (y : Layout) (st : P) (m : gmap PageId bytes) : Prop := {
  l_holds : holds st m;
  l_first : 0 < first;
  l_pages : zlen (pages y) = zlen done + 1;
  l_current : current_page y = first + zlen done;
  l_next : next_page_id st = first + zlen done + 1;
  l_done i d : done !! i = Some d -> m !! (first + Z.of_nat i) = Some d;
  l_live : is_Some (m !! current_page y);
  l_offset : current_offset y = zlen (mjoin done);
  l_small : Forall (fun d => zlen d <= data_size st) done;
  l_full : Forall (fun d => 0 < zlen d) done;
  l_fits : zlen (page_data y) <= data_size st;
  l_few : zlen done <= 10000 }.

Lemma joined_size (size : Z) (l : list bytes) : Forall (fun d => zlen d <= size) l -> zlen (mjoin l) <= size * zlen l.
Proof.
  induction 1 as [|d l Hd Hl IH]; simpl; [change (0 <= size * 0); lia|]. rewrite zlen_app, zlen_cons. rewrite Z.mul_add_distr_l, Z.mul_1_r. lia.
Qed.
Lemma laid_offset first done y st m : laid first done y st m -> 0 <= current_offset y + zlen (page_data y) < 2 ^ 64.
Proof.
  intros []. rewrite l_offset0. pose proof (joined_size _ _ l_small0). destruct (data_size_bounds st m l_holds0).
  pose proof (zlen_nonneg (mjoin done)). pose proof (zlen_nonneg (page_data y)). pose proof (zlen_nonneg done).
  assert (data_size st * zlen done <= 65536 * 10000) by nia. lia.
Qed.

Lemma after_layout {A} (m : stateful P PagerError A) y st R :
  after store_faults m st R -> after store_faults (layout_pager m) (y, st) (fun a s' => s'.1 = y /\ R a s'.2).
Proof. unfold after, layout_pager, PagedBloomFilter.on_pager. by destruct (m st) as [[a|e|] s']. Qed.

Lemma after_upd_bind {B} f (g : unit -> stateful (Layout * P) TableError B) y st R :
  after store_faults (g tt) (f y, st) R -> after store_faults (upd f ≫= g) (y, st) R.
Proof. done. Qed.

Lemma make_room_ok first done len y st m : laid first done y st m -> 0 <= len <= data_size st ->
  zlen done < 10000 -> first + zlen done + 2 < 2 ^ 64 ->
  after store_faults (make_room len) (y, st) (fun _ s' => exists done' m', laid first done' s'.1 s'.2 m' /\
    zlen (page_data s'.1) + len <= data_size s'.2 /\ index_entries s'.1 = index_entries y /\ data_size s'.2 = data_size st /\
    (forall p, p < first -> m' !! p = m !! p) /\
    (done' = done /\ s'.1 = y \/
     done' = done ++ [page_data y] /\ page_data s'.1 = [])).
Proof.
  intros Hl Hlen Hfew Hnext. unfold make_room. apply after_get_bind. cbn [fst snd]. destruct (Z.ltb_spec (data_size st) (zlen (page_data y) + len)) as [Hlt|Hge].
  2: { unfold after. cbn. exists done, m. split_and!; [done|lia|done|done|done|by left]. }
  pose proof (laid_offset _ _ _ _ _ Hl) as Hoff. destruct Hl.
  eapply after_bind.
  { apply after_layout, (write_page_ok st m (current_page y) PageType.LsmData (page_data y) l_holds0 l_live0 eq_refl l_fits0). }
  intros _ [y1 st1] Hw. cbn in Hw. destruct Hw as (-> & Hh1 & [Esz Enx Ert Erw]).
  eapply after_bind.
  { apply after_layout, (allocate_page_ok st1 _ PageType.LsmData Hh1 eq_refl). lia. }
  intros q [y2 st2] Hw. cbn in Hw. destruct Hw as (-> & Hq & Hn2 & Hfresh & Hpos & Hh2 & Hd2 & _). assert (Hq' : q = first + zlen done + 1) by lia. clear Hq; subst q.
  unfold after, upd. cbn. exists (done ++ [page_data y]). eexists. split; [|split_and!; [..|right; done]].
  - rewrite l_current0 in *.
    assert (Hdone : zlen (done ++ [page_data y]) = zlen done + 1) by zlen_tac.
    destruct (data_size_bounds st m l_holds0) as [Hds _]. pose proof (zlen_nonneg done).
    constructor; simpl; rewrite ?Hdone; try lia.
    + exact Hh2.
    + rewrite zlen_app, l_pages0. zlen_tac.
    + intros i d Hi. apply lookup_app_Some in Hi as [Hi|[Hge Hi]].
      * pose proof (lookup_lt_Some _ _ _ Hi). rewrite !lookup_insert_ne; [by apply l_done0|..]; unfold zlen in *; lia.
      * destruct (i - length done)%nat as [|n] eqn:Hin; [|by destruct n]. simpl in Hi. injection Hi as <-.
        assert (first + Z.of_nat i = first + zlen done) as -> by (unfold zlen; lia).
        rewrite lookup_insert_ne by lia. by rewrite lookup_insert_eq.
    + rewrite lookup_insert_eq. by eexists.
    + rewrite as_u_id by exact Hoff. rewrite l_offset0, join_app, zlen_app. simpl. by rewrite app_nil_r.
    + apply Forall_app. split; [|constructor; [lia|constructor]]. eapply Forall_impl; [exact l_small0|]. simpl. intros. lia.
    + apply Forall_app. split; [done|]. constructor; [lia|constructor].
    + rewrite zlen_nil. lia.
  - simpl. rewrite zlen_nil. lia.
  - done.
  - simpl. lia.
  - intros p Hp. rewrite !lookup_insert_ne; [done|..]; rewrite ?l_current0; pose proof (zlen_nonneg done); lia.
Qed.

(** Bytes behind the page of a writer. *)
Lemma append_ok first done bs y st m (Q : unit -> Layout * P -> Prop) : laid first done y st m ->
  zlen (page_data y) + zlen bs <= data_size st ->
  (forall y', laid first done y' st m -> page_data y' = page_data y ++ bs -> index_entries y' = index_entries y -> Q tt (y', st)) ->
  after store_faults (append bs) (y, st) Q.
Proof.
  intros [] Hfit HQ. unfold after, append, upd. cbn. apply HQ; [|done|done]. constructor; try done. simpl. rewrite zlen_app. lia.
Qed.

(** *** The blocks *)
Definition blocks_laid (first : PageId) (pgs : list (list DataBlock.t)) (c : list DataBlock.t) (y : Layout) (st : P) (m : gmap PageId bytes) : Prop :=
  laid first (map data_of pgs) y st m /\ page_data y = data_of c /\ index_entries y = index_of first (pgs ++ [c]).

Lemma write_block_ok first pgs c b y st m : blocks_laid first pgs c y st m -> b <> [] -> StronglySorted (key_below fst) b ->
  zlen (DataBlock.to_bytes compress b) <= data_size st -> zlen pgs < 10000 -> first + zlen pgs + 2 < 2 ^ 64 ->
  after store_faults (write_block compress b) (y, st) (fun _ s' => exists pgs' c' m', blocks_laid first pgs' c' s'.1 s'.2 m' /\
    concat pgs' ++ c' = concat pgs ++ c ++ [b] /\ c' <> [] /\ zlen pgs' <= zlen pgs + 1 /\ data_size s'.2 = data_size st /\
    forall p, p < first -> m' !! p = m !! p).
Proof.
  intros (Hl & Hd & Hi) Hb Hs Hsz Hfew Hnext. unfold write_block.
  assert (Hasc : DataBlock.ascending fst b = true) by by apply ascending_spec.
  eapply after_bind; [eapply (after_lift _ _ _ b (fun x s => x = b /\ s = (y, st))); [unfold DataBlock.from_entries; by rewrite Hasc|done]|].
  intros ? ? [-> ->]. destruct b as [|[k c0] b0] eqn:Hbe; [done|]. rewrite <- Hbe in *.
  eapply after_bind; [eapply (after_lift _ _ _ k (fun x s => x = k /\ s = (y, st))); [by rewrite Hbe|done]|].
  intros ? ? [-> ->]. assert (Hk : key_of_block b = k) by by rewrite Hbe. clear Hbe.
  assert (Hz : zlen (map data_of pgs) = zlen pgs) by (unfold zlen; by rewrite length_map).
  eapply after_bind; [apply (make_room_ok _ _ _ _ _ _ Hl); [split; [apply zlen_nonneg|done]|lia..]|].
  intros [] [y1 st1] (done1 & m1 & Hl1 & Hroom & Hi1 & Hds & Hold & Hcase). cbn [fst snd] in *.
  apply after_upd_bind.
  assert (Hl2 : laid first done1 (mkLayout (current_offset y1) (current_page y1) (page_data y1) (pages y1)
    (index_entries y1 ++ [mkIndex k (current_page y1) (zlen (page_data y1))])) st1 m1) by by destruct Hl1.
  eapply append_ok; [exact Hl2|exact Hroom|]. clear Hl2. intros y2 Hl2 Hd2 Hi2. cbn [page_data index_entries fst snd] in *.
  pose proof (l_current _ _ _ _ _ Hl1) as Hcur. rewrite Hi1, Hi in Hi2.
  destruct Hcase as [[-> ->]|[-> Hempty]].
  - exists pgs, (c ++ [b]), m1. split_and!; [|done|by destruct c|lia|done|done]. split; [done|]. split.
    + rewrite Hd2, Hd. unfold data_of. by rewrite flat_map_app; simpl; rewrite app_nil_r.
    + rewrite Hi2, Hcur, Hd, Hz. rewrite !index_of_app. simpl. rewrite !app_nil_r, index_page_app. simpl.
      rewrite <- app_assoc. by rewrite Hk.
  - exists (pgs ++ [c]), [b], m1. split_and!; [|by rewrite concat_app; simpl; rewrite app_nil_r, <- app_assoc|done|zlen_tac|done|done].
    split; [|split].
    + rewrite map_app. simpl. by rewrite <- Hd.
    + rewrite Hd2, Hempty. simpl. by rewrite app_nil_r.
    + rewrite Hi2, Hempty, Hcur. rewrite (index_of_app _ (pgs ++ [c])). simpl. rewrite Hk.
      assert (zlen (map data_of pgs ++ [page_data y]) = zlen (pgs ++ [c])) as -> by (rewrite !zlen_app, Hz; done). by rewrite zlen_nil.
Qed.

Lemma write_blocks_ok first target l : forall cur est pgs c y st m,
  blocks_laid first pgs c y st m -> StronglySorted (key_below fst) (cur ++ l) ->
  Forall (fun b => zlen (DataBlock.to_bytes compress b) <= data_size st) (split_blocks target l cur est) ->
  zlen pgs + zlen (split_blocks target l cur est) < 10000 ->
  first + zlen pgs + zlen (split_blocks target l cur est) + 2 < 2 ^ 64 ->
  after store_faults (write_blocks target compress l cur est) (y, st) (fun _ s' => exists pgs' c' m', blocks_laid first pgs' c' s'.1 s'.2 m' /\
    concat pgs' ++ c' = concat pgs ++ c ++ split_blocks target l cur est /\
    (c <> [] \/ split_blocks target l cur est <> [] -> c' <> []) /\ zlen pgs' <= zlen pgs + zlen (split_blocks target l cur est) /\
    data_size s'.2 = data_size st /\ forall p, p < first -> m' !! p = m !! p).
Proof.
  induction l as [|x l IH]; intros cur est pgs c y st m Hl Hs Hsz Hfew Hnext; cbn [write_blocks split_blocks] in *.
  - rewrite app_nil_r in Hs. destruct (decide (cur = [])) as [->|Hcur]; [|assert (Hone : match cur with [] => [] | _ => [cur] end = [cur]) by (by destruct cur); rewrite Hone in *;
      assert (Hwr : match cur with [] => mret tt | _ => write_block compress cur end = write_block compress cur) by (by destruct cur); rewrite Hwr; clear Hone Hwr].
    + unfold after. cbn. exists pgs, c, m. rewrite app_nil_r, zlen_nil, Z.add_0_r. split_and!; try done. by intros [?|?].
    + apply Forall_cons in Hsz as [Hsz _]. eapply after_mono.
      { rewrite zlen_cons, zlen_nil in *. apply (write_block_ok first pgs c cur y st m Hl); [done|done|done|lia|lia]. }
      intros u s' (pgs' & c' & m' & Hw' & Hcc' & Hc' & Hz' & H'). exists pgs', c', m'. rewrite zlen_cons, zlen_nil, Z.add_0_r. done.
  - destruct (negb (bool_decide (cur = [])) && (target <? est + entry_size x)) eqn:Hfull.
    + apply Forall_cons in Hsz as [Hb Hsz]. rewrite zlen_cons in *.
      assert (Hcur : cur <> []) by (intros ->; done).
      pose proof (zlen_nonneg (split_blocks target l [x] (entry_size x))).
      assert (Hs1 : StronglySorted (key_below fst) cur) by by eapply StronglySorted_app_l.
      assert (Hs2 : StronglySorted (key_below fst) ([x] ++ l)) by by eapply StronglySorted_app_1_r.
      eapply after_bind; [apply (write_block_ok first pgs c cur y st m Hl Hcur Hs1 Hb); lia|].
      intros _ [y1 st1] (pgs1 & c1 & m1 & Hl1 & Hcc & Hc1 & Hz1 & Hd1 & Hold1). cbn [fst snd] in *.
      rewrite <- Hd1 in Hsz. eapply after_mono; [apply (IH [x] (entry_size x) pgs1 c1 y1 st1 m1 Hl1 Hs2 Hsz); lia|].
      intros u s' (pgs' & c' & m' & Hl' & Hcc' & Hc' & Hz' & Hd' & Hold'). exists pgs', c', m'. split_and!; [done| |by intros _; apply Hc'; left|lia|congruence|].
      * rewrite Hcc', app_assoc, Hcc, <- !app_assoc. done.
      * intros p Hp. by rewrite Hold', Hold1.
    + apply IH; [done|by rewrite <- app_assoc|done..].
Qed.

(** *** What follows the blocks *)
Definition tailed (pgs : list (list DataBlock.t)) (c : list DataBlock.t) (pages : list bytes) (rest : bytes) : Prop :=
  exists tail more, pages = map data_of pgs ++ (data_of c ++ tail) :: more /\ tail ++ mjoin more = rest.

Lemma tailed_extend pgs c done d bs rest : tailed pgs c (done ++ [d]) rest -> tailed pgs c (done ++ [d ++ bs]) (rest ++ bs).
Proof.
  intros (tail & more & Hp & <-). destruct more as [|d' more' _] using rev_ind.
  - apply app_inj_tail in Hp as [-> ->]. exists (tail ++ bs), []. simpl. rewrite !app_nil_r, <- ?app_assoc. done.
  - rewrite app_comm_cons, app_assoc in Hp. apply app_inj_tail in Hp as [-> ->].
    exists tail, (more' ++ [d' ++ bs]). rewrite app_comm_cons, app_assoc. split; [done|].
    rewrite !join_app. simpl. by rewrite !app_nil_r, <- !app_assoc.
Qed.
Lemma tailed_page pgs c pages bs rest : tailed pgs c pages rest -> tailed pgs c (pages ++ [bs]) (rest ++ bs).
Proof.
  intros (tail & more & -> & <-). exists tail, (more ++ [bs]). rewrite <- app_assoc. split; [done|].
  rewrite join_app. simpl. by rewrite app_nil_r, app_assoc.
Qed.
Lemma tailed_content pgs c pages rest : tailed pgs c pages rest -> mjoin pages = (mjoin (map data_of pgs) ++ data_of c) ++ rest.
Proof. intros (tail & more & -> & <-). rewrite join_app. simpl. by rewrite <- !app_assoc. Qed.

(** A writer whose blocks are followed by [rest]. *)
Definition written (first : PageId) (pgs : list (list DataBlock.t)) (c : list DataBlock.t) (rest : bytes) (n : Z)
    (y : Layout) (st : P) (m : gmap PageId bytes) : Prop :=
  exists done, laid first done y st m /\ tailed pgs c (done ++ [page_data y]) rest /\ zlen done <= n.
Lemma written_offset first pgs c rest n y st m : written first pgs c rest n y st m ->
  as_u64 (current_offset y + zlen (page_data y)) = zlen (mjoin (map data_of pgs) ++ data_of c) + zlen rest.
Proof.
  intros (done & Hl & Ht & _). rewrite as_u_id by by apply (laid_offset first done y st m).
  rewrite <- zlen_app, <- (tailed_content _ _ _ _ Ht), (l_offset _ _ _ _ _ Hl), join_app, zlen_app. simpl. by rewrite app_nil_r.
Qed.
Lemma room_ok first pgs c rest n len y st m : written first pgs c rest n y st m -> 0 <= len <= data_size st -> n < 10000 -> first + n + 2 < 2 ^ 64 ->
  after store_faults (make_room len) (y, st) (fun _ s' => exists done m', laid first done s'.1 s'.2 m' /\ zlen done <= n + 1 /\
    zlen (page_data s'.1) + len <= data_size s'.2 /\ data_size s'.2 = data_size st /\ index_entries s'.1 = index_entries y /\
    (forall p, p < first -> m' !! p = m !! p) /\
    forall bs, tailed pgs c (done ++ [page_data s'.1 ++ bs]) (rest ++ bs)).
Proof.
  intros (done & Hl & Ht & Hn) Hlen Hfew Hnext. eapply after_mono; [apply (make_room_ok first done len y st m Hl Hlen); lia|].
  intros _ [y1 st1] (done1 & m1 & Hl1 & Hroom & Hi & Hd & Hold & Hcase). cbn [fst snd] in *. exists done1, m1.
  split_and!; [done| |done|done|done|done|].
  - destruct Hcase as [[-> _]|[-> _]]; [lia|]. rewrite zlen_app. zlen_tac.
  - intros bs. destruct Hcase as [[-> ->]|[-> ->]]; [by apply tailed_extend|by apply tailed_page].
Qed.
(** Writing [bs] with the room it needs. *)
Lemma put_bytes_ok first pgs c rest n bs y st m : written first pgs c rest n y st m -> zlen bs <= data_size st -> n < 10000 -> first + n + 2 < 2 ^ 64 ->
  after store_faults (_ ← make_room (zlen bs); append bs) (y, st) (fun _ s' => exists m', written first pgs c (rest ++ bs) (n + 1) s'.1 s'.2 m' /\
    data_size s'.2 = data_size st /\ index_entries s'.1 = index_entries y /\ (forall p, p < first -> m' !! p = m !! p) /\
    exists d, page_data s'.1 = d ++ bs).
Proof.
  intros Hw Hsz Hfew Hnext. eapply after_bind; [apply (room_ok _ _ _ _ _ (zlen bs) _ _ _ Hw); [split; [apply zlen_nonneg|done]|done..]|].
  intros _ [y1 st1] (done & m1 & Hl & Hn & Hroom & Hd & Hi & Hold & Ht). cbn [fst snd] in *.
  eapply append_ok; [exact Hl|exact Hroom|]. intros y2 Hl2 Hd2 Hi2. cbn [fst snd]. exists m1.
  split_and!; [|done|congruence|done|by exists (page_data y1)]. exists done. rewrite Hd2. split_and!; [done|apply Ht|done].
Qed.

Lemma put_bind {B} (g : unit -> stateful (Layout * P) TableError B) R first pgs c rest n bs y st m :
  written first pgs c rest n y st m -> zlen bs <= data_size st -> n < 10000 -> first + n + 2 < 2 ^ 64 ->
  (forall y' st' m', written first pgs c (rest ++ bs) (n + 1) y' st' m' -> data_size st' = data_size st ->
     (forall p, p < first -> m' !! p = m !! p) -> (exists d, page_data y' = d ++ bs) -> after store_faults (g tt) (y', st') R) ->
  after store_faults (_ ← make_room (zlen bs); append bs ≫= g) (y, st) R.
Proof.
  intros Hw Hsz Hfew Hnext Hg. pose proof (put_bytes_ok _ _ _ _ _ bs _ _ _ Hw Hsz Hfew Hnext) as Hput.
  unfold after, mbind, stateful_bind in *. destruct (make_room (zlen bs) (y, st)) as [[[]|e|] s1]; [|done|done].
  destruct (append bs s1) as [[[]|e|] [y2 st2]]; [|done|done]. destruct Hput as (m' & Hw' & Hd & _ & Hold & Htail). by apply (Hg y2 st2 m').
Qed.

Definition bloom_bytes (bloom : option BloomFilter.t) : bytes :=
  match bloom with
  | None => []
  | Some f => to_le_bytes 4 (as_u32 (BloomFilter.num_hash_functions f)) ++ to_le_bytes 4 (as_u32 (BloomFilter.num_bits f)) ++ BloomFilter.as_bytes f
  end.
Lemma write_bloom_ok first pgs c rest n bloom y st m : written first pgs c rest n y st m -> zlen (bloom_bytes bloom) <= data_size st ->
  n < 10000 -> first + n + 2 < 2 ^ 64 ->
  after store_faults (write_bloom bloom) (y, st) (fun off s' => exists m', written first pgs c (rest ++ bloom_bytes bloom) (n + 1) s'.1 s'.2 m' /\
    off = match bloom with Some _ => zlen (mjoin (map data_of pgs) ++ data_of c) + zlen rest | None => 0 end /\
    data_size s'.2 = data_size st /\ forall p, p < first -> m' !! p = m !! p).
Proof.
  intros Hw Hsz Hfew Hnext. pose proof (written_offset _ _ _ _ _ _ _ _ Hw) as Hoff. destruct bloom as [f|]; simpl.
  2: { unfold after. cbn. exists m. rewrite app_nil_r. split_and!; [|done|done|done].
       destruct Hw as (done & Hl & Ht & Hn). exists done. split_and!; [done|done|lia]. }
  apply after_get_bind. cbn [fst snd]. simpl in Hsz. rewrite !zlen_app, !zlen_to_le_bytes in Hsz. pose proof (zlen_nonneg (BloomFilter.as_bytes f)).
  set (header := to_le_bytes 4 _ ++ to_le_bytes 4 _). assert (Hh : zlen header = 8) by (subst header; zlen_tac).
  eapply after_bind; [apply (room_ok _ _ _ _ _ (zlen header + zlen (BloomFilter.as_bytes f)) _ _ _ Hw); lia|].
  intros _ [y1 st1] (done & m1 & Hl & Hn & Hroom & Hd & _ & Hold & Ht). cbn [fst snd] in *.
  eapply after_bind; [eapply (append_ok first done header y1 st1 m1 (fun _ s => laid first done s.1 st1 m1 /\ page_data s.1 = page_data y1 ++ header /\ s.2 = st1));
    [exact Hl|lia|intros y2 Hl2 Hd2 _; done]|].
  intros _ [y2 st2] (Hl2 & Hd2 & Hst2). cbn [fst snd] in *. subst st2.
  eapply after_bind; [eapply (append_ok first done (BloomFilter.as_bytes f) y2 st1 m1 (fun _ s => laid first done s.1 st1 m1 /\
    page_data s.1 = page_data y1 ++ header ++ BloomFilter.as_bytes f /\ s.2 = st1)); [exact Hl2|rewrite Hd2, zlen_app; lia|]|].
  { cbn [fst snd]. intros y3 Hl3 Hd3 _. split_and!; [done|by rewrite Hd3, Hd2, <- app_assoc|done]. }
  intros _ [y3 st3] (Hl3 & Hd3 & Hst3). cbn [fst snd] in *. subst st3. unfold after. cbn. exists m1. split_and!; [|exact Hoff|done|done].
  exists done. rewrite Hd3. split_and!; [done|rewrite (app_assoc (to_le_bytes 4 _)); apply Ht|done].
Qed.

(** ** A table in the store *)
Record table_at (m : gmap PageId bytes) (meta : SStableMetadata) (l : DataBlock.t) (bloom : option BloomFilter.t)
    (pgs : list (list DataBlock.t)) (c : list DataBlock.t) (pages : list bytes) (footer : bytes) : Prop := {
  t_entries : l = concat (concat pgs ++ c);
  t_sorted : BTreeMap.sorted l;
  t_blocks : Forall (fun b => b <> [] /\ block_fits b) (concat pgs ++ c);
  t_last : c <> [];
  t_index : index_fits (index_of (first_page_id meta) (pgs ++ [c]));
  t_pages i d : pages !! i = Some d -> m !! (first_page_id meta + Z.of_nat i) = Some d;
  t_full : Forall (fun d => 0 < zlen d) pages;
  t_ids : 0 < first_page_id meta /\ first_page_id meta + zlen pages < 2 ^ 64;
  t_count : num_pages meta = zlen pages /\ zlen pages <= 10001;
  t_size : zlen (mjoin pages) < 2 ^ 63;
  t_content : tailed pgs c pages (IndexBlock.to_bytes (index_of (first_page_id meta) (pgs ++ [c])) ++ bloom_bytes bloom ++ footer);
  t_index_offset : index_offset meta = zlen (mjoin (map data_of pgs) ++ data_of c);
  t_bloom_offset : bloom_filter_offset meta = match bloom with
    | Some _ => index_offset meta + zlen (IndexBlock.to_bytes (index_of (first_page_id meta) (pgs ++ [c]))) | None => 0 end;
  t_footer_offset : footer_offset meta =
    index_offset meta + zlen (IndexBlock.to_bytes (index_of (first_page_id meta) (pgs ++ [c]))) + zlen (bloom_bytes bloom);
  t_footer : exists sum, zlen sum = 32 /\ footer = SStableFooter.to_bytes (SStableFooter.new meta sum);
  t_meta : meta_fits meta /\ 0 < num_entries meta;
  t_end : exists d, last pages = Some (d ++ footer);
  t_bloom : match bloom with
            | Some f => is_u32 (BloomFilter.num_hash_functions f) /\ is_u32 (BloomFilter.num_bits f) /\
                        exists s, BloomFilterLaws.stands_for f s /\
                          forall x, x ∈ l -> positions (BloomFilter.num_bits f) (BloomFilter.num_hash_functions f) x.1 ⊆ s
            | None => True end;
  t_plain i d : pages !! i = Some d -> Z.of_nat i < zlen pages - 1 ->
    SStableReader.candidate (first_page_id meta) (Z.of_nat i + 1) d = Ok None }.

Lemma index_of_bounds size p pgs : Forall (fun c => zlen (data_of c) <= size) pgs ->
  Forall (fun e => p <= ie_page_id e < p + zlen pgs /\ 0 <= ie_offset e <= size) (index_of p pgs).
Proof.
  intros Hp. revert p. induction Hp as [|c pgs Hc Hp IH]; intros p; simpl; [constructor|]. rewrite zlen_cons. pose proof (zlen_nonneg pgs).
  apply Forall_app. split; [|eapply Forall_impl; [exact (IH (p + 1))|]; simpl; intros; lia].
  assert (Hg : forall off, 0 <= off -> off + zlen (data_of c) <= size ->
    Forall (fun e => p <= ie_page_id e < p + (1 + zlen pgs) /\ 0 <= ie_offset e <= size) (index_page p off c)).
  { clear Hc IH. induction c as [|b c IH]; intros off Ho Hs; simpl; [constructor|]. simpl in Hs. rewrite zlen_app in Hs.
    pose proof (zlen_nonneg (DataBlock.to_bytes compress b)). pose proof (zlen_nonneg (data_of c)).
    constructor; [simpl; lia|]. apply IH; lia. }
  by apply Hg.
Qed.
Lemma first_keys_sorted (bl : list DataBlock.t) : Forall (fun b => b <> []) bl -> StronglySorted (key_below fst) (concat bl) ->
  StronglySorted key_lt (map key_of_block bl).
Proof.
  induction 1 as [|b bl Hb Hbl IH]; simpl; intros Hs; [constructor|]. constructor; [apply IH; by eapply StronglySorted_app_1_r|].
  destruct b as [|x b]; [done|]. simpl in *. apply StronglySorted_inv in Hs as [_ Hf].
  apply Forall_fmap, Forall_forall. intros b' Hin. pose proof (proj1 (Forall_forall _ _) Hbl b' Hin) as Hb'.
  destruct b' as [|x' b']; [done|]. apply (proj1 (Forall_forall _ _) Hf x'). apply elem_of_app. right. apply list_elem_of_In, in_concat.
  exists (x' :: b'). split; [by apply list_elem_of_In|by left].
Qed.
Lemma index_sorted p pgs : Forall (fun b => b <> []) (concat pgs) -> StronglySorted (key_below fst) (concat (concat pgs)) ->
  StronglySorted (key_below ie_first_key) (index_of p pgs).
Proof.
  intros Hne Hs. pose proof (first_keys_sorted _ Hne Hs) as Hk. rewrite <- (index_of_keys p) in Hk.
  induction (index_of p pgs) as [|e l IH]; simpl in *; [constructor|].
  apply StronglySorted_inv in Hk as [Hk Hf]. constructor; [by apply IH|]. by rewrite Forall_fmap in Hf.
Qed.
Definition index_size (bl : list DataBlock.t) : Z := 36 + foldr Z.add 0 (map (fun b => 20 + zlen (key_of_block b)) bl).
Lemma zlen_index p pgs : zlen (IndexBlock.to_bytes (index_of p pgs)) = index_size (concat pgs) /\
  zlen (flat_map IndexBlock.entry_bytes (index_of p pgs)) = index_size (concat pgs) - 36.
Proof.
  assert (Hz : zlen (flat_map IndexBlock.entry_bytes (index_of p pgs)) = index_size (concat pgs) - 36).
  { unfold index_size. rewrite <- (map_map key_of_block (fun k => 20 + zlen k)), <- (index_of_keys p).
    induction (index_of p pgs) as [|e l IH]; simpl; [done|]. rewrite zlen_app, zlen_index_entry, IH. lia. }
  split; [|done]. unfold IndexBlock.to_bytes. rewrite !zlen_app, Hz, sha256_len, zlen_to_le_bytes. lia.
Qed.
Lemma blocks_few bl : 20 * zlen bl + 36 <= index_size bl.
Proof.
  unfold index_size. induction bl as [|b bl IH]; simpl; [done|]. rewrite zlen_cons. pose proof (zlen_nonneg (key_of_block b)). lia.
Qed.

(** What must fit: blocks, index and Bloom filter into a page each, numbers
    into their widths. *)
Record table_fits (size next : Z) (w : SStableWriter.t) (bloom : option BloomFilter.t) (created_lsn : LogSequenceNumber) : Prop := {
  f_sorted : BTreeMap.sorted (entries w);
  f_some : entries w <> [];
  f_blocks : Forall (fun b => zlen (DataBlock.to_bytes compress b) <= size /\ block_fits b) (split_blocks (block_size (config w)) (entries w) [] 0);
  f_index : index_size (split_blocks (block_size (config w)) (entries w) [] 0) <= size;
  f_bloom : zlen (bloom_bytes bloom) <= size;
  f_next : 0 < next < 2 ^ 63;
  f_id : is_u64 (id w) /\ is_u32 (level w) /\ is_u64 created_lsn /\ is_u64 (zlen (entries w)) }.

(** The table is complete: [num_pages] counts the footer's page, and no page
    before the last passes for it. *)
Definition complete (meta : SStableMetadata) (n : Z) (m : gmap PageId bytes) : Prop :=
  num_pages meta = n /\ forall i d, 0 <= i < n - 1 -> m !! (first_page_id meta + i) = Some d ->
    SStableReader.candidate (first_page_id meta) (i + 1) d = Ok None.

(** The metadata [finish] makes, with the number of pages it counts. *)
Definition made (w : SStableWriter.t) (bloom : option BloomFilter.t) (lo hi : bytes) (first : PageId) (lsn : LogSequenceNumber)
    (blocks_end index_len n : Z) : SStableMetadata :=
  let footer := blocks_end + index_len + zlen (bloom_bytes bloom) in
  mkMetadata (id w) (level w) lo hi (zlen (entries w)) (as_u64 (footer + 256)) lsn first (as_u32 n) blocks_end
    (match bloom with Some _ => blocks_end + index_len | None => 0 end) footer.

Lemma write_all_runs w bloom lo hi first lsn st m :
  compress = bool_decide (is_Some (compression (config w))) -> table_fits (data_size st) first w bloom lsn ->
  laid first [] (mkLayout 0 first [] [first] []) st m ->
  after store_faults (write_all w bloom lo hi first lsn) (mkLayout 0 first [] [first] [], st) (fun meta s' =>
    exists m' pgs c n pages footer sum, holds s'.2 m' /\ next_page_id s'.2 = first + zlen pages /\ (forall p, p < first -> m' !! p = m !! p) /\
      concat pgs ++ c = split_blocks (block_size (config w)) (entries w) [] 0 /\ c <> [] /\
      meta = made w bloom lo hi first lsn (zlen (mjoin (map data_of pgs) ++ data_of c))
               (zlen (IndexBlock.to_bytes (index_of first (pgs ++ [c])))) n /\
      zlen sum = 32 /\ footer = SStableFooter.to_bytes (SStableFooter.new meta sum) /\
      tailed pgs c pages (IndexBlock.to_bytes (index_of first (pgs ++ [c])) ++ bloom_bytes bloom ++ footer) /\
      (forall i d, pages !! i = Some d -> m' !! (first + Z.of_nat i) = Some d) /\
      Forall (fun d => 0 < zlen d <= data_size st) pages /\ zlen pages <= 4000 /\ 0 <= n <= 4000 /\
      exists d, last pages = Some (d ++ footer)).
Proof.
  intros Hcmp [Hsort Hne Hbl Hidx Hblm Hnext (Hid & Hlv & Hlsn & Hcnt)] Hl.
  set (blocks := split_blocks (block_size (config w)) (entries w) [] 0) in *.
  pose proof (blocks_few blocks) as Hfew. destruct (data_size_bounds st m (l_holds _ _ _ _ _ Hl)) as [Hds Hds'].
  pose proof (zlen_nonneg blocks) as Hb0. assert (Hbz : zlen blocks <= 3275) by lia.
  assert (Hs : StronglySorted (key_below fst) (entries w)) by by apply sorted_below.
  unfold write_all. rewrite <- Hcmp. eapply after_bind.
  { apply (write_blocks_ok first (block_size (config w)) (entries w) [] 0 [] [] _ st m); fold blocks.
    - done. - done. - eapply Forall_impl; [exact Hbl|]. by intros b [? _]. - rewrite zlen_nil. lia. - rewrite zlen_nil. lia. }
  intros _ [y1 st1] (pgs & c & m1 & (Hl1 & Hd1 & Hi1) & Hcc & Hc & Hz1 & Hds1 & Hold1). cbn [fst snd] in *. fold blocks in Hcc, Hc, Hz1.
  assert (Hbne : blocks <> []).
  { intros Hb. pose proof (split_concat (block_size (config w)) (entries w) [] 0) as Hsp. fold blocks in Hsp. rewrite Hb in Hsp. by destruct (entries w). }
  simpl in Hcc. rewrite zlen_nil in Hz1.
  assert (Hw1 : written first pgs c [] (zlen blocks) y1 st1 m1).
  { exists (map data_of pgs). split_and!; [done| |unfold zlen in *; rewrite length_map; lia].
    exists [], []. rewrite app_nil_r, Hd1. done. }
  set (ib := index_of first (pgs ++ [c])) in *. assert (Hcat : concat (pgs ++ [c]) = blocks) by (by rewrite concat_app; simpl; rewrite app_nil_r).
  apply after_get_bind. cbn [fst snd]. pose proof (written_offset _ _ _ _ _ _ _ _ Hw1) as Ho1. rewrite zlen_nil, Z.add_0_r in Ho1.
  rewrite Ho1. eapply after_bind.
  { eapply (after_lift _ _ _ ib (fun x s => x = ib /\ s = (y1, st1))); [|done]. unfold IndexBlock.from_entries. rewrite Hi1.
    assert (DataBlock.ascending ie_first_key ib = true) as ->; [|done]. apply ascending_spec, index_sorted; rewrite Hcat.
    - apply split_nonempty. - subst blocks. rewrite split_concat. done. }
  intros ? ? [-> ->]. destruct (zlen_index first (pgs ++ [c])) as [Hib _]. fold ib in Hib. rewrite Hcat in Hib.
  eapply put_bind; [exact Hw1|lia|lia|lia|]. intros y2 st2 m2 Hw2 Hds2 Hold2 _. rewrite app_nil_l in Hw2.
  eapply after_bind; [apply (write_bloom_ok _ _ _ _ _ bloom _ _ _ Hw2); lia|].
  intros off [y3 st3] (m3 & Hw3 & -> & Hds3 & Hold3). cbn [fst snd] in *. apply after_get_bind. cbn [fst snd].
  pose proof (written_offset _ _ _ _ _ _ _ _ Hw3) as Ho3. rewrite (zlen_app (IndexBlock.to_bytes ib)), Z.add_assoc in Ho3. rewrite Ho3.
  set (blocks_end := zlen (mjoin (map data_of pgs) ++ data_of c)) in *. set (n := zlen (pages y3)).
  set (meta := mkMetadata _ _ _ _ _ _ _ _ _ _ _ _).
  assert (Hmeta : meta = made w bloom lo hi first lsn blocks_end (zlen (IndexBlock.to_bytes ib)) n).
  { reflexivity. }
  clearbody meta. set (footer := SStableFooter.to_bytes _).
  pose proof (sha256_len (to_le_bytes 8 (sst_id meta) ++ to_le_bytes 4 (sst_level meta) ++ min_key meta ++ max_key meta ++ to_le_bytes 8 (num_entries meta))) as Hsum.
  assert (Hf : zlen footer = 256). { apply zlen_resize. done. }
  eapply put_bind; [exact Hw3|lia|lia|lia|]. intros y4 st4 m4 Hw4 Hds4 Hold4 [dl Hdl].
  apply after_get_bind. cbn [fst snd]. destruct Hw4 as (done & Hl4 & Ht4 & Hn4). eapply after_bind.
  { apply after_layout, (write_page_ok st4 m4 (current_page y4) PageType.LsmData (page_data y4)).
    - apply Hl4. - apply Hl4. - done. - apply Hl4. }
  intros _ [y5 st5] Hw. cbn in Hw. destruct Hw as (-> & Hh5 & [Esz Enx _ _]). unfold after. cbn.
  exists (<[current_page y4:=page_data y4]> m4), pgs, c, n, (done ++ [page_data y4]), footer. eexists.
  assert (Hdn : zlen (done ++ [page_data y4]) = zlen done + 1) by zlen_tac.
  assert (Hold : forall p, p < first -> <[current_page y4:=page_data y4]> m4 !! p = m !! p).
  { intros p Hp. pose proof (zlen_nonneg done). rewrite lookup_insert_ne by (rewrite (l_current _ _ _ _ _ Hl4); lia).
    by rewrite Hold4, Hold3, Hold2, Hold1. }
  split_and!; [exact Hh5| |exact Hold|exact Hcc|by apply Hc; right|exact Hmeta|exact Hsum|reflexivity| | | |lia|..].
  - rewrite Enx, (l_next _ _ _ _ _ Hl4), Hdn. lia.
  - by rewrite <- app_assoc in Ht4.
  - intros i d Hi. apply lookup_app_Some in Hi as [Hi|[Hge Hi]].
    + pose proof (lookup_lt_Some _ _ _ Hi). rewrite lookup_insert_ne by (rewrite (l_current _ _ _ _ _ Hl4); unfold zlen; lia).
      by apply (l_done _ _ _ _ _ Hl4).
    + destruct (i - length done)%nat as [|k] eqn:Hin; [|by destruct k]. simpl in Hi. injection Hi as <-.
      assert (first + Z.of_nat i = current_page y4) as -> by (rewrite (l_current _ _ _ _ _ Hl4); unfold zlen; lia).
      by rewrite lookup_insert_eq.
  - apply Forall_app. split.
    + apply Forall_and. split; [apply Hl4|]. eapply Forall_impl; [apply (l_small _ _ _ _ _ Hl4)|]. simpl. intros. lia.
    + constructor; [|constructor]. split; [rewrite Hdl; zlen_tac|]. pose proof (l_fits _ _ _ _ _ Hl4). lia.
  - apply zlen_nonneg.
  - destruct Hw3 as (done3 & Hl3 & _ & Hn3). pose proof (l_pages _ _ _ _ _ Hl3). lia.
  - exists dl. by rewrite last_snoc, Hdl.
Qed.

(** The filter [finish] builds, and what it needs to be written. *)
Definition bloom_fits (optimal : Z -> Z) (w : SStableWriter.t) : Prop :=
  match bloom_builder w with
  | Some b => 0 < as_u64 (BloomFilter.b_num_items b * BloomFilter.b_bits_per_key b) /\
              is_u32 (default (optimal (BloomFilter.b_bits_per_key b)) (BloomFilter.b_hash_functions b))
  | None => True
  end.
Definition bloom_covers (bloom : option BloomFilter.t) (l : DataBlock.t) : Prop :=
  match bloom with
  | Some f => is_u32 (BloomFilter.num_hash_functions f) /\ is_u32 (BloomFilter.num_bits f) /\
              exists s, BloomFilterLaws.stands_for f s /\
                forall x, x ∈ l -> positions (BloomFilter.num_bits f) (BloomFilter.num_hash_functions f) x.1 ⊆ s
  | None => True end.
Lemma build_bloom_ok optimal w : bloom_fits optimal w -> exists bloom, build_bloom optimal w = Ok bloom /\
  forall size, size <= 65536 -> zlen (bloom_bytes bloom) <= size -> bloom_covers bloom (entries w).
Proof.
  unfold bloom_fits, build_bloom. destruct (bloom_builder w) as [b|]; [|intros _; by exists None]. intros [Hn Hh].
  destruct (BloomFilterLaws.insert_all_ok (E := TableError) (map fst (entries w)) _ ∅
    (BloomFilterLaws.new_stands optimal (BloomFilter.b_num_items b) (BloomFilter.b_bits_per_key b) (BloomFilter.b_hash_functions b) Hn))
    as (f & Hf & Hs & Hz & Hb & Hhf & _).
  unfold BloomFilter.build. rewrite Hf. simpl. exists (Some f). split; [done|]. intros size Hsz Hbytes. simpl in *.
  rewrite (left_id_L ∅ (∪)) in Hs. rewrite !zlen_app, !zlen_to_le_bytes in Hbytes. split_and!.
  - by rewrite Hhf.
  - destruct Hs as [Hp Hc _]. unfold fits, BloomFilter.as_bytes in *. lia.
  - eexists. split; [exact Hs|]. intros x Hx. rewrite Hb, Hhf. apply marked_key. apply list_elem_of_fmap. by exists x.
Qed.

Lemma made_table w bloom lo hi first lsn n size next m pgs c pages footer sum :
  let meta := made w bloom lo hi first lsn (zlen (mjoin (map data_of pgs) ++ data_of c))
                (zlen (IndexBlock.to_bytes (index_of first (pgs ++ [c])))) n in
  table_fits size first w bloom lsn -> 1024 <= size <= 65536 -> bloom_covers bloom (entries w) ->
  concat pgs ++ c = split_blocks (block_size (config w)) (entries w) [] 0 -> c <> [] ->
  zlen sum = 32 -> footer = SStableFooter.to_bytes (SStableFooter.new meta sum) ->
  tailed pgs c pages (IndexBlock.to_bytes (index_of first (pgs ++ [c])) ++ bloom_bytes bloom ++ footer) ->
  (forall i d, pages !! i = Some d -> m !! (first + Z.of_nat i) = Some d) ->
  Forall (fun d => 0 < zlen d <= size) pages -> zlen pages <= 4000 -> 0 <= n <= 4000 ->
  (exists d, last pages = Some (d ++ footer)) -> next = first + zlen pages ->
  complete meta (next - first) m -> table_at m meta (entries w) bloom pgs c pages footer.
Proof.
  intros meta [Hsort Hne Hbl Hidx Hblm Hfirst (Hid & Hlv & Hlsn & Hcnt)] Hsize Hcov Hcc Hc Hsum Hfoot Ht Hpages Hsmall Hfew Hn Hend -> [Hnum Hplain].
  assert (Hcat : concat (pgs ++ [c]) = split_blocks (block_size (config w)) (entries w) [] 0) by (by rewrite concat_app; simpl; rewrite app_nil_r).
  replace (first + zlen pages - first) with (zlen pages) in * by lia.
  pose proof (tailed_content _ _ _ _ Ht) as Hcont.
  assert (Hjoin : zlen (mjoin pages) <= 65536 * 4000).
  { pose proof (joined_size size pages ltac:(eapply Forall_impl; [exact Hsmall|]; simpl; intros; lia)). pose proof (zlen_nonneg pages). nia. }
  assert (Hzc : zlen (mjoin pages) = zlen (mjoin (map data_of pgs) ++ data_of c) + zlen (IndexBlock.to_bytes (index_of first (pgs ++ [c])))
    + zlen (bloom_bytes bloom) + zlen footer) by (rewrite Hcont, !zlen_app; lia).
  destruct (zlen_index first (pgs ++ [c])) as [Hzi Hzi']. rewrite Hcat in Hzi, Hzi'.
  pose proof (zlen_nonneg (mjoin (map data_of pgs) ++ data_of c)). pose proof (zlen_nonneg (bloom_bytes bloom)). pose proof (zlen_nonneg footer).
  pose proof (zlen_nonneg (IndexBlock.to_bytes (index_of first (pgs ++ [c])))). pose proof (zlen_nonneg pages).
  constructor; try done.
  - rewrite Hcc. by rewrite split_concat.
  - rewrite Hcc. apply Forall_and. split; [apply split_nonempty|]. eapply Forall_impl; [exact Hbl|]. by intros b [_ ?].
  - split; [cbn [first_page_id meta made]; lia|].
    destruct Ht as (tail & more & Hp & _).
    assert (Hpg : Forall (fun c' => zlen (data_of c') <= size) (pgs ++ [c]) /\ zlen (pgs ++ [c]) <= zlen pages).
    { subst pages. apply Forall_app in Hsmall as [Hs1 Hs2]. apply Forall_cons in Hs2 as [Hs2 _]. rewrite zlen_app in Hs2.
      pose proof (zlen_nonneg tail). pose proof (zlen_nonneg more). split; [apply Forall_app; split|].
      - rewrite Forall_fmap in Hs1. eapply Forall_impl; [exact Hs1|]. simpl. intros. lia.
      - constructor; [lia|constructor].
      - rewrite !zlen_app, !zlen_cons, zlen_nil. unfold zlen in *. rewrite length_map. lia. }
    destruct Hpg as [Hpg Hlen]. eapply Forall_impl; [apply (index_of_bounds size first _ Hpg)|]. simpl. intros e [He1 He2]. unfold fits. lia.
  - by eapply Forall_impl; [exact Hsmall|]; simpl; intros ? [? _].
  - simpl. lia.
  - simpl in Hnum |- *. rewrite Hnum. lia.
  - lia.
  - by exists sum.
  - split; [|simpl; destruct (entries w) as [|x l]; [done|]; rewrite zlen_cons; pose proof (zlen_nonneg l); lia].
    unfold meta_fits. simpl. split_and!; try done.
    all: try (unfold fits in *; lia).
    + apply as_u_fits. lia.
    + apply as_u_fits. lia.
    + destruct bloom; unfold fits; lia.
  - intros i d Hi Hlt. apply Hplain; [lia|]. by apply Hpages.
Qed.

Lemma finish_ok optimal w lsn bloom st m :
  compress = bool_decide (is_Some (compression (config w))) -> holds st m -> build_bloom optimal w = Ok bloom ->
  bloom_covers bloom (entries w) -> table_fits (data_size st) (next_page_id st) w bloom lsn ->
  after store_faults (finish optimal w lsn) st (fun meta st' => exists m' pgs c pages footer, holds st' m' /\
    first_page_id meta = next_page_id st /\ next_page_id st' = next_page_id st + zlen pages /\
    (forall p, p < next_page_id st -> m' !! p = m !! p) /\ num_entries meta = zlen (entries w) /\
    Some (min_key meta) = fst <$> head (entries w) /\ Some (max_key meta) = fst <$> last (entries w) /\
    (complete meta (zlen pages) m' -> table_at m' meta (entries w) bloom pgs c pages footer)).
Proof.
  intros Hcmp Hh Hbloom Hcov Hfits. pose proof (data_size_bounds st m Hh) as Hds. pose proof (f_next _ _ _ _ _ Hfits) as Hnext.
  unfold finish. destruct (entries w) as [|x l] eqn:He; [by pose proof (f_some _ _ _ _ _ Hfits)|].
  destruct (last (x :: l)) as [hi|] eqn:Hlast; [|by apply last_None in Hlast]. simpl head. cbv iota.
  eapply after_bind; [eapply (after_lift _ _ _ bloom (fun a s => a = bloom /\ s = st)); [exact Hbloom|done]|]. intros ? ? [-> ->].
  eapply after_bind.
  { apply after_pager, (allocate_page_ok st m PageType.LsmData Hh eq_refl). lia. }
  intros first st1 (-> & Hn1 & Hfresh & Hpos & Hh1 & Hds1 & _).
  set (y0 := mkLayout 0 (next_page_id st) [] [next_page_id st] []).
  assert (Hl : laid (next_page_id st) [] y0 st1 (<[next_page_id st := []]> m)).
  { constructor; simpl; rewrite ?zlen_nil; try done; try lia. by rewrite lookup_insert_eq. }
  rewrite <- He in *. rewrite <- Hds1 in Hfits.
  pose proof (write_all_runs w bloom x.1 hi.1 (next_page_id st) lsn st1 _ Hcmp Hfits Hl) as Hrun. unfold after, with_layout in *.
  fold y0 in Hrun. destruct (write_all w bloom x.1 hi.1 (next_page_id st) lsn (y0, st1)) as [[meta|e|] [y2 st2]]; [|done|done].
  destruct Hrun as (m' & pgs & c & n & pages & footer & sum & Hh2 & Hn2 & Hold & Hcc & Hc & -> & Hsum & Hfoot & Ht & Hpages & Hsmall & Hfew & Hn & Hend).
  cbn [fst snd] in *. exists m', pgs, c, pages, footer. split_and!; try done.
  - intros p Hp. rewrite Hold by done. rewrite lookup_insert_ne; [done|lia].
  - simpl. by rewrite He.
  - intros Hcomp. eapply (made_table w bloom x.1 hi.1 (next_page_id st) lsn n (data_size st1) (next_page_id st + zlen pages)); try done.
    + rewrite Hds1. done.
    + by replace (next_page_id st + zlen pages - next_page_id st) with (zlen pages) by lia.
Qed.
End Layout.
