(* ===== verification/SSTableReads.v ===== *)
(** * Reading SSTables

    A table in the store is opened and looked up: the reader finds the footer
    behind the last page's data, reads the index and the Bloom filter across
    pages, and a lookup answers what the entries of the table say. *)
From stdpp Require Import sorting.
From S2P Require Import Prelude Types PagerConfig Page Mvcc OrdMap MemTables PageStore BTreeNode Bloom BloomLaws BloomPages SSTable SSTableLaws.

Lemma below_upto_trans a b c : key_lt a b -> key_leb b c = true -> key_lt a c.
Proof. rewrite key_leb_spec. intros H1 [->|H2]; [done|by eapply key_lt_trans]. Qed.

(** ** Lookups in concatenated entries *)
Lemma get_app_r {V} (l k : list (bytes * V)) key : key ∉ BTreeMap.keys l -> BTreeMap.get (l ++ k) key = BTreeMap.get k key.
Proof.
  induction l as [|[k' v] l IH]; simpl; [done|]. intros [Hne Hl]%not_elem_of_cons.
  destruct (bytes_eqb key k') eqn:He; [by apply bytes_eqb_true in He|by apply IH].
Qed.
Lemma get_app_l {V} (l k : list (bytes * V)) key : key ∉ BTreeMap.keys k -> BTreeMap.get (l ++ k) key = BTreeMap.get l key.
Proof.
  intros Hk. induction l as [|[k' v] l IH]; simpl; [by apply BTreeMap.get_None|]. by destruct (bytes_eqb key k').
Qed.
Lemma keys_sorted_app {V} (l k : list (bytes * V)) x y : BTreeMap.sorted (l ++ k) -> x ∈ l -> y ∈ k -> key_lt x.1 y.1.
Proof.
  intros Hs Hx Hy. apply sorted_below in Hs. by apply (StronglySorted_app_1_elem_of _ l k x y Hs).
Qed.
Lemma block_first (b : DataBlock.t) x : StronglySorted (key_below fst) b -> x ∈ b -> key_leb (key_of_block b) x.1 = true.
Proof.
  destruct b as [|y b]; [by intros _ ?%elem_of_nil|]. intros [_ Hf]%StronglySorted_inv Hx. unfold key_of_block. simpl.
  apply key_leb_spec. apply elem_of_cons in Hx as [->|Hx]; [by left|right]. exact (proj1 (Forall_forall _ _) Hf x Hx).
Qed.
Lemma elem_of_blocks {A} (x : A) ls : x ∈ concat ls <-> exists l, l ∈ ls /\ x ∈ l.
Proof.
  rewrite list_elem_of_In, in_concat. split; intros (l & Hl & Hx); exists l; [by rewrite !list_elem_of_In|by rewrite <- !list_elem_of_In].
Qed.

(** The block behind whose first key a key lies has the key's entry. *)
Lemma get_in_block (L1 L2 : list DataBlock.t) b key : BTreeMap.sorted (concat (L1 ++ b :: L2)) -> b <> [] ->
  key_leb (key_of_block b) key = true -> (forall b', b' ∈ L2 -> key_lt key (key_of_block b')) ->
  BTreeMap.get (concat (L1 ++ b :: L2)) key = BTreeMap.get b key.
Proof.
  intros Hs Hb Hle Hgt. rewrite concat_app in *. simpl in *. pose proof (proj1 (sorted_below _) Hs) as Hss.
  rewrite get_app_r; [apply get_app_l|].
  - intros ([k c] & -> & (b' & Hb' & Hin)%elem_of_blocks)%list_elem_of_fmap. simpl in *. specialize (Hgt b' Hb').
    assert (Hsb : StronglySorted (key_below fst) b').
    { apply list_elem_of_split in Hb' as (l1 & l2 & ->). rewrite concat_app in Hss. simpl in Hss.
      apply StronglySorted_app_1_r, StronglySorted_app_1_r, StronglySorted_app_1_r in Hss. by eapply StronglySorted_app_l. }
    pose proof (block_first b' _ Hsb Hin) as Hf. simpl in Hf. by apply (key_lt_irrefl k), (below_upto_trans _ _ _ Hgt).
  - intros (x & -> & Hx)%list_elem_of_fmap. destruct b as [|y b]; [done|].
    assert (Hlt : key_lt x.1 y.1) by (apply (keys_sorted_app (concat L1) ((y :: b) ++ concat L2) x y Hs Hx); by left).
    unfold key_of_block in Hle. simpl in Hle. by apply (key_lt_irrefl y.1), (key_le_lt_trans _ _ _ Hle).
Qed.
Lemma get_before (L : list DataBlock.t) key : BTreeMap.sorted (concat L) -> (forall b, b ∈ L -> key_lt key (key_of_block b)) ->
  BTreeMap.get (concat L) key = None.
Proof.
  intros Hs Hgt. apply BTreeMap.get_None. intros (x & -> & (b & Hb & Hx)%elem_of_blocks)%list_elem_of_fmap.
  assert (Hsb : StronglySorted (key_below fst) b).
  { apply sorted_below in Hs. apply list_elem_of_split in Hb as (l1 & l2 & ->). rewrite concat_app in Hs. simpl in Hs.
    apply StronglySorted_app_1_r in Hs. by eapply StronglySorted_app_l. }
  pose proof (block_first b x Hsb Hx) as Hf. by apply (key_lt_irrefl x.1), (below_upto_trans _ _ _ (Hgt b Hb)).
Qed.

(** ** Calls that only read *)
Section Reads.
Context {P : Type} `{PageStoreLaws P}.

Lemma reads_page m p d : m !! p = Some d -> reads m (on_pager (read_page p)) (Ok d).
Proof.
  intros Hd st Hh. destruct (read_page_ok st m p d Hh Hd) as (st' & Hr & Hh' & Hs). exists st'. split; [|done].
  by apply pager_reads.
Qed.

(** ** Bytes across pages *)
Definition pages_at (m : gmap PageId bytes) (p : PageId) (pages : list bytes) : Prop :=
  (forall i d, pages !! i = Some d -> m !! (p + Z.of_nat i) = Some d) /\ Forall (fun d => 0 < zlen d) pages /\
  0 < p /\ p + zlen pages < 2 ^ 64.
Lemma pages_cons m p d pages : pages_at m p (d :: pages) -> m !! p = Some d /\ 0 < zlen d /\ as_u64 (p + 1) = p + 1 /\ pages_at m (p + 1) pages.
Proof.
  intros (Hm & Hf & Hp & Hb). rewrite zlen_cons in Hb. pose proof (zlen_nonneg pages). apply Forall_cons in Hf as [Hd Hf]. split_and!.
  - specialize (Hm 0%nat d eq_refl). by rewrite Z.add_0_r in Hm.
  - done.
  - apply as_u_id. unfold fits. lia.
  - split_and!; [|done|lia|lia]. intros i x Hi. specialize (Hm (S i) x Hi). by replace (p + 1 + Z.of_nat i) with (p + Z.of_nat (S i)) by lia.
Qed.

Lemma no_pages : zlen (mjoin (@nil bytes)) = 0.
Proof. done. Qed.
Lemma find_page_ok m target : forall pages p cum, pages_at m p pages -> cum <= target < cum + zlen (mjoin pages) ->
  exists pre post q, pages = pre ++ post /\ q = p + zlen pre /\ pages_at m q post /\
    0 <= target - cum - zlen (mjoin pre) < zlen (default [] (head post)) /\
    reads m (SStableReader.find_page (length pages) p cum target) (Ok (q, target - cum - zlen (mjoin pre))).
Proof.
  induction pages as [|d pages IH]; intros p cum Hp Ht; [rewrite no_pages in Ht; lia|].
  destruct (pages_cons _ _ _ _ Hp) as (Hd & Hdz & Hu & Hrest). simpl mjoin in Ht. rewrite zlen_app in Ht.
  cbn [length SStableReader.find_page]. destruct (target <? cum + zlen d) eqn:Hcmp; [apply Z.ltb_lt in Hcmp as Hlt|apply Z.ltb_ge in Hcmp as Hge].
  - exists [], (d :: pages), p. change (zlen (mjoin [])) with 0. rewrite zlen_nil, Z.add_0_r. simpl default. split_and!; try done; try lia.
    eapply reads_bind; [by apply reads_page|]. rewrite Hcmp. rewrite Z.sub_0_r. apply reads_ret.
  - destruct (IH (p + 1) (cum + zlen d) Hrest ltac:(lia)) as (pre & post & q & -> & -> & Hq & Ho & Hr).
    exists (d :: pre), post, (p + 1 + zlen pre). simpl mjoin. rewrite zlen_app, zlen_cons. split_and!; try done; try lia.
    eapply reads_bind; [by apply reads_page|]. rewrite Hcmp, Hu.
    replace (target - cum - (zlen d + zlen (mjoin pre))) with (target - (cum + zlen d) - zlen (mjoin pre)) by lia.
    destruct (length (pre ++ post)) as [|n] eqn:Hn; [|exact Hr].
    apply length_zero_iff_nil in Hn. rewrite Hn, no_pages in Ht. lia.
Qed.

Lemma app_cut {A} (x y a b : list A) : x ++ y = a ++ b -> zlen x <= zlen a -> exists r, a = x ++ r /\ y = r ++ b.
Proof.
  intros [(k & -> & ->)|(k & -> & ->)]%app_eq_inv Hz; [|by exists k]. rewrite zlen_app in Hz.
  assert (k = []) as -> by (destruct k; [done|]; rewrite zlen_cons in Hz; pose proof (zlen_nonneg k); lia).
  exists []. by rewrite !app_nil_r.
Qed.

Lemma read_zero m fuel q o : reads m (SStableReader.read_loop fuel q o 0) (Ok []).
Proof. destruct fuel; apply reads_ret. Qed.
Lemma read_pages_ok m : forall post fuel q a b c, pages_at m q post -> mjoin post = a ++ b ++ c ->
  (b <> [] -> zlen a < zlen (default [] (head post))) -> (length b <= fuel)%nat ->
  reads m (SStableReader.read_loop fuel q (zlen a) (zlen b)) (Ok b).
Proof.
  induction post as [|d post IH]; intros fuel q a b c Hp Hj Hhd Hf.
  { change (mjoin []) with (@nil Z) in Hj. symmetry in Hj. apply app_nil in Hj as [-> [-> ->]%app_nil]. apply read_zero. }
  destruct (pages_cons _ _ _ _ Hp) as (Hd & Hdz & Hu & Hrest). simpl mjoin in *. simpl default in Hhd.
  destruct (decide (b = [])) as [->|Hne]; [apply read_zero|]. specialize (Hhd Hne).
  assert (Hb : 0 < zlen b). { destruct b as [|x b]; [done|]. rewrite zlen_cons. pose proof (zlen_nonneg b). lia. }
  destruct fuel as [|fuel]; [destruct b; simpl in *; [done|lia]|]. cbn [SStableReader.read_loop].
  assert ((0 <? zlen b) = true) as -> by lia. eapply reads_bind; [by apply reads_page|].
  eapply reads_bind; [apply reads_lift; rewrite ensure_true by lia; reflexivity|]. cbv zeta.
  destruct (app_cut a (b ++ c) d (mjoin post)) as (b1 & -> & Hj1); [by symmetry|lia|]. rewrite zlen_app.
  destruct (Z.le_gt_cases (zlen b) (zlen b1)) as [Hin|Hout].
  - destruct (app_cut b c b1 (mjoin post) Hj1 Hin) as (b2 & -> & _). rewrite zlen_app. pose proof (zlen_nonneg b2).
    replace (Z.min (zlen b) _) with (zlen b) by lia. rewrite Z.sub_diag, andb_false_r.
    eapply reads_bind; [apply reads_lift; rewrite slice_mid by lia; reflexivity|].
    eapply reads_bind; [apply read_zero|]. rewrite app_nil_r. apply reads_ret.
  - destruct (app_cut b1 (mjoin post) b c) as (b2 & -> & Hj2); [by symmetry|lia|]. rewrite !zlen_app in *.
    replace (Z.min _ _) with (zlen b1) by lia.
    assert (Hb1 : 0 < zlen b1) by lia. assert (Hb2 : 0 < zlen b2) by lia.
    eapply reads_bind; [apply reads_lift; rewrite slice_app_r by lia; rewrite slice_here_last by lia; reflexivity|].
    rewrite (proj2 (Z.leb_le _ _)), (proj2 (Z.ltb_lt _ _)) by lia. simpl andb. cbv iota. rewrite Hu.
    replace (zlen b1 + zlen b2 - zlen b1) with (zlen b2) by lia.
    eapply reads_bind; [|apply reads_ret]. apply (IH fuel (q + 1) [] b2 c Hrest Hj2).
    + intros _. destruct post as [|d' post]; [change (mjoin []) with (@nil Z) in Hj2; symmetry in Hj2; apply app_nil in Hj2 as [-> _]; done|].
      destruct (pages_cons _ _ _ _ Hrest) as (_ & ? & _). done.
    + rewrite length_app in Hf. unfold zlen in Hb1. lia.
Qed.

Lemma read_data_ok m p pages a b c : pages_at m p pages -> mjoin pages = a ++ b ++ c -> b <> [] -> zlen (mjoin pages) < 2 ^ 63 ->
  reads m (SStableReader.read_data_with_size p (zlen a) (zlen b) (zlen pages)) (Ok b).
Proof.
  intros Hp Hj Hb Hz. unfold SStableReader.read_data_with_size. pose proof (zlen_nonneg a). pose proof (zlen_nonneg c).
  assert (0 < zlen b). { destruct b as [|x b]; [done|]. rewrite zlen_cons. pose proof (zlen_nonneg b). lia. }
  assert (Hz' : zlen (mjoin pages) = zlen a + zlen b + zlen c) by (rewrite Hj, !zlen_app; lia).
  eapply reads_bind. { apply reads_lift. rewrite (proj2 (Z.leb_gt _ _)) by lia. reflexivity. }
  destruct (find_page_ok m (zlen a) pages p 0 Hp ltac:(lia)) as (pre & post & q & -> & -> & Hq & Ho & Hr).
  replace (Z.to_nat (zlen (pre ++ post))) with (length (pre ++ post)) by (unfold zlen; lia).
  eapply reads_bind; [exact Hr|]. cbn [fst snd]. rewrite join_app in Hj.
  destruct (app_cut (mjoin pre) (mjoin post) a (b ++ c) Hj ltac:(lia)) as (a' & -> & Hj').
  rewrite zlen_app in *. replace (zlen (mjoin pre) + zlen a' - 0 - zlen (mjoin pre)) with (zlen a') in * by lia.
  apply (read_pages_ok m post _ _ a' b c Hq Hj'); [lia|]. unfold zlen. lia.
Qed.

(** ** The footer is found *)
Lemma find_footer_ok m first f : forall post fuel cur count d, pages_at m cur post -> last post = Some d ->
  (forall i d', post !! i = Some d' -> Z.of_nat i < zlen post - 1 -> SStableReader.candidate first (count + Z.of_nat i + 1) d' = Ok None) ->
  SStableReader.candidate first (count + zlen post) d = Ok (Some f) ->
  0 <= count -> count + zlen post <= 10001 -> (length post <= fuel)%nat ->
  reads m (SStableReader.find_footer fuel first cur count) (Ok f).
Proof.
  induction post as [|d0 post IH]; intros fuel cur count d Hp Hlast Hnone Hsome Hc Hfew Hf; [done|].
  destruct (pages_cons _ _ _ _ Hp) as (Hd & _ & Hu & Hrest). destruct fuel as [|fuel]; [simpl in Hf; lia|].
  rewrite zlen_cons in *. pose proof (zlen_nonneg post).
  assert (Huc : as_u32 (count + 1) = count + 1) by (apply as_u_id; unfold fits; lia).
  intros st Hh. destruct (read_page_ok st m cur d0 Hh Hd) as (st1 & Hr & Hh1 & Hs1). cbn [SStableReader.find_footer].
  rewrite Hr. cbv zeta. rewrite Huc.
  enough (exists st', (c ← lift (SStableReader.candidate first (count + 1) d0);
    match c with
    | Some c => mret c
    | None => if 10000 <? count + 1 then lift (Err (SStableReader.corrupt "footer_not_found"))
              else SStableReader.find_footer fuel first (as_u64 (cur + 1)) (count + 1) end) st1 = (Ok f, st') /\
    holds st' m /\ same_store st1 st') as (st' & ? & ? & ?).
  { exists st'. split; [done|]. split; [done|]. by eapply same_store_trans. }
  clear Hr Hs1. revert st1 Hh1. destruct post as [|d1 post].
  - injection Hlast as ->. replace (count + (1 + zlen [])) with (count + 1) in Hsome by done.
    apply (reads_bind _ _ _ _ _ (reads_lift _ _ _ Hsome)). apply reads_ret.
  - pose proof (Hnone 0%nat d0 eq_refl) as Hfirst. rewrite zlen_cons in *. pose proof (zlen_nonneg post).
    replace (count + Z.of_nat 0 + 1) with (count + 1) in Hfirst by lia.
    apply (reads_bind _ _ _ _ _ (reads_lift _ _ _ (Hfirst ltac:(lia)))). rewrite (proj2 (Z.ltb_ge _ _)) by lia. rewrite Hu.
    apply (IH fuel (cur + 1) (count + 1) d Hrest Hlast).
    + intros i d' Hi Hlt. replace (count + 1 + Z.of_nat i + 1) with (count + Z.of_nat (S i) + 1) by lia. apply (Hnone (S i)); [done|].
      revert Hlt. rewrite ?zlen_cons. lia.
    + by replace (count + 1 + _) with (count + (1 + (1 + zlen post))) by (rewrite ?zlen_cons; lia).
    + lia.
    + rewrite ?zlen_cons. lia.
    + simpl in Hf |- *. lia.
Qed.
End Reads.

(** ** Opening a table *)
Section Table.
Context `{CodecsLaws} `{ChainCodecLaws} {P : Type} `{PageStoreLaws P}.
Variable compress : bool.
Variables (m : gmap PageId bytes) (meta : SStableMetadata) (l : DataBlock.t) (bloom : option BloomFilter.t)
  (pgs : list (list DataBlock.t)) (c : list DataBlock.t) (pages : list bytes) (footer : bytes).
Hypothesis Htable : table_at compress m meta l bloom pgs c pages footer.
Variable cfg : SStableConfig.

Definition reloaded (f : BloomFilter.t) : BloomFilter.t :=
  BloomFilter.from_bytes_with_size (BloomFilter.as_bytes f) (BloomFilter.num_bits f) (BloomFilter.num_hash_functions f).
Definition index : IndexBlock.t := index_of compress (first_page_id meta) (pgs ++ [c]).
Definition opened : SStableReader.t := SStableReader.mk (short_keys meta) index (reloaded <$> bloom) cfg.

Lemma table_pages : pages_at m (first_page_id meta) pages.
Proof. destruct Htable. split_and!; [done|done|lia|lia]. Qed.
Lemma index_bytes_size : 36 <= zlen (IndexBlock.to_bytes index).
Proof.
  destruct (zlen_index compress (first_page_id meta) (pgs ++ [c])) as [Hz _]. fold index in Hz.
  pose proof (blocks_few (concat (pgs ++ [c]))). pose proof (zlen_nonneg (concat (pgs ++ [c]))). lia.
Qed.
Lemma bloom_bytes_size : match bloom with Some _ => 8 <= zlen (bloom_bytes bloom) | None => bloom_bytes bloom = [] end.
Proof. destruct bloom; simpl; [|done]. rewrite !zlen_app, !zlen_to_le_bytes. pose proof (zlen_nonneg (BloomFilter.as_bytes t)). lia. Qed.

Lemma candidate_end d : last pages = Some d ->
  exists sum, SStableReader.candidate (first_page_id meta) (zlen pages) d = Ok (Some (SStableFooter.new (short_keys meta) sum)).
Proof.
  intros Hd. pose proof index_bytes_size as Hi. pose proof bloom_bytes_size as Hb. destruct Htable. destruct t_end as (d' & Hd').
  rewrite Hd' in Hd. injection Hd as <-. destruct t_footer as (sum & Hsum & ->), t_meta as [Hm Hn].
  destruct (footer_back meta sum Hm Hsum) as [Hz Hback]. exists sum. unfold SStableReader.candidate.
  pose proof (zlen_nonneg d'). rewrite zlen_app, Hz. change SStableFooter.SIZE with 256. rewrite (proj2 (Z.leb_le _ _)) by lia.
  rewrite slice_app_r by lia. rewrite slice_here_last by lia. simpl. rewrite Hback. unfold index in Hi.
  cbn [SStableFooter.metadata SStableFooter.new short_keys first_page_id num_pages num_entries index_offset footer_offset bloom_filter_offset].
  rewrite t_bloom_offset, t_footer_offset, (proj1 t_count), !Z.eqb_refl, (proj2 (Z.ltb_lt _ _)) by lia.
  rewrite (proj2 (Z.ltb_lt (index_offset meta) _)) by (destruct bloom; [lia|rewrite Hb, zlen_nil; lia]).
  simpl. destruct bloom; [|done]. rewrite (proj2 (Z.ltb_lt _ _)) by lia. by rewrite orb_true_r.
Qed.

Lemma blocks_ok : BTreeMap.sorted (concat (concat (pgs ++ [c]))) /\ l = concat (concat (pgs ++ [c])) /\
  Forall (fun b => b <> [] /\ block_fits b) (concat (pgs ++ [c])).
Proof. destruct Htable. rewrite concat_app. simpl. rewrite app_nil_r. by rewrite <- t_entries. Qed.
Lemma opened_index_sorted : StronglySorted (key_below ie_first_key) index.
Proof.
  destruct blocks_ok as (Hs & _ & Hf). apply index_sorted; [|by apply sorted_below]. eapply Forall_impl; [exact Hf|]. by intros b [? _].
Qed.

(** The parts of the table behind its blocks. *)
Lemma read_part a b c' : mjoin pages = a ++ b ++ c' -> b <> [] ->
  reads m (SStableReader.read_data_with_size (P := P) (first_page_id meta) (zlen a) (zlen b) (num_pages meta)) (Ok b).
Proof.
  intros Hj Hb. pose proof table_pages as Hp. destruct Htable. rewrite (proj1 t_count). by apply (read_data_ok m _ pages a b c').
Qed.

Lemma sst_open_ok : reads m (SStableReader.open (P := P) (first_page_id meta) cfg) (Ok opened).
Proof.
  pose proof table_pages as Hp. pose proof index_bytes_size as Hi. pose proof bloom_bytes_size as Hb. pose proof opened_index_sorted as Hsort.
  pose proof read_part as Hpart.
  destruct Htable. destruct t_end as (dl & Hdl). destruct (candidate_end _ Hdl) as (sum & Hcand). destruct t_ids, t_count.
  pose proof (tailed_content _ _ _ _ _ t_content) as Hcont. fold index in Hcont, t_index, t_bloom_offset, t_footer_offset.
  assert (Hio : 0 <= index_offset meta) by (rewrite t_index_offset; apply zlen_nonneg).
  assert (Hfo : footer_offset meta < 2 ^ 63).
  { rewrite Hcont, !zlen_app in t_size. rewrite t_index_offset in t_footer_offset. rewrite !zlen_app in t_footer_offset. pose proof (zlen_nonneg footer). lia. }
  unfold SStableReader.open. eapply reads_bind.
  { apply (find_footer_ok m _ _ pages _ _ _ _ Hp Hdl); [|exact Hcand|lia|lia|unfold SStableReader.MAX_PAGES, zlen in *; lia].
    intros i d Hd Hlt. by apply t_plain. }
  cbn [SStableFooter.metadata SStableFooter.new short_keys first_page_id num_pages index_offset footer_offset bloom_filter_offset]. cbv zeta.
  assert (Hoff : (0 <? bloom_filter_offset meta) = match bloom with Some _ => true | None => false end).
  { rewrite t_bloom_offset. destruct bloom; [|done]. apply Z.ltb_lt. lia. }
  rewrite Hoff. eapply reads_bind.
  { rewrite t_index_offset. replace (as_u64 _) with (zlen (IndexBlock.to_bytes index)).
    - eapply Hpart; [exact Hcont|]. intros Hn. rewrite Hn in Hi. by compute in Hi.
    - rewrite <- t_index_offset. symmetry. rewrite as_u_id; destruct bloom; rewrite ?Hb, ?zlen_nil in *; unfold fits; lia. }
  eapply reads_bind; [apply reads_lift, index_back; done|]. unfold opened. destruct bloom as [f|]; simpl fmap.
  2: { eapply reads_bind; [apply reads_ret|]. apply reads_ret. }
  eapply reads_bind; [|apply reads_ret]. destruct t_bloom as (Hh & Hn & _).
  eapply reads_bind.
  { rewrite t_bloom_offset. replace (index_offset meta + zlen (IndexBlock.to_bytes index)) with
      (zlen ((mjoin (map (data_of compress) pgs) ++ data_of compress c) ++ IndexBlock.to_bytes index)) by (rewrite zlen_app; lia).
    replace (as_u64 _) with (zlen (bloom_bytes (Some f))).
    - eapply Hpart; [rewrite <- app_assoc; exact Hcont|]. intros Hz. rewrite Hz in Hb. by compute in Hb.
    - symmetry. rewrite zlen_app. rewrite as_u_id; unfold fits; lia. }
  eapply reads_bind; [apply reads_lift; rewrite ensure_true by lia; reflexivity|]. simpl bloom_bytes in *. rewrite !as_u_id by done.
  eapply reads_bind; [apply reads_lift; read_back; reflexivity|]. eapply reads_bind; [apply reads_lift; read_back; reflexivity|].
  eapply reads_bind; [apply reads_lift; read_back; reflexivity|]. apply reads_ret.
Qed.

(** *** Blocks by their number *)
Lemma index_page_lookup : forall (bs : list DataBlock.t) p off i b, bs !! i = Some b ->
  exists b1 b2, bs = b1 ++ b :: b2 /\ length b1 = i /\
    index_page compress p off bs !! i = Some (mkIndex (key_of_block b) p (off + zlen (data_of compress b1))).
Proof.
  intros bs p off i b Hi. exists (take i bs), (drop (S i) bs). rewrite (take_drop_middle bs i b Hi). split; [done|].
  assert (Hl : length (take i bs) = i) by (apply length_take_le; apply lookup_lt_Some in Hi; lia). split; [done|].
  rewrite <- (take_drop_middle bs i b Hi) at 1. rewrite index_page_app.
  assert (Hn : length (index_page compress p off (take i bs)) = i).
  { rewrite <- Hl at 2. generalize (take i bs). clear. intros q. revert off. induction q as [|x q IH]; intros off; simpl; [done|by rewrite IH]. }
  rewrite lookup_app_r by lia. by rewrite Hn, Nat.sub_diag.
Qed.
Lemma index_of_lookup : forall q p i b, concat q !! i = Some b ->
  exists q1 b1 b2 q2, q = q1 ++ (b1 ++ b :: b2) :: q2 /\ i = (length (concat q1) + length b1)%nat /\
    index_of compress p q !! i = Some (mkIndex (key_of_block b) (p + zlen q1) (zlen (data_of compress b1))).
Proof.
  induction q as [|bs q IH]; intros p i b Hi; [done|]. simpl in Hi |- *.
  assert (Hlen : length (index_page compress p 0 bs) = length bs).
  { generalize 0. clear. induction bs as [|x bs IH]; intros off; simpl; [done|by rewrite IH]. }
  apply lookup_app_Some in Hi as [Hi|[Hge Hi]].
  - destruct (index_page_lookup bs p 0 i b Hi) as (b1 & b2 & -> & Hl & He). exists [], b1, b2, q. simpl. split_and!; [done|done|].
    rewrite lookup_app_l by (rewrite Hlen, <- Hl, length_app; simpl; lia). rewrite He. f_equal. f_equal; unfold zlen; simpl; lia.
  - destruct (IH (p + 1) _ b Hi) as (q1 & b1 & b2 & q2 & -> & Hl & He). exists (bs :: q1), b1, b2, q2. simpl.
    rewrite length_app. split_and!; [done|lia|]. rewrite lookup_app_r by lia. rewrite Hlen, He, zlen_cons. f_equal. f_equal. lia.
Qed.

Lemma zlen_block (b : DataBlock.t) : 37 <= zlen (DataBlock.to_bytes compress b).
Proof.
  unfold DataBlock.to_bytes. set (data := flat_map _ b). destruct (if (compress && _)%bool then _ else _) as [final flag].
  rewrite !zlen_app, zlen_to_le_bytes, sha256_len. change (zlen [flag]) with 1. pose proof (zlen_nonneg final). lia.
Qed.
Lemma zlen_data_app a b : zlen (data_of compress (a ++ b)) = zlen (data_of compress a) + zlen (data_of compress b).
Proof. unfold data_of. by rewrite flat_map_app, zlen_app. Qed.

(** The page of a block: the blocks of the page, and behind those of the last
    page whatever follows them. *)
Lemma page_of_block q1 bs q2 : pgs ++ [c] = q1 ++ bs :: q2 -> exists tail, (q2 <> [] -> tail = []) /\
  m !! (first_page_id meta + zlen q1) = Some (data_of compress bs ++ tail) /\ (q2 = [] -> pgs = q1 /\ c = bs).
Proof.
  intros Hq. destruct Htable as [_ _ _ _ _ Hpages _ _ _ _ Hcont]. destruct Hcont as (tail & more & Hp & _).
  destruct q2 as [|b' q2 _] using rev_ind.
  - apply app_inj_tail in Hq as [-> ->]. exists tail. split; [done|]. split; [|done]. unfold zlen. apply Hpages.
    rewrite Hp. rewrite lookup_app_r by by rewrite length_map. by rewrite length_map, Nat.sub_diag.
  - rewrite app_comm_cons, app_assoc in Hq. apply app_inj_tail in Hq as [-> _]. exists []. split; [done|]. split; [|by intros [_ ?]%app_nil].
    unfold zlen. apply Hpages. rewrite Hp, app_nil_r, map_app. simpl.
    rewrite lookup_app_l by (rewrite length_app; simpl; rewrite length_map; lia).
    rewrite lookup_app_r by by rewrite length_map. by rewrite length_map, Nat.sub_diag.
Qed.

Lemma cumulative_ok : forall (ps : list bytes) p rest, pages_at m p (ps ++ rest) ->
  reads m (SStableReader.cumulative (P := P) (length ps) p) (Ok (zlen (mjoin ps))).
Proof.
  induction ps as [|d ps IH]; intros p rest Hp; simpl; [apply reads_ret|]. destruct (pages_cons _ _ _ _ Hp) as (Hd & _ & Hu & Hrest).
  eapply reads_bind; [by apply reads_page|]. rewrite Hu. eapply reads_bind; [by apply (IH _ rest)|]. rewrite zlen_app. apply reads_ret.
Qed.

Lemma index_of_pages : forall q p, Forall (fun e => p <= ie_page_id e) (index_of compress p q).
Proof.
  induction q as [|bs q IH]; intros p; simpl; [constructor|]. apply Forall_app. split.
  - generalize 0. clear. induction bs as [|b bs IH]; intros off; simpl; constructor; [simpl; lia|apply IH].
  - eapply Forall_impl; [apply IH|]. simpl. intros. lia.
Qed.
Lemma next_entry_ok q1 b1 b b2 q2 : pgs ++ [c] = q1 ++ (b1 ++ b :: b2) :: q2 ->
  match index !! S (length (concat q1) + length b1) with
  | Some e => if ie_page_id e =? first_page_id meta + zlen q1
              then ie_offset e = zlen (data_of compress (b1 ++ [b])) else b2 = [] /\ q2 <> []
  | None => b2 = [] /\ q2 = []
  end.
Proof.
  intros Hq. unfold index. pose proof (t_last _ _ _ _ _ _ _ _ _ Htable) as Hc. rewrite Hq, index_of_app. cbn [index_of].
  rewrite index_page_app. cbn [index_page]. rewrite lookup_app_r by (rewrite index_of_length; lia). rewrite index_of_length.
  assert (Hlen : length (index_page compress (first_page_id meta + zlen q1) 0 b1) = length b1).
  { generalize 0. clear. induction b1 as [|x bs IH]; intros off; simpl; [done|by rewrite IH]. }
  rewrite <- app_assoc, lookup_app_r by lia. rewrite Hlen.
  replace (S (length (concat q1) + length b1) - length (concat q1) - length b1)%nat with 1%nat by lia. simpl lookup.
  destruct b2 as [|b' b2]; simpl.
  - destruct (index_of _ _ q2 !! 0%nat) as [e|] eqn:He.
    + pose proof (proj1 (Forall_forall _ _) (index_of_pages q2 _) e (list_elem_of_lookup_2 _ _ _ He)) as Hge. simpl in Hge.
      rewrite (proj2 (Z.eqb_neq _ _)) by lia. split; [done|]. by destruct q2.
    + split; [done|]. destruct q2 as [|b' q2 _] using rev_ind; [done|]. rewrite app_comm_cons, app_assoc in Hq.
      apply app_inj_tail in Hq as [_ <-]. apply lookup_ge_None in He. rewrite index_of_length, concat_app, length_app in He. simpl in He.
      rewrite app_nil_r in He. destruct c; [done|simpl in He; lia].
  - rewrite Z.eqb_refl, zlen_data_app. simpl. rewrite app_nil_r. lia.
Qed.

(** The end of a block is where the bytes of the next one begin. *)
Lemma block_end_ok q1 b1 b b2 q2 tail key off : pgs ++ [c] = q1 ++ (b1 ++ b :: b2) :: q2 -> (q2 <> [] -> tail = []) ->
  m !! (first_page_id meta + zlen q1) = Some (data_of compress (b1 ++ b :: b2) ++ tail) ->
  reads m (SStableReader.block_end (P := P) opened (length (concat q1) + length b1) (mkIndex key (first_page_id meta + zlen q1) off)
             (data_of compress (b1 ++ b :: b2) ++ tail)) (Ok (zlen (data_of compress (b1 ++ [b])))).
Proof.
  intros Hq Htail Hm. pose proof (next_entry_ok _ _ _ _ _ Hq) as Hnext. pose proof table_pages as Hp.
  unfold SStableReader.block_end. cbn [opened SStableReader.index_block SStableReader.metadata short_keys first_page_id index_offset ie_page_id].
  destruct (index !! S _) as [e|].
  - destruct (_ =? _); [rewrite Hnext; apply reads_ret|]. destruct Hnext as [-> Hq2].
    rewrite (Htail Hq2), app_nil_r. apply reads_ret.
  - destruct Hnext as [-> ->]. apply app_inj_tail in Hq as [<- Hc]. cbv zeta. destruct Htable as [_ _ _ _ _ _ _ Hids [_ Hfew] _ Hcont Hio].
    destruct Hcont as (tail' & more & Hpages & _). rewrite Hio.
    assert (Hn : Z.to_nat (as_u64 (first_page_id meta + zlen pgs - first_page_id meta)) = length (map (data_of compress) pgs)).
    { rewrite as_u_id; [unfold zlen; rewrite length_map; lia|]. unfold fits. subst pages. rewrite zlen_app in Hids.
      pose proof (zlen_nonneg pgs). pose proof (zlen_nonneg ((data_of compress c ++ tail') :: more)). unfold zlen in *. rewrite length_map in Hids. lia. }
    rewrite Hn. eapply reads_bind; [eapply cumulative_ok; rewrite Hpages in Hp; exact Hp|].
    rewrite Hc, !zlen_app. pose proof (zlen_nonneg (data_of compress (b1 ++ [b]))). pose proof (zlen_nonneg tail).
    rewrite (proj2 (Z.leb_le _ _)) by lia. simpl andb.
    destruct (Z.ltb_spec (zlen (mjoin (map (data_of compress) pgs)) + zlen (data_of compress (b1 ++ [b])))
      (zlen (mjoin (map (data_of compress) pgs)) + (zlen (data_of compress (b1 ++ [b])) + zlen tail))).
    + replace (_ + _ - _) with (zlen (data_of compress (b1 ++ [b]))) by lia. apply reads_ret.
    + replace (zlen (data_of compress (b1 ++ [b])) + zlen tail) with (zlen (data_of compress (b1 ++ [b]))) by lia. apply reads_ret.
Qed.

(** *** Lookups *)
Lemma may_contain_ok key : exists found, SStableReader.may_contain key opened = Ok found /\ (found = false -> BTreeMap.get l key = None).
Proof.
  pose proof (t_bloom _ _ _ _ _ _ _ _ _ Htable) as Hb. unfold SStableReader.may_contain. cbn [opened SStableReader.bloom_filter].
  destruct bloom as [f|]; simpl; [|by exists true]. destruct Hb as (_ & _ & s & Hs & Hcov).
  assert (Hr : BloomFilterLaws.stands_for (reloaded f) s) by by destruct Hs.
  eexists. split; [apply (BloomFilterLaws.filter_contains_ok key _ _ Hr)|]. intros Hno%bool_decide_eq_false.
  apply BTreeMap.get_None. intros (x & -> & Hx)%list_elem_of_fmap. by apply Hno, Hcov.
Qed.

(** The block an index entry points to, between its bounds. *)
Lemma block_read b1 b b2 tail : StronglySorted (key_below fst) b -> block_fits b ->
  SStableReader.bounded_block "SSTableReader::get" (zlen (data_of compress b1)) (zlen (data_of compress (b1 ++ [b])))
    (data_of compress (b1 ++ b :: b2) ++ tail) = Ok b.
Proof.
  intros Hs Hf. unfold SStableReader.bounded_block. pose proof (zlen_block b). pose proof (zlen_nonneg (data_of compress b1)).
  pose proof (zlen_nonneg (data_of compress b2)). pose proof (zlen_nonneg tail).
  assert (Hb : zlen (data_of compress (b1 ++ [b])) = zlen (data_of compress b1) + zlen (DataBlock.to_bytes compress b)).
  { rewrite zlen_data_app. simpl. by rewrite app_nil_r. }
  assert (Hd : data_of compress (b1 ++ b :: b2) ++ tail = data_of compress b1 ++ DataBlock.to_bytes compress b ++ (data_of compress b2 ++ tail)).
  { unfold data_of. rewrite flat_map_app. simpl. by rewrite <- !app_assoc. }
  rewrite Hd, Hb, !zlen_app. rewrite ensure_true.
  2: { apply negb_true_iff, orb_false_iff. split; [apply orb_false_iff; split|]; lia. }
  simpl. rewrite slice_mid by lia. simpl. by apply block_back.
Qed.

Lemma sst_get_ok key lsn : reads m (SStableReader.get (P := P) key lsn opened)
  (match BTreeMap.get l key with Some ch => SStableReader.value_at ch lsn | None => Ok None end).
Proof.
  destruct (may_contain_ok key) as (found & Hfound & Habsent). destruct blocks_ok as (Hs & Hl & Hblocks).
  pose proof opened_index_sorted as Hsorted.
  unfold SStableReader.get. eapply reads_bind; [by apply reads_lift|]. destruct found; simpl negb; cbv iota; [|rewrite Habsent by done; apply reads_ret].
  pose proof (search_spec index key Hsorted) as Hsearch. cbn [opened SStableReader.index_block]. fold opened.
  assert (Hkeys : forall j, key_of_block <$> concat (pgs ++ [c]) !! j = ie_first_key <$> index !! j).
  { intros j. rewrite <- !list_lookup_fmap. unfold index. f_equal. symmetry. apply index_of_keys. }
  destruct (IndexBlock.search index key) as [i|].
  - destruct Hsearch as [(e & He & Hle) Hgt]. pose proof (Hkeys i) as Hki. rewrite He in Hki. simpl in Hki.
    destruct (concat (pgs ++ [c]) !! i) as [b|] eqn:Hb; [|done]. simpl in Hki. injection Hki as Hki.
    destruct (index_of_lookup _ (first_page_id meta) i b Hb) as (q1 & b1 & b2 & q2 & Hq & Hi & He'). fold index in He'.
    rewrite He in He'. injection He' as ->. destruct (page_of_block _ _ _ Hq) as (tail & Htail & Hpage & _).
    pose proof (proj1 (Forall_forall _ _) Hblocks b (list_elem_of_lookup_2 _ _ _ Hb)) as [Hbne Hbf].
    assert (Hcut : concat (pgs ++ [c]) = take i (concat (pgs ++ [c])) ++ b :: drop (S i) (concat (pgs ++ [c]))) by by rewrite take_drop_middle.
    assert (Hbs : StronglySorted (key_below fst) b).
    { apply sorted_below in Hs. rewrite Hcut, concat_app in Hs. simpl in Hs. apply StronglySorted_app_1_r in Hs. by eapply StronglySorted_app_l. }
    eapply reads_bind; [apply reads_lift; rewrite He; reflexivity|]. cbn [ie_page_id ie_offset].
    eapply reads_bind; [by apply reads_page|]. eapply reads_bind; [rewrite Hi; by apply (block_end_ok _ _ _ _ q2)|].
    eapply reads_bind; [by apply reads_lift, block_read|].
    rewrite block_get by by apply sorted_below. rewrite Hl, Hcut. rewrite get_in_block; [|by rewrite <- Hcut|done|done|].
    + destruct (BTreeMap.get b key); [by apply reads_lift|apply reads_ret].
    + intros b' (j & Hj)%list_elem_of_lookup. rewrite lookup_drop in Hj. pose proof (Hkeys (S i + j)%nat) as Hkj. rewrite Hj in Hkj.
      destruct (index !! (S i + j)%nat) as [e'|] eqn:He'; [|done]. injection Hkj as ->. by apply (Hgt _ _ He'); lia.
  - rewrite Hl, get_before; [apply reads_ret|done|]. intros b (j & Hj)%list_elem_of_lookup. pose proof (Hkeys j) as Hkj. rewrite Hj in Hkj.
    destruct (index !! j) as [e'|] eqn:He'; [|done]. injection Hkj as ->. by apply (Hsearch j).
Qed.
End Table.

(** ** The writer's entries *)
Lemma writer_add_ok k ch w w' : BTreeMap.sorted (SStableWriter.entries w) -> SStableWriter.add k ch w = Ok w' ->
  BTreeMap.sorted (SStableWriter.entries w') /\ SStableWriter.entries w' = SStableWriter.entries w ++ [(k, ch)].
Proof.
  intros Hs. unfold SStableWriter.add. destruct (match last _ with Some _ => _ | None => _ end) eqn:Hlast; [|done]. simpl. intros [= <-]. simpl.
  split; [|done]. apply sorted_below. apply sorted_below in Hs. apply StronglySorted_app. split_and!; [|done|repeat constructor].
  intros x1 x2 Hx1 ->%list_elem_of_singleton. destruct (SStableWriter.entries w) as [|y l _] eqn:He using rev_ind; [by apply elem_of_nil in Hx1|].
  rewrite last_snoc in Hlast. apply elem_of_app in Hx1 as [Hx1| ->%list_elem_of_singleton]; [|done].
  apply StronglySorted_app in Hs as (Hs & _). eapply key_lt_trans; [apply (Hs x1 y Hx1); by left|done].
Qed.

(** ** Tables read back *)
Section ReadBack.
Context `{CodecsLaws} `{ChainCodecLaws} {P : Type} `{PageStoreLaws P}.

(** What a table with these entries answers. *)
Definition answer (l : DataBlock.t) (key : bytes) (lsn : LogSequenceNumber) : outcome TableError (option bytes) :=
  match BTreeMap.get l key with Some ch => SStableReader.value_at ch lsn | None => Ok None end.

(** C10: an SSTable reads back what was written.  When blocks, index and
    Bloom filter fit into a page each, writing a sorted table of at least one
    entry fails only where the store does, leaves every page before its own
    as it was, and its metadata names the number of entries and the first and
    the last key.  When the number of pages it counted is complete and no
    page before the last passes for the footer, the table can be opened from
    its first page alone, with the metadata written but for the keys' tails,
    and then looking up any key at any LSN answers what the entries say. *)
Theorem sstable_reads_back (optimal : Z -> Z) (w : SStableWriter.t) (bloom : option BloomFilter.t) (lsn : LogSequenceNumber)
    (cfg : SStableConfig) (st : P) (m : gmap PageId bytes) (Hh : holds st m) (Hbits : bloom_fits optimal w)
    (Hbloom : SStableWriter.build_bloom optimal w = Ok bloom)
    (Hfits : table_fits (bool_decide (is_Some (compression (SStableWriter.config w)))) (data_size st) (next_page_id st) w bloom lsn) :
  after store_faults (SStableWriter.finish optimal w lsn) st (fun meta st' => exists m', holds st' m' /\
    first_page_id meta = next_page_id st /\ (forall p, p < next_page_id st -> m' !! p = m !! p) /\
    num_entries meta = zlen (SStableWriter.entries w) /\
    Some (min_key meta) = fst <$> head (SStableWriter.entries w) /\ Some (max_key meta) = fst <$> last (SStableWriter.entries w) /\
    (complete meta (next_page_id st' - next_page_id st) m' -> exists r, reads m' (SStableReader.open (P := P) (first_page_id meta) cfg) (Ok r) /\
      SStableReader.metadata r = short_keys meta /\
      forall key at_lsn, reads m' (SStableReader.get (P := P) key at_lsn r) (answer (SStableWriter.entries w) key at_lsn))).
Proof.
  destruct (build_bloom_ok optimal w Hbits) as (b & Hb & Hcov). rewrite Hbloom in Hb. injection Hb as <-.
  destruct (data_size_bounds st m Hh) as [_ Hsz]. eapply after_mono.
  { eapply (finish_ok _ optimal w lsn bloom st m eq_refl Hh Hbloom); [|exact Hfits]. apply (Hcov (data_size st)); [done|by destruct Hfits]. }
  intros meta st' (m' & pgs & c & pages & footer & Hh' & Hf & Hn & Hold & Hcount & Hmin & Hmax & Htable). exists m'. split_and!; try done.
  intros Hc. rewrite Hn in Hc. replace (next_page_id st + zlen pages - next_page_id st) with (zlen pages) in Hc by lia. specialize (Htable Hc).
  eexists. split; [by eapply sst_open_ok|]. split; [done|]. intros key at_lsn. by eapply sst_get_ok.
Qed.
End ReadBack.

(** ** Tables in memory *)
Module SampleSST.
#[local] Existing Instance ToyCodecs.toy.
#[local] Existing Instance ToyCodecs.toy_laws.
#[local] Existing Instance ToyChains.toy.
#[local] Existing Instance ToyChains.toy_laws.

Definition chain (v : bytes) (lsn : LogSequenceNumber) : VersionChain.t := VersionChain.mk (VersionValue.Inline v) 1 (Some lsn) None.
Definition cfg : SStableConfig := mkSStableConfig 4096 600 None None true 16.
Definition store : MemoryPages.t := MemoryPages.mk 1024 2 ∅ ∅ 0 0.
(** Two blocks on a page each. *)
Definition writer : SStableWriter.t :=
  SStableWriter.mk 7 1 cfg (Some (BloomFilter.builder 3))
    [([1], chain (replicate 600 0) 2); ([1; 5], chain (replicate 400 0) 4); ([3], chain [12] 6)].
Definition optimal (b : Z) : Z := 7.
Definition bloom : option BloomFilter.t := match SStableWriter.build_bloom optimal writer with Ok b => b | _ => None end.
Lemma store_holds : holds store ∅.
Proof. split_and!; simpl; try done. intros p. rewrite lookup_empty. by intros [? ?]. Qed.

Lemma table_fits_sample : table_fits false (data_size store) (next_page_id store) writer bloom 9.
Proof.
  constructor.
  - apply sorted_below, ascending_spec. vm_compute. reflexivity.
  - done.
  - apply (bool_decide_eq_true_1 (Forall (fun b => zlen (DataBlock.to_bytes false b) <= 1024 /\ zlen (flat_map DataBlock.entry_bytes b) < 2 ^ 32)
      (split_blocks 600 (SStableWriter.entries writer) [] 0))). vm_compute. reflexivity.
  - apply (bool_decide_eq_true_1 (index_size (split_blocks 600 (SStableWriter.entries writer) [] 0) <= 1024)). vm_compute. reflexivity.
  - apply (bool_decide_eq_true_1 (zlen (bloom_bytes bloom) <= 1024)). vm_compute. reflexivity.
  - done.
  - done.
Qed.
End SampleSST.

Lemma sstable_reads_back_witness :
  exists meta st1 r st2 st3, SStableWriter.finish (H0 := ToyCodecs.toy) (H1 := ToyChains.toy) SampleSST.optimal SampleSST.writer 9 SampleSST.store = (Ok meta, st1) /\
    num_pages meta = 2 /\ SStableReader.open (H0 := ToyCodecs.toy) (first_page_id meta) SampleSST.cfg st1 = (Ok r, st2) /\
    SStableReader.get (H0 := ToyCodecs.toy) (H1 := ToyChains.toy) [3] 6 r st2 = (Ok (Some [12]), st3).
Proof.
  pose proof (sstable_reads_back (H0 := ToyCodecs.toy_laws) (H2 := ToyChains.toy_laws) SampleSST.optimal SampleSST.writer SampleSST.bloom 9
    SampleSST.cfg SampleSST.store ∅ SampleSST.store_holds ltac:(split; [reflexivity|done]) ltac:(vm_compute; reflexivity) SampleSST.table_fits_sample) as Hr.
  unfold after in Hr. destruct (SStableWriter.finish _ _ _ _) as [[meta|e|] st1] eqn:Hf; [|destruct Hr|destruct Hr].
  destruct Hr as (mem & Hm & _ & _ & _ & _ & _ & Hr). vm_compute in Hf. injection Hf as <- <-.
  destruct Hr as (r & Hopen & _ & Hget).
  { split; [vm_compute; reflexivity|]. intros i d Hi Hd. change (0 <= i < 2 - 1) in Hi. assert (i = 0) as -> by lia.
    destruct Hm as [<- _]. vm_compute in Hd. injection Hd as <-. vm_compute. reflexivity. }
  destruct (Hopen _ Hm) as (st2 & Ho & Hm2 & _). destruct (Hget [3] 6 st2 Hm2) as (st3 & Hg & _).
  eexists _, _, r, st2, st3. split; [reflexivity|]. split; [reflexivity|]. split; [exact Ho|]. rewrite Hg. vm_compute. reflexivity.
Defined.

(** The footer can take a page that the table's metadata does not count: the
    reader then never recognises it, and the table cannot be opened. *)
Definition footer_apart : SStableWriter.t :=
  SStableWriter.mk 7 1 SampleSST.cfg None [([1], SampleSST.chain (replicate 3800 0) 2)].
Example footer_page_lost :
  match SStableWriter.finish (H0 := ToyCodecs.toy) (H1 := ToyChains.toy) SampleSST.optimal footer_apart 9 MemoryPages.new with
  | (Ok meta, st1) => num_pages meta = 1 /\ next_page_id st1 = next_page_id MemoryPages.new + 2 /\
      (SStableReader.open (H0 := ToyCodecs.toy) (first_page_id meta) SampleSST.cfg st1).1
        = Err (Corruption "SSTableReader::open" "footer_not_found")
  | _ => False
  end.
Proof. vm_compute. split_and!; reflexivity. Qed.
