(* ===== verification/AppendLog.v ===== *)
(** * The append log ([src/table/appendlog])

    Segments (segment.rs): a buffer of entries behind a list of pages that
    hold the bytes flushed so far.  The table (mod.rs, config.rs): an active
    segment, older ones by id, an index from keys to version chains with the
    place of the last entry, and a root page with everything but the flushed
    bytes.

    serde_json is [JsonCodec]; the clock ([now], in seconds) is an argument. *)
From S2P Require Import Prelude Types Mvcc Page PagerConfig PageStore OrdMap MemTables TimeSeries.

Abbreviation SegmentId := Z (only parsing).

Inductive LogCompression : Type := LogUncompressed | LogLz4 | LogZstd | LogSnappy.
Inductive RetentionPolicy : Type := KeepSegments | MaxSegments (n : Z) | MaxAge (seconds : Z).

Module AppendLogConfig.
Record t : Type := mk {
  segment_size : Z; compression : LogCompression; retention_policy : RetentionPolicy;
  sync_writes : bool; write_buffer_size : Z }.
Definition default : t := mk (64 * 1024 * 1024) LogUncompressed KeepSegments false 4096.
Definition new : t := default.
Definition with_segment_size (size : Z) (c : t) : t :=
  mk size (compression c) (retention_policy c) (sync_writes c) (write_buffer_size c).
Definition with_compression (k : LogCompression) (c : t) : t :=
  mk (segment_size c) k (retention_policy c) (sync_writes c) (write_buffer_size c).
Definition with_retention_policy (p : RetentionPolicy) (c : t) : t :=
  mk (segment_size c) (compression c) p (sync_writes c) (write_buffer_size c).
Definition with_sync_writes (s : bool) (c : t) : t :=
  mk (segment_size c) (compression c) (retention_policy c) s (write_buffer_size c).
Definition with_write_buffer_size (n : Z) (c : t) : t :=
  mk (segment_size c) (compression c) (retention_policy c) (sync_writes c) n.
End AppendLogConfig.

(** ** Segments *)
Record SegmentMetadata : Type := mkSegmentMetadata {
  sm_id : SegmentId; created_at : Z; entry_count : Z; segment_bytes : Z; first_page : PageId; last_page : PageId }.
Record PersistedSegment : Type := mkPersistedSegment {
  ps_metadata : SegmentMetadata; ps_buffer : bytes; ps_flushed_pages : list PageId }.

Module Segment.
Record t : Type := mk { id : SegmentId; metadata : SegmentMetadata; flushed_pages : list PageId; write_buffer : bytes }.
Definition PAGE_HEADER_SIZE : Z := 16.

Definition size (s : t) : Z := segment_bytes (metadata s).
(** What [stats] falls back to. *)
Definition latest_lsn (s : t) : LogSequenceNumber := created_at (metadata s).
Definition persist (s : t) : PersistedSegment := mkPersistedSegment (metadata s) (write_buffer s) (flushed_pages s).
Definition from_persisted (p : PersistedSegment) : t :=
  mk (sm_id (ps_metadata p)) (ps_metadata p) (ps_flushed_pages p) (ps_buffer p).

Definition entry_bytes (key value : bytes) : bytes :=
  to_le_bytes 4 (as_u32 (zlen key)) ++ key ++ to_le_bytes 4 (as_u32 (zlen value)) ++ value.
(** The value of the entry at an offset; [None] when it is not there in full. *)
Definition decode_value_at (bs : bytes) (offset : Z) : outcome TableError (option bytes) :=
  if zlen bs <=? offset then Ok None
  else if zlen bs <? offset + 4 then Ok None
  else
    key_len ← get_le 4 offset bs;
    let pos := offset + 4 in
    if zlen bs <? pos + key_len then Ok None
    else
      let pos := pos + key_len in
      if zlen bs <? pos + 4 then Ok None
      else
        value_len ← get_le 4 pos bs;
        let pos := pos + 4 in
        if zlen bs <? pos + value_len then Ok None
        else l ← slice pos (pos + value_len) bs; Ok (Some l).

(** [slice::chunks]; every chunk is at least a byte, so the length is fuel
    enough. *)
Fixpoint chunks (fuel : nat) (n : Z) (bs : bytes) : list bytes :=
  match fuel, bs with
  | S fuel, _ :: _ => take (Z.to_nat n) bs :: chunks fuel n (drop (Z.to_nat n) bs)
  | _, _ => []
  end.

Section Pages.
Context {P : Type} `{PageStore P}.
Abbreviation M := (stateful (t * P) TableError).
Definition page_call {A} (m : stateful P PagerError A) : stateful P TableError A := fun p =>
  let '(r, p) := m p in (match r with Ok a => Ok a | Err e => Err (TablePager e) | Panic => Panic end, p).
Definition named_call {A} (msg : string) (m : stateful P PagerError A) : stateful P TableError A :=
  TimeBucket.on_pager (fun s => s) (fun p _ => p) msg m.
Definition upd (f : t -> t) : M unit := modify (fun s => (f s.1, s.2)).
Definition on_store {A} (m : stateful P TableError A) : M A := fun '(s, p) => let '(r, p) := m p in (r, (s, p)).

Definition new (now : Z) (sid : SegmentId) : stateful P TableError t :=
  p ← named_call "Failed to allocate segment page" (allocate_page PageType.LsmData);
  mret (mk sid (mkSegmentMetadata sid now 0 0 p p) [] []).

Definition page_payload_size (p : P) : Z := saturating_sub (data_size p) PAGE_HEADER_SIZE.
Fixpoint write_chunks (l : list bytes) : stateful P TableError (list PageId) :=
  match l with
  | [] => mret []
  | chunk :: rest =>
      page_id ← page_call (allocate_page PageType.LsmData);
      let next_page := match rest with [] => 0 | _ => 1 end in
      _ ← page_call (write_page page_id PageType.LsmData (to_le_bytes 8 (zlen chunk) ++ to_le_bytes 8 next_page ++ chunk));
      ids ← write_chunks rest;
      mret (page_id :: ids)
  end.
Definition write_bytes_to_pages (bs : bytes) : stateful P TableError (list PageId) := fun p =>
  let payload_size := page_payload_size p in
  (_ ← lift (ensure (negb (payload_size =? 0)) (TableOther "AppendLog segment page payload size is zero"));
   write_chunks (chunks (length bs) payload_size bs)) p.

Definition extend_pages (ids : list PageId) (s : t) : t :=
  let pages := flushed_pages s ++ ids in
  let m := metadata s in
  mk (id s)
    (match last pages with
     | Some p => mkSegmentMetadata (sm_id m) (created_at m) (entry_count m) (segment_bytes m) (first_page m) p
     | None => m
     end) pages (write_buffer s).
Definition set_buffer (bs : bytes) (s : t) : t := mk (id s) (metadata s) (flushed_pages s) bs.
(** A buffer of a page or more is flushed up to the last full page. *)
Definition flush_locked : M unit :=
  x ← gets (fun s => s);
  let page_payload_size := page_payload_size x.2 in
  let buffer := write_buffer x.1 in
  if (page_payload_size =? 0) || (zlen buffer =? 0) then mret tt
  else
    let flush_len := if zlen buffer <? page_payload_size then zlen buffer
                     else zlen buffer / page_payload_size * page_payload_size in
    new_pages ← on_store (write_bytes_to_pages (take (Z.to_nat flush_len) buffer));
    _ ← upd (extend_pages new_pages);
    upd (fun s => set_buffer (drop (Z.to_nat flush_len) (write_buffer s)) s).
Definition flush : M unit := flush_locked.

Definition add_entry (key value : bytes) (s : t) : t :=
  let m := metadata s in
  mk (id s)
    (mkSegmentMetadata (sm_id m) (created_at m) (as_u64 (entry_count m + 1))
       (as_u64 (segment_bytes m + (4 + zlen key + 4 + zlen value))) (first_page m) (last_page m))
    (flushed_pages s) (write_buffer s ++ entry_bytes key value).
Definition append (key value : bytes) (flush_threshold : Z) : M Z :=
  offset ← gets (fun s => size s.1);
  _ ← upd (add_entry key value);
  s ← gets fst;
  _ ← (if flush_threshold <=? zlen (write_buffer s) then flush_locked else mret tt);
  mret offset.

(** A page of flushed bytes: the length of its chunk, after the checks. *)
Definition corrupt (what : string) : TableError := Corruption "appendlog-segment-page" what.
Definition chunk_len_of (data : bytes) : outcome TableError Z :=
  _ ← ensure (PAGE_HEADER_SIZE <=? zlen data) (corrupt "short-page");
  chunk_len ← get_le 8 0 data;
  _ ← ensure (chunk_len <=? zlen data - PAGE_HEADER_SIZE) (corrupt "invalid-chunk-len");
  Ok chunk_len.
Fixpoint flushed_len (pages : list PageId) : stateful P TableError Z :=
  match pages with
  | [] => mret 0
  | p :: pages =>
      data ← page_call (read_page p);
      n ← lift (chunk_len_of data);
      total ← flushed_len pages;
      mret (n + total)
  end.
Fixpoint flushed_bytes (pages : list PageId) : stateful P TableError bytes :=
  match pages with
  | [] => mret []
  | p :: pages =>
      data ← page_call (read_page p);
      n ← lift (chunk_len_of data);
      l ← lift (slice PAGE_HEADER_SIZE (PAGE_HEADER_SIZE + n) data);
      rest ← flushed_bytes pages;
      mret (l ++ rest)
  end.
Definition read_at_from_flushed (offset : Z) (s : t) : stateful P TableError (option bytes) :=
  bs ← flushed_bytes (flushed_pages s);
  lift (decode_value_at bs offset).
Definition read_at (offset : Z) (s : t) : stateful P TableError (option bytes) :=
  if size s <=? offset then mret None
  else
    n ← flushed_len (flushed_pages s);
    if offset <? n then read_at_from_flushed offset s
    else lift (decode_value_at (write_buffer s) (offset - n)).
End Pages.
End Segment.

(** ** The table *)
Record IndexEntry : Type := mkIndexEntry { ix_segment : SegmentId; ix_offset : Z; ix_chain : VersionChain.t }.
Definition set_chain (c : VersionChain.t) (e : IndexEntry) : IndexEntry := mkIndexEntry (ix_segment e) (ix_offset e) c.

Record PersistedAppendLogState : Type := mkPersistedState {
  pl_active : PersistedSegment; pl_immutable : list PersistedSegment; pl_index : list (bytes * IndexEntry);
  pl_next_segment_id : SegmentId; pl_entry_count : Z; pl_total_size : Z }.

(** serde_json; [None] is an error. *)
Class JsonCodec : Type := {
  state_to : PersistedAppendLogState -> option bytes;
  state_from : bytes -> option PersistedAppendLogState }.
(** Documented behaviour: what is written is read back. *)
Class JsonLaws `{JsonCodec} : Prop := { state_back x bs : state_to x = Some bs -> state_from bs = Some x }.

Module AppendLogTable.
Record State : Type := mkState {
  active_segment : Segment.t;
  immutable_segments : gmap SegmentId Segment.t;
  index : list (bytes * IndexEntry);
  next_segment_id : SegmentId;
  entry_count : Z;
  total_size : Z }.
Record t : Type := mk {
  table_id : TableId; name : string; config : AppendLogConfig.t; root_page_id : PageId; state : State }.

Definition set_state (s : State) (x : t) : t := mk (table_id x) (name x) (config x) (root_page_id x) s.
Definition set_active (a : Segment.t) (s : State) : State :=
  mkState a (immutable_segments s) (index s) (next_segment_id s) (entry_count s) (total_size s).
Definition set_segments (m : gmap SegmentId Segment.t) (s : State) : State :=
  mkState (active_segment s) m (index s) (next_segment_id s) (entry_count s) (total_size s).
Definition set_index (l : list (bytes * IndexEntry)) (s : State) : State :=
  mkState (active_segment s) (immutable_segments s) l (next_segment_id s) (entry_count s) (total_size s).
Definition set_totals (count size : Z) (s : State) : State :=
  mkState (active_segment s) (immutable_segments s) (index s) (next_segment_id s) count size.

Definition persisted (s : State) : PersistedAppendLogState :=
  mkPersistedState (Segment.persist (active_segment s)) (map (fun x => Segment.persist x.2) (in_order (immutable_segments s)))
    (index s) (next_segment_id s) (entry_count s) (total_size s).
Definition restored (p : PersistedAppendLogState) : State :=
  mkState (Segment.from_persisted (pl_active p))
    (foldl (fun m s => let r := Segment.from_persisted s in <[Segment.id r := r]> m) ∅ (pl_immutable p))
    (foldl (fun l x => BTreeMap.insert l x.1 x.2) [] (pl_index p))
    (pl_next_segment_id p) (pl_entry_count p) (pl_total_size p).

(** *** Retention *)
(** The index keeps only the segment of a key's last entry. *)
Definition drop_segment (sid : SegmentId) (s : State) : State :=
  set_index (filter (fun x => ix_segment x.2 <> sid) (index s)) (set_segments (delete sid (immutable_segments s)) s).
(** Every round removes a segment. *)
Fixpoint drop_oldest (fuel : nat) (max : Z) (s : State) : State :=
  match fuel with
  | O => s
  | S fuel =>
      if max <? Z.of_nat (size (immutable_segments s)) then
        match in_order (immutable_segments s) with
        | [] => s
        | x :: _ => drop_oldest fuel max (drop_segment x.1 s)
        end
      else s
  end.
Definition apply_retention (now : Z) (p : RetentionPolicy) (s : State) : State :=
  match p with
  | KeepSegments => s
  | MaxSegments max => drop_oldest (size (immutable_segments s)) max s
  | MaxAge seconds =>
      let cutoff := saturating_sub now seconds in
      foldl (fun s x => drop_segment x.1 s) s
        (filter (fun x => created_at (Segment.metadata x.2) < cutoff) (in_order (immutable_segments s)))
  end.

(** *** Chains *)
Fixpoint commit_chain (tx : TransactionId) (lsn : LogSequenceNumber) (c : VersionChain.t) : VersionChain.t :=
  VersionChain.mk (VersionChain.value c) (VersionChain.created_by c)
    (if (VersionChain.created_by c =? tx) && bool_decide (VersionChain.commit_lsn c = None)
     then Some lsn else VersionChain.commit_lsn c)
    (match VersionChain.prev_version c with Some p => Some (commit_chain tx lsn p) | None => None end).
Fixpoint has_visible_version (c : VersionChain.t) (m : LogSequenceNumber) : bool :=
  match VersionChain.commit_lsn c with
  | Some l => if m <=? l then true
              else match VersionChain.prev_version c with Some p => has_visible_version p m | None => false end
  | None => true
  end.
Fixpoint latest_chain_lsn (c : VersionChain.t) : option LogSequenceNumber :=
  let older := match VersionChain.prev_version c with Some p => latest_chain_lsn p | None => None end in
  match VersionChain.commit_lsn c, older with
  | Some l, Some l' => Some (Z.max l l')
  | Some l, None => Some l
  | None, _ => older
  end.
(** Everything behind the first version committed below the LSN is cut off,
    and counts as one. *)
Fixpoint vacuum_chain (c : VersionChain.t) (m : LogSequenceNumber) : Z * VersionChain.t :=
  match VersionChain.prev_version c with
  | Some p =>
      if match VersionChain.commit_lsn p with Some l => l <? m | None => false end
      then (1, VersionChain.mk (VersionChain.value c) (VersionChain.created_by c) (VersionChain.commit_lsn c) None)
      else let '(n, p') := vacuum_chain p m in
           (n, VersionChain.mk (VersionChain.value c) (VersionChain.created_by c) (VersionChain.commit_lsn c) (Some p'))
  | None => (0, c)
  end.

Definition get (key : bytes) (snapshot : Snapshot.t) (x : t) : option bytes :=
  match BTreeMap.get (index (state x)) key with
  | Some e =>
      match VersionChain.find_visible_inline (ix_chain e) snapshot with
      | Some value => if zlen value =? 0 then None else Some value
      | None => None
      end
  | None => None
  end.
Definition get_snapshot := get.
Definition get_at (key : bytes) (snapshot_lsn : LogSequenceNumber) (x : t) : option bytes := get key (read_snapshot snapshot_lsn) x.

Section Table.
Context `{JsonCodec} {P : Type} `{PageStore P}.
Abbreviation M := (stateful (t * P) TableError).
Definition upd (f : State -> State) : M unit := modify (fun s => (set_state (f (state s.1)) s.1, s.2)).
Definition on_store {A} (m : stateful P TableError A) : M A := fun '(x, p) => let '(r, p) := m p in (r, (x, p)).
Definition on_active {A} (m : stateful (Segment.t * P) TableError A) : M A := fun '(x, p) =>
  let '(r, (a, p)) := m (active_segment (state x), p) in (r, (set_state (set_active a (state x)) x, p)).

Definition max_metadata : Z := PageSize.data_size PageSize.Size4KB.
Definition persist_metadata : M unit :=
  x ← gets fst;
  metadata ← lift (ok_or (state_to (persisted (state x))) (TableOther "Failed to serialize AppendLog metadata"));
  _ ← lift (ensure (zlen metadata <=? max_metadata) (TableOther "AppendLog metadata too large for root page"));
  on_store (Segment.named_call "Failed to write AppendLog metadata page" (write_page (root_page_id x) PageType.LsmMeta metadata)).

Definition new (now : Z) (tid : TableId) (nm : string) (c : AppendLogConfig.t) : stateful P TableError t := fun p =>
  match (root ← Segment.named_call "Failed to allocate root page" (allocate_page PageType.LsmMeta);
         s ← Segment.new now 0;
         mret (mk tid nm c root (mkState s ∅ [] 1 0 0))) p with
  | (Ok x, p) =>
      let '(r, (x, p)) := persist_metadata (x, p) in
      (match r with Ok _ => Ok x | Err e => Err e | Panic => Panic end, p)
  | (Err e, p) => (Err e, p)
  | (Panic, p) => (Panic, p)
  end.
Definition open (tid : TableId) (nm : string) (root : PageId) (c : AppendLogConfig.t) : stateful P TableError t :=
  data ← Segment.named_call "Failed to read AppendLog metadata page" (read_page root);
  p ← lift (ok_or (state_from data) (TableOther "Failed to deserialize AppendLog metadata"));
  mret (mk tid nm c root (restored p)).

Definition should_roll_segment (x : t) : bool := AppendLogConfig.segment_size (config x) <=? Segment.size (active_segment (state x)).
Definition roll_segment (now : Z) : M unit :=
  x ← gets fst;
  s ← on_store (Segment.new now (next_segment_id (state x)));
  upd (fun st => mkState s (<[Segment.id (active_segment st) := active_segment st]> (immutable_segments st)) (index st)
                   (as_u64 (next_segment_id st + 1)) (entry_count st) (total_size st)).

Definition put_tx (now : Z) (key value : bytes) (tx : TransactionId) : M Z :=
  x ← gets fst;
  _ ← (if should_roll_segment x
       then _ ← roll_segment now; upd (apply_retention now (AppendLogConfig.retention_policy (config x)))
       else mret tt);
  offset ← on_active (Segment.append key value (AppendLogConfig.write_buffer_size (config x)));
  let bytes_written := zlen key + zlen value in
  _ ← upd (fun s =>
        let new_chain := match BTreeMap.get (index s) key with
                         | Some e => VersionChain.prepend (ix_chain e) value tx
                         | None => VersionChain.new value tx
                         end in
        set_totals (as_u64 (entry_count s + 1)) (as_u64 (total_size s + bytes_written))
          (set_index (BTreeMap.insert (index s) key (mkIndexEntry (Segment.id (active_segment s)) offset new_chain)) s));
  _ ← persist_metadata;
  mret bytes_written.
Definition delete_tx (key : bytes) (tx : TransactionId) : M bool :=
  x ← gets fst;
  let entry := BTreeMap.get (index (state x)) key in
  _ ← (match entry with
       | Some e => upd (fun s => set_totals (saturating_sub (entry_count s) 1) (total_size s)
                                   (set_index (BTreeMap.insert (index s) key (set_chain (VersionChain.prepend (ix_chain e) [] tx) e)) s))
       | None => mret tt
       end);
  _ ← persist_metadata;
  mret (bool_decide (is_Some entry)).
Definition put (now : Z) (key value : bytes) : M Z := put_tx now key value 0.
Definition delete_key (key : bytes) : M bool := delete_tx key 0.
Definition range_delete (b : ScanBounds) : M Z := lift (Err (TableOther "Range delete not supported for AppendLog")).
(** The root page is not written. *)
Definition flush : M unit := on_active Segment.flush.

Definition commit_versions (tx : TransactionId) (lsn : LogSequenceNumber) : M unit :=
  _ ← upd (fun s => set_index (BTreeMap.map_values (fun e => set_chain (commit_chain tx lsn (ix_chain e)) e) (index s)) s);
  persist_metadata.

Fixpoint free_pages (msg : string) (l : list PageId) : stateful P TableError unit :=
  match l with
  | [] => mret tt
  | p :: l => _ ← Segment.named_call msg (free_page p); free_pages msg l
  end.
Definition free_segment (s : Segment.t) : stateful P TableError unit :=
  _ ← free_pages "Failed to free segment page" (Segment.flushed_pages s);
  let first := first_page (Segment.metadata s) in
  if bool_decide (first ∈ Segment.flushed_pages s) then mret tt
  else free_pages "Failed to free segment first page" [first].
Fixpoint remove_segments (l : list (SegmentId * Segment.t)) : M unit :=
  match l with
  | [] => mret tt
  | x :: l =>
      _ ← upd (fun s => set_segments (delete x.1 (immutable_segments s)) s);
      _ ← on_store (free_segment x.2);
      remove_segments l
  end.
Definition segments_with_visible_data (m : LogSequenceNumber) (s : State) : list SegmentId :=
  map (fun x => ix_segment x.2) (filter (fun x => has_visible_version (ix_chain x.2) m = true) (index s)).
Definition vacuum (m : LogSequenceNumber) : M Z :=
  x ← gets fst;
  let total_removed := foldl (fun n y => n + (vacuum_chain (ix_chain y.2) m).1) 0 (index (state x)) in
  _ ← upd (fun s => set_index (BTreeMap.map_values (fun e => set_chain (vacuum_chain (ix_chain e) m).2 e) (index s)) s);
  x ← gets fst;
  let visible := segments_with_visible_data m (state x) in
  _ ← remove_segments (filter (fun y => y.1 ∉ visible) (in_order (immutable_segments (state x))));
  _ ← upd (fun s => set_index (filter (fun y => is_Some (immutable_segments s !! ix_segment y.2)
                                          \/ ix_segment y.2 = Segment.id (active_segment s)) (index s)) s);
  _ ← persist_metadata;
  mret total_removed.
End Table.

(** *** Statistics and cursors *)
Definition last_updated_lsn (s : State) : option LogSequenceNumber :=
  match foldl (fun o y => match o, latest_chain_lsn (ix_chain y.2) with
                          | Some l, Some l' => Some (Z.max l l') | None, o' => o' | o, None => o end) None (index s) with
  | Some l => Some l
  | None => let active_lsn := Segment.latest_lsn (active_segment s) in if active_lsn =? 0 then None else Some active_lsn
  end.

Fixpoint take_prefix (p : bytes) (l : list (bytes * IndexEntry)) : list (bytes * IndexEntry) :=
  match l with
  | x :: l => if starts_with x.1 p then x :: take_prefix p l else []
  | [] => []
  end.
(** The cursor keeps a snapshot and does not look at it. *)
Record Cursor : Type := mkCursor { current : option (bytes * IndexEntry); rest : list (bytes * IndexEntry); snapshot : Snapshot.t }.
Definition scan (b : ScanBounds) (lsn : LogSequenceNumber) (x : t) : outcome TableError Cursor :=
  let l := index (state x) in
  entries ← (match b with
             | All => Ok l
             | Prefix p => r ← BTreeMap.range l (Included p) Unbounded; Ok (take_prefix p r)
             | Range start stop => BTreeMap.range l start stop
             end);
  Ok (mkCursor (head entries) (tail entries) (read_snapshot lsn)).
Definition valid (c : Cursor) : bool := bool_decide (is_Some (current c)).
Definition cursor_key (c : Cursor) : option bytes := fst <$> current c.
Definition cursor_value (c : Cursor) : option bytes := None.
Definition next (c : Cursor) : Cursor := mkCursor (head (rest c)) (tail (rest c)) (snapshot c).
Definition refused (msg : string) (c : Cursor) : outcome TableError Cursor := Err (TableOther msg).
End AppendLogTable.
