(* ===== verification/AppendLogLaws.v ===== *)
(** * The append log's segments and histories

    Laws of AppendLog.v: an entry appended to a segment is read back from its
    offset unless the flushed bytes end within it; a table keeps every key's
    versions over rolls, flushes and reopening; a vacuum can lose live keys. *)
From stdpp Require Import sorting.
From S2P Require Import Prelude Types Mvcc Page PagerConfig PageStore OrdMap MemTables TimeSeries BTreeNode BloomPages SSTableLaws SSTableReads AppendLog.

Module SegmentLaws.
Import Segment.
Abbreviation entry := (bytes * bytes)%type.
Definition entry_of (x : entry) : bytes := entry_bytes x.1 x.2.
Definition log_of (l : list entry) : bytes := flat_map entry_of l.
Definition entry_fits (x : entry) : Prop := is_u32 (zlen x.1) /\ is_u32 (zlen x.2).

Lemma zlen_entry_of x : zlen (entry_of x) = 8 + zlen x.1 + zlen x.2.
Proof. unfold entry_of, entry_bytes. zlen_tac. Qed.
Lemma log_snoc l x : log_of (l ++ [x]) = log_of l ++ entry_of x.
Proof. unfold log_of. rewrite flat_map_app. simpl. by rewrite app_nil_r. Qed.

(** ** Decoding *)
Lemma prefix_split {A} (bs rest a b : list A) : bs ++ rest = a ++ b -> zlen a <= zlen bs -> exists r, bs = a ++ r /\ b = r ++ rest.
Proof.
  intros [(k & -> & ->)|(k & -> & ->)]%app_eq_inv Hz; [by exists k|]. rewrite zlen_app in Hz.
  assert (k = []) as -> by (destruct k; [done|]; rewrite zlen_cons in Hz; pose proof (zlen_nonneg k); lia).
  exists []. by rewrite !app_nil_r.
Qed.
(** The part of a log that is there: entries in full are read, others not. *)
Lemma decode_ok bs rest pre x post : bs ++ rest = pre ++ entry_of x ++ post -> entry_fits x -> zlen pre < zlen bs ->
  decode_value_at bs (zlen pre) = Ok (if zlen pre + zlen (entry_of x) <=? zlen bs then Some x.2 else None).
Proof.
  intros Hb [Hk Hv] Hpre. destruct (prefix_split bs rest pre _ Hb ltac:(lia)) as (r & -> & Hr). clear Hb.
  unfold decode_value_at. pose proof (zlen_nonneg pre). pose proof (zlen_nonneg r). rewrite zlen_app in *.
  rewrite zlen_entry_of. unfold entry_of, entry_bytes in Hr. rewrite !as_u_id in Hr by done. rewrite <- !app_assoc in Hr.
  pose proof (zlen_nonneg x.1). pose proof (zlen_nonneg x.2).
  rewrite (proj2 (Z.leb_gt _ _)) by lia. destruct (Z.ltb_spec (zlen pre + zlen r) (zlen pre + 4)) as [Hs|Hs].
  { by rewrite (proj2 (Z.leb_gt _ _)) by lia. }
  destruct (prefix_split r rest (to_le_bytes 4 (zlen x.1)) _ (eq_sym Hr)) as (r1 & -> & Hr1); [rewrite zlen_to_le_bytes; lia|].
  rewrite zlen_app, zlen_to_le_bytes in *. change (Z.of_nat 4) with 4 in *.
  rewrite get_le_app_r by lia. rewrite get_le_here by (done || lia). simpl.
  destruct (Z.ltb_spec (zlen pre + (4 + zlen r1)) (zlen pre + 4 + zlen x.1)) as [Hs1|Hs1].
  { by rewrite (proj2 (Z.leb_gt _ _)) by lia. }
  destruct (prefix_split r1 rest x.1 _ (eq_sym Hr1)) as (r2 & -> & Hr2); [lia|]. rewrite zlen_app in *.
  destruct (Z.ltb_spec (zlen pre + (4 + (zlen x.1 + zlen r2))) (zlen pre + 4 + zlen x.1 + 4)) as [Hs2|Hs2].
  { by rewrite (proj2 (Z.leb_gt _ _)) by lia. }
  destruct (prefix_split r2 rest (to_le_bytes 4 (zlen x.2)) _ (eq_sym Hr2)) as (r3 & -> & Hr3); [rewrite zlen_to_le_bytes; lia|].
  rewrite zlen_app, zlen_to_le_bytes in *. change (Z.of_nat 4) with 4 in *.
  assert (Hg : get_le (E := TableError) 4 (zlen pre + 4 + zlen x.1) (pre ++ to_le_bytes 4 (zlen x.1) ++ x.1 ++ to_le_bytes 4 (zlen x.2) ++ r3) = Ok (zlen x.2)).
  { rewrite get_le_app_r by lia. rewrite get_le_app_r by zlen_tac. rewrite get_le_app_r by zlen_tac. apply get_le_here; [zlen_tac|done|done]. }
  rewrite Hg. simpl.
  destruct (Z.ltb_spec (zlen pre + (4 + (zlen x.1 + (4 + zlen r3)))) (zlen pre + 4 + zlen x.1 + 4 + zlen x.2)) as [Hs3|Hs3].
  { by rewrite (proj2 (Z.leb_gt _ _)) by lia. }
  destruct (prefix_split r3 rest x.2 _ (eq_sym Hr3)) as (r4 & -> & _); [lia|]. rewrite zlen_app in *. pose proof (zlen_nonneg r4).
  rewrite (proj2 (Z.leb_le _ _)) by lia.
  rewrite slice_app_r by lia. rewrite slice_app_r by zlen_tac. rewrite slice_app_r by zlen_tac. rewrite slice_app_r by zlen_tac.
  rewrite slice_here by zlen_tac. done.
Qed.

(** ** Chunks *)
Lemma chunks_ok n : 0 < n -> forall fuel (bs : bytes), (length bs <= fuel)%nat ->
  mjoin (chunks fuel n bs) = bs /\ Forall (fun c => zlen c <= n) (chunks fuel n bs) /\ zlen (chunks fuel n bs) <= zlen bs.
Proof.
  intros Hn. induction fuel as [|fuel IH]; intros [|b bs] Hf; simpl in Hf; try done; try lia.
  cbn [chunks]. set (l := b :: bs) in *. assert (Hl : (length (drop (Z.to_nat n) l) <= fuel)%nat) by (rewrite length_drop; subst l; simpl; lia).
  destruct (IH _ Hl) as (Hj & Hc & Hz). split_and!.
  - simpl. by rewrite Hj, take_drop.
  - constructor; [|done]. unfold zlen. rewrite length_take. lia.
  - rewrite zlen_cons. assert (zlen (drop (Z.to_nat n) l) <= zlen l - 1); [|lia].
    unfold zlen. rewrite length_drop. subst l. simpl. lia.
Qed.

Section Store.
Context {P : Type} `{PageStoreLaws P}.

(** ** Pages of flushed bytes *)
Definition chunk_page (next : Z) (c : bytes) : bytes := to_le_bytes 8 (zlen c) ++ to_le_bytes 8 next ++ c.
Definition on_pages (m : gmap PageId bytes) (ps : list PageId) (cs : list bytes) : Prop :=
  Forall2 (fun p c => is_u64 (zlen c) /\ exists next, m !! p = Some (chunk_page next c)) ps cs.

Lemma chunk_len_ok next c : is_u64 (zlen c) -> chunk_len_of (chunk_page next c) = Ok (zlen c).
Proof.
  intros Hc. unfold chunk_len_of, chunk_page. pose proof (zlen_nonneg c).
  assert (Hz : zlen (to_le_bytes 8 (zlen c) ++ to_le_bytes 8 next ++ c) = 16 + zlen c) by zlen_tac.
  rewrite Hz. change PAGE_HEADER_SIZE with 16. rewrite ensure_true by lia. simpl. rewrite get_le_here by done. simpl.
  by rewrite ensure_true by lia.
Qed.
Lemma chunk_slice next c : slice (E := TableError) PAGE_HEADER_SIZE (PAGE_HEADER_SIZE + zlen c) (chunk_page next c) = Ok c.
Proof.
  unfold chunk_page. change PAGE_HEADER_SIZE with 16. pose proof (zlen_nonneg c).
  rewrite slice_app_r by zlen_tac. rewrite slice_app_r by zlen_tac. apply slice_here_last; zlen_tac.
Qed.
Lemma reads_call m p d : m !! p = Some d -> reads m (page_call (P := P) (read_page p)) (Ok d).
Proof.
  intros Hd st Hh. destruct (read_page_ok st m p d Hh Hd) as (st' & Hr & Hh' & Hs). exists st'. split; [|done].
  unfold page_call. by rewrite Hr.
Qed.
Lemma flushed_ok m ps cs : on_pages m ps cs ->
  reads m (flushed_len (P := P) ps) (Ok (zlen (mjoin cs))) /\ reads m (flushed_bytes (P := P) ps) (Ok (mjoin cs)).
Proof.
  induction 1 as [|p c ps cs [Hc [next Hp]] Hps [IH1 IH2]]; simpl; [split; apply reads_ret|]. split.
  - eapply reads_bind; [by apply reads_call|]. eapply reads_bind; [by apply reads_lift, chunk_len_ok|].
    eapply reads_bind; [exact IH1|]. rewrite zlen_app. apply reads_ret.
  - eapply reads_bind; [by apply reads_call|]. eapply reads_bind; [by apply reads_lift, chunk_len_ok|].
    eapply reads_bind; [by apply reads_lift, chunk_slice|].
    eapply reads_bind; [exact IH2|]. apply reads_ret.
Qed.

Lemma after_call {A} (m : stateful P PagerError A) st Q : after store_faults m st Q -> after store_faults (page_call m) st Q.
Proof. unfold after, page_call. by destruct (m st) as [[a|e|] s']. Qed.
Lemma after_named {A} msg (m : stateful P PagerError A) st Q : after store_faults m st Q -> after store_faults (named_call msg m) st Q.
Proof. unfold after, named_call, TimeBucket.on_pager. by destruct (m st) as [[a|e|] s']. Qed.

Lemma after_on_store {A} (m : stateful P TableError A) (s : t) st Q :
  after store_faults m st Q -> after store_faults (on_store m) (s, st) (fun a s' => s'.1 = s /\ Q a s'.2).
Proof. unfold after, on_store. by destruct (m st) as [[a|e|] s']. Qed.
Lemma after_write_bytes bs st Q :
  after store_faults (_ ← lift (ensure (negb (page_payload_size st =? 0)) (TableOther "AppendLog segment page payload size is zero"));
                      write_chunks (chunks (length bs) (page_payload_size st) bs)) st Q ->
  after store_faults (write_bytes_to_pages bs) st Q.
Proof. done. Qed.
Lemma write_chunks_ok : forall cs st m, holds st m -> Forall (fun c => zlen c <= data_size st - 16) cs ->
  next_page_id st + zlen cs < 2 ^ 64 ->
  after store_faults (write_chunks cs) st (fun ids st' => exists m', holds st' m' /\ on_pages m' ids cs /\
    (forall p, is_Some (m !! p) -> m' !! p = m !! p) /\ next_page_id st' = next_page_id st + zlen cs /\ data_size st' = data_size st).
Proof.
  induction cs as [|c cs IH]; intros st m Hh Hc Hn; cbn [write_chunks].
  { unfold after. cbn. exists m. rewrite zlen_nil, Z.add_0_r. split_and!; try done. constructor. }
  apply Forall_cons in Hc as [Hc Hcs]. rewrite zlen_cons in *. pose proof (zlen_nonneg cs). pose proof (zlen_nonneg c).
  destruct (data_size_bounds st m Hh) as [_ Hds]. eapply after_bind.
  { apply after_call, (allocate_page_ok st m PageType.LsmData Hh eq_refl). lia. }
  intros p st1 (-> & Hn1 & Hfresh & Hpos & Hh1 & Hd1 & _). cbv zeta.
  set (next := match cs with [] => 0 | _ => 1 end). eapply after_bind.
  { apply after_call, (write_page_ok st1 _ (next_page_id st) PageType.LsmData (chunk_page next c) Hh1); [by rewrite lookup_insert_eq|done|].
    unfold chunk_page. rewrite !zlen_app, !zlen_to_le_bytes. lia. }
  intros _ st2 (Hh2 & [Hd2 Hn2 _ _]). rewrite insert_insert_eq in Hh2. eapply after_bind.
  { apply (IH st2 _ Hh2); [eapply Forall_impl; [exact Hcs|]; simpl; intros; lia|lia]. }
  intros ids st3 (m3 & Hh3 & Hps & Hold & Hn3 & Hd3). unfold after. cbn. exists m3. split_and!; [done| | |lia|lia].
  - constructor; [|done]. split; [unfold fits; lia|]. exists next. rewrite Hold; by rewrite lookup_insert_eq.
  - intros q Hq. assert (q <> next_page_id st) by (intros ->; rewrite Hfresh in Hq; by destruct Hq).
    rewrite Hold; [|by rewrite lookup_insert_ne]. by rewrite lookup_insert_ne.
Qed.

(** ** Flushing and appending *)
Definition payload (st : P) : Z := data_size st - 16.
(** How many of [n] buffered bytes a flush writes. *)
Definition flush_count (payload n : Z) : Z := if n <? payload then n else n / payload * payload.
Lemma flush_count_range p n : 0 < p -> 0 <= n -> 0 <= flush_count p n <= n.
Proof.
  intros Hp Hn. unfold flush_count. destruct (n <? p); [lia|]. pose proof (Z.div_mod n p ltac:(lia)). pose proof (Z.mod_pos_bound n p Hp).
  pose proof (Z.div_pos n p Hn Hp). lia.
Qed.
Lemma payload_ok st m : holds st m -> page_payload_size st = payload st /\ 0 < payload st.
Proof.
  intros Hh. destruct (data_size_bounds st m Hh). unfold page_payload_size, payload, saturating_sub. change PAGE_HEADER_SIZE with 16. lia.
Qed.

(** What flushing and appending leave as it was. *)
Record same_segment (s s' : t) : Prop := { ss_id : id s' = id s; ss_bytes : size s' = size s }.
Definition grown (st : P) (m : gmap PageId bytes) (n : Z) (st' : P) (m' : gmap PageId bytes) : Prop :=
  holds st' m' /\ (forall p, is_Some (m !! p) -> m' !! p = m !! p) /\
  next_page_id st <= next_page_id st' <= next_page_id st + n /\ data_size st' = data_size st.

Lemma grown_refl st m n : holds st m -> 0 <= n -> grown st m n st m.
Proof. intros. split_and!; try done; lia. Qed.
Lemma grown_trans st0 m0 n st1 m1 k st2 m2 : grown st0 m0 n st1 m1 -> grown st1 m1 k st2 m2 -> grown st0 m0 (n + k) st2 m2.
Proof.
  intros (_ & Ho1 & Hn1 & Hd1) (Hh & Ho2 & Hn2 & Hd2). split_and!; try done; try lia. intros p Hp. rewrite Ho2; [by apply Ho1|by rewrite Ho1].
Qed.
Lemma on_pages_grown st0 m0 n st1 m1 ps cs : grown st0 m0 n st1 m1 -> on_pages m0 ps cs -> on_pages m1 ps cs.
Proof.
  intros (_ & Ho & _) Hp. eapply Forall2_impl; [exact Hp|]. intros p c [Hc [next Hm]]. split; [done|]. exists next. rewrite Ho; [done|by eexists].
Qed.
Lemma flush_locked_ok s st m : holds st m -> next_page_id st + zlen (write_buffer s) < 2 ^ 64 ->
  let k := flush_count (payload st) (zlen (write_buffer s)) in
  after store_faults (flush_locked (P := P)) (s, st) (fun _ s' => exists m' ids cs, grown st m k s'.2 m' /\ same_segment s s'.1 /\
    flushed_pages s'.1 = flushed_pages s ++ ids /\ on_pages m' ids cs /\ mjoin cs = take (Z.to_nat k) (write_buffer s) /\
    write_buffer s'.1 = drop (Z.to_nat k) (write_buffer s)).
Proof.
  intros Hh Hn k. destruct (payload_ok st m Hh) as [Hp Hp0]. unfold flush_locked. apply after_get_bind. cbn [fst snd]. cbv zeta. rewrite Hp.
  rewrite (proj2 (Z.eqb_neq (payload st) 0)) by lia. simpl orb. pose proof (zlen_nonneg (write_buffer s)) as Hb0.
  destruct (Z.eqb_spec (zlen (write_buffer s)) 0) as [Hz|Hz].
  { assert (Hk : k = 0) by (subst k; unfold flush_count; rewrite Hz, (proj2 (Z.ltb_lt _ _)) by lia; done).
    unfold after. cbn. exists m, [], []. rewrite Hk, app_nil_r. split_and!; try done; [apply grown_refl; [done|lia]|constructor]. }
  fold (flush_count (payload st) (zlen (write_buffer s))). fold k.
  pose proof (flush_count_range (payload st) _ Hp0 Hb0) as Hk. fold k in Hk.
  set (part := take (Z.to_nat k) (write_buffer s)).
  assert (Hpart : zlen part = k). { subst part. unfold zlen in *. rewrite length_take. lia. }
  destruct (chunks_ok (payload st) Hp0 (length part) part ltac:(lia)) as (Hj & Hc & Hl).
  eapply after_bind.
  { apply after_on_store. apply after_write_bytes. rewrite Hp. eapply after_bind.
    - eapply (after_lift _ _ _ tt (fun _ s => s = st)); [|done]. apply ensure_true. by rewrite (proj2 (Z.eqb_neq _ _)) by lia.
    - intros _ ? ->. apply (write_chunks_ok _ st m Hh Hc). lia. }
  intros ids [s1 st1] [Hs1 (m1 & Hh1 & Hps & Hold & Hn1 & Hd1)]. cbn [fst snd] in *. subst s1.
  unfold after. cbn. exists m1, ids, (chunks (length part) (payload st) part).
  assert (Hmeta : size (extend_pages ids s) = size s) by (unfold size, extend_pages; by destruct (last (flushed_pages s ++ ids))).
  pose proof (zlen_nonneg (chunks (length part) (payload st) part)).
  split_and!; try done. split_and!; try done; cbn [fst snd]; lia.
Qed.

Lemma after_seg_upd {B} f (g : unit -> stateful (t * P) TableError B) s st Q :
  after store_faults (g tt) (f s, st) Q -> after store_faults (upd f ≫= g) (s, st) Q.
Proof. done. Qed.
Lemma seg_append_ok key value thr s st m : holds st m -> next_page_id st + zlen (write_buffer s) + zlen (entry_of (key, value)) < 2 ^ 64 ->
  let b := write_buffer s ++ entry_of (key, value) in
  let k := if thr <=? zlen b then flush_count (payload st) (zlen b) else 0 in
  after store_faults (append (P := P) key value thr) (s, st) (fun off s' => exists m' ids cs, grown st m k s'.2 m' /\
    off = size s /\ id s'.1 = id s /\ size s'.1 = as_u64 (size s + zlen (entry_of (key, value))) /\
    flushed_pages s'.1 = flushed_pages s ++ ids /\ on_pages m' ids cs /\ mjoin cs = take (Z.to_nat k) b /\
    write_buffer s'.1 = drop (Z.to_nat k) b).
Proof.
  intros Hh Hn b k. unfold append. apply after_get_bind. cbn [fst snd].
  assert (Hz : 4 + zlen key + 4 + zlen value = zlen (entry_of (key, value))) by (rewrite zlen_entry_of; simpl; lia).
  set (s1 := add_entry key value s). assert (Hs1 : write_buffer s1 = b) by done.
  assert (Hsz : size s1 = as_u64 (size s + zlen (entry_of (key, value)))) by (rewrite <- Hz; done).
  assert (Hid : id s1 = id s) by done. assert (Hps : flushed_pages s1 = flushed_pages s) by done.
  apply (after_seg_upd (add_entry key value)). fold s1. clearbody s1. apply after_get_bind. cbn [fst snd]. rewrite Hs1. eapply after_bind.
  { instantiate (1 := fun _ s' => exists m' ids cs, grown st m k s'.2 m' /\ id s'.1 = id s1 /\ size s'.1 = size s1 /\
      flushed_pages s'.1 = flushed_pages s1 ++ ids /\ on_pages m' ids cs /\ mjoin cs = take (Z.to_nat k) b /\
      write_buffer s'.1 = drop (Z.to_nat k) b).
    subst k. destruct (thr <=? zlen b).
    - eapply after_mono; [apply (flush_locked_ok s1 st m Hh); rewrite Hs1; subst b; rewrite zlen_app; lia|]. rewrite Hs1.
      intros _ s' (m' & ids & cs & Hg & [] & Hrest). by exists m', ids, cs.
    - unfold after. cbn. exists m, [], []. rewrite app_nil_r. split_and!; try done; [by apply grown_refl|constructor]. }
  intros _ s' (m' & ids & cs & Hg & Hi & Hb & Hp & Hrest). unfold after. cbn. exists m', ids, cs.
  rewrite Hi, Hb, Hid, Hsz. split_and!; try done; [by rewrite Hp, Hps|tauto..].
Qed.

(** ** A segment's log *)
Record holds_log (s : t) (l : list entry) (flushed : bytes) (st : P) (m : gmap PageId bytes) : Prop := {
  hl_holds : holds st m;
  hl_pages : exists cs, on_pages m (flushed_pages s) cs /\ mjoin cs = flushed;
  hl_log : flushed ++ write_buffer s = log_of l;
  hl_size : size s = zlen (log_of l) }.
(** The bytes flushed and buffered after an entry of [n] bytes. *)
Definition after_append (payload thr n : Z) (x : Z * Z) : Z * Z :=
  let b := x.2 + n in let k := if thr <=? b then flush_count payload b else 0 in (x.1 + k, b - k).

Lemma append_logs key value thr s l flushed st m n : holds_log s l flushed st m -> next_page_id st <= n + zlen flushed ->
  n + zlen (log_of (l ++ [(key, value)])) < 2 ^ 64 -> zlen (log_of (l ++ [(key, value)])) < 2 ^ 64 ->
  after store_faults (append (P := P) key value thr) (s, st) (fun off s' => exists m' flushed', holds_log s'.1 (l ++ [(key, value)]) flushed' s'.2 m' /\
    off = zlen (log_of l) /\ grown st m (zlen (log_of (l ++ [(key, value)]))) s'.2 m' /\ next_page_id s'.2 <= n + zlen flushed' /\
    (zlen flushed', zlen (write_buffer s'.1)) = after_append (payload st) thr (zlen (entry_of (key, value))) (zlen flushed, zlen (write_buffer s))).
Proof.
  intros [Hh (cs & Hps & Hcs) Hlog Hsz] Hnext Hn Hu. rewrite log_snoc, zlen_app in *. rewrite <- Hlog, zlen_app in Hn, Hu.
  pose proof (zlen_nonneg flushed). pose proof (zlen_nonneg (write_buffer s)). pose proof (zlen_nonneg (entry_of (key, value))).
  destruct (payload_ok st m Hh) as [_ Hp0].
  eapply after_mono; [apply (seg_append_ok key value thr s st m Hh); lia|]. cbv zeta. set (b := write_buffer s ++ entry_of (key, value)).
  set (k := if thr <=? zlen b then _ else _).
  assert (Hbz : zlen b = zlen (write_buffer s) + zlen (entry_of (key, value))) by (subst b; by rewrite zlen_app).
  assert (Hk : 0 <= k <= zlen b) by (subst k; pose proof (flush_count_range (payload st) (zlen b) Hp0 ltac:(lia)); destruct (_ <=? _); lia).
  intros off [s' st'] (m' & ids & cs' & Hg & -> & Hi & Hs' & Hfp & Hps' & Hcs' & Hb'). cbn [fst snd] in *.
  assert (Hkz : zlen (take (Z.to_nat k) b) = k) by (unfold zlen in *; rewrite length_take; lia).
  assert (Hdz : zlen (drop (Z.to_nat k) b) = zlen b - k) by (unfold zlen in *; rewrite length_drop; lia).
  exists m', (flushed ++ take (Z.to_nat k) b). rewrite Hb', zlen_app, Hkz, Hdz. split_and!.
  - constructor; [by destruct Hg| | |].
    + exists (cs ++ cs'). rewrite Hfp, join_app, Hcs, Hcs'. split; [|done]. apply Forall2_app; [by eapply on_pages_grown|done].
    + rewrite Hb', log_snoc, <- Hlog. unfold b. by rewrite <- !app_assoc, take_drop.
    + rewrite Hs', Hsz, log_snoc, zlen_app, <- Hlog, zlen_app. apply as_u_id. unfold fits. lia.
  - done.
  - destruct Hg as (? & ? & ? & ?). split_and!; try done; rewrite <- ?Hlog, ?zlen_app; lia.
  - destruct Hg as (_ & _ & ? & _). lia.
  - unfold after_append. cbn [fst snd]. by rewrite <- Hbz.
Qed.

(** Many entries, each with its threshold; the answer is their offsets. *)
Fixpoint append_all (l : list (entry * Z)) : stateful (t * P) TableError (list Z) :=
  match l with
  | [] => mret []
  | (x, thr) :: l => off ← append x.1 x.2 thr; rest ← append_all l; mret (off :: rest)
  end.
Fixpoint offsets_of (start : Z) (l : list entry) : list Z :=
  match l with [] => [] | x :: l => start :: offsets_of (start + zlen (entry_of x)) l end.
Definition flushed_after (payload : Z) (l : list (entry * Z)) (x : Z * Z) : Z * Z :=
  foldl (fun x y => after_append payload y.2 (zlen (entry_of y.1)) x) x l.

Lemma append_all_ok n : forall puts s l flushed st m, holds_log s l flushed st m -> next_page_id st <= n + zlen flushed -> 0 <= n ->
  n + zlen (log_of (l ++ map fst puts)) < 2 ^ 64 ->
  after store_faults (append_all puts) (s, st) (fun offs s' => exists m' flushed', holds_log s'.1 (l ++ map fst puts) flushed' s'.2 m' /\
    offs = offsets_of (zlen (log_of l)) (map fst puts) /\ (forall p, is_Some (m !! p) -> m' !! p = m !! p) /\
    (zlen flushed', zlen (write_buffer s'.1)) = flushed_after (payload st) puts (zlen flushed, zlen (write_buffer s))).
Proof.
  induction puts as [|[[k v] thr] puts IH]; intros s l flushed st m Hl Hnext Hn0 Hn; cbn [append_all].
  { unfold after. cbn. exists m, flushed. rewrite app_nil_r. split_and!; done. }
  cbn [fst snd map] in *. assert (Hcons : l ++ (k, v) :: map fst puts = (l ++ [(k, v)]) ++ map fst puts) by by rewrite <- app_assoc.
  rewrite Hcons in *. assert (Hpre : zlen (log_of (l ++ [(k, v)])) <= zlen (log_of ((l ++ [(k, v)]) ++ map fst puts))).
  { unfold log_of. rewrite (flat_map_app _ (l ++ [(k, v)])), zlen_app. pose proof (zlen_nonneg (flat_map entry_of (map fst puts))). lia. }
  eapply after_bind; [apply (append_logs k v thr s l flushed st m n Hl Hnext); lia|].
  intros off [s1 st1] (m1 & f1 & Hl1 & -> & (Hh1 & Hold1 & Hn1 & Hd1) & Hnext1 & Hf1). cbn [fst snd] in *.
  eapply after_bind; [apply (IH s1 _ f1 st1 m1 Hl1 Hnext1 Hn0 Hn)|].
  intros offs [s2 st2] (m2 & f2 & Hl2 & -> & Hold2 & Hf2). cbn [fst snd] in *. unfold after. cbn. exists m2, f2. split_and!; [done| | |].
  - by rewrite log_snoc, zlen_app.
  - intros p Hp. rewrite Hold2; [by apply Hold1|by rewrite Hold1].
  - rewrite Hf2. unfold payload in *. rewrite Hd1, Hf1. done.
Qed.
Lemma offsets_lookup l : forall start pre x post, l = pre ++ x :: post -> offsets_of start l !! length pre = Some (start + zlen (log_of pre)).
Proof.
  induction l as [|y l IH]; intros start pre x post Hl; [by destruct pre|]. destruct pre as [|z pre]; simpl in *.
  - injection Hl as -> ->. f_equal. change (zlen []) with 0. lia.
  - injection Hl as -> ->. rewrite (IH _ pre x post eq_refl). f_equal. rewrite zlen_app. lia.
Qed.

(** Reading at the offset of an entry. *)
Lemma read_at_ok s pre x post flushed st m : holds_log s (pre ++ x :: post) flushed st m -> entry_fits x ->
  let off := zlen (log_of pre) in
  reads m (read_at (P := P) off s)
    (Ok (if (off <? zlen flushed) && (zlen flushed <? off + zlen (entry_of x)) then None else Some x.2)).
Proof.
  intros [Hh (cs & Hps & Hcs) Hlog Hsz] Hx off. unfold read_at.
  assert (Hsplit : log_of (pre ++ x :: post) = log_of pre ++ entry_of x ++ log_of post).
  { unfold log_of. rewrite flat_map_app. done. }
  rewrite Hsz, Hsplit, !zlen_app. rewrite Hsplit in Hlog. fold off.
  pose proof (zlen_entry_of x). pose proof (zlen_nonneg x.1). pose proof (zlen_nonneg x.2). pose proof (zlen_nonneg (log_of post)).
  rewrite (proj2 (Z.leb_gt _ _)) by lia. destruct (flushed_ok m (flushed_pages s) cs Hps) as [Hlen Hbytes]. rewrite Hcs in *.
  eapply reads_bind; [exact Hlen|]. destruct (Z.ltb_spec off (zlen flushed)) as [Hin|Hout]; simpl andb.
  - unfold read_at_from_flushed. eapply reads_bind; [exact Hbytes|]. apply reads_lift.
    subst off. rewrite (decode_ok flushed (write_buffer s) (log_of pre) x (log_of post) Hlog Hx Hin). f_equal. set (off := zlen (log_of pre)).
    by destruct (Z.leb_spec (off + zlen (entry_of x)) (zlen flushed)), (Z.ltb_spec (zlen flushed) (off + zlen (entry_of x))); try lia.
  - apply reads_lift. destruct (app_cut flushed (write_buffer s) (log_of pre) (entry_of x ++ log_of post) Hlog ltac:(lia)) as (r & Hpre & Hb).
    rewrite Hb. assert (Hr : off - zlen flushed = zlen r) by (subst off; rewrite Hpre, zlen_app; lia). rewrite Hr.
    rewrite (decode_ok _ [] r x (log_of post)); [|by rewrite app_nil_r|done|rewrite !zlen_app; lia].
    rewrite !zlen_app. by rewrite (proj2 (Z.leb_le _ _)) by lia.
Qed.

(** Entries that fit a page with what may wait before them are flushed
    whole. *)
Definition flushed_whole (payload W : Z) (y : entry * Z) : Prop := y.2 = W /\ W + zlen (entry_of y.1) <= payload.
Lemma flush_count_all p n : 0 < p -> n <= p -> flush_count p n = n.
Proof.
  intros Hp Hn. unfold flush_count. destruct (Z.ltb_spec n p); [done|]. assert (n = p) as -> by lia. rewrite Z.div_same by lia. lia.
Qed.
Lemma flushed_whole_ok pl W : 0 < pl -> 0 <= W -> forall puts l1 l2 F b, Forall (flushed_whole pl W) puts ->
  F = zlen (log_of l1) -> b = zlen (log_of l2) -> (b = 0 \/ b < W) ->
  exists k1 k2, l1 ++ l2 ++ map fst puts = k1 ++ k2 /\ (flushed_after pl puts (F, b)).1 = zlen (log_of k1).
Proof.
  intros Hpl HW puts. induction puts as [|[y thr] puts IH]; intros l1 l2 F b Hp HF Hb Hbw; [exists l1, (l2 ++ []); done|].
  apply Forall_cons in Hp as [[Ht Hy] Hp]. simpl in Ht, Hy. subst thr. pose proof (zlen_nonneg (entry_of y)).
  assert (Hb' : b + zlen (entry_of y) = zlen (log_of (l2 ++ [y]))) by (rewrite log_snoc, zlen_app; lia). cbn [flushed_after foldl].
  unfold after_append at 2. cbn [fst snd]. destruct (Z.leb_spec W (b + zlen (entry_of y))) as [Hfull|Hroom].
  - rewrite flush_count_all by lia. destruct (IH (l1 ++ l2 ++ [y]) [] (F + (b + zlen (entry_of y))) (b + zlen (entry_of y) - (b + zlen (entry_of y))) Hp)
      as (k1 & k2 & Hk & HF').
    + unfold log_of. rewrite flat_map_app, zlen_app. unfold log_of in Hb', HF. lia.
    + change (zlen (log_of [])) with 0. lia.
    + left. lia.
    + exists k1, k2. split; [|exact HF']. rewrite <- Hk. simpl. by rewrite <- !app_assoc.
  - destruct (IH l1 (l2 ++ [y]) (F + 0) (b + zlen (entry_of y) - 0) Hp) as (k1 & k2 & Hk & HF'); [lia|lia|right; lia|].
    exists k1, k2. split; [|exact HF']. rewrite <- Hk. simpl. by rewrite <- !app_assoc.
Qed.

(** A place between entries is not within one. *)
Lemma boundary pre x post k1 k2 : pre ++ x :: post = k1 ++ k2 ->
  zlen (log_of k1) <= zlen (log_of pre) \/ zlen (log_of pre) + zlen (entry_of x) <= zlen (log_of k1).
Proof.
  intros [(k & -> & Hk)|(k & -> & Hk)]%app_eq_inv.
  - left. unfold log_of. rewrite flat_map_app, zlen_app. pose proof (zlen_nonneg (flat_map entry_of k)). lia.
  - destruct k as [|y k]; [left; rewrite app_nil_r; lia|right]. injection Hk as <- _. unfold log_of. rewrite flat_map_app, zlen_app. simpl.
    rewrite zlen_app. pose proof (zlen_nonneg (flat_map entry_of k)). lia.
Qed.

(** A new segment with entries appended. *)
Definition filled (now : Z) (sid : SegmentId) (puts : list (entry * Z)) : stateful P TableError (list Z * t) := fun p =>
  match new now sid p with
  | (Ok s, p) => let '(r, (s, p)) := append_all puts (s, p) in
      (match r with Ok offs => Ok (offs, s) | Err e => Err e | Panic => Panic end, p)
  | (Err e, p) => (Err e, p)
  | (Panic, p) => (Panic, p)
  end.

Lemma new_segment_ok (now : Z) (sid : SegmentId) (st : P) (m : gmap PageId bytes) : holds st m -> next_page_id st + 1 < 2 ^ 64 ->
  after store_faults (new now sid) st (fun s st1 => holds st1 (<[next_page_id st := []]> m) /\ m !! next_page_id st = None /\
    next_page_id st1 = next_page_id st + 1 /\ data_size st1 = data_size st /\
    s = mk sid (mkSegmentMetadata sid now 0 0 (next_page_id st) (next_page_id st)) [] []).
Proof.
  intros Hh Hn. unfold new. eapply after_bind; [apply after_named, (allocate_page_ok st m PageType.LsmData Hh eq_refl); lia|].
  intros p st1 (-> & Hn1 & Hfresh & _ & Hh1 & Hd1 & _). unfold after. cbn. done.
Qed.

(** C12: a segment reads back what was appended to it.  Appending entries to
    a new segment, each with its own threshold for flushing, fails only where
    the store does, leaves every other page as it was and returns the offsets
    of the entries.  Reading at the offset of an entry afterwards, across
    flushed pages and the buffer, answers its value, unless the flushed bytes
    end within the entry: then it answers nothing.  That cannot happen when
    the threshold is the same throughout and leaves room for an entry on a
    page. *)
Theorem segment_reads_back (now : Z) (sid : SegmentId) (puts : list (entry * Z)) (st : P) (m : gmap PageId bytes)
    (Hh : holds st m) (Hfit : Forall (fun x => entry_fits x.1) puts)
    (Hn : next_page_id st + 1 + zlen (log_of (map fst puts)) < 2 ^ 64) :
  after store_faults (filled now sid puts) st (fun r st' => exists m', holds st' m' /\
    (forall p, is_Some (m !! p) -> m' !! p = m !! p) /\ r.1 = offsets_of 0 (map fst puts) /\
    size r.2 = zlen (log_of (map fst puts)) /\
    forall i x thr, puts !! i = Some (x, thr) -> exists off, r.1 !! i = Some off /\
      (let flushed := (flushed_after (payload st) puts (0, 0)).1 in
       reads m' (read_at (P := P) off r.2)
         (Ok (if (off <? flushed) && (flushed <? off + zlen (entry_of x)) then None else Some x.2))) /\
      forall W, 0 <= W -> Forall (flushed_whole (payload st) W) puts -> reads m' (read_at (P := P) off r.2) (Ok (Some x.2))).
Proof.
  pose proof (next_page_bound st m Hh) as Hnb. pose proof (zlen_nonneg (log_of (map fst puts))).
  pose proof (new_segment_ok now sid st m Hh ltac:(lia)) as Hnew.
  unfold after, filled in *. destruct (new now sid st) as [[s|e|] st1]; [|done|done].
  destruct Hnew as (Hh1 & Hfresh & Hn1 & Hd1 & ->). set (s := mk _ _ _ _).
  assert (Hlog : holds_log s [] [] st1 (<[next_page_id st := []]> m)).
  { constructor; [done|exists []; split; [constructor|done]|done|done]. }
  pose proof (append_all_ok (next_page_id st + 1) puts s [] [] st1 _ Hlog ltac:(rewrite zlen_nil; lia) ltac:(lia) Hn) as Happ.
  unfold after in Happ. destruct (append_all puts (s, st1)) as [[offs|e|] [s2 st2]]; [|done|done].
  destruct Happ as (m2 & flushed & Hl2 & -> & Hold & Hf). cbn [fst snd app] in *. exists m2.
  assert (HF : zlen flushed = (flushed_after (payload st) puts (0, 0)).1).
  { unfold payload in *. rewrite Hd1 in Hf. change (zlen (@nil Z), zlen (write_buffer s)) with (0, 0) in Hf. by rewrite <- Hf. }
  split_and!; [by destruct Hl2| |done|by destruct Hl2|].
  - intros p Hp. assert (p <> next_page_id st) by (intros ->; rewrite Hfresh in Hp; by destruct Hp).
    rewrite Hold; by rewrite lookup_insert_ne.
  - intros i x thr Hi. assert (Hx : map fst puts !! i = Some x) by by rewrite list_lookup_fmap, Hi.
    apply list_elem_of_split_length in Hx as (pre & post & Hsplit & ->). exists (0 + zlen (log_of pre)).
    split; [by apply (offsets_lookup _ 0 pre x post)|]. rewrite Z.add_0_l. cbv zeta. rewrite <- HF.
    rewrite Hsplit in Hl2. pose proof (proj1 (Forall_forall _ _) Hfit (x, thr) (list_elem_of_lookup_2 _ _ _ Hi)) as Hxf.
    pose proof (read_at_ok s2 pre x post flushed st2 m2 Hl2 Hxf) as Hr. split; [exact Hr|].
    intros W HW Hwhole. destruct (payload_ok st m Hh) as [_ Hp0].
    destruct (flushed_whole_ok (payload st) W Hp0 HW puts [] [] 0 0 Hwhole eq_refl eq_refl ltac:(by left)) as (k1 & k2 & Hk & Hk1).
    rewrite <- HF in Hk1. simpl in Hk. rewrite Hsplit in Hk. cbv zeta in Hr. rewrite Hk1 in Hr.
    enough ((zlen (log_of pre) <? zlen (log_of k1)) && (zlen (log_of k1) <? zlen (log_of pre) + zlen (entry_of x)) = false) as Hno by by rewrite Hno in Hr.
    apply boundary in Hk. lia.
Qed.
End Store.
End SegmentLaws.

(** ** Maps rebuilt from their entries *)
Lemma insert_behind {V} (l : list (bytes * V)) k v : Forall (fun x => key_lt x.1 k) l -> BTreeMap.insert l k v = l ++ [(k, v)].
Proof.
  induction 1 as [|[k' v'] l Hk Hl IH]; simpl; [done|]. simpl in Hk.
  assert (key_ltb k k' = false) as -> by by apply key_ltb_false; right.
  destruct (bytes_eqb k k') eqn:He; [apply bytes_eqb_true in He as ->; by apply key_lt_irrefl in Hk|]. by rewrite IH.
Qed.
Lemma rebuild {V} (l : list (bytes * V)) : forall acc, BTreeMap.sorted (acc ++ l) ->
  foldl (fun m x => BTreeMap.insert m x.1 x.2) acc l = acc ++ l.
Proof.
  induction l as [|[k v] l IH]; intros acc Hs; simpl; [by rewrite app_nil_r|].
  rewrite insert_behind.
  - rewrite IH; rewrite <- app_assoc; done.
  - apply Forall_forall. intros x Hx. by apply (keys_sorted_app acc ((k, v) :: l) x (k, v) Hs Hx); left.
Qed.
Lemma insert_map_values {V W} (f : V -> W) l k v :
  BTreeMap.map_values f (BTreeMap.insert l k v) = BTreeMap.insert (BTreeMap.map_values f l) k (f v).
Proof. induction l as [|[k' v'] l IH]; simpl; [done|]. destruct (key_ltb k k'), (bytes_eqb k k'); simpl; by rewrite ?IH. Qed.

Module AppendLogLaws.
Import AppendLogTable.

(** ** What a table holds *)
Definition contents (x : t) : list (bytes * VersionChain.t) := BTreeMap.map_values ix_chain (index (state x)).
Definition shown (o : option VersionChain.t) (lsn : LogSequenceNumber) : option bytes :=
  match o with
  | Some c => match VersionChain.find_visible_inline c (read_snapshot lsn) with
              | Some v => if zlen v =? 0 then None else Some v
              | None => None
              end
  | None => None
  end.
Lemma get_shown key lsn x : get_at key lsn x = shown (BTreeMap.get (contents x) key) lsn.
Proof. unfold get_at, get, contents. rewrite BTreeMap.get_map_values. by destruct (BTreeMap.get _ key). Qed.

Inductive event : Type :=
  | Put (now : Z) (key value : bytes) (tx : TransactionId)
  | Del (key : bytes) (tx : TransactionId)
  | CommitTx (tx : TransactionId) (lsn : LogSequenceNumber)
  | FlushSegment.
Definition advance (l : list (bytes * VersionChain.t)) (e : event) : list (bytes * VersionChain.t) :=
  match e with
  | Put _ k v tx => BTreeMap.insert l k (match BTreeMap.get l k with Some c => VersionChain.prepend c v tx | None => VersionChain.new v tx end)
  | Del k tx => match BTreeMap.get l k with Some c => BTreeMap.insert l k (VersionChain.prepend c [] tx) | None => l end
  | CommitTx tx lsn => BTreeMap.map_values (commit_chain tx lsn) l
  | FlushSegment => l
  end.
(** How many pages an event may need, in the end. *)
Definition cost (e : event) : Z := match e with Put _ k v _ => 9 + zlen k + zlen v | _ => 0 end.
Lemma cost_nonneg e : 0 <= cost e.
Proof. destruct e as [? k v ?| | |]; simpl; try lia. pose proof (zlen_nonneg k). pose proof (zlen_nonneg v). lia. Qed.

Section Table.
Context `{JsonLaws} {P : Type} `{PageStoreLaws P}.
Abbreviation M := (stateful (t * P) TableError).

Definition perform (e : event) : M unit :=
  match e with
  | Put now k v tx => _ ← put_tx now k v tx; mret tt
  | Del k tx => _ ← delete_tx k tx; mret tt
  | CommitTx tx lsn => commit_versions tx lsn
  | FlushSegment => flush
  end.
Fixpoint perform_all (l : list event) : M unit :=
  match l with [] => mret tt | e :: l => _ ← perform e; perform_all l end.

(** A call fails with the store, or because the metadata does not fit its
    page. *)
Definition metadata_error (e : TableError) : Prop :=
  e = TableOther "Failed to serialize AppendLog metadata" \/ e = TableOther "AppendLog metadata too large for root page".
Definition steps {S A} (m : stateful S TableError A) (s : S) (Q : A -> S -> Prop) : Prop :=
  match m s with
  | (Ok a, s') => Q a s'
  | (Err e, _) => store_faults \/ metadata_error e
  | (Panic, _) => store_faults
  end.
Lemma steps_after {S A} (m : stateful S TableError A) s Q : after store_faults m s Q -> steps m s Q.
Proof. unfold after, steps. destruct (m s) as [[a|e|] s']; auto. Qed.
Lemma steps_bind {S A B} (m : stateful S TableError A) (f : A -> stateful S TableError B) s Q R :
  steps m s Q -> (forall a s', Q a s' -> steps (f a) s' R) -> steps (m ≫= f) s R.
Proof. unfold steps, mbind, stateful_bind. destruct (m s) as [[a|e|] s']; [|done|done]. intros Hq Hf. exact (Hf a s' Hq). Qed.
Lemma steps_mono {S A} (m : stateful S TableError A) s (Q R : A -> S -> Prop) : steps m s Q -> (forall a s', Q a s' -> R a s') -> steps m s R.
Proof. unfold steps. destruct (m s) as [[a|e|] s']; auto. Qed.
Lemma steps_upd {B} f (g : unit -> M B) x st R : steps (g tt) (set_state (f (state x)) x, st) R -> steps (upd f ≫= g) (x, st) R.
Proof. done. Qed.
Lemma steps_gets {B} (g : t -> M B) x st R : steps (g x) (x, st) R -> steps (gets fst ≫= g) (x, st) R.
Proof. done. Qed.
Lemma after_table {A} (m : stateful P TableError A) (x : t) st Q :
  after store_faults m st Q -> after store_faults (on_store m) (x, st) (fun a s' => s'.1 = x /\ Q a s'.2).
Proof. unfold after, on_store. by destruct (m st) as [[a|e|] s']. Qed.
Lemma after_active {A} (m : stateful (Segment.t * P) TableError A) (x : t) st Q : after store_faults m (active_segment (state x), st) Q ->
  after store_faults (on_active m) (x, st) (fun a s' => exists seg, s'.1 = set_state (set_active seg (state x)) x /\ Q a (seg, s'.2)).
Proof.
  unfold after, on_active. destruct (m (active_segment (state x), st)) as [[a|e|] [seg p']]; [|done|done]. intros Hq. by exists seg.
Qed.

(** The root page is live; the index is in order. *)
Record live (x : t) (st : P) (m : gmap PageId bytes) : Prop := {
  lv_holds : holds st m;
  lv_root : is_Some (m !! root_page_id x);
  lv_page : max_metadata <= data_size st;
  lv_sorted : BTreeMap.sorted (index (state x)) }.
(** The root page holds the index and the counters. *)
Definition saved (x : t) (m : gmap PageId bytes) : Prop :=
  exists s d, m !! root_page_id x = Some d /\ state_from d = Some (persisted s) /\ index s = index (state x) /\
    next_segment_id s = next_segment_id (state x) /\ entry_count s = entry_count (state x) /\ total_size s = total_size (state x).
(** Pages but the root's are kept. *)
Definition keeps (root : PageId) (m m' : gmap PageId bytes) : Prop := forall p, p <> root -> is_Some (m !! p) -> m' !! p = m !! p.

Lemma persist_ok x st m : live x st m ->
  steps persist_metadata (x, st) (fun _ s' => s'.1 = x /\ exists m', live x s'.2 m' /\ saved x m' /\ keeps (root_page_id x) m m' /\
    next_page_id s'.2 = next_page_id st).
Proof.
  intros [Hh Hr Hp Hs]. unfold persist_metadata. apply steps_gets. destruct (state_to (persisted (state x))) as [d|] eqn:Hd.
  2: { unfold steps. cbn. right. by left. }
  unfold ok_or. eapply steps_bind; [apply (steps_after _ _ (fun a s => a = d /\ s = (x, st))); done|]. intros ? ? [-> ->].
  destruct (Z.leb_spec (zlen d) max_metadata) as [Hle|Hgt]; [|unfold steps, ensure; cbn; right; by right].
  eapply steps_bind; [apply (steps_after _ _ (fun _ s => s = (x, st))); done|]. intros _ ? ->.
  apply steps_after. eapply after_mono.
  { apply after_table, SegmentLaws.after_named, (write_page_ok st m (root_page_id x) PageType.LsmMeta d Hh Hr eq_refl). lia. }
  intros _ [x' st'] (Hx & Hh' & [Hsz Hnx _ _]). cbn [fst snd] in *. subst x'. split; [done|]. eexists. split_and!; [| | |done].
  - constructor; [exact Hh'|by rewrite lookup_insert_eq|lia|done].
  - exists (state x), d. rewrite lookup_insert_eq. split_and!; try done. by apply state_back.
  - intros p Hne _. by rewrite lookup_insert_ne.
Qed.

(** ** Calls *)
(** The table stands over its pages, and what may still be allocated is
    bounded by [n]. *)
Definition moved (x : t) (m : gmap PageId bytes) (n : Z) (s : t * P) (m' : gmap PageId bytes) : Prop :=
  live s.1 s.2 m' /\ keeps (root_page_id x) m m' /\ root_page_id s.1 = root_page_id x /\ config s.1 = config x /\
  next_page_id s.2 + zlen (Segment.write_buffer (active_segment (state s.1))) <= n.
Lemma keeps_refl root m : keeps root m m.
Proof. done. Qed.
Lemma keeps_trans root m1 m2 m3 : keeps root m1 m2 -> keeps root m2 m3 -> keeps root m1 m3.
Proof. intros H1' H2' p Hp Hs. rewrite H2'; [by apply H1'|done|by rewrite H1']. Qed.
Lemma moved_persist x m n s m' : moved x m n s m' ->
  steps persist_metadata s (fun _ s' => exists m'', s'.1 = s.1 /\ moved x m n s' m'' /\ saved s'.1 m'').
Proof.
  destruct s as [y st]. intros (Hl & Hk & Hr & Hc & Hn). cbn [fst snd] in *. eapply steps_mono; [apply (persist_ok y st m' Hl)|].
  intros _ [y' st'] (Hy & m'' & Hl' & Hs & Hk' & Hn'). cbn [fst snd] in *. subst y'. exists m''. split; [done|]. split; [|done].
  rewrite Hr in Hk'. split_and!; try done; cbn [fst snd]; [by eapply keeps_trans|lia].
Qed.
(** A change of the index that keeps it in order. *)
Lemma moved_state x m n y st m' (f : State -> State) : moved x m n (y, st) m' -> BTreeMap.sorted (index (f (state y))) ->
  active_segment (f (state y)) = active_segment (state y) -> moved x m n (set_state (f (state y)) y, st) m'.
Proof. intros ([] & Hk & Hr & Hc & Hn) Hs Ha. cbn [fst snd] in *. split_and!; cbn; rewrite ?Ha; try done. Qed.

Lemma roll_ok now x st m n : live x st m -> AppendLogConfig.retention_policy (config x) = KeepSegments ->
  next_page_id st + zlen (Segment.write_buffer (active_segment (state x))) <= n -> n + 1 < 2 ^ 64 ->
  steps (if should_roll_segment x
         then _ ← roll_segment now; upd (apply_retention now (AppendLogConfig.retention_policy (config x)))
         else mret tt) (x, st)
    (fun _ s' => exists m', moved x m (n + 1) s' m' /\ index (state s'.1) = index (state x)).
Proof.
  intros [Hh Hr Hp Hs] Hret Hn Hbound. pose proof (zlen_nonneg (Segment.write_buffer (active_segment (state x)))).
  destruct (should_roll_segment x); [|unfold steps; cbn; exists m; split_and!; try done; split_and!; try done; cbn; lia].
  unfold roll_segment. rewrite Hret. eapply steps_bind.
  { apply steps_gets. eapply steps_bind; [apply steps_after, after_table, (SegmentLaws.new_segment_ok now _ st m Hh); lia|].
    intros seg [x1 st1] (Hx & (Hh1 & Hfresh & Hn1 & Hd1 & Hseg)). cbn [fst snd] in *. subst x1 seg.
    apply (steps_after (S := t * P)). unfold after. cbn.
    instantiate (1 := fun _ s' => exists m', moved x m (n + 1) s' m' /\ index (state s'.1) = index (state x)).
    exists (<[next_page_id st := []]> m).
    assert (Hne : next_page_id st <> root_page_id x) by (intros He; rewrite He in Hfresh; rewrite Hfresh in Hr; by destruct Hr).
    split; [|done]. split_and!; try done; cbn [fst snd].
    - constructor; cbn; [exact Hh1|by rewrite lookup_insert_ne|lia|done].
    - intros p Hpr Hp'. rewrite lookup_insert_ne; [done|]. intros He. rewrite He in Hfresh. rewrite Hfresh in Hp'. by destruct Hp'.
    - cbn. change (zlen []) with 0. lia. }
  intros _ [y st2] (m' & Hm & Hi). unfold steps. cbn. exists m'. split; [|done].
  apply (moved_state x m (n + 1) y st2 m' (fun s => s)); [done|by destruct Hm as [[]]|done].
Qed.

Lemma append_entry_ok k v thr x st m x0 m0 n : moved x0 m0 n (x, st) m -> n + zlen (SegmentLaws.entry_of (k, v)) < 2 ^ 64 ->
  steps (on_active (Segment.append k v thr)) (x, st) (fun _ s' => exists m',
    moved x0 m0 (n + zlen (SegmentLaws.entry_of (k, v))) s' m' /\ index (state s'.1) = index (state x)).
Proof.
  intros ([Hh Hr Hp Hs] & Hk & Hroot & Hc & Hn) Hb. cbn [fst snd] in *. destruct (SegmentLaws.payload_ok st m Hh) as [_ Hp0].
  pose proof (zlen_nonneg (Segment.write_buffer (active_segment (state x)))) as Hw0. pose proof (zlen_nonneg (SegmentLaws.entry_of (k, v))) as He0.
  apply steps_after. eapply after_mono; [apply after_active, (SegmentLaws.seg_append_ok k v thr _ st m Hh); lia|].
  intros off [x' st'] (seg & Hx & m' & ids & cs & (Hh' & Hold & Hnx & Hds) & _ & _ & _ & _ & _ & _ & Hbuf). cbn [fst snd] in *. subst x'.
  exists m'. split; [|done]. set (b := Segment.write_buffer _ ++ _) in *. set (kk := if _ <=? _ then _ else _) in *.
  assert (Hkk : 0 <= kk <= zlen b).
  { subst kk. pose proof (SegmentLaws.flush_count_range (SegmentLaws.payload st) (zlen b) Hp0 (zlen_nonneg b)). destruct (_ <=? _); [done|]. pose proof (zlen_nonneg b). lia. }
  unfold moved. cbn [fst snd]. split; [|split; [|split; [exact Hroot|split; [exact Hc|]]]].
  - constructor; cbn; [done| |lia|done]. destruct Hr as [d Hd]. exists d. rewrite Hold; [done|by eexists].
  - eapply keeps_trans; [exact Hk|]. intros p _ Hp'. by apply Hold.
  - cbn. rewrite Hbuf. assert (zlen (drop (Z.to_nat kk) b) = zlen b - kk) as -> by (unfold zlen in *; rewrite length_drop; lia).
    assert (zlen b = zlen (Segment.write_buffer (active_segment (state x))) + zlen (SegmentLaws.entry_of (k, v))) by (subst b; by rewrite zlen_app). lia.
Qed.

Lemma log_put_ok now k v tx x st m n : live x st m -> AppendLogConfig.retention_policy (config x) = KeepSegments ->
  next_page_id st + zlen (Segment.write_buffer (active_segment (state x))) <= n -> n + cost (Put now k v tx) < 2 ^ 64 ->
  steps (perform (Put now k v tx)) (x, st) (fun _ s' => exists m', moved x m (n + cost (Put now k v tx)) s' m' /\ saved s'.1 m' /\
    contents s'.1 = advance (contents x) (Put now k v tx)).
Proof.
  intros Hl Hret Hn Hb. simpl cost in *. pose proof (SegmentLaws.zlen_entry_of (k, v)) as He. cbn [fst snd] in He. cbn [perform].
  pose proof (zlen_nonneg k). pose proof (zlen_nonneg v).
  unfold put_tx. eapply steps_bind; [|intros n0 s' Hs; exact Hs]. apply steps_gets. eapply steps_bind; [apply (roll_ok now x st m n Hl Hret Hn); lia|].
  intros _ [x1 st1] (m1 & Hm1 & Hi1). cbn [fst snd] in Hi1. eapply steps_bind; [apply (append_entry_ok k v _ x1 st1 m1 x m (n + 1) Hm1); lia|].
  intros off [x2 st2] (m2 & Hm2 & Hi2). cbn [fst snd] in Hi2. cbv zeta. apply steps_upd. eapply steps_bind.
  { apply (moved_persist x m (n + (9 + zlen k + zlen v)) _ m2). replace (n + (9 + zlen k + zlen v)) with (n + 1 + zlen (SegmentLaws.entry_of (k, v))) by lia.
    apply (moved_state x m _ x2 st2 m2 (fun s => set_totals _ _ (set_index _ s))); [done| |done]. cbn.
    apply BTreeMap.sorted_insert. by destruct Hm2 as [[]]. }
  intros _ [x3 st3] (m3 & Hx3 & Hm3 & Hs3). cbn [fst snd] in *. unfold steps. cbn. exists m3. split_and!; [done|done|].
  rewrite Hx3. unfold contents. cbn [state index set_state set_totals set_index]. rewrite insert_map_values. cbn [ix_chain advance].
  rewrite Hi2, Hi1. f_equal.
  rewrite BTreeMap.get_map_values. by destruct (BTreeMap.get (index (state x)) k).
Qed.

Lemma moved_start x st m n : live x st m -> next_page_id st + zlen (Segment.write_buffer (active_segment (state x))) <= n -> moved x m n (x, st) m.
Proof. intros Hl Hn. unfold moved. cbn [fst snd]. done. Qed.

Lemma log_delete_ok k tx x st m n : live x st m -> next_page_id st + zlen (Segment.write_buffer (active_segment (state x))) <= n ->
  steps (perform (Del k tx)) (x, st) (fun _ s' => exists m', moved x m n s' m' /\ saved s'.1 m' /\ contents s'.1 = advance (contents x) (Del k tx)).
Proof.
  intros Hl Hn. pose proof (moved_start x st m n Hl Hn) as Hm. pose proof (lv_sorted _ _ _ Hl) as Hs. cbn [perform]. unfold delete_tx.
  eapply steps_bind; [|intros b s' Hq; exact Hq]. apply steps_gets. cbv zeta.
  assert (Hget : BTreeMap.get (contents x) k = ix_chain <$> BTreeMap.get (index (state x)) k) by (unfold contents; by rewrite BTreeMap.get_map_values).
  destruct (BTreeMap.get (index (state x)) k) as [e|] eqn:He; cbn [advance]; rewrite Hget; cbn [fmap option_fmap option_map].
  - apply steps_upd. eapply steps_bind.
    { apply (moved_persist x m n _ m). apply (moved_state x m n x st m (fun s => set_totals _ _ (set_index _ s))); [done| |done]. cbn. by apply BTreeMap.sorted_insert. }
    intros _ [x3 st3] (m3 & Hx3 & Hm3 & Hs3). cbn [fst snd] in *. unfold steps. cbn. exists m3. split_and!; [done|done|].
    rewrite Hx3. unfold contents. cbn [state index set_state set_totals set_index]. by rewrite insert_map_values.
  - eapply steps_bind; [apply (steps_after _ _ (fun _ s => s = (x, st))); done|]. intros _ ? ->.
    eapply steps_bind; [apply (moved_persist x m n (x, st) m Hm)|].
    intros _ [x3 st3] (m3 & Hx3 & Hm3 & Hs3). cbn [fst snd] in *. unfold steps. cbn. exists m3. by rewrite Hx3 in *.
Qed.
Lemma log_commit_ok tx lsn x st m n : live x st m -> next_page_id st + zlen (Segment.write_buffer (active_segment (state x))) <= n ->
  steps (perform (CommitTx tx lsn)) (x, st) (fun _ s' => exists m', moved x m n s' m' /\ saved s'.1 m' /\
    contents s'.1 = advance (contents x) (CommitTx tx lsn)).
Proof.
  intros Hl Hn. pose proof (moved_start x st m n Hl Hn) as Hm. cbn [perform]. unfold commit_versions. apply steps_upd. eapply steps_mono.
  { apply (moved_persist x m n _ m). apply (moved_state x m n x st m (fun s => set_index _ s)); [done| |done]. cbn.
    apply BTreeMap.sorted_map_values. by destruct Hl. }
  intros _ [x3 st3] (m3 & Hx3 & Hm3 & Hs3). cbn [fst snd] in *. exists m3. split_and!; [done|done|].
  rewrite Hx3. unfold contents. cbn [state index set_state set_index advance]. unfold BTreeMap.map_values. by rewrite !map_map.
Qed.
Lemma flush_ok x st m n : live x st m -> next_page_id st + zlen (Segment.write_buffer (active_segment (state x))) <= n -> n < 2 ^ 64 -> saved x m ->
  steps (perform FlushSegment) (x, st) (fun _ s' => exists m', moved x m n s' m' /\ saved s'.1 m' /\ contents s'.1 = contents x).
Proof.
  intros [Hh Hr Hp Hs] Hn Hb (s0 & d & Hd & Hfrom & Hi & Hx1 & Hx2 & Hx3). cbn [perform]. unfold flush, Segment.flush. apply steps_after.
  destruct (SegmentLaws.payload_ok st m Hh) as [_ Hp0]. pose proof (zlen_nonneg (Segment.write_buffer (active_segment (state x)))) as Hw0.
  eapply after_mono; [apply after_active, (SegmentLaws.flush_locked_ok _ st m Hh); lia|].
  intros _ [x' st'] (seg & Hx & m' & ids & cs & (Hh' & Hold & Hnx & Hds) & _ & _ & _ & _ & Hbuf). cbn [fst snd] in *. subst x'. exists m'.
  pose proof (SegmentLaws.flush_count_range (SegmentLaws.payload st) _ Hp0 Hw0) as Hk. set (k := SegmentLaws.flush_count _ _) in *.
  split; [unfold moved; cbn [fst snd]; split; [|split; [|split; [done|split; [done|]]]]|split; [|done]].
  - constructor; cbn; [done| |lia|done]. rewrite Hold; by rewrite Hd.
  - intros p _ Hp'. by apply Hold.
  - cbn. rewrite Hbuf. assert (zlen (drop (Z.to_nat k) (Segment.write_buffer (active_segment (state x))))
      = zlen (Segment.write_buffer (active_segment (state x))) - k) as -> by (unfold zlen in *; rewrite length_drop; lia). lia.
  - exists s0, d. cbn. rewrite Hold; by rewrite Hd.
Qed.

(** ** Histories *)
Definition total_cost (l : list event) : Z := foldr Z.add 0 (map cost l).
Lemma total_cost_nonneg l : 0 <= total_cost l.
Proof. induction l as [|e l IH]; [done|]. unfold total_cost in *. simpl. pose proof (cost_nonneg e). lia. Qed.
Lemma log_perform_ok e x st m n : live x st m -> AppendLogConfig.retention_policy (config x) = KeepSegments -> saved x m ->
  next_page_id st + zlen (Segment.write_buffer (active_segment (state x))) <= n -> n + cost e < 2 ^ 64 ->
  steps (perform e) (x, st) (fun _ s' => exists m', moved x m (n + cost e) s' m' /\ saved s'.1 m' /\ contents s'.1 = advance (contents x) e).
Proof.
  intros Hl Hret Hsv Hn Hb. destruct e as [now k v tx|k tx|tx lsn|]; [by apply log_put_ok|..]; simpl cost; rewrite Z.add_0_r in *.
  - by apply log_delete_ok. - by apply log_commit_ok. - by apply flush_ok.
Qed.
Lemma log_perform_all_ok : forall l x st m n, live x st m -> AppendLogConfig.retention_policy (config x) = KeepSegments -> saved x m ->
  next_page_id st + zlen (Segment.write_buffer (active_segment (state x))) <= n -> n + total_cost l < 2 ^ 64 ->
  steps (perform_all l) (x, st) (fun _ s' => exists m', moved x m (n + total_cost l) s' m' /\ saved s'.1 m' /\
    contents s'.1 = foldl advance (contents x) l).
Proof.
  induction l as [|e l IH]; intros x st m n Hl Hret Hsv Hn Hb; cbn [perform_all].
  { unfold steps. cbn. exists m. change (total_cost []) with 0. rewrite Z.add_0_r. split_and!; [by apply moved_start|done|done]. }
  change (total_cost (e :: l)) with (cost e + total_cost l) in *. pose proof (total_cost_nonneg l). pose proof (cost_nonneg e).
  eapply steps_bind; [apply (log_perform_ok e x st m n Hl Hret Hsv Hn); lia|].
  intros _ [x1 st1] (m1 & (Hl1 & Hk1 & Hr1 & Hc1 & Hn1) & Hs1 & Hadv). cbn [fst snd] in *.
  eapply steps_mono; [apply (IH x1 st1 m1 (n + cost e) Hl1); [by rewrite Hc1|done|done|lia]|].
  intros _ [x2 st2] (m2 & (Hl2 & Hk2 & Hr2 & Hc2 & Hn2) & Hs2 & Hadv2). cbn [fst snd] in *. exists m2. rewrite Hr1 in Hk2.
  split; [|split; [done|by rewrite Hadv2, Hadv]]. unfold moved. cbn [fst snd].
  split; [done|]. split; [by eapply keeps_trans|]. split; [congruence|]. split; [congruence|lia].
Qed.

Lemma open_saved x m tid nm c : saved x m -> BTreeMap.sorted (index (state x)) -> exists x',
  reads m (open (P := P) tid nm (root_page_id x) c) (Ok x') /\ index (state x') = index (state x) /\
  next_segment_id (state x') = next_segment_id (state x) /\ entry_count (state x') = entry_count (state x) /\
  total_size (state x') = total_size (state x).
Proof.
  intros (s & d & Hd & Hfrom & Hi & H1' & H2' & H3') Hs. eexists. split.
  - unfold open. eapply reads_bind.
    { intros st Hh. destruct (read_page_ok st m _ d Hh Hd) as (st' & Hr & Hh' & Hst). exists st'. split; [|done].
      unfold Segment.named_call, TimeBucket.on_pager. by rewrite Hr. }
    eapply reads_bind; [apply reads_lift; rewrite Hfrom; reflexivity|]. apply reads_ret.
  - cbn. rewrite (rebuild (index s) []) by by rewrite Hi. by rewrite Hi.
Qed.

(** A new table and the calls on it. *)
Definition history (now : Z) (tid : TableId) (nm : string) (c : AppendLogConfig.t) (l : list event) : stateful P TableError t := fun p =>
  match new now tid nm c p with
  | (Ok x, p) => let '(r, (x, p)) := perform_all l (x, p) in
      (match r with Ok _ => Ok x | Err e => Err e | Panic => Panic end, p)
  | (Err e, p) => (Err e, p)
  | (Panic, p) => (Panic, p)
  end.
Lemma log_new_ok now tid nm c st m : holds st m -> max_metadata <= data_size st -> next_page_id st + 2 < 2 ^ 64 ->
  steps (new now tid nm c) st (fun x st' => exists m', live x st' m' /\ saved x m' /\ root_page_id x = next_page_id st /\ config x = c /\
    contents x = [] /\ next_page_id st' + zlen (Segment.write_buffer (active_segment (state x))) = next_page_id st + 2 /\
    m !! root_page_id x = None /\ forall p, is_Some (m !! p) -> m' !! p = m !! p).
Proof.
  intros Hh Hp Hn. set (x0 sg := mk tid nm c (next_page_id st) (mkState sg ∅ [] 1 0 0)).
  assert (Hfirst : after store_faults (root ← Segment.named_call "Failed to allocate root page" (allocate_page PageType.LsmMeta);
         s ← Segment.new now 0; mret (mk tid nm c root (mkState s ∅ [] 1 0 0))) st (fun x st' => exists sg m', x = x0 sg /\
      Segment.write_buffer sg = [] /\ holds st' m' /\ is_Some (m' !! next_page_id st) /\ next_page_id st' = next_page_id st + 2 /\
      data_size st' = data_size st /\ m !! next_page_id st = None /\ forall p, is_Some (m !! p) -> m' !! p = m !! p)).
  { eapply after_bind; [apply SegmentLaws.after_named, (allocate_page_ok st m PageType.LsmMeta Hh eq_refl); lia|].
    intros root st1 (-> & Hn1 & Hfresh & _ & Hh1 & Hd1 & _). eapply after_bind; [apply (SegmentLaws.new_segment_ok now 0 st1 _ Hh1); lia|].
    intros sg st2 (Hh2 & Hf2 & Hn2 & Hd2 & ->). unfold after. cbn. eexists _, _. split_and!; [done|done|exact Hh2| |lia|lia|done|].
    - rewrite lookup_insert_ne by lia. by rewrite lookup_insert_eq.
    - intros p Hp'. assert (p <> next_page_id st) by (intros ->; rewrite Hfresh in Hp'; by destruct Hp').
      assert (p <> next_page_id st1). { intros ->. rewrite lookup_insert_ne in Hf2 by done. rewrite Hf2 in Hp'. by destruct Hp'. }
      by rewrite !lookup_insert_ne. }
  unfold steps, after, new in *. destruct ((Segment.named_call _ _ ≫= _) st) as [[x|e|] st1]; [|by left|done]. destruct Hfirst as (sg & m1 & -> & Hb & Hh1 & Hr1 & Hn1 & Hd1 & Hfresh & Hold).
  assert (Hl : live (x0 sg) st1 m1) by (constructor; cbn; [done|done|lia|constructor]).
  pose proof (persist_ok (x0 sg) st1 m1 Hl) as Hper. unfold steps in *. destruct (persist_metadata (x0 sg, st1)) as [[[]|e|] [x2 st2]]; [|done|done].
  cbn [fst snd] in Hper. destruct Hper as (-> & m2 & Hl2 & Hs2 & Hk2 & Hn2). exists m2.
  split; [done|]. split; [done|]. split; [done|]. split; [done|]. split; [done|]. split; [|split; [done|]].
  - cbn. rewrite Hb. change (zlen []) with 0. lia.
  - intros p Hp'. assert (p <> next_page_id st) by (intros ->; rewrite Hfresh in Hp'; by destruct Hp'). rewrite Hk2; [by apply Hold|done|by rewrite Hold].
Qed.

(** C11: an append log keeps its keys' versions.  On a new log without a
    retention policy, any sequence of puts, deletions, commits and flushes,
    through every roll of the active segment, fails only where the page store
    does or where the metadata does not fit its page, and leaves every other
    page as it was.  Afterwards a read at an LSN answers what the sequence
    of version chains says, deletions and empty values reading as absent, and
    the log opened at its root page has the same index and counters and so
    answers every read the same. *)
Theorem append_log_survives (now : Z) (tid : TableId) (nm : string) (c : AppendLogConfig.t) (l : list event) (st : P) (m : gmap PageId bytes)
    (Hh : holds st m) (Hret : AppendLogConfig.retention_policy c = KeepSegments) (Hp : max_metadata <= data_size st)
    (Hn : next_page_id st + 2 + total_cost l < 2 ^ 64) :
  steps (history now tid nm c l) st (fun x st' => exists m', holds st' m' /\ (forall p, is_Some (m !! p) -> m' !! p = m !! p) /\
    (forall key lsn, get_at key lsn x = shown (BTreeMap.get (foldl advance [] l) key) lsn) /\
    exists x', reads m' (open (P := P) tid nm (root_page_id x) c) (Ok x') /\ index (state x') = index (state x) /\
      next_segment_id (state x') = next_segment_id (state x) /\ entry_count (state x') = entry_count (state x) /\
      total_size (state x') = total_size (state x) /\ forall key lsn, get_at key lsn x' = get_at key lsn x).
Proof.
  pose proof (total_cost_nonneg l) as Hc0. pose proof (log_new_ok now tid nm c st m Hh Hp ltac:(lia)) as Hnew. unfold steps, history in *.
  destruct (new now tid nm c st) as [[x|e|] st1]; [|done|done].
  destruct Hnew as (m1 & Hl1 & Hs1 & Hr1 & Hc1 & Hcont & Hn1 & Hfresh & Hold).
  pose proof (log_perform_all_ok l x st1 m1 (next_page_id st + 2) Hl1 ltac:(by rewrite Hc1) Hs1 ltac:(lia) ltac:(lia)) as Hall. unfold steps in Hall.
  destruct (perform_all l (x, st1)) as [[[]|e|] [x2 st2]]; [|done|done].
  destruct Hall as (m2 & (Hl2 & Hk2 & Hr2 & _ & _) & Hs2 & Hcont2). cbn [fst snd] in *. exists m2. split; [by destruct Hl2|]. split; [|split].
  - intros p Hp'. rewrite Hk2; [by apply Hold| |by rewrite Hold]. intros ->. rewrite Hfresh in Hp'. by destruct Hp'.
  - intros key lsn. by rewrite get_shown, Hcont2, Hcont.
  - destruct (open_saved x2 m2 tid nm c Hs2 (lv_sorted _ _ _ Hl2)) as (x' & Ho & Hi & Hx1 & Hx2 & Hx3). exists x'. split_and!; try done.
    intros key lsn. unfold get_at, get. by rewrite Hi.
Qed.
End Table.
End AppendLogLaws.

(** ** A concrete codec and samples *)
Module ToyJson.
Definition segment_fields (p : PersistedSegment) :=
  let m := ps_metadata p in
  ((sm_id m, created_at m, entry_count m), (segment_bytes m, first_page m, last_page m), (ps_buffer p, ps_flushed_pages p)).
Definition of_segment_fields (x : (Z * Z * Z) * (Z * Z * Z) * (list Z * list Z)) : PersistedSegment :=
  let '((a, b, c), (d, e, f), (buffer, pages)) := x in mkPersistedSegment (mkSegmentMetadata a b c d e f) buffer pages.
Definition entry_fields (x : bytes * IndexEntry) : bytes * Z * (Z * bytes) :=
  (x.1, ix_segment x.2, (ix_offset x.2, ToyChains.enc (ix_chain x.2))).
Definition of_entry_fields (x : bytes * Z * (Z * bytes)) : option (bytes * IndexEntry) :=
  let '(k, s, (o, c)) := x in chain ← fst <$> ToyChains.dec (length c) c; Some (k, mkIndexEntry s o chain).
Definition fields (x : PersistedAppendLogState) :=
  ((segment_fields (pl_active x), map segment_fields (pl_immutable x)), map entry_fields (pl_index x),
   (pl_next_segment_id x, pl_entry_count x, pl_total_size x)).
Definition number_bytes (z : Z) : bytes := to_le_bytes (Z.to_nat (Z.log2 z / 8 + 1)) z.
Definition to (x : PersistedAppendLogState) : option bytes := Some (number_bytes (Zpos (encode (fields x)))).
Definition from (bs : bytes) : option PersistedAppendLogState :=
  match get_le (E := TableError) (zlen bs) 0 bs with
  | Ok (Zpos p) =>
      '((a, imm), idx, (n, count, total)) ← decode p;
      l ← mapM of_entry_fields idx;
      Some (mkPersistedState (of_segment_fields a) (map of_segment_fields imm) l n count total)
  | _ => None
  end.

Lemma segment_back p : of_segment_fields (segment_fields p) = p.
Proof. by destruct p as [[] ? ?]. Qed.
Lemma entry_back x : of_entry_fields (entry_fields x) = Some x.
Proof.
  destruct x as [k [s o c]]. unfold of_entry_fields, entry_fields. simpl. pose proof (ToyChains.dec_enc c (length (ToyChains.enc c)) [] (ToyChains.versions_le_enc c)) as Hd.
  rewrite app_nil_r in Hd. by rewrite Hd.
Qed.
Lemma number_back z : 0 < z -> get_le (E := TableError) (zlen (number_bytes z)) 0 (number_bytes z) = Ok z.
Proof.
  intros Hz. unfold number_bytes. pose proof (Z.log2_nonneg z) as Hlog. pose proof (Z.div_pos (Z.log2 z) 8 Hlog ltac:(lia)) as Hdiv.
  rewrite zlen_to_le_bytes. apply get_le_here_last; [done|done|]. unfold fits. split; [lia|].
  pose proof (Z.log2_spec z Hz) as [_ Hlt]. eapply Z.lt_le_trans; [exact Hlt|]. apply Z.pow_le_mono_r; [lia|].
  pose proof (Z.div_mod (Z.log2 z) 8 ltac:(lia)). pose proof (Z.mod_pos_bound (Z.log2 z) 8 ltac:(lia)). lia.
Qed.
#[export] Instance toy : JsonCodec := {| state_to := to; state_from := from |}.
#[export] Instance toy_laws : JsonLaws.
Proof.
  constructor. intros x bs. cbn [state_to state_from toy]. unfold to, from. intros [= <-]. rewrite number_back by done.
  rewrite decode_encode. cbn [mbind option_bind]. unfold fields. cbv beta iota.
  assert (Hm : mapM of_entry_fields (map entry_fields (pl_index x)) = Some (pl_index x)).
  { apply mapM_Some. induction (pl_index x) as [|e l IH]; constructor; [apply entry_back|done]. }
  rewrite Hm. cbn [mbind option_bind]. rewrite segment_back, map_map, (map_ext _ id) by apply segment_back. rewrite map_id. by destruct x.
Qed.
End ToyJson.

Module SampleLog.
Import AppendLogTable AppendLogLaws.
#[local] Existing Instance ToyJson.toy.
#[local] Existing Instance ToyJson.toy_laws.

Definition puts : list (SegmentLaws.entry * Z) := [(([1], [10; 11]), 12); (([2], []), 12); (([1], [12]), 12)].
(** Every put begins a new segment. *)
Definition cfg : AppendLogConfig.t := AppendLogConfig.with_segment_size 1 AppendLogConfig.default.
Definition events : list event :=
  [Put 100 [1] [7] 1; CommitTx 1 5; Put 101 [2] [8] 2; FlushSegment; CommitTx 2 6; Del [2] 3; CommitTx 3 8].
Definition table_after (l : list event) : outcome TableError t * MemoryPages.t := history 100 4 "log" cfg l MemoryPages.new.
Definition call {A} (m : stateful (t * MemoryPages.t) TableError A) (r : outcome TableError t * MemoryPages.t) : option (outcome TableError A * t) :=
  match r with (Ok x, p) => let '(a, (x, _)) := m (x, p) in Some (a, x) | _ => None end.

(** An entry that crosses the end of the flushed bytes cannot be read: with
    the default buffer of 4096 bytes and 4016 bytes to a page. *)
Example straddling_entry_lost :
  match SegmentLaws.filled 100 0 [(([1], replicate 3000 0), 4096); (([2], replicate 1500 0), 4096)] MemoryPages.new with
  | (Ok (offs, s), st) => offs = [0; 3009] /\ (Segment.read_at 3009 s st).1 = Ok None
  | _ => False
  end.
Proof. vm_compute. split; reflexivity. Qed.

(** A key whose newest version is older than the vacuum's bound is removed
    with its segment, although every later read should see it. *)
Example vacuum_loses_live_key :
  let r := table_after [Put 100 [1] [7] 1; CommitTx 1 5; Put 101 [2] [8] 2; CommitTx 2 6] in
  match r with (Ok x, _) => get_at [1] 9 x = Some [7] | _ => False end /\
  match call (vacuum 6) r with Some (Ok _, x) => get_at [1] 9 x = None /\ get_at [2] 9 x = Some [8] | _ => False end.
Proof. vm_compute. split; [|split]; reflexivity. Qed.

(** A scan lists the keys of the index, deleted ones too. *)
Example scan_lists_deleted_key :
  match table_after events with
  | (Ok x, _) => get_at [2] 9 x = None /\
      match scan All 9 x with Ok c => cursor_key (next c) = Some [2] | _ => False end
  | _ => False
  end.
Proof. vm_compute. split; reflexivity. Qed.
End SampleLog.

Lemma segment_reads_back_witness : exists offs s st st1, SegmentLaws.filled 100 0 SampleLog.puts MemoryPages.new = (Ok (offs, s), st) /\
  offs = [0; 11; 20] /\ Segment.flushed_pages s <> [] /\ Segment.read_at 0 s st = (Ok (Some [10; 11]), st1).
Proof.
  pose proof (SegmentLaws.segment_reads_back 100 0 SampleLog.puts MemoryPages.new ∅ MemoryPages.new_holds
    ltac:(repeat constructor; done) ltac:(vm_compute; reflexivity)) as Hr.
  unfold after in Hr. destruct (SegmentLaws.filled 100 0 SampleLog.puts MemoryPages.new) as [[[offs s]|e|] st] eqn:Hf; [|destruct Hr|destruct Hr].
  vm_compute in Hf. injection Hf as <- <- <-. destruct Hr as (m' & Hm & _ & _ & _ & Hr).
  destruct (Hr 0%nat ([1], [10; 11]) 12 eq_refl) as (off & [= <-] & _ & Hw).
  destruct (Hw 12 ltac:(lia) ltac:(apply (bool_decide_eq_true_1 (Forall (SegmentLaws.flushed_whole (SegmentLaws.payload MemoryPages.new) 12) SampleLog.puts)); vm_compute; reflexivity) _ Hm) as (st1 & Hread & _).
  eexists _, _, _, st1. split; [reflexivity|]. split; [reflexivity|]. split; [discriminate|exact Hread].
Defined.

Lemma append_log_survives_witness : exists x st x' st', SampleLog.table_after SampleLog.events = (Ok x, st) /\
  AppendLogTable.get_at [1] 9 x = Some [7] /\ AppendLogTable.get_at [2] 7 x = Some [8] /\ AppendLogTable.get_at [2] 9 x = None /\
  AppendLogTable.open (H := ToyJson.toy) 4 "log" (AppendLogTable.root_page_id x) SampleLog.cfg st = (Ok x', st') /\
  AppendLogTable.get_at [1] 9 x' = Some [7].
Proof.
  pose proof (AppendLogLaws.append_log_survives (H0 := ToyJson.toy_laws) 100 4 "log" SampleLog.cfg SampleLog.events MemoryPages.new ∅ MemoryPages.new_holds
    eq_refl ltac:(vm_compute; discriminate) ltac:(vm_compute; reflexivity)) as Hr.
  unfold AppendLogLaws.steps in Hr.
  assert (Hok : exists x st, SampleLog.table_after SampleLog.events = (Ok x, st)) by (eexists _, _; vm_compute; reflexivity).
  destruct Hok as (x & st & Hok). unfold SampleLog.table_after in Hok. rewrite Hok in Hr. destruct Hr as (m' & Hm & _ & Hget & x' & Hopen & _ & _ & _ & _ & Hsame).
  destruct (Hopen st Hm) as (st' & Ho & _). exists x, st, x', st'. rewrite Hsame, !Hget. split; [exact Hok|].
  split; [vm_compute; reflexivity|]. split; [vm_compute; reflexivity|]. split; [vm_compute; reflexivity|]. split; [exact Ho|vm_compute; reflexivity].
Defined.
